(* ===== verification/_CoqProject ===== *)
-Q . S2P
Prelude.v
Text.v
Types.v
Cluster.v
LockServer.v
Dsync.v
Kv.v
KvClient.v
Rdma.v
RdmaPool.v
Pool.v
Ec.v
Streams.v
Auth.v
Body.v
EcStream.v
Get.v
Consensus.v
Listing.v
XlMeta.v
Fs.v
LocalFs.v
Backend.v
Put.v
Format.v
Config.v
Rpc.v
RdmaKv.v
Drives.v
RdmaDrive.v
Engine.v
Bucket.v
PutEc.v
Multipart.v
S3.v
Buckets.v
