(* ===== verification/Prelude.v ===== *)
(** * OpenLake verification library

    A model of OpenLake, a distributed object store with an S3 front end, and
    the theorems that make its core correct.  Definitions are translated from
    the Rust sources under [src/crates] and keep their names; they are
    executable, and the examples and witnesses evaluate them.

    ** The program

    A request enters [openlake_server]: [auth.rs] and [s3/middleware/sigv4.rs]
    check its signature, [s3/handlers/objects.rs] turns it into a call of the
    engine and [s3/body_source.rs] turns its body into a byte stream.  The engine
    of [openlake_storage] ([engine.rs]) picks the erasure set of the key
    ([cluster.rs]), takes a lease on a quorum of lock servers ([dsync.rs],
    [lock_server.rs]), and stores the object on every drive of the set, whole in
    the metadata file when it is small, in coded shards otherwise ([ec.rs]).  A
    drive is a directory tree ([openlake_io/src/local_fs.rs]) with one metadata
    file per object ([xl_meta.rs]).  A read asks every drive of the set for its
    record, votes ([read_with_consensus]) and rebuilds the bytes from any quorum
    of shards.  A second service, the KV plane ([kv.rs], [kv_slab.rs],
    [kv_engine.rs]), caches blocks in slabs of fixed slots; its clients
    ([openlake_kv_client]) spread their keys over the nodes and move the bytes
    themselves, through shared memory or through RDMA.  A node starts from a
    configuration ([config.rs]) that [main.rs] turns into the tables the engine
    works on.

    ** Files

    - [Prelude]: results with the [?] operator as a monad, counting and voting
      over lists, the iteration order of hash maps as a class, tactics and the
      [openlake] hints; [Text]: strings, integers in text, UTF-8.
    - [Types]: the records and errors that cross components ([types.rs],
      [error.rs], [object.rs], wire errors of [rpc.rs]).
    - [Cluster]: [cluster.rs].  Every key goes to one set of different drives,
      and the sets partition the cluster.
    - [LockServer] and [Dsync]: [lock_server.rs], the lock calls of
      [remote_fs.rs] and [rpc_server.rs], [dsync.rs].  Steps of servers and
      clients are interleaved; two holders of one resource exclude each other as
      long as the leases are refreshed in time, an acquire that succeeds holds a
      quorum, one that fails holds nothing, and the retry loop ends.  The class
      [LockPeer] is the interface between the two.
    - [Kv]: [kv.rs], [kv_slab.rs], [kv_engine.rs].  The slot pool with its
      arrays and links keeps its structure and refines a cache of key and bytes.
    - [Ec], [Streams], [EcStream], [Get]: [ec.rs], [stream.rs] and the data paths
      of [engine.rs].  The class [ByteStream] says what a stream promises
      ([yields]: exactly these bytes; [serves]: no other bytes), each adapter is
      an instance, and the theorems on loops are proved against the class.  What
      a PUT writes, a GET reads back, in whole or in any window, from any quorum
      of shards.  [ObjectReader] is what the engine promises to the handlers.
    - [Consensus], [Listing]: the vote on the records of the drives, and the
      merges of a listing, which equal a reference merge of all streams.
    - [XlMeta]: [xl_meta.rs].  What is encoded is decoded, and what is accepted
      is well formed.
    - [Fs], [LocalFs]: the file tree of a drive under any pattern of failing
      calls, and [local_fs.rs] on it.  A promotion is all or nothing, its undo
      restores the prior version, and what the undo of a new version destroys.
    - [Backend]: the backend trait as the class [StorageBackend], and the
      streaming reader and writer of a local drive.  A file written is read back
      in any window, whatever calls failed on the way.
    - [Put], [PutEc]: the inline and the erasure-coded write path.
      [PromotionLaws] is what the engine needs of a drive, [ShardFiles] a drive
      with shard files; local drives discharge both.  A PUT that succeeds is
      agreed on by the consensus of later reads and its bytes are delivered, in
      whole or in any range, with up to [parity] drives down.
    - [Rpc], [Drives]: [rpc.rs], [rpc_server.rs], [remote_fs.rs].  A remote call
      is the call on the peer's disk, seen through the wire and its losses; the
      streams deliver exactly what was sent or report an error.  A remote drive
      satisfies the laws of a drive, so the PUT of a cluster of local and remote
      drives is read back.
    - [Engine], [Bucket], [Multipart]: the engine over its drives: reads,
      deletes, buckets and their configuration, multipart uploads.  The stored
      configuration is read back, accepted names are safe, which session wins a
      vote, what a completed upload guarantees, and what creating a bucket twice
      destroys.
    - [Pool]: [alloc/memory_pool.rs], [alloc/buffer.rs].  The counters of the
      buffer pool are the buffers handed out, along every history.
    - [Format]: [format.rs], the boot of a node.  It joins the cluster most disks
      belong to and writes nothing; a first boot cut short leaves the cluster
      down.  The class [FormatBackend] is a disk with a format file.
    - [Auth], [Body]: [auth.rs], [sigv4.rs], [body_source.rs].  The middleware
      accepts exactly the authentic requests; the chunked decoder inverts the
      framing for every cut into frames and delivers only payloads that stand in
      the body behind a header with their signature.
    - [S3], [Buckets]: [s3/error.rs], [s3/xml.rs], [handlers/objects.rs],
      [handlers/buckets.rs], the in-memory store.  A GET answers with the status,
      headers and bytes its [Range] text asks for; following the continuation
      tokens lists every object and every common prefix exactly once.
      [ObjectLister] is what the listing needs of the engine.
    - [Config]: [config.rs], the start of the process in [main.rs] and its
      tables.  An accepted configuration with different node ids gives a node
      that starts, on a well formed topology, with a backend for every disk and
      the right lock peers, except in two cases in which it panics: a buffer pool
      with queues of no capacity, and a node id from the environment that is not
      in the table.
    - [KvClient]: [client.rs], [transport.rs], [shm_local.rs] of the KV client.
      The class [Protocol] is the trait of a transport; [Served] and [ServedAt]
      say that a server answers as [Kv] does.  A batch put through shared memory
      is read back, and existence is asked of the node that owns the key.
    - [Rdma]: [rdma/wr.rs], [rdma/buffers.rs] and the credits of
      [rdma/socket.rs].  The credit window bounds what is under way; a link at
      rest can send as long as the credits it has lost leave room for an
      acknowledgement batch, and lost credits never come back; the ring never
      hands out a buffer in flight.
    - [RdmaKv]: [kv_backend.rs], the RDMA side of [kv_engine.rs] and
      [protocol.rs] of the KV client.  A put changes no byte outside the slab and
      its staging buffers, one that succeeds left every value in its slot, and
      one that does not return waits for a buffer, for credit or for a window.
    - [RdmaPool]: the buffer pool of [rdma/rdma_buf.rs].  No buffer has two users,
      and cancelled waiters can empty the pool for good.
    - [RdmaDrive]: [rdma_backend.rs], [rdma_server.rs] and the chunk calls of
      [local_fs.rs].  A file written to a drive of another node over RDMA is read
      back, window by window; what a failed copy or a lost answer leaves.

    ** Conventions

    A panic, and a loop that has run out of fuel, is [None]; theorems about
    results show that [Some] is returned, so fuel is never a hypothesis about the
    code: loops over a stream take as fuel the bytes or frames that are left,
    loops over lists their length, the retry loop of a lock the rounds that fit
    in its deadline.  Machine integers are [Z] with the wrap-around written out
    where arithmetic can leave the width, or [nat] where a count cannot.  Clocks,
    random numbers and network fates are inputs.  Parameters stand for libraries
    that are not in the repository: SipHash, Reed-Solomon, BLAKE3, MD5, SHA-256,
    xxh64, msgpack, bincode, base64, CRC-32C, the signer, dates, HTTP header values, XML.  What is needed
    of them (a Reed-Solomon code recovers from any [n] shards, a codec reads what
    it wrote, visible ASCII makes a header value) is a hypothesis with an
    instance in the witnesses.  Concurrent calls of one fan-out act on different
    drives or peers and are taken in list order.

    ** Not modelled

    Crashes and [fsync], the purge worker of a local drive, a cached handle whose
    file is moved or removed, the segments [.] and [..] of an object key, which
    the operating system resolves and the model takes as names, interleavings inside one call of the buffer pool;
    of the RDMA transport, setting up the network card and its completion queue;
    the GPU copies and the Python bindings of the KV client;
    threads, sockets and certificates of [main.rs], the routing table and the
    text of XML documents; the command line, metrics and vendored libraries.
    Their behaviour is that of devices, of the operating system or of other
    programs. *)

From stdpp Require Import base gmap strings fin_maps sorting numbers list.
From Stdlib Require Import Lia.
From Stdlib Require Export Strings.Byte.

#[global] Open Scope nat_scope.

(** ** Results

    Rust's [Result<A, E>] with its constructors.  The monad structure is
    stdpp's, so [x ← e; k] is the [?] operator. *)

Inductive result (E A : Type) : Type :=
  | Ok (a : A)
  | Err (e : E).
Arguments Ok {E A} a.
Arguments Err {E A} e.

#[global] Instance result_ret {E} : MRet (result E) := λ A a, Ok a.
#[global] Instance result_bind {E} : MBind (result E) := λ A B f r,
  match r with Ok a => f a | Err e => Err e end.
#[global] Instance result_fmap {E} : FMap (result E) := λ A B f r,
  match r with Ok a => Ok (f a) | Err e => Err e end.
#[global] Instance result_eq_dec {E A} `{EqDecision E, EqDecision A} :
  EqDecision (result E A).
Proof. solve_decision. Defined.

(** [Result::map_err], [Result::is_ok], [Result::ok]. *)
Definition map_err {E F A} (f : E → F) (r : result E A) : result F A :=
  match r with Ok a => Ok a | Err e => Err (f e) end.
Definition is_ok {E A} (r : result E A) : bool :=
  match r with Ok _ => true | Err _ => false end.
Definition res_ok {E A} (r : result E A) : option A :=
  match r with Ok a => Some a | Err _ => None end.

(** [iter.collect::<Result<Vec<_>, _>>()]: the first error, in order, wins. *)
Fixpoint collect {E A} (rs : list (result E A)) : result E (list A) :=
  match rs with
  | [] => Ok []
  | r :: rs => a ← r; l ← collect rs; mret (a :: l)
  end.

(** [Option::ok_or]. *)
Definition ok_or {E A} (o : option A) (e : E) : result E A :=
  match o with Some a => Ok a | None => Err e end.

(** Enumerated traversal: [iter().enumerate()]. *)
Definition enumerate {A} (l : list A) : list (nat * A) := zip (seq 0 (length l)) l.

(** ** [Iterator::max_by_key]

    The last of the elements with the greatest key, as the standard library
    specifies; [None] on the empty iterator. *)
Fixpoint max_by_key {A} (key : A → nat) (l : list A) : option A :=
  match l with
  | [] => None
  | x :: l =>
      match max_by_key key l with
      | None => Some x
      | Some y => if key x <=? key y then Some y else Some x
      end
  end.

(** ** Hash maps

    A [HashMap] is a [gmap]; the order in which its entries are visited is not
    specified by the standard library, so every function that iterates a
    [HashMap] takes the order from this interface.  The only promise is that
    each entry is visited exactly once. *)
Class HashIter (K : Type) `{Countable K} := {
  hash_iter : ∀ {V : Type}, gmap K V → list (K * V);
  hash_iter_perm : ∀ {V : Type} (m : gmap K V), hash_iter m ≡ₚ map_to_list m
}.

(** One admissible order, used to evaluate definitions on concrete inputs. *)
Definition listed_order (K : Type) `{Countable K} : HashIter K :=
  {| hash_iter := λ V m, map_to_list m;
     hash_iter_perm := λ V m, Permutation_refl _ |}.

(** [for (k, a) in l { let slot = m.entry(k).or_insert_with(|| init(a)); upd(slot, a) }] *)
Definition entry_step {K A V} `{Countable K} (init : A → V) (upd : V → A → V)
    (m : gmap K V) (ka : K * A) : gmap K V :=
  <[ka.1 := upd (default (init ka.2) (m !! ka.1)) ka.2]> m.
Definition entry_fold {K A V} `{Countable K} (init : A → V) (upd : V → A → V)
    (l : list (K * A)) : gmap K V :=
  foldl (entry_step init upd) ∅ l.

(** [*counts.entry(k).or_insert(0) += 1] over a list of keys. *)
Definition tally {K} `{Countable K} (l : list K) : gmap K nat :=
  entry_fold (λ _, 0) (λ n _, S n) ((λ k, (k, tt)) <$> l).

(** The number of occurrences of [k], the reference for [tally]. *)
Definition count {K} `{EqDecision K} (k : K) (l : list K) : nat :=
  length (filter (λ x, x = k) l).

(** The payloads listed under [k], the reference for [entry_fold]. *)
Definition payloads {K A} `{EqDecision K} (k : K) (l : list (K * A)) : list A :=
  snd <$> filter (λ ka, ka.1 = k) l.

(** ** Byte-lexicographic order on strings ([str::cmp]) *)
Definition str_ltb (a b : string) : bool := String.ltb a b.
Definition str_lt (a b : string) : Prop := str_ltb a b = true.

(** ** Bytes *)
#[global] Instance byte_eq_decision : EqDecision byte := byte_eq_dec.
#[global] Program Instance byte_countable : Countable byte :=
  inj_countable Byte.to_N Byte.of_N _.
Next Obligation. apply Byte.of_to_N. Qed.

Abbreviation bytes := (list byte).

(** [n] little-endian bytes of a machine integer ([to_le_bytes]), the number
    they stand for, and the big-endian forms. *)
Definition byte_of_Z (z : Z) : byte := default x00 (Byte.of_N (Z.to_N (z `mod` 256)%Z)).
Definition Z_of_byte (b : byte) : Z := Z.of_N (Byte.to_N b).
Fixpoint le_bytes (n : nat) (z : Z) : bytes :=
  match n with
  | 0 => []
  | S n => byte_of_Z z :: le_bytes n (z / 256)%Z
  end.
Definition from_le_bytes (l : bytes) : Z := foldr (λ b acc, (Z_of_byte b + 256 * acc)%Z) 0%Z l.
Definition be_bytes (n : nat) (z : Z) : bytes := reverse (le_bytes n z).
Definition from_be_bytes (l : bytes) : Z := from_le_bytes (reverse l).
Definition u8_byte (n : nat) : byte := default x00 (Byte.of_N (N.of_nat n `mod` 256)%N).
Definition str_bytes (s : string) : bytes := String.list_byte_of_string s.

(** [slice[lo..hi]] of a slice that is long enough. *)
Definition sub_bytes (lo hi : nat) (l : bytes) : bytes := take (hi - lo) (drop lo l).

(** [sort_by]: the stable sort, [before x y] telling that [x] may stay in front
    of a [y] that follows it. *)
Fixpoint insert_by {A} (before : A → A → bool) (x : A) (l : list A) : list A :=
  match l with
  | [] => [x]
  | y :: l' => if before x y then x :: l else y :: insert_by before x l'
  end.
Definition sort_by {A} (before : A → A → bool) (l : list A) : list A := foldr (insert_by before) [] l.

(** ** Machine integers *)
Definition u8_mod : Z := (2 ^ 8)%Z.
Definition u16_mod : Z := (2 ^ 16)%Z.
Definition u32_mod : Z := (2 ^ 32)%Z.
Definition u64_mod : Z := (2 ^ 64)%Z.
Definition is_u8 (z : Z) : Prop := (0 ≤ z < u8_mod)%Z.
Definition is_u16 (z : Z) : Prop := (0 ≤ z < u16_mod)%Z.
Definition is_u32 (z : Z) : Prop := (0 ≤ z < u32_mod)%Z.
Definition is_u64 (z : Z) : Prop := (0 ≤ z < u64_mod)%Z.

(** ** Tactics and hints of the development *)

Create HintDb openlake.

(** Splits the goal's and the hypotheses' [if]s on booleans. *)
Ltac case_bool :=
  match goal with
  | |- context [if ?b then _ else _] => destruct b eqn:?
  | H : context [if ?b then _ else _] |- _ => destruct b eqn:?
  end.

(** Boolean comparisons to propositions, everywhere. *)
Ltac to_prop :=
  repeat match goal with
  | H : (_ <=? _) = true |- _ => apply Nat.leb_le in H
  | H : (_ <=? _) = false |- _ => apply Nat.leb_gt in H
  | H : (_ <? _) = true |- _ => apply Nat.ltb_lt in H
  | H : (_ <? _) = false |- _ => apply Nat.ltb_ge in H
  | H : (_ =? _) = true |- _ => apply Nat.eqb_eq in H
  | H : (_ =? _) = false |- _ => apply Nat.eqb_neq in H
  | H : (_ <=? _)%Z = true |- _ => apply Z.leb_le in H
  | H : (_ <=? _)%Z = false |- _ => apply Z.leb_gt in H
  | H : (_ <? _)%Z = true |- _ => apply Z.ltb_lt in H
  | H : (_ <? _)%Z = false |- _ => apply Z.ltb_ge in H
  | H : (_ =? _)%Z = true |- _ => apply Z.eqb_eq in H
  | H : (_ =? _)%Z = false |- _ => apply Z.eqb_neq in H
  | H : _ && _ = true |- _ => apply andb_prop in H as [? ?]
  | H : _ || _ = false |- _ => apply orb_false_elim in H as [? ?]
  | H : negb _ = true |- _ => apply negb_true_iff in H
  | H : negb _ = false |- _ => apply negb_false_iff in H
  end.

(** ** Shared lemmas *)

Lemma max_by_key_None {A} (key : A → nat) l :
  max_by_key key l = None ↔ l = [].
Proof.
  destruct l as [|x l]; simpl; [done|].
  split; [|done]. by destruct (max_by_key key l); [case_bool|].
Qed.

Lemma max_by_key_elem {A} (key : A → nat) l x :
  max_by_key key l = Some x → x ∈ l.
Proof.
  revert x; induction l as [|y l IH]; intros x; simpl; [done|].
  destruct (max_by_key key l) as [z|]; [case_bool|]; intros [= <-];
    [right; by apply IH|left..].
Qed.

Lemma max_by_key_max {A} (key : A → nat) l x y :
  max_by_key key l = Some x → y ∈ l → key y ≤ key x.
Proof.
  revert x; induction l as [|z l IH]; intros x; simpl; [done|].
  intros Hmax [->|Hy]%elem_of_cons; destruct (max_by_key key l) as [w|] eqn:E.
  - case_bool; simplify_eq; to_prop; lia.
  - by simplify_eq.
  - case_bool; simplify_eq; to_prop; [by apply IH|].
    specialize (IH w eq_refl Hy). lia.
  - apply max_by_key_None in E as ->. by apply elem_of_nil in Hy.
Qed.

Lemma payloads_cons {K A} `{EqDecision K} (k : K) ka (l : list (K * A)) :
  payloads k (ka :: l) =
    if decide (ka.1 = k) then ka.2 :: payloads k l else payloads k l.
Proof. unfold payloads. rewrite filter_cons. by case_decide. Qed.

Lemma payloads_app {K A} `{EqDecision K} (k : K) (l1 l2 : list (K * A)) :
  payloads k (l1 ++ l2) = payloads k l1 ++ payloads k l2.
Proof. unfold payloads. by rewrite list.filter_app, fmap_app. Qed.

Lemma elem_of_payloads {K A} `{EqDecision K} (k : K) a (l : list (K * A)) :
  a ∈ payloads k l ↔ (k, a) ∈ l.
Proof.
  unfold payloads. rewrite list_elem_of_fmap. setoid_rewrite list_elem_of_filter.
  split; [intros ([k' a'] & ? & ? & ?)|intros]; simplify_eq/=; [done|].
  by exists (k, a).
Qed.

(** The entry under [k] is the fold of exactly the payloads listed under [k]. *)
Lemma entry_fold_lookup {K A V} `{Countable K} (init : A → V) (upd : V → A → V)
    (l : list (K * A)) (k : K) :
  entry_fold init upd l !! k =
    match payloads k l with
    | [] => None
    | a :: as_ => Some (foldl upd (upd (init a) a) as_)
    end.
Proof.
  unfold entry_fold. induction l as [|[k' a'] l IH] using rev_ind; [done|].
  rewrite foldl_app, payloads_app, payloads_cons. simpl. unfold entry_step at 1.
  simpl. destruct (decide (k' = k)) as [->|Hne].
  - rewrite lookup_insert_eq, IH. destruct (payloads k l) as [|a as_]; [done|].
    simpl. by rewrite foldl_app.
  - rewrite lookup_insert_ne, IH by done. by rewrite app_nil_r.
Qed.

Lemma foldl_succ {A} (l : list A) n : foldl (λ n _, S n) n l = n + length l.
Proof. revert n; induction l as [|x l IH]; intros n; simpl; [lia|]. rewrite IH. lia. Qed.

Lemma length_payloads_units {K} `{EqDecision K} (k : K) l :
  length (payloads k ((λ k, (k, tt)) <$> l)) = count k l.
Proof.
  unfold count. induction l as [|x l IH]; [done|].
  rewrite fmap_cons, payloads_cons, filter_cons. simpl.
  case_decide; [|done]. rewrite !length_cons. by f_equal.
Qed.

Lemma tally_lookup {K} `{Countable K} (l : list K) k :
  tally l !! k = if decide (count k l = 0) then None else Some (count k l).
Proof.
  unfold tally. rewrite entry_fold_lookup, <-length_payloads_units.
  destruct (payloads _ _) as [|a as_]; simpl; [done|].
  by rewrite foldl_succ.
Qed.

Lemma tally_Some {K} `{Countable K} (l : list K) k n :
  tally l !! k = Some n ↔ n = count k l ∧ 0 < n.
Proof. rewrite tally_lookup. case_decide; split; intros; simplify_eq; try lia. f_equal; lia. Qed.

Lemma count_elem_of {K} `{EqDecision K} (k : K) l : 0 < count k l ↔ k ∈ l.
Proof.
  unfold count. split.
  - destruct (filter _ l) as [|x xs] eqn:E; simpl; [lia|]. intros _.
    assert (x ∈ filter (λ y, y = k) l) as Hx by (rewrite E; left).
    apply list_elem_of_filter in Hx as [-> ?]. done.
  - intros Hk. assert (k ∈ filter (λ y, y = k) l) as Hk' by by apply list_elem_of_filter.
    destruct (filter _ l); [by apply elem_of_nil in Hk'|simpl; lia].
Qed.

Lemma count_cons {K} `{EqDecision K} (k x : K) l :
  count k (x :: l) = (if decide (x = k) then 1 else 0) + count k l.
Proof. unfold count. rewrite filter_cons. by case_decide. Qed.

Lemma count_app {K} `{EqDecision K} (k : K) l1 l2 :
  count k (l1 ++ l2) = count k l1 + count k l2.
Proof. unfold count. by rewrite list.filter_app, length_app. Qed.

(** Two different values cannot both have a strict majority. *)
Lemma count_two {K} `{EqDecision K} (k1 k2 : K) l :
  k1 ≠ k2 → count k1 l + count k2 l ≤ length l.
Proof.
  intros Hne. induction l as [|x l IH]; [done|].
  rewrite !count_cons. simpl. repeat case_decide; subst; try congruence; lia.
Qed.

Lemma count_le_length {K} `{EqDecision K} (k : K) l : count k l ≤ length l.
Proof. apply length_filter. Qed.

(** Entries of a hash map, whatever the iteration order. *)
Lemma elem_of_hash_iter {K V} `{HashIter K} (m : gmap K V) k v :
  (k, v) ∈ hash_iter m ↔ m !! k = Some v.
Proof. rewrite hash_iter_perm. apply elem_of_map_to_list. Qed.

Lemma hash_iter_empty {K V} `{HashIter K} : hash_iter (∅ : gmap K V) = [].
Proof.
  apply Permutation_nil. rewrite (hash_iter_perm (∅ : gmap K V)). by rewrite map_to_list_empty.
Qed.

Lemma str_lt_spec a b : str_lt a b ↔ strict String.le a b.
Proof.
  unfold str_lt, str_ltb, strict, String.le, String.ltb, String.leb.
  rewrite (String.compare_antisym b a).
  destruct (String.compare a b) eqn:E; simpl; intuition (try done; congruence).
Qed.

#[global] Instance str_lt_strict : StrictOrder str_lt.
Proof.
  split.
  - intros x Hx%str_lt_spec. by destruct Hx.
  - intros x y z Hxy%str_lt_spec Hyz%str_lt_spec. apply str_lt_spec. by etrans.
Qed.

Lemma str_lt_trichotomy a b : str_lt a b ∨ a = b ∨ str_lt b a.
Proof.
  unfold str_lt, str_ltb, String.ltb.
  rewrite (String.compare_antisym b a).
  destruct (String.compare a b) eqn:E; simpl; auto.
  right; left. by apply String.compare_eq_iff.
Qed.

Lemma str_ltb_false a b : str_ltb a b = false → a = b ∨ str_lt b a.
Proof.
  intros H. destruct (str_lt_trichotomy a b) as [Hlt|]; [|done].
  unfold str_lt in Hlt. congruence.
Qed.

Lemma length_enumerate {A} (l : list A) : length (enumerate l) = length l.
Proof. unfold enumerate. rewrite length_zip_with, length_seq. lia. Qed.

Lemma elem_of_enumerate {A} (l : list A) i x : (i, x) ∈ enumerate l ↔ l !! i = Some x.
Proof.
  unfold enumerate. rewrite list_elem_of_lookup. setoid_rewrite lookup_zip_with_Some.
  setoid_rewrite lookup_seq. split.
  - intros (j & i' & x' & [= -> ->] & [-> ?] & ?). done.
  - intros Hi. exists i, i, x. repeat split; [|done]. by eapply lookup_lt_Some.
Qed.

Lemma omap_cons {A B} (f : A → option B) x l :
  omap f (x :: l) = match f x with Some y => y :: omap f l | None => omap f l end.
Proof. done. Qed.

Lemma length_omap {A B} (f : A → option B) (l : list A) : length (omap f l) ≤ length l.
Proof. induction l as [|x l IH]; [done|]. rewrite omap_cons. destruct (f x); simpl; lia. Qed.

Lemma omap_ext_elem {A B} (f g : A → option B) (l : list A) : (∀ x, x ∈ l → f x = g x) → omap f l = omap g l.
Proof.
  induction l as [|x l IH]; [done|]. intros Hl. rewrite !omap_cons, Hl by left.
  by rewrite IH by (intros; apply Hl; by right).
Qed.

Lemma elem_of_concat {A} (x : A) (ls : list (list A)) : x ∈ concat ls ↔ ∃ l, l ∈ ls ∧ x ∈ l.
Proof.
  induction ls as [|l ls IH]; simpl.
  - split; [intros H; by apply elem_of_nil in H|intros (l & H & _); by apply elem_of_nil in H].
  - rewrite elem_of_app, IH. setoid_rewrite elem_of_cons. firstorder (subst; eauto).
Qed.

Lemma Z_of_byte_range b : (0 ≤ Z_of_byte b < 256)%Z.
Proof. unfold Z_of_byte. pose proof (Byte.to_N_bounded b). lia. Qed.

Lemma Z_of_byte_of_Z z : Z_of_byte (byte_of_Z z) = (z `mod` 256)%Z.
Proof.
  unfold Z_of_byte, byte_of_Z. pose proof (Z.mod_pos_bound z 256 ltac:(lia)) as Hm.
  destruct (Byte.of_N (Z.to_N (z `mod` 256)%Z)) as [b|] eqn:E; cbn [from_option id].
  - apply Byte.to_of_N in E. rewrite E. lia.
  - apply Byte.of_N_None_iff in E. lia.
Qed.

Lemma length_le_bytes n z : length (le_bytes n z) = n.
Proof. revert z. induction n as [|n IH]; intros z; simpl; [done|]. by rewrite IH. Qed.

Lemma from_le_le_bytes n z : (0 ≤ z < 256 ^ Z.of_nat n)%Z → from_le_bytes (le_bytes n z) = z.
Proof.
  revert z. induction n as [|n IH]; intros z Hz; [simpl in *; lia|].
  rewrite Nat2Z.inj_succ, Z.pow_succ_r in Hz by lia. cbn [le_bytes from_le_bytes foldr].
  fold (from_le_bytes (le_bytes n (z / 256))). rewrite IH, Z_of_byte_of_Z; [pose proof (Z.div_mod z 256); lia|].
  split; [apply Z.div_pos; lia|]. apply Z.div_lt_upper_bound; lia.
Qed.

Lemma length_be_bytes n z : length (be_bytes n z) = n.
Proof. unfold be_bytes. by rewrite length_reverse, length_le_bytes. Qed.

Lemma from_be_be_bytes n z : (0 ≤ z < 256 ^ Z.of_nat n)%Z → from_be_bytes (be_bytes n z) = z.
Proof. intros Hz. unfold from_be_bytes, be_bytes. by rewrite reverse_involutive, from_le_le_bytes. Qed.

Lemma le_bytes_from_le l : le_bytes (length l) (from_le_bytes l) = l.
Proof.
  induction l as [|b l IH]; [done|]. cbn [length le_bytes from_le_bytes foldr]. fold (from_le_bytes l).
  pose proof (Z_of_byte_range b). f_equal.
  - unfold byte_of_Z. rewrite Z.mul_comm, Z.mod_add, Z.mod_small by lia. unfold Z_of_byte.
    rewrite N2Z.id, Byte.of_to_N. done.
  - rewrite Z.add_comm, Z.mul_comm, Z.div_add_l, Z.div_small, Z.add_0_r by lia. done.
Qed.

Lemma from_le_bytes_range l : (0 ≤ from_le_bytes l < 256 ^ Z.of_nat (length l))%Z.
Proof.
  induction l as [|b l IH]; [done|]. cbn [length from_le_bytes foldr]. fold (from_le_bytes l).
  pose proof (Z_of_byte_range b). rewrite Nat2Z.inj_succ, Z.pow_succ_r by lia. lia.
Qed.

Lemma be_bytes_from_be l : be_bytes (length l) (from_be_bytes l) = l.
Proof.
  unfold be_bytes, from_be_bytes. rewrite <-(length_reverse l), le_bytes_from_le. apply reverse_involutive.
Qed.

Lemma from_be_bytes_range l : (0 ≤ from_be_bytes l < 256 ^ Z.of_nat (length l))%Z.
Proof. unfold from_be_bytes. rewrite <-(length_reverse l). apply from_le_bytes_range. Qed.

Lemma insert_by_perm {A} before (x : A) l : insert_by before x l ≡ₚ x :: l.
Proof.
  induction l as [|y l IH]; simpl; [done|]. case_bool; [done|]. rewrite IH. apply Permutation_swap.
Qed.

Lemma sort_by_perm {A} before (l : list A) : sort_by before l ≡ₚ l.
Proof. unfold sort_by. induction l as [|x l IH]; simpl; [done|]. by rewrite insert_by_perm, IH. Qed.

(** Under a total preorder the result is sorted. *)
Lemma sort_by_sorted {A} (before : A → A → bool) (l : list A) :
  (∀ x y, before x y = true ∨ before y x = true) →
  (∀ x y z, before x y = true → before y z = true → before x z = true) →
  StronglySorted (λ x y, before x y = true) (sort_by before l).
Proof.
  intros Htot Htr. unfold sort_by. induction l as [|x l IH]; [constructor|]. cbn [foldr].
  induction IH as [|y r Hr IHr Hy]; cbn [insert_by]; [repeat constructor|].
  destruct (before x y) eqn:E.
  - constructor; [by constructor|]. constructor; [done|]. rewrite Forall_forall in Hy |- *. intros z Hz. by apply (Htr x y z), Hy.
  - constructor; [done|]. rewrite Forall_forall in Hy |- *. intros z. rewrite insert_by_perm.
    intros [->|Hz]%elem_of_cons; [|by apply Hy]. destruct (Htot x y); [congruence|done].
Qed.

Lemma sort_by_fmap {A B} (f : A → B) before_a before_b (l : list A) :
  (∀ x y, before_a x y = before_b (f x) (f y)) →
  f <$> sort_by before_a l = sort_by before_b (f <$> l).
Proof.
  intros Hb. unfold sort_by. induction l as [|x l IH]; [done|]. rewrite fmap_cons. cbn [foldr]. rewrite <-IH.
  generalize (foldr (insert_by before_a) [] l). induction l0 as [|y l0 IHl]; [done|].
  cbn [insert_by]. rewrite fmap_cons. cbn [insert_by]. rewrite Hb. case_bool; [done|]. by rewrite fmap_cons, IHl.
Qed.

(** A fallible pass over a list that cannot fail at any position. *)
Lemma mapM_lookup {A B} (f : A → option B) (P : nat → B → Prop) (l : list A) :
  (∀ i x, l !! i = Some x → ∃ y, f x = Some y ∧ P i y) →
  ∃ k, mapM f l = Some k ∧ length k = length l ∧ ∀ i y, k !! i = Some y → P i y.
Proof.
  revert P. induction l as [|x l IH]; intros P Hf; [by exists []|].
  destruct (Hf 0 x eq_refl) as (y & Hy & HP).
  destruct (IH (λ i, P (S i))) as (k & Hk & Hl & HPk); [intros i z Hz; by apply (Hf (S i))|].
  exists (y :: k). simpl. rewrite Hy. simpl. rewrite Hk. split_and!; simpl; [done|by f_equal|].
  intros [|i] z Hz; simpl in Hz; [by injection Hz as <-|by apply HPk].
Qed.

Lemma bind_ok {E A B} (r : result E A) (k : A → result E B) b :
  (r ≫= k) = Ok b ↔ ∃ a, r = Ok a ∧ k a = Ok b.
Proof. destruct r; simpl; naive_solver. Qed.

Lemma ok_or_ok {E A} (o : option A) (e : E) a : ok_or o e = Ok a ↔ o = Some a.
Proof. destruct o; simpl; split; congruence. Qed.

Lemma map_err_ok {E F A} (f : E → F) (r : result E A) a : map_err f r = Ok a ↔ r = Ok a.
Proof. destruct r; simpl; split; congruence. Qed.

#[export] Hint Resolve max_by_key_elem count_le_length : openlake.

Lemma elem_of_take_part {A} n (l : list A) x : x ∈ take n l → x ∈ l.
Proof. intros Hx. rewrite <-(take_drop n l). apply elem_of_app. by left. Qed.
Lemma elem_of_drop_part {A} k (l : list A) x : x ∈ drop k l → x ∈ l.
Proof. intros Hx. rewrite <-(take_drop k l). apply elem_of_app. by right. Qed.

Lemma filter_all {A} (P : A → Prop) `{∀ x, Decision (P x)} (l : list A) : (∀ x, x ∈ l → P x) → filter P l = l.
Proof.
  induction l as [|x l IH]; intros Hl; [done|]. rewrite filter_cons, decide_True by (apply Hl; left).
  f_equal. apply IH. intros y Hy. apply Hl. by right.
Qed.
Lemma filter_none {A} (P : A → Prop) `{∀ x, Decision (P x)} (l : list A) : (∀ x, x ∈ l → ¬ P x) → filter P l = [].
Proof.
  induction l as [|x l IH]; [done|]. intros Hl. rewrite filter_cons, decide_False by (apply Hl; left).
  apply IH. intros y Hy. apply Hl. by right.
Qed.
