(* ===== verification/Text.v ===== *)
(** * Text

    What the server uses of Rust's [str], [char] and [String]: splitting,
    trimming, case, integers, UTF-8, and the small text helpers of
    [openlake_server/src/auth.rs].  A [string] is the sequence of the bytes of a
    Rust string. *)

From stdpp Require Import base gmap strings pretty list.
From Stdlib Require Import Strings.Ascii.
From S2P Require Import Prelude.

Definition of_bytes (b : bytes) : string := String.string_of_list_byte b.

(** ** Splitting *)

(** [str::split(c)]. *)
Fixpoint split_char (c : ascii) (s : string) : list string :=
  match s with
  | EmptyString => [""]
  | String x s =>
      if decide (x = c) then "" :: split_char c s
      else match split_char c s with
           | [] => [String x ""]
           | w :: ws => String x w :: ws
           end
  end.

(** [str::split_once(c)]. *)
Fixpoint split_once (c : ascii) (s : string) : option (string * string) :=
  match s with
  | EmptyString => None
  | String x s =>
      if decide (x = c) then Some ("", s)
      else match split_once c s with
           | Some (a, b) => Some (String x a, b)
           | None => None
           end
  end.

Fixpoint strip_prefix (p s : string) : option string :=
  match p, s with
  | EmptyString, _ => Some s
  | String a p, String b s => if decide (a = b) then strip_prefix p s else None
  | _, _ => None
  end.

(** [str::contains], and [str::find] with its byte position. *)
Fixpoint contains (p s : string) : bool :=
  String.prefix p s || match s with EmptyString => false | String _ s => contains p s end.
Fixpoint find_str (p s : string) : option nat :=
  if String.prefix p s then Some 0
  else match s with EmptyString => None | String _ s => S <$> find_str p s end.

(** A double quote on each side. *)
Definition quoted (s : string) : string := String "034" (s +:+ String "034" "").

(** [slice::join]. *)
Fixpoint join (sep : string) (ws : list string) : string :=
  match ws with
  | [] => ""
  | [w] => w
  | w :: ws => w +:+ sep +:+ join sep ws
  end.

Fixpoint all_chars (f : ascii → bool) (s : string) : bool :=
  match s with EmptyString => true | String c s => f c && all_chars f s end.
Fixpoint has_char (c : ascii) (s : string) : bool :=
  match s with EmptyString => false | String x s => bool_decide (x = c) || has_char c s end.

(** [format!("{s:?}")] for a string: quoted, with the escapes of quotes,
    backslashes and the usual control characters; other characters are taken to
    be printable. *)
Fixpoint escape_debug (s : string) : string :=
  match s with
  | EmptyString => ""
  | String c s =>
      (if decide (c = "034"%char) then String "092" (String "034" "")
       else if decide (c = "092"%char) then String "092" (String "092" "")
       else if decide (c = "010"%char) then String "092" "n"
       else if decide (c = "013"%char) then String "092" "r"
       else if decide (c = "009"%char) then String "092" "t"
       else if decide (c = "000"%char) then String "092" "0"
       else String c "") +:+ escape_debug s
  end.
Definition debug_str (s : string) : string := String "034" (escape_debug s +:+ String "034" "").

(** ** Case *)

Definition lower_char (c : ascii) : ascii :=
  let n := nat_of_ascii c in if (65 <=? n) && (n <=? 90) then ascii_of_nat (n + 32) else c.
Fixpoint to_ascii_lowercase (s : string) : string :=
  match s with EmptyString => "" | String c s => String (lower_char c) (to_ascii_lowercase s) end.
Definition eq_ignore_ascii_case (a b : string) : bool :=
  bool_decide (to_ascii_lowercase a = to_ascii_lowercase b).

(** ** [str::trim]: the Unicode white space characters, as byte sequences *)

Definition white_space : list bytes :=
  [[x09]; [x0a]; [x0b]; [x0c]; [x0d]; [x20]; [xc2; x85]; [xc2; xa0]; [xe1; x9a; x80];
   [xe2; x80; x80]; [xe2; x80; x81]; [xe2; x80; x82]; [xe2; x80; x83]; [xe2; x80; x84]; [xe2; x80; x85];
   [xe2; x80; x86]; [xe2; x80; x87]; [xe2; x80; x88]; [xe2; x80; x89]; [xe2; x80; x8a];
   [xe2; x80; xa8]; [xe2; x80; xa9]; [xe2; x80; xaf]; [xe2; x81; x9f]; [xe3; x80; x80]].

(** Drops the sequences of [ws] from the front. *)
Definition drop_space (ws : list bytes) (b : bytes) : option bytes :=
  head (omap (λ w, if decide (w `prefix_of` b) then Some (drop (length w) b) else None) ws).
Fixpoint drop_spaces (fuel : nat) (ws : list bytes) (b : bytes) : bytes :=
  match fuel with
  | 0 => b
  | S fuel => match drop_space ws b with Some b => drop_spaces fuel ws b | None => b end
  end.
Definition trim_start_bytes (b : bytes) : bytes := drop_spaces (length b) white_space b.
Definition trim_end_bytes (b : bytes) : bytes := reverse (drop_spaces (length b) (reverse <$> white_space) (reverse b)).
Definition trim_start (s : string) : string := of_bytes (trim_start_bytes (str_bytes s)).
Definition trim (s : string) : string := of_bytes (trim_end_bytes (trim_start_bytes (str_bytes s))).

(** ** Integers *)

Definition digit (radix : Z) (c : ascii) : option Z :=
  let n := Z.of_nat (nat_of_ascii c) in
  let d := (if (48 <=? n) && (n <=? 57) then Some (n - 48)
            else if (97 <=? n) && (n <=? 122) then Some (n - 87)
            else if (65 <=? n) && (n <=? 90) then Some (n - 55)
            else None)%Z in
  d ← d; if (d <? radix)%Z then Some d else None.
Fixpoint digits (radix acc : Z) (s : string) : option Z :=
  match s with
  | EmptyString => Some acc
  | String c s =>
      d ← digit radix c;
      let acc := (acc * radix + d)%Z in
      if (acc <? u64_mod)%Z then digits radix acc s else None
  end.

(** [u64::from_str_radix], and [usize::from_str_radix] on a 64-bit machine:
    at least one digit after an optional plus sign, no overflow. *)
Definition from_str_radix (radix : Z) (s : string) : option Z :=
  match s with
  | EmptyString => None
  | String c rest =>
      if decide (c = "+"%char) then (if decide (rest = "") then None else digits radix 0 rest)
      else digits radix 0 s
  end.
Definition parse_u64 (s : string) : option Z := from_str_radix 10 s.

Definition is_ascii_hexdigit (c : ascii) : bool := bool_decide (is_Some (digit 16 c)).

(** ** UTF-8 *)

Definition in_range (lo hi : Z) (b : byte) : bool := (lo <=? Z_of_byte b)%Z && (Z_of_byte b <=? hi)%Z.
Definition continues (b : byte) : bool := in_range 128 191 b.

(** The length of the character at the front of a non-empty sequence, or the
    length of the longest prefix that could begin one. *)
Definition utf8_char (b0 : byte) (rest : bytes) : bool * nat :=
  let cont k := match rest !! k with Some b => continues b | None => false end in
  let second (lo hi : Z) := match rest !! 0 with Some b => in_range lo hi b | None => false end in
  let three lo hi := if second lo hi then (if cont 1 then (true, 3) else (false, 2)) else (false, 1) in
  let four lo hi := if second lo hi then
                      (if cont 1 then (if cont 2 then (true, 4) else (false, 3)) else (false, 2))
                    else (false, 1) in
  if in_range 0 127 b0 then (true, 1)
  else if in_range 194 223 b0 then (if cont 0 then (true, 2) else (false, 1))
  else if in_range 224 224 b0 then three 160%Z 191%Z
  else if in_range 225 236 b0 then three 128%Z 191%Z
  else if in_range 237 237 b0 then three 128%Z 159%Z
  else if in_range 238 239 b0 then three 128%Z 191%Z
  else if in_range 240 240 b0 then four 144%Z 191%Z
  else if in_range 241 243 b0 then four 128%Z 191%Z
  else if in_range 244 244 b0 then four 128%Z 143%Z
  else (false, 1).

(** [String::from_utf8_lossy]: each malformed sequence becomes U+FFFD. *)
Fixpoint utf8_lossy (fuel : nat) (b : bytes) : bytes :=
  match fuel, b with
  | S fuel, b0 :: rest =>
      let '(ok, n) := utf8_char b0 rest in
      (if ok then take n b else [xef; xbf; xbd]) ++ utf8_lossy fuel (drop n b)
  | _, _ => []
  end.
Definition from_utf8_lossy (b : bytes) : string := of_bytes (utf8_lossy (length b) b).

(** [str::from_utf8]. *)
Fixpoint utf8_valid (fuel : nat) (b : bytes) : bool :=
  match fuel, b with
  | S fuel, b0 :: rest => let '(ok, n) := utf8_char b0 rest in ok && utf8_valid fuel (drop n b)
  | _, _ => true
  end.
Definition from_utf8 (b : bytes) : option string := if utf8_valid (length b) b then Some (of_bytes b) else None.

(** ** Helpers of [auth.rs] *)

(** [hex::encode]: two lowercase digits a byte. *)
Definition hex_encode (bs : bytes) : bytes :=
  let digit n := nth n (str_bytes "0123456789abcdef") x30 in
  bs ≫= λ b, let n := N.to_nat (Byte.to_N b) in [digit (n / 16); digit (n mod 16)].

Definition hex_nibble (b : byte) : option Z :=
  let n := Z_of_byte b in
  (if (48 <=? n) && (n <=? 57) then Some (n - 48)
   else if (97 <=? n) && (n <=? 102) then Some (n - 97 + 10)
   else if (65 <=? n) && (n <=? 70) then Some (n - 65 + 10)
   else None)%Z.

Fixpoint percent_bytes (fuel : nat) (b : bytes) : bytes :=
  match fuel, b with
  | S fuel, b0 :: rest =>
      match rest with
      | h :: l :: rest' =>
          match (if decide (b0 = x25) then Some () else None), hex_nibble h, hex_nibble l with
          | Some _, Some hi, Some lo => byte_of_Z (hi * 16 + lo)%Z :: percent_bytes fuel rest'
          | _, _, _ => b0 :: percent_bytes fuel rest
          end
      | _ => b0 :: percent_bytes fuel rest
      end
  | _, _ => []
  end.
Definition percent_decode (s : string) : string :=
  from_utf8_lossy (percent_bytes (String.length s) (str_bytes s)).

(** [constant_time_eq]: the differences of all pairs of bytes, combined. *)
Definition constant_time_eq (a b : bytes) : bool :=
  if negb (length a =? length b) then false
  else (foldl (λ diff (xy : byte * byte), Z.lor diff (Z.lxor (Z_of_byte xy.1) (Z_of_byte xy.2))) 0 (zip a b) =? 0)%Z.

Fixpoint find_crlf (b : bytes) : option nat :=
  match b with
  | b0 :: (b1 :: _) as rest =>
      if decide (b0 = x0d ∧ b1 = x0a) then Some 0 else S <$> find_crlf rest
  | _ => None
  end.

(** ** Lemmas *)

Lemma of_bytes_str s : of_bytes (str_bytes s) = s.
Proof. apply String.string_of_list_byte_of_string. Qed.
Lemma str_bytes_of_bytes b : str_bytes (of_bytes b) = b.
Proof. apply String.list_byte_of_string_of_list_byte. Qed.

Lemma Z_of_byte_inj a b : Z_of_byte a = Z_of_byte b → a = b.
Proof.
  unfold Z_of_byte. intros H%N2Z.inj. apply (f_equal Byte.of_N) in H. rewrite !Byte.of_to_N in H. by injection H.
Qed.

Lemma constant_time_eq_spec a b : constant_time_eq a b = true ↔ a = b.
Proof.
  unfold constant_time_eq. destruct (Nat.eqb_spec (length a) (length b)) as [Hl|Hl]; simpl; cycle 1.
  { split; [done|]. by intros ->. }
  rewrite Z.eqb_eq.
  assert (∀ acc, foldl (λ diff (xy : byte * byte), Z.lor diff (Z.lxor (Z_of_byte xy.1) (Z_of_byte xy.2))) acc (zip a b) = 0%Z
    ↔ acc = 0%Z ∧ a = b) as H; [|rewrite H; tauto].
  revert b Hl. induction a as [|x a IH]; intros [|y b] Hl acc; try done; simpl in *; [tauto|].
  rewrite IH by lia. rewrite Z.lor_eq_0_iff, Z.lxor_eq_0_iff. split.
  - intros [[-> ->%Z_of_byte_inj] ->]. done.
  - by intros [-> [= -> ->]].
Qed.

Lemma split_once_spec c s a b : split_once c s = Some (a, b) ↔ s = a +:+ String c b ∧ has_char c a = false.
Proof.
  revert a b. induction s as [|x s IH]; intros a b; simpl.
  { split; [done|]. intros [H _]. by destruct a. }
  destruct (decide (x = c)) as [->|Hne].
  - split; [by intros [= <- <-]|]. intros [H Ha]. destruct a as [|y a]; [by injection H as ->|].
    injection H as -> ->. simpl in Ha. by rewrite bool_decide_true in Ha.
  - split.
    + destruct (split_once c s) as [[a' b']|]; [|done]. intros [= <- <-].
      destruct (proj1 (IH a' b') eq_refl) as [-> Ha]. split; [done|]. simpl. by rewrite bool_decide_false.
    + intros [H Ha]. destruct a as [|y a]; [injection H as ->; done|]. injection H as -> ->.
      simpl in Ha. apply orb_false_iff in Ha as [_ Ha].
      by rewrite (proj2 (IH a b) (conj eq_refl Ha)).
Qed.

Lemma strip_prefix_spec p s r : strip_prefix p s = Some r ↔ s = p +:+ r.
Proof.
  revert s. induction p as [|a p IH]; intros s; simpl; [split; [by intros [= ->]|by intros ->]|].
  destruct s as [|b s]; [by split|]. case_decide as H; [subst; rewrite IH|].
  - split; [by intros ->|by intros [= ->]].
  - split; [done|]. by intros [= -> _].
Qed.

Lemma append_nil_r s : s +:+ "" = s.
Proof. induction s as [|c s IH]; [done|]. change (String c s +:+ "") with (String c (s +:+ "")). by rewrite IH. Qed.

Lemma append_assoc s1 s2 s3 : (s1 +:+ s2) +:+ s3 = s1 +:+ s2 +:+ s3.
Proof.
  induction s1 as [|c s IH]; [done|].
  change ((String c s +:+ s2) +:+ s3) with (String c ((s +:+ s2) +:+ s3)). by rewrite IH.
Qed.

Lemma split_char_cons c s : ∃ w ws, split_char c s = w :: ws.
Proof. induction s as [|x s (w & ws & E)]; simpl; [by eexists _, _|]. rewrite E. case_decide; by eexists _, _. Qed.

Lemma split_char_app c s r : split_char c (s +:+ String c r) = split_char c s ++ split_char c r.
Proof.
  induction s as [|x s IH]; [simpl; by rewrite decide_True|].
  change (String x s +:+ String c r) with (String x (s +:+ String c r)). cbn [split_char]. rewrite IH.
  destruct (split_char_cons c s) as (w & ws & ->). by case_decide.
Qed.

Lemma split_char_free c s : has_char c s = false → split_char c s = [s].
Proof.
  induction s as [|x s IH]; [done|]. simpl. intros [Hx Hs]%orb_false_iff. apply bool_decide_eq_false in Hx.
  by rewrite decide_False, IH.
Qed.

Lemma has_char_of_bytes b c : has_char (ascii_of_byte b) (of_bytes c) = bool_decide (b ∈ c).
Proof.
  induction c as [|x c IH]; [by rewrite bool_decide_false by apply not_elem_of_nil|].
  change (of_bytes (x :: c)) with (String (ascii_of_byte x) (of_bytes c)). cbn [has_char]. rewrite IH.
  apply eq_bool_prop_intro. rewrite !Is_true_true, orb_true_iff, !bool_decide_eq_true, elem_of_cons. split.
  - intros [H|?]; [|by right]. left. apply (f_equal byte_of_ascii) in H. by rewrite !byte_of_ascii_of_byte in H.
  - intros [->|?]; [by left|by right].
Qed.

Lemma digit_range radix c d : digit radix c = Some d → (0 ≤ d < radix)%Z.
Proof.
  unfold digit. intros (d0 & H0 & H)%bind_Some. destruct (Z.ltb_spec d0 radix); [|done]. injection H as ->.
  split; [|done]. repeat case_match; simplify_eq; to_prop; lia.
Qed.

Lemma digits_range radix acc s n : (0 ≤ acc < u64_mod)%Z → digits radix acc s = Some n → (0 ≤ n < u64_mod)%Z.
Proof.
  revert acc. induction s as [|c s IH]; intros acc Ha; simpl; [by intros [= <-]|].
  intros (d & Hd%digit_range & H)%bind_Some. destruct (Z.ltb_spec (acc * radix + d) u64_mod); [|done].
  apply (IH (acc * radix + d)%Z); [|done]. split; [|done]. apply Z.add_nonneg_nonneg; [apply Z.mul_nonneg_nonneg|]; lia.
Qed.

Lemma from_str_radix_range radix s n : from_str_radix radix s = Some n → (0 ≤ n < u64_mod)%Z.
Proof.
  unfold from_str_radix. destruct s as [|c s]; [done|]. repeat case_decide; try done; by apply digits_range.
Qed.

(** ** Lemmas: plain ASCII text *)

Definition hex_byte (b : byte) : bool := is_ascii_hexdigit (ascii_of_byte b).

Lemma all_chars_bytes f s : all_chars f s = forallb (λ b, f (ascii_of_byte b)) (str_bytes s).
Proof.
  induction s as [|c s IH]; [done|]. change (str_bytes (String c s)) with (byte_of_ascii c :: str_bytes s). simpl.
  by rewrite ascii_of_byte_of_ascii, IH.
Qed.

Lemma str_bytes_app a b : str_bytes (a +:+ b) = str_bytes a ++ str_bytes b.
Proof.
  induction a as [|c a IH]; [done|]. change (String c a +:+ b) with (String c (a +:+ b)).
  change (str_bytes (String c (a +:+ b))) with (byte_of_ascii c :: str_bytes (a +:+ b)). by rewrite IH.
Qed.

Lemma utf8_valid_ascii fuel b : forallb (in_range 0 127) b = true → utf8_valid fuel b = true.
Proof.
  revert b. induction fuel as [|fuel IH]; intros [|x b]; try done. simpl. intros [Hx Hb]%andb_prop.
  unfold utf8_char. rewrite Hx. simpl. by apply IH.
Qed.

Lemma from_utf8_ascii s : forallb (in_range 0 127) (str_bytes s) = true → from_utf8 (str_bytes s) = Some s.
Proof. intros H. unfold from_utf8. rewrite utf8_valid_ascii by done. by rewrite of_bytes_str. Qed.

Lemma hex_byte_plain b : hex_byte b = true →
  in_range 0 127 b = true ∧ b ≠ x0d ∧ drop_space white_space [b] = None ∧ ascii_of_byte b ≠ ";"%char
  ∧ forallb (λ w : bytes, match w with y :: _ => negb (bool_decide (y = b)) | [] => false end) white_space = true
  ∧ forallb (λ w : bytes, match w with y :: _ => negb (bool_decide (y = b)) | [] => false end) (reverse <$> white_space) = true.
Proof. destruct b; vm_compute; intros H; try discriminate H; split_and!; try done. Qed.

Lemma drop_space_None ws b r :
  forallb (λ w : bytes, match w with y :: _ => negb (bool_decide (y = b)) | [] => false end) ws = true →
  drop_space ws (b :: r) = None.
Proof.
  unfold drop_space. induction ws as [|w ws IH]; [done|]. simpl. intros [Hw Hws]%andb_prop. rewrite decide_False; [by apply IH|].
  destruct w as [|y w]; [done|]. apply negb_true_iff, bool_decide_eq_false in Hw. intros H%prefix_cons_inv_1. done.
Qed.

Lemma drop_spaces_None fuel ws b : drop_space ws b = None → drop_spaces fuel ws b = b.
Proof. intros H. destruct fuel; [done|]. simpl. by rewrite H. Qed.

Lemma trim_hex s : all_chars is_ascii_hexdigit s = true → trim s = s.
Proof.
  rewrite all_chars_bytes. intros H. unfold trim. rewrite <-(of_bytes_str s) at 2. f_equal.
  assert (∀ x, x ∈ str_bytes s → hex_byte x = true) as Hx.
  { intros x Hx. rewrite forallb_forall in H. apply H. by apply list_elem_of_In. }
  unfold trim_end_bytes, trim_start_bytes. destruct (str_bytes s) as [|b r] eqn:E; [done|].
  rewrite (drop_spaces_None _ white_space); [|apply drop_space_None; apply (hex_byte_plain b), Hx; left].
  rewrite (drop_spaces_None _ (reverse <$> white_space)); [apply reverse_involutive|].
  destruct (reverse (b :: r)) as [|y q] eqn:Er; [by apply (f_equal length) in Er; rewrite length_reverse in Er|].
  apply drop_space_None. apply (hex_byte_plain y), Hx. rewrite <-(reverse_involutive (b :: r)), Er, elem_of_reverse. left.
Qed.

(** The first line end of a prefix. *)
Lemma find_crlf_Some b p : find_crlf b = Some p → b = take p b ++ x0d :: x0a :: drop (p + 2) b.
Proof.
  revert p. induction b as [|b0 [|b1 b] IH]; intros p; [done..|]. cbn [find_crlf]. case_decide as Hd.
  - destruct Hd as [-> ->]. by intros [= <-].
  - intros (q & Hq & ->)%fmap_Some. cbn [take drop app Nat.add]. f_equal. by apply IH.
Qed.
Lemma find_crlf_prefix l1 l2 k : x0d ∉ l1 →
  find_crlf (take k (l1 ++ x0d :: x0a :: l2)) = if length l1 + 2 <=? k then Some (length l1) else None.
Proof.
  intros Hn. revert k. induction l1 as [|x l1 IH]; intros k.
  - by destruct k as [|[|k]].
  - apply not_elem_of_cons in Hn as [Hx Hn]. destruct k as [|k]; [done|]. specialize (IH Hn k).
    change (take (S k) ((x :: l1) ++ x0d :: x0a :: l2)) with (x :: take k (l1 ++ x0d :: x0a :: l2)).
    change (length (x :: l1) + 2 <=? S k) with (length l1 + 2 <=? k).
    destruct (take k (l1 ++ x0d :: x0a :: l2)) as [|y r] eqn:E.
    + destruct k; [simpl; by rewrite Nat.add_comm|]. by destruct l1.
    + cbn [find_crlf] in *. rewrite decide_False by (intros [? _]; congruence). rewrite IH. by case_bool.
Qed.

(** ** Lemmas: decimal numbers *)

Definition is_ascii_digit (c : ascii) : bool := bool_decide (is_Some (digit 10 c)).

Lemma pretty_N_char_digit x : (x < 10)%N → digit 10 (pretty_N_char x) = Some (Z.of_N x).
Proof.
  intros Hx. assert (x = 0 ∨ x = 1 ∨ x = 2 ∨ x = 3 ∨ x = 4 ∨ x = 5 ∨ x = 6 ∨ x = 7 ∨ x = 8 ∨ x = 9)%N as H by lia.
  by destruct_or! H; subst.
Qed.

Lemma digits_pretty_go x s : (Z.of_N x < u64_mod)%Z → digits 10 0 (pretty_N_go x s) = digits 10 (Z.of_N x) s.
Proof.
  revert s. induction (N.lt_wf_0 x) as [x _ IH]; intros s Hx. destruct (decide (x = 0)%N) as [->|H0]; [done|].
  rewrite pretty_N_go_step by lia. assert (x `div` 10 < x)%N as Hlt by (apply N.div_lt; lia).
  rewrite IH by lia. cbn [digits]. rewrite pretty_N_char_digit by (apply N.mod_lt; lia). cbn [mbind option_bind].
  assert (Z.of_N (x `div` 10) * 10 + Z.of_N (x `mod` 10) = Z.of_N x)%Z as ->.
  { pose proof (N.div_mod x 10 ltac:(lia)). lia. }
  by rewrite (proj2 (Z.ltb_lt _ _)).
Qed.

Lemma pretty_go_digits x s : all_chars is_ascii_digit s = true → all_chars is_ascii_digit (pretty_N_go x s) = true.
Proof.
  revert s. induction (N.lt_wf_0 x) as [x _ IH]; intros s Hs. destruct (decide (x = 0)%N) as [->|H0]; [done|].
  rewrite pretty_N_go_step by lia. apply IH; [apply N.div_lt; lia|]. cbn [all_chars]. rewrite Hs, andb_true_r.
  unfold is_ascii_digit. rewrite pretty_N_char_digit by (apply N.mod_lt; lia). done.
Qed.

Lemma pretty_Z_N z : (0 ≤ z)%Z → pretty z = pretty (Z.to_N z).
Proof. by destruct z. Qed.

Lemma pretty_digits z : (0 ≤ z)%Z → all_chars is_ascii_digit (pretty z) = true ∧ pretty z ≠ "".
Proof.
  intros Hz. rewrite pretty_Z_N by done. unfold pretty, pretty_N. case_decide; [done|].
  split; [by apply pretty_go_digits|]. rewrite pretty_N_go_step by lia. generalize (Z.to_N z `div` 10)%N. intros x.
  cut (∀ s, s ≠ "" → pretty_N_go x s ≠ ""); [auto|].
  induction (N.lt_wf_0 x) as [y _ IH]; intros s Hs. destruct (decide (y = 0)%N) as [->|H0]; [done|].
  rewrite pretty_N_go_step by lia. apply IH; [apply N.div_lt; lia|done].
Qed.

Lemma digits_free c s : is_ascii_digit c = false → all_chars is_ascii_digit s = true → has_char c s = false.
Proof.
  intros Hc. induction s as [|d s IH]; [done|]. simpl. intros [Hd Hs]%andb_prop. rewrite IH by done. rewrite orb_false_r.
  apply bool_decide_eq_false. intros ->. congruence.
Qed.

(** What [Display] prints of a [u64] is read back. *)
Lemma parse_u64_pretty z : (0 ≤ z < u64_mod)%Z → parse_u64 (pretty z) = Some z.
Proof.
  intros Hz. destruct (pretty_digits z) as [Hd Hne]; [lia|]. unfold parse_u64, from_str_radix.
  assert (digits 10 0 (pretty z) = Some z) as Hp.
  { rewrite pretty_Z_N by lia. unfold pretty, pretty_N. case_decide as H0; [by assert (z = 0)%Z as -> by lia|].
    rewrite digits_pretty_go by lia. cbn [digits]. f_equal. lia. }
  destruct (pretty z) as [|c s] eqn:E; [done|]. rewrite decide_False; [done|].
  intros ->. by apply andb_prop in Hd as [? _].
Qed.
