(* ===== verification/Types.v ===== *)
(** * Records and errors that cross component boundaries

    [openlake_io/src/types.rs], [openlake_io/src/error.rs],
    [openlake_storage/src/error.rs], [openlake_storage/src/object.rs], the
    error translations of [engine.rs], and the wire errors of [rpc.rs].

    Counts of at most eight bits ([u8]) are [nat]; sizes and time stamps are
    [Z], with the width written where arithmetic can leave it. *)

From stdpp Require Import base gmap strings list pretty.
From S2P Require Import Prelude.

(** ** Errors *)

(** The [std::io::ErrorKind]s the code tells apart; [KindUncategorized] stands
    for every other kind. *)
Inductive ErrorKind :=
  | KindNotFound | KindAlreadyExists | KindConnectionRefused | KindTimedOut
  | KindUnexpectedEof | KindOther | KindUncategorized.

(** [std::io::Error]: its kind and what [to_string] prints. *)
Record StdIoError := { io_kind : ErrorKind; io_msg : string }.
Definition io_error_other (msg : string) : StdIoError :=
  {| io_kind := KindOther; io_msg := msg |}.

Inductive IoError :=
  | VolumeNotFound (v : string)
  | VolumeExists (v : string)
  | VolumeNotEmpty (v : string)
  | FileNotFound (volume path : string)
  | FileAlreadyExists (volume path : string)
  | FileVersionNotFound (volume path version_id : string)
  | CorruptMetadata (volume path msg : string)
  | UnsupportedMetadataVersion (found max : Z)
  | BitrotCheckFailed (volume path : string)
  | InvalidArgument (msg : string)
  | Unsupported (msg : string)
  | Encode (msg : string)
  | Decode (msg : string)
  | Io (e : StdIoError).

Abbreviation IoResult := (result IoError).

#[global] Instance ErrorKind_eq_dec : EqDecision ErrorKind.
Proof. solve_decision. Defined.
#[global] Instance StdIoError_eq_dec : EqDecision StdIoError.
Proof. solve_decision. Defined.
#[global] Instance IoError_eq_dec : EqDecision IoError.
Proof. solve_decision. Defined.

(** [Display for IoError] (the [#[error("...")]] attributes). *)
Definition io_to_string (e : IoError) : string :=
  match e with
  | VolumeNotFound v => "volume not found: " +:+ v
  | VolumeExists v => "volume already exists: " +:+ v
  | VolumeNotEmpty v => "volume not empty: " +:+ v
  | FileNotFound v p => "file not found: " +:+ v +:+ "/" +:+ p
  | FileAlreadyExists v p => "file already exists: " +:+ v +:+ "/" +:+ p
  | FileVersionNotFound v p i =>
      "file version not found: " +:+ v +:+ "/" +:+ p +:+ "@" +:+ i
  | CorruptMetadata v p m =>
      "corrupt xl.meta at " +:+ v +:+ "/" +:+ p +:+ ": " +:+ m
  | UnsupportedMetadataVersion f m =>
      "unsupported xl.meta version " +:+ pretty f +:+ " (max " +:+ pretty m +:+ ")"
  | BitrotCheckFailed v p => "bitrot check failed at " +:+ v +:+ "/" +:+ p
  | InvalidArgument m => "invalid argument: " +:+ m
  | Unsupported m => "unsupported operation: " +:+ m
  | Encode m => "encode: " +:+ m
  | Decode m => "decode: " +:+ m
  | Io e => "io: " +:+ io_msg e
  end.

Inductive StorageError :=
  | BucketNotFound (b : string)
  | BucketAlreadyExists (b : string)
  | BucketNotEmpty (b : string)
  | ObjectNotFound (bucket key : string)
  | VersionNotFound (bucket key version_id : string)
  | InvalidBucketName (b : string)
  | InvalidObjectKey (k : string)
  | LockTimeout (r : string)
  | LockLost (r : string)
  | InconsistentMeta (bucket key msg : string)
  | InsufficientOnlineDrives (bucket key msg : string)
  | SIo (e : IoError).

Abbreviation StorageResult := (result StorageError).

(** [Display for StorageError]. *)
Definition storage_to_string (e : StorageError) : string :=
  match e with
  | BucketNotFound b => "bucket not found: " +:+ b
  | BucketAlreadyExists b => "bucket already exists: " +:+ b
  | BucketNotEmpty b => "bucket not empty: " +:+ b
  | ObjectNotFound b k => "object not found: " +:+ b +:+ "/" +:+ k
  | VersionNotFound b k i => "version not found: " +:+ b +:+ "/" +:+ k +:+ "@" +:+ i
  | InvalidBucketName b => "invalid bucket name: " +:+ b
  | InvalidObjectKey k => "invalid object key: " +:+ k
  | LockTimeout r => "lock timeout on " +:+ r
  | LockLost r => "lock lost on " +:+ r
  | InconsistentMeta b k m => "inconsistent metadata for " +:+ b +:+ "/" +:+ k +:+ ": " +:+ m
  | InsufficientOnlineDrives b k m =>
      "insufficient online drives for " +:+ b +:+ "/" +:+ k +:+ ": " +:+ m
  | SIo e => "io: " +:+ io_to_string e
  end.

(** ** Error translation *)

(** The stable tag under which [dominant_error] counts an error. *)
Definition error_tag (e : IoError) : string :=
  match e with
  | FileNotFound _ _ => "FileNotFound"
  | FileAlreadyExists _ _ => "FileAlreadyExists"
  | FileVersionNotFound _ _ _ => "FileVersionNotFound"
  | VolumeNotFound _ => "VolumeNotFound"
  | VolumeExists _ => "VolumeExists"
  | VolumeNotEmpty _ => "VolumeNotEmpty"
  | CorruptMetadata _ _ _ => "CorruptMetadata"
  | UnsupportedMetadataVersion _ _ => "UnsupportedMetadataVersion"
  | BitrotCheckFailed _ _ => "BitrotCheckFailed"
  | InvalidArgument _ => "InvalidArgument"
  | Unsupported _ => "Unsupported"
  | Encode _ => "Encode"
  | Decode _ => "Decode"
  | Io _ => "Io"
  end.

Definition clone_io_error (e : IoError) : IoError :=
  match e with
  | FileNotFound volume path => FileNotFound volume path
  | FileAlreadyExists volume path => FileAlreadyExists volume path
  | FileVersionNotFound volume path version_id => FileVersionNotFound volume path version_id
  | VolumeNotFound v => VolumeNotFound v
  | VolumeExists v => VolumeExists v
  | VolumeNotEmpty v => VolumeNotEmpty v
  | CorruptMetadata volume path msg => CorruptMetadata volume path msg
  | UnsupportedMetadataVersion found max => UnsupportedMetadataVersion found max
  | BitrotCheckFailed volume path => BitrotCheckFailed volume path
  | InvalidArgument s => InvalidArgument s
  | Unsupported s => Unsupported s
  | Encode s => Encode s
  | Decode s => Decode s
  | Io io => Io {| io_kind := io_kind io; io_msg := io_msg io |}
  end.

Definition map_bucket_or_io (bucket : string) (e : IoError) : StorageError :=
  match e with
  | VolumeNotFound _ => BucketNotFound bucket
  | other => SIo other
  end.

Definition map_object_missing (bucket key : string) (e : IoError) : StorageError :=
  match e with
  | FileNotFound _ _ => ObjectNotFound bucket key
  | FileVersionNotFound _ _ version_id => VersionNotFound bucket key version_id
  | VolumeNotFound _ => BucketNotFound bucket
  | other => SIo other
  end.

(** ** The error envelope of the inter-node RPC plane *)

Inductive WireError :=
  | WVolumeNotFound (v : string)
  | WVolumeExists (v : string)
  | WVolumeNotEmpty (v : string)
  | WFileNotFound (volume path : string)
  | WFileAlreadyExists (volume path : string)
  | WOther (s : string).

Definition wire_of_io (e : IoError) : WireError :=
  match e with
  | VolumeNotFound v => WVolumeNotFound v
  | VolumeExists v => WVolumeExists v
  | VolumeNotEmpty v => WVolumeNotEmpty v
  | FileNotFound volume path => WFileNotFound volume path
  | FileAlreadyExists volume path => WFileAlreadyExists volume path
  | other => WOther (io_to_string other)
  end.

Definition io_of_wire (e : WireError) : IoError :=
  match e with
  | WVolumeNotFound v => VolumeNotFound v
  | WVolumeExists v => VolumeExists v
  | WVolumeNotEmpty v => VolumeNotEmpty v
  | WFileNotFound volume path => FileNotFound volume path
  | WFileAlreadyExists volume path => FileAlreadyExists volume path
  | WOther s => Decode s
  end.

(** ** Object records *)

Record ChecksumInfo := {
  ci_part_number : Z;
  ci_algorithm : string;
  ci_hash : list byte
}.

(** [data_blocks], [parity_blocks], [index] and the entries of [distribution]
    are [u8]; [block_size] is [u32]. *)
Record ErasureInfo := {
  algorithm : string;
  data_blocks : nat;
  parity_blocks : nat;
  block_size : Z;
  index : nat;
  distribution : list nat;
  checksums : list ChecksumInfo
}.

Record ObjectPartInfo := {
  p_etag : string;
  p_number : Z;
  p_size : Z;
  p_actual_size : Z;
  p_mod_time_ms : Z;
  p_index : list byte;
  p_checksums : gmap string string
}.

Record FileInfo := {
  volume : string;
  name : string;
  version_id : string;
  is_latest : bool;
  deleted : bool;
  data_dir : string;
  xl_v1 : bool;
  mod_time_ms : Z;
  size : Z;
  mode : Z;
  written_by_version : Z;
  metadata : gmap string string;
  meta_sys : gmap string (list byte);
  parts : list ObjectPartInfo;
  erasure : ErasureInfo;
  data : option (list (list byte));
  num_versions : Z;
  fresh : bool;
  idx : Z;
  checksum : list byte;
  versioned : bool
}.

#[global] Instance ChecksumInfo_eq_dec : EqDecision ChecksumInfo.
Proof. solve_decision. Defined.
#[global] Instance ErasureInfo_eq_dec : EqDecision ErasureInfo.
Proof. solve_decision. Defined.
#[global] Instance ObjectPartInfo_eq_dec : EqDecision ObjectPartInfo.
Proof. solve_decision. Defined.
#[global] Instance FileInfo_eq_dec : EqDecision FileInfo.
Proof. solve_decision. Defined.

(** [Default::default()] of the derived records. *)
Definition ErasureInfo_default : ErasureInfo :=
  {| algorithm := ""; data_blocks := 0; parity_blocks := 0; block_size := 0%Z;
     index := 0; distribution := []; checksums := [] |}.

Definition FileInfo_default : FileInfo :=
  {| volume := ""; name := ""; version_id := ""; is_latest := false;
     deleted := false; data_dir := ""; xl_v1 := false; mod_time_ms := 0%Z;
     size := 0%Z; mode := 0%Z; written_by_version := 0%Z; metadata := ∅;
     meta_sys := ∅; parts := []; erasure := ErasureInfo_default; data := None;
     num_versions := 0%Z; fresh := false; idx := 0%Z; checksum := [];
     versioned := false |}.

Inductive VersionType := VObject | VDeleteMarker.
(** [VersionType as u8]. *)
Definition version_type_u8 (t : VersionType) : Z :=
  match t with VObject => 0 | VDeleteMarker => 1 end%Z.

Inductive VersioningStatus := Unversioned | Enabled | Suspended.
Definition NULL_VERSION_ID : string := "null".

Record BucketMeta := {
  created_ms : Z;
  versioning_status : VersioningStatus;
  versioning_updated_ms : Z;
  object_lock_enabled : bool
}.

Definition BucketMeta_new (created : Z) (lock : bool) : BucketMeta :=
  {| created_ms := created;
     versioning_status := if lock then Enabled else Unversioned;
     versioning_updated_ms := created;
     object_lock_enabled := lock |}.

(** [next_version_id]; [fresh_uuid] is what [Uuid::new_v4().to_string()] returns. *)
Definition next_version_id (fresh_uuid : string) (m : BucketMeta) : string :=
  match versioning_status m with
  | Enabled => fresh_uuid
  | Unversioned | Suspended => NULL_VERSION_ID
  end.

Record DeleteOptions := { force_del_marker : bool; undo_write : bool }.
Definition DeleteOptions_default : DeleteOptions :=
  {| force_del_marker := false; undo_write := false |}.
Record RenameDataResp := { sign : list byte; old_data_dir : string }.
Record VolInfo := { vol_name : string }.
Record DiskInfo := {
  di_total : Z; di_used : Z; di_free : Z; di_used_inodes : Z; di_free_inodes : Z; fs_type : string;
  root_disk : bool; healing : bool; endpoint : string; mount_path : string; di_id : string
}.

Record FormatJson := {
  fj_version : Z; fj_format : string; fj_id : string;
  fj_set_drive_count : nat; fj_this_disk : Z
}.

(** ** Engine-level records *)

Inductive StorageClass := Inline | Single.

Record ObjectInfo := {
  oi_bucket : string;
  oi_key : string;
  oi_size : Z;
  oi_etag : string;
  oi_storage_class : StorageClass;
  oi_modified_ms : Z;
  oi_content_type : option string;
  oi_version_id : string;
  oi_is_delete_marker : bool
}.

Record CompletePart := { part_number : Z; cp_etag : string }.

Definition CONTENT_TYPE_META_KEY : string := "content-type".
Definition ETAG_META_KEY : string := "etag".

(** [to_object_info]. *)
Definition to_object_info (bucket : string) (fi : FileInfo) : ObjectInfo :=
  {| oi_bucket := bucket;
     oi_key := name fi;
     oi_size := Z.max (size fi) 0;
     oi_etag := default "" (metadata fi !! ETAG_META_KEY);
     oi_storage_class := if data fi is Some _ then Inline else Single;
     oi_modified_ms := mod_time_ms fi;
     oi_content_type := metadata fi !! CONTENT_TYPE_META_KEY;
     oi_version_id := version_id fi;
     oi_is_delete_marker := deleted fi |}.

(** ** Lemmas *)

Lemma clone_io_error_id e : clone_io_error e = e.
Proof. by destruct e as [| | | | | | | | | | | | |[]]. Qed.

(** The error kinds that keep their identity over the RPC plane. *)
Definition wire_preserved (e : IoError) : bool :=
  match e with
  | VolumeNotFound _ | VolumeExists _ | VolumeNotEmpty _
  | FileNotFound _ _ | FileAlreadyExists _ _ => true
  | _ => false
  end.

Lemma wire_roundtrip e :
  io_of_wire (wire_of_io e) = if wire_preserved e then e else Decode (io_to_string e).
Proof. by destruct e. Qed.

