(* ===== verification/Cluster.v ===== *)
(** * Cluster topology and erasure-set routing

    [openlake_storage/src/cluster.rs].  A function that can panic (a division
    by zero, a slice out of range) returns [option], with [None] for the panic.
    SipHash-2-4 is a parameter: [siphash writes] is the 64-bit digest of the
    successive [write]s under [SET_HASH_KEY]. *)

From stdpp Require Import base gmap strings list.
From S2P Require Import Prelude.

Record DiskAddr := { node_id : nat; disk_idx : nat }.

#[global] Instance DiskAddr_eq_dec : EqDecision DiskAddr.
Proof. solve_decision. Defined.
#[global] Program Instance DiskAddr_countable : Countable DiskAddr :=
  inj_countable (λ d, (node_id d, disk_idx d))
    (λ p, Some {| node_id := p.1; disk_idx := p.2 |}) _.
Next Obligation. by intros []. Qed.

Record NodeAddr := { id : nat; rpc_addr : string; disk_count : nat }.

Record ClusterConfig := {
  nodes : list NodeAddr;
  set_drive_count : nat;
  default_parity_count : nat;
  deployment_id : string
}.

Definition flat (ns : list NodeAddr) (replication : nat) : ClusterConfig :=
  {| nodes := ns;
     set_drive_count := replication;
     default_parity_count := (replication - 1) `max` 1;
     deployment_id := "00000000-0000-0000-0000-000000000000" |}.

Definition total_disks (c : ClusterConfig) : nat :=
  foldr (λ n acc, disk_count n + acc) 0 (nodes c).

Definition num_sets (c : ClusterConfig) : option nat :=
  let total := total_disks c in
  if total =? 0 then Some 0
  else if set_drive_count c =? 0 then None
  else Some (total / set_drive_count c).

Definition all_disks (c : ClusterConfig) : list DiskAddr :=
  n ← nodes c; d ← seq 0 (disk_count n); mret {| node_id := id n; disk_idx := d |}.

(** [all[start..end].to_vec()]. *)
Definition slice {A} (start stop : nat) (l : list A) : option (list A) :=
  if (start <=? stop) && (stop <=? length l)
  then Some (take (stop - start) (drop start l)) else None.

Definition set_disks (c : ClusterConfig) (set_index : nat) : option (list DiskAddr) :=
  let start := set_index * set_drive_count c in
  let stop := start + set_drive_count c in
  slice start stop (all_disks c).

(** The loop of [set_node_ids]: [seen] is the [HashSet], [out] the result. *)
Fixpoint node_ids_loop (ds : list DiskAddr) (seen : gset nat) (out : list nat) : list nat :=
  match ds with
  | [] => out
  | d :: ds =>
      if decide (node_id d ∈ seen) then node_ids_loop ds seen out
      else node_ids_loop ds ({[node_id d]} ∪ seen) (out ++ [node_id d])
  end.

Definition set_node_ids (c : ClusterConfig) (set_index : nat) : option (list nat) :=
  ds ← set_disks c set_index; Some (node_ids_loop ds ∅ []).

Definition write_quorum (c : ClusterConfig) : nat := set_drive_count c.
Definition read_quorum (c : ClusterConfig) : nat := 1.

Section routing.
Context (siphash : list string → N).

Definition set_index_for (c : ClusterConfig) (bucket key : string) : option nat :=
  let v := siphash [bucket; "/"; key] in
  ns ← num_sets c; Some (N.to_nat v mod (ns `max` 1)).

Definition disks_for (c : ClusterConfig) (bucket key : string) : option (list DiskAddr) :=
  s ← set_index_for c bucket key; set_disks c s.
End routing.

(** ** What a booted cluster satisfies

    The checks [Config::from_toml] makes on a storage node before the engine is
    built, and node identities that are pairwise different. *)
Record wf_cluster (c : ClusterConfig) : Prop := {
  wf_total : 0 < total_disks c;
  wf_set : 0 < set_drive_count c;
  wf_div : total_disks c mod set_drive_count c = 0;
  wf_parity : 1 ≤ default_parity_count c ≤ set_drive_count c / 2;
  wf_ids : NoDup (id <$> nodes c)
}.

(** ** Lemmas *)

Lemma node_disks_fmap i (l : list nat) :
  (d ← l; mret (M:=list) {| node_id := i; disk_idx := d |})
    = (λ d, {| node_id := i; disk_idx := d |}) <$> l.
Proof. induction l as [|d l IH]; [done|]. by rewrite bind_cons, IH. Qed.

Lemma length_all_disks c : length (all_disks c) = total_disks c.
Proof.
  unfold all_disks, total_disks. induction (nodes c) as [|n ns IH]; [done|].
  rewrite bind_cons, length_app, IH. simpl. f_equal.
  rewrite node_disks_fmap, length_fmap. apply length_seq.
Qed.

Lemma elem_of_all_disks c d :
  d ∈ all_disks c ↔ ∃ n, n ∈ nodes c ∧ node_id d = id n ∧ disk_idx d < disk_count n.
Proof.
  unfold all_disks. rewrite list_elem_of_bind.
  setoid_rewrite list_elem_of_bind. setoid_rewrite elem_of_seq.
  setoid_rewrite list_elem_of_ret.
  split.
  - intros (n & (k & -> & ?) & ?). exists n. simpl. intuition lia.
  - intros (n & ? & Hid & ?). exists n. split; [|done].
    exists (disk_idx d). split; [|lia]. destruct d; simpl in *. by subst.
Qed.

Lemma NoDup_node_disks n : NoDup (d ← seq 0 (disk_count n); mret (M:=list) {| node_id := id n; disk_idx := d |}).
Proof.
  rewrite node_disks_fmap. apply NoDup_fmap_2; [intros ?? [=]; done|]. apply NoDup_seq.
Qed.

Lemma NoDup_all_disks c : NoDup (id <$> nodes c) → NoDup (all_disks c).
Proof.
  unfold all_disks. induction (nodes c) as [|n ns IH]; [constructor|].
  rewrite fmap_cons, NoDup_cons, bind_cons. intros [Hn Hns].
  apply NoDup_app. split_and!; [apply NoDup_node_disks| |by apply IH].
  intros d Hd Hd'. apply Hn.
  apply list_elem_of_bind in Hd as (k & ->%list_elem_of_ret & _).
  apply list_elem_of_bind in Hd' as (m & Hm & ?).
  apply list_elem_of_bind in Hm as (j & Hj%list_elem_of_ret & _).
  apply list_elem_of_fmap. exists m. by simplify_eq.
Qed.

Lemma num_sets_wf c : wf_cluster c →
  ∃ ns, num_sets c = Some ns ∧ 0 < ns ∧ total_disks c = ns * set_drive_count c.
Proof.
  intros [Ht Hs Hd _ _]. unfold num_sets.
  destruct (total_disks c =? 0) eqn:?; to_prop; [lia|].
  destruct (set_drive_count c =? 0) eqn:?; to_prop; [lia|].
  pose proof (Nat.div_mod_eq (total_disks c) (set_drive_count c)) as E.
  exists (total_disks c / set_drive_count c). split; [done|].
  rewrite Hd in E. split; [|lia]. destruct (total_disks c / set_drive_count c); lia.
Qed.

Lemma slice_block {A} (l : list A) k i m :
  length l = m * k → i < m → slice (i * k) (i * k + k) l = Some (take k (drop (i * k) l)).
Proof.
  intros Hl Hi. unfold slice. rewrite Hl.
  assert (i * k + k ≤ m * k) by nia.
  rewrite (proj2 (Nat.leb_le _ _)), (proj2 (Nat.leb_le _ _)) by lia.
  simpl. do 2 f_equal. lia.
Qed.

Lemma length_slice_block {A} (l : list A) k i m :
  length l = m * k → i < m → length (take k (drop (i * k) l)) = k.
Proof. intros Hl Hi. rewrite length_take, length_drop, Hl. nia. Qed.

Lemma set_disks_wf c i ns : wf_cluster c → num_sets c = Some ns → i < ns →
  ∃ ds, set_disks c i = Some ds
    ∧ ds = take (set_drive_count c) (drop (i * set_drive_count c) (all_disks c))
    ∧ length ds = set_drive_count c.
Proof.
  intros Hwf Hns Hi. destruct (num_sets_wf c Hwf) as (ns' & Hns' & _ & Htot).
  simplify_eq. unfold set_disks. rewrite <-length_all_disks in Htot.
  rewrite (slice_block _ _ _ ns) by done. eexists. split; [done|]. split; [done|].
  by apply length_slice_block with ns.
Qed.

Lemma blocks_concat {A} (l : list A) k m :
  length l = m * k → mjoin ((λ i, take k (drop (i * k) l)) <$> seq 0 m) = l.
Proof.
  revert l. induction m as [|m IH]; intros l Hl.
  - simpl in *. by apply nil_length_inv in Hl.
  - assert (mjoin ((λ i, take k (drop (i * k) l)) <$> seq 1 m) = drop k l) as E.
    { rewrite <-fmap_S_seq, <-list_fmap_compose.
      etrans; [|apply IH; rewrite length_drop; lia].
      f_equal. apply list_fmap_ext. intros _ i _. simpl. by rewrite drop_drop. }
    simpl. rewrite drop_0. setoid_rewrite E. apply take_drop.
Qed.

Lemma node_ids_loop_spec ds seen out :
  NoDup out → (∀ n, n ∈ out ↔ n ∈ seen) →
  NoDup (node_ids_loop ds seen out) ∧
  ∀ n, n ∈ node_ids_loop ds seen out ↔ n ∈ out ∨ n ∈ node_id <$> ds.
Proof.
  revert seen out. induction ds as [|d ds IH]; intros seen out Hnd Hseen; simpl.
  { split; [done|]. intros n. rewrite elem_of_nil. tauto. }
  case_decide as Hd.
  - destruct (IH seen out Hnd Hseen) as [? Hin]. split; [done|]. intros n.
    rewrite Hin, elem_of_cons. split; [tauto|].
    intros [?|[->|?]]; [tauto| |tauto]. left. by apply Hseen.
  - destruct (IH ({[node_id d]} ∪ seen) (out ++ [node_id d])) as [? Hin].
    + apply NoDup_app. split_and!; [done| |apply NoDup_singleton].
      intros x Hx ->%list_elem_of_singleton. by apply Hd, Hseen.
    + intros n. rewrite elem_of_app, list_elem_of_singleton, elem_of_union,
        elem_of_singleton, Hseen. tauto.
    + split; [done|]. intros n. rewrite Hin, elem_of_app, list_elem_of_singleton, elem_of_cons.
      tauto.
Qed.

Lemma disks_for_wf siphash c bucket key :
  wf_cluster c →
  ∃ s ns ds, set_index_for siphash c bucket key = Some s ∧ num_sets c = Some ns ∧ s < ns
    ∧ disks_for siphash c bucket key = Some ds
    ∧ length ds = write_quorum c ∧ NoDup ds ∧ (∀ d, d ∈ ds → d ∈ all_disks c).
Proof.
  intros Hwf. destruct (num_sets_wf c Hwf) as (ns & Hns & Hpos & _).
  set (s := N.to_nat (siphash [bucket; "/"; key]) mod (ns `max` 1)).
  assert (s < ns) as Hs.
  { unfold s. replace (ns `max` 1) with ns by lia. apply Nat.mod_upper_bound. lia. }
  destruct (set_disks_wf c s ns Hwf Hns Hs) as (ds & Hds & Hdef & Hlen).
  exists s, ns, ds. unfold disks_for, set_index_for. rewrite Hns. simpl.
  split_and!; try done; subst ds.
  - eapply sublist_NoDup; [apply NoDup_all_disks, Hwf|].
    etrans; [apply sublist_take|apply sublist_drop].
  - intros d Hd. eapply elem_of_take in Hd as (i & Hd & _).
    rewrite lookup_drop in Hd. by eapply list_elem_of_lookup_2.
Qed.

(** ** Properties *)

(** Placement is total and stays inside the cluster: on a booted cluster
    every [(bucket, key)] is routed to a set that exists, and the set has
    exactly [set_drive_count] pairwise different disks of the cluster, which is
    the write quorum. *)
Theorem disks_for_total siphash c bucket key :
  wf_cluster c →
  ∃ s ns ds, set_index_for siphash c bucket key = Some s ∧ num_sets c = Some ns ∧ s < ns
    ∧ disks_for siphash c bucket key = Some ds
    ∧ length ds = write_quorum c ∧ NoDup ds ∧ (∀ d, d ∈ ds → d ∈ all_disks c).
Proof. apply disks_for_wf. Qed.

Definition sample_cluster : ClusterConfig :=
  {| nodes := [{| id := 0; rpc_addr := "10.0.0.1:9100"; disk_count := 4 |};
               {| id := 1; rpc_addr := "10.0.0.2:9100"; disk_count := 4 |}];
     set_drive_count := 4; default_parity_count := 1; deployment_id := "d" |}.

Lemma sample_cluster_wf : wf_cluster sample_cluster.
Proof.
  split; [vm_compute; lia..| |].
  - simpl. vm_compute. lia.
  - apply (bool_decide_unpack _). vm_compute. done.
Defined.

Lemma disks_for_total_witness :
  ∃ s ns ds, set_index_for (λ _, 5%N) sample_cluster "b" "k" = Some s
    ∧ num_sets sample_cluster = Some ns ∧ s < ns
    ∧ disks_for (λ _, 5%N) sample_cluster "b" "k" = Some ds
    ∧ length ds = write_quorum sample_cluster ∧ NoDup ds
    ∧ (∀ d, d ∈ ds → d ∈ all_disks sample_cluster).
Proof. apply (disks_for_total (λ _, 5%N) sample_cluster "b" "k"), sample_cluster_wf. Defined.

(** The erasure sets partition the cluster: reading the sets in order
    gives back exactly the flat list of all disks, and the lock plane of a set
    lists, without repetition, exactly the nodes that own a disk of it. *)
Theorem sets_partition_disks c :
  wf_cluster c →
  ∃ ns sets, num_sets c = Some ns
    ∧ mapM (set_disks c) (seq 0 ns) = Some sets
    ∧ mjoin sets = all_disks c
    ∧ ∀ i ds, sets !! i = Some ds →
        ∃ ids, set_node_ids c i = Some ids ∧ NoDup ids
          ∧ ∀ n, n ∈ ids ↔ n ∈ node_id <$> ds.
Proof.
  intros Hwf. destruct (num_sets_wf c Hwf) as (ns & Hns & _ & Htot).
  rewrite <-length_all_disks in Htot.
  set (blk := λ i, take (set_drive_count c) (drop (i * set_drive_count c) (all_disks c))).
  exists ns, (blk <$> seq 0 ns). split_and!; [done| |by apply blocks_concat|].
  - apply mapM_Some, Forall2_fmap_r, Forall_Forall2_diag, Forall_forall.
    intros i [_ Hi]%elem_of_seq.
    destruct (set_disks_wf c i ns Hwf Hns) as (ds & -> & -> & _); [lia|done].
  - intros i ds. rewrite list_lookup_fmap. intros (j & Hj & ->)%fmap_Some.
    apply lookup_seq in Hj as [-> Hi]. simpl.
    destruct (set_disks_wf c i ns Hwf Hns Hi) as (ds & Hds & -> & _).
    unfold set_node_ids. rewrite Hds. simpl. eexists. split; [done|]. fold (blk i).
    destruct (node_ids_loop_spec (blk i) ∅ []) as [? Hin];
      [constructor|set_solver|]. split; [done|].
    intros n. rewrite Hin, elem_of_nil. tauto.
Qed.

Lemma sets_partition_disks_witness :
  ∃ ns sets, num_sets sample_cluster = Some ns
    ∧ mapM (set_disks sample_cluster) (seq 0 ns) = Some sets
    ∧ mjoin sets = all_disks sample_cluster
    ∧ ∀ i ds, sets !! i = Some ds →
        ∃ ids, set_node_ids sample_cluster i = Some ids ∧ NoDup ids
          ∧ ∀ n, n ∈ ids ↔ n ∈ node_id <$> ds.
Proof. apply sets_partition_disks, sample_cluster_wf. Defined.
