(* ===== verification/LockServer.v ===== *)
(** * The per-node lock server and its peers

    [openlake_server/src/lock_server.rs]; the lock-plane arms of
    [rpc_server::dispatch]; the [LockPeer] trait of [backend.rs] with its two
    implementations, the in-process [LocalLockPeer] and the remote
    [RemoteBackend].  Instants and durations are integers of one unit; the
    server reads the clock once per call, so the instant is an argument. *)

From stdpp Require Import base gmap strings list sorting.
From S2P Require Import Prelude Types.

(** ** State and operations *)

Record LockEntry := { uid : string; last_refresh : Z }.
Record LockServer := { locks : gmap string LockEntry; validity : Z }.

Definition DEFAULT_VALIDITY : Z := 60000.
Definition DEFAULT_SWEEP_INTERVAL : Z := 60000.

Definition with_validity (v : Z) : LockServer := {| locks := ∅; validity := v |}.
Definition LockServer_new : LockServer := with_validity DEFAULT_VALIDITY.

Definition set_locks (m : gmap string LockEntry) (s : LockServer) : LockServer :=
  {| locks := m; validity := validity s |}.

(** [now.saturating_duration_since(e.last_refresh) < self.validity]. *)
Definition entry_live (now v : Z) (e : LockEntry) : bool :=
  (Z.max 0 (now - last_refresh e) <? v)%Z.

Definition acquire (now : Z) (resource u : string) (s : LockServer) : bool * LockServer :=
  let grant := (true, set_locks (<[resource := {| uid := u; last_refresh := now |}]> (locks s)) s) in
  match locks s !! resource with
  | Some e => if entry_live now (validity s) e then (false, s) else grant
  | None => grant
  end.

Definition refresh (now : Z) (resource u : string) (s : LockServer) : bool * LockServer :=
  match locks s !! resource with
  | Some e =>
      if decide (uid e = u)
      then (true, set_locks (<[resource := {| uid := uid e; last_refresh := now |}]> (locks s)) s)
      else (false, s)
  | None => (false, s)
  end.

Definition release (resource u : string) (s : LockServer) : LockServer :=
  match locks s !! resource with
  | Some e => if decide (uid e = u) then set_locks (delete resource (locks s)) s else s
  | None => s
  end.

Definition expire_old (now : Z) (s : LockServer) : nat * LockServer :=
  let kept := filter (λ re : string * LockEntry, entry_live now (validity s) re.2 = true) (locks s) in
  (base.size (locks s) - base.size kept, set_locks kept s).

(** One call of the server, with the instant it reads; the result is the
    boolean the call answers ([release] and the sweep answer nothing). *)
Inductive lock_op :=
  | OpAcquire (resource u : string)
  | OpRefresh (resource u : string)
  | OpRelease (resource u : string)
  | OpSweep.

Definition server_step (now : Z) (op : lock_op) (s : LockServer) : bool * LockServer :=
  match op with
  | OpAcquire r u => acquire now r u s
  | OpRefresh r u => refresh now r u s
  | OpRelease r u => (true, release r u s)
  | OpSweep => (true, (expire_old now s).2)
  end.

(** A log of calls, in the order the server's mutex serialises them. *)
Fixpoint run_log (log : list (Z * lock_op)) (s : LockServer) : list bool * LockServer :=
  match log with
  | [] => ([], s)
  | (now, op) :: log =>
      let '(b, s') := server_step now op s in
      let '(bs, s'') := run_log log s' in
      (b :: bs, s'')
  end.

(** ** The RPC plane of the lock server *)

Inductive lock_response := LockGranted | LockDenied | LockRefreshed | LockNotFound | RespOk.

Definition lock_dispatch (now : Z) (op : lock_op) (s : LockServer) : lock_response * LockServer :=
  match op with
  | OpAcquire r u =>
      let '(b, s') := acquire now r u s in (if b then LockGranted else LockDenied, s')
  | OpRelease r u => (RespOk, release r u s)
  | OpRefresh r u =>
      let '(b, s') := refresh now r u s in (if b then LockRefreshed else LockNotFound, s')
  | OpSweep => (RespOk, s)
  end.

(** ** Peers

    What can happen to one call on the wire: it is served and answered; it is
    served and the answer is lost; it never reaches the server. *)
Inductive delivery := Delivered | ReplyLost | Dropped.
Record call_env := { at_time : Z; fate : delivery }.

Definition network_error : IoError := Io {| io_kind := KindTimedOut; io_msg := "timed out" |}.
Definition unexpected : IoError := Decode "unexpected response".

(** [unary]: the request over the network. *)
Definition unary (env : call_env) (op : lock_op) (s : LockServer) :
    IoResult lock_response * LockServer :=
  match fate env with
  | Dropped => (Err network_error, s)
  | ReplyLost => (Err network_error, (lock_dispatch (at_time env) op s).2)
  | Delivered => let '(r, s') := lock_dispatch (at_time env) op s in (Ok r, s')
  end.

Definition remote_lock_acquire (env : call_env) (r u : string) (s : LockServer) :=
  let '(resp, s') := unary env (OpAcquire r u) s in
  (match resp with
   | Ok LockGranted => Ok true
   | Ok LockDenied => Ok false
   | Ok _ => Err unexpected
   | Err e => Err e
   end, s').

Definition remote_lock_release (env : call_env) (r u : string) (s : LockServer) :=
  let '(resp, s') := unary env (OpRelease r u) s in
  (match resp with
   | Ok RespOk => Ok tt
   | Ok _ => Err unexpected
   | Err e => Err e
   end, s').

Definition remote_lock_refresh (env : call_env) (r u : string) (s : LockServer) :=
  let '(resp, s') := unary env (OpRefresh r u) s in
  (match resp with
   | Ok LockRefreshed => Ok true
   | Ok LockNotFound => Ok false
   | Ok _ => Err unexpected
   | Err e => Err e
   end, s').

(** A peer: the in-process server, or a server behind the network. *)
Inductive lock_peer := LocalLockPeer (s : LockServer) | RemoteLockPeer (s : LockServer).
Definition peer_server (p : lock_peer) : LockServer :=
  match p with LocalLockPeer s | RemoteLockPeer s => s end.

(** ** The [LockPeer] trait

    [lease_of p r] is the entry the peer keeps for [r] and [window p] its
    validity; the laws are what a coordinator relies on. *)
Class LockPeer (P : Type) := {
  lock_acquire : call_env → string → string → P → IoResult bool * P;
  lock_release : call_env → string → string → P → IoResult unit * P;
  lock_refresh : call_env → string → string → P → IoResult bool * P;
  lease_of : P → string → option LockEntry;
  window : P → Z;
  lock_acquire_granted : ∀ env r u p p',
    lock_acquire env r u p = (Ok true, p') →
    lease_of p' r = Some {| uid := u; last_refresh := at_time env |};
  lock_acquire_live : ∀ env r u p e,
    lease_of p r = Some e → entry_live (at_time env) (window p) e = true →
    (lock_acquire env r u p).1 ≠ Ok true ∧ lease_of (lock_acquire env r u p).2 r = Some e;
  lock_release_other : ∀ env r u p e,
    lease_of p r = Some e → uid e ≠ u → lease_of (lock_release env r u p).2 r = Some e;
  lock_release_ok : ∀ env r u p p' e,
    lock_release env r u p = (Ok tt, p') → lease_of p' r = Some e → uid e ≠ u;
  lock_refresh_true : ∀ env r u p p',
    lock_refresh env r u p = (Ok true, p') →
    lease_of p' r = Some {| uid := u; last_refresh := at_time env |};
  lock_refresh_false : ∀ env r u p p' e,
    lock_refresh env r u p = (Ok false, p') → lease_of p r = Some e → uid e ≠ u;
  lock_acquire_window : ∀ env r u p, window (lock_acquire env r u p).2 = window p;
  lock_release_window : ∀ env r u p, window (lock_release env r u p).2 = window p
}.

(** ** Lemmas *)

Definition lease (s : LockServer) (r : string) : option LockEntry := locks s !! r.

Lemma entry_live_fresh now v u : (0 < v)%Z → entry_live now v {| uid := u; last_refresh := now |} = true.
Proof. intros. unfold entry_live. simpl. apply Z.ltb_lt. lia. Qed.

Lemma acquire_spec now r u s :
  acquire now r u s =
    match lease s r with
    | Some e => if entry_live now (validity s) e then (false, s)
                else (true, set_locks (<[r := {| uid := u; last_refresh := now |}]> (locks s)) s)
    | None => (true, set_locks (<[r := {| uid := u; last_refresh := now |}]> (locks s)) s)
    end.
Proof. done. Qed.

Lemma acquire_true now r u s s' :
  acquire now r u s = (true, s') → lease s' r = Some {| uid := u; last_refresh := now |}.
Proof.
  rewrite acquire_spec. destruct (lease s r) as [e|]; [case_bool|]; intros [= <-];
    unfold lease; simpl; apply lookup_insert_eq.
Qed.

Lemma acquire_live now r u s e :
  lease s r = Some e → entry_live now (validity s) e = true → acquire now r u s = (false, s).
Proof. intros He Hl. rewrite acquire_spec, He. by rewrite Hl. Qed.

Lemma acquire_other now r r' u s : r ≠ r' → lease (acquire now r u s).2 r' = lease s r'.
Proof.
  intros Hr. rewrite acquire_spec. destruct (lease s r); [case_bool|]; simpl; try done;
    unfold lease; simpl; by rewrite lookup_insert_ne.
Qed.

Lemma release_other_uid r u s e : lease s r = Some e → uid e ≠ u → release r u s = s.
Proof. unfold lease, release. intros -> ?. by rewrite decide_False. Qed.

Lemma release_gone r u s e : lease (release r u s) r = Some e → uid e ≠ u.
Proof.
  unfold lease, release. destruct (locks s !! r) as [e'|] eqn:E; [|congruence].
  case_decide; simpl; [by rewrite lookup_delete_eq|congruence].
Qed.

Lemma release_other r r' u s : r ≠ r' → lease (release r u s) r' = lease s r'.
Proof.
  intros Hr. unfold lease, release. destruct (locks s !! r); [case_decide|]; simpl; try done.
  by rewrite lookup_delete_ne.
Qed.

Lemma refresh_true now r u s s' :
  refresh now r u s = (true, s') → lease s' r = Some {| uid := u; last_refresh := now |}.
Proof.
  unfold refresh, lease. destruct (locks s !! r) as [e|]; [|done].
  case_decide; [|done]. intros [= <-]. subst. simpl. apply lookup_insert_eq.
Qed.

Lemma refresh_false now r u s s' e :
  refresh now r u s = (false, s') → lease s r = Some e → uid e ≠ u.
Proof. unfold refresh, lease. intros H E. rewrite E in H. by case_decide. Qed.

Lemma refresh_other_uid now r u s e :
  lease s r = Some e → uid e ≠ u → refresh now r u s = (false, s).
Proof. unfold lease, refresh. intros -> ?. by rewrite decide_False. Qed.

Lemma refresh_other now r r' u s : r ≠ r' → lease (refresh now r u s).2 r' = lease s r'.
Proof.
  intros Hr. unfold lease, refresh. destruct (locks s !! r); [case_decide|]; simpl; try done.
  by rewrite lookup_insert_ne.
Qed.

Lemma expire_old_lease now s r :
  lease (expire_old now s).2 r =
    match lease s r with
    | Some e => if entry_live now (validity s) e then Some e else None
    | None => None
    end.
Proof.
  unfold lease, expire_old. simpl. destruct (locks s !! r) as [e|] eqn:E.
  - destruct (entry_live now (validity s) e) eqn:L.
    + by apply map_lookup_filter_Some_2.
    + apply map_lookup_filter_None_2. right. intros e' ? H. simplify_eq. simpl in H. congruence.
  - apply map_lookup_filter_None_2. by left.
Qed.

Lemma server_step_validity now op s : validity (server_step now op s).2 = validity s.
Proof.
  destruct op as [r u|r u|r u|]; simpl.
  - rewrite acquire_spec. destruct (lease s r); [case_bool|]; done.
  - unfold refresh. destruct (locks s !! r); [case_decide|]; done.
  - unfold release. destruct (locks s !! r); [case_decide|]; done.
  - done.
Qed.

(** ** Leases over a log

    [lease_kept v r u last log]: a holder [u] of [r], stamped at [last], keeps
    its lease through the log: at every call less than [v] has passed since its
    last stamp, and it never releases. *)
#[global] Instance lock_op_eq_dec : EqDecision lock_op.
Proof. solve_decision. Defined.

Fixpoint lease_kept (v : Z) (r u : string) (last : Z) (log : list (Z * lock_op)) : bool :=
  match log with
  | [] => true
  | (t, op) :: log =>
      (t - last <? v)%Z && bool_decide (op ≠ OpRelease r u)
      && lease_kept v r u (if decide (op = OpRefresh r u) then t else last) log
  end.

(** [u] holds [r] at the start of the log and keeps it through. *)
Definition keeps_lease (r u : string) (sl : LockServer * list (Z * lock_op)) : bool :=
  match lease sl.1 r with
  | Some e => bool_decide (uid e = u) && (0 <? validity sl.1)%Z
              && lease_kept (validity sl.1) r u (last_refresh e) sl.2
  | None => false
  end.

(** Some [acquire] of [r] by [u] in the log is granted. *)
Definition granted_in (r u : string) (sl : LockServer * list (Z * lock_op)) : bool :=
  existsb (λ cb, bool_decide (cb.1.2 = OpAcquire r u) && cb.2)
    (zip sl.2 (run_log sl.2 sl.1).1).

Lemma entry_live_of_gap t v e : (0 < v)%Z → (t - last_refresh e < v)%Z → entry_live t v e = true.
Proof. intros. apply Z.ltb_lt. lia. Qed.

(** One call leaves the holder's lease in place, stamped by its own refresh
    only, and grants nobody the resource. *)
Lemma server_step_kept t op s r e :
  lease s r = Some e → (0 < validity s)%Z → (t - last_refresh e < validity s)%Z →
  op ≠ OpRelease r (uid e) →
  lease (server_step t op s).2 r =
    Some {| uid := uid e;
            last_refresh := if decide (op = OpRefresh r (uid e)) then t else last_refresh e |}
  ∧ ∀ u', op = OpAcquire r u' → (server_step t op s).1 = false.
Proof.
  intros He Hv Hgap Hrel.
  assert (entry_live t (validity s) e = true) as Hl by by apply entry_live_of_gap.
  assert (Some {| uid := uid e; last_refresh := last_refresh e |} = Some e) as Heta by by destruct e.
  destruct op as [r' u'|r' u'|r' u'|]; simpl; rewrite ?decide_False by congruence; rewrite ?Heta.
  - destruct (decide (r' = r)) as [->|]; [by rewrite (acquire_live _ _ _ _ _ He Hl)|].
    rewrite acquire_other by done. split; [done|]. congruence.
  - split; [|done]. destruct (decide (r' = r)) as [->|].
    + destruct (decide (uid e = u')) as [<-|].
      * rewrite decide_True by done. unfold refresh, lease in *. rewrite He.
        rewrite decide_True by done. simpl. apply lookup_insert_eq.
      * rewrite decide_False by congruence.
        rewrite (refresh_other_uid _ _ _ _ _ He) by done. by rewrite Heta.
    + rewrite refresh_other by done. rewrite decide_False by congruence. by rewrite Heta.
  - split; [|done]. destruct (decide (r' = r)) as [->|].
    + rewrite (release_other_uid _ _ _ _ He) by congruence. done.
    + by rewrite release_other.
  - split; [|done]. unfold expire_old, lease in *.
    apply map_lookup_filter_Some_2; [done|]. done.
Qed.

Lemma keeps_lease_not_granted r u u' s log :
  keeps_lease r u (s, log) = true → granted_in r u' (s, log) = false.
Proof.
  unfold keeps_lease, granted_in. simpl. revert s. induction log as [|[t op] log IH]; intros s; [done|].
  destruct (lease s r) as [e|] eqn:He; [|done]. simpl. intros H. to_prop.
  repeat match goal with H : bool_decide _ = true |- _ => apply bool_decide_eq_true in H end.
  subst u. destruct (server_step_kept t op s r e) as [Hst Hno]; [done..|].
  pose proof (server_step_validity t op s) as Hval.
  destruct (server_step t op s) as [b s'] eqn:Es. simpl in *.
  destruct (run_log log s') as [bs s''] eqn:Er. simpl.
  apply orb_false_iff. split.
  - case_bool_decide; [|done]. simpl. by eapply Hno.
  - specialize (IH s'). rewrite Hst, Er in IH. apply IH. simpl. rewrite Hval.
    rewrite bool_decide_true by done. simpl. apply andb_true_iff. split; [by apply Z.ltb_lt|done].
Qed.

(** ** The implementations discharge the trait's laws *)

Definition peer_acquire (env : call_env) (r u : string) (p : lock_peer) : IoResult bool * lock_peer :=
  match p with
  | LocalLockPeer s => let '(b, s') := acquire (at_time env) r u s in (Ok b, LocalLockPeer s')
  | RemoteLockPeer s => let '(b, s') := remote_lock_acquire env r u s in (b, RemoteLockPeer s')
  end.
Definition peer_release (env : call_env) (r u : string) (p : lock_peer) : IoResult unit * lock_peer :=
  match p with
  | LocalLockPeer s => (Ok tt, LocalLockPeer (release r u s))
  | RemoteLockPeer s => let '(b, s') := remote_lock_release env r u s in (b, RemoteLockPeer s')
  end.
Definition peer_refresh (env : call_env) (r u : string) (p : lock_peer) : IoResult bool * lock_peer :=
  match p with
  | LocalLockPeer s => let '(b, s') := refresh (at_time env) r u s in (Ok b, LocalLockPeer s')
  | RemoteLockPeer s => let '(b, s') := remote_lock_refresh env r u s in (b, RemoteLockPeer s')
  end.

Ltac unfold_peer :=
  unfold peer_acquire, peer_release, peer_refresh, remote_lock_acquire, remote_lock_release,
    remote_lock_refresh, unary, lock_dispatch in *; simpl in *.

#[global] Program Instance lock_peer_LockPeer : LockPeer lock_peer := {|
  lock_acquire := peer_acquire;
  lock_release := peer_release;
  lock_refresh := peer_refresh;
  lease_of p r := lease (peer_server p) r;
  window p := validity (peer_server p)
|}.
Next Obligation.
  intros [t []] r u [s|s] p'; unfold_peer; destruct (acquire t r u s) as [[] s'] eqn:E;
    intros [= <-]; simpl; by eapply acquire_true.
Qed.
Next Obligation.
  intros [t []] r u [s|s] e He Hl; unfold_peer; try done;
    rewrite (acquire_live _ _ _ _ _ He Hl); simpl; done.
Qed.
Next Obligation.
  intros [t []] r u [s|s] e He Hu; unfold_peer; try done;
    by rewrite (release_other_uid _ _ _ _ He Hu).
Qed.
Next Obligation.
  intros [t []] r u [s|s] p' e; unfold_peer; intros [= <-] He; by eapply release_gone.
Qed.
Next Obligation.
  intros [t []] r u [s|s] p'; unfold_peer; destruct (refresh t r u s) as [[] s'] eqn:E;
    intros [= <-]; simpl; by eapply refresh_true.
Qed.
Next Obligation.
  intros [t []] r u [s|s] p' e; unfold_peer; destruct (refresh t r u s) as [[] s'] eqn:E;
    intros [= <-] He; by eapply refresh_false.
Qed.
Next Obligation.
  intros [t []] r u [s|s]; unfold_peer; pose proof (server_step_validity t (OpAcquire r u) s) as Hv;
    simpl in Hv; destruct (acquire t r u s) as [[] s']; done.
Qed.
Next Obligation.
  intros [t []] r u [s|s]; unfold_peer; try done;
    apply (server_step_validity t (OpRelease r u) s).
Qed.
