(* ===== verification/Dsync.v ===== *)
(** * The distributed lock client

    [openlake_storage/src/dsync.rs].  The peers are any implementation of the
    [LockPeer] interface.  [join_all] over the peers is a pointwise map: each
    call acts on its own peer, with its own instant and network fate.  What the
    clock and the random source yield is data of the run: an acquire consumes a
    list of [round]s, one per iteration of its loop. *)

From stdpp Require Import base gmap strings list.
From S2P Require Import Prelude Types LockServer.

(** ** Constants, in milliseconds *)
Definition DEFAULT_LEASE : Z := 30000.
Definition REFRESH_INTERVAL : Z := 30000.
Definition MAX_BACKOFF : Z := 2000.
Definition BASE_BACKOFF : Z := 50.

(** ** State *)

Record LockState := { stop : bool; lost : bool }.
Record DsyncClient := { quorum : nat; refresh_interval : Z }.
Record LockGuard := {
  g_resource : option string;
  g_uid : option string;
  g_state : LockState
}.

(** [DsyncClient::new] over [n] peers, and the lock-less client. *)
Definition dsync_new (n : nat) : DsyncClient :=
  {| quorum := n / 2 + 1; refresh_interval := REFRESH_INTERVAL |}.
Definition no_op : DsyncClient := {| quorum := 0; refresh_interval := REFRESH_INTERVAL |}.

(** [jitter]: [pseudo] is what [pseudo_random_u64] returns.  The shift is at
    most 6, so [checked_shl] does not fail and the product stays in 64 bits. *)
Definition jitter (attempt pseudo : Z) : Z :=
  let base := BASE_BACKOFF in
  let cap := MAX_BACKOFF in
  let shift := Z.min attempt 6 in
  let max := Z.min (Z.shiftl base shift `mod` u64_mod) cap in
  let span := Z.max (Z.max (max - base) 0) 1 in
  base + pseudo `mod` span.

(** [u32::saturating_add(1)]. *)
Definition next_attempt (attempt : Z) : Z := Z.min (attempt + 1) (u32_mod - 1).

(** Two quorums over the same peers overlap. *)
Lemma dsync_quorum n : n < 2 * quorum (dsync_new n) ≤ n + 2.
Proof.
  cbn [dsync_new quorum]. pose proof (Nat.div_mod_eq n 2). pose proof (Nat.mod_upper_bound n 2). lia.
Qed.

Section client.
Context {P : Type} `{LockPeer P}.

(** The fan-out of one vote: every peer is asked, in place. *)
Definition fan_acquire (env : nat → call_env) (r u : string) (ps : list P) :
    list (IoResult bool) * list P :=
  let out := imap (λ i p, lock_acquire (env i) r u p) ps in (out.*1, out.*2).

(** [filter_map(|(i, r)| matches!(r, Ok(true)).then_some(i))]. *)
Definition granted_of (results : list (IoResult bool)) : list nat :=
  omap (λ ir, match ir.2 with Ok true => Some ir.1 | _ => None end) (enumerate results).

(** The stray grants are released one after the other. *)
Definition release_granted (env : nat → call_env) (r u : string) (granted : list nat)
    (ps : list P) : list P :=
  foldl (λ ps i, alter (λ p, (lock_release (env i) r u p).2) i ps) ps granted.

(** One iteration of [acquire]'s loop: the uid [fresh_uid] yields, the fates of
    its calls, the time from its start to the deadline check, and the number
    [pseudo_random_u64] yields for the backoff. *)
Record round := {
  rd_uid : string;
  rd_acquire : nat → call_env;
  rd_release : nat → call_env;
  rd_elapsed : N;
  rd_pseudo : N
}.

(** [DsyncClient::acquire]: [None] while the loop still has rounds to run. *)
Fixpoint acquire_loop (c : DsyncClient) (r : string) (deadline attempt now : Z)
    (rounds : list round) (ps : list P) : option (StorageResult LockGuard * list P) :=
  match rounds with
  | [] => None
  | rd :: rounds =>
      let '(results, ps1) := fan_acquire (rd_acquire rd) r (rd_uid rd) ps in
      let granted := granted_of results in
      if quorum c <=? length granted then
        Some (Ok {| g_resource := Some r; g_uid := Some (rd_uid rd);
                    g_state := {| stop := false; lost := false |} |}, ps1)
      else
        let ps2 := release_granted (rd_release rd) r (rd_uid rd) granted ps1 in
        let now1 := (now + Z.of_N (rd_elapsed rd))%Z in
        if (deadline <=? now1)%Z then Some (Err (LockTimeout r), ps2)
        else acquire_loop c r deadline (next_attempt attempt)
               (now1 + jitter attempt (Z.of_N (rd_pseudo rd)))%Z rounds ps2
  end.

Definition dsync_acquire (c : DsyncClient) (r : string) (now timeout : Z) :=
  acquire_loop c r (now + timeout)%Z 0%Z now.

(** Releases on every peer, results ignored. *)
Definition release_all (env : nat → call_env) (r u : string) (ps : list P) : list P :=
  imap (λ i p, (lock_release (env i) r u p).2) ps.

(** [LockGuard::is_lost], [LockGuard::check], [Drop for LockGuard]. *)
Definition is_lost (g : LockGuard) : bool := lost (g_state g).
Definition check (g : LockGuard) : StorageResult unit :=
  if is_lost g then Err (LockLost (default "" (g_resource g))) else Ok tt.
Definition drop_guard (env : nat → call_env) (g : LockGuard) (ps : list P) :
    LockGuard * list P :=
  let g' := {| g_resource := None; g_uid := None;
               g_state := {| stop := true; lost := lost (g_state g) |} |} in
  match g_resource g, g_uid g with
  | Some r, Some u => (g', release_all env r u ps)
  | _, _ => (g', ps)
  end.

(** One iteration of the refresh task after its sleep: [stop1] and [stop2] are
    the two loads of the stop flag. *)
Inductive refresh_outcome := RefreshStopped | RefreshContinue | RefreshLost.

Definition fan_refresh (env : nat → call_env) (r u : string) (ps : list P) :
    list (IoResult bool) * list P :=
  let out := imap (λ i p, lock_refresh (env i) r u p) ps in (out.*1, out.*2).

Definition not_found (results : list (IoResult bool)) : nat :=
  length (filter (λ x, x = Ok false) results).

Definition refresh_iter (q : nat) (stop1 stop2 : bool) (env rel : nat → call_env)
    (r u : string) (st : LockState) (ps : list P) : refresh_outcome * LockState * list P :=
  let tolerance := length ps - q in
  if stop1 then (RefreshStopped, st, ps) else
  let '(results, ps1) := fan_refresh env r u ps in
  if stop2 then (RefreshStopped, st, ps1) else
  if tolerance <? not_found results
  then (RefreshLost, {| stop := stop st; lost := true |}, release_all rel r u ps1)
  else (RefreshContinue, st, ps1).

(** ** Lemmas *)

(** The peers where [u]'s lease on [r] is stamped at the instant of [env]. *)
Definition stamped (env : nat → call_env) (r u : string) (i : nat) (p : P) : Prop :=
  lease_of p r = Some {| uid := u; last_refresh := at_time (env i) |}.

Lemma elem_of_granted_of results i :
  i ∈ granted_of results ↔ results !! i = Some (Ok true).
Proof.
  unfold granted_of. rewrite list_elem_of_omap. split.
  - intros ([j x] & Hj%elem_of_enumerate & Hx). simpl in Hx.
    destruct x as [[]|]; by simplify_eq.
  - intros Hi. exists (i, Ok true). by rewrite elem_of_enumerate.
Qed.

Lemma NoDup_granted_of results : NoDup (granted_of results).
Proof.
  unfold granted_of, enumerate. generalize 0 as k.
  induction results as [|x xs IH]; intros k; simpl; [constructor|].
  destruct x as [[]|]; try apply IH. apply NoDup_cons. split; [|apply IH].
  rewrite list_elem_of_omap. intros ([j y] & Hj & Hy). simpl in Hy.
  apply elem_of_zip_l, elem_of_seq in Hj.
  destruct y as [[]|]; simplify_eq. lia.
Qed.

Lemma fan_acquire_lookup env r u ps i :
  (fan_acquire env r u ps).1 !! i = (λ p, (lock_acquire (env i) r u p).1) <$> ps !! i
  ∧ (fan_acquire env r u ps).2 !! i = (λ p, (lock_acquire (env i) r u p).2) <$> ps !! i.
Proof.
  unfold fan_acquire. simpl. rewrite !list_lookup_fmap, list_lookup_imap.
  by destruct (ps !! i).
Qed.

Lemma length_fan_acquire env r u ps :
  length (fan_acquire env r u ps).1 = length ps ∧ length (fan_acquire env r u ps).2 = length ps.
Proof. unfold fan_acquire. simpl. by rewrite !length_fmap, length_imap. Qed.

(** A granted vote is a lease of the voter, stamped now. *)
Lemma fan_acquire_stamped env r u ps i :
  i ∈ granted_of (fan_acquire env r u ps).1 →
  ∃ p, (fan_acquire env r u ps).2 !! i = Some p ∧ stamped env r u i p.
Proof.
  rewrite elem_of_granted_of. destruct (fan_acquire_lookup env r u ps i) as [-> ->].
  intros (p & Hp & Hgr)%fmap_Some. rewrite Hp. simpl. eexists. split; [done|].
  unfold stamped. destruct (lock_acquire (env i) r u p) as [x p'] eqn:E. simpl in *. subst x.
  by eapply lock_acquire_granted.
Qed.

Lemma fan_refresh_lookup env r u ps i :
  (fan_refresh env r u ps).1 !! i = (λ p, (lock_refresh (env i) r u p).1) <$> ps !! i
  ∧ (fan_refresh env r u ps).2 !! i = (λ p, (lock_refresh (env i) r u p).2) <$> ps !! i.
Proof.
  unfold fan_refresh. simpl. rewrite !list_lookup_fmap, list_lookup_imap.
  by destruct (ps !! i).
Qed.

Lemma jitter_range attempt pseudo :
  (0 ≤ attempt)%Z → (0 ≤ pseudo)%Z → (BASE_BACKOFF ≤ jitter attempt pseudo < MAX_BACKOFF)%Z.
Proof.
  intros Ha Hp. unfold jitter, BASE_BACKOFF, MAX_BACKOFF.
  set (span := Z.max (Z.max _ 0) 1).
  assert (1 ≤ span ≤ 1950)%Z as Hspan by (unfold span; lia).
  pose proof (Z.mod_pos_bound pseudo span). lia.
Qed.

Lemma next_attempt_nonneg a : (0 ≤ a)%Z → (0 ≤ next_attempt a)%Z.
Proof. unfold next_attempt, u32_mod. lia. Qed.

Lemma acquire_loop_granted c r deadline attempt now rounds ps g ps' :
  acquire_loop c r deadline attempt now rounds ps = Some (Ok g, ps') →
  ∃ rd ids, rd ∈ rounds
    ∧ g = {| g_resource := Some r; g_uid := Some (rd_uid rd);
             g_state := {| stop := false; lost := false |} |}
    ∧ quorum c ≤ length ids ∧ NoDup ids
    ∧ ∀ i, i ∈ ids → ∃ p, ps' !! i = Some p ∧ stamped (rd_acquire rd) r (rd_uid rd) i p.
Proof.
  revert ps attempt now. induction rounds as [|rd rounds IH]; intros ps attempt now; simpl; [done|].
  case_bool; [intros [= <- <-]; to_prop|].
  - exists rd, (granted_of (fan_acquire (rd_acquire rd) r (rd_uid rd) ps).1).
    split_and!; [left|done|done|apply NoDup_granted_of|]. apply fan_acquire_stamped.
  - case_bool; [done|]. intros Hl%IH. destruct Hl as (rd' & ids & ? & ?).
    exists rd', ids. split; [by right|done].
Qed.

Lemma acquire_loop_error c r deadline attempt now rounds ps e ps' :
  acquire_loop c r deadline attempt now rounds ps = Some (Err e, ps') → e = LockTimeout r.
Proof.
  revert ps attempt now. induction rounds as [|rd rounds IH]; intros ps attempt now; simpl; [done|].
  case_bool; [done|]. case_bool; [congruence|]. apply IH.
Qed.

(** Each round that does not end the loop moves the clock by at least the base
    backoff. *)
Lemma acquire_loop_returns c r deadline attempt now rounds ps :
  (0 ≤ attempt)%Z → (deadline - now ≤ BASE_BACKOFF * (Z.of_nat (length rounds) - 1))%Z →
  rounds ≠ [] → acquire_loop c r deadline attempt now rounds ps ≠ None.
Proof.
  revert ps attempt now. induction rounds as [|rd rounds IH]; intros ps attempt now Ha Hd Hne; [done|].
  simpl. case_bool; [done|]. case_bool; [done|]. to_prop.
  pose proof (jitter_range attempt (Z.of_N (rd_pseudo rd)) Ha) as Hj.
  rewrite length_cons in Hd. unfold BASE_BACKOFF in *.
  apply IH; [by apply next_attempt_nonneg|lia|]. intros ->. simpl in Hd. lia.
Qed.

(** What the votes and the stray releases of one round leave of another
    holder's live lease. *)
Definition held_at (r u : string) (stamp : nat → Z) (ids : list nat) (ps : list P) : Prop :=
  ∀ i, i ∈ ids → ∃ p, ps !! i = Some p ∧ lease_of p r = Some {| uid := u; last_refresh := stamp i |}.

(** Every instant of [env] on the peers [ids] falls inside their leases. *)
Definition within (stamp : nat → Z) (ids : list nat) (ps : list P) (env : nat → call_env) : Prop :=
  ∀ i p, i ∈ ids → ps !! i = Some p →
    entry_live (at_time (env i)) (window p) {| uid := ""; last_refresh := stamp i |} = true.

Definition same_windows (ps qs : list P) : Prop := window <$> ps = window <$> qs.

Lemma held_denies r u u2 stamp ids ps env :
  held_at r u stamp ids ps → within stamp ids ps env →
  (∀ i, i ∈ ids → i ∉ granted_of (fan_acquire env r u2 ps).1)
  ∧ held_at r u stamp ids (fan_acquire env r u2 ps).2.
Proof.
  intros Hh Hw. split.
  - intros i Hi Hg. destruct (Hh i Hi) as (p & Hp & Hl).
    rewrite elem_of_granted_of, (proj1 (fan_acquire_lookup _ _ _ _ _)), Hp in Hg. simpl in Hg.
    destruct (lock_acquire_live (env i) r u2 p _ Hl (Hw i p Hi Hp)) as [? _]. congruence.
  - intros i Hi. destruct (Hh i Hi) as (p & Hp & Hl).
    rewrite (proj2 (fan_acquire_lookup _ _ _ _ _)), Hp. simpl. eexists. split; [done|].
    by apply (lock_acquire_live (env i) r u2 p _ Hl (Hw i p Hi Hp)).
Qed.

Lemma fan_acquire_windows env r u ps : same_windows (fan_acquire env r u ps).2 ps.
Proof.
  unfold same_windows. apply list_eq. intros i.
  rewrite !list_lookup_fmap, (proj2 (fan_acquire_lookup _ _ _ _ _)).
  destruct (ps !! i); simpl; [|done]. by rewrite lock_acquire_window.
Qed.

Lemma release_granted_windows env r u granted ps : same_windows (release_granted env r u granted ps) ps.
Proof.
  unfold same_windows, release_granted. revert ps. induction granted as [|i is_ IH]; intros ps; [done|].
  simpl. rewrite IH. apply list_eq. intros j. rewrite !list_lookup_fmap.
  destruct (decide (i = j)) as [->|Hne].
  - rewrite list_lookup_alter_eq. destruct (ps !! j); simpl; [|done]. by rewrite lock_release_window.
  - by rewrite list_lookup_alter_ne.
Qed.

Lemma release_granted_held env r u u2 stamp ids granted ps :
  u ≠ u2 → held_at r u stamp ids ps → held_at r u stamp ids (release_granted env r u2 granted ps).
Proof.
  intros Hu. unfold release_granted. revert ps. induction granted as [|j js IH]; intros ps Hh; [done|].
  apply IH. intros i Hi. destruct (Hh i Hi) as (p & Hp & Hl).
  destruct (decide (j = i)) as [->|Hne].
  - rewrite list_lookup_alter_eq, Hp. simpl. eexists. split; [done|]. by apply lock_release_other.
  - rewrite list_lookup_alter_ne by done. eauto.
Qed.

Lemma within_windows stamp ids ps qs env :
  same_windows qs ps → within stamp ids ps env → within stamp ids qs env.
Proof.
  intros Hs Hw i p Hi Hp. assert ((window <$> ps) !! i = Some (window p)) as Hp'.
  { rewrite <-Hs, list_lookup_fmap, Hp. done. }
  rewrite list_lookup_fmap in Hp'. apply fmap_Some in Hp' as (p' & Hp' & ->). by apply Hw.
Qed.

Lemma granted_bound results ids :
  NoDup ids → (∀ i, i ∈ ids → i < length results) → (∀ i, i ∈ ids → i ∉ granted_of results) →
  length ids + length (granted_of results) ≤ length results.
Proof.
  intros Hnd Hlt Hdis. rewrite <-length_app.
  assert (ids ++ granted_of results ⊆ seq 0 (length results)) as Hsub.
  { intros i [Hi|Hi]%elem_of_app; apply elem_of_seq.
    - specialize (Hlt i Hi). lia.
    - apply elem_of_granted_of, lookup_lt_Some in Hi. lia. }
  apply NoDup_submseteq, submseteq_length in Hsub; [by rewrite length_seq in Hsub|].
  apply NoDup_app. split_and!; [done|done|apply NoDup_granted_of].
Qed.

(** While a quorum of leases of [u] is live, no other holder's loop returns a
    guard. *)
Lemma acquire_loop_excluded c r deadline attempt now u stamp ids rounds ps :
  NoDup ids → length ps < length ids + quorum c →
  held_at r u stamp ids ps →
  Forall (λ rd, within stamp ids ps (rd_acquire rd) ∧ rd_uid rd ≠ u) rounds →
  ∀ g ps', acquire_loop c r deadline attempt now rounds ps ≠ Some (Ok g, ps').
Proof.
  intros Hnd Hq. revert ps attempt now Hq.
  induction rounds as [|rd rounds IH]; intros ps attempt now Hq Hh Hr g ps'; simpl; [done|].
  apply Forall_cons in Hr as [[Hw Hu] Hr].
  destruct (held_denies r u (rd_uid rd) stamp ids ps (rd_acquire rd) Hh Hw) as [Hden Hh1].
  destruct (length_fan_acquire (rd_acquire rd) r (rd_uid rd) ps) as [Hl1 Hl2].
  assert (length ids + length (granted_of (fan_acquire (rd_acquire rd) r (rd_uid rd) ps).1) ≤ length ps).
  { rewrite <-Hl1. apply granted_bound; [done| |done].
    intros i Hi. destruct (Hh i Hi) as (p & Hp%lookup_lt_Some & _). lia. }
  unfold fan_acquire in *. simpl in *. case_bool; to_prop; [lia|]. case_bool; [done|].
  set (ps1 := (imap _ ps).*2) in *.
  pose proof (release_granted_windows (rd_release rd) r (rd_uid rd)
    (granted_of (imap (λ (i : nat) (p : P), lock_acquire (rd_acquire rd i) r (rd_uid rd) p) ps).*1) ps1) as Hw2.
  pose proof (fan_acquire_windows (rd_acquire rd) r (rd_uid rd) ps) as Hw1.
  unfold fan_acquire in Hw1. simpl in Hw1. fold ps1 in Hw1.
  assert (same_windows (release_granted (rd_release rd) r (rd_uid rd)
    (granted_of (imap (λ (i : nat) (p : P), lock_acquire (rd_acquire rd i) r (rd_uid rd) p) ps).*1) ps1) ps)
    as Hw3 by (unfold same_windows in *; congruence).
  apply IH.
  - apply (f_equal length) in Hw3. rewrite !length_fmap in Hw3. lia.
  - by apply release_granted_held.
  - eapply Forall_impl; [exact Hr|]. intros rd' [? ?]. split; [|done]. by eapply within_windows.
Qed.
End client.
Arguments round : clear implicits.

(** ** Counting peers *)

Lemma disjoint_filter_length {A} (f g : A → bool) (l : list A) :
  (∀ x, x ∈ l → f x = true → g x = false) →
  length (filter (λ x, f x = true) l) + length (filter (λ x, g x = true) l) ≤ length l.
Proof.
  induction l as [|x l IH]; intros Hd; [done|].
  rewrite !filter_cons. assert (∀ y, y ∈ l → f y = true → g y = false) as Hd'.
  { intros y Hy. apply Hd. by right. }
  specialize (IH Hd'). specialize (Hd x (list_elem_of_here _ _)).
  destruct (f x) eqn:?, (g x) eqn:?; simpl; lia || by specialize (Hd eq_refl).
Qed.

(** ** Refresh *)

Section refresh.
Context {P : Type} `{LockPeer P}.

(** The peers that answered a refresh with "stamped". *)
Lemma fan_refresh_stamped env r u (ps : list P) i :
  i ∈ granted_of (fan_refresh env r u ps).1 →
  ∃ p, (fan_refresh env r u ps).2 !! i = Some p ∧ stamped env r u i p.
Proof.
  rewrite elem_of_granted_of. destruct (fan_refresh_lookup env r u ps i) as [-> ->].
  intros (p & Hp & Hgr)%fmap_Some. rewrite Hp. simpl. eexists. split; [done|].
  unfold stamped. destruct (lock_refresh (env i) r u p) as [x p'] eqn:E. simpl in *. subst x.
  by eapply lock_refresh_true.
Qed.

(** The peers that could not be asked. *)
Definition offline (results : list (IoResult bool)) : nat :=
  length (filter (λ x, is_ok x = false) results).

(** Every answer is a stamp, a denial or a failure of the call. *)
Lemma answers_split results :
  length (granted_of results) + not_found results + offline results = length results.
Proof.
  unfold granted_of, not_found, offline, enumerate. generalize 0 as k.
  induction results as [|x xs IH]; intros k; [done|].
  rewrite !filter_cons. simpl. specialize (IH (S k)).
  destruct x as [[]|]; simpl; repeat case_decide; simpl in *; try congruence; unfold omap in IH; lia.
Qed.
End refresh.

(** ** Properties *)

(** C1.  The pigeonhole of the protocol, over every interleaving of calls.
    Each peer serves its own log of calls, by any number of coordinators and
    its own sweeper.  If a majority of the peers hold a lease of [u1] on [r]
    that [u1] keeps through the log (it refreshes in time and does not
    release), then the grants of [r] to any coordinator [u2] in those logs come
    from fewer peers than a majority. *)
Theorem lease_excludes_quorum (r u1 u2 : string) (peers : list (LockServer * list (Z * lock_op)))
    (H : quorum (dsync_new (length peers)) ≤ length (filter (λ sl, keeps_lease r u1 sl = true) peers)) :
  length (filter (λ sl, granted_in r u2 sl = true) peers) < quorum (dsync_new (length peers)).
Proof.
  assert (∀ sl, sl ∈ peers → keeps_lease r u1 sl = true → granted_in r u2 sl = false) as Hex
    by (intros [s log] _; apply keeps_lease_not_granted).
  apply disjoint_filter_length in Hex.
  pose proof (dsync_quorum (length peers)). lia.
Qed.

Definition held_server : LockServer := (acquire 0 "b/k" "u1" LockServer_new).2.
Definition busy_log : list (Z * lock_op) :=
  [(10, OpAcquire "b/k" "u2"); (30000, OpRefresh "b/k" "u1"); (70000, OpSweep);
   (80000, OpAcquire "b/k" "u2")]%Z.

Lemma lease_excludes_quorum_witness :
  length (filter (λ sl, granted_in "b/k" "u2" sl = true)
    [(held_server, busy_log); (held_server, busy_log); (LockServer_new, busy_log)]) < 2.
Proof.
  apply (lease_excludes_quorum "b/k" "u1" "u2"
    [(held_server, busy_log); (held_server, busy_log); (LockServer_new, busy_log)]).
  vm_compute. lia.
Defined.

(** C31.  What a guard means: [acquire] over the peers of a set returns a guard
    only after one round in which a majority of distinct peers granted its uid,
    and each of these peers then holds the lease, stamped at the instant it
    voted; the only error it returns is the timeout of the resource. *)
Theorem dsync_acquire_sound {P} `{LockPeer P} (ps ps' : list P) (r : string) (now timeout : Z)
    (rounds : list (round)) (out : StorageResult LockGuard)
    (Hrun : dsync_acquire (dsync_new (length ps)) r now timeout rounds ps = Some (out, ps')) :
  match out with
  | Ok g => ∃ rd ids,
      rd ∈ rounds ∧ g_resource g = Some r ∧ g_uid g = Some (rd_uid rd) ∧ check g = Ok tt
      ∧ length ps < 2 * length ids ∧ NoDup ids
      ∧ ∀ i, i ∈ ids → ∃ p, ps' !! i = Some p ∧ stamped (rd_acquire rd) r (rd_uid rd) i p
  | Err e => e = LockTimeout r
  end.
Proof.
  destruct out as [g|e]; [|by eapply acquire_loop_error].
  apply acquire_loop_granted in Hrun as (rd & ids & Hrd & -> & Hq & Hnd & Hst).
  exists rd, ids. split_and!; try done.
  pose proof (dsync_quorum (length ps)). lia.
Qed.

Definition all_good (t : Z) : nat → call_env := λ _, {| at_time := t; fate := Delivered |}.
Definition one_round (u : string) (t : Z) : round :=
  {| rd_uid := u; rd_acquire := all_good t; rd_release := all_good t;
     rd_elapsed := 5; rd_pseudo := 12345 |}.
Definition three_peers : list lock_peer :=
  [LocalLockPeer LockServer_new; RemoteLockPeer LockServer_new; RemoteLockPeer held_server].

Lemma dsync_acquire_sound_witness :
  match dsync_acquire (dsync_new 3) "b/k" 100 1000 [one_round "u2" 100] three_peers with
  | Some (Ok g, _) => g_uid g = Some "u2" ∧ ∃ ids : list nat, 3 < 2 * length ids ∧ NoDup ids
  | _ => False
  end.
Proof.
  destruct (dsync_acquire _ _ _ _ _ _) as [[[g|] ps']|] eqn:E; [|vm_compute in E; discriminate E..].
  apply (dsync_acquire_sound three_peers) in E
    as (rd & ids & Hrd & _ & Hu & _ & Hl & Hnd & _).
  apply list_elem_of_singleton in Hrd as ->. split; [done|]. by exists ids.
Defined.

(** Mutual exclusion of two clients.  While a majority of the peers hold
    live leases of [u] on [r] (as they do after [u]'s acquire), the acquire of
    any other coordinator does not return a guard, for any number of rounds
    whose votes are cast before those leases run out and whatever is lost on
    the network. *)
Theorem dsync_acquire_excluded {P} `{LockPeer P} (ps : list P) (r u : string) (stamp : nat → Z)
    (ids : list nat) (now timeout : Z) (rounds : list round)
    (Hnd : NoDup ids) (Hmaj : length ps < 2 * length ids)
    (Hheld : held_at r u stamp ids ps)
    (Hlive : Forall (λ rd, within stamp ids ps (rd_acquire rd) ∧ rd_uid rd ≠ u) rounds) :
  ∀ g ps', dsync_acquire (dsync_new (length ps)) r now timeout rounds ps ≠ Some (Ok g, ps').
Proof.
  apply acquire_loop_excluded with (u := u) (stamp := stamp) (ids := ids); try done.
  pose proof (dsync_quorum (length ps)). lia.
Qed.

Definition held_peers : list lock_peer :=
  [LocalLockPeer held_server; RemoteLockPeer held_server; RemoteLockPeer LockServer_new].

Lemma dsync_acquire_excluded_witness :
  match dsync_acquire (dsync_new 3) "b/k" 100 50 [one_round "u2" 100; one_round "u3" 59999] held_peers with
  | Some (Ok _, _) => False
  | _ => True
  end.
Proof.
  destruct (dsync_acquire _ _ _ _ _ _) as [[[g|] ps']|] eqn:E; [|done|done].
  revert E. apply (dsync_acquire_excluded held_peers "b/k" "u1" (λ _, 0%Z) [0; 1]).
  - apply (NoDup_seq 0 2).
  - vm_compute. lia.
  - intros [|[|i]] Hi%(elem_of_seq 0 2); [eexists; by split..|lia].
  - assert (∀ t, (0 ≤ t < 60000)%Z → within (λ _, 0%Z) [0; 1] held_peers (all_good t)) as Hw.
    { intros t Ht [|[|i]] p Hi%(elem_of_seq 0 2) Hp; simpl in Hp; simplify_eq; [| |lia];
        apply Z.ltb_lt; change (window _) with 60000%Z; simpl; lia. }
    apply Forall_cons; split; [split; [by apply Hw|done]|].
    apply Forall_cons; split; [split; [by apply Hw|done]|]. by apply Forall_nil.
Defined.

(** C32.  Termination of [acquire]: whatever the peers answer, it has returned
    within [timeout / BASE_BACKOFF + 2] rounds of its loop. *)
Theorem dsync_acquire_terminates {P} `{LockPeer P} (c : DsyncClient) (ps : list P) (r : string)
    (now timeout : Z) (rounds : list round)
    (Hn : (timeout / BASE_BACKOFF + 2 ≤ Z.of_nat (length rounds))%Z) (Ht : (0 ≤ timeout)%Z) :
  ∃ out, dsync_acquire c r now timeout rounds ps = Some out.
Proof.
  unfold BASE_BACKOFF in *. pose proof (Z.div_mod timeout 50). pose proof (Z.mod_pos_bound timeout 50).
  destruct (dsync_acquire c r now timeout rounds ps) as [out|] eqn:E; [by exists out|].
  exfalso. unfold dsync_acquire in E. eapply acquire_loop_returns, E; [done| |].
  - unfold BASE_BACKOFF. lia.
  - intros ->. simpl in Hn. lia.
Qed.

Lemma dsync_acquire_terminates_witness :
  ∃ out, dsync_acquire (dsync_new 3) "b/k" 10 60 [one_round "u2" 20; one_round "u2" 80; one_round "u2" 140]
           held_peers = Some out.
Proof. apply dsync_acquire_terminates; vm_compute; congruence. Defined.

(** One iteration of the refresh task that is not stopped.  It declares
    the lock lost exactly when more than [n - quorum] peers answer that they do
    not know it, so that a quorum is out of reach; otherwise, at least [quorum]
    peers counting the unreachable ones have not denied it, and each peer that
    answered holds the lease stamped anew.  The fence of the guard fails
    exactly after a loss. *)
Theorem refresh_iter_spec {P} `{LockPeer P} (q : nat) (env rel : nat → call_env) (r u : string)
    (st : LockState) (ps : list P) (Hq : q ≤ length ps) :
  let results := (fan_refresh env r u ps).1 in
  match refresh_iter q false false env rel r u st ps with
  | (RefreshLost, st', _) => lost st' = true ∧ length ps < q + not_found results
      ∧ length (granted_of results) < q
  | (RefreshContinue, st', ps') => st' = st ∧ q ≤ length (granted_of results) + offline results
      ∧ ∀ i, i ∈ granted_of results → ∃ p, ps' !! i = Some p ∧ stamped env r u i p
  | (RefreshStopped, _, _) => False
  end.
Proof.
  pose proof (answers_split (fan_refresh env r u ps).1) as Hsplit.
  assert (length (fan_refresh env r u ps).1 = length ps) as Hlen.
  { unfold fan_refresh. simpl. by rewrite length_fmap, length_imap. }
  pose proof (fan_refresh_stamped env r u ps) as Hst.
  unfold refresh_iter. destruct (fan_refresh env r u ps) as [results ps1]. simpl in *.
  case_bool; to_prop; simpl; split_and!; try done; lia.
Qed.

Lemma refresh_iter_spec_witness :
  2 ≤ length (granted_of (fan_refresh (all_good 30000) "b/k" "u1" held_peers).1)
        + offline (fan_refresh (all_good 30000) "b/k" "u1" held_peers).1
  ∧ length (granted_of (fan_refresh (all_good 30000) "b/k" "u2" held_peers).1) < 2.
Proof.
  pose proof (λ u, refresh_iter_spec 2 (all_good 30000) (all_good 30000) "b/k" u
    {| stop := false; lost := false |} held_peers ltac:(vm_compute; lia)) as H.
  split; [pose proof (H "u1") as Hu|pose proof (H "u2") as Hu]; clear H; vm_compute in Hu;
    vm_compute; tauto.
Defined.

(** One refresh round may not be missed: after a grant at [t], the lease a
    default server keeps is already free for another holder at the second
    refresh tick, [t + 2 * REFRESH_INTERVAL]. *)
Theorem missed_refresh_is_stealable (r u u' : string) (t : Z) (s s' : LockServer)
    (Hv : validity s = DEFAULT_VALIDITY) (Hg : acquire t r u s = (true, s')) :
  (acquire (t + 2 * REFRESH_INTERVAL) r u' s').1 = true
  ∧ (acquire (t + 2 * REFRESH_INTERVAL - 1) r u' s').1 = false.
Proof.
  pose proof (acquire_true _ _ _ _ _ Hg) as Hl.
  pose proof (server_step_validity t (OpAcquire r u) s) as Hv'. simpl in Hv'.
  rewrite Hg, Hv in Hv'. simpl in Hv'. rewrite !acquire_spec, Hl, Hv'.
  unfold entry_live, DEFAULT_VALIDITY, REFRESH_INTERVAL. simpl.
  split; case_bool; to_prop; simpl; lia || done.
Qed.

Lemma missed_refresh_is_stealable_witness :
  (acquire (7 + 2 * REFRESH_INTERVAL) "b/k" "u2" (acquire 7 "b/k" "u1" LockServer_new).2).1 = true.
Proof. by apply (missed_refresh_is_stealable "b/k" "u1" "u2" 7 LockServer_new). Defined.
