(* ===== verification/Kv.v ===== *)
(** * The KV slot pool

    [openlake_io/src/kv.rs]: the pool of slots of a KV slab, with its free
    queue, its reservations, its two hash maps and its intrusive LRU list kept
    in two arrays; the [KvSlab] trait, [HostSlab] and the request handler
    [serve_tcp]; [KvEngine::serve_tcp] of [openlake_storage/src/kv_engine.rs].

    An operation that can index out of bounds or hit [expect] returns [None]
    for the panic.  Instants and durations are integers of one unit.  A clock
    read inside a loop is a function of the iteration. *)

From stdpp Require Import base numbers fin_maps gmap strings list.
From S2P Require Import Prelude.

Definition KeyHash : Type := list byte.
Definition KEY_BYTES : nat := 54.
Definition NIL : N := 4294967295.

(** [KeyHash::try_from(bytes)]. *)
Definition key_hash_try_from (bytes : list byte) : option KeyHash :=
  if decide (length bytes = KEY_BYTES) then Some bytes else None.

Record SlotPool := {
  free : list N;
  by_hash : gmap KeyHash N;
  by_slot : gmap N KeyHash;
  pending : gmap N Z;
  reserve_ttl : Z;
  lru_prev : list N;
  lru_next : list N;
  lru_head : N;
  lru_tail : N
}.

(** ** Field updates *)

Definition set_free (x : list N) (p : SlotPool) : SlotPool :=
  {| free := x; by_hash := by_hash p; by_slot := by_slot p; pending := pending p;
     reserve_ttl := reserve_ttl p; lru_prev := lru_prev p; lru_next := lru_next p;
     lru_head := lru_head p; lru_tail := lru_tail p |}.
Definition set_maps (h : gmap KeyHash N) (s : gmap N KeyHash) (p : SlotPool) : SlotPool :=
  {| free := free p; by_hash := h; by_slot := s; pending := pending p;
     reserve_ttl := reserve_ttl p; lru_prev := lru_prev p; lru_next := lru_next p;
     lru_head := lru_head p; lru_tail := lru_tail p |}.
Definition set_pending (x : gmap N Z) (p : SlotPool) : SlotPool :=
  {| free := free p; by_hash := by_hash p; by_slot := by_slot p; pending := x;
     reserve_ttl := reserve_ttl p; lru_prev := lru_prev p; lru_next := lru_next p;
     lru_head := lru_head p; lru_tail := lru_tail p |}.
Definition set_lru (prev next : list N) (head tail : N) (p : SlotPool) : SlotPool :=
  {| free := free p; by_hash := by_hash p; by_slot := by_slot p; pending := pending p;
     reserve_ttl := reserve_ttl p; lru_prev := prev; lru_next := next;
     lru_head := head; lru_tail := tail |}.

(** [v[i]] and [v[i] = x]: a panic out of range. *)
Definition vget (v : list N) (i : N) : option N := v !! N.to_nat i.
Definition vset (v : list N) (i x : N) : option (list N) :=
  if decide (N.to_nat i < length v) then Some (<[N.to_nat i := x]> v) else None.

(** [(0..n).collect()]. *)
Definition slots_upto (n : nat) : list N := N.of_nat <$> seq 0 n.

Definition SlotPool_new (slot_count : N) (ttl : Z) : SlotPool :=
  let n := N.to_nat slot_count in
  {| free := slots_upto n; by_hash := ∅; by_slot := ∅; pending := ∅; reserve_ttl := ttl;
     lru_prev := replicate n NIL; lru_next := replicate n NIL;
     lru_head := NIL; lru_tail := NIL |}.

(** ** The LRU list *)

Definition lru_attach_tail (slot : N) (p : SlotPool) : option SlotPool :=
  prev ← vset (lru_prev p) slot (lru_tail p);
  next ← vset (lru_next p) slot NIL;
  if decide (lru_tail p ≠ NIL) then
    next ← vset next (lru_tail p) slot;
    Some (set_lru prev next (lru_head p) slot p)
  else Some (set_lru prev next slot slot p).

Definition lru_detach (slot : N) (q : SlotPool) : option SlotPool :=
  p ← vget (lru_prev q) slot;
  if decide (p = NIL ∧ lru_head q ≠ slot) then Some q else
  n ← vget (lru_next q) slot;
  '(next, head) ← (if decide (p ≠ NIL) then next ← vset (lru_next q) p n; Some (next, lru_head q)
                   else Some (lru_next q, n));
  '(prev, tail) ← (if decide (n ≠ NIL) then prev ← vset (lru_prev q) n p; Some (prev, lru_tail q)
                   else Some (lru_prev q, p));
  prev ← vset prev slot NIL;
  next ← vset next slot NIL;
  Some (set_lru prev next head tail q).

Definition touch (slot : N) (p : SlotPool) : option SlotPool :=
  lru_detach slot p ≫= lru_attach_tail slot.

(** ** Operations *)

Definition evict_one (p : SlotPool) : option (option N * SlotPool) :=
  let slot := lru_head p in
  if decide (slot = NIL) then Some (None, p) else
  hash ← by_slot p !! slot;
  p' ← lru_detach slot (set_maps (delete hash (by_hash p)) (delete slot (by_slot p)) p);
  Some (Some slot, p').

Section pool.
Context {HI : HashIter N}.

(** [reclaim_expired]: [retain] visits the reservations in the map's order. *)
Definition reclaim_expired (now : Z) (p : SlotPool) : SlotPool :=
  let expired := filter (λ sd : N * Z, ¬ (now < sd.2)%Z) (hash_iter (pending p)) in
  set_free (free p ++ expired.*1)
    (set_pending (filter (λ sd : N * Z, (now < sd.2)%Z) (pending p)) p).

(** The loop of [reserve]; [clock i] is the instant iteration [i] reads. *)
Fixpoint reserve_loop (clock : nat → Z) (count i : nat) (p : SlotPool) : option (list N * SlotPool) :=
  match count with
  | 0 => Some ([], p)
  | S count =>
      '(slot, p) ← (match free p with
                    | slot :: rest => Some (Some slot, set_free rest p)
                    | [] => evict_one p
                    end);
      match slot with
      | None => Some ([], p)
      | Some slot =>
          let p := set_pending (<[slot := (clock i + reserve_ttl p)%Z]> (pending p)) p in
          '(out, p) ← reserve_loop clock count (S i) p;
          Some (slot :: out, p)
      end
  end.

Definition reserve (now : Z) (clock : nat → Z) (count : N) (p : SlotPool) :
    option (list N * SlotPool) :=
  let p := if decide (length (free p) < N.to_nat count) then reclaim_expired now p else p in
  reserve_loop clock (N.to_nat count) 0 p.
End pool.

Definition commit (slot : N) (key : KeyHash) (p : SlotPool) : option (bool * SlotPool) :=
  if decide (by_slot p !! slot = Some key) then
    p ← touch slot (set_pending (delete slot (pending p)) p);
    Some (true, p)
  else match pending p !! slot with
  | None => Some (false, p)
  | Some _ =>
      let p := set_pending (delete slot (pending p)) p in
      let prev := by_hash p !! key in
      let p := set_maps (<[key := slot]> (by_hash p)) (<[slot := key]> (by_slot p)) p in
      p ← (match prev with
           | Some prev_slot =>
               p ← lru_detach prev_slot (set_maps (by_hash p) (delete prev_slot (by_slot p)) p);
               Some (set_free (free p ++ [prev_slot]) p)
           | None => Some p
           end);
      p ← lru_attach_tail slot p;
      Some (true, p)
  end.

Definition lookup (key : KeyHash) (p : SlotPool) : option (option N * SlotPool) :=
  match by_hash p !! key with
  | None => Some (None, p)
  | Some slot => p ← touch slot p; Some (Some slot, p)
  end.

Definition release (slot : N) (p : SlotPool) : option SlotPool :=
  match by_slot p !! slot with
  | Some hash =>
      p ← lru_detach slot (set_maps (delete hash (by_hash p)) (delete slot (by_slot p)) p);
      Some (set_free (free p ++ [slot]) p)
  | None =>
      match pending p !! slot with
      | Some _ => Some (set_free (free p ++ [slot]) (set_pending (delete slot (pending p)) p))
      | None => Some p
      end
  end.

Definition clear (p : SlotPool) : SlotPool :=
  {| free := slots_upto (length (lru_prev p)); by_hash := ∅; by_slot := ∅; pending := ∅;
     reserve_ttl := reserve_ttl p;
     lru_prev := replicate (length (lru_prev p)) NIL;
     lru_next := replicate (length (lru_next p)) NIL;
     lru_head := NIL; lru_tail := NIL |}.

Fixpoint commit_bytes (entries : list (N * list byte)) (p : SlotPool) : option SlotPool :=
  match entries with
  | [] => Some p
  | (slot, kh) :: entries =>
      p ← (match key_hash_try_from kh with
           | Some k => snd <$> commit slot k p
           | None => Some p
           end);
      commit_bytes entries p
  end.

Fixpoint lookup_bytes (keys : list (list byte)) (p : SlotPool) : option (list (option N) * SlotPool) :=
  match keys with
  | [] => Some ([], p)
  | k :: keys =>
      '(r, p) ← (match key_hash_try_from k with
                 | Some kh => lookup kh p
                 | None => Some (None, p)
                 end);
      '(rs, p) ← lookup_bytes keys p;
      Some (r :: rs, p)
  end.

(** [for &s in slots { pool.release(s) }]. *)
Fixpoint release_all (slots : list N) (p : SlotPool) : option SlotPool :=
  match slots with
  | [] => Some p
  | s :: slots => release s p ≫= release_all slots
  end.

(** ** The LRU arrays represent a list *)

(** The successor of [s] in [l], and its predecessor when [p] precedes [l]. *)
Fixpoint succ_in (l : list N) (s : N) : N :=
  match l with
  | [] => NIL
  | x :: l => if decide (s = x) then hd NIL l else succ_in l s
  end.
Fixpoint pred_in (p : N) (l : list N) (s : N) : N :=
  match l with
  | [] => NIL
  | x :: l => if decide (s = x) then p else pred_in x l s
  end.

Record lru_repr (n : nat) (l : list N) (p : SlotPool) : Prop := {
  repr_len_prev : length (lru_prev p) = n;
  repr_len_next : length (lru_next p) = n;
  repr_bound : (N.of_nat n ≤ NIL)%N;
  repr_nodup : NoDup l;
  repr_in : ∀ s, s ∈ l → N.to_nat s < n;
  repr_head : lru_head p = hd NIL l;
  repr_tail : lru_tail p = default NIL (list.last l);
  repr_prev : ∀ s, N.to_nat s < n → vget (lru_prev p) s = Some (pred_in NIL l s);
  repr_next : ∀ s, N.to_nat s < n → vget (lru_next p) s = Some (succ_in l s)
}.

Lemma vset_ok v i x : N.to_nat i < length v → vset v i x = Some (<[N.to_nat i := x]> v).
Proof. intros. unfold vset. by rewrite decide_True. Qed.

Lemma vget_insert v i j x : N.to_nat i < length v →
  vget (<[N.to_nat i := x]> v) j = if decide (j = i) then Some x else vget v j.
Proof.
  intros Hi. unfold vget. case_decide as Hij.
  - subst. by rewrite list_lookup_insert_eq.
  - rewrite list_lookup_insert_ne; [done|]. intros He. apply Hij. lia.
Qed.

Lemma succ_in_notin l s : s ∉ l → succ_in l s = NIL.
Proof.
  induction l as [|x l IH]; intros Hs; [done|]. simpl.
  apply not_elem_of_cons in Hs as [? ?]. rewrite decide_False by done. auto.
Qed.
Lemma pred_in_notin p l s : s ∉ l → pred_in p l s = NIL.
Proof.
  revert p. induction l as [|x l IH]; intros p Hs; [done|]. simpl.
  apply not_elem_of_cons in Hs as [? ?]. rewrite decide_False by done. auto.
Qed.

Lemma succ_in_here l1 l2 s : s ∉ l1 → succ_in (l1 ++ s :: l2) s = hd NIL l2.
Proof.
  induction l1 as [|x l IH]; intros Hs; simpl; [by rewrite decide_True|].
  apply not_elem_of_cons in Hs as [? ?]. rewrite decide_False by done. auto.
Qed.
Lemma pred_in_here p l1 l2 s : s ∉ l1 → pred_in p (l1 ++ s :: l2) s = default p (list.last l1).
Proof.
  revert p. induction l1 as [|x l IH]; intros p Hs; simpl; [by rewrite decide_True|].
  apply not_elem_of_cons in Hs as [? ?]. rewrite decide_False, IH by done.
  rewrite last_cons. by destruct (list.last l).
Qed.

(** Dropping [s] changes the successor of its predecessor only. *)
Lemma succ_in_drop l1 l2 s x : NoDup (l1 ++ s :: l2) → x ≠ s →
  succ_in (l1 ++ l2) x = if decide (list.last l1 = Some x) then hd NIL l2 else succ_in (l1 ++ s :: l2) x.
Proof.
  intros Hnd Hx. induction l1 as [|y l1 IH]; simpl in *; [by rewrite decide_False|].
  apply NoDup_cons in Hnd as [Hy Hnd]. destruct (decide (x = y)) as [->|Hxy].
  - destruct l1 as [|z l1]; simpl; [by rewrite decide_True|]. rewrite decide_False; [done|].
    change (list.last (y :: z :: l1)) with (list.last (z :: l1)). intros Hl%last_Some_elem_of.
    apply Hy. apply elem_of_app. by left.
  - rewrite IH by done. destruct l1 as [|z l1]; [|done]. simpl.
    rewrite decide_False by done. rewrite decide_False by congruence. done.
Qed.
Lemma pred_in_drop p l1 l2 s x : NoDup (l1 ++ s :: l2) → x ≠ s →
  pred_in p (l1 ++ l2) x =
    if decide (head l2 = Some x) then default p (list.last l1) else pred_in p (l1 ++ s :: l2) x.
Proof.
  intros Hnd Hx. revert p. induction l1 as [|y l1 IH]; intros p; simpl in *.
  - rewrite (decide_False (P := x = s)) by done. destruct l2 as [|z l2]; simpl; [done|].
    destruct (decide (x = z)) as [->|]; [by rewrite !decide_True|].
    by rewrite !decide_False by congruence.
  - apply NoDup_cons in Hnd as [Hy Hnd]. destruct (decide (x = y)) as [->|Hxy].
    + rewrite decide_False; [done|]. intros Hl%head_Some_elem_of. apply Hy, elem_of_app. right. by right.
    + rewrite IH by done. case_decide; [|done]. rewrite last_cons. by destruct (list.last l1).
Qed.

(** Appending [s] changes the successor of the last element only. *)
Lemma succ_in_snoc l s x : s ∉ l → NoDup l →
  succ_in (l ++ [s]) x = if decide (list.last l = Some x) then s else succ_in l x.
Proof.
  intros Hs Hnd. induction l as [|y l IH]; simpl in *; [by case_decide|].
  apply not_elem_of_cons in Hs as [? ?]. apply NoDup_cons in Hnd as [Hy Hnd].
  destruct (decide (x = y)) as [->|Hxy].
  - destruct l as [|z l]; simpl; [by rewrite decide_True|]. rewrite decide_False; [done|].
    by intros Hl%last_Some_elem_of.
  - rewrite IH by done. destruct l as [|z l]; [|done]. simpl.
    by rewrite decide_False by congruence.
Qed.
Lemma pred_in_snoc p l s x : s ∉ l →
  pred_in p (l ++ [s]) x = if decide (x = s) then default p (list.last l) else pred_in p l x.
Proof.
  intros Hs. revert p. induction l as [|y l IH]; intros p; simpl in *; [done|].
  apply not_elem_of_cons in Hs as [? ?]. rewrite IH by done. destruct (decide (x = y)) as [->|Hxy].
  - by rewrite decide_False.
  - case_decide; [|done]. rewrite last_cons. by destruct (list.last l).
Qed.

(** The state after an LRU update: only the four LRU fields change. *)
Definition lru_update (n : nat) (l : list N) (p : SlotPool) (out : option SlotPool) : Prop :=
  ∃ prev next head tail,
    out = Some (set_lru prev next head tail p) ∧ lru_repr n l (set_lru prev next head tail p).

Lemma repr_ne_NIL n l p s : lru_repr n l p → N.to_nat s < n → s ≠ NIL.
Proof. intros [] Hs ->. lia. Qed.

Lemma repr_last n l p : lru_repr n l p → lru_tail p ≠ NIL → list.last l = Some (lru_tail p).
Proof. intros Hr. rewrite (repr_tail _ _ _ Hr). by destruct (list.last l). Qed.

Lemma lru_attach_tail_repr n l p s :
  lru_repr n l p → s ∉ l → N.to_nat s < n → lru_update n (l ++ [s]) p (lru_attach_tail s p).
Proof.
  intros Hr Hs Hn. pose proof (repr_ne_NIL _ _ _ _ Hr Hn) as HsN.
  pose proof (repr_len_prev _ _ _ Hr) as Hlp. pose proof (repr_len_next _ _ _ Hr) as Hln.
  unfold lru_attach_tail, lru_update. rewrite !vset_ok by lia. simpl.
  assert (∀ x, N.to_nat x < n → vget (<[N.to_nat s := lru_tail p]> (lru_prev p)) x
    = Some (pred_in NIL (l ++ [s]) x)) as Hprev.
  { intros x Hx. rewrite vget_insert, pred_in_snoc by (done || lia).
    rewrite (repr_prev _ _ _ Hr x Hx). case_decide; [|done]. by rewrite (repr_tail _ _ _ Hr). }
  assert (NoDup (l ++ [s])) as Hnd.
  { apply NoDup_app. split_and!; [apply Hr| |apply NoDup_singleton].
    intros x Hx ->%list_elem_of_singleton. done. }
  assert (∀ x, x ∈ l ++ [s] → N.to_nat x < n) as Hin.
  { intros x [Hx|Hx%list_elem_of_singleton]%elem_of_app; [by apply Hr|by subst]. }
  case_decide as Ht.
  - pose proof (repr_last _ _ _ Hr Ht) as Hlast.
    assert (N.to_nat (lru_tail p) < n) as Htn by (apply Hr; by apply last_Some_elem_of).
    rewrite vset_ok by (rewrite length_insert; lia). simpl. eexists _, _, _, _. split; [done|].
    split; simpl; rewrite ?length_insert; try done; try apply Hr.
    + rewrite (repr_head _ _ _ Hr). by destruct l.
    + by rewrite last_snoc.
    + intros x Hx. rewrite vget_insert by (rewrite length_insert; lia).
      rewrite vget_insert by lia. rewrite succ_in_snoc, Hlast by (done || apply Hr).
      case_decide; [by rewrite decide_True by congruence|].
      rewrite (decide_False (P := Some _ = Some _)) by congruence.
      rewrite (repr_next _ _ _ Hr x Hx). case_decide; [|done]. subst. by rewrite succ_in_notin.
  - rewrite (repr_tail _ _ _ Hr) in Ht.
    assert (l = []) as ->.
    { destruct (list.last l) as [t|] eqn:E; [|by apply last_None]. simpl in Ht. subst t.
      apply last_Some_elem_of in E. exfalso. eapply (repr_ne_NIL _ _ _ NIL Hr); [|done]. by apply Hr. }
    eexists _, _, _, _. split; [done|]. split; simpl; rewrite ?length_insert; try done; try apply Hr.
    intros x Hx. rewrite vget_insert, (repr_next _ _ _ Hr x Hx) by lia. simpl.
    by repeat case_decide.
Qed.

Lemma lru_detach_notin n l p s :
  lru_repr n l p → s ∉ l → N.to_nat s < n → lru_detach s p = Some p.
Proof.
  intros Hr Hs Hn. unfold lru_detach. rewrite (repr_prev _ _ _ Hr s Hn). simpl.
  rewrite pred_in_notin by done. apply decide_True. split; [done|].
  rewrite (repr_head _ _ _ Hr). destruct l as [|x l]; simpl; [|set_solver].
  intros <-. by apply (repr_ne_NIL _ _ _ _ Hr Hn).
Qed.

Lemma repr_split n l1 l2 p s :
  lru_repr n (l1 ++ s :: l2) p →
  (N.to_nat s < n) ∧ (s ∉ l1) ∧ (s ∉ l2) ∧ NoDup (l1 ++ l2)
  ∧ (∀ x, x ∈ l1 ++ l2 → N.to_nat x < n ∧ x ≠ NIL).
Proof.
  intros Hr. pose proof (repr_nodup _ _ _ Hr) as Hnd.
  rewrite <-Permutation_middle in Hnd. apply NoDup_cons in Hnd as [Hs Hnd].
  apply not_elem_of_app in Hs as [? ?].
  assert (∀ x, x ∈ l1 ++ l2 → N.to_nat x < n) as Hin.
  { intros x Hx. apply Hr. rewrite <-Permutation_middle. by right. }
  split_and!; try done.
  - apply Hr, elem_of_app. right. left.
  - intros x Hx. split; [by apply Hin|]. by eapply repr_ne_NIL, Hin.
Qed.

Lemma lru_detach_next n l1 l2 p s :
  lru_repr n (l1 ++ s :: l2) p →
  ∃ next, (if decide (default NIL (list.last l1) ≠ NIL)
           then next ← vset (lru_next p) (default NIL (list.last l1)) (hd NIL l2); Some (next, lru_head p)
           else Some (lru_next p, hd NIL l2)) = Some (next, hd NIL (l1 ++ l2))
    ∧ length next = n
    ∧ ∀ x, x ≠ s → N.to_nat x < n → vget next x = Some (succ_in (l1 ++ l2) x).
Proof.
  intros Hr. destruct (repr_split _ _ _ _ _ Hr) as (Hn & Hs1 & Hs2 & Hnd & Hin).
  pose proof (repr_len_next _ _ _ Hr) as Hln. pose proof (repr_nodup _ _ _ Hr) as Hnd'.
  destruct (list.last l1) as [t|] eqn:E; simpl.
  - destruct (Hin t) as [Ht HtN]; [by apply elem_of_app; left; apply last_Some_elem_of|].
    rewrite decide_True, vset_ok by (done || lia). simpl.
    eexists. split; [|split; [by rewrite length_insert|]].
    + rewrite (repr_head _ _ _ Hr). by destruct l1.
    + intros x Hx Hxn. rewrite vget_insert, (succ_in_drop _ _ s), E by (done || lia).
      rewrite (repr_next _ _ _ Hr x Hxn). by repeat case_decide; simplify_eq.
  - apply last_None in E as ->.
    eexists. split; [done|split; [done|]]. intros x Hx Hxn. simpl.
    rewrite (repr_next _ _ _ Hr x Hxn). simpl. by rewrite decide_False.
Qed.

Lemma last_app_default (d : N) l1 l2 :
  default d (list.last (l1 ++ l2)) = default (default d (list.last l1)) (list.last l2).
Proof. rewrite last_app. by destruct (list.last l2). Qed.

Lemma lru_detach_prev n l1 l2 p s :
  lru_repr n (l1 ++ s :: l2) p →
  ∃ prev, (if decide (hd NIL l2 ≠ NIL)
           then prev ← vset (lru_prev p) (hd NIL l2) (default NIL (list.last l1)); Some (prev, lru_tail p)
           else Some (lru_prev p, default NIL (list.last l1)))
          = Some (prev, default NIL (list.last (l1 ++ l2)))
    ∧ length prev = n
    ∧ ∀ x, x ≠ s → N.to_nat x < n → vget prev x = Some (pred_in NIL (l1 ++ l2) x).
Proof.
  intros Hr. destruct (repr_split _ _ _ _ _ Hr) as (Hn & Hs1 & Hs2 & Hnd & Hin).
  pose proof (repr_len_prev _ _ _ Hr) as Hlp. pose proof (repr_nodup _ _ _ Hr) as Hnd'.
  rewrite last_app_default. destruct l2 as [|t l2]; simpl.
  - eexists. split; [done|split; [done|]].
    intros x Hx Hxn. rewrite app_nil_r, (repr_prev _ _ _ Hr x Hxn), pred_in_snoc by done.
    by rewrite decide_False.
  - destruct (Hin t) as [Ht HtN]; [by apply elem_of_app; right; left|].
    rewrite decide_True, vset_ok by (done || lia). simpl.
    eexists. split; [|split; [by rewrite length_insert|]].
    + rewrite (repr_tail _ _ _ Hr), last_app_default. simpl.
      change (list.last (s :: t :: l2)) with (list.last (t :: l2)).
      by destruct (list.last (t :: l2)) eqn:E; [|apply last_None in E].
    + intros x Hx Hxn. rewrite vget_insert, (pred_in_drop _ _ _ s) by (done || lia). simpl.
      rewrite (repr_prev _ _ _ Hr x Hxn). by repeat case_decide; simplify_eq.
Qed.

Lemma lru_detach_repr n l1 l2 p s :
  lru_repr n (l1 ++ s :: l2) p → lru_update n (l1 ++ l2) p (lru_detach s p).
Proof.
  intros Hr. destruct (repr_split _ _ _ _ _ Hr) as (Hn & Hs1 & Hs2 & Hnd & Hin).
  unfold lru_detach, lru_update.
  rewrite (repr_prev _ _ _ Hr s Hn), (repr_next _ _ _ Hr s Hn). simpl.
  rewrite pred_in_here, succ_in_here by done.
  rewrite decide_False; cycle 1.
  { intros [Hp Hhd]. apply Hhd. rewrite (repr_head _ _ _ Hr).
    destruct (list.last l1) as [t|] eqn:E; [|by apply last_None in E as ->].
    simpl in Hp. subst t. apply last_Some_elem_of in E.
    destruct (Hin NIL) as [_ HN]; [apply elem_of_app; by left|done]. }
  destruct (lru_detach_next _ _ _ _ _ Hr) as (next & Hne & Hln & Hnext).
  destruct (lru_detach_prev _ _ _ _ _ Hr) as (prev & Hpe & Hlp & Hprev).
  simpl. rewrite Hne. simpl. rewrite Hpe. simpl. rewrite !vset_ok by lia. simpl.
  eexists _, _, _, _. split; [done|]. clear Hne Hpe.
  split; simpl; rewrite ?length_insert; try done; try apply Hr.
  - intros x Hx. by apply Hin.
  - intros x Hx. rewrite vget_insert by lia. case_decide; [|by apply Hprev].
    subst. rewrite pred_in_notin; [done|]. by apply not_elem_of_app.
  - intros x Hx. rewrite vget_insert by lia. case_decide; [|by apply Hnext].
    subst. rewrite succ_in_notin; [done|]. by apply not_elem_of_app.
Qed.

(** ** The abstract cache

    What the pool promises: the bound slots form one list of (slot, key) pairs,
    least recently used first.  Every other slot is free or reserved. *)
Record cache := {
  c_slots : nat;
  c_ttl : Z;
  c_free : list N;
  c_pending : gmap N Z;
  c_lru : list (N * KeyHash)
}.

Definition c_set (c : cache) (fr : list N) (pe : gmap N Z) (l : list (N * KeyHash)) : cache :=
  {| c_slots := c_slots c; c_ttl := c_ttl c; c_free := fr; c_pending := pe; c_lru := l |}.

Definition slot_of (k : KeyHash) (l : list (N * KeyHash)) : option N :=
  (λ ie : nat * (N * KeyHash), ie.2.1) <$> list_find (λ e : N * KeyHash, e.2 = k) l.
Definition key_of (s : N) (l : list (N * KeyHash)) : option KeyHash :=
  (λ ie : nat * (N * KeyHash), ie.2.2) <$> list_find (λ e : N * KeyHash, e.1 = s) l.
Definition c_drop (s : N) (l : list (N * KeyHash)) : list (N * KeyHash) :=
  filter (λ e : N * KeyHash, e.1 ≠ s) l.
Definition most_recent (s : N) (k : KeyHash) (l : list (N * KeyHash)) : list (N * KeyHash) :=
  c_drop s l ++ [(s, k)].

Definition c_new (n : nat) (ttl : Z) : cache :=
  {| c_slots := n; c_ttl := ttl; c_free := slots_upto n; c_pending := ∅; c_lru := [] |}.

Definition c_lookup (k : KeyHash) (c : cache) : option N * cache :=
  match slot_of k (c_lru c) with
  | None => (None, c)
  | Some s => (Some s, c_set c (c_free c) (c_pending c) (most_recent s k (c_lru c)))
  end.

Definition c_commit (s : N) (k : KeyHash) (c : cache) : bool * cache :=
  if decide (key_of s (c_lru c) = Some k) then
    (true, c_set c (c_free c) (c_pending c) (most_recent s k (c_lru c)))
  else match c_pending c !! s with
  | None => (false, c)
  | Some _ =>
      (true, match slot_of k (c_lru c) with
             | None => c_set c (c_free c) (delete s (c_pending c)) (c_lru c ++ [(s, k)])
             | Some old => c_set c (c_free c ++ [old]) (delete s (c_pending c))
                             (c_drop old (c_lru c) ++ [(s, k)])
             end)
  end.

Definition c_release (s : N) (c : cache) : cache :=
  match key_of s (c_lru c), c_pending c !! s with
  | Some _, _ => c_set c (c_free c ++ [s]) (c_pending c) (c_drop s (c_lru c))
  | None, Some _ => c_set c (c_free c ++ [s]) (delete s (c_pending c)) (c_lru c)
  | None, None => c
  end.

Section cache.
Context {HI : HashIter N}.

Definition c_reclaim (now : Z) (c : cache) : cache :=
  c_set c (c_free c ++ (filter (λ sd : N * Z, ¬ (now < sd.2)%Z) (hash_iter (c_pending c))).*1)
    (filter (λ sd : N * Z, (now < sd.2)%Z) (c_pending c)) (c_lru c).

(** Free slots first, then the least recently used bound ones. *)
Fixpoint c_reserve_loop (clock : nat → Z) (count i : nat) (c : cache) : list N * cache :=
  match count with
  | 0 => ([], c)
  | S count =>
      match c_free c, c_lru c with
      | s :: fr, _ =>
          let '(out, c) := c_reserve_loop clock count (S i)
            (c_set c fr (<[s := (clock i + c_ttl c)%Z]> (c_pending c)) (c_lru c)) in (s :: out, c)
      | [], (s, _) :: l =>
          let '(out, c) := c_reserve_loop clock count (S i)
            (c_set c [] (<[s := (clock i + c_ttl c)%Z]> (c_pending c)) l) in (s :: out, c)
      | [], [] => ([], c)
      end
  end.

Definition c_reserve (now : Z) (clock : nat → Z) (count : N) (c : cache) : list N * cache :=
  c_reserve_loop clock (N.to_nat count) 0
    (if decide (length (c_free c) < N.to_nat count) then c_reclaim now c else c).
End cache.

(** ** The refinement relation *)

Definition partition (c : cache) : Prop :=
  c_free c ++ (map_to_list (c_pending c)).*1 ++ (c_lru c).*1 ≡ₚ slots_upto (c_slots c).

Record linked (p : SlotPool) (c : cache) : Prop := {
  R_free : free p = c_free c;
  R_pending : pending p = c_pending c;
  R_ttl : reserve_ttl p = c_ttl c;
  R_slot : ∀ s k, by_slot p !! s = Some k ↔ (s, k) ∈ c_lru c;
  R_hash : ∀ s k, by_hash p !! k = Some s ↔ (s, k) ∈ c_lru c;
  R_lru : lru_repr (c_slots c) (c_lru c).*1 p
}.
Definition refines (p : SlotPool) (c : cache) : Prop := linked p c ∧ partition c.

(** The operation does not panic, answers as the cache does, and the states
    still correspond. *)
Definition simulates {A} (out : option (A * SlotPool)) (spec : A * cache) : Prop :=
  ∃ p', out = Some (spec.1, p') ∧ refines p' spec.2.

Lemma elem_of_c_drop s l x k : (x, k) ∈ c_drop s l ↔ x ≠ s ∧ (x, k) ∈ l.
Proof. unfold c_drop. by rewrite list_elem_of_filter. Qed.

Lemma c_drop_notin s l : s ∉ l.*1 → c_drop s l = l.
Proof.
  induction l as [|[x k] l IH]; [done|]. rewrite fmap_cons. intros [? ?]%not_elem_of_cons.
  unfold c_drop. rewrite filter_cons_True by (simpl in *; congruence). f_equal. by apply IH.
Qed.

Lemma c_drop_split s k l1 l2 :
  NoDup (l1 ++ (s, k) :: l2).*1 → c_drop s (l1 ++ (s, k) :: l2) = l1 ++ l2.
Proof.
  rewrite fmap_app, fmap_cons, <-Permutation_middle. intros [Hs _]%NoDup_cons.
  apply not_elem_of_app in Hs as [? ?]. unfold c_drop.
  rewrite list.filter_app, filter_cons_False by (simpl; tauto).
  f_equal; by apply c_drop_notin.
Qed.

Lemma key_of_Some p c s : linked p c → key_of s (c_lru c) = by_slot p !! s.
Proof.
  intros HR. unfold key_of. destruct (list_find _ _) as [[i [x k]]|] eqn:E; simpl.
  - apply list_find_Some in E as (E & Hx & _). simpl in Hx. subst x. symmetry.
    apply (R_slot _ _ HR). by eapply list_elem_of_lookup_2.
  - apply list_find_None in E. destruct (by_slot p !! s) as [k|] eqn:Hk; [|done].
    apply (R_slot _ _ HR) in Hk. by eapply Forall_forall in E; [|done].
Qed.
Lemma slot_of_Some p c k : linked p c → slot_of k (c_lru c) = by_hash p !! k.
Proof.
  intros HR. unfold slot_of. destruct (list_find _ _) as [[i [x k']]|] eqn:E; simpl.
  - apply list_find_Some in E as (E & Hx & _). simpl in Hx. subst k'. symmetry.
    apply (R_hash _ _ HR). by eapply list_elem_of_lookup_2.
  - apply list_find_None in E. destruct (by_hash p !! k) as [s|] eqn:Hk; [|done].
    apply (R_hash _ _ HR) in Hk. by eapply Forall_forall in E; [|done].
Qed.

(** *** LRU updates on the pairs *)

Lemma detach_bound n l p s k :
  lru_repr n l.*1 p → (s, k) ∈ l → lru_update n (c_drop s l).*1 p (lru_detach s p).
Proof.
  intros Hr (l1 & l2 & ->)%list_elem_of_split. rewrite c_drop_split by apply Hr.
  rewrite fmap_app in *. rewrite fmap_cons in Hr. by apply lru_detach_repr.
Qed.

Lemma touch_bound n l p s k :
  lru_repr n l.*1 p → (s, k) ∈ l → lru_update n (most_recent s k l).*1 p (touch s p).
Proof.
  intros Hr Hin. assert (N.to_nat s < n) as Hs.
  { apply Hr. by apply (list_elem_of_fmap_2 fst l (s, k)). }
  destruct (detach_bound _ _ _ _ _ Hr Hin) as (prev & next & hd & tl & Hd & Hr').
  unfold touch. rewrite Hd. simpl.
  destruct (lru_attach_tail_repr n (c_drop s l).*1 (set_lru prev next hd tl p) s Hr')
    as (prev' & next' & hd' & tl' & Ha & Hr''); [|done|].
  - intros ([x k'] & -> & Hx)%list_elem_of_fmap. apply elem_of_c_drop in Hx as [? _]. done.
  - exists prev', next', hd', tl'. split; [done|]. unfold most_recent. by rewrite fmap_app.
Qed.

Lemma lru_repr_ext n l p q :
  lru_prev p = lru_prev q → lru_next p = lru_next q → lru_head p = lru_head q → lru_tail p = lru_tail q →
  lru_repr n l p → lru_repr n l q.
Proof. intros E1 E2 E3 E4 []. split; rewrite <-?E1, <-?E2, <-?E3, <-?E4; done. Qed.

(** *** Where a slot is *)

Lemma slots_upto_spec n s : s ∈ slots_upto n ↔ N.to_nat s < n.
Proof.
  unfold slots_upto. rewrite list_elem_of_fmap. setoid_rewrite elem_of_seq. split.
  - intros (i & -> & ?). lia.
  - intros ?. exists (N.to_nat s). lia.
Qed.
Lemma NoDup_slots_upto n : NoDup (slots_upto n).
Proof. apply NoDup_fmap_2; [intros ???; lia|apply NoDup_seq]. Qed.

Lemma elem_of_pending (m : gmap N Z) s : s ∈ (map_to_list m).*1 ↔ is_Some (m !! s).
Proof.
  rewrite list_elem_of_fmap. split.
  - intros ([x t] & -> & Hx%elem_of_map_to_list). by exists t.
  - intros [t Ht]. exists (s, t). by rewrite elem_of_map_to_list.
Qed.

Lemma partition_NoDup c : partition c → NoDup (c_free c ++ (map_to_list (c_pending c)).*1 ++ (c_lru c).*1).
Proof. unfold partition. intros ->. apply NoDup_slots_upto. Qed.

Lemma pending_elsewhere c s t : partition c → c_pending c !! s = Some t →
  (N.to_nat s < c_slots c) ∧ (s ∉ c_free c) ∧ s ∉ (c_lru c).*1.
Proof.
  intros Hp Hs. assert (s ∈ (map_to_list (c_pending c)).*1) as Hin by (rewrite elem_of_pending; eauto).
  pose proof (partition_NoDup _ Hp) as Hnd. rewrite !NoDup_app in Hnd. split_and!.
  - apply slots_upto_spec. unfold partition in Hp. rewrite <-Hp. rewrite !elem_of_app. auto.
  - intros Hf. destruct Hnd as (_ & Hd & _). apply (Hd s Hf), elem_of_app. by left.
  - destruct Hnd as (_ & _ & _ & Hd & _). by apply Hd.
Qed.

Lemma lru_elsewhere c s k : partition c → (s, k) ∈ c_lru c →
  (N.to_nat s < c_slots c) ∧ (s ∉ c_free c) ∧ c_pending c !! s = None.
Proof.
  intros Hp Hs. assert (s ∈ (c_lru c).*1) as Hin by by apply (list_elem_of_fmap_2 fst _ (s, k)).
  pose proof (partition_NoDup _ Hp) as Hnd. rewrite !NoDup_app in Hnd. split_and!.
  - apply slots_upto_spec. unfold partition in Hp. rewrite <-Hp. rewrite !elem_of_app. auto.
  - intros Hf. destruct Hnd as (_ & Hd & _). apply (Hd s Hf), elem_of_app. by right.
  - apply eq_None_not_Some. rewrite <-elem_of_pending. intros Hq.
    destruct Hnd as (_ & _ & _ & Hd & _). by apply (Hd s).
Qed.

Lemma free_elsewhere c s : partition c → s ∈ c_free c →
  (N.to_nat s < c_slots c) ∧ c_pending c !! s = None ∧ s ∉ (c_lru c).*1.
Proof.
  intros Hp Hs. pose proof (partition_NoDup _ Hp) as Hnd. rewrite !NoDup_app in Hnd.
  destruct Hnd as (_ & Hd & _). specialize (Hd s Hs). apply not_elem_of_app in Hd as [Hq Hl].
  split_and!; [|apply eq_None_not_Some; by rewrite <-elem_of_pending|done].
  apply slots_upto_spec. unfold partition in Hp. rewrite <-Hp. rewrite !elem_of_app. auto.
Qed.

(** The slots of a list lose exactly the dropped one. *)
Lemma c_drop_perm s k l : NoDup l.*1 → (s, k) ∈ l → l.*1 ≡ₚ s :: (c_drop s l).*1.
Proof.
  intros Hnd (l1 & l2 & ->)%list_elem_of_split. rewrite c_drop_split by done.
  rewrite !fmap_app, fmap_cons. by rewrite <-Permutation_middle.
Qed.
Lemma most_recent_perm s k l : NoDup l.*1 → (s, k) ∈ l → (most_recent s k l).*1 ≡ₚ l.*1.
Proof.
  intros Hnd Hin. rewrite (c_drop_perm s k l) by done. unfold most_recent.
  rewrite fmap_app. simpl. by rewrite <-Permutation_cons_append.
Qed.
Lemma pending_delete_perm (m : gmap N Z) s t :
  m !! s = Some t → (map_to_list m).*1 ≡ₚ s :: (map_to_list (delete s m)).*1.
Proof. intros Hs. by rewrite <-(map_to_list_delete m s t), fmap_cons. Qed.
Lemma pending_insert_perm (m : gmap N Z) s t :
  m !! s = None → (map_to_list (<[s := t]> m)).*1 ≡ₚ s :: (map_to_list m).*1.
Proof. intros Hs. by rewrite map_to_list_insert, fmap_cons. Qed.

Lemma elem_of_most_recent s k l x y :
  (x, y) ∈ most_recent s k l ↔ (x ≠ s ∧ (x, y) ∈ l) ∨ (x, y) = (s, k).
Proof. unfold most_recent. by rewrite elem_of_app, elem_of_c_drop, list_elem_of_singleton. Qed.

(** *** Each operation simulates its specification *)

Lemma linked_NoDup p c : linked p c → NoDup (c_lru c).*1.
Proof. intros HL. apply (R_lru _ _ HL). Qed.

Lemma linked_slot_key p c s k k' : linked p c → (s, k) ∈ c_lru c → (s, k') ∈ c_lru c → k = k'.
Proof. intros HL. rewrite <-!(R_slot _ _ HL). congruence. Qed.
Lemma linked_key_slot p c s s' k : linked p c → (s, k) ∈ c_lru c → (s', k) ∈ c_lru c → s = s'.
Proof. intros HL. rewrite <-!(R_hash _ _ HL). congruence. Qed.

Lemma linked_set p c fr pe :
  linked p c → linked (set_free fr (set_pending pe p)) (c_set c fr pe (c_lru c)).
Proof. intros [? ? ? ? ? []]. by split. Qed.

Lemma touch_linked p c s k : linked p c → (s, k) ∈ c_lru c →
  ∃ p', touch s p = Some p' ∧ linked p' (c_set c (c_free c) (c_pending c) (most_recent s k (c_lru c))).
Proof.
  intros HL Hin. destruct (touch_bound _ _ _ _ _ (R_lru _ _ HL) Hin) as (pr & ne & h & t & -> & Hr).
  eexists. split; [done|].
  assert (∀ x y, (x, y) ∈ most_recent s k (c_lru c) ↔ (x, y) ∈ c_lru c) as Hmr.
  { intros x y. rewrite elem_of_most_recent. split.
    - intros [[_ ?]|[= -> ->]]; done.
    - intros Hx. destruct (decide (x = s)) as [->|]; [|by left].
      right. f_equal. by eapply linked_slot_key. }
  split; simpl; try apply HL; try done.
  - intros x y. rewrite Hmr. apply HL.
  - intros x y. rewrite Hmr. apply HL.
Qed.

(** Removing a binding from both maps and the LRU list. *)
Lemma unbind_linked p c s k : linked p c → (s, k) ∈ c_lru c →
  ∃ p', lru_detach s (set_maps (delete k (by_hash p)) (delete s (by_slot p)) p) = Some p'
    ∧ linked p' (c_set c (c_free c) (c_pending c) (c_drop s (c_lru c))).
Proof.
  intros HL Hin. set (p0 := set_maps _ _ p).
  assert (lru_repr (c_slots c) (c_lru c).*1 p0) as Hr0
    by (eapply lru_repr_ext, (R_lru _ _ HL); done).
  destruct (detach_bound _ _ _ _ _ Hr0 Hin) as (pr & ne & h & t & -> & Hr).
  eexists. split; [done|]. split; simpl; try apply HL; try done.
  - intros x y. rewrite elem_of_c_drop, lookup_delete_Some, (R_slot _ _ HL).
    split; intros [? ?]; by split.
  - intros x y. rewrite elem_of_c_drop, lookup_delete_Some, (R_hash _ _ HL).
    split; intros [Hne ?]; (split; [|done]); intros ->; apply Hne.
    + by eapply linked_slot_key.
    + by eapply linked_key_slot.
Qed.

(** Binding a slot that is nowhere in the list to a key that is not bound. *)
Lemma bind_linked p c s k : linked p c → s ∉ (c_lru c).*1 → k ∉ (c_lru c).*2 → N.to_nat s < c_slots c →
  ∃ p', lru_attach_tail s (set_maps (<[k := s]> (by_hash p)) (<[s := k]> (by_slot p)) p) = Some p'
    ∧ linked p' (c_set c (c_free c) (c_pending c) (c_lru c ++ [(s, k)])).
Proof.
  intros HL Hs Hk Hn. set (p0 := set_maps _ _ p).
  assert (lru_repr (c_slots c) (c_lru c).*1 p0) as Hr0
    by (eapply lru_repr_ext, (R_lru _ _ HL); done).
  destruct (lru_attach_tail_repr _ _ _ _ Hr0 Hs Hn) as (pr & ne & h & t & -> & Hr).
  eexists. split; [done|]. split; simpl; try apply HL; try done; [| |by rewrite fmap_app].
  - intros x y. rewrite elem_of_app, list_elem_of_singleton, lookup_insert_Some, (R_slot _ _ HL).
    split; [intros [[-> ->]|[_ ?]]; auto|].
    intros [Hx|[= -> ->]]; [right|by left]. split; [|done]. intros <-.
    apply Hs. by apply (list_elem_of_fmap_2 fst _ (s, y)).
  - intros x y. rewrite elem_of_app, list_elem_of_singleton, lookup_insert_Some, (R_hash _ _ HL).
    split; [intros [[-> ->]|[_ ?]]; auto|].
    intros [Hx|[= -> ->]]; [right|by left]. split; [|done]. intros <-.
    apply Hk. by apply (list_elem_of_fmap_2 snd _ (x, k)).
Qed.

Lemma lookup_simulates p c k : refines p c → simulates (lookup k p) (c_lookup k c).
Proof.
  intros [HL HP]. unfold lookup, c_lookup. rewrite (slot_of_Some p c k HL).
  destruct (by_hash p !! k) as [s|] eqn:E; [|by exists p].
  apply (R_hash _ _ HL) in E. destruct (touch_linked _ _ _ _ HL E) as (p' & -> & HL').
  exists p'. split; [done|]. split; [done|]. unfold partition in *. simpl.
  by rewrite most_recent_perm by (done || by eapply linked_NoDup).
Qed.

Lemma release_simulates p c s : refines p c → ∃ p', release s p = Some p' ∧ refines p' (c_release s c).
Proof.
  intros [HL HP]. unfold release, c_release. rewrite (key_of_Some p c s HL), <-(R_pending _ _ HL).
  destruct (by_slot p !! s) as [k|] eqn:E; [|destruct (pending p !! s) as [t|] eqn:E'].
  - apply (R_slot _ _ HL) in E. destruct (unbind_linked _ _ _ _ HL E) as (p' & -> & HL').
    simpl. eexists. split; [done|]. rewrite (R_free _ _ HL'), (R_pending _ _ HL). split.
    + destruct HL' as [? ? ? ? ? []]. by split.
    + unfold partition in *. simpl. rewrite <-HP.
      rewrite (c_drop_perm s k (c_lru c)) by (done || by eapply linked_NoDup). solve_Permutation.
  - simpl. eexists. split; [done|]. rewrite (R_free _ _ HL), (R_pending _ _ HL) in *. split.
    + by apply linked_set.
    + unfold partition in *. simpl. rewrite <-HP.
      rewrite (pending_delete_perm (c_pending c) s t) by done. solve_Permutation.
  - by exists p.
Qed.

Lemma lru_detach_set_maps s h m p : lru_detach s (set_maps h m p) = set_maps h m <$> lru_detach s p.
Proof.
  unfold lru_detach. simpl. destruct (vget (lru_prev p) s) as [x|]; simpl; [|done].
  case_decide; [done|]. destruct (vget (lru_next p) s) as [y|]; simpl; [|done].
  destruct (if decide (x ≠ NIL) then _ else _) as [[ne h']|]; simpl; [|done].
  destruct (if decide (y ≠ NIL) then _ else _) as [[pr t']|]; simpl; [|done].
  destruct (vset pr s NIL); simpl; [|done]. by destruct (vset ne s NIL).
Qed.

(** The rebinding of [commit]: the slot [old] of the key is freed, then the key
    is bound to [s]. *)
Lemma rebind_linked p c s k old :
  linked p c → (old, k) ∈ c_lru c → s ∉ (c_lru c).*1 → N.to_nat s < c_slots c →
  ∃ p', (p ← (p' ← lru_detach old
                   (set_maps (<[k := s]> (by_hash p)) (delete old (<[s := k]> (by_slot p))) p);
              Some (set_free (free p' ++ [old]) p'));
         lru_attach_tail s p) = Some p'
    ∧ linked p' (c_set c (c_free c ++ [old]) (c_pending c) (c_drop old (c_lru c) ++ [(s, k)])).
Proof.
  intros HL Hold Hs Hn. destruct (unbind_linked _ _ _ _ HL Hold) as (p1 & Hd & HL1).
  rewrite lru_detach_set_maps in Hd. apply fmap_Some in Hd as (d & Hd & ->).
  rewrite lru_detach_set_maps, Hd. simpl.
  pose proof (R_free _ _ HL1) as Hf. pose proof (R_pending _ _ HL1) as Hq. simpl in Hf, Hq.
  apply (linked_set _ _ (c_free c ++ [old]) (c_pending c)) in HL1.
  destruct (bind_linked _ _ s k HL1) as (p' & Hb & HL'); simpl.
  - intros ([x y] & -> & Hx%elem_of_c_drop)%list_elem_of_fmap.
    apply Hs. apply (list_elem_of_fmap_2 fst _ (x, y)). apply Hx.
  - intros ([x y] & Hy & [Hne Hx]%elem_of_c_drop)%list_elem_of_fmap. simpl in Hy. subst y.
    apply Hne. by apply (linked_key_slot p c x old k).
  - done.
  - exists p'. split; [|done]. rewrite <-Hb. f_equal.
    assert (old ≠ s).
    { intros ->. apply Hs. by apply (list_elem_of_fmap_2 fst _ (s, k)). }
    rewrite Hf. simpl. rewrite insert_delete_eq, delete_insert_ne by done.
    unfold set_maps, set_free, set_pending. simpl. by rewrite Hq.
Qed.

Lemma commit_simulates p c s k : refines p c → simulates (commit s k p) (c_commit s k c).
Proof.
  intros [HL HP]. unfold commit, c_commit.
  rewrite (key_of_Some p c s HL), (slot_of_Some p c k HL), <-(R_pending _ _ HL).
  destruct (decide (by_slot p !! s = Some k)) as [E|E].
  - apply (R_slot _ _ HL) in E. destruct (lru_elsewhere _ _ _ HP E) as (_ & _ & Hq).
    rewrite (R_pending _ _ HL), delete_id by done. rewrite <-(R_pending _ _ HL).
    replace (set_pending (pending p) p) with p by by destruct p.
    destruct (touch_linked _ _ _ _ HL E) as (p' & -> & HL').
    exists p'. split; [done|]. rewrite (R_pending _ _ HL). split; [done|].
    unfold partition in *. simpl. by rewrite most_recent_perm by (done || by eapply linked_NoDup).
  - destruct (pending p !! s) as [t|] eqn:Et; [|by exists p]. rewrite (R_pending _ _ HL) in Et.
    destruct (pending_elsewhere _ _ _ HP Et) as (Hn & Hf & Hl).
    rewrite (R_pending _ _ HL). set (p1 := set_pending (delete s (c_pending c)) p).
    assert (linked p1 (c_set c (c_free c) (delete s (c_pending c)) (c_lru c))) as HL1.
    { apply (linked_set p c (free p) (delete s (c_pending c))) in HL as HL2.
      rewrite (R_free _ _ HL) in HL2 at 2. subst p1. by destruct p. }
    change (by_hash p1) with (by_hash p). change (by_slot p1) with (by_slot p).
    destruct (by_hash p !! k) as [old|] eqn:Eo.
    + apply (R_hash _ _ HL) in Eo.
      destruct (rebind_linked _ _ s k old HL1 Eo Hl Hn) as (p' & Hre & HL').
      change (by_hash p1) with (by_hash p) in Hre. change (by_slot p1) with (by_slot p) in Hre.
      exists p'. split; [|split; [done|]].
      * simpl in *. destruct (lru_detach old _) as [d|]; simpl in *; [|done]. by rewrite Hre.
      * unfold partition in *. simpl. rewrite fmap_app, <-HP, (pending_delete_perm (c_pending c) s t) by done.
        rewrite (c_drop_perm old k (c_lru c)) by (done || by eapply linked_NoDup). simpl.
        solve_Permutation.
    + destruct (bind_linked _ _ s k HL1 Hl) as (p' & Hb & HL'); [|done|].
      { intros ([x y] & Hy & Hx)%list_elem_of_fmap. simpl in Hy, Hx. subst y.
        apply (R_hash _ _ HL) in Hx. congruence. }
      change (by_hash p1) with (by_hash p) in Hb. change (by_slot p1) with (by_slot p) in Hb.
      exists p'. split; [|split; [done|]].
      * simpl in *. by rewrite Hb.
      * unfold partition in *. simpl. rewrite fmap_app, <-HP, (pending_delete_perm (c_pending c) s t) by done. simpl.
        solve_Permutation.
Qed.

Section simulation.
Context {HI : HashIter N}.

Lemma reclaim_perm (P : N * Z → Prop) `{∀ x, Decision (P x)} (m : gmap N Z) :
  (filter (λ x, ¬ P x) (hash_iter m)).*1 ++ (map_to_list (filter P m)).*1 ≡ₚ (map_to_list m).*1.
Proof.
  rewrite <-fmap_app. apply fmap_Permutation. apply NoDup_Permutation.
  - apply NoDup_app. split_and!.
    + apply NoDup_filter. rewrite hash_iter_perm. apply NoDup_map_to_list.
    + intros [x t] [Hn _]%list_elem_of_filter. rewrite elem_of_map_to_list.
      intros [_ ?]%map_lookup_filter_Some. done.
    + apply NoDup_map_to_list.
  - apply NoDup_map_to_list.
  - intros [x t]. rewrite elem_of_app, list_elem_of_filter, elem_of_hash_iter, !elem_of_map_to_list,
      map_lookup_filter_Some. destruct (decide (P (x, t))); tauto.
Qed.

Lemma reclaim_simulates now p c : refines p c → refines (reclaim_expired now p) (c_reclaim now c).
Proof.
  intros [HL HP]. unfold reclaim_expired, c_reclaim.
  rewrite (R_pending _ _ HL), (R_free _ _ HL). split; [by apply linked_set|].
  unfold partition in *. simpl. rewrite <-HP, <-(reclaim_perm (λ sd, (now < sd.2)%Z) (c_pending c)).
  solve_Permutation.
Qed.

Lemma evict_one_simulates p c : refines p c →
  match c_lru c with
  | [] => evict_one p = Some (None, p)
  | (s, k) :: l => ∃ p', evict_one p = Some (Some s, p')
      ∧ linked p' (c_set c (c_free c) (c_pending c) l)
  end.
Proof.
  intros [HL HP]. unfold evict_one. rewrite (repr_head _ _ _ (R_lru _ _ HL)).
  pose proof (linked_NoDup _ _ HL) as Hnd.
  destruct (c_lru c) as [|[s k] l] eqn:El; simpl; [done|].
  assert ((s, k) ∈ c_lru c) as Hin by (rewrite El; left).
  destruct (lru_elsewhere _ _ _ HP Hin) as (Hn & _ & _).
  rewrite decide_False by (by eapply repr_ne_NIL, Hn; apply HL).
  rewrite (proj2 (R_slot _ _ HL s k) Hin). simpl.
  destruct (unbind_linked _ _ _ _ HL Hin) as (p' & -> & HL'). exists p'. split; [done|].
  rewrite El in HL'. pose proof (c_drop_split s k [] l Hnd) as Hdr. simpl in Hdr.
  by rewrite Hdr in HL'.
Qed.

Lemma partition_take c s fr t : partition c → c_free c = s :: fr →
  partition (c_set c fr (<[s := t]> (c_pending c)) (c_lru c)).
Proof.
  intros HP Hf. destruct (free_elsewhere c s HP) as (_ & Hq & _); [rewrite Hf; left|].
  unfold partition in *. simpl. rewrite Hf in HP. rewrite pending_insert_perm by done.
  rewrite <-HP. simpl. by rewrite <-Permutation_middle.
Qed.
Lemma partition_evict c s k l t : partition c → c_free c = [] → c_lru c = (s, k) :: l →
  partition (c_set c [] (<[s := t]> (c_pending c)) l).
Proof.
  intros HP Hf Hl. destruct (lru_elsewhere c s k HP) as (_ & _ & Hq); [rewrite Hl; left|].
  unfold partition in *. simpl. rewrite Hf, Hl in HP. rewrite pending_insert_perm by done.
  rewrite <-HP. simpl. by rewrite <-Permutation_middle.
Qed.

Lemma reserve_loop_simulates clock count i p c :
  refines p c → simulates (reserve_loop clock count i p) (c_reserve_loop clock count i c).
Proof.
  revert i p c. induction count as [|count IH]; intros i p c HR; simpl; [by exists p|].
  pose proof HR as [HL HP]. rewrite (R_free _ _ HL).
  destruct (c_free c) as [|s fr] eqn:Ef.
  - pose proof (evict_one_simulates p c HR) as He.
    destruct (c_lru c) as [|[s k] l] eqn:El; [rewrite He; by exists p|].
    destruct He as (p1 & -> & HL1). simpl. rewrite (R_ttl _ _ HL1), (R_pending _ _ HL1). simpl.
    destruct (IH (S i) (set_pending (<[s := (clock i + c_ttl c)%Z]> (c_pending c)) p1)
      (c_set c [] (<[s := (clock i + c_ttl c)%Z]> (c_pending c)) l)) as (p' & Hrun & HR').
    + split.
      * apply (linked_set p1 _ (free p1) (<[s := (clock i + c_ttl c)%Z]> (c_pending c))) in HL1 as HL2.
        rewrite (R_free _ _ HL1) in HL2 at 2. simpl in HL2. rewrite Ef in HL2. by destruct p1.
      * by eapply partition_evict.
    + rewrite Hrun. simpl. destruct (c_reserve_loop _ _ _ _) as [out c']. by exists p'.
  - simpl. destruct (IH (S i) (set_pending (<[s := (clock i + c_ttl c)%Z]> (c_pending c)) (set_free fr p))
      (c_set c fr (<[s := (clock i + c_ttl c)%Z]> (c_pending c)) (c_lru c))) as (p' & Hrun & HR').
    + split.
      * exact (linked_set p c fr (<[s := (clock i + c_ttl c)%Z]> (c_pending c)) HL).
      * by eapply partition_take.
    + rewrite (R_ttl _ _ HL), (R_pending _ _ HL). rewrite Hrun. simpl.
      destruct (c_reserve_loop _ _ _ _) as [out c']. by exists p'.
Qed.

Lemma reserve_simulates now clock count p c :
  refines p c → simulates (reserve now clock count p) (c_reserve now clock count c).
Proof.
  intros HR. unfold reserve, c_reserve. rewrite (R_free _ _ (proj1 HR)).
  case_decide; apply reserve_loop_simulates; [by apply reclaim_simulates|done].
Qed.
End simulation.

Lemma pred_in_nil s : pred_in NIL [] s = NIL.
Proof. done. Qed.

Lemma fresh_refines p n : length (lru_prev p) = n → length (lru_next p) = n → (N.of_nat n ≤ NIL)%N →
  refines (clear p) (c_new n (reserve_ttl p)).
Proof.
  intros Hlp Hln Hn. split.
  - split; simpl; try (rewrite Hlp; done); try done.
    + intros s k. rewrite lookup_empty. split; [done|]. by intros ?%elem_of_nil.
    + intros s k. rewrite lookup_empty. split; [done|]. by intros ?%elem_of_nil.
    + split; simpl; rewrite ?length_replicate; try done; try (by constructor).
      * by intros s ?%elem_of_nil.
      * intros s Hs. unfold vget. rewrite Hlp. by apply lookup_replicate_2.
      * intros s Hs. unfold vget. rewrite Hln. by apply lookup_replicate_2.
  - unfold partition. simpl. rewrite map_to_list_empty. simpl. by rewrite !app_nil_r.
Qed.

(** ** Slabs: the [KvSlab] trait

    Each operation is given the instants it reads.  [models s c] says that the
    slab is in the abstract state [c]; the laws say that every operation
    answers as the cache does, and does not panic. *)

Record clocks := { clk_now : Z; clk_loop : nat → Z }.

Fixpoint c_commit_bytes (entries : list (N * list byte)) (c : cache) : cache :=
  match entries with
  | [] => c
  | (s, kh) :: entries =>
      c_commit_bytes entries
        (match key_hash_try_from kh with Some k => (c_commit s k c).2 | None => c end)
  end.
Fixpoint c_lookup_bytes (keys : list (list byte)) (c : cache) : list (option N) * cache :=
  match keys with
  | [] => ([], c)
  | k :: keys =>
      let '(r, c) := match key_hash_try_from k with Some kh => c_lookup kh c | None => (None, c) end in
      let '(rs, c) := c_lookup_bytes keys c in
      (r :: rs, c)
  end.
Definition c_release_all (slots : list N) (c : cache) : cache := foldl (λ c s, c_release s c) c slots.
Definition c_clear (c : cache) : cache := c_new (c_slots c) (c_ttl c).

Lemma commit_bytes_simulates entries p c :
  refines p c → ∃ p', commit_bytes entries p = Some p' ∧ refines p' (c_commit_bytes entries c).
Proof.
  revert p c. induction entries as [|[s kh] es IH]; intros p c HR; simpl; [by exists p|].
  destruct (key_hash_try_from kh) as [k|]; simpl; [|by apply IH].
  destruct (commit_simulates p c s k HR) as (p' & -> & HR'). simpl. by apply IH.
Qed.
Lemma lookup_bytes_simulates keys p c :
  refines p c → simulates (lookup_bytes keys p) (c_lookup_bytes keys c).
Proof.
  revert p c. induction keys as [|k ks IH]; intros p c HR; simpl; [by exists p|].
  destruct (key_hash_try_from k) as [kh|]; simpl.
  - destruct (lookup_simulates p c kh HR) as (p1 & -> & HR1). simpl.
    destruct (c_lookup kh c) as [r c1]. simpl in *.
    destruct (IH p1 c1 HR1) as (p' & -> & HR'). simpl.
    destruct (c_lookup_bytes ks c1) as [rs c2]. by exists p'.
  - destruct (IH p c HR) as (p' & -> & HR'). simpl.
    destruct (c_lookup_bytes ks c) as [rs c2]. by exists p'.
Qed.
Lemma release_all_simulates slots p c :
  refines p c → ∃ p', release_all slots p = Some p' ∧ refines p' (c_release_all slots c).
Proof.
  revert p c. induction slots as [|s ss IH]; intros p c HR; simpl; [by exists p|].
  destruct (release_simulates p c s HR) as (p' & -> & HR'). simpl. by apply IH.
Qed.
Lemma clear_simulates p c : refines p c → refines (clear p) (c_clear c).
Proof.
  intros [HL _]. unfold c_clear. rewrite <-(R_ttl _ _ HL).
  apply fresh_refines; by apply (R_lru _ _ HL).
Qed.

Section slabs.
Context {HI : HashIter N}.

Class KvSlab (S : Type) := {
  slab_reserve : clocks → N → S → option (list N * S);
  slab_commit : list (N * list byte) → S → option S;
  slab_lookup : list (list byte) → S → option (list (option N) * S);
  slab_release : list N → S → option S;
  slab_reset : S → S;
  slab_slot_bytes : S → N;
  slab_slot_count : S → N;
  slab_shm_name : S → option string;
  models : S → cache → Prop;
  (** What attach reports does not change. *)
  slab_info (s : S) := (slab_shm_name s, slab_slot_bytes s, slab_slot_count s);
  slab_reserve_law : ∀ ck n s c, models s c → ∃ s',
    slab_reserve ck n s = Some ((c_reserve (clk_now ck) (clk_loop ck) n c).1, s')
    ∧ models s' (c_reserve (clk_now ck) (clk_loop ck) n c).2 ∧ slab_info s' = slab_info s;
  slab_commit_law : ∀ es s c, models s c → ∃ s',
    slab_commit es s = Some s' ∧ models s' (c_commit_bytes es c) ∧ slab_info s' = slab_info s;
  slab_lookup_law : ∀ ks s c, models s c → ∃ s',
    slab_lookup ks s = Some ((c_lookup_bytes ks c).1, s')
    ∧ models s' (c_lookup_bytes ks c).2 ∧ slab_info s' = slab_info s;
  slab_release_law : ∀ ss s c, models s c → ∃ s',
    slab_release ss s = Some s' ∧ models s' (c_release_all ss c) ∧ slab_info s' = slab_info s;
  slab_reset_law : ∀ s c, models s c →
    models (slab_reset s) (c_clear c) ∧ slab_info (slab_reset s) = slab_info s
}.

Record HostSlab := { hs_slots : SlotPool; hs_name : string; hs_slot_bytes : N; hs_slot_count : N }.
(** [RdmaSlab] of [kv_slab.rs]: the buffers' size and number stand for [Buffers]. *)
Record RdmaSlab := { rs_slots : SlotPool; rs_buf_size : N; rs_buf_cnt : N }.

Definition set_hs_slots (h : HostSlab) (p : SlotPool) : HostSlab :=
  {| hs_slots := p; hs_name := hs_name h; hs_slot_bytes := hs_slot_bytes h;
     hs_slot_count := hs_slot_count h |}.
Definition set_rs_slots (h : RdmaSlab) (p : SlotPool) : RdmaSlab :=
  {| rs_slots := p; rs_buf_size := rs_buf_size h; rs_buf_cnt := rs_buf_cnt h |}.

(** A slab that keeps its pool in one field, next to fixed attach data. *)
Record pool_field (S : Type) := {
  pf_get : S → SlotPool;
  pf_set : S → SlotPool → S;
  pf_shm_name : S → option string;
  pf_slot_bytes : S → N;
  pf_slot_count : S → N;
  pf_get_set : ∀ s p, pf_get (pf_set s p) = p;
  pf_fixed : ∀ s p, (pf_shm_name (pf_set s p), pf_slot_bytes (pf_set s p), pf_slot_count (pf_set s p))
                    = (pf_shm_name s, pf_slot_bytes s, pf_slot_count s)
}.
Arguments pf_get {S} _ _.
Arguments pf_set {S} _ _ _.
Arguments pf_shm_name {S} _ _.
Arguments pf_slot_bytes {S} _ _.
Arguments pf_slot_count {S} _ _.

Program Definition pool_slab {S} (f : pool_field S) : KvSlab S := {|
  slab_reserve ck n h :=
    '(out, p) ← reserve (clk_now ck) (clk_loop ck) n (pf_get f h); Some (out, pf_set f h p);
  slab_commit es h := pf_set f h <$> commit_bytes es (pf_get f h);
  slab_lookup ks h := '(out, p) ← lookup_bytes ks (pf_get f h); Some (out, pf_set f h p);
  slab_release ss h := pf_set f h <$> release_all ss (pf_get f h);
  slab_reset h := pf_set f h (clear (pf_get f h));
  slab_slot_bytes h := pf_slot_bytes f h;
  slab_slot_count h := pf_slot_count f h;
  slab_shm_name h := pf_shm_name f h;
  models h c := refines (pf_get f h) c
|}.
Next Obligation.
  intros S f ck n h c HR. destruct (reserve_simulates (clk_now ck) (clk_loop ck) n _ _ HR) as (p' & -> & HR').
  eexists. split; [done|]. simpl. by rewrite pf_get_set, pf_fixed.
Qed.
Next Obligation.
  intros S f es h c HR. destruct (commit_bytes_simulates es _ _ HR) as (p' & -> & HR').
  eexists. split; [done|]. simpl. by rewrite pf_get_set, pf_fixed.
Qed.
Next Obligation.
  intros S f ks h c HR. destruct (lookup_bytes_simulates ks _ _ HR) as (p' & -> & HR').
  eexists. split; [done|]. simpl. by rewrite pf_get_set, pf_fixed.
Qed.
Next Obligation.
  intros S f ss h c HR. destruct (release_all_simulates ss _ _ HR) as (p' & -> & HR').
  eexists. split; [done|]. simpl. by rewrite pf_get_set, pf_fixed.
Qed.
Next Obligation.
  intros S f h c HR. simpl in *. rewrite pf_get_set, pf_fixed. split; [by apply clear_simulates|done].
Qed.

Definition HostSlab_field : pool_field HostSlab :=
  {| pf_get := hs_slots; pf_set := set_hs_slots; pf_shm_name h := Some (hs_name h);
     pf_slot_bytes := hs_slot_bytes; pf_slot_count := hs_slot_count;
     pf_get_set _ _ := eq_refl; pf_fixed _ _ := eq_refl |}.
#[global] Instance HostSlab_KvSlab : KvSlab HostSlab := pool_slab HostSlab_field.

(** [as u32] on the buffers' size and number. *)
Definition RdmaSlab_field : pool_field RdmaSlab :=
  {| pf_get := rs_slots; pf_set := set_rs_slots; pf_shm_name h := None;
     pf_slot_bytes h := (rs_buf_size h `mod` 2 ^ 32)%N; pf_slot_count h := (rs_buf_cnt h `mod` 2 ^ 32)%N;
     pf_get_set _ _ := eq_refl; pf_fixed _ _ := eq_refl |}.
#[global] Instance RdmaSlab_KvSlab : KvSlab RdmaSlab := pool_slab RdmaSlab_field.

(** ** Requests *)

Inductive KvRequest :=
  | Attach (slot_bytes : N)
  | Reserve (count : N)
  | Commit (entries : list (N * list byte))
  | Lookup (keys : list (list byte))
  | Release (slots : list N)
  | Reset.

Inductive KvResponse :=
  | Attached (shm_name : string) (slot_bytes slot_count : N)
  | Reserved (slots : list N)
  | Looked (slots : list (option N))
  | KvOk
  | KvErr (msg : string).

Definition serve_tcp {S} `{KvSlab S} (ck : clocks) (req : KvRequest) (slab : S) :
    option (KvResponse * S) :=
  match req with
  | Attach _ =>
      Some (match slab_shm_name slab with
            | Some name => Attached name (slab_slot_bytes slab) (slab_slot_count slab)
            | None => KvErr "slab is not shm-backed"
            end, slab)
  | Reserve count => '(slots, slab) ← slab_reserve ck count slab; Some (Reserved slots, slab)
  | Commit entries => slab ← slab_commit entries slab; Some (KvOk, slab)
  | Lookup keys => '(slots, slab) ← slab_lookup keys slab; Some (Looked slots, slab)
  | Release slots => slab ← slab_release slots slab; Some (KvOk, slab)
  | Reset => Some (KvOk, slab_reset slab)
  end.

(** The specification of a request over the abstract cache. *)
Definition c_serve (info : option string * N * N) (ck : clocks) (req : KvRequest) (c : cache) :
    KvResponse * cache :=
  match req with
  | Attach _ => (match info.1.1 with
                 | Some name => Attached name info.1.2 info.2
                 | None => KvErr "slab is not shm-backed"
                 end, c)
  | Reserve n => let '(out, c) := c_reserve (clk_now ck) (clk_loop ck) n c in (Reserved out, c)
  | Commit es => (KvOk, c_commit_bytes es c)
  | Lookup ks => let '(out, c) := c_lookup_bytes ks c in (Looked out, c)
  | Release ss => (KvOk, c_release_all ss c)
  | Reset => (KvOk, c_clear c)
  end.

Lemma serve_tcp_simulates {S} `{KvSlab S} ck req (s : S) c : models s c → ∃ s',
  serve_tcp ck req s = Some ((c_serve (slab_info s) ck req c).1, s')
  ∧ models s' (c_serve (slab_info s) ck req c).2 ∧ slab_info s' = slab_info s.
Proof.
  intros Hm. destruct req as [b|n|es|ks|ss|]; simpl.
  - by exists s.
  - destruct (slab_reserve_law ck n s c Hm) as (s' & -> & ? & ?). exists s'.
    by destruct (c_reserve _ _ _ _).
  - destruct (slab_commit_law es s c Hm) as (s' & -> & ? & ?). by exists s'.
  - destruct (slab_lookup_law ks s c Hm) as (s' & -> & ? & ?). exists s'.
    by destruct (c_lookup_bytes _ _).
  - destruct (slab_release_law ss s c Hm) as (s' & -> & ? & ?). by exists s'.
  - destruct (slab_reset_law s c Hm) as [? ?]. by eexists.
Qed.

(** A history of requests, and its specification. *)
Fixpoint serve_all {S} `{KvSlab S} (reqs : list (clocks * KvRequest)) (s : S) :
    option (list KvResponse * S) :=
  match reqs with
  | [] => Some ([], s)
  | (ck, req) :: reqs =>
      '(resp, s) ← serve_tcp ck req s;
      '(resps, s) ← serve_all reqs s;
      Some (resp :: resps, s)
  end.
Fixpoint c_serve_all (info : option string * N * N) (reqs : list (clocks * KvRequest)) (c : cache) :
    list KvResponse * cache :=
  match reqs with
  | [] => ([], c)
  | (ck, req) :: reqs =>
      let '(resp, c) := c_serve info ck req c in
      let '(resps, c) := c_serve_all info reqs c in
      (resp :: resps, c)
  end.

Lemma serve_all_simulates {S} `{KvSlab S} reqs (s : S) c : models s c → ∃ s',
  serve_all reqs s = Some ((c_serve_all (slab_info s) reqs c).1, s')
  ∧ models s' (c_serve_all (slab_info s) reqs c).2.
Proof.
  revert s c. induction reqs as [|[ck req] reqs IH]; intros s c Hm; simpl; [by exists s|].
  destruct (serve_tcp_simulates ck req s c Hm) as (s1 & -> & Hm1 & Hi). simpl.
  destruct (c_serve (slab_info s) ck req c) as [resp c1]. simpl in *.
  destruct (IH s1 c1 Hm1) as (s' & -> & Hm'). rewrite Hi in *. exists s'.
  by destruct (c_serve_all _ _ _).
Qed.
End slabs.

(** ** The KV engine *)

(** The slab an engine keeps, [Rc<dyn KvSlab>]. *)
Inductive dyn_slab := HostBacked (h : HostSlab) | RdmaBacked (r : RdmaSlab).

Record KvEngine := {
  slab : option dyn_slab;
  capacity_bytes : N;
  ke_reserve_ttl : Z;
  has_dev : bool
}.

Definition KvEngine_new_tcp (capacity : N) (ttl : Z) : KvEngine :=
  {| slab := None; capacity_bytes := capacity; ke_reserve_ttl := ttl; has_dev := false |}.
Definition KvEngine_new_rdma (capacity : N) (ttl : Z) : KvEngine :=
  {| slab := None; capacity_bytes := capacity; ke_reserve_ttl := ttl; has_dev := true |}.
Definition set_slab (s : dyn_slab) (e : KvEngine) : KvEngine :=
  {| slab := Some s; capacity_bytes := capacity_bytes e; ke_reserve_ttl := ke_reserve_ttl e;
     has_dev := has_dev e |}.

(** [HostSlab::new]: [shm] is the name of the segment and what creating it
    returns. *)
Definition HostSlab_new (shm : string * result string unit) (slot_bytes slot_count : N) (ttl : Z) :
    result string HostSlab :=
  match shm.2 with
  | Err e => Err e
  | Ok _ => Ok {| hs_slots := SlotPool_new slot_count ttl; hs_name := shm.1;
                  hs_slot_bytes := slot_bytes; hs_slot_count := slot_count |}
  end.

(** [(capacity_bytes / slot_bytes).max(1) as u32]. *)
Definition slot_count_for (capacity slot_bytes : N) : N :=
  (N.max (capacity `div` slot_bytes) 1 `mod` 2 ^ 32)%N.

Section engine.
Context {HI : HashIter N}.

Definition dyn_serve (ck : clocks) (req : KvRequest) (s : dyn_slab) : option (KvResponse * dyn_slab) :=
  match s with
  | HostBacked h => '(r, h) ← serve_tcp ck req h; Some (r, HostBacked h)
  | RdmaBacked x => '(r, x) ← serve_tcp ck req x; Some (r, RdmaBacked x)
  end.

(** The slab creation at the head of [KvEngine::serve_tcp]. *)
Definition attach_slab (shm : string * result string unit) (req : KvRequest) (e : KvEngine) :
    result KvResponse KvEngine :=
  match req with
  | Attach slot_bytes =>
      if negb (has_dev e) && (0 <? slot_bytes)%N && bool_decide (slab e = None) then
        match HostSlab_new shm slot_bytes (slot_count_for (capacity_bytes e) slot_bytes) (ke_reserve_ttl e) with
        | Ok s => Ok (set_slab (HostBacked s) e)
        | Err m => Err (KvErr ("kv slab create: " ++ m))
        end
      else Ok e
  | _ => Ok e
  end.

Definition engine_serve (ck : clocks) (shm : string * result string unit) (req : KvRequest)
    (e : KvEngine) : option (KvResponse * KvEngine) :=
  match attach_slab shm req e with
  | Err resp => Some (resp, e)
  | Ok e =>
      match slab e with
      | Some s => '(resp, s) ← dyn_serve ck req s; Some (resp, set_slab s e)
      | None =>
          Some (match req with
                | Attach _ => Attached "" 0 0
                | _ => KvErr "no kv slab yet: call attach first for client discovery/exchange"
                end, e)
      end
  end.
End engine.

(** ** Consequences of the refinement *)

Definition pool_ok (p : SlotPool) : Prop := ∃ c, refines p c.

Lemma new_refines n ttl : (n ≤ NIL)%N → refines (SlotPool_new n ttl) (c_new (N.to_nat n) ttl).
Proof.
  intros Hn. pose proof (fresh_refines (SlotPool_new n ttl) (N.to_nat n)) as H.
  unfold clear in H. simpl in H. rewrite !length_replicate in H. apply H; [done..|lia].
Qed.

(** The slots met by following a link array from [cur]. *)
Fixpoint lru_walk (fuel : nat) (link : list N) (cur : N) : list N :=
  match fuel with
  | 0 => []
  | S fuel =>
      if decide (cur = NIL) then [] else cur :: lru_walk fuel link (default NIL (vget link cur))
  end.

Lemma NoDup_take_part {A} n (l : list A) : NoDup l → NoDup (take n l).
Proof. intros Hnd. rewrite <-(take_drop n l) in Hnd. by apply NoDup_app in Hnd as [? _]. Qed.
(** A prefix that holds the last element is the whole list. *)
Lemma take_last_whole {A} n (l : list A) x : NoDup (l ++ [x]) → x ∈ take n (l ++ [x]) → take n (l ++ [x]) = l ++ [x].
Proof.
  intros Hnd Hx. apply take_ge. apply elem_of_take in Hx as (i & Hi & Hlt).
  assert ((l ++ [x]) !! length l = Some x) as Hl by by apply list_lookup_middle.
  pose proof (NoDup_lookup _ _ _ _ Hnd Hi Hl) as ->. rewrite length_app. simpl. lia.
Qed.

Lemma lru_walk_suffix n l1 l2 p fuel :
  lru_repr n (l1 ++ l2) p → length l2 ≤ fuel → lru_walk fuel (lru_next p) (hd NIL l2) = l2.
Proof.
  intros Hr. revert l1 l2 Hr. induction fuel as [|fuel IH]; intros l1 l2 Hr Hl.
  - destruct l2; simpl in *; [done|lia].
  - destruct l2 as [|x l2]; [done|]. destruct (repr_split _ _ _ _ _ Hr) as (Hn & Hx & _).
    cbn [lru_walk hd]. rewrite decide_False by (by eapply repr_ne_NIL).
    rewrite (repr_next _ _ _ Hr x Hn), succ_in_here by done. simpl. f_equal.
    apply (IH (l1 ++ [x])); [by rewrite <-app_assoc|simpl in Hl; lia].
Qed.
Lemma lru_walk_repr n l p fuel : lru_repr n l p → length l ≤ fuel →
  lru_walk fuel (lru_next p) (lru_head p) = l.
Proof. intros Hr Hl. rewrite (repr_head _ _ _ Hr). by eapply (lru_walk_suffix n [] l). Qed.

Lemma lru_walk_prefix n l1 l2 p fuel :
  lru_repr n (l1 ++ l2) p → length l1 ≤ fuel →
  lru_walk fuel (lru_prev p) (default NIL (list.last l1)) = reverse l1.
Proof.
  intros Hr. revert l1 l2 Hr. induction fuel as [|fuel IH]; intros l1 l2 Hr Hl.
  - destruct l1; simpl in *; [done|lia].
  - destruct l1 as [|x l1 _] using rev_ind; [done|]. rewrite <-app_assoc in Hr. simpl in Hr.
    destruct (repr_split _ _ _ _ _ Hr) as (Hn & Hx & _).
    rewrite last_snoc, reverse_snoc. change (default NIL (Some x)) with x. cbn [lru_walk].
    rewrite decide_False by (by eapply repr_ne_NIL).
    rewrite (repr_prev _ _ _ Hr x Hn), pred_in_here by done. simpl. f_equal.
    apply (IH l1 (x :: l2)); [done|rewrite length_app in Hl; simpl in Hl; lia].
Qed.

Lemma linked_length p c : linked p c → length (c_lru c) ≤ c_slots c.
Proof.
  intros HL. pose proof (linked_NoDup _ _ HL) as Hnd. rewrite <-(length_fmap fst).
  rewrite <-(length_seq (c_slots c) 0), <-(length_fmap N.of_nat (seq 0 _)).
  apply submseteq_length, NoDup_submseteq; [done|]. intros s Hs.
  apply slots_upto_spec. by apply (R_lru _ _ HL).
Qed.

Lemma linked_walk p c : linked p c → lru_walk (length (lru_prev p)) (lru_next p) (lru_head p) = (c_lru c).*1.
Proof.
  intros HL. eapply lru_walk_repr; [apply HL|]. rewrite length_fmap.
  rewrite (repr_len_prev _ _ _ (R_lru _ _ HL)). by eapply linked_length.
Qed.

Lemma linked_by_slot_perm p c : linked p c → map_to_list (by_slot p) ≡ₚ c_lru c.
Proof.
  intros HL. apply NoDup_Permutation; [apply NoDup_map_to_list| |].
  - eapply NoDup_fmap_1. by eapply linked_NoDup.
  - intros [s k]. rewrite elem_of_map_to_list. apply HL.
Qed.

Lemma linked_by_hash_perm p c : linked p c → map_to_list (by_hash p) ≡ₚ (λ e, (e.2, e.1)) <$> c_lru c.
Proof.
  intros HL. apply NoDup_Permutation; [apply NoDup_map_to_list| |].
  - apply NoDup_fmap_2; [by intros [] [] [= -> ->]|]. eapply NoDup_fmap_1. by eapply linked_NoDup.
  - intros [k s]. rewrite elem_of_map_to_list, list_elem_of_fmap, (R_hash _ _ HL). split.
    + intros Hin. by exists (s, k).
    + by intros ([s' k'] & [= -> ->] & ?).
Qed.

(** Exactly what [reserve] hands out. *)
Lemma c_reserve_loop_out clock count i c :
  (c_reserve_loop clock count i c).1 = take count (c_free c ++ (c_lru c).*1).
Proof.
  revert i c. induction count as [|count IH]; intros i c; [done|]. simpl.
  destruct (c_free c) as [|s fr] eqn:Ef; [destruct (c_lru c) as [|[s k] l] eqn:El|]; simpl; [done| |];
    match goal with |- context [c_reserve_loop ?ck ?n ?j ?c'] => specialize (IH j c') end;
    destruct (c_reserve_loop _ _ _ _) as [out c'']; simpl in *; by rewrite IH.
Qed.

(** The slots handed out are reserved and no longer bound afterwards. *)
Lemma c_reserve_loop_pending clock count i c s :
  is_Some (c_pending c !! s) ∨ s ∈ (c_reserve_loop clock count i c).1 →
  is_Some (c_pending (c_reserve_loop clock count i c).2 !! s).
Proof.
  revert i c. induction count as [|count IH]; intros i c; simpl.
  { intros [?|?%elem_of_nil]; done. }
  assert (∀ x fr l, is_Some (c_pending c !! s) ∨ s = x →
    is_Some (c_pending (c_set c fr (<[x := (clock i + c_ttl c)%Z]> (c_pending c)) l) !! s)) as Hins.
  { intros x fr l Hx. simpl. destruct (decide (x = s)) as [->|]; [by rewrite lookup_insert_eq|].
    rewrite lookup_insert_ne by done. by destruct Hx as [?| ->]. }
  destruct (c_free c) as [|x fr]; [destruct (c_lru c) as [|[x k] l]|]; simpl;
    [intros [?|?%elem_of_nil]; done|specialize (Hins x [] l)|specialize (Hins x fr (c_lru c))];
    match goal with |- context [c_reserve_loop ?ck ?n ?j ?c'] => specialize (IH j c') end;
    destruct (c_reserve_loop _ _ _ _) as [out c'']; simpl in *;
    intros [?|[->|?]%elem_of_cons]; auto.
Qed.

(** The pool's answers, read off its maps. *)
Lemma lookup_answer p k : pool_ok p → fst <$> lookup k p = Some (by_hash p !! k).
Proof.
  intros [c HR]. destruct (lookup_simulates p c k HR) as (p' & -> & _). simpl.
  unfold c_lookup. rewrite (slot_of_Some p c k (proj1 HR)). by destruct (by_hash p !! k).
Qed.

Lemma commit_ok_binding p c s k p' :
  refines p c → commit s k p = Some (true, p') →
  refines p' (c_commit s k c).2
  ∧ (s, k) ∈ c_lru (c_commit s k c).2
  ∧ ∀ x k', k' ≠ k → (x, k') ∈ c_lru (c_commit s k c).2 ↔ (x, k') ∈ c_lru c.
Proof.
  intros HR Hc. destruct (commit_simulates p c s k HR) as (p1 & Hc' & HR').
  rewrite Hc in Hc'. destruct HR as [HL HP]. unfold c_commit in *.
  rewrite (slot_of_Some p c k HL) in *. rewrite (key_of_Some p c s HL) in *.
  case_decide as Eb; [|destruct (c_pending c !! s) as [t|] eqn:Et]; simpl in *; simplify_eq.
  - split; [done|]. split; [rewrite elem_of_most_recent; by right|].
    intros x k' Hk. rewrite elem_of_most_recent. split; [intros [[_ ?]|[=]]; done|].
    intros Hx. left. split; [|done]. intros ->. apply (R_slot _ _ HL) in Hx. congruence.
  - split; [done|]. destruct (by_hash p !! k) as [old|] eqn:Eo; simpl;
      (split; [rewrite elem_of_app, list_elem_of_singleton; by right|]); intros x k' Hk;
      rewrite elem_of_app, list_elem_of_singleton, ?elem_of_c_drop.
    + split; [intros [[_ ?]|[=]]; done|]. intros Hx. left. split; [|done]. intros ->.
      apply (R_hash _ _ HL) in Eo. apply Hk. by eapply linked_slot_key.
    + split; [intros [?|[=]]; done|auto].
Qed.

Lemma NoDup_free_lru c : partition c → NoDup (c_free c ++ (c_lru c).*1).
Proof.
  intros HP%partition_NoDup. eapply sublist_NoDup; [exact HP|].
  apply sublist_app; [done|]. apply sublist_inserts_l. done.
Qed.

Lemma host_new_models {HI : HashIter N} n ttl name bytes : (n ≤ NIL)%N →
  models {| hs_slots := SlotPool_new n ttl; hs_name := name; hs_slot_bytes := bytes; hs_slot_count := n |}
    (c_new (N.to_nat n) ttl).
Proof. exact (new_refines n ttl). Qed.

(** The state [reserve]'s loop starts from. *)
Lemma reserve_start {HI : HashIter N} now clock count p c : refines p c → ∃ c',
  refines (if decide (length (free p) < N.to_nat count) then reclaim_expired now p else p) c'
  ∧ c_lru c' = c_lru c
  ∧ c_reserve now clock count c = c_reserve_loop clock (N.to_nat count) 0 c'
  ∧ ∀ s t, pending p !! s = Some t → (now < t)%Z → c_pending c' !! s = Some t.
Proof.
  intros HR. unfold c_reserve. rewrite (R_free _ _ (proj1 HR)), (R_pending _ _ (proj1 HR)). case_decide.
  - exists (c_reclaim now c). split_and!; [by apply reclaim_simulates|done|done|].
    intros s t Hs Ht. by apply map_lookup_filter_Some_2.
  - by exists c.
Qed.

(** Concrete runs. *)
#[local] Instance slot_order : HashIter N := listed_order N.
Definition key (b : byte) : KeyHash := replicate KEY_BYTES b.
Definition tick (t : Z) : clocks := {| clk_now := t; clk_loop := λ _, t |}.
Definition host2 : HostSlab :=
  {| hs_slots := SlotPool_new 2 60; hs_name := "/kv"; hs_slot_bytes := 4096; hs_slot_count := 2 |}.
Definition fill2 : list (clocks * KvRequest) :=
  [(tick 0, Reserve 2); (tick 1, Commit [(0%N, key x01); (1%N, key x02)]);
   (tick 2, Lookup [key x01; key x03; []]); (tick 3, Reserve 1)].

Example fill2_run : fst <$> serve_all fill2 host2 =
  Some [Reserved [0%N; 1%N]; KvOk; Looked [Some 0%N; None; None]; Reserved [1%N]].
Proof. vm_compute. reflexivity. Qed.

(** ** Properties *)

Section properties.
Context {HI : HashIter N}.

(** C4.  Refinement: over every history of requests to a fresh host slab of at
    most [u32::MAX] slots, with any clock readings, no operation panics (no
    array access out of range, no missing binding), and each response is the
    one of the abstract cache that keeps the bindings as one list in order of
    last use. *)
Theorem slab_history_refines_cache (n bytes : N) (ttl : Z) (name : string)
    (reqs : list (clocks * KvRequest)) (Hn : (n ≤ NIL)%N) :
  ∃ s', serve_all reqs {| hs_slots := SlotPool_new n ttl; hs_name := name;
                          hs_slot_bytes := bytes; hs_slot_count := n |}
        = Some ((c_serve_all (Some name, bytes, n) reqs (c_new (N.to_nat n) ttl)).1, s').
Proof.
  destruct (serve_all_simulates reqs _ _ (host_new_models n ttl name bytes Hn)) as (s' & Hs & _).
  by exists s'.
Qed.

(** C24.  The pool's structural invariant, in every state a history of requests
    reaches: every slot is in exactly one of the free queue, the reservations
    and the bindings; the two hash maps are inverse to each other; following
    the [next] links from the head meets every bound slot exactly once, and
    following the [prev] links from the tail meets them in reverse. *)
Theorem pool_structure (n bytes : N) (ttl : Z) (name : string) (reqs : list (clocks * KvRequest))
    (resps : list KvResponse) (h : HostSlab) (Hn : (n ≤ NIL)%N)
    (Hrun : serve_all reqs {| hs_slots := SlotPool_new n ttl; hs_name := name;
                              hs_slot_bytes := bytes; hs_slot_count := n |} = Some (resps, h)) :
  let p := hs_slots h in
  let walk := lru_walk (length (lru_prev p)) (lru_next p) (lru_head p) in
  (free p ++ (map_to_list (pending p)).*1 ++ (map_to_list (by_slot p)).*1
     ≡ₚ slots_upto (length (lru_prev p)))
  ∧ (∀ s k, by_slot p !! s = Some k ↔ by_hash p !! k = Some s)
  ∧ walk ≡ₚ (map_to_list (by_slot p)).*1
  ∧ lru_walk (length (lru_prev p)) (lru_prev p) (lru_tail p) = reverse walk.
Proof.
  destruct (serve_all_simulates reqs _ _ (host_new_models n ttl name bytes Hn)) as (s' & Hs & Hm).
  rewrite Hrun in Hs. injection Hs as -> <-. destruct Hm as [HL HP]. simpl in HL.
  set (c := (c_serve_all _ reqs _).2) in *. simpl. rewrite (linked_walk _ _ HL).
  pose proof (R_lru _ _ HL) as Hr. rewrite (linked_by_slot_perm _ _ HL).
  rewrite (repr_len_prev _ _ _ Hr), (repr_tail _ _ _ Hr), (R_free _ _ HL), (R_pending _ _ HL).
  split_and!; [done| |done|].
  - intros s k. by rewrite (R_slot _ _ HL), (R_hash _ _ HL).
  - eapply (lru_walk_prefix _ _ []); [by rewrite app_nil_r|].
    rewrite length_fmap. by eapply linked_length.
Qed.

(** Round trip: after a commit that succeeds, a lookup of the key answers
    the committed slot, and the lookup of any other key answers what it
    answered before. *)
Theorem commit_lookup_roundtrip (p p' : SlotPool) (s : N) (k : KeyHash)
    (Hp : pool_ok p) (Hc : commit s k p = Some (true, p')) :
  fst <$> lookup k p' = Some (Some s)
  ∧ ∀ k', k' ≠ k → fst <$> lookup k' p' = fst <$> lookup k' p.
Proof.
  destruct Hp as [c HR]. destruct (commit_ok_binding _ _ _ _ _ HR Hc) as (HR' & Hin & Hother).
  assert (pool_ok p') as Hp' by by eexists.
  split.
  - rewrite lookup_answer by done. f_equal. by apply (R_hash _ _ (proj1 HR')).
  - intros k' Hk. rewrite !lookup_answer by (done || by exists c). f_equal.
    apply option_eq. intros x. rewrite (R_hash _ _ (proj1 HR')), (R_hash _ _ (proj1 HR)). by apply Hother.
Qed.

(** Reservation: it never panics; it hands out, in order, the free slots
    (with the expired reservations reclaimed when they do not suffice) and then
    the bound slots from the least recently used on, as many as asked for while
    there are any.  The slots are distinct, none is still held by a reservation
    that has not expired, and each is reserved and unbound afterwards. *)
Theorem reserve_spec (p : SlotPool) (now : Z) (clock : nat → Z) (count : N) (Hp : pool_ok p) :
  let q := if decide (length (free p) < N.to_nat count) then reclaim_expired now p else p in
  ∃ out p', reserve now clock count p = Some (out, p')
    ∧ out = take (N.to_nat count) (free q ++ lru_walk (length (lru_prev p)) (lru_next p) (lru_head p))
    ∧ NoDup out
    ∧ (∀ s t, pending p !! s = Some t → (now < t)%Z → s ∉ out)
    ∧ (∀ s, s ∈ out → is_Some (pending p' !! s) ∧ by_slot p' !! s = None).
Proof.
  intros q. destruct Hp as [c HR].
  destruct (reserve_start now clock count p c HR) as (c' & HRq & Hlru & Hres & Hlive). fold q in HRq.
  destruct (reserve_simulates now clock count p c HR) as (p' & Hrun & HR').
  rewrite Hres in Hrun, HR'. eexists _, p'. split; [exact Hrun|]. simpl.
  pose proof (c_reserve_loop_pending clock (N.to_nat count) 0 c') as Hpend.
  pose proof (partition_NoDup _ (proj2 HRq)) as Hnd.
  assert ((c_reserve_loop clock (N.to_nat count) 0 c').1
    = take (N.to_nat count) (c_free c' ++ (c_lru c').*1)) as Hout by apply c_reserve_loop_out.
  split_and!.
  - by rewrite Hout, (linked_walk _ _ (proj1 HR)), Hlru, (R_free _ _ (proj1 HRq)).
  - rewrite Hout. apply NoDup_take_part, NoDup_free_lru. apply HRq.
  - intros s t Hs Ht Hin. rewrite Hout in Hin. apply elem_of_take_part, elem_of_app in Hin.
    apply (Hlive s t) in Hs; [|done].
    destruct (pending_elsewhere _ _ _ (proj2 HRq) Hs) as (_ & Hf & Hl). by destruct Hin.
  - intros s Hs. rewrite (R_pending _ _ (proj1 HR')).
    assert (is_Some (c_pending (c_reserve_loop clock (N.to_nat count) 0 c').2 !! s)) as [t Ht] by auto.
    split; [by exists t|]. destruct (pending_elsewhere _ _ _ (proj2 HR') Ht) as (_ & _ & Hl).
    destruct (by_slot p' !! s) as [k|] eqn:Ek; [|done]. apply (R_slot _ _ (proj1 HR')) in Ek.
    destruct Hl. by apply (list_elem_of_fmap_2 fst _ (s, k)).
Qed.

(** A hit protects a key: if a reservation right after a hit takes the
    slot of the hit key, it has taken the slot of every other bound key too. *)
Theorem lookup_protects (p p1 p2 : SlotPool) (k : KeyHash) (s : N) (now : Z) (clock : nat → Z)
    (count : N) (out : list N) (Hp : pool_ok p)
    (Hhit : lookup k p = Some (Some s, p1)) (Hres : reserve now clock count p1 = Some (out, p2))
    (Hin : s ∈ out) :
  ∀ x kx, by_slot p1 !! x = Some kx → x ∈ out.
Proof.
  destruct Hp as [c HR]. destruct (lookup_simulates p c k HR) as (p1' & Hl & HR1).
  rewrite Hhit in Hl. unfold c_lookup in *. rewrite (slot_of_Some _ _ _ (proj1 HR)) in *.
  destruct (by_hash p !! k) as [s'|] eqn:Es; simpl in *; simplify_eq.
  destruct (reserve_simulates now clock count p1' _ HR1) as (p2' & Hr & _).
  rewrite Hres in Hr. injection Hr as -> <-.
  destruct (reserve_start now clock count p1' _ HR1) as (c' & HR' & Hlru & Hstart & _).
  rewrite Hstart, c_reserve_loop_out in *.
  intros x kx Hx%(R_slot _ _ (proj1 HR1))%(list_elem_of_fmap_2 fst).
  pose proof (NoDup_free_lru _ (proj2 HR')) as Hnd. simpl in Hlru, Hx.
  rewrite Hlru in *. unfold most_recent in *. rewrite fmap_app, app_assoc in *. simpl in *.
  rewrite (take_last_whole _ _ _ Hnd Hin). apply elem_of_app in Hx. rewrite !elem_of_app. tauto.
Qed.

(** Attaching to a TCP engine creates the slab on the first request with a
    block size, sizes it to the leased capacity, rounded down but to one block
    at least, and every later attach is answered with that slab, whatever size
    it asks for. *)
Theorem engine_attach (cap sb : N) (ttl : Z) (name : string) (ck : clocks)
    (Hsb : (0 < sb)%N) (Hfit : (cap `div` sb < 2 ^ 32)%N) :
  ∃ e cnt, engine_serve ck (name, Ok tt) (Attach sb) (KvEngine_new_tcp cap ttl)
             = Some (Attached name sb cnt, e)
    ∧ (1 ≤ cnt)%N ∧ (sb ≤ cap → cnt * sb ≤ cap < (cnt + 1) * sb)%N
    ∧ ∀ ck' shm' sb', engine_serve ck' shm' (Attach sb') e = Some (Attached name sb cnt, e).
Proof.
  unfold engine_serve, attach_slab. simpl. rewrite (proj2 (N.ltb_lt 0 sb) Hsb). simpl.
  eexists _, _. split; [done|]. assert (slot_count_for cap sb = N.max (cap `div` sb) 1) as ->.
  { unfold slot_count_for. apply N.mod_small. lia. }
  split_and!; [lia| |].
  - intros Hle. assert (1 ≤ cap `div` sb)%N by (apply N.div_le_lower_bound; lia).
    rewrite N.max_l by done. pose proof (N.Div0.div_mod cap sb).
    pose proof (N.mod_lt cap sb ltac:(lia)).
    generalize dependent (cap `mod` sb)%N. generalize dependent (cap `div` sb)%N. nia.
  - intros ck' shm' sb'. simpl. by rewrite andb_false_r.
Qed.

(** The count of blocks is truncated to 32 bits: when the capacity holds a
    multiple of 2^32 blocks, attach reports a slab without slots and every
    reservation comes back empty. *)
Theorem engine_attach_truncates (q sb : N) (ttl : Z) (name : string) (ck ck' : clocks) (n : N)
    (Hq : (0 < q)%N) (Hsb : (0 < sb)%N) :
  ∃ e, engine_serve ck (name, Ok tt) (Attach sb) (KvEngine_new_tcp (q * 2 ^ 32 * sb) ttl)
         = Some (Attached name sb 0, e)
    ∧ fst <$> engine_serve ck' (name, Ok tt) (Reserve n) e = Some (Reserved []).
Proof.
  unfold engine_serve, attach_slab. simpl. rewrite (proj2 (N.ltb_lt 0 sb) Hsb). simpl.
  assert (slot_count_for (q * 2 ^ 32 * sb) sb = 0%N) as ->.
  { unfold slot_count_for. rewrite N.div_mul by lia. rewrite N.max_l by lia.
    apply (N.Div0.mod_mul q (2 ^ 32)). }
  eexists. split; [done|]. simpl.
  destruct (reserve_simulates (clk_now ck') (clk_loop ck') n _ _ (new_refines 0 ttl ltac:(done)))
    as (p' & -> & _). simpl. unfold c_reserve. rewrite c_reserve_loop_out.
  case_decide; simpl; rewrite ?hash_iter_empty; do 2 f_equal; apply take_nil.
Qed.
End properties.

(** ** Witnesses *)

Lemma slab_history_refines_cache_witness :
  (1 ≤ NIL)%N ∧ ∃ s', serve_all fill2 host2
    = Some ((c_serve_all (Some "/kv", 4096%N, 2%N) fill2 (c_new 2 60)).1, s').
Proof. split; [done|]. apply (slab_history_refines_cache 2 4096 60 "/kv" fill2). done. Defined.

Lemma pool_structure_witness :
  match serve_all fill2 host2 with
  | Some (_, h) => ∀ s k, by_slot (hs_slots h) !! s = Some k ↔ by_hash (hs_slots h) !! k = Some s
  | None => False
  end.
Proof.
  pose proof fill2_run as Hr. destruct (serve_all fill2 host2) as [[resps h]|] eqn:E; [|discriminate Hr].
  eapply (pool_structure 2 4096 60 "/kv" fill2 resps h); [done|exact E].
Defined.

Definition pool2 : SlotPool := hs_slots host2.
Definition reserved2 : SlotPool := default pool2 (snd <$> reserve 0 (λ _, 0%Z) 2 pool2).

Lemma reserved2_ok : pool_ok reserved2.
Proof.
  destruct (reserve_simulates 0 (λ _, 0%Z) 2 pool2 _ (new_refines 2 60 ltac:(done))) as (p' & Hp & HR).
  exists (c_reserve 0 (λ _, 0%Z) 2 (c_new 2 60)).2. unfold reserved2. by rewrite Hp.
Qed.

Lemma commit_lookup_roundtrip_witness :
  match commit 1 (key x07) reserved2 with
  | Some (true, p') => fst <$> lookup (key x07) p' = Some (Some 1%N)
  | _ => False
  end.
Proof.
  assert (fst <$> commit 1 (key x07) reserved2 = Some true) as Hb by (vm_compute; reflexivity).
  destruct (commit 1 (key x07) reserved2) as [[[] p']|] eqn:E; [|discriminate Hb..].
  by apply (commit_lookup_roundtrip reserved2 p' 1 (key x07) reserved2_ok E).
Defined.

Lemma reserve_spec_witness :
  ∃ out p', reserve 100 (λ _, 100%Z) 1 reserved2 = Some (out, p') ∧ NoDup out ∧ length out = 1.
Proof.
  destruct (reserve_spec reserved2 100 (λ _, 100%Z) 1 reserved2_ok)
    as (out & p' & Hr & Hout & Hnd & _).
  exists out, p'. split; [done|]. split; [done|]. rewrite Hout. by vm_compute.
Defined.

Definition bound2 : SlotPool :=
  default pool2 (commit_bytes [(0%N, key x01); (1%N, key x02)] reserved2).

Lemma bound2_ok : pool_ok bound2.
Proof.
  destruct reserved2_ok as [c HR].
  destruct (commit_bytes_simulates [(0%N, key x01); (1%N, key x02)] _ _ HR) as (p' & Hp & HR').
  unfold bound2. rewrite Hp. by eexists.
Qed.

Definition hit_then_reserve : option (option N * list N) :=
  '(r, p1) ← lookup (key x01) bound2;
  '(out, p2) ← reserve 5 (λ _, 5%Z) 2 p1;
  Some (r, out).

Lemma lookup_protects_witness :
  match lookup (key x01) bound2 with
  | Some (Some 0%N, p1) =>
      match reserve 5 (λ _, 5%Z) 2 p1 with
      | Some (out, _) => ∀ x kx, by_slot p1 !! x = Some kx → x ∈ out
      | None => False
      end
  | _ => False
  end.
Proof.
  assert (hit_then_reserve = Some (Some 0%N, [1%N; 0%N])) as Hr by (vm_compute; reflexivity).
  unfold hit_then_reserve in Hr.
  destruct (lookup (key x01) bound2) as [[[[|s]|] p1]|] eqn:E; simpl in Hr;
    try (destruct (reserve 5 (λ _, 5%Z) 2 p1) as [[out p2]|] eqn:E2); simpl in Hr; try discriminate Hr.
  injection Hr as ->.
  apply (lookup_protects bound2 p1 p2 (key x01) 0 5 (λ _, 5%Z) 2 _ bound2_ok E E2). right. left.
Defined.

Lemma engine_attach_witness : ∃ e cnt,
  engine_serve (tick 0) ("/kv", Ok tt) (Attach 4096) (KvEngine_new_tcp 65536 60)
    = Some (Attached "/kv" 4096 cnt, e) ∧ (1 ≤ cnt)%N.
Proof.
  destruct (engine_attach 65536 4096 60 "/kv" (tick 0)) as (e & cnt & He & Hc & _); [done..|].
  by exists e, cnt.
Defined.

Lemma engine_attach_truncates_witness : ∃ e,
  engine_serve (tick 0) ("/kv", Ok tt) (Attach 4096) (KvEngine_new_tcp (1 * 2 ^ 32 * 4096) 60)
    = Some (Attached "/kv" 4096 0, e).
Proof.
  destruct (engine_attach_truncates 1 4096 60 "/kv" (tick 0) (tick 0) 3) as (e & He & _); [done..|].
  by exists e.
Defined.
