(* ===== verification/KvClient.v ===== *)
(** * The KV client library

    [openlake_kv_client]: [client.rs] (the batch interface that shards the keys
    over the attached nodes), [transport.rs] (what it expects of a transport) and
    [shm_local.rs] (the transport that copies through the slab mapped into the
    process and talks to the server over HTTP).

    Client memory and the mapped slabs are one address space of bytes; a copy
    writes it.  Sockets, the RPC codec, [mmap] and [xxh64] are parameters.  [None]
    is a panic or an access outside a slice. *)

From stdpp Require Import base numbers gmap strings list pretty.
From S2P Require Import Prelude Text Kv.

Definition CLIENT_NODE_ID_BASE : Z := 2048.
Definition CLIENT_NODE_ID_MAX : Z := 4095.

(** [(address, length)] pairs. *)
Definition Scatter : Type := list (Z * Z).

(** ** What the client expects of a transport *)

Class Protocol (W : Type) := {
  Waiter : Type;
  p_attach : string → Z → Z → W → option (result string Z * W);
  p_register_memory : Z → Z → W → option (result string unit * W);
  p_exists : Z → list bytes → W → option (result string Waiter * W);
  p_put : Z → list bytes → list Scatter → W → option (result string Waiter * W);
  p_get : Z → list bytes → list Scatter → W → option (result string Waiter * W);
  p_reset : Z → W → option (result string unit * W);
  p_close : W → W;
  (** [recv] on the waiter; [None] inside is a sender that is gone. *)
  p_recv : Waiter → W → option (option (result string (list Z)) * W)
}.

(** ** The sharding client *)

Record StoreClient := { sc_nodes : list Z; sc_client_id : Z }.

Definition StoreClient_new (client_id : Z) : result string StoreClient :=
  if decide (CLIENT_NODE_ID_BASE ≤ client_id ≤ CLIENT_NODE_ID_MAX)%Z
  then Ok {| sc_nodes := []; sc_client_id := client_id |}
  else Err ("client_id " +:+ pretty client_id +:+ " outside [2048, 4095]").

Section client.
Context (xxh64 : bytes → N).
Context {W : Type} `{!Protocol W}.

Definition owner_index (n : nat) (key : bytes) : nat := N.to_nat (xxh64 key `mod` N.of_nat n).
(** The positions of the keys of each node, in order. *)
Definition owners (c : StoreClient) (keys : list bytes) : result string (list Z * list (list nat)) :=
  if decide (sc_nodes c = []) then Err "no nodes attached"
  else let n := length (sc_nodes c) in
       Ok (sc_nodes c, foldl (λ groups ik, alter (λ g, g ++ [ik.1]) (owner_index n ik.2) groups) (replicate n [])
                         (imap pair keys)).

(** The operations, started node by node. *)
Fixpoint start_all (op : Z → list bytes → list Scatter → W → option (result string Waiter * W))
    (keys : list bytes) (scatters : option (list Scatter)) (work : list (Z * list nat)) (w : W) :
    option (result string (list (Z * list nat * Waiter)) * W) :=
  match work with
  | [] => Some (Ok [], w)
  | (node, idxs) :: work =>
      if decide (idxs = []) then start_all op keys scatters work w
      else
        node_keys ← mapM (λ i, keys !! i) idxs;
        node_scatters ← match scatters with Some s => mapM (λ i, s !! i) idxs | None => Some [] end;
        '(r, w) ← op node node_keys node_scatters w;
        match r with
        | Err e => Some (Err e, w)
        | Ok wait =>
            '(r, w) ← start_all op keys scatters work w;
            Some (match r with Ok pending => Ok ((node, idxs, wait) :: pending) | Err e => Err e end, w)
        end
  end.

(** The answers, in the same order; the first error is kept while the rest is
    still received. *)
Fixpoint recv_all (pending : list (Z * list nat * Waiter)) (out : list Z) (first_err : option string) (w : W) :
    option (result string (list Z) * W) :=
  match pending with
  | [] => Some (match first_err with Some e => Err e | None => Ok out end, w)
  | (node, idxs, wait) :: pending =>
      '(r, w) ← p_recv wait w;
      match r with
      | None => Some (Err "client thread died", w)
      | Some (Ok results) =>
          if decide (length results = length idxs)
          then recv_all pending (foldl (λ out ir, <[ir.1 := ir.2]> out) out (zip idxs results)) first_err w
          else recv_all pending out
                 (Some (default ("node " +:+ pretty node +:+ ": " +:+ pretty (length results) +:+ " results for "
                                 +:+ pretty (length idxs) +:+ " keys") first_err)) w
      | Some (Err e) => recv_all pending out (Some (default e first_err)) w
      end
  end.

Definition sharded (c : StoreClient) (keys : list bytes) (scatters : option (list Scatter))
    (op : Z → list bytes → list Scatter → W → option (result string Waiter * W)) (w : W) :
    option (result string (list Z) * W) :=
  match owners c keys with
  | Err e => Some (Err e, w)
  | Ok (nodes, groups) =>
      '(r, w) ← start_all op keys scatters (zip nodes groups) w;
      match r with
      | Err e => Some (Err e, w)
      | Ok pending => recv_all pending (replicate (length keys) 0%Z) None w
      end
  end.

Definition zip_scatters (addrs sizes : list (list Z)) : list Scatter := zip_with (λ a s, zip a s) addrs sizes.

Definition validate (keys : list bytes) (addrs sizes : list (list Z)) : result string unit :=
  if decide (length keys ≠ length addrs ∨ length addrs ≠ length sizes)
  then Err ("mismatched batch: " +:+ pretty (length keys) +:+ " keys, " +:+ pretty (length addrs) +:+ " addr lists, "
            +:+ pretty (length sizes) +:+ " size lists")
  else match list_find (λ a_s : list Z * list Z, length a_s.1 ≠ length a_s.2) (zip addrs sizes) with
       | Some (i, (a, s)) => Err ("key " +:+ pretty i +:+ ": " +:+ pretty (length a) +:+ " addrs but "
                                  +:+ pretty (length s) +:+ " sizes")
       | None => Ok ()
       end.

Definition client_attach (addr : string) (node_id slot_bytes : Z) (c : StoreClient) (w : W) :
    option (result string Z * StoreClient * W) :=
  '(r, w) ← p_attach addr node_id slot_bytes w;
  Some (r, match r with
           | Ok _ => if decide (node_id ∈ sc_nodes c) then c
                     else {| sc_nodes := sc_nodes c ++ [node_id]; sc_client_id := sc_client_id c |}
           | Err _ => c
           end, w).
Definition batch_is_exist (c : StoreClient) (keys : list bytes) (w : W) : option (result string (list Z) * W) :=
  sharded c keys None (λ node ks _, p_exists node ks) w.
Definition put_batch (c : StoreClient) (keys : list bytes) (addrs sizes : list (list Z)) (w : W) :
    option (result string (list Z) * W) :=
  match validate keys addrs sizes with
  | Err e => Some (Err e, w)
  | Ok _ => sharded c keys (Some (zip_scatters addrs sizes)) p_put w
  end.
Definition get_batch (c : StoreClient) (keys : list bytes) (addrs sizes : list (list Z)) (w : W) :
    option (result string (list Z) * W) :=
  match validate keys addrs sizes with
  | Err e => Some (Err e, w)
  | Ok _ => sharded c keys (Some (zip_scatters addrs sizes)) p_get w
  end.
Fixpoint reset_nodes (nodes : list Z) (w : W) : option (result string unit * W) :=
  match nodes with
  | [] => Some (Ok (), w)
  | node :: nodes =>
      '(r, w) ← p_reset node w;
      match r with Err e => Some (Err e, w) | Ok _ => reset_nodes nodes w end
  end.
Definition client_reset (c : StoreClient) (w : W) : option (result string unit * W) := reset_nodes (sc_nodes c) w.
End client.

(** ** Memory *)

Definition Mem : Type := Z → byte.
(** [copy_nonoverlapping], and a read of a slice. *)
Definition copy (dst src len : Z) (m : Mem) : Mem :=
  λ a, if decide (dst ≤ a < dst + len)%Z then m (src + (a - dst))%Z else m a.
Definition poke (dst : Z) (bs : bytes) (m : Mem) : Mem :=
  λ a, if decide (dst ≤ a < dst + Z.of_nat (length bs))%Z then default x00 (bs !! Z.to_nat (a - dst)) else m a.
Definition peek (src : Z) (len : nat) (m : Mem) : bytes := (λ i, m (src + Z.of_nat i)%Z) <$> seq 0 len.

(** ** The shared-memory transport *)

Definition HDR : nat := 54.

Record ShmNode := { sn_base : Z; sn_slot_bytes : Z; sn_span : Z; sn_addr : string }.
Record Shm (W : Type) := { shm_nodes : gmap Z ShmNode; shm_mem : Mem; shm_net : W }.
Arguments shm_nodes {W} _.
Arguments shm_mem {W} _.
Arguments shm_net {W} _.
Definition set_shm_nodes {W} (x : gmap Z ShmNode) (s : Shm W) : Shm W :=
  {| shm_nodes := x; shm_mem := shm_mem s; shm_net := shm_net s |}.
Definition set_shm_mem {W} (x : Mem) (s : Shm W) : Shm W := {| shm_nodes := shm_nodes s; shm_mem := x; shm_net := shm_net s |}.
Definition set_shm_net {W} (x : W) (s : Shm W) : Shm W := {| shm_nodes := shm_nodes s; shm_mem := shm_mem s; shm_net := x |}.

(** *** Calls over HTTP *)

Definition CRLF : bytes := [x0d; x0a].
Definition http_head (path addr : string) (body : bytes) : bytes :=
  str_bytes ("POST " +:+ path +:+ " HTTP/1.1") ++ CRLF ++ str_bytes ("host: " +:+ addr) ++ CRLF
  ++ str_bytes "content-type: application/octet-stream" ++ CRLF
  ++ str_bytes ("content-length: " +:+ pretty (length body)) ++ CRLF ++ str_bytes "connection: close" ++ CRLF ++ CRLF.
(** [windows(n).position(|w| w == pat)]. *)
Fixpoint find_window (pat l : bytes) : option nat :=
  if decide (take (length pat) l = pat ∧ length pat ≤ length l) then Some 0
  else match l with [] => None | _ :: l => S <$> find_window pat l end.
(** The body of the raw response. *)
Definition http_body (from_utf8 : bytes → option string) (addr : string) (raw : bytes) : result string bytes :=
  split ← ok_or (find_window (CRLF ++ CRLF) raw) (addr +:+ ": response has no header terminator");
  let line := match list_find (λ b, b = x0d) (take split raw) with Some (i, _) => take i raw | None => take split raw end in
  let status := default "" (from_utf8 line) in
  if contains " 200 " status then Ok (drop (split + 4) raw) else Err (addr +:+ ": http status " +:+ quoted status).

Section http.
Context {W : Type} (encode : KvRequest → result string bytes) (decode : bytes → result string KvResponse).
Context (from_utf8 : bytes → option string).
(** A connection: what is written, and all that is read back. *)
Context (exchange : string → bytes → W → result string bytes * W).

Definition post (path addr : string) (body : bytes) (w : W) : result string bytes * W :=
  let '(r, w) := exchange addr (http_head path addr body ++ body) w in
  (raw ← r; http_body from_utf8 addr raw, w).
Definition call (addr : string) (req : KvRequest) (w : W) : result string KvResponse * W :=
  match encode req with
  | Err e => (Err e, w)
  | Ok body =>
      let '(r, w) := post "/v1/kv" addr body w in
      (raw ← r;
       resp ← decode raw;
       match resp with KvErr why => Err why | resp => Ok resp end, w)
  end.
End http.

(** *** The operations *)

Section shm.
Context {W : Type} (call : string → KvRequest → W → option (result string KvResponse * W)).
(** [shm::open_map]: the address the segment is mapped at. *)
Context (open_map : string → Z → result string Z) (show : KvResponse → string).

Definition on_node (node : Z) (s : Shm W) : result string ShmNode :=
  ok_or (shm_nodes s !! node) ("node " +:+ pretty node +:+ " not attached").
Definition node_call (n : ShmNode) (req : KvRequest) (s : Shm W) : option (result string KvResponse * Shm W) :=
  '(r, w) ← call (sn_addr n) req (shm_net s);
  Some (r, set_shm_net w s).

Definition shm_attach (addr : string) (node_id slot_bytes : Z) (s : Shm W) : option (result string Z * Shm W) :=
  '(r, w) ← call addr (Attach (Z.to_N slot_bytes)) (shm_net s);
  let s := set_shm_net w s in
  Some match r with
       | Err e => (Err e, s)
       | Ok (Attached name slot_bytes slot_count) =>
           if decide (slot_bytes = 0%N) then
             (Ok (Z.of_N slot_count),
              set_shm_nodes (<[node_id := {| sn_base := 0; sn_slot_bytes := 0; sn_span := 0; sn_addr := addr |}]> (shm_nodes s)) s)
           else
             let span := (Z.of_N slot_bytes * Z.of_N slot_count)%Z in
             match open_map name span with
             | Err e => (Err ("map " +:+ name +:+ ": " +:+ e), s)
             | Ok base =>
                 (Ok (Z.of_N slot_count),
                  set_shm_nodes (<[node_id := {| sn_base := base; sn_slot_bytes := Z.of_N slot_bytes; sn_span := span; sn_addr := addr |}]>
                                   (shm_nodes s)) s)
             end
       | Ok other => (Err ("attach: " +:+ show other), s)
       end.

Definition slot_addr (n : ShmNode) (slot : N) : Z := (sn_base n + Z.of_N slot * sn_slot_bytes n)%Z.

(** The strips of one value, into a slot and out of it. *)
Fixpoint gather (dst : Z) (scatter : Scatter) (m : Mem) : Mem :=
  match scatter with
  | [] => m
  | (addr, len) :: scatter => gather (dst + len) scatter (copy dst addr len m)
  end.
Fixpoint spread (src : Z) (scatter : Scatter) (m : Mem) : Mem :=
  match scatter with
  | [] => m
  | (addr, len) :: scatter => spread (src + len) scatter (copy addr src len m)
  end.

(** [copy_nonoverlapping(key.as_ptr(), dst, HDR)] reads past a shorter key. *)
Fixpoint put_loop (n : ShmNode) (i : nat) (keys : list bytes) (slots : list N) (scatters : list Scatter) (m : Mem) : option Mem :=
  match keys with
  | [] => Some m
  | key :: keys =>
      slot ← slots !! i;
      scatter ← scatters !! i;
      if decide (HDR ≤ length key) then
        let dst := slot_addr n slot in
        put_loop n (S i) keys slots scatters (gather (dst + Z.of_nat HDR) scatter (poke dst (take HDR key) m))
      else None
  end.

Definition shm_put (node : Z) (keys : list bytes) (scatters : list Scatter) (s : Shm W) :
    option (result string (result string (list Z)) * Shm W) :=
  match on_node node s with
  | Err e => Some (Err e, s)
  | Ok n =>
      '(r, s) ← node_call n (Reserve (N.of_nat (length keys) `mod` 2 ^ 32)) s;
      match r with
      | Err e => Some (Err e, s)
      | Ok (Reserved slots) =>
          if decide (length slots < length keys) then
            '(_, s) ← node_call n (Release slots) s;
            Some (Err ("store full: reserved " +:+ pretty (length slots) +:+ " of " +:+ pretty (length keys)), s)
          else
            m ← put_loop n 0 keys slots scatters (shm_mem s);
            '(r, s) ← node_call n (Commit (zip slots keys)) (set_shm_mem m s);
            Some (match r with
                  | Err e => Err e
                  | Ok KvOk => Ok (Ok (replicate (length keys) 0%Z))
                  | Ok other => Err ("commit: " +:+ show other)
                  end, s)
      | Ok other => Some (Err ("reserve: " +:+ show other), s)
      end
  end.

(** [out[i] = -1] and [keys[i][..HDR]] panic out of range. *)
Fixpoint get_loop (n : ShmNode) (i : nat) (slots : list (option N)) (keys : list bytes) (scatters : list Scatter) (out : list Z) (m : Mem) :
    option (list Z * Mem) :=
  match slots with
  | [] => Some (out, m)
  | None :: slots =>
      if decide (i < length out) then get_loop n (S i) slots keys scatters (<[i := (-1)%Z]> out) m else None
  | Some slot :: slots =>
      key ← keys !! i;
      if decide (HDR ≤ length key) then
        let src := slot_addr n slot in
        if decide (peek src HDR m ≠ take HDR key) then
          if decide (i < length out) then get_loop n (S i) slots keys scatters (<[i := (-1)%Z]> out) m else None
        else
          scatter ← scatters !! i;
          get_loop n (S i) slots keys scatters out (spread (src + Z.of_nat HDR) scatter m)
      else None
  end.

Definition shm_get (node : Z) (keys : list bytes) (scatters : list Scatter) (s : Shm W) :
    option (result string (result string (list Z)) * Shm W) :=
  match on_node node s with
  | Err e => Some (Err e, s)
  | Ok n =>
      '(r, s) ← node_call n (Lookup keys) s;
      match r with
      | Err e => Some (Err e, s)
      | Ok (Looked slots) =>
          '(out, m) ← get_loop n 0 slots keys scatters (replicate (length keys) 0%Z) (shm_mem s);
          Some (Ok (Ok out), set_shm_mem m s)
      | Ok other => Some (Err ("lookup: " +:+ show other), s)
      end
  end.

Definition shm_exists (node : Z) (keys : list bytes) (s : Shm W) : option (result string (result string (list Z)) * Shm W) :=
  match on_node node s with
  | Err e => Some (Err e, s)
  | Ok n =>
      '(r, s) ← node_call n (Lookup keys) s;
      Some (match r with
            | Err e => Err e
            | Ok (Looked slots) => Ok (Ok ((λ o, if o is Some _ then 1%Z else 0%Z) <$> slots))
            | Ok other => Err ("lookup: " +:+ show other)
            end, s)
  end.

Definition shm_reset (node : Z) (s : Shm W) : option (result string unit * Shm W) :=
  match on_node node s with
  | Err e => Some (Err e, s)
  | Ok n =>
      '(r, s) ← node_call n Reset s;
      Some (match r with Err e => Err e | Ok KvOk => Ok () | Ok other => Err ("reset: " +:+ show other) end, s)
  end.

Definition shm_close (s : Shm W) : Shm W := set_shm_nodes ∅ s.

#[global] Instance ShmLocalProtocol : Protocol (Shm W) := {|
  Waiter := result string (list Z);
  p_attach := shm_attach;
  p_register_memory _ _ s := Some (Ok (), s);
  p_exists := shm_exists; p_put := shm_put; p_get := shm_get; p_reset := shm_reset; p_close := shm_close;
  p_recv r s := Some (Some r, s)
|}.
End shm.

(** ** Lemmas: sharding *)

(** An operation of a transport that answers every key by itself, whatever
    happens in between ([Inv]); [promised] ties a waiter to its answers. *)
Class Answering {W} `{!Protocol W} (op : Z → list bytes → list Scatter → W → option (result string Waiter * W))
    (attached : Z → Prop) (answer : Z → bytes → Z) (Inv : W → Prop) (promised : Waiter → list Z → Prop) := {
  an_start node ks scs w : attached node → Inv w →
    ∃ wait w', op node ks scs w = Some (Ok wait, w') ∧ Inv w' ∧ promised wait (answer node <$> ks);
  an_recv wait rs w : promised wait rs → Inv w → ∃ w', p_recv wait w = Some (Some (Ok rs), w') ∧ Inv w'
}.

Section sharding.
Context (xxh64 : bytes → N).

Lemma owners_groups n (keys : list bytes) : 0 < n →
  let groups := foldl (λ groups ik, alter (λ g, g ++ [ik.1]) (owner_index xxh64 n ik.2) groups) (replicate n []) (imap pair keys) in
  length groups = n
  ∧ ∀ g, g < n → ∃ idxs, groups !! g = Some idxs ∧ ∀ i, i ∈ idxs ↔ ∃ k, keys !! i = Some k ∧ owner_index xxh64 n k = g.
Proof.
  intros Hn. induction keys as [|k keys IH] using rev_ind; cbn zeta.
  - cbn [imap foldl]. split; [by rewrite length_replicate|]. intros g Hg. exists []. split; [by apply lookup_replicate_2|].
    intros i. rewrite elem_of_nil. split; [done|]. by intros (k & ? & _).
  - cbn zeta in IH. rewrite imap_app, foldl_app. cbn [imap foldl]. rewrite Nat.add_0_r. cbn [fst snd].
    set (gs := foldl _ _ (imap pair keys)) in *. destruct IH as [Hl IH]. split; [by rewrite length_alter|]. intros g Hg.
    destruct (IH g Hg) as (idxs & Hidx & Hin).
    assert (∀ i, (∃ k0, (keys ++ [k]) !! i = Some k0 ∧ owner_index xxh64 n k0 = g)
                 ↔ i ∈ idxs ∨ (i = length keys ∧ owner_index xxh64 n k = g)) as Hall.
    { intros i. rewrite Hin. split.
      - intros (k0 & [Hk|[Hi Hk]]%lookup_app_Some & Ho); [left; by exists k0|]. right. destruct (i - length keys) as [|j] eqn:E; [|done].
        injection Hk as <-. split; [lia|done].
      - intros [(k0 & Hk & Ho)|[-> Ho]]; [exists k0; split; [by apply lookup_app_l_Some|done]|]. exists k. split; [|done].
        by apply list_lookup_middle. }
    destruct (decide (g = owner_index xxh64 n k)) as [->|Hne].
    + rewrite list_lookup_alter_eq, Hidx. exists (idxs ++ [length keys]). split; [done|]. intros i.
      rewrite Hall, elem_of_app, list_elem_of_singleton. naive_solver.
    + rewrite list_lookup_alter_ne by done. exists idxs. split; [done|]. intros i. rewrite Hall. naive_solver.
Qed.

(** Writing the same function of the position keeps what was written. *)
Lemma write_results (v : nat → Z) idxs (out : list Z) :
  let out' := foldl (λ out ir, <[ir.1 := ir.2]> out) out (zip idxs (v <$> idxs)) in
  length out' = length out ∧ ∀ i, i < length out → (out' !! i = Some (v i)) ∨ (i ∉ idxs ∧ out' !! i = out !! i).
Proof.
  revert out. induction idxs as [|j idxs IH]; intros out; cbn.
  - split; [done|]. intros i Hi. right. split; [|done]. by intros ?%elem_of_nil.
  - destruct (IH (<[j := v j]> out)) as [Hl Hw]. rewrite length_insert in *. split; [done|]. intros i Hi.
    destruct (Hw i Hi) as [Hv|[Hni Hv]]; [by left|]. destruct (decide (i = j)) as [->|Hij].
    + left. by rewrite Hv, list_lookup_insert_eq.
    + right. rewrite not_elem_of_cons. split; [done|]. by rewrite Hv, list_lookup_insert_ne.
Qed.

Context {W : Type} `{!Protocol W} (op : Z → list bytes → list Scatter → W → option (result string Waiter * W)).
Context (attached : Z → Prop) (answer : Z → bytes → Z) (Inv : W → Prop) (promised : Waiter → list Z → Prop).
Context `{!Answering op attached answer Inv promised}.

Definition pending_ok (keys : list bytes) (p : Z * list nat * Waiter) : Prop :=
  ∃ ks, mapM (λ i, keys !! i) p.1.2 = Some ks ∧ promised p.2 (answer p.1.1 <$> ks).

Lemma mapM_in {A} (l : list A) idxs : (∀ i, i ∈ idxs → i < length l) → ∃ xs, mapM (λ i, l !! i) idxs = Some xs.
Proof.
  induction idxs as [|i idxs IH]; intros Hi; [by exists []|]. destruct (lookup_lt_is_Some_2 l i) as [x Hx]; [apply Hi; left|].
  destruct IH as [xs Hxs]; [intros j Hj; apply Hi; by right|]. exists (x :: xs). cbn. by rewrite Hx, Hxs.
Qed.

Lemma start_all_ok keys scatters work w :
  (∀ s, scatters = Some s → length s = length keys) →
  (∀ node idxs, (node, idxs) ∈ work → attached node ∧ ∀ i, i ∈ idxs → i < length keys) → Inv w →
  ∃ pending w', start_all op keys scatters work w = Some (Ok pending, w') ∧ Inv w'
    ∧ Forall (pending_ok keys) pending ∧ pending.*1 = filter (λ x, x.2 ≠ []) work.
Proof.
  intros Hsc. revert w. induction work as [|[node idxs] work IH]; intros w Hwork Hw.
  { exists [], w. split_and!; [done|done|constructor|done]. }
  assert (∀ n l, (n, l) ∈ work → attached n ∧ ∀ i, i ∈ l → i < length keys) as Hwork' by (intros n l Hn; apply Hwork; by right).
  destruct (Hwork node idxs) as [Hat Hidx]; [left|]. cbn [start_all]. rewrite filter_cons. cbn [snd].
  destruct (decide (idxs = [])) as [->|Hne]; [rewrite decide_False by (by intros H; apply H); by apply IH|].
  rewrite decide_True by done. destruct (mapM_in keys idxs Hidx) as [ks Hks]. rewrite Hks. cbn [mbind option_bind].
  assert (∃ scs, match scatters with Some s => mapM (λ i, s !! i) idxs | None => Some [] end = Some scs) as [scs Hscs].
  { destruct scatters as [s|]; [|by exists []]. apply mapM_in. rewrite (Hsc s eq_refl). done. }
  rewrite Hscs. cbn [mbind option_bind]. destruct (an_start node ks scs w Hat Hw) as (wait & w1 & -> & Hw1 & Hp).
  cbn [mbind option_bind]. destruct (IH w1 Hwork' Hw1) as (pending & w2 & -> & Hw2 & Hf & Hfst). cbn [mbind option_bind].
  exists ((node, idxs, wait) :: pending), w2. split_and!; [done|done| |cbn; by rewrite Hfst].
  constructor; [|done]. exists ks. done.
Qed.

Lemma recv_all_ok (v : nat → Z) keys pending out w :
  Forall (pending_ok keys) pending →
  (∀ p i k, p ∈ pending → i ∈ p.1.2 → keys !! i = Some k → answer p.1.1 k = v i) → Inv w →
  ∃ out' w', recv_all pending out None w = Some (Ok out', w') ∧ Inv w' ∧ length out' = length out
    ∧ ∀ i, i < length out → (∃ p, p ∈ pending ∧ i ∈ p.1.2) ∨ out !! i = Some (v i) → out' !! i = Some (v i).
Proof.
  intros Hf. revert out w. induction Hf as [|[[node idxs] wait] pending (ks & Hks & Hp) _ IH]; intros out w Hv Hw.
  { exists out, w. split_and!; [done..|]. intros i Hi [(p & Hp & _)|?]; [by apply elem_of_nil in Hp|done]. }
  cbn [fst snd] in Hks, Hp. cbn [recv_all]. destruct (an_recv wait _ w Hp Hw) as (w1 & -> & Hw1). cbn [mbind option_bind fst snd] in *.
  assert (answer node <$> ks = v <$> idxs) as ->.
  { apply mapM_Some in Hks. assert (∀ i k, i ∈ idxs → keys !! i = Some k → answer node k = v i) as Hn
      by (intros i k Hi; apply (Hv (node, idxs, wait) i k); [left|done]).
    clear Hp Hv IH. induction Hks as [|i k idxs ks Hk _ IHk]; [done|]. cbn. f_equal; [apply Hn; [left|done]|].
    apply IHk. intros j k' Hj. apply Hn. by right. }
  rewrite length_fmap, decide_True by done. destruct (write_results v idxs out) as [Hl Hwr].
  destruct (IH (foldl (λ out ir, <[ir.1 := ir.2]> out) out (zip idxs (v <$> idxs))) w1) as (out' & w2 & Hr & Hw2 & Hl2 & Hout);
    [intros p i k Hpp; apply Hv; by right|done|].
  exists out', w2. split_and!; [done|done|by rewrite Hl2|]. intros i Hi Hcase. apply Hout; [by rewrite Hl|].
  destruct (Hwr i Hi) as [Hvi|[Hni Hsame]]; [by right|]. destruct Hcase as [(p & [->|Hpp]%elem_of_cons & Hip)|Ho].
  - done.
  - left. by exists p.
  - right. by rewrite Hsame.
Qed.

Lemma sharded_ok c keys scatters w :
  sc_nodes c ≠ [] → (∀ node, node ∈ sc_nodes c → attached node) → (∀ s, scatters = Some s → length s = length keys) → Inv w →
  ∃ out w', sharded xxh64 c keys scatters op w = Some (Ok out, w') ∧ Inv w' ∧ length out = length keys
    ∧ ∀ i k, keys !! i = Some k → ∃ node, sc_nodes c !! owner_index xxh64 (length (sc_nodes c)) k = Some node
        ∧ out !! i = Some (answer node k).
Proof.
  intros Hn Hat Hsc Hw. unfold sharded, owners. rewrite decide_False by done.
  set (n := length (sc_nodes c)). assert (0 < n) as Hpos by (unfold n; destruct (sc_nodes c); [done|cbn; lia]).
  destruct (owners_groups n keys Hpos) as [Hlen Hgroups]. cbn zeta in Hlen, Hgroups. set (groups := foldl _ _ _) in *.
  assert (∀ k, owner_index xxh64 n k < n) as Hown.
  { intros k. unfold owner_index. pose proof (N.mod_lt (xxh64 k) (N.of_nat n)). lia. }
  assert (∀ node idxs, (node, idxs) ∈ zip (sc_nodes c) groups → ∃ g, sc_nodes c !! g = Some node ∧ groups !! g = Some idxs ∧ g < n) as Hz.
  { intros node idxs [g Hg]%list_elem_of_lookup_1. apply lookup_zip_with_Some in Hg as (x & y & [= -> ->] & Hx & Hy).
    exists g. split_and!; [done|done|]. by apply lookup_lt_Some in Hx. }
  destruct (start_all_ok keys scatters (zip (sc_nodes c) groups) w Hsc) as (pending & w1 & -> & Hw1 & Hf & Hfst); [|done|].
  { intros node idxs (g & Hnode & Hg & Hlt)%Hz. split; [apply Hat; by eapply list_elem_of_lookup_2|].
    destruct (Hgroups g Hlt) as (idxs' & Hg' & Hin). rewrite Hg in Hg'. injection Hg' as <-. intros i Hi.
    apply Hin in Hi as (k & Hk & _). by apply lookup_lt_Some in Hk. }
  cbn [mbind option_bind].
  set (v := λ i, match keys !! i with
                 | Some k => match sc_nodes c !! owner_index xxh64 n k with Some node => answer node k | None => 0%Z end
                 | None => 0%Z end).
  destruct (recv_all_ok v keys pending (replicate (length keys) 0%Z) w1 Hf) as (out & w2 & -> & Hw2 & Hl & Hout); [|done|].
  { intros [[node idxs] wait] i k Hp Hi Hk. cbn in *. assert ((node, idxs) ∈ pending.*1) as Hin by (by apply (list_elem_of_fmap_2 fst) in Hp).
    rewrite Hfst in Hin. apply list_elem_of_filter in Hin as [_ (g & Hnode & Hg & Hlt)%Hz].
    destruct (Hgroups g Hlt) as (idxs' & Hg' & Hin). rewrite Hg in Hg'. injection Hg' as <-.
    apply Hin in Hi as (k' & Hk' & <-). unfold v. rewrite Hk in *. injection Hk' as <-. by rewrite Hnode. }
  rewrite length_replicate in *. exists out, w2. split_and!; [done|done|done|]. intros i k Hk.
  destruct (lookup_lt_is_Some_2 (sc_nodes c) (owner_index xxh64 n k)) as [node Hnode]; [apply Hown|]. exists node. split; [done|].
  rewrite (Hout i); [unfold v; by rewrite Hk, Hnode|by eapply lookup_lt_Some|]. left.
  destruct (Hgroups _ (Hown k)) as (idxs & Hg & Hin). assert (i ∈ idxs) as Hi by (apply Hin; by exists k).
  assert ((node, idxs) ∈ pending.*1) as Hmem.
  { rewrite Hfst. apply list_elem_of_filter. split; [by intros E; cbn in E; subst; apply elem_of_nil in Hi|].
    apply list_elem_of_lookup. exists (owner_index xxh64 n k). apply lookup_zip_with_Some. by exists node, idxs. }
  apply list_elem_of_fmap in Hmem as ([[node' idxs'] wait] & [= <- <-] & Hp). by exists (node, idxs, wait).
Qed.
End sharding.

(** ** Lemmas: memory *)

Definition total (sc : Scatter) : Z := foldr Z.add 0%Z sc.*2.
Definition value (sc : Scatter) (m : Mem) : bytes := concat ((λ al : Z * Z, peek al.1 (Z.to_nat al.2) m) <$> sc).
(** The strips lie outside [lo .. hi). *)
Definition away (lo hi : Z) (sc : Scatter) : Prop := Forall (λ al : Z * Z, (al.1 + al.2 ≤ lo ∨ hi ≤ al.1)%Z) sc.
Definition lens_ok (sc : Scatter) : Prop := Forall (λ al : Z * Z, (0 ≤ al.2)%Z) sc.
Definition in_strip (a : Z) (al : Z * Z) : Prop := (al.1 ≤ a < al.1 + al.2)%Z.
(** No byte is in two strips. *)
Fixpoint disjoint_strips (sc : Scatter) : Prop :=
  match sc with [] => True | al :: sc => away al.1 (al.1 + al.2) sc ∧ disjoint_strips sc end.

Lemma peek_ext a n m m' : (∀ x, (a ≤ x < a + Z.of_nat n)%Z → m x = m' x) → peek a n m = peek a n m'.
Proof.
  intros H. unfold peek. apply list_fmap_ext. intros i x [-> Hi]%lookup_seq. apply H. lia.
Qed.
Lemma peek_length a n m : length (peek a n m) = n.
Proof. unfold peek. by rewrite length_fmap, length_seq. Qed.
Lemma peek_app a n k m : peek a (n + k) m = peek a n m ++ peek (a + Z.of_nat n) k m.
Proof.
  unfold peek. rewrite seq_app, fmap_app. f_equal. apply list_eq. intros i.
  rewrite !list_lookup_fmap. destruct (decide (i < k)); [rewrite !lookup_seq_lt by done|by rewrite !lookup_seq_ge by lia].
  cbn. do 2 f_equal. lia.
Qed.
Lemma peek_copy dst src len m : peek dst (Z.to_nat len) (copy dst src len m) = peek src (Z.to_nat len) m.
Proof.
  unfold peek. apply list_fmap_ext. intros i x [-> Hi]%lookup_seq. unfold copy. rewrite decide_True by lia. f_equal. lia.
Qed.
Lemma peek_poke dst bs m : peek dst (length bs) (poke dst bs m) = bs.
Proof.
  unfold peek. apply list_eq. intros i. rewrite list_lookup_fmap. destruct (decide (i < length bs)) as [Hi|Hi].
  - rewrite lookup_seq_lt by done. cbn. unfold poke. rewrite decide_True by lia.
    replace (Z.to_nat (dst + Z.of_nat i - dst)) with i by lia. by destruct (lookup_lt_is_Some_2 bs i Hi) as [b ->].
  - rewrite lookup_seq_ge by lia. symmetry. apply lookup_ge_None_2. lia.
Qed.
Lemma total_nonneg sc : lens_ok sc → (0 ≤ total sc)%Z.
Proof. induction 1 as [|[a l] sc Hl _ IH]; unfold total in *; cbn in *; lia. Qed.

(** Two lists of strips, one after the other. *)
Lemma away_sub lo hi lo' hi' sc : (lo ≤ lo')%Z → (hi' ≤ hi)%Z → away lo hi sc → away lo' hi' sc.
Proof. intros H1 H2 H. eapply Forall_impl; [done|]. intros al Hal. cbn in *. lia. Qed.

Lemma peek_away lo hi m m' a n : (∀ x, ¬ (lo ≤ x < hi)%Z → m' x = m x) →
  (a + Z.of_nat n ≤ lo ∨ hi ≤ a)%Z → peek a n m' = peek a n m.
Proof. intros H Ha. apply peek_ext. intros x Hx. apply H. lia. Qed.
Lemma value_away lo hi m m' sc : (∀ x, ¬ (lo ≤ x < hi)%Z → m' x = m x) → lens_ok sc → away lo hi sc → value sc m' = value sc m.
Proof.
  intros H Hl Ha. unfold value. f_equal. apply list_fmap_ext. intros i al Hal.
  apply (peek_away lo hi); [done|]. rewrite Z2Nat.id by (by eapply Forall_lookup_1 in Hl). by eapply Forall_lookup_1 in Ha.
Qed.

Lemma gather_spec dst sc m : lens_ok sc → away dst (dst + total sc) sc →
  peek dst (Z.to_nat (total sc)) (gather dst sc m) = value sc m
  ∧ ∀ a, ¬ (dst ≤ a < dst + total sc)%Z → gather dst sc m a = m a.
Proof.
  intros Hl. revert dst m. induction Hl as [|[b l] sc Hbl Hl IH]; intros dst m Ha; [done|].
  cbn [gather] in *. cbn [snd] in Hbl. pose proof (total_nonneg sc Hl) as Ht.
  change (total ((b, l) :: sc)) with (l + total sc)%Z in *. apply Forall_cons in Ha as [Hb Ha]. cbn [fst snd] in Hb.
  destruct (IH (dst + l)%Z (copy dst b l m)) as [Hp Hf]; [eapply away_sub; [| |exact Ha]; lia|].
  assert (∀ a, ¬ (dst ≤ a < dst + l)%Z → copy dst b l m a = m a) as Hc by (intros a Hn; unfold copy; by rewrite decide_False).
  split.
  - rewrite Z2Nat.inj_add, peek_app by lia. rewrite Z2Nat.id by done. rewrite Hp.
    change (value ((b, l) :: sc) m) with (peek b (Z.to_nat l) m ++ value sc m). f_equal.
    + rewrite (peek_ext _ _ _ (copy dst b l m)) by (intros x Hx; apply Hf; lia). by rewrite peek_copy.
    + apply (value_away dst (dst + l)); [done|done|]. eapply away_sub; [| |exact Ha]; lia.
  - intros a Hn. rewrite Hf by lia. apply Hc. lia.
Qed.

Lemma spread_spec src sc m : lens_ok sc → away src (src + total sc) sc → disjoint_strips sc →
  value sc (spread src sc m) = peek src (Z.to_nat (total sc)) m
  ∧ ∀ a, (∀ al, al ∈ sc → ¬ in_strip a al) → spread src sc m a = m a.
Proof.
  intros Hl. revert src m. induction Hl as [|[b l] sc Hbl Hl IH]; intros src m Ha Hd; [done|].
  cbn [spread] in *. cbn [snd] in Hbl. pose proof (total_nonneg sc Hl) as Ht. destruct Hd as [Hbd Hd]. cbn [fst snd] in Hbd.
  change (total ((b, l) :: sc)) with (l + total sc)%Z in *. apply Forall_cons in Ha as [Hb Ha]. cbn [fst snd] in Hb.
  destruct (IH (src + l)%Z (copy b src l m)) as [Hp Hf]; [eapply away_sub; [| |exact Ha]; lia|done|].
  assert (∀ a, ¬ (b ≤ a < b + l)%Z → copy b src l m a = m a) as Hc by (intros a Hn; unfold copy; by rewrite decide_False).
  split.
  - change (value ((b, l) :: sc) ?m') with (peek b (Z.to_nat l) m' ++ value sc m').
    rewrite Z2Nat.inj_add, peek_app by lia. rewrite Z2Nat.id by done. rewrite Hp. f_equal.
    + rewrite (peek_ext _ _ _ (copy b src l m)); [by rewrite peek_copy|]. intros x Hx. apply Hf. intros al Hal Hin.
      pose proof (proj1 (Forall_forall _ _) Hbd al Hal) as Hal'. unfold in_strip in Hin. cbn in Hal'. lia.
    + apply (peek_away b (b + l)); [done|]. lia.
  - intros a Hn. rewrite Hf; [apply Hc; apply (Hn (b, l)); left|]. intros al Hal. apply Hn. by right.
Qed.

(** ** Lemmas: the loops over the keys *)

Section loops.
Context (n : ShmNode).
Abbreviation sb := (sn_slot_bytes n).
Abbreviation in_slot slot a := (slot_addr n slot ≤ a < slot_addr n slot + sb)%Z.

(** What a slot holds after a put. *)
Definition holds (m : Mem) (slot : N) (key : bytes) (v : bytes) : Prop :=
  peek (slot_addr n slot) HDR m = key ∧ peek (slot_addr n slot + Z.of_nat HDR) (length v) m = v.
Definition fits (sc : Scatter) : Prop := lens_ok sc ∧ (Z.of_nat HDR + total sc ≤ sb)%Z.

Lemma slot_apart s s' a : (0 < sb)%Z → s ≠ s' → in_slot s a → ¬ in_slot s' a.
Proof. unfold slot_addr. intros Hsb Hne H1 H2. assert (Z.of_N s ≠ Z.of_N s') by lia. nia. Qed.

Lemma value_length sc m : lens_ok sc → length (value sc m) = Z.to_nat (total sc).
Proof.
  induction 1 as [|[a l] sc Hl Hr IH]; [done|]. pose proof (total_nonneg sc Hr). unfold value, total in *. cbn in *.
  rewrite length_app, peek_length, IH. lia.
Qed.

(** One key: the slot holds it, and nothing else has changed. *)
Lemma put_one m slot key sc : length key = HDR → fits sc → away (slot_addr n slot) (slot_addr n slot + sb) sc →
  let m' := gather (slot_addr n slot + Z.of_nat HDR) sc (poke (slot_addr n slot) (take HDR key) m) in
  holds m' slot key (value sc m) ∧ ∀ a, ¬ in_slot slot a → m' a = m a.
Proof.
  intros Hk [Hl Hfit] Ha. pose proof (total_nonneg sc Hl) as Ht. rewrite take_ge by lia. set (d := slot_addr n slot) in *.
  assert (∀ a, ¬ (d ≤ a < d + Z.of_nat HDR)%Z → poke d key m a = m a) as Hpk by (intros a Hn; unfold poke; rewrite decide_False by lia; done).
  destruct (gather_spec (d + Z.of_nat HDR) sc (poke d key m) Hl) as [Hp Hf]; [eapply away_sub; [| |exact Ha]; lia|].
  split; [split|].
  - fold d. rewrite (peek_ext _ _ _ (poke d key m)) by (intros x Hx; apply Hf; lia). rewrite <-Hk. apply peek_poke.
  - fold d. rewrite value_length by done. rewrite Hp. apply (value_away d (d + Z.of_nat HDR)); [done|done|].
    eapply away_sub; [| |exact Ha]; lia.
  - intros a Hn. rewrite Hf by lia. apply Hpk. lia.
Qed.

Lemma put_loop_spec keys : ∀ i (slots : list N) (scatters : list Scatter) m,
  (0 < sb)%Z → NoDup slots → i + length keys ≤ length slots → i + length keys ≤ length scatters →
  Forall (λ k, length k = HDR) keys → Forall fits scatters →
  (∀ s sc, s ∈ slots → sc ∈ scatters → away (slot_addr n s) (slot_addr n s + sb) sc) →
  ∃ m', put_loop n i keys slots scatters m = Some m'
    ∧ (∀ j key slot sc, keys !! j = Some key → slots !! (i + j) = Some slot → scatters !! (i + j) = Some sc →
         holds m' slot key (value sc m))
    ∧ ∀ a, (∀ j slot, i ≤ j → slots !! j = Some slot → ¬ in_slot slot a) → m' a = m a.
Proof.
  induction keys as [|key keys IH]; intros i slots scatters m Hsb Hnd Hs Hsc Hk Hfit Haway.
  { exists m. split_and!; [done|done|done]. }
  cbn [length] in *. apply Forall_cons in Hk as [Hkl Hk].
  destruct (lookup_lt_is_Some_2 slots i) as [slot Hslot]; [lia|]. destruct (lookup_lt_is_Some_2 scatters i) as [sc Hscat]; [lia|].
  cbn [put_loop]. rewrite Hslot, Hscat. cbn [mbind option_bind]. rewrite decide_True by lia.
  destruct (put_one m slot key sc Hkl) as [Hone Hframe];
    [by eapply Forall_lookup_1|apply Haway; by eapply list_elem_of_lookup_2|].
  set (m1 := gather _ _ _) in *.
  destruct (IH (S i) slots scatters m1) as (m' & -> & Hall & Hf); [done|done|lia|lia|done|done|done|].
  exists m'. split_and!; [done| |].
  - intros [|j] key' slot' sc' Hkj Hsj Hscj.
    + rewrite Nat.add_0_r in *. rewrite Hslot in Hsj. rewrite Hscat in Hscj. injection Hkj as <-. injection Hsj as <-. injection Hscj as <-.
      assert (∀ a, in_slot slot a → m' a = m1 a) as Hsame.
      { intros a Ha. apply Hf. intros j s' Hj Hs' Hin. refine (slot_apart slot s' a Hsb _ Ha Hin). intros <-.
        pose proof (NoDup_lookup _ _ _ _ Hnd Hs' Hslot). lia. }
      destruct (Forall_lookup_1 _ _ _ _ Hfit Hscat) as [Hl Hle]. pose proof (total_nonneg sc Hl). destruct Hone as [H1 H2].
      split; (etrans; [|first [exact H1|exact H2]]); apply peek_ext; intros x Hx; apply Hsame;
        rewrite ?value_length in Hx by done; unfold HDR in *; lia.
    + assert (value sc' m1 = value sc' m) as <-.
      { apply (value_away (slot_addr n slot) (slot_addr n slot + sb)); [done| |].
        - by destruct (Forall_lookup_1 _ _ _ _ Hfit Hscj).
        - apply Haway; by eapply list_elem_of_lookup_2. }
      eapply (Hall j); [done|by rewrite Nat.add_succ_comm..].
  - intros a Ha. rewrite Hf by (intros j s' Hj; apply Ha; lia). apply Hframe. by apply (Ha i).
Qed.

Lemma disjoint_strips_app l1 l2 : disjoint_strips (l1 ++ l2) ↔
  disjoint_strips l1 ∧ disjoint_strips l2 ∧ ∀ al bl, al ∈ l1 → bl ∈ l2 → (bl.1 + bl.2 ≤ al.1 ∨ al.1 + al.2 ≤ bl.1)%Z.
Proof.
  induction l1 as [|al l1 IH]; cbn.
  - split; [intros H; split_and!; [done|done|]; intros al bl Hal; by apply elem_of_nil in Hal|naive_solver].
  - rewrite IH. unfold away. rewrite Forall_app, !Forall_forall. split.
    + intros [[H1 H2] (H3 & H4 & H5)]. split_and!; [done|done|done|]. intros x y [->|Hx]%elem_of_cons Hy; [by apply H2|by apply H5].
    + intros ((H1 & H3) & H4 & H5). split_and!; [done| |done|done|].
      * intros y Hy. apply H5; [left|done].
      * intros x y Hx. apply H5. by right.
Qed.

Lemma get_loop_spec slots : ∀ i keys scatters out m,
  i + length slots ≤ length keys → i + length slots ≤ length scatters →
  Forall (λ k, length k = HDR) keys → Forall fits scatters →
  (∀ s sc, s ∈ slots → sc ∈ scatters → away (slot_addr n s) (slot_addr n s + sb) sc) →
  disjoint_strips (concat (drop i scatters)) →
  (∀ j slot key, slots !! j = Some slot → keys !! (i + j) = Some key → peek (slot_addr n slot) HDR m = key) →
  ∃ m', get_loop n i (Some <$> slots) keys scatters out m = Some (out, m')
    ∧ (∀ j slot sc, slots !! j = Some slot → scatters !! (i + j) = Some sc →
         value sc m' = peek (slot_addr n slot + Z.of_nat HDR) (Z.to_nat (total sc)) m)
    ∧ ∀ a, (∀ al, al ∈ concat (drop i scatters) → ¬ in_strip a al) → m' a = m a.
Proof.
  induction slots as [|slot slots IH]; intros i keys scatters out m Hlk Hls Hk Hfit Haway Hd Hkeys.
  { exists m. split_and!; [done|done|done]. }
  cbn [length] in *. destruct (lookup_lt_is_Some_2 keys i) as [key Hkey]; [lia|].
  destruct (lookup_lt_is_Some_2 scatters i) as [sc Hsc]; [lia|]. cbn [fmap list_fmap get_loop]. rewrite Hkey. cbn [mbind option_bind].
  assert (length key = HDR) as Hkl by (by eapply Forall_lookup_1 in Hk). rewrite decide_True by lia.
  rewrite decide_False.
  2: { intros Hne. apply Hne. rewrite take_ge by lia. apply (Hkeys 0); [done|by rewrite Nat.add_0_r]. }
  rewrite Hsc. cbn [mbind option_bind]. rewrite (drop_S _ _ _ Hsc) in *. cbn [concat] in *.
  apply disjoint_strips_app in Hd as (Hd1 & Hd2 & Hd12).
  assert (sc ∈ scatters) as Hscin by (by eapply list_elem_of_lookup_2).
  destruct (Forall_lookup_1 _ _ _ _ Hfit Hsc) as [Hl Hle]. pose proof (total_nonneg sc Hl) as Ht.
  destruct (spread_spec (slot_addr n slot + Z.of_nat HDR) sc m Hl) as [Hv Hf];
    [eapply away_sub; [| |apply (Haway slot sc); [left|done]]; lia|done|].
  set (m1 := spread _ sc m) in *.
  assert (∀ s a, s ∈ slot :: slots → in_slot s a → m1 a = m a) as Hslab.
  { intros s a Hs Ha. apply Hf. intros al Hal Hin. specialize (Haway s sc Hs Hscin).
    pose proof (proj1 (Forall_forall _ _) Haway al Hal) as Hal'. unfold in_strip in Hin. cbn in Hal'. lia. }
  destruct (IH (S i) keys scatters out m1) as (m' & -> & Hall & Hfr); [lia|lia|done|done| |done| |].
  { intros s sc' Hs. apply Haway. by right. }
  { intros j s k Hs Hkj. rewrite (peek_ext _ _ _ m); [by apply (Hkeys (S j)); [|rewrite <-Nat.add_succ_comm]|].
    intros x Hx. apply (Hslab s); [right; by eapply list_elem_of_lookup_2|]. unfold HDR in *. lia. }
  exists m'. split_and!; [done| |].
  - intros [|j] s sc' Hs Hscj.
    + rewrite Nat.add_0_r, Hsc in Hscj. injection Hscj as <-. injection Hs as <-. rewrite <-Hv. unfold value. f_equal.
      apply list_fmap_ext. intros j al Hal. apply peek_ext. intros x Hx. apply Hfr. intros bl Hbl Hin.
      assert (0 ≤ al.2)%Z by (by eapply Forall_lookup_1 in Hl). specialize (Hd12 al bl (list_elem_of_lookup_2 _ _ _ Hal) Hbl).
      unfold in_strip in Hin. lia.
    + rewrite <-Nat.add_succ_comm in Hscj. rewrite (Hall j s sc' Hs Hscj). apply peek_ext. intros x Hx.
      apply (Hslab s); [right; by eapply list_elem_of_lookup_2|].
      destruct (Forall_lookup_1 _ _ _ _ Hfit Hscj) as [Hl' Hle']. pose proof (total_nonneg sc' Hl'). lia.
  - intros a Ha. rewrite Hfr by (intros al Hal; apply Ha, elem_of_app; by right). apply Hf.
    intros al Hal. apply Ha, elem_of_app. by left.
Qed.
End loops.

(** ** Lemmas: the server's answers *)

Section answers.
Context {HI : HashIter N}.

Lemma reserve_loop_slots clock count i c : c_slots (c_reserve_loop clock count i c).2 = c_slots c.
Proof.
  revert i c. induction count as [|count IH]; intros i c; [done|]. cbn [c_reserve_loop].
  destruct (c_free c) as [|s fr]; [destruct (c_lru c) as [|[s k] l]|]; [done| |];
    (match goal with |- context [c_reserve_loop ?ck ?n ?j ?c'] => specialize (IH j c') end);
    destruct (c_reserve_loop _ _ _ _) as [out c'']; done.
Qed.

Lemma reserve_hands_out now clock count p c : refines p c → N.to_nat count ≤ length (free p) + length (c_lru c) →
  ∃ out p' c', reserve now clock count p = Some (out, p') ∧ refines p' c' ∧ c_slots c' = c_slots c
    ∧ length out = N.to_nat count ∧ NoDup out ∧ (∀ s, s ∈ out → is_Some (c_pending c' !! s) ∧ N.to_nat s < c_slots c).
Proof.
  intros HR Hcount. destruct (reserve_start now clock count p c HR) as (c0 & HR0 & Hlru & Hres & _).
  destruct (reserve_simulates now clock count p c HR) as (p' & Hrun & HR'). rewrite Hres in Hrun, HR'.
  pose proof (c_reserve_loop_out clock (N.to_nat count) 0 c0) as Hout.
  pose proof (c_reserve_loop_pending clock (N.to_nat count) 0 c0) as Hpend.
  assert (c_slots (c_reserve_loop clock (N.to_nat count) 0 c0).2 = c_slots c) as Hslots.
  { rewrite reserve_loop_slots. rewrite <-(repr_len_prev _ _ _ (R_lru _ _ (proj1 HR0))), <-(repr_len_prev _ _ _ (R_lru _ _ (proj1 HR))).
    by case_decide. }
  eexists _, p', _. split; [exact Hrun|]. split; [exact HR'|]. split; [done|].
  rewrite Hout. split_and!.
  - rewrite length_take, length_app, length_fmap, Hlru. rewrite <-(R_free _ _ (proj1 HR0)).
    enough (length (free p) ≤ length (free (if decide (length (free p) < N.to_nat count) then reclaim_expired now p else p))) by lia.
    case_decide; [|done]. cbn. rewrite length_app. lia.
  - apply NoDup_take_part, NoDup_free_lru. apply HR0.
  - intros s Hs. rewrite <-Hout in Hs. destruct (Hpend s (or_intror Hs)) as [t Ht]. split; [by exists t|]. rewrite <-Hslots.
    apply slots_upto_spec. rewrite <-(proj2 HR'). rewrite !elem_of_app. right. left. apply elem_of_pending. by exists t.
Qed.

Lemma commit_pending p c s k : refines p c → is_Some (c_pending c !! s) → ∃ p',
  commit s k p = Some (true, p') ∧ ∀ s', s' ≠ s → c_pending (c_commit s k c).2 !! s' = c_pending c !! s'.
Proof.
  intros HR [t Ht]. destruct (commit_simulates p c s k HR) as (p' & Hc & _). exists p'. rewrite Hc. unfold c_commit. rewrite Ht.
  case_decide; [done|]. split; [done|]. intros s' Hs. destruct (slot_of k (c_lru c)); cbn; by rewrite lookup_delete_ne.
Qed.

Lemma commit_bytes_binds entries : ∀ p c, refines p c → NoDup entries.*1 → NoDup entries.*2 →
  Forall (λ e : N * bytes, length e.2 = KEY_BYTES ∧ is_Some (c_pending c !! e.1)) entries →
  ∃ p' c', commit_bytes entries p = Some p' ∧ refines p' c' ∧ (∀ e, e ∈ entries → e ∈ c_lru c')
    ∧ ∀ x k, k ∉ entries.*2 → (x, k) ∈ c_lru c → (x, k) ∈ c_lru c'.
Proof.
  induction entries as [|[s k] entries IH]; intros p c HR Hn1 Hn2 Hall.
  { exists p, c. split_and!; [done|done| |done]. by intros e ?%elem_of_nil. }
  apply NoDup_cons in Hn1 as [Hs Hn1]. apply NoDup_cons in Hn2 as [Hk Hn2]. apply Forall_cons in Hall as [[Hlen Hpend] Hall].
  cbn [fst snd] in *. destruct (commit_pending p c s k HR Hpend) as (p1 & Hc & Hothers).
  destruct (commit_ok_binding _ _ _ _ _ HR Hc) as (HR1 & Hin & Hsame).
  destruct (IH p1 _ HR1 Hn1 Hn2) as (p' & c' & Hrun & HR' & Hbound & Hkeep).
  { apply Forall_forall. intros e He. rewrite Forall_forall in Hall. destruct (Hall e He) as [? ?]. split; [done|].
    rewrite Hothers; [done|]. intros <-. apply Hs. by apply list_elem_of_fmap_2. }
  exists p', c'. cbn [commit_bytes]. unfold key_hash_try_from. rewrite decide_True by done. rewrite Hc. cbn. split_and!; [done|done| |].
  - intros e [->|He]%elem_of_cons; [by apply Hkeep|by apply Hbound].
  - intros x k' Hnk Hx. cbn in Hnk. apply not_elem_of_cons in Hnk as [Hne Hnk]. apply Hkeep; [done|]. by apply Hsame.
Qed.

Lemma lookup_bytes_hits keys slots : ∀ p c, refines p c →
  Forall2 (λ k s, length k = KEY_BYTES ∧ (s, k) ∈ c_lru c) keys slots →
  ∃ p', lookup_bytes keys p = Some (Some <$> slots, p') ∧ pool_ok p'.
Proof.
  revert slots. induction keys as [|k keys IH]; intros slots p c HR Hall.
  { apply Forall2_nil_inv_l in Hall as ->. exists p. split; [done|by exists c]. }
  apply Forall2_cons_inv_l in Hall as (s & slots' & [Hlen Hin] & Hall & ->).
  destruct (lookup_simulates p c k HR) as (p1 & Hl & HR1).
  assert (slot_of k (c_lru c) = Some s) as Hslot by (rewrite (slot_of_Some p c k (proj1 HR)); by apply (R_hash _ _ (proj1 HR))).
  unfold c_lookup in *. rewrite Hslot in *. cbn [fst snd] in *.
  destruct (IH slots' p1 _ HR1) as (p' & Hr & Hp').
  { eapply Forall2_impl; [exact Hall|]. intros k' s' [Hk' Hin']. split; [done|]. cbn. apply elem_of_most_recent.
    destruct (decide (s' = s)) as [->|]; [|by left]. right. by rewrite (linked_slot_key p c s k' k (proj1 HR) Hin' Hin). }
  exists p'. cbn [lookup_bytes]. unfold key_hash_try_from. rewrite decide_True by done. rewrite Hl. cbn. by rewrite Hr.
Qed.
End answers.

(** ** The server as the client sees it *)

Section served.
Context {HI : HashIter N}.

Definition answer_of (resp : KvResponse) : result string KvResponse := match resp with KvErr why => Err why | resp => Ok resp end.
(** At [addr] a host slab is served; [serving w h] tells which. *)
Class Served {W} (call : string → KvRequest → W → option (result string KvResponse * W)) (addr : string)
    (serving : W → HostSlab → Prop) := {
  served_call req w h : serving w h → ∃ ck, ∀ resp h', serve_tcp ck req h = Some (resp, h') →
    ∃ w', call addr req w = Some (answer_of resp, w') ∧ serving w' h'
}.

(** The engine of a TCP node is such a server. *)
Definition engine_call (ck : clocks) (shm : string * result string unit) (addr : string) (req : KvRequest) (e : KvEngine) :
    option (result string KvResponse * KvEngine) :=
  '(resp, e) ← engine_serve ck shm req e; Some (answer_of resp, e).
#[global] Instance engine_served ck shm addr : Served (engine_call ck shm) addr (λ e h, slab e = Some (HostBacked h)).
Proof.
  constructor. intros req e h He. exists ck. intros resp h' Hs. unfold engine_call, engine_serve.
  assert (attach_slab shm req e = Ok e) as ->.
  { unfold attach_slab. destruct req; [|done..]. rewrite He. cbn. by rewrite andb_false_r. }
  rewrite He. cbn. rewrite Hs. cbn. by eexists.
Qed.

Context {W : Type} (call : string → KvRequest → W → option (result string KvResponse * W)).
Context (addr : string) (serving : W → HostSlab → Prop) `{!Served call addr serving}.
Context (open_map : string → Z → result string Z) (show : KvResponse → string).

Lemma reserve_served count (s : Shm W) n h c : sn_addr n = addr → serving (shm_net s) h → refines (hs_slots h) c →
  N.to_nat count ≤ length (free (hs_slots h)) + length (c_lru c) →
  ∃ out w' h' c', node_call call n (Reserve count) s = Some (Ok (Reserved out), set_shm_net w' s) ∧ serving w' h'
    ∧ refines (hs_slots h') c' ∧ length out = N.to_nat count ∧ NoDup out
    ∧ ∀ x, x ∈ out → is_Some (c_pending c' !! x) ∧ N.to_nat x < c_slots c.
Proof.
  intros Ha Hs HR Hc. destruct (served_call (Reserve count) _ h Hs) as [ck Hcall].
  destruct (reserve_hands_out (clk_now ck) (clk_loop ck) count _ c HR Hc) as (out & p' & c' & Hr & HR' & _ & Hlen & Hnd & Hin).
  destruct (Hcall (Reserved out) (set_hs_slots h p')) as (w' & Hw & Hs'); [cbn; by rewrite Hr|].
  exists out, w', (set_hs_slots h p'), c'. split_and!; [unfold node_call; rewrite Ha, Hw|..]; done.
Qed.
Lemma commit_served entries (s : Shm W) n h c : sn_addr n = addr → serving (shm_net s) h → refines (hs_slots h) c →
  NoDup entries.*1 → NoDup entries.*2 → Forall (λ e : N * bytes, length e.2 = KEY_BYTES ∧ is_Some (c_pending c !! e.1)) entries →
  ∃ w' h' c', node_call call n (Commit entries) s = Some (Ok KvOk, set_shm_net w' s) ∧ serving w' h'
    ∧ refines (hs_slots h') c' ∧ ∀ e, e ∈ entries → e ∈ c_lru c'.
Proof.
  intros Ha Hs HR H1 H2 Hall. destruct (served_call (Commit entries) _ h Hs) as [ck Hcall].
  destruct (commit_bytes_binds entries _ c HR H1 H2 Hall) as (p' & c' & Hr & HR' & Hb & _).
  destruct (Hcall KvOk (set_hs_slots h p')) as (w' & Hw & Hs'); [cbn; by rewrite Hr|].
  exists w', (set_hs_slots h p'), c'. split_and!; [unfold node_call; rewrite Ha, Hw|..]; done.
Qed.
Lemma lookup_served keys slots (s : Shm W) n h c : sn_addr n = addr → serving (shm_net s) h → refines (hs_slots h) c →
  Forall2 (λ k x, length k = KEY_BYTES ∧ (x, k) ∈ c_lru c) keys slots →
  ∃ w', node_call call n (Lookup keys) s = Some (Ok (Looked (Some <$> slots)), set_shm_net w' s).
Proof.
  intros Ha Hs HR Hall. destruct (served_call (Lookup keys) _ h Hs) as [ck Hcall].
  destruct (lookup_bytes_hits keys slots _ c HR Hall) as (p' & Hr & _).
  destruct (Hcall (Looked (Some <$> slots)) (set_hs_slots h p')) as (w' & Hw & Hs'); [cbn; by rewrite Hr|].
  exists w'. unfold node_call. by rewrite Ha, Hw.
Qed.

Lemma same_sizes (a b : Scatter) : a.*2 = b.*2 → total a = total b ∧ (lens_ok a → lens_ok b).
Proof.
  intros H. unfold total. rewrite H. split; [done|]. unfold lens_ok. rewrite <-!(Forall_fmap snd (λ l, (0 ≤ l)%Z)). by rewrite H.
Qed.

(** A slot of the slab lies in the mapped region. *)
Lemma slot_inside n x cnt sc : (0 < sn_slot_bytes n)%Z → N.to_nat x < cnt →
  away (sn_base n) (sn_base n + Z.of_nat cnt * sn_slot_bytes n) sc → away (slot_addr n x) (slot_addr n x + sn_slot_bytes n) sc.
Proof. intros Hsb Hx. apply away_sub; unfold slot_addr; nia. Qed.

Lemma shm_put_ok (s : Shm W) node n h c (keys : list bytes) (src : list Scatter) :
  shm_nodes s !! node = Some n → sn_addr n = addr → (0 < sn_slot_bytes n)%Z →
  serving (shm_net s) h → refines (hs_slots h) c →
  NoDup keys → Forall (λ k, length k = HDR) keys → (N.of_nat (length keys) < 2 ^ 32)%N →
  length keys ≤ length (free (hs_slots h)) + length (c_lru c) →
  length src = length keys → Forall (fits n) src →
  Forall (away (sn_base n) (sn_base n + Z.of_nat (c_slots c) * sn_slot_bytes n)) src →
  ∃ slots m w' h' c', shm_put call show node keys src s
      = Some (Ok (Ok (replicate (length keys) 0%Z)), {| shm_nodes := shm_nodes s; shm_mem := m; shm_net := w' |})
    ∧ serving w' h' ∧ refines (hs_slots h') c'
    ∧ Forall2 (λ k x, length k = KEY_BYTES ∧ (x, k) ∈ c_lru c') keys slots ∧ (∀ x, x ∈ slots → N.to_nat x < c_slots c)
    ∧ (∀ j key slot sc, keys !! j = Some key → slots !! j = Some slot → src !! j = Some sc →
         holds n m slot key (value sc (shm_mem s)))
    ∧ ∀ a, (∀ slot, slot ∈ slots → ¬ (slot_addr n slot ≤ a < slot_addr n slot + sn_slot_bytes n)%Z) → m a = shm_mem s a.
Proof.
  intros Hn Ha Hsb Hs HR Hnd Hk Hu32 Hroom Hlsrc Hfit Hasrc. unfold shm_put, on_node. rewrite Hn. cbn [ok_or].
  rewrite N.mod_small by done.
  destruct (reserve_served (N.of_nat (length keys)) s n h c Ha Hs HR) as (slots & w1 & h1 & c1 & -> & Hs1 & HR1 & Hlen & Hnds & Hin); [lia|].
  cbn [mbind option_bind]. rewrite Nat2N.id in Hlen. rewrite decide_False by lia.
  destruct (put_loop_spec n keys 0 slots src (shm_mem s) Hsb Hnds) as (m & Hm & Hholds & Hframe); [lia|lia|done|done| |].
  { intros x sc Hx Hsc. apply (slot_inside n x (c_slots c)); [done|by apply Hin|]. rewrite Forall_forall in Hasrc. by apply Hasrc. }
  cbn [shm_mem set_shm_net]. rewrite Hm. cbn [mbind option_bind].
  assert ((zip slots keys).*1 = slots) as Hf by (apply fst_zip; lia). assert ((zip slots keys).*2 = keys) as Hse by (apply snd_zip; lia).
  destruct (commit_served (zip slots keys) (set_shm_mem m (set_shm_net w1 s)) n h1 c1 Ha Hs1 HR1)
    as (w2 & h2 & c2 & -> & Hs2 & HR2 & Hb); [by rewrite Hf|by rewrite Hse| |].
  { apply Forall_forall. intros [x k] He. cbn. split.
    - rewrite Forall_forall in Hk. apply Hk. rewrite <-Hse. by apply (list_elem_of_fmap_2 snd) in He.
    - apply Hin. rewrite <-Hf. by apply (list_elem_of_fmap_2 fst) in He. }
  cbn [mbind option_bind]. exists slots, m, w2, h2, c2. split_and!; [done|done|done| | | |].
  - apply Forall2_same_length_lookup_2; [lia|]. intros i k x Hki Hx. split; [by eapply Forall_lookup_1 in Hk|].
    apply Hb. apply list_elem_of_lookup. exists i. apply lookup_zip_with_Some. by exists x, k.
  - intros x Hx. by apply Hin.
  - intros j key slot sc. by apply (Hholds j).
  - intros a Hall. apply Hframe. intros j slot _ Hslot. apply Hall. by eapply list_elem_of_lookup_2.
Qed.

(** C16.  A batch written through shared memory is read back.  On a node that
    serves a host slab, a put of distinct 54-byte keys whose strips fit their
    slots, with as many slots free or evictable, reports success for every key;
    a get of the same keys right after it finds them all and fills the target
    strips with exactly the bytes the source strips held, and no byte outside
    the slab and the target strips changes.  The source and target strips lie
    outside the slab and the targets do not overlap. *)
Theorem shm_put_get (s : Shm W) node n h (keys : list bytes) (src dst : list Scatter) :
  shm_nodes s !! node = Some n → sn_addr n = addr → (0 < sn_slot_bytes n)%Z →
  serving (shm_net s) h → pool_ok (hs_slots h) →
  NoDup keys → Forall (λ k, length k = HDR) keys → (N.of_nat (length keys) < 2 ^ 32)%N →
  length keys ≤ length (free (hs_slots h)) + size (by_slot (hs_slots h)) →
  length src = length keys → Forall2 (λ a b, a.*2 = b.*2) src dst → Forall (fits n) src →
  let hi := (sn_base n + Z.of_nat (length (lru_prev (hs_slots h))) * sn_slot_bytes n)%Z in
  Forall (away (sn_base n) hi) src → Forall (away (sn_base n) hi) dst → disjoint_strips (concat dst) →
  ∃ s1 s2, shm_put call show node keys src s = Some (Ok (Ok (replicate (length keys) 0%Z)), s1)
    ∧ shm_get call show node keys dst s1 = Some (Ok (Ok (replicate (length keys) 0%Z)), s2)
    ∧ (∀ i a b, src !! i = Some a → dst !! i = Some b → value b (shm_mem s2) = value a (shm_mem s))
    ∧ ∀ x, ¬ (sn_base n ≤ x < hi)%Z → (∀ al, al ∈ concat dst → ¬ in_strip x al) → shm_mem s2 x = shm_mem s x.
Proof.
  intros Hn Ha Hsb Hs [c HR] Hnd Hk Hu32 Hroom Hlsrc Hsizes Hfit hi Hasrc Hadst Hdisj. subst hi.
  assert (size (by_slot (hs_slots h)) = length (c_lru c)) as Hsize.
  { rewrite <-(linked_by_slot_perm _ _ (proj1 HR)). by rewrite length_map_to_list. }
  rewrite Hsize in Hroom. rewrite (repr_len_prev _ _ _ (R_lru _ _ (proj1 HR))) in *.
  destruct (shm_put_ok s node n h c keys src) as (slots & m & w1 & h1 & c1 & Hput & Hs1 & HR1 & Hbound & Hin & Hholds & Hframe); [done..|].
  set (s1 := {| shm_nodes := shm_nodes s; shm_mem := m; shm_net := w1 |}) in *.
  destruct (lookup_served keys slots s1 n h1 c1 Ha Hs1 HR1 Hbound) as (w2 & Hlook). 
  assert (length keys = length slots) as Hlen by (by eapply Forall2_length). assert (length src = length dst) as Hlen2 by (by eapply Forall2_length).
  destruct (get_loop_spec n slots 0 keys dst (replicate (length keys) 0%Z) m) as (m2 & Hget & Hval & Hfr); [lia|lia|done| | |done| |].
  { apply Forall_lookup. intros i b Hb. destruct (Forall2_lookup_r _ _ _ _ _ Hsizes Hb) as (a & Hai & Hab).
    destruct (same_sizes a b Hab) as [Htot Hl]. destruct (Forall_lookup_1 _ _ _ _ Hfit Hai) as [? ?]. split; [by apply Hl|]. by rewrite <-Htot. }
  { intros x sc Hx Hsc. apply (slot_inside n x (c_slots c)); [done|by apply Hin|]. rewrite Forall_forall in Hadst. by apply Hadst. }
  { intros j slot key Hslot Hkey. destruct (lookup_lt_is_Some_2 src j) as [sc Hsc]; [apply lookup_lt_Some in Hkey; lia|].
    by destruct (Hholds j key slot sc Hkey Hslot Hsc). }
  exists s1, (set_shm_mem m2 (set_shm_net w2 s1)). split; [exact Hput|]. split.
  { unfold shm_get, on_node. cbn [shm_nodes s1]. rewrite Hn. cbn [ok_or]. rewrite Hlook. cbn [mbind option_bind shm_mem set_shm_net s1].
    by rewrite Hget. }
  cbn [shm_mem set_shm_mem]. split.
  - intros i a b Hai Hbi. destruct (lookup_lt_is_Some_2 keys i) as [key Hkey]; [apply lookup_lt_Some in Hai; lia|].
    destruct (Forall2_lookup_l _ _ _ _ _ Hbound Hkey) as (slot & Hslot & _). rewrite (Hval i slot b Hslot Hbi).
    destruct (Hholds i key slot a Hkey Hslot Hai) as [_ Hv].
    rewrite value_length in Hv by (by destruct (Forall_lookup_1 _ _ _ _ Hfit Hai)).
    pose proof (Forall2_lookup_lr _ _ _ _ _ _ Hsizes Hai Hbi) as Hab. destruct (same_sizes a b Hab) as [<- _]. exact Hv.
  - intros x Hx Hstrips. rewrite Hfr by exact Hstrips. apply Hframe. intros slot Hslot Hxs. specialize (Hin slot Hslot).
    apply Hx. unfold slot_addr in Hxs. nia.
Qed.
End served.

(** ** Existence over several nodes *)

Section exist.
Context {HI : HashIter N} (xxh64 : bytes → N).

Lemma lookup_keeps k p : pool_ok p → ∃ p', lookup k p = Some (by_hash p !! k, p') ∧ pool_ok p' ∧ by_hash p' = by_hash p.
Proof.
  intros [c HR]. destruct (lookup_simulates p c k HR) as (p' & -> & HR'). exists p'. unfold c_lookup in *.
  rewrite (slot_of_Some p c k (proj1 HR)) in *. destruct (by_hash p !! k) as [s|] eqn:Es; cbn [fst snd] in *.
  - split_and!; [done|by eexists|]. apply map_eq. intros k'. apply option_eq. intros x.
    rewrite (R_hash _ _ (proj1 HR')), (R_hash _ _ (proj1 HR)). cbn. rewrite elem_of_most_recent.
    apply (R_hash _ _ (proj1 HR)) in Es. split; [intros [[_ ?]|[= -> ->]]; done|]. intros Hx.
    destruct (decide (x = s)) as [->|]; [|by left]. right. by rewrite (linked_slot_key p c s k' k (proj1 HR) Hx Es).
  - split_and!; [done|by eexists|]. apply map_eq. intros k'. apply option_eq. intros x.
    by rewrite (R_hash _ _ (proj1 HR')), (R_hash _ _ (proj1 HR)).
Qed.

Definition found (p : SlotPool) (k : bytes) : option N := if decide (length k = KEY_BYTES) then by_hash p !! k else None.
Lemma lookup_bytes_found keys : ∀ p, pool_ok p →
  ∃ p', lookup_bytes keys p = Some (found p <$> keys, p') ∧ pool_ok p' ∧ by_hash p' = by_hash p.
Proof.
  induction keys as [|k keys IH]; intros p Hp; [by exists p|]. cbn [lookup_bytes].
  assert (∃ p1, match key_hash_try_from k with Some kh => lookup kh p | None => Some (None, p) end
                = Some (found p k, p1) ∧ pool_ok p1 ∧ by_hash p1 = by_hash p) as (p1 & -> & Hp1 & Hh1).
  { unfold found, key_hash_try_from. case_decide; [by apply lookup_keeps|by exists p]. }
  cbn [mbind option_bind]. destruct (IH p1 Hp1) as (p' & -> & Hp' & Hh'). exists p'. cbn. split_and!; [|done|congruence].
  do 2 f_equal. f_equal. apply list_fmap_ext. intros i x _. unfold found. by rewrite Hh1.
Qed.

Context {W : Type} (call : string → KvRequest → W → option (result string KvResponse * W)) (show : KvResponse → string).
Context (open_map : string → Z → result string Z).
#[local] Existing Instance ShmLocalProtocol.

(** Several servers, each with a slab of its own. *)
Class ServedAt (serving : W → string → HostSlab → Prop) := {
  served_at req w a h : serving w a h → ∃ ck, ∀ resp h', serve_tcp ck req h = Some (resp, h') →
    ∃ w', call a req w = Some (answer_of resp, w') ∧ serving w' a h' ∧ ∀ b hb, b ≠ a → serving w b hb → serving w' b hb
}.
Context (serving : W → string → HostSlab → Prop) `{!ServedAt serving}.
Context (ns : gmap Z ShmNode) (bound : string → gset KeyHash).

Definition all_served (s : Shm W) : Prop :=
  shm_nodes s = ns ∧ ∀ node n, ns !! node = Some n →
    ∃ h, serving (shm_net s) (sn_addr n) h ∧ pool_ok (hs_slots h) ∧ ∀ k, is_Some (by_hash (hs_slots h) !! k) ↔ k ∈ bound (sn_addr n).
Definition exist_answer (node : Z) (k : bytes) : Z :=
  match ns !! node with
  | Some n => if decide (length k = KEY_BYTES ∧ k ∈ bound (sn_addr n)) then 1%Z else 0%Z
  | None => 0%Z
  end.

#[local] Instance shm_exists_answering :
  Answering (W := Shm W) (Protocol0 := ShmLocalProtocol call open_map show) (λ node ks _, shm_exists call show node ks)
    (λ node, is_Some (ns !! node)) exist_answer all_served (λ wait rs, wait = Ok rs).
Proof.
  constructor.
  - intros node ks _ s [n Hn] [Hns Hall]. destruct (Hall node n Hn) as (h & Hs & Hp & Hb).
    destruct (served_at (Lookup ks) _ _ h Hs) as [ck Hcall]. destruct (lookup_bytes_found ks _ Hp) as (p' & Hl & Hp' & Hh).
    destruct (Hcall (Looked (found (hs_slots h) <$> ks)) (set_hs_slots h p')) as (w' & Hw & Hs' & Hothers); [cbn; by rewrite Hl|].
    exists (Ok (exist_answer node <$> ks)), (set_shm_net w' s). split_and!; [|split; [done|]|done].
    + unfold shm_exists, on_node, node_call. rewrite Hns, Hn. cbn [ok_or]. rewrite Hw. cbn. do 3 f_equal. f_equal.
      rewrite <-list_fmap_compose. apply list_fmap_ext. intros i k _. cbn. unfold found, exist_answer. rewrite Hn. specialize (Hb k).
      destruct (decide (length k = KEY_BYTES)); [|rewrite (decide_False (P := _ ∧ _)) by (by intros [? _]); done].
      destruct (by_hash (hs_slots h) !! k) as [x|] eqn:Ex; [rewrite decide_True; [done|]; split; [done|]; apply Hb; by exists x|].
      rewrite decide_False; [done|]. intros [_ Hk]. apply Hb in Hk. destruct Hk as [x Hx].
      assert (None = Some x); [|done]. etrans; [symmetry; exact Ex|exact Hx].
    + intros node' n' Hn'. cbn. destruct (decide (sn_addr n' = sn_addr n)) as [Heq|Hne].
      * rewrite Heq. exists (set_hs_slots h p'). cbn. rewrite Hh. done.
      * destruct (Hall node' n' Hn') as (h' & Hs2 & Hp2 & Hb2). exists h'. split; [by apply Hothers|done].
  - intros wait rs s -> Hs. exists s. done.
Qed.

(** C36.  Existence is asked of the right node.  Over any number of attached nodes
    that each serve a host slab, [batch_is_exist] always answers, one value per
    key and in the order of the keys: 1 exactly when the key has 54 bytes and is
    bound in the slab of the node that owns it (the node at position
    [xxh64(key) mod nodes]), whichever way the keys fall on the nodes; and no
    binding changes. *)
Theorem batch_is_exist_owner c (keys : list bytes) (s : Shm W) :
  sc_nodes c ≠ [] → (∀ node, node ∈ sc_nodes c → is_Some (ns !! node)) → all_served s →
  ∃ out s', batch_is_exist xxh64 (Protocol0 := ShmLocalProtocol call open_map show) c keys s = Some (Ok out, s') ∧ all_served s'
    ∧ length out = length keys
    ∧ ∀ i k, keys !! i = Some k → ∃ node n, sc_nodes c !! owner_index xxh64 (length (sc_nodes c)) k = Some node ∧ ns !! node = Some n
        ∧ out !! i = Some (if decide (length k = KEY_BYTES ∧ k ∈ bound (sn_addr n)) then 1%Z else 0%Z).
Proof.
  intros Hne Hat Hs.
  destruct (sharded_ok xxh64 (Protocol0 := ShmLocalProtocol call open_map show) (λ node ks _, shm_exists call show node ks) (λ node, is_Some (ns !! node)) exist_answer all_served
    (λ wait rs, wait = Ok rs) c keys None s Hne Hat ltac:(done) Hs) as (out & s' & Hrun & Hs' & Hlen & Hall).
  exists out, s'. split_and!; [exact Hrun|done|done|]. intros i k Hk. destruct (Hall i k Hk) as (node & Hnode & Ho).
  destruct (Hat node) as [n Hn]; [by eapply list_elem_of_lookup_2|]. exists node, n. split_and!; [done|done|].
  rewrite Ho. unfold exist_answer. by rewrite Hn.
Qed.
End exist.

(** ** Evaluation *)

#[local] Instance client_order : HashIter N := listed_order N.

(** One node with a slab of two 60-byte slots mapped at 1000. *)
Definition demo_slab : HostSlab :=
  {| hs_slots := SlotPool_new 2 60; hs_name := "/kv"; hs_slot_bytes := 60; hs_slot_count := 2 |}.
Definition demo_call := engine_call (tick 0) ("/kv", Ok tt).
Definition demo_node : ShmNode := {| sn_base := 1000; sn_slot_bytes := 60; sn_span := 120; sn_addr := "n1" |}.
Definition demo_shm : Shm KvEngine :=
  {| shm_nodes := {[2%Z := demo_node]}; shm_mem := λ a, default x00 (Byte.of_N (Z.to_N a `mod` 256));
     shm_net := set_slab (HostBacked demo_slab) (KvEngine_new_tcp 120 60) |}.
Definition demo_show (r : KvResponse) : string := "?".
Definition demo_put := shm_put demo_call demo_show 2.
Definition demo_get := shm_get demo_call demo_show 2.

Lemma shm_put_get_witness : ∃ s1 s2,
  demo_put [key x01; key x02] [[(16, 4)]; [(32, 2); (64, 4)]]%Z demo_shm = Some (Ok (Ok [0; 0]%Z), s1)
  ∧ demo_get [key x01; key x02] [[(100, 4)]; [(110, 2); (120, 4)]]%Z s1 = Some (Ok (Ok [0; 0]%Z), s2)
  ∧ value [(100, 4)]%Z (shm_mem s2) = [x10; x11; x12; x13].
Proof.
  destruct (shm_put_get demo_call "n1" (λ e h, slab e = Some (HostBacked h)) demo_show demo_shm 2 demo_node demo_slab
    [key x01; key x02] [[(16, 4)]; [(32, 2); (64, 4)]]%Z [[(100, 4)]; [(110, 2); (120, 4)]]%Z) as (s1 & s2 & Hp & Hg & Hv & _).
  - reflexivity.
  - reflexivity.
  - reflexivity.
  - reflexivity.
  - exists (c_new 2 60). apply (new_refines 2 60). vm_compute. discriminate.
  - apply (bool_decide_unpack _). vm_compute. exact I.
  - apply (bool_decide_unpack _). vm_compute. exact I.
  - reflexivity.
  - vm_compute. lia.
  - reflexivity.
  - repeat constructor.
  - unfold fits, lens_ok, total, HDR. rewrite !Forall_cons, !Forall_nil. cbn. lia.
  - unfold away. rewrite !Forall_cons, !Forall_nil. cbn. lia.
  - unfold away. rewrite !Forall_cons, !Forall_nil. cbn. lia.
  - cbn. unfold away. rewrite !Forall_cons, !Forall_nil. cbn. lia.
  - exists s1, s2. split; [exact Hp|]. split; [exact Hg|].
    etrans; [exact (Hv 0 [(16, 4)]%Z _ eq_refl eq_refl)|]. vm_compute. reflexivity.
Defined.

(** The payload is not compared with the slot: a value that is too long for slot 0
    overwrites the header of slot 1, and the key stored there is gone. *)
Example put_overruns_slot :
  match demo_put [key x01] [[(16, 4)]]%Z demo_shm with
  | Some (Ok (Ok [0%Z]), s1) =>
      match demo_put [key x02] [[(32, 4)]]%Z s1 with
      | Some (Ok (Ok [0%Z]), s2) =>
          option_map fst (demo_get [key x02] [[(100, 4)]]%Z s2) = Some (Ok (Ok [0%Z]))
          ∧ match demo_put [key x03] [[(200, 20)]]%Z s2 with
            | Some (Ok (Ok [0%Z]), s3) => option_map fst (demo_get [key x02] [[(100, 4)]]%Z s3) = Some (Ok (Ok [(-1)%Z]))
            | _ => False
            end
      | _ => False
      end
  | _ => False
  end.
Proof. vm_compute. split; reflexivity. Qed.

(** A key that does not have 54 bytes is acknowledged and not stored. *)
Example long_key_lost :
  match demo_put [x00 :: key x01] [[(16, 4)]]%Z demo_shm with
  | Some (Ok (Ok [0%Z]), s1) => option_map fst (demo_get [x00 :: key x01] [[(100, 4)]]%Z s1) = Some (Ok (Ok [(-1)%Z]))
  | _ => False
  end.
Proof. vm_compute. reflexivity. Qed.

(** Servers by address. *)
Definition fleet_call (addr : string) (req : KvRequest) (w : gmap string HostSlab) :
    option (result string KvResponse * gmap string HostSlab) :=
  match w !! addr with
  | Some h => '(resp, h) ← serve_tcp (tick 0) req h; Some (answer_of resp, <[addr := h]> w)
  | None => Some (Err ("connect " +:+ addr), w)
  end.
#[local] Instance fleet_served : ServedAt fleet_call (λ w a h, w !! a = Some h).
Proof.
  constructor. intros req w a h Hw. exists (tick 0). intros resp h' Hs. unfold fleet_call. rewrite Hw, Hs. cbn.
  exists (<[a := h']> w). split_and!; [done|apply lookup_insert_eq|]. intros b hb Hne Hb. by rewrite lookup_insert_ne.
Defined.

Definition demo_nodes : gmap Z ShmNode := {[2%Z := demo_node]}.
Lemma batch_is_exist_owner_witness : ∃ out s',
  batch_is_exist (λ _, 7%N) (Protocol0 := ShmLocalProtocol fleet_call (λ _ _, Err "") demo_show)
    {| sc_nodes := [2%Z]; sc_client_id := 2048 |} [key x01; []]
    {| shm_nodes := demo_nodes; shm_mem := λ _, x00; shm_net := {["n1" := demo_slab]} |} = Some (Ok out, s') ∧ length out = 2.
Proof.
  destruct (batch_is_exist_owner (λ _, 7%N) fleet_call demo_show (λ _ _, Err "") (λ w a h, w !! a = Some h) demo_nodes (λ _, ∅)
    {| sc_nodes := [2%Z]; sc_client_id := 2048 |} [key x01; []]
    {| shm_nodes := demo_nodes; shm_mem := λ _, x00; shm_net := {["n1" := demo_slab]} |}) as (out & s' & H1 & _ & H2 & _).
  - discriminate.
  - intros node ->%list_elem_of_singleton. by exists demo_node.
  - split; [reflexivity|]. intros node n Hn. unfold demo_nodes in Hn. apply lookup_singleton_Some in Hn as [<- <-]. exists demo_slab. split; [reflexivity|]. split.
    + exists (c_new 2 60). apply (new_refines 2 60). vm_compute. discriminate.
    + intros k. cbn. rewrite lookup_empty. split; [by intros []|set_solver].
  - exists out, s'. split; [exact H1|exact H2].
Defined.
