(* ===== verification/Rdma.v ===== *)
(** * The RDMA transport

    [openlake_io/src/rdma]: the words of [wr.rs] that ride on work requests, the
    send ring of [buffers.rs], the per-peer credits of [socket.rs] and the routing
    table of [bootstrap.rs]; [kv_backend.rs] and the RDMA half of [kv_engine.rs];
    the RDMA transport of the KV client, [openlake_kv_client/src/protocol.rs].

    The network card and its queues are parameters or steps: a posted message, its
    completion and an arriving acknowledgement are events.  A task that waits is a
    number in a queue of waiters. *)

From stdpp Require Import base numbers gmap strings list pretty.
From Stdlib Require Import ZArith.
From S2P Require Import Prelude Text Kv KvClient.
#[local] Open Scope Z_scope.

(** ** Words *)

Definition TAG_SEND : Z := Z.shiftl 1 56.
Definition TAG_RECV : Z := Z.shiftl 2 56.
Definition TAG_ACK : Z := Z.shiftl 3 56.
Definition TAG_CLOSE : Z := Z.shiftl 4 56.
Definition TAG_MASK_64 : Z := Z.shiftl 255 56.
Definition IMM_TYPE_SHIFT : Z := 28.
Definition IMM_NODE_SHIFT : Z := 16.
Definition IMM_RUNTIME_SHIFT : Z := 8.
Definition IMM_TYPE_MASK : Z := 15.
Definition IMM_NODE_MASK : Z := 4095.
Definition IMM_RUNTIME_MASK : Z := 255.
Definition IMM_COUNT_MASK : Z := 255.
Definition IMM_TYPE_ACK : Z := 1.
Definition IMM_TYPE_CLOSE : Z := 2.
Definition SEQ_MASK : Z := 281474976710655.

Record PeerKey := { pk_node_id : Z; pk_runtime_id : Z }.
#[global] Instance PeerKey_eq_dec : EqDecision PeerKey.
Proof. solve_decision. Defined.
#[global] Program Instance PeerKey_countable : Countable PeerKey :=
  inj_countable' (λ k, (pk_node_id k, pk_runtime_id k)) (λ nr, {| pk_node_id := nr.1; pk_runtime_id := nr.2 |}) _.
Next Obligation. by intros []. Qed.

Inductive WrType := WrSend | WrRecv | WrAck | WrClose | WrOther.
Inductive SendKind := KOther | KUnary | KChunkReadReq | KChunkWriteReq | KResponse.
Definition kind_u8 (k : SendKind) : Z :=
  match k with KOther => 0 | KUnary => 1 | KChunkReadReq => 2 | KChunkWriteReq => 3 | KResponse => 4 end.
Definition kind_from_u8 (v : Z) : SendKind :=
  if v =? 1 then KUnary else if v =? 2 then KChunkReadReq else if v =? 3 then KChunkWriteReq
  else if v =? 4 then KResponse else KOther.

Definition wr_send (signal_count : Z) : Z := Z.lor TAG_SEND signal_count.
Definition wr_send_with_kind_seq (seq : Z) (kind : SendKind) : Z :=
  Z.lor (Z.lor TAG_SEND (Z.shiftl (Z.land (kind_u8 kind) 255) 48)) (Z.land seq SEQ_MASK).
Definition wr_send_kind (w : Z) : SendKind := kind_from_u8 (Z.land (Z.shiftr w 48) 255).
Definition wr_send_seq (w : Z) : Z := Z.land w SEQ_MASK.
Definition wr_recv (buf_idx : Z) : Z := Z.lor TAG_RECV buf_idx.
Definition wr_ty (w : Z) : WrType :=
  let t := Z.land w TAG_MASK_64 in
  if t =? TAG_SEND then WrSend else if t =? TAG_RECV then WrRecv else if t =? TAG_ACK then WrAck
  else if t =? TAG_CLOSE then WrClose else WrOther.
(** [!TAG_MASK_64] in 64 bits, then [as u32]. *)
Definition wr_buf_idx (w : Z) : Z := Z.land w (2 ^ 56 - 1) `mod` u32_mod.
Definition wr_signal_count (w : Z) : Z := Z.land w (2 ^ 32 - 1).

Inductive ImmType := ImmAck | ImmClose | ImmOther.
Definition imm_ack (src : PeerKey) (count : Z) : Z :=
  Z.lor (Z.lor (Z.lor (Z.shiftl IMM_TYPE_ACK IMM_TYPE_SHIFT)
                      (Z.shiftl (Z.land (pk_node_id src) IMM_NODE_MASK) IMM_NODE_SHIFT))
               (Z.shiftl (Z.land (pk_runtime_id src) IMM_RUNTIME_MASK) IMM_RUNTIME_SHIFT))
        (Z.land count IMM_COUNT_MASK).
Definition imm_close (src : PeerKey) : Z :=
  Z.lor (Z.lor (Z.shiftl IMM_TYPE_CLOSE IMM_TYPE_SHIFT)
               (Z.shiftl (Z.land (pk_node_id src) IMM_NODE_MASK) IMM_NODE_SHIFT))
        (Z.shiftl (Z.land (pk_runtime_id src) IMM_RUNTIME_MASK) IMM_RUNTIME_SHIFT).
Definition imm_ty (w : Z) : ImmType :=
  let t := Z.land (Z.shiftr w IMM_TYPE_SHIFT) IMM_TYPE_MASK in
  if t =? IMM_TYPE_ACK then ImmAck else if t =? IMM_TYPE_CLOSE then ImmClose else ImmOther.
Definition imm_src (w : Z) : PeerKey :=
  {| pk_node_id := Z.land (Z.shiftr w IMM_NODE_SHIFT) IMM_NODE_MASK;
     pk_runtime_id := Z.land (Z.shiftr w IMM_RUNTIME_SHIFT) IMM_RUNTIME_MASK |}.
Definition imm_count (w : Z) : Z := Z.land w IMM_COUNT_MASK.

(** ** The send ring *)

(** [front] and [tail] count buffers taken and buffers that have become free. *)
Record SendBuffers := { sb_cnt : nat; sb_front : Z; sb_tail : Z; sb_waiters : list nat }.
Definition SendBuffers_new (buf_cnt : nat) : SendBuffers :=
  {| sb_cnt := buf_cnt; sb_front := 0; sb_tail := Z.of_nat buf_cnt; sb_waiters := [] |}.
Definition set_ring (front tail : Z) (waiters : list nat) (b : SendBuffers) : SendBuffers :=
  {| sb_cnt := sb_cnt b; sb_front := front; sb_tail := tail; sb_waiters := waiters |}.

Definition try_pop (b : SendBuffers) : option Z * SendBuffers :=
  let f := sb_front b in
  if sb_tail b <=? f then (None, b) else (Some (f `mod` Z.of_nat (sb_cnt b)), set_ring (f + 1) (sb_tail b) (sb_waiters b) b).
(** [acquire] by task [t]: an index, or a place in the queue. *)
Definition ring_acquire (t : nat) (b : SendBuffers) : option Z * SendBuffers :=
  match try_pop b with
  | (Some idx, b) => (Some idx, b)
  | (None, b) => (None, set_ring (sb_front b) (sb_tail b) (sb_waiters b ++ [t]) b)
  end.
(** The loop of [push]: waiting tasks get the buffers; one that is gone ([alive])
    leaves its buffer to the next. *)
Fixpoint push_loop (alive : nat → bool) (waiters : list nat) (front tail : Z) (cnt : nat) : list (nat * Z) * Z * list nat :=
  match waiters with
  | [] => ([], front, [])
  | t :: waiters' =>
      if tail <=? front then ([], front, waiters)
      else if alive t then
        let '(given, front', rest) := push_loop alive waiters' (front + 1) tail cnt in
        ((t, front `mod` Z.of_nat cnt) :: given, front', rest)
      else push_loop alive waiters' front tail cnt
  end.
Definition ring_push (alive : nat → bool) (n : Z) (b : SendBuffers) : list (nat * Z) * SendBuffers :=
  let tail := sb_tail b + n in
  let '(given, front, rest) := push_loop alive (sb_waiters b) (sb_front b) tail (sb_cnt b) in
  (given, set_ring front tail rest b).

(** ** Credits *)

Record PeerCredit := { cr_sent : Z; cr_acked : Z; cr_not_acked : Z; cr_wakers : list nat }.
Definition PeerCredit_new : PeerCredit := {| cr_sent := 0; cr_acked := 0; cr_not_acked := 0; cr_wakers := [] |}.
Abbreviation PerPeer := (gmap PeerKey PeerCredit).
(** [entry(peer).or_insert_with(PeerCredit::new)]. *)
Definition peer_entry (peer : PeerKey) (m : PerPeer) : PeerCredit := default PeerCredit_new (m !! peer).

Definition outstanding (e : PeerCredit) : Z := (cr_sent e - cr_acked e) `mod` u64_mod.
(** One turn of the credit loop of [send_with_kind] for task [t]: the credit is
    taken, or the task waits. *)
Definition take_credit (peer_credit : Z) (t : nat) (peer : PeerKey) (m : PerPeer) : bool * PerPeer :=
  let e := peer_entry peer m in
  if outstanding e <? peer_credit then
    (true, <[peer := {| cr_sent := (cr_sent e + 1) `mod` u64_mod; cr_acked := cr_acked e; cr_not_acked := cr_not_acked e;
                        cr_wakers := cr_wakers e |}]> m)
  else
    (false, <[peer := {| cr_sent := cr_sent e; cr_acked := cr_acked e; cr_not_acked := cr_not_acked e;
                         cr_wakers := cr_wakers e ++ [t] |}]> m).
(** A post that fails gives its credit back. *)
Definition undo_credit (peer : PeerKey) (m : PerPeer) : PerPeer :=
  match m !! peer with
  | Some e => <[peer := {| cr_sent := (cr_sent e - 1) `mod` u64_mod; cr_acked := cr_acked e; cr_not_acked := cr_not_acked e;
                           cr_wakers := cr_wakers e |}]> m
  | None => m
  end.
(** [saturating_add] on a u32; the number acknowledged, 0 for none.  [post_ack] is
    the outcome of posting an acknowledgement; the table is changed before it. *)
Definition note_drain (buf_ack_batch : Z) (post_ack : result string unit) (peer : PeerKey) (m : PerPeer) : result string Z * PerPeer :=
  let e := peer_entry peer m in
  let not_acked := Z.min (cr_not_acked e + 1) (u32_mod - 1) in
  let '(to_ack, not_acked) := if buf_ack_batch <=? not_acked then (not_acked, 0) else (0, not_acked) in
  (if 0 <? to_ack then _ ← post_ack; Ok to_ack else Ok 0, <[peer := {| cr_sent := cr_sent e; cr_acked := cr_acked e; cr_not_acked := not_acked; cr_wakers := cr_wakers e |}]> m).
(** An acknowledgement arrives ([handle_wc]): the tasks woken. *)
Definition ack_arrives (imm : Z) (m : PerPeer) : list nat * PerPeer :=
  match imm_ty imm with
  | ImmAck =>
      let e := peer_entry (imm_src imm) m in
      let count := imm_count imm in
      (take (Z.to_nat count) (cr_wakers e),
       <[imm_src imm := {| cr_sent := cr_sent e; cr_acked := (cr_acked e + count) `mod` u64_mod; cr_not_acked := cr_not_acked e;
                           cr_wakers := drop (Z.to_nat count) (cr_wakers e) |}]> m)
  | _ => ([], m)
  end.
Definition reset_peer (peer : PeerKey) (m : PerPeer) : list nat * PerPeer :=
  match m !! peer with Some e => (cr_wakers e, delete peer m) | None => ([], m) end.

(** The send queue: how many entries a window may take, and their return. *)
Definition CHAIN_WINDOW : nat := 128.
Definition SQ_RESERVE : Z := 32.
Definition sq_initial (max_send_wr : Z) : Z := Z.max (Z.max (max_send_wr - SQ_RESERVE) 0) 1.
Definition sq_acquire (want free : Z) : option (Z * Z) := if 0 <? free then let n := Z.min want free in Some (n, free - n) else None.
Definition sq_release (n free : Z) : Z := free + n.
Definition recv_buf_cnt (peer_credit num_cluster_nodes min_recv_bufs srq_depth : Z) : Z :=
  Z.min (Z.max (peer_credit * num_cluster_nodes) min_recv_bufs) srq_depth.

(** ** One direction of a link

    The life of one attachment: [reset_peer], which a new attach of the peer calls,
    starts another one.  [ln_snd] is the table of the sending node, [ln_rcv] that
    of the receiving one; [ln_ready] counts the tasks that have a credit and wait
    for a send buffer or have not posted yet, [ln_wire] the messages sent and not
    yet drained, [ln_acks] are the acknowledgements on their way back, and
    [ln_lost] counts the credits that went with a task, a message or an
    acknowledgement that was lost. *)
Record Link := { ln_snd : PerPeer; ln_rcv : PerPeer; ln_ready : nat; ln_wire : nat; ln_acks : list Z; ln_lost : Z }.

Section link.
Context (peer_credit buf_ack_batch : Z) (skey rkey : PeerKey).

Inductive link_step : Link → Link → Prop :=
  (** A task takes a credit, or waits for one. *)
  | link_credit t m l : take_credit peer_credit t rkey (ln_snd l) = (true, m) →
      link_step l {| ln_snd := m; ln_rcv := ln_rcv l; ln_ready := S (ln_ready l); ln_wire := ln_wire l; ln_acks := ln_acks l; ln_lost := ln_lost l |}
  | link_wait t m l : take_credit peer_credit t rkey (ln_snd l) = (false, m) →
      link_step l {| ln_snd := m; ln_rcv := ln_rcv l; ln_ready := ln_ready l; ln_wire := ln_wire l; ln_acks := ln_acks l; ln_lost := ln_lost l |}
  (** With a buffer it posts, or the post fails; or the task is dropped before. *)
  | link_post n l : ln_ready l = S n →
      link_step l {| ln_snd := ln_snd l; ln_rcv := ln_rcv l; ln_ready := n; ln_wire := S (ln_wire l); ln_acks := ln_acks l; ln_lost := ln_lost l |}
  | link_fail n l : ln_ready l = S n →
      link_step l {| ln_snd := undo_credit rkey (ln_snd l); ln_rcv := ln_rcv l; ln_ready := n; ln_wire := ln_wire l; ln_acks := ln_acks l;
                     ln_lost := ln_lost l |}
  | link_cancel n l : ln_ready l = S n →
      link_step l {| ln_snd := ln_snd l; ln_rcv := ln_rcv l; ln_ready := n; ln_wire := ln_wire l; ln_acks := ln_acks l; ln_lost := ln_lost l + 1 |}
  (** A message is lost, or dropped by the receiver before it is counted. *)
  | link_drop n l : ln_wire l = S n →
      link_step l {| ln_snd := ln_snd l; ln_rcv := ln_rcv l; ln_ready := ln_ready l; ln_wire := n; ln_acks := ln_acks l; ln_lost := ln_lost l + 1 |}
  (** It is drained, without an acknowledgement, with one, or with one that cannot be posted. *)
  | link_drain n post m l : ln_wire l = S n → note_drain buf_ack_batch post skey (ln_rcv l) = (Ok 0, m) →
      link_step l {| ln_snd := ln_snd l; ln_rcv := m; ln_ready := ln_ready l; ln_wire := n; ln_acks := ln_acks l; ln_lost := ln_lost l |}
  | link_drain_ack n post c m l : ln_wire l = S n → note_drain buf_ack_batch post skey (ln_rcv l) = (Ok c, m) → 0 < c →
      link_step l {| ln_snd := ln_snd l; ln_rcv := m; ln_ready := ln_ready l; ln_wire := n; ln_acks := ln_acks l ++ [imm_ack rkey c];
                     ln_lost := ln_lost l |}
  | link_drain_err n post e m l : ln_wire l = S n → note_drain buf_ack_batch post skey (ln_rcv l) = (Err e, m) →
      link_step l {| ln_snd := ln_snd l; ln_rcv := m; ln_ready := ln_ready l; ln_wire := n; ln_acks := ln_acks l;
                     ln_lost := ln_lost l + (cr_not_acked (peer_entry skey (ln_rcv l)) + 1) |}
  (** An acknowledgement arrives, or is lost. *)
  | link_ack a1 w a2 l : ln_acks l = a1 ++ w :: a2 →
      link_step l {| ln_snd := (ack_arrives w (ln_snd l)).2; ln_rcv := ln_rcv l; ln_ready := ln_ready l; ln_wire := ln_wire l; ln_acks := a1 ++ a2;
                     ln_lost := ln_lost l |}
  | link_ack_lost a1 w a2 l : ln_acks l = a1 ++ w :: a2 →
      link_step l {| ln_snd := ln_snd l; ln_rcv := ln_rcv l; ln_ready := ln_ready l; ln_wire := ln_wire l; ln_acks := a1 ++ a2;
                     ln_lost := ln_lost l + imm_count w |}.

Definition link_start : Link := {| ln_snd := ∅; ln_rcv := ∅; ln_ready := 0; ln_wire := 0; ln_acks := []; ln_lost := 0 |}.
Definition link_reachable : Link → Prop := rtc link_step link_start.
Definition can_send (l : Link) : Prop := outstanding (peer_entry rkey (ln_snd l)) < peer_credit.
(** Nothing is under way that could give credit back. *)
Definition quiet (l : Link) : Prop := ln_ready l = 0%nat ∧ ln_wire l = 0%nat ∧ ln_acks l = [].
End link.
(** The messages the acknowledgements under way give back. *)
Definition acks_sum (acks : list Z) : Z := foldr (λ w s, imm_count w + s) 0 acks.

(** ** Lemmas: words *)

Lemma lor_low a n b : 0 ≤ n → 0 ≤ b < 2 ^ n → Z.lor (Z.shiftl a n) b = a * 2 ^ n + b.
Proof.
  intros Hn Hb. rewrite <-Z.add_lor_land. rewrite Z.shiftl_mul_pow2 by done.
  enough (Z.land (a * 2 ^ n) b = 0) as -> by lia. rewrite <-Z.shiftl_mul_pow2 by done.
  apply Z.bits_inj'. intros i Hi. rewrite Z.land_spec, Z.bits_0. destruct (decide (i < n)) as [Hin|Hin].
  - by rewrite Z.shiftl_spec_low.
  - assert (Z.testbit b i = false) as ->; [|by rewrite andb_false_r]. apply Z.testbit_false; [done|]. rewrite Z.div_small; [done|].
    split; [lia|]. eapply Z.lt_le_trans; [apply Hb|]. apply Z.pow_le_mono_r; lia.
Qed.

Ltac word_arith :=
  rewrite ?Z.shiftr_div_pow2 by lia;
  change 15 with (Z.ones 4); change 4095 with (Z.ones 12); change 255 with (Z.ones 8);
  rewrite ?Z.land_ones by lia; change (2 ^ 28) with 268435456 in *; change (2 ^ 16) with 65536 in *; change (2 ^ 8) with 256 in *;
  change (2 ^ 12) with 4096 in *; change (2 ^ 4) with 16 in *; Z.to_euclidean_division_equations; lia.

Lemma imm_ack_value src count : 0 ≤ pk_node_id src < 4096 → 0 ≤ pk_runtime_id src < 256 → 0 ≤ count < 256 →
  imm_ack src count = 2 ^ 28 + pk_node_id src * 2 ^ 16 + pk_runtime_id src * 2 ^ 8 + count.
Proof.
  intros Hn Hr Hc. unfold imm_ack, IMM_TYPE_ACK, IMM_TYPE_SHIFT, IMM_NODE_SHIFT, IMM_RUNTIME_SHIFT, IMM_NODE_MASK, IMM_RUNTIME_MASK, IMM_COUNT_MASK.
  change 4095 with (Z.ones 12). change 255 with (Z.ones 8). rewrite !Z.land_ones by lia.
  change (2 ^ 12) with 4096. change (2 ^ 8) with 256. rewrite !Z.mod_small by lia.
  rewrite <-!Z.lor_assoc. rewrite (lor_low (pk_runtime_id src) 8 count) by lia.
  rewrite (lor_low (pk_node_id src) 16) by (change (2 ^ 8) with 256; change (2 ^ 16) with 65536; lia).
  rewrite (lor_low 1 28) by (change (2 ^ 8) with 256; change (2 ^ 16) with 65536; change (2 ^ 28) with 268435456; lia). lia.
Qed.

Lemma imm_ack_decodes src count : 0 ≤ pk_node_id src < 4096 → 0 ≤ pk_runtime_id src < 256 → 0 ≤ count < 256 →
  imm_ty (imm_ack src count) = ImmAck ∧ imm_src (imm_ack src count) = src ∧ imm_count (imm_ack src count) = count.
Proof.
  intros Hn Hr Hc. rewrite imm_ack_value by done.
  unfold imm_ty, imm_src, imm_count, IMM_TYPE_SHIFT, IMM_NODE_SHIFT, IMM_RUNTIME_SHIFT, IMM_TYPE_MASK, IMM_NODE_MASK, IMM_RUNTIME_MASK, IMM_COUNT_MASK.
  split_and!.
  - assert (Z.land (Z.shiftr (2 ^ 28 + pk_node_id src * 2 ^ 16 + pk_runtime_id src * 2 ^ 8 + count) 28) 15 = 1) as -> by word_arith. done.
  - destruct src as [n r]. cbn in *. f_equal; word_arith.
  - word_arith.
Qed.

Lemma land_high w m n : 0 ≤ n → Z.land w (Z.shiftl m n) = Z.shiftl (Z.land (Z.shiftr w n) m) n.
Proof.
  intros Hn. apply Z.bits_inj'. intros i Hi. rewrite Z.land_spec, !Z.shiftl_spec by done. destruct (decide (i < n)) as [Hlt|Hge].
  - rewrite !(Z.testbit_neg_r _ (i - n)) by lia. by rewrite andb_false_r.
  - rewrite Z.land_spec, Z.shiftr_spec by lia. by replace (i - n + n) with i by lia.
Qed.

Lemma wr_send_value seq kind : 0 ≤ seq → wr_send_with_kind_seq seq kind = (2 ^ 8 + kind_u8 kind) * 2 ^ 48 + seq `mod` 2 ^ 48.
Proof.
  intros Hs. unfold wr_send_with_kind_seq, TAG_SEND, SEQ_MASK. change 281474976710655 with (Z.ones 48). change 255 with (Z.ones 8).
  rewrite !Z.land_ones by lia. assert (0 ≤ kind_u8 kind < 2 ^ 8) as Hk by (destruct kind; cbn; lia). rewrite (Z.mod_small (kind_u8 kind)) by done.
  rewrite <-Z.lor_assoc. pose proof (Z.mod_pos_bound seq (2 ^ 48) ltac:(lia)) as Hm. rewrite (lor_low (kind_u8 kind) 48) by lia.
  rewrite (lor_low 1 56); [lia|lia|]. change (2 ^ 56) with (2 ^ 8 * 2 ^ 48). nia.
Qed.

Lemma wr_send_decodes seq kind : 0 ≤ seq < 2 ^ 48 →
  wr_ty (wr_send_with_kind_seq seq kind) = WrSend ∧ wr_send_kind (wr_send_with_kind_seq seq kind) = kind
  ∧ wr_send_seq (wr_send_with_kind_seq seq kind) = seq.
Proof.
  intros Hs. rewrite wr_send_value by lia. rewrite Z.mod_small by lia. assert (0 ≤ kind_u8 kind < 2 ^ 8) as Hk by (destruct kind; cbn; lia).
  split_and!.
  - unfold wr_ty, TAG_MASK_64. rewrite land_high by lia. rewrite Z.shiftr_div_pow2 by lia.
    change (2 ^ 56) with (2 ^ 48 * 2 ^ 8). rewrite <-Z.div_div by lia. change 255 with (Z.ones 8). rewrite Z.land_ones by lia.
    replace ((2 ^ 8 + kind_u8 kind) * 2 ^ 48 + seq) with (seq + (2 ^ 8 + kind_u8 kind) * 2 ^ 48) by lia.
    rewrite Z.div_add, (Z.div_small seq) by lia. by destruct kind.
  - unfold wr_send_kind. rewrite Z.shiftr_div_pow2 by lia.
    replace ((2 ^ 8 + kind_u8 kind) * 2 ^ 48 + seq) with (seq + (2 ^ 8 + kind_u8 kind) * 2 ^ 48) by lia.
    rewrite Z.div_add, (Z.div_small seq) by lia. change 255 with (Z.ones 8). rewrite Z.land_ones by lia. by destruct kind.
  - unfold wr_send_seq, SEQ_MASK. change 281474976710655 with (Z.ones 48). rewrite Z.land_ones by lia.
    rewrite Z.add_comm, Z.mod_add by lia. by apply Z.mod_small.
Qed.

(** ** Lemmas: credits *)

Section credit.
Context (peer_credit buf_ack_batch : Z) (skey rkey : PeerKey).
Context (Hcredit : 0 < peer_credit < u32_mod) (Hbatch : 0 < buf_ack_batch < 256).
Context (Hnode : 0 ≤ pk_node_id rkey < 4096) (Hrt : 0 ≤ pk_runtime_id rkey < 256).

Record link_inv (l : Link) : Prop := {
  li_sum : outstanding (peer_entry rkey (ln_snd l))
           = Z.of_nat (ln_ready l) + Z.of_nat (ln_wire l) + cr_not_acked (peer_entry skey (ln_rcv l)) + acks_sum (ln_acks l) + ln_lost l;
  li_lost : 0 ≤ ln_lost l;
  li_max : outstanding (peer_entry rkey (ln_snd l)) ≤ peer_credit;
  li_batch : 0 ≤ cr_not_acked (peer_entry skey (ln_rcv l)) < buf_ack_batch;
  li_acks : Forall (λ w, ∃ c, w = imm_ack rkey c ∧ 0 < c < 256) (ln_acks l)
}.

Lemma acks_sum_app a b : acks_sum (a ++ b) = acks_sum a + acks_sum b.
Proof. unfold acks_sum. induction a as [|w a IH]; [done|]. rewrite <-app_comm_cons. cbn [foldr]. rewrite IH. lia. Qed.
Lemma acks_sum_nonneg acks : Forall (λ w, ∃ c, w = imm_ack rkey c ∧ 0 < c < 256) acks → 0 ≤ acks_sum acks.
Proof.
  induction 1 as [|w acks (c & -> & Hc) _ IH]; [done|]. cbn. destruct (imm_ack_decodes rkey c) as (_ & _ & ->); [lia..|]. unfold acks_sum in IH. lia.
Qed.

#[local] Arguments acks_sum : simpl never.
Lemma acks_sum_cons w a : acks_sum (w :: a) = imm_count w + acks_sum a.
Proof. done. Qed.

Lemma sent_step s a : (s - a) `mod` u64_mod < u64_mod - 1 → ((s + 1) `mod` u64_mod - a) `mod` u64_mod = (s - a) `mod` u64_mod + 1.
Proof. intros H. rewrite Zminus_mod_idemp_l. replace (s + 1 - a) with (s - a + 1) by lia. rewrite <-Zplus_mod_idemp_l.
  rewrite Z.mod_small; [done|]. pose proof (Z.mod_pos_bound (s - a) u64_mod ltac:(done)). lia. Qed.
Lemma unsent_step s a : 1 ≤ (s - a) `mod` u64_mod → ((s - 1) `mod` u64_mod - a) `mod` u64_mod = (s - a) `mod` u64_mod - 1.
Proof. intros H. rewrite Zminus_mod_idemp_l. replace (s - 1 - a) with (s - a - 1) by lia. rewrite <-Zminus_mod_idemp_l.
  rewrite Z.mod_small; [done|]. pose proof (Z.mod_pos_bound (s - a) u64_mod ltac:(done)). lia. Qed.
Lemma acked_step s a c : 0 ≤ c ≤ (s - a) `mod` u64_mod → (s - (a + c) `mod` u64_mod) `mod` u64_mod = (s - a) `mod` u64_mod - c.
Proof. intros H. rewrite Zminus_mod_idemp_r. replace (s - (a + c)) with (s - a - c) by lia. rewrite <-Zminus_mod_idemp_l.
  rewrite Z.mod_small; [done|]. pose proof (Z.mod_pos_bound (s - a) u64_mod ltac:(done)). lia. Qed.

Lemma peer_entry_insert k e m : peer_entry k (<[k := e]> m) = e.
Proof. unfold peer_entry. by rewrite lookup_insert_eq. Qed.

(** What a drain does to the count of the receiver. *)
Lemma note_drain_count post m r m' : 0 ≤ cr_not_acked (peer_entry skey m) < buf_ack_batch →
  note_drain buf_ack_batch post skey m = (r, m') →
  match r with
  | Ok 0 => cr_not_acked (peer_entry skey m') = cr_not_acked (peer_entry skey m) + 1 ∧ cr_not_acked (peer_entry skey m') < buf_ack_batch
  | Ok c => c = cr_not_acked (peer_entry skey m) + 1 ∧ 0 < c < 256 ∧ cr_not_acked (peer_entry skey m') = 0
  | Err _ => cr_not_acked (peer_entry skey m') = 0
  end.
Proof.
  intros Hna. assert (u32_mod = 4294967296) as Hu32 by done. unfold note_drain. rewrite Z.min_l by lia.
  destruct (buf_ack_batch <=? _) eqn:Hle; to_prop; cbn [fst].
  - rewrite (proj2 (Z.ltb_lt _ _)) by lia. destruct post as [u|e]; cbn [mbind result_bind]; intros [= <- <-]; rewrite peer_entry_insert; [|done].
    destruct (cr_not_acked (peer_entry skey m) + 1) eqn:E; [lia|split_and!; [done|lia..|done]|lia].
  - intros [= <- <-]. rewrite peer_entry_insert. cbn. lia.
Qed.

(** The steps on the sender's table. *)
Lemma credit_taken m t m' : outstanding (peer_entry rkey m) < u64_mod - 1 → take_credit peer_credit t rkey m = (true, m') →
  outstanding (peer_entry rkey m) < peer_credit ∧ outstanding (peer_entry rkey m') = outstanding (peer_entry rkey m) + 1.
Proof.
  intros Hlt. unfold take_credit. destruct (_ <? _) eqn:Hc; [|done]. to_prop. intros [= <-]. rewrite peer_entry_insert.
  split; [done|]. unfold outstanding in *. cbn. by rewrite sent_step.
Qed.
Lemma credit_waits m t m' : take_credit peer_credit t rkey m = (false, m') → outstanding (peer_entry rkey m') = outstanding (peer_entry rkey m).
Proof. unfold take_credit. destruct (_ <? _); [done|]. intros [= <-]. by rewrite peer_entry_insert. Qed.
Lemma credit_undone m : 1 ≤ outstanding (peer_entry rkey m) → outstanding (peer_entry rkey (undo_credit rkey m)) = outstanding (peer_entry rkey m) - 1.
Proof.
  unfold undo_credit, peer_entry. destruct (m !! rkey) as [e|] eqn:E; cbn [default]; [|by intros []].
  intros H. rewrite lookup_insert_eq. unfold outstanding in *. cbn. by rewrite unsent_step.
Qed.
Lemma credit_acked m c : 0 < c < 256 → c ≤ outstanding (peer_entry rkey m) →
  outstanding (peer_entry rkey (ack_arrives (imm_ack rkey c) m).2) = outstanding (peer_entry rkey m) - c.
Proof.
  intros Hc Hle. unfold ack_arrives. destruct (imm_ack_decodes rkey c) as (-> & -> & ->); [lia..|]. cbn [snd]. rewrite peer_entry_insert.
  unfold outstanding in *. cbn. rewrite acked_step; lia.
Qed.

Lemma link_inv_step l l' : link_inv l → link_step peer_credit buf_ack_batch skey rkey l l' → link_inv l'.
Proof.
  intros [Hsum Hlost Hmax Hb Hacks] Hstep. pose proof (acks_sum_nonneg _ Hacks) as Hnn. assert (u32_mod = 4294967296) as Hu32 by done.
  assert (u64_mod = 18446744073709551616) as Hu by done.
  destruct Hstep as [t m l Ht|t m l Ht|n l Hr|n l Hr|n l Hr|n l Hw|n post m l Hw Hd|n post c m l Hw Hd Hc|n post e m l Hw Hd|a1 w a2 l Ha|a1 w a2 l Ha];
    try (apply note_drain_count in Hd; [|done]).
  - destruct (credit_taken (ln_snd l) t m ltac:(lia) Ht) as [H1 H2]. split; cbn [ln_snd ln_rcv ln_ready ln_wire ln_acks ln_lost]; try done; lia.
  - apply credit_waits in Ht. split; cbn [ln_snd ln_rcv ln_ready ln_wire ln_acks ln_lost]; try done; lia.
  - split; cbn [ln_snd ln_rcv ln_ready ln_wire ln_acks ln_lost]; try done; lia.
  - pose proof (credit_undone (ln_snd l) ltac:(lia)). split; cbn [ln_snd ln_rcv ln_ready ln_wire ln_acks ln_lost]; try done; lia.
  - split; cbn [ln_snd ln_rcv ln_ready ln_wire ln_acks ln_lost]; try done; lia.
  - split; cbn [ln_snd ln_rcv ln_ready ln_wire ln_acks ln_lost]; try done; lia.
  - split; cbn [ln_snd ln_rcv ln_ready ln_wire ln_acks ln_lost]; try done; lia.
  - destruct c as [|c|c]; [lia| |lia]. destruct Hd as (Heq & Hc' & Hz). destruct (imm_ack_decodes rkey (Z.pos c)) as (_ & _ & Hcnt); [lia..|].
    split; cbn [ln_snd ln_rcv ln_ready ln_wire ln_acks ln_lost]; rewrite ?acks_sum_app, ?acks_sum_cons, ?Hcnt; try done; try (change (acks_sum []) with 0; lia).
    apply Forall_app. split; [done|]. constructor; [|constructor]. by exists (Z.pos c).
  - split; cbn [ln_snd ln_rcv ln_ready ln_wire ln_acks ln_lost]; try done; lia.
  - rewrite Ha in *. rewrite acks_sum_app, acks_sum_cons in *. apply Forall_app in Hacks as [Ha1 Ha2]. apply Forall_cons in Ha2 as [(c & -> & Hc) Ha2].
    pose proof (acks_sum_nonneg _ Ha1). pose proof (acks_sum_nonneg _ Ha2). destruct (imm_ack_decodes rkey c) as (_ & _ & Hcnt); [lia..|].
    rewrite Hcnt in *. pose proof (credit_acked (ln_snd l) c Hc ltac:(lia)).
    split; cbn [ln_snd ln_rcv ln_ready ln_wire ln_acks ln_lost]; rewrite ?acks_sum_app; [lia|lia|lia|lia|by apply Forall_app].
  - rewrite Ha in *. rewrite acks_sum_app, acks_sum_cons in *. apply Forall_app in Hacks as [Ha1 Ha2]. apply Forall_cons in Ha2 as [(c & -> & Hc) Ha2].
    pose proof (acks_sum_nonneg _ Ha1). pose proof (acks_sum_nonneg _ Ha2). destruct (imm_ack_decodes rkey c) as (_ & _ & Hcnt); [lia..|].
    rewrite Hcnt in *. split; cbn [ln_snd ln_rcv ln_ready ln_wire ln_acks ln_lost]; rewrite ?acks_sum_app, ?Hcnt; [lia|lia|lia|lia|by apply Forall_app].
Qed.

(** Lost credits stay lost. *)
Lemma lost_grows l l' : link_inv l → rtc (link_step peer_credit buf_ack_batch skey rkey) l l' → ln_lost l ≤ ln_lost l' ∧ link_inv l'.
Proof.
  intros Hi Hr. revert Hi. induction Hr as [l|l l1 l2 Hst _ IH]; intros Hi; [done|].
  destruct (IH (link_inv_step _ _ Hi Hst)) as [Hle Hi2]. split; [|done]. etrans; [|exact Hle]. destruct Hi as [_ _ _ Hb Hacks].
  destruct Hst as [| | | | | | | | |a1 w a2 l Ha|a1 w a2 l Ha]; cbn [ln_lost]; try lia.
  rewrite Ha in Hacks. apply Forall_app in Hacks as [_ Ha2]. apply Forall_cons in Ha2 as [(c & -> & Hc) _].
  destruct (imm_ack_decodes rkey c) as (_ & _ & ->); lia.
Qed.

Lemma link_start_inv : link_inv link_start.
Proof.
  split; unfold peer_entry; cbn [ln_snd ln_rcv ln_ready ln_wire ln_acks ln_lost link_start]; rewrite ?lookup_empty; [done|done| |cbn; lia|constructor].
  change (outstanding (default PeerCredit_new None)) with 0. lia.
Qed.
Lemma reachable_inv l : link_reachable peer_credit buf_ack_batch skey rkey l → link_inv l.
Proof. unfold link_reachable. apply rtc_ind_r; [exact link_start_inv|]. intros x y _ Hxy Hx. by eapply link_inv_step. Qed.
End credit.

Section stall.
Context (peer_credit buf_ack_batch : Z) (skey rkey : PeerKey).
Context (Hcredit : 0 < peer_credit < u32_mod) (Hsmall : peer_credit < buf_ack_batch).

Definition sent_entry (k : Z) : PeerCredit := {| cr_sent := k; cr_acked := 0; cr_not_acked := 0; cr_wakers := [] |}.
Definition drained_entry (k : Z) : PeerCredit := {| cr_sent := 0; cr_acked := 0; cr_not_acked := k; cr_wakers := [] |}.
(** After [k] sends, and then [j] drains. *)
Definition after_sends (k : nat) : Link :=
  {| ln_snd := match k with O => ∅ | _ => {[rkey := sent_entry (Z.of_nat k)]} end; ln_rcv := ∅; ln_ready := 0; ln_wire := k; ln_acks := []; ln_lost := 0 |}.
Definition after_drains (k j : nat) : Link :=
  {| ln_snd := {[rkey := sent_entry (Z.of_nat k)]};
     ln_rcv := match j with O => ∅ | _ => {[skey := drained_entry (Z.of_nat j)]} end; ln_ready := 0; ln_wire := k - j; ln_acks := []; ln_lost := 0 |}.

Lemma sends_reachable k : Z.of_nat k ≤ peer_credit → link_reachable peer_credit buf_ack_batch skey rkey (after_sends k).
Proof.
  assert (u32_mod = 4294967296) as Hu32 by done. assert (u64_mod = 18446744073709551616) as Hu by done.
  induction k as [|k IH]; intros Hk; [apply rtc_refl|].
  set (mid := {| ln_snd := ln_snd (after_sends (S k)); ln_rcv := ∅; ln_ready := 1; ln_wire := k; ln_acks := []; ln_lost := 0 |}).
  apply (rtc_r _ mid); [|by apply (link_post _ _ _ _ 0 mid)]. eapply rtc_r; [apply IH; lia|].
  refine (link_credit _ _ _ _ 0%nat (ln_snd (after_sends (S k))) (after_sends k) _). unfold take_credit.
  assert (peer_entry rkey (ln_snd (after_sends k)) = sent_entry (Z.of_nat k)) as ->.
  { unfold peer_entry. destruct k; cbn; [by rewrite lookup_empty|by rewrite lookup_singleton_eq]. }
  unfold outstanding. cbn [cr_sent cr_acked sent_entry]. rewrite Z.sub_0_r, !Z.mod_small by lia.
  rewrite (proj2 (Z.ltb_lt _ _)) by lia. unfold after_sends. cbn [ln_snd]. f_equal.
  replace (Z.of_nat k + 1) with (Z.of_nat (S k)) by lia. destruct k; [done|]. cbn. by rewrite insert_singleton_eq.
Qed.

Lemma drains_reachable k j : (0 < k)%nat → Z.of_nat k ≤ peer_credit → (j ≤ k)%nat →
  link_reachable peer_credit buf_ack_batch skey rkey (after_drains k j).
Proof.
  assert (u32_mod = 4294967296) as Hu32 by done. intros Hk0 Hk. induction j as [|j IH]; intros Hj.
  - pose proof (sends_reachable k Hk) as Hr. unfold after_sends, after_drains in *. rewrite Nat.sub_0_r. by destruct k; [lia|].
  - eapply rtc_r; [apply IH; lia|]. refine (link_drain _ _ _ _ (k - S j)%nat (Ok ()) _ (after_drains k j) _ _); [cbn; lia|].
    unfold note_drain.
    assert (peer_entry skey (ln_rcv (after_drains k j)) = drained_entry (Z.of_nat j)) as ->.
    { unfold peer_entry. destruct j; cbn; [by rewrite lookup_empty|by rewrite lookup_singleton_eq]. }
    cbn [cr_not_acked drained_entry]. rewrite Z.min_l by lia. rewrite (proj2 (Z.leb_gt _ _)) by lia. unfold after_drains. cbn [ln_rcv].
    f_equal. replace (Z.of_nat j + 1) with (Z.of_nat (S j)) by lia. destruct j; [done|]. cbn. by rewrite insert_singleton_eq.
Qed.

Definition stuck (l : Link) : Prop := peer_credit ≤ outstanding (peer_entry rkey (ln_snd l)) ∧ quiet l.
Lemma stuck_step l l' : stuck l → link_step peer_credit buf_ack_batch skey rkey l l' → stuck l'.
Proof.
  intros (Ho & Hr & Hw & Ha) Hstep.
  destruct Hstep as [t m l Ht|t m l Ht|n l Hr'|n l Hr'|n l Hr'|n l Hw'|n post m l Hw' _|n post c m l Hw' _ _|n post e m l Hw' _|a1 w a2 l Ha'|a1 w a2 l Ha'];
    try congruence; try (rewrite Ha in Ha'; by destruct a1).
  - unfold take_credit in Ht. destruct (_ <? _) eqn:Hlt in Ht; to_prop; [lia|done].
  - apply credit_waits in Ht. split; [cbn; lia|done].
Qed.
End stall.

(** ** Lemmas: the send ring *)

Section ring.
Context (alive : nat → bool).

(** A history of the ring; [busy] are the buffers in flight, the oldest first,
    and completions come in that order. *)
Inductive ring_step : SendBuffers * list Z → SendBuffers * list Z → Prop :=
  | ring_take t idx b b' busy : ring_acquire t b = (Some idx, b') → ring_step (b, busy) (b', busy ++ [idx])
  | ring_wait t b b' busy : ring_acquire t b = (None, b') → ring_step (b, busy) (b', busy)
  | ring_done x b b' given busy : ring_push alive 1 b = (given, b') → ring_step (b, x :: busy) (b', busy ++ given.*2).

Definition busy_at (cnt : nat) (lo : Z) (n : nat) : list Z := (λ i, (lo + Z.of_nat i) `mod` Z.of_nat cnt) <$> seq 0 n.
Definition ring_ok (s : SendBuffers * list Z) : Prop :=
  let '(b, busy) := s in
  let lo := sb_tail b - Z.of_nat (sb_cnt b) in
  (0 < sb_cnt b)%nat ∧ lo ≤ sb_front b ≤ sb_tail b ∧ busy = busy_at (sb_cnt b) lo (Z.to_nat (sb_front b - lo)).

Lemma busy_at_app cnt lo n k : busy_at cnt lo (n + k) = busy_at cnt lo n ++ busy_at cnt (lo + Z.of_nat n) k.
Proof.
  unfold busy_at. rewrite seq_app, fmap_app. f_equal. apply list_eq. intros i.
  rewrite !list_lookup_fmap. destruct (decide (i < k)%nat); [rewrite !lookup_seq_lt by done|by rewrite !lookup_seq_ge by lia].
  cbn. do 2 f_equal. lia.
Qed.
Lemma busy_at_NoDup cnt lo n : (n ≤ cnt)%nat → NoDup (busy_at cnt lo n).
Proof.
  intros Hn. apply NoDup_alt. intros i j x. unfold busy_at. rewrite !list_lookup_fmap_Some.
  intros (a & -> & [-> Hi]%lookup_seq) (c & Hx & [-> Hj]%lookup_seq). cbn in *.
  assert ((Z.of_nat i - Z.of_nat j) `mod` Z.of_nat cnt = 0) as Hd.
  { replace (Z.of_nat i - Z.of_nat j) with (lo + Z.of_nat i - (lo + Z.of_nat j)) by lia.
    rewrite Zminus_mod, Hx, Z.sub_diag. done. }
  apply Z.mod_divide in Hd as [q Hq]; [|lia]. assert (q = 0 ∨ 1 ≤ q ∨ q ≤ -1) as [->|[Hq1|Hq1]] by lia; [lia|exfalso; nia|exfalso; nia].
Qed.

Lemma push_loop_spec waiters front tail cnt given front' rest :
  front ≤ tail → push_loop alive waiters front tail cnt = (given, front', rest) →
  given.*2 = busy_at cnt front (Z.to_nat (front' - front)) ∧ front ≤ front' ≤ tail.
Proof.
  revert front given front' rest. induction waiters as [|t waiters IH]; intros front given front' rest Hle; cbn [push_loop].
  { intros [= <- <- <-]. rewrite Z.sub_diag. split; [done|lia]. }
  destruct (tail <=? front) eqn:Hf; to_prop; [intros [= <- <- <-]; rewrite Z.sub_diag; split; [done|lia]|].
  destruct (alive t); [|by apply IH].
  destruct (push_loop alive waiters (front + 1) tail cnt) as [[g f] r] eqn:Hp. intros [= <- <- <-].
  destruct (IH (front + 1) g f r ltac:(lia) Hp) as [Hg Hb]. split; [|lia]. rewrite fmap_cons, Hg. cbn [snd].
  replace (Z.to_nat (f - front)) with (1 + Z.to_nat (f - (front + 1)))%nat by lia. rewrite busy_at_app. cbn. by rewrite Z.add_0_r.
Qed.

Lemma ring_ok_step s s' : ring_ok s → ring_step s s' → ring_ok s'.
Proof.
  intros Hok Hstep. destruct Hstep as [t idx b b' busy Ht|t b b' busy Ht|x b b' given busy Hp]; destruct Hok as (Hc & Hf & Hb);
    unfold ring_acquire, try_pop, ring_push in *.
  - destruct (_ <=? _) eqn:Hle in Ht; to_prop; [done|]. injection Ht as <- <-. cbn. split_and!; [done|lia|lia|]. rewrite Hb.
    replace (Z.to_nat (sb_front b + 1 - (sb_tail b - Z.of_nat (sb_cnt b)))) with (Z.to_nat (sb_front b - (sb_tail b - Z.of_nat (sb_cnt b))) + 1)%nat by lia.
    rewrite busy_at_app. f_equal. unfold busy_at. cbn. do 2 f_equal. lia.
  - destruct (_ <=? _) eqn:Hle in Ht; to_prop; [|done]. injection Ht as <-. done.
  - destruct (push_loop _ _ _ _ _) as [[g f] r] eqn:Hl in Hp. injection Hp as <- <-.
    destruct (push_loop_spec (sb_waiters b) (sb_front b) (sb_tail b + 1) (sb_cnt b) g f r ltac:(lia) Hl) as [Hg Hb']. cbn. split_and!; [done| |lia|].
    + destruct (Z.to_nat (sb_front b - (sb_tail b - Z.of_nat (sb_cnt b)))) eqn:E; [done|]. lia.
    + destruct (Z.to_nat (sb_front b - (sb_tail b - Z.of_nat (sb_cnt b)))) as [|n] eqn:E; [done|].
      change (S n) with (1 + n)%nat in Hb. rewrite busy_at_app in Hb. injection Hb as _ ->. rewrite Hg.
      replace (Z.to_nat (f - (sb_tail b + 1 - Z.of_nat (sb_cnt b)))) with (n + Z.to_nat (f - sb_front b))%nat by lia.
      rewrite busy_at_app. f_equal; f_equal; lia.
Qed.
End ring.

(** ** Properties *)

(** C37.  The credit window of a link, in every state that its steps reach,
    whatever their order: tasks that take a credit, post, fail to post or are
    dropped, messages that are drained, lost or dropped, acknowledgements that
    are posted, cannot be posted, arrive or are lost.  The messages outstanding at
    the sender are those about to be posted, those on the wire, those drained but
    not acknowledged, those in acknowledgements under way and those whose credit
    was lost, and never exceed the peer credit.  A quiet link, with nothing under
    way, has credit to send exactly when the messages not acknowledged and the
    credits lost are fewer than the credit; so it does not stall as long as the
    acknowledgement batch and the credits lost together are no more than the
    credit.  Lost credits never come back: once all of them are lost the sender
    never gets credit again. *)
Theorem credit_window peer_credit buf_ack_batch skey rkey l :
  0 < peer_credit < u32_mod → 0 < buf_ack_batch < 256 → 0 ≤ pk_node_id rkey < 4096 → 0 ≤ pk_runtime_id rkey < 256 →
  link_reachable peer_credit buf_ack_batch skey rkey l →
  let not_acked := cr_not_acked (peer_entry skey (ln_rcv l)) in
  (outstanding (peer_entry rkey (ln_snd l))
   = Z.of_nat (ln_ready l) + Z.of_nat (ln_wire l) + not_acked + acks_sum (ln_acks l) + ln_lost l
   ∧ outstanding (peer_entry rkey (ln_snd l)) ≤ peer_credit
   ∧ 0 ≤ not_acked < buf_ack_batch ∧ 0 ≤ acks_sum (ln_acks l) ∧ 0 ≤ ln_lost l)
  ∧ (quiet l → (can_send peer_credit rkey l ↔ not_acked + ln_lost l < peer_credit))
  ∧ (quiet l → buf_ack_batch + ln_lost l ≤ peer_credit → can_send peer_credit rkey l)
  ∧ (peer_credit ≤ ln_lost l → ∀ l', rtc (link_step peer_credit buf_ack_batch skey rkey) l l' → ¬ can_send peer_credit rkey l').
Proof.
  intros Hc Hb Hn Hr Hl. apply reachable_inv in Hl; [|done..]. pose proof Hl as [Hsum Hlost Hmax Hna Hacks].
  pose proof (acks_sum_nonneg rkey Hn Hr _ Hacks) as Hnn. cbn zeta. split; [done|].
  assert (quiet l → (can_send peer_credit rkey l ↔ cr_not_acked (peer_entry skey (ln_rcv l)) + ln_lost l < peer_credit)) as Hq.
  { intros (H1 & H2 & H3). unfold can_send. rewrite Hsum, H1, H2, H3. change (acks_sum []) with 0. lia. }
  split; [done|]. split; [intros Hquiet Hle; apply Hq; [done|lia]|].
  intros Hall l' Hst. destruct (lost_grows peer_credit buf_ack_batch skey rkey Hc Hb Hn Hr l l' Hl Hst) as [Hle [Hsum' _ _ Hna' Hacks']].
  pose proof (acks_sum_nonneg rkey Hn Hr _ Hacks'). unfold can_send. lia.
Qed.

(** C38.  A peer credit below the acknowledgement batch stalls the link, without
    any loss: after as many messages as there is credit, all drained by the
    receiver, nothing is under way, and whatever happens next the sender never
    gets credit again. *)
Theorem small_credit_stalls peer_credit buf_ack_batch skey rkey :
  0 < peer_credit < u32_mod → peer_credit < buf_ack_batch →
  ∃ l, link_reachable peer_credit buf_ack_batch skey rkey l ∧ ln_wire l = 0%nat ∧ quiet l ∧ ln_lost l = 0
    ∧ ∀ l', rtc (link_step peer_credit buf_ack_batch skey rkey) l l' → ¬ can_send peer_credit rkey l'.
Proof.
  intros Hc Hs. assert (u32_mod = 4294967296) as Hu32 by done.
  exists (after_drains skey rkey (Z.to_nat peer_credit) (Z.to_nat peer_credit)).
  assert (stuck peer_credit rkey (after_drains skey rkey (Z.to_nat peer_credit) (Z.to_nat peer_credit))) as Hst.
  { split; [|split_and!; cbn; [done|lia|done]]. cbn. unfold peer_entry. rewrite lookup_singleton_eq. unfold outstanding. cbn.
    rewrite Z.sub_0_r, Z2Nat.id, Z.mod_small by (unfold u64_mod; lia). lia. }
  split; [apply drains_reachable; [done|done|lia..]|]. split; [cbn; lia|]. split; [apply Hst|]. split; [done|].
  intros l' Hrtc. assert (stuck peer_credit rkey l') as (Ho & _).
  { induction Hrtc as [|x y z Hxy _ IH]; [done|]. apply IH. by eapply stuck_step. }
  unfold can_send. lia.
Qed.

(** The send ring never hands out a buffer in flight: along every history of
    tasks that take a buffer or wait for one, tasks that vanish while waiting,
    and completions in the order of the sends, the buffers in flight are
    different and at most as many as there are. *)
Theorem send_ring_distinct alive cnt b busy :
  (0 < cnt)%nat → rtc (ring_step alive) (SendBuffers_new cnt, []) (b, busy) → NoDup busy ∧ (length busy ≤ cnt)%nat.
Proof.
  intros Hc Hr. assert (sb_cnt b = cnt ∧ ring_ok (b, busy)) as [<- (_ & Hf & ->)].
  { refine (rtc_ind_r (λ s, sb_cnt s.1 = cnt ∧ ring_ok s) _ _ _ (b, busy) Hr).
    - split; [done|]. cbn. split_and!; [done|lia|lia|]. by replace (Z.to_nat (0 - (Z.of_nat cnt - Z.of_nat cnt))) with 0%nat by lia.
    - intros s s' _ Hstep [Hcnt Hok]. split; [|by eapply ring_ok_step]. rewrite <-Hcnt.
      destruct Hstep as [t idx b0 b' bs Ht|t b0 b' bs Ht|x b0 b' given bs Hp]; unfold ring_acquire, try_pop, ring_push in *; cbn.
      + destruct (_ <=? _) in Ht; [done|]. by injection Ht as <- <-.
      + destruct (_ <=? _) in Ht; [|done]. by injection Ht as <-.
      + destruct (push_loop _ _ _ _ _) as [[g f] r] in Hp. by injection Hp as <- <-. }
  split; [apply busy_at_NoDup; lia|]. unfold busy_at. rewrite length_fmap, length_seq. lia.
Qed.

(** What the words carry: an acknowledgement decodes to its sender and count
    for every node id below 4096, runtime below 256 and count below 256, and the
    identifier of a send to its kind and sequence number. *)
Theorem words_roundtrip src count seq kind :
  0 ≤ pk_node_id src < 4096 → 0 ≤ pk_runtime_id src < 256 → 0 ≤ count < 256 → 0 ≤ seq < 2 ^ 48 →
  imm_ty (imm_ack src count) = ImmAck ∧ imm_src (imm_ack src count) = src ∧ imm_count (imm_ack src count) = count
  ∧ wr_ty (wr_send_with_kind_seq seq kind) = WrSend ∧ wr_send_kind (wr_send_with_kind_seq seq kind) = kind
  ∧ wr_send_seq (wr_send_with_kind_seq seq kind) = seq.
Proof.
  intros Hn Hr Hc Hs. destruct (imm_ack_decodes src count Hn Hr Hc) as (? & ? & ?). destruct (wr_send_decodes seq kind Hs) as (? & ? & ?).
  done.
Qed.

(** ** Evaluation *)

Definition peer_a : PeerKey := {| pk_node_id := 1; pk_runtime_id := 0 |}.
Definition peer_b : PeerKey := {| pk_node_id := 2; pk_runtime_id := 0 |}.

(** A link with a credit of two that acknowledges every message: one message
    whose acknowledgement cannot be posted, or arrives. *)
Definition sent_one (l : Link) : Link :=
  {| ln_snd := (take_credit 2 0 peer_b (ln_snd l)).2; ln_rcv := ln_rcv l; ln_ready := 0; ln_wire := 1; ln_acks := []; ln_lost := ln_lost l |}.
Definition unacked_one (l : Link) : Link :=
  {| ln_snd := ln_snd l; ln_rcv := (note_drain 1 (Err "no space") peer_a (ln_rcv l)).2; ln_ready := 0; ln_wire := 0; ln_acks := [];
     ln_lost := ln_lost l + (cr_not_acked (peer_entry peer_a (ln_rcv l)) + 1) |}.
Definition acked_one (l : Link) : Link :=
  {| ln_snd := (ack_arrives (imm_ack peer_b 1) (ln_snd l)).2; ln_rcv := (note_drain 1 (Ok ()) peer_a (ln_rcv l)).2; ln_ready := 0; ln_wire := 0;
     ln_acks := []; ln_lost := ln_lost l |}.
Lemma sent_steps l : quiet l → (take_credit 2 0 peer_b (ln_snd l)).1 = true → rtc (link_step 2 1 peer_a peer_b) l (sent_one l).
Proof.
  intros (H1 & H2 & H3) Ht. destruct l as [s r ready w acks lost]. cbn in *. subst. eapply rtc_l; [apply (link_credit _ _ _ _ 0%nat (take_credit 2 0 peer_b s).2)|].
  { cbn [ln_snd]. destruct (take_credit 2 0 peer_b s) as [b m]. cbn in *. by subst. }
  apply rtc_once. by apply (link_post _ _ _ _ 0).
Qed.

Definition after_loss : Link := unacked_one (sent_one link_start).
Definition after_ack : Link := acked_one (sent_one after_loss).
Definition after_losses : Link := unacked_one (sent_one after_ack).
Lemma losses_reachable : link_reachable 2 1 peer_a peer_b after_ack ∧ link_reachable 2 1 peer_a peer_b after_losses.
Proof.
  assert (link_reachable 2 1 peer_a peer_b after_loss) as H1.
  { eapply rtc_r; [by apply sent_steps|]. by apply (link_drain_err _ _ _ _ 0 (Err "no space") "no space"). }
  assert (link_reachable 2 1 peer_a peer_b after_ack) as H2.
  { unfold link_reachable. etrans; [exact H1|]. eapply rtc_r; [eapply rtc_r; [by apply sent_steps|]|].
    - apply (link_drain_ack _ _ _ _ 0 (Ok ()) 1 (ln_rcv after_ack)); [done|vm_compute; reflexivity|done].
    - by apply (link_ack _ _ _ _ [] (imm_ack peer_b 1) []). }
  split; [done|]. unfold link_reachable. etrans; [exact H2|]. eapply rtc_r; [apply sent_steps; [done|vm_compute; reflexivity]|].
  by apply (link_drain_err _ _ _ _ 0 (Err "no space") "no space").
Qed.

Lemma credit_window_witness :
  (ln_lost after_ack = 1 ∧ can_send 2 peer_b after_ack)
  ∧ ln_lost after_losses = 2 ∧ ∀ l', rtc (link_step 2 1 peer_a peer_b) after_losses l' → ¬ can_send 2 peer_b l'.
Proof.
  destruct losses_reachable as [H1 H2].
  assert (0 < 2 < u32_mod) as Hc by (vm_compute; split; reflexivity). assert (0 < 1 < 256) as Hb by (vm_compute; split; reflexivity).
  assert (0 ≤ pk_node_id peer_b < 4096) as Hn by (vm_compute; split; [discriminate|reflexivity]).
  assert (0 ≤ pk_runtime_id peer_b < 256) as Hr by (vm_compute; split; [discriminate|reflexivity]).
  split; [split|split].
  - vm_compute. reflexivity.
  - apply (credit_window 2 1 peer_a peer_b after_ack Hc Hb Hn Hr H1); [done|vm_compute; discriminate].
  - vm_compute. reflexivity.
  - apply (credit_window 2 1 peer_a peer_b after_losses Hc Hb Hn Hr H2). vm_compute. discriminate.
Defined.
Lemma small_credit_stalls_witness :
  ∃ l, link_reachable 2 4 peer_a peer_b l ∧ ln_wire l = 0%nat ∧ quiet l ∧ ln_lost l = 0
    ∧ ∀ l', rtc (link_step 2 4 peer_a peer_b) l l' → ¬ can_send 2 peer_b l'.
Proof. apply (small_credit_stalls 2 4 peer_a peer_b); vm_compute; [split|]; reflexivity. Defined.
Lemma send_ring_distinct_witness : NoDup [0; 1] ∧ (length [0; 1] ≤ 4)%nat.
Proof.
  apply (send_ring_distinct (λ _, true) 4 (try_pop (try_pop (SendBuffers_new 4)).2).2 [0; 1]); [lia|].
  apply rtc_l with ((try_pop (SendBuffers_new 4)).2, [0]).
  - apply (ring_take _ 0%nat 0 _ _ []). reflexivity.
  - apply rtc_once. apply (ring_take _ 0%nat 1 _ _ [0]). reflexivity.
Defined.
Lemma words_roundtrip_witness : imm_src (imm_ack peer_b 4) = peer_b.
Proof.
  apply (words_roundtrip peer_b 4 7 KUnary); vm_compute; split; try discriminate; reflexivity.
Defined.

(** A node id or a count that does not fit its field decodes to another one. *)
Example imm_truncates :
  pk_node_id (imm_src (imm_ack {| pk_node_id := 4097; pk_runtime_id := 0 |} 256)) = 1
  ∧ imm_count (imm_ack peer_b 256) = 0.
Proof. vm_compute. split; reflexivity. Qed.

(** The buffer of a post that fails is returned at once ([send_bufs.push(1)]),
    while an earlier one is in flight: the ring counts it as the oldest, and a
    later send gets the buffer still in flight. *)
Example early_return_reuses :
  let b0 := SendBuffers_new 4 in
  let '(x0, b1) := try_pop b0 in
  let '(x1, b2) := try_pop b1 in
  let '(_, b3) := ring_push (λ _, true) 1 b2 in
  let '(x2, b4) := try_pop b3 in
  let '(x3, b5) := try_pop b4 in
  let '(x4, b6) := try_pop b5 in
  (x0, x1, x2, x3, x4) = (Some 0, Some 1, Some 2, Some 3, Some 0).
Proof. vm_compute. reflexivity. Qed.

(** A post that fails gives its credit back without waking a task that waits for it. *)
Example failed_post_strands_waiter :
  let e := peer_entry peer_b (undo_credit peer_b {[peer_b := {| cr_sent := 4; cr_acked := 0; cr_not_acked := 0; cr_wakers := [7%nat] |}]}) in
  outstanding e = 3 ∧ cr_wakers e = [7%nat].
Proof. vm_compute. split; reflexivity. Qed.

(** An acknowledgement that arrives after the peer was reset, for messages sent
    before it, is counted against the new table: the difference wraps around,
    and the sender has no credit. *)
Example late_ack_after_reset :
  let m := (reset_peer peer_b {[peer_b := {| cr_sent := 4; cr_acked := 0; cr_not_acked := 0; cr_wakers := [] |}]}).2 in
  let m := (ack_arrives (imm_ack peer_b 4) m).2 in
  outstanding (peer_entry peer_b m) = u64_mod - 4 ∧ (take_credit 4 0 peer_b m).1 = false.
Proof. vm_compute. split; reflexivity. Qed.
