(* ===== verification/RdmaPool.v ===== *)
(** * The pool of registered buffers

    [RdmaBufPool] of [openlake_io/src/rdma/rdma_buf.rs]: buffers registered with
    the network card, handed out to tasks and returned when they are dropped; at
    the cap a task waits, and a returned buffer is sent to the first waiter that
    still listens.  Registering memory is a parameter.

    A buffer sent to a waiter is in the waiter's channel until the task runs; a
    task that is cancelled in between takes the buffer with it. *)

From stdpp Require Import base numbers gmap strings list.
From Stdlib Require Import ZArith.
From S2P Require Import Prelude Text.

Record RdmaBufInner := { rb_addr : Z; rb_lkey : Z; rb_rkey : Z; rb_capacity : Z }.
Record RdmaBufPool := {
  bp_buf_size : Z; bp_cap : nat; bp_free : list RdmaBufInner; bp_waiters : list nat; bp_allocated : nat
}.
Definition RdmaBufPool_new (cap : nat) (buf_size : Z) : RdmaBufPool :=
  {| bp_buf_size := buf_size; bp_cap := cap; bp_free := []; bp_waiters := []; bp_allocated := 0 |}.
Definition set_pool (f : list RdmaBufInner) (ws : list nat) (n : nat) (p : RdmaBufPool) : RdmaBufPool :=
  {| bp_buf_size := bp_buf_size p; bp_cap := bp_cap p; bp_free := f; bp_waiters := ws; bp_allocated := n |}.

Inductive Acquired := Got (b : RdmaBufInner) | Failed (e : string) | Waits.

(** [acquire] of task [t] up to its first suspension; [alloc] is the outcome of
    [RdmaBufInner::new].  [Vec::pop] takes the last buffer. *)
Definition pool_acquire (alloc : result string RdmaBufInner) (t : nat) (p : RdmaBufPool) : Acquired * RdmaBufPool :=
  match last (bp_free p) with
  | Some b => (Got b, set_pool (take (length (bp_free p) - 1) (bp_free p)) (bp_waiters p) (bp_allocated p) p)
  | None =>
      if bp_allocated p <? bp_cap p then
        let p := set_pool (bp_free p) (bp_waiters p) (bp_allocated p + 1) p in
        match alloc with
        | Ok b => (Got b, p)
        | Err e => (Failed e, set_pool (bp_free p) (bp_waiters p) (bp_allocated p - 1) p)
        end
      else (Waits, set_pool (bp_free p) (bp_waiters p ++ [t]) (bp_allocated p) p)
  end.

(** [return_inner]: the waiter the buffer was sent to; a waiter that has gone
    refuses it. *)
Fixpoint hand_over (listens : nat → bool) (ws : list nat) : option nat * list nat :=
  match ws with
  | [] => (None, [])
  | w :: ws => if listens w then (Some w, ws) else hand_over listens ws
  end.
Definition return_inner (listens : nat → bool) (b : RdmaBufInner) (p : RdmaBufPool) : option nat * RdmaBufPool :=
  match hand_over listens (bp_waiters p) with
  | (Some w, ws) => (Some w, set_pool (bp_free p) ws (bp_allocated p) p)
  | (None, ws) => (None, set_pool (bp_free p ++ [b]) ws (bp_allocated p) p)
  end.

(** ** Histories

    The buffers the tasks hold, those in the channel of a waiter, and those that
    went down with a cancelled task. *)
Record Usage := { us_pool : RdmaBufPool; us_held : list RdmaBufInner; us_mail : list (nat * RdmaBufInner); us_lost : list RdmaBufInner }.
Definition usage_start (cap : nat) (buf_size : Z) : Usage :=
  {| us_pool := RdmaBufPool_new cap buf_size; us_held := []; us_mail := []; us_lost := [] |}.
(** The buffers whose memory is registered. *)
Definition live (u : Usage) : list RdmaBufInner := us_held u ++ bp_free (us_pool u) ++ (us_mail u).*2.

Inductive pool_step : Usage → Usage → Prop :=
  | step_take alloc t b p' u :
      (∀ x, alloc = Ok x → x ∉ live u) → pool_acquire alloc t (us_pool u) = (Got b, p') →
      pool_step u {| us_pool := p'; us_held := b :: us_held u; us_mail := us_mail u; us_lost := us_lost u |}
  | step_fail alloc t e p' u : pool_acquire alloc t (us_pool u) = (Failed e, p') →
      pool_step u {| us_pool := p'; us_held := us_held u; us_mail := us_mail u; us_lost := us_lost u |}
  | step_wait alloc t p' u : pool_acquire alloc t (us_pool u) = (Waits, p') →
      pool_step u {| us_pool := p'; us_held := us_held u; us_mail := us_mail u; us_lost := us_lost u |}
  | step_drop listens b h1 h2 p' u : us_held u = h1 ++ b :: h2 → return_inner listens b (us_pool u) = (None, p') →
      pool_step u {| us_pool := p'; us_held := h1 ++ h2; us_mail := us_mail u; us_lost := us_lost u |}
  | step_send listens b h1 h2 w p' u : us_held u = h1 ++ b :: h2 → return_inner listens b (us_pool u) = (Some w, p') →
      pool_step u {| us_pool := p'; us_held := h1 ++ h2; us_mail := us_mail u ++ [(w, b)]; us_lost := us_lost u |}
  | step_receive w b m1 m2 u : us_mail u = m1 ++ (w, b) :: m2 →
      pool_step u {| us_pool := us_pool u; us_held := b :: us_held u; us_mail := m1 ++ m2; us_lost := us_lost u |}
  | step_cancel w b m1 m2 u : us_mail u = m1 ++ (w, b) :: m2 →
      pool_step u {| us_pool := us_pool u; us_held := us_held u; us_mail := m1 ++ m2; us_lost := b :: us_lost u |}.
Definition pool_reachable (cap : nat) (buf_size : Z) : Usage → Prop := rtc pool_step (usage_start cap buf_size).

(** ** Lemmas *)

Lemma hand_over_rest listens ws : (hand_over listens ws).1 = None → (hand_over listens ws).2 = [].
Proof. induction ws as [|w ws IH]; [done|]. cbn. destruct (listens w); [done|exact IH]. Qed.

Lemma last_split {A} (l : list A) x : last l = Some x → ∃ k, l = k ++ [x] ∧ take (length l - 1) l = k.
Proof.
  intros [k ->]%last_Some. exists k. rewrite length_app. cbn. by rewrite Nat.add_sub, take_app_length.
Qed.

Record usage_ok (cap : nat) (u : Usage) : Prop := {
  uo_cap : bp_cap (us_pool u) = cap;
  uo_distinct : NoDup (live u);
  uo_count : bp_allocated (us_pool u) = length (live u) + length (us_lost u);
  uo_bound : bp_allocated (us_pool u) ≤ cap;
  uo_waits : bp_waiters (us_pool u) ≠ [] → bp_free (us_pool u) = [] ∧ bp_allocated (us_pool u) = cap
}.

Lemma live_length u : length (live u) = length (us_held u) + length (bp_free (us_pool u)) + length (us_mail u).
Proof. unfold live. rewrite !length_app, length_fmap. lia. Qed.

(** Two states with the same live buffers, up to their order. *)
Lemma same_live u u' : live u' ≡ₚ live u → NoDup (live u) → NoDup (live u') ∧ length (live u') = length (live u).
Proof. intros Hp Hnd. split; [by rewrite Hp|by apply Permutation_length]. Qed.

Lemma usage_ok_step cap u u' : usage_ok cap u → pool_step u u' → usage_ok cap u'.
Proof.
  intros [Hcap Hnd Hcnt Hb Hw] Hs. destruct Hs as [alloc t b p' u Hx Ha|alloc t e p' u Ha|alloc t p' u Ha|listens b h1 h2 p' u Hh Hr
    |listens b h1 h2 w p' u Hh Hr|w b m1 m2 u Hm|w b m1 m2 u Hm]; unfold pool_acquire, return_inner in *.
  - destruct (last (bp_free (us_pool u))) as [b0|] eqn:Hl.
    + injection Ha as -> <-. apply last_split in Hl as (k & Hf & ->).
      destruct (same_live u {| us_pool := set_pool k (bp_waiters (us_pool u)) (bp_allocated (us_pool u)) (us_pool u);
        us_held := b :: us_held u; us_mail := us_mail u; us_lost := us_lost u |}) as [H1 H2]; [|done|].
      { unfold live. cbn. rewrite Hf. solve_Permutation. }
      split; [done|exact H1|rewrite H2; done|done|]. cbn. intros Hne. destruct (Hw Hne) as [E _]. rewrite E in Hf. by destruct k.
    + destruct (bp_allocated (us_pool u) <? bp_cap (us_pool u)) eqn:Hlt; [|done]. to_prop. destruct alloc as [b0|]; [|done]. injection Ha as -> <-.
      assert (live {| us_pool := set_pool (bp_free (us_pool u)) (bp_waiters (us_pool u)) (bp_allocated (us_pool u) + 1) (us_pool u);
        us_held := b :: us_held u; us_mail := us_mail u; us_lost := us_lost u |} = b :: live u) as E by done.
      split; [done|rewrite E; constructor; [by apply Hx|done]|rewrite E; cbn in *; lia|cbn; lia|].
      cbn. intros Hne. destruct (Hw Hne). lia.
  - destruct (last _); [done|]. destruct (_ <? _); [|done]. destruct alloc; [done|]. injection Ha as _ <-. cbn.
    split; cbn; rewrite ?Nat.add_sub; done.
  - destruct (last (bp_free (us_pool u))) eqn:Hl; [done|]. destruct (_ <? _) eqn:Hlt; [destruct alloc; done|]. to_prop. injection Ha as <-.
    apply last_None in Hl. split; cbn; [done|done|done|done|]. intros _. split; [done|]. lia.
  - destruct (hand_over listens (bp_waiters (us_pool u))) as [[w|] ws] eqn:Hho; [done|]. injection Hr as <-.
    assert (ws = []) as -> by (pose proof (hand_over_rest listens (bp_waiters (us_pool u))) as H; rewrite Hho in H; by apply H).
    destruct (same_live u {| us_pool := set_pool (bp_free (us_pool u) ++ [b]) [] (bp_allocated (us_pool u)) (us_pool u);
      us_held := h1 ++ h2; us_mail := us_mail u; us_lost := us_lost u |}) as [H1 H2]; [|done|].
    { unfold live. cbn. rewrite Hh. solve_Permutation. }
    split; [done|exact H1|by rewrite H2|done|]. by intros [].
  - destruct (hand_over listens (bp_waiters (us_pool u))) as [[w'|] ws] eqn:Hho; [|done]. injection Hr as -> <-.
    destruct (same_live u {| us_pool := set_pool (bp_free (us_pool u)) ws (bp_allocated (us_pool u)) (us_pool u);
      us_held := h1 ++ h2; us_mail := us_mail u ++ [(w, b)]; us_lost := us_lost u |}) as [H1 H2]; [|done|].
    { unfold live. cbn. rewrite Hh, fmap_app. cbn. solve_Permutation. }
    split; [done|exact H1|by rewrite H2|done|]. cbn. intros _. apply Hw. intros E. by rewrite E in Hho.
  - destruct (same_live u {| us_pool := us_pool u; us_held := b :: us_held u; us_mail := m1 ++ m2; us_lost := us_lost u |}) as [H1 H2]; [|done|].
    { unfold live. cbn. rewrite Hm, !fmap_app. cbn. solve_Permutation. }
    split; [done|exact H1|by rewrite H2|done|done].
  - assert (live u ≡ₚ b :: live {| us_pool := us_pool u; us_held := us_held u; us_mail := m1 ++ m2; us_lost := b :: us_lost u |}) as Hp.
    { unfold live. cbn. rewrite Hm, !fmap_app. cbn. solve_Permutation. }
    rewrite Hp in Hnd. apply NoDup_cons in Hnd as [_ Hnd]. split; [done|exact Hnd| |done|done].
    apply Permutation_length in Hp. cbn in *. lia.
Qed.
Lemma usage_reachable cap size u : pool_reachable cap size u → usage_ok cap u.
Proof.
  intros Hr. refine (rtc_ind_r (usage_ok cap) _ _ _ u Hr).
  - split; cbn; [done|constructor|done|lia|done].
  - intros x y _ Hs Hx. by eapply usage_ok_step.
Qed.

(** ** Properties *)

(** C39.  The pool of registered buffers, in every state that tasks taking,
    waiting for, returning and abandoning buffers reach, in any order: no buffer
    is in two places, so two tasks never hold the same memory; there are at most
    as many as the cap; and a task that waits does so because every buffer is
    held, on its way to another task, or lost with a cancelled one - never while
    a buffer is free. *)
Theorem buf_pool_exclusive cap buf_size u : pool_reachable cap buf_size u →
  NoDup (us_held u ++ bp_free (us_pool u) ++ (us_mail u).*2)
  ∧ length (us_held u) + length (bp_free (us_pool u)) + length (us_mail u) + length (us_lost u) ≤ cap
  ∧ (bp_waiters (us_pool u) ≠ [] →
       bp_free (us_pool u) = [] ∧ length (us_held u) + length (us_mail u) + length (us_lost u) = cap).
Proof.
  intros [Hc Hnd Hcnt Hb Hw]%usage_reachable. rewrite live_length in Hcnt. split_and!; [exact Hnd|lia|].
  intros Hne. destruct (Hw Hne) as [Hf Ha]. rewrite Hf in *. cbn in *. split; [done|lia].
Qed.

(** A pool whose buffers are all lost never gives one out again. *)
Definition drained (u : Usage) : Prop := live u = [] ∧ bp_cap (us_pool u) ≤ bp_allocated (us_pool u).
Lemma drained_step u u' : drained u → pool_step u u' → drained u'.
Proof.
  intros [Hl Hc] Hs. unfold live in Hl. apply app_eq_nil in Hl as [Hh [Hf Hm%fmap_nil_inv]%app_eq_nil].
  destruct Hs as [alloc t b p' u _ Ha|alloc t e p' u Ha|alloc t p' u Ha|listens b h1 h2 p' u E _|listens b h1 h2 w p' u E _|w b m1 m2 u E|w b m1 m2 u E];
    try (rewrite Hh in E; by destruct h1); try (rewrite Hm in E; by destruct m1);
    unfold pool_acquire in Ha; rewrite Hf in Ha; cbn [last] in Ha; rewrite (proj2 (Nat.ltb_ge _ _)) in Ha by done; [done|done|].
  injection Ha as <-. unfold drained, live. cbn. by rewrite Hh, Hm.
Qed.

(** C40.  What a cancelled waiter costs.  A buffer sent to a waiting task whose
    request is cancelled before it runs is deregistered, but the count of
    allocated buffers keeps it: with a cap of one, two tasks and one cancellation
    bring the pool to a state in which no task holds a buffer and none ever will
    again. *)
Theorem cancelled_waiter_starves (buf_size : Z) (b : RdmaBufInner) :
  ∃ u, pool_reachable 1 buf_size u ∧ us_held u = []
    ∧ ∀ u', rtc pool_step u u' → us_held u' = [] ∧ ∀ alloc t, (pool_acquire alloc t (us_pool u')).1 = Waits.
Proof.
  set (p1 := {| bp_buf_size := buf_size; bp_cap := 1; bp_free := []; bp_waiters := []; bp_allocated := 1 |}).
  set (p2 := {| bp_buf_size := buf_size; bp_cap := 1; bp_free := []; bp_waiters := [1]; bp_allocated := 1 |}).
  set (u := {| us_pool := p1; us_held := []; us_mail := []; us_lost := [b] |}). exists u. split_and!; [|done|].
  - eapply rtc_l; [apply (step_take (Ok b) 0 b p1); [by intros x [= <-] ?%elem_of_nil|done]|]. cbn.
    eapply rtc_l; [apply (step_wait (Ok b) 1 p2); done|]. cbn.
    eapply rtc_l; [apply (step_send (λ _, true) b [] [] 1 p1); done|]. cbn.
    eapply rtc_l; [apply (step_cancel 1 b [] []); done|]. apply rtc_refl.
  - intros u' Hr. assert (drained u') as [Hl Hc].
    { assert (drained u) as Hd by done. clearbody u. induction Hr as [|x y z Hxy _ IH]; [done|]. apply IH. by eapply drained_step. }
    unfold live in Hl. apply app_eq_nil in Hl as [Hh [Hf _]%app_eq_nil]. split; [done|]. intros alloc t. unfold pool_acquire.
    rewrite Hf. cbn [last]. by rewrite (proj2 (Nat.ltb_ge _ _)).
Qed.

(** ** Evaluation *)

Definition demo_buf : RdmaBufInner := {| rb_addr := 4096; rb_lkey := 1; rb_rkey := 2; rb_capacity := 1024 |}.
Lemma buf_pool_exclusive_witness : NoDup [demo_buf] ∧ 1 + 0 + 0 + 0 ≤ 1.
Proof.
  destruct (buf_pool_exclusive 1 1024 {| us_pool := (pool_acquire (Ok demo_buf) 0 (RdmaBufPool_new 1 1024)).2;
    us_held := [demo_buf]; us_mail := []; us_lost := [] |}) as (H1 & H2 & _).
  - eapply rtc_l; [|apply rtc_refl]. apply (step_take (Ok demo_buf) 0 demo_buf); [by intros x [= <-] ?%elem_of_nil|reflexivity].
  - split; [exact H1|exact H2].
Defined.
