(* ===== verification/Pool.v ===== *)
(** * The buffer pool

    [MemoryPool] of [openlake_io/src/alloc/memory_pool.rs] and [PooledBuffer] of
    [alloc/buffer.rs]: size classes, free queues, the accounting of buffers in
    use, and the buffers that return on drop.  A buffer is its capacity: the
    bytes are cleared on reuse.  Each call of the pool is one step; counters are
    [usize]s that wrap.  The capacity that [AVec] gives is a parameter. *)

From stdpp Require Import base list sorting relations.
From S2P Require Import Prelude Types.

Definition ALIGNMENT : Z := 4096.
Definition NUM_BUCKETS : nat := 28.
Definition BUCKET_SIZES : list Z :=
  [4 * 1024; 8 * 1024; 16 * 1024; 32 * 1024; 64 * 1024; 128 * 1024; 256 * 1024; 512 * 1024; 768 * 1024; 1024 * 1024; 1536 * 1024;
   2 * 1024 * 1024; 4 * 1024 * 1024; 6 * 1024 * 1024; 8 * 1024 * 1024; 10 * 1024 * 1024; 12 * 1024 * 1024; 16 * 1024 * 1024;
   24 * 1024 * 1024; 32 * 1024 * 1024; 48 * 1024 * 1024; 64 * 1024 * 1024; 96 * 1024 * 1024; 128 * 1024 * 1024; 192 * 1024 * 1024;
   256 * 1024 * 1024; 384 * 1024 * 1024; 512 * 1024 * 1024]%Z.

Record MemoryPoolConfig := { enabled : bool; size_bytes : Z; bucket_capacity : nat }.
Definition MemoryPoolConfig_default : MemoryPoolConfig :=
  {| enabled := true; size_bytes := 4 * 1024 * 1024 * 1024; bucket_capacity := 8 * 1024 |}.

(** An [ArrayQueue] of free buffers keeps at most [queue_bound] of them. *)
Record MemoryPool := {
  is_enabled : bool;
  memory_limit : Z;
  queue_bound : nat;
  buckets : list (list Z);
  in_use : list Z;
  allocations : list Z;
  returned : list Z;
  external_allocations : Z;
  external_deallocations : Z;
  resize_events : Z;
  dropped_returns : Z;
  capacity_warning : bool
}.

(** A pool with empty queues; [None] is the panic of [ArrayQueue::new] at the bound zero. *)
Definition fresh_pool (cfg : MemoryPoolConfig) : MemoryPool :=
  {| is_enabled := enabled cfg; memory_limit := size_bytes cfg; queue_bound := bucket_capacity cfg;
     buckets := replicate NUM_BUCKETS []; in_use := replicate NUM_BUCKETS 0%Z; allocations := replicate NUM_BUCKETS 0%Z;
     returned := replicate NUM_BUCKETS 0%Z; external_allocations := 0; external_deallocations := 0; resize_events := 0;
     dropped_returns := 0; capacity_warning := false |}.
Definition MemoryPool_new (cfg : MemoryPoolConfig) : option MemoryPool :=
  if bucket_capacity cfg =? 0 then None else Some (fresh_pool cfg).

(** [fetch_add] and [fetch_sub] of a [usize]. *)
Definition fetch_add (z : Z) : Z := ((z + 1) `mod` u64_mod)%Z.
Definition fetch_sub (z : Z) : Z := ((z - 1) `mod` u64_mod)%Z.

(** [slice::binary_search] of a sorted slice without repetitions. *)
Definition binary_search (l : list Z) (x : Z) : nat + nat :=
  let pos := length (filter (λ s, (s < x)%Z) l) in
  if bool_decide (l !! pos = Some x) then inl pos else inr pos.
Definition best_fit (capacity : Z) : option nat :=
  match binary_search BUCKET_SIZES capacity with
  | inl idx => Some idx
  | inr idx => if idx <? NUM_BUCKETS then Some idx else None
  end.

(** The sum over the buckets, in machine arithmetic. *)
Definition weighted (counts : list Z) : Z :=
  foldr (λ cs acc, (cs.1 * cs.2 + acc) `mod` u64_mod)%Z 0%Z (zip counts BUCKET_SIZES).
Definition pool_current_size (p : MemoryPool) : Z := weighted (in_use p).
Definition pool_allocated_size (p : MemoryPool) : Z := weighted (allocations p).

Definition set_counts (p : MemoryPool) (bk : list (list Z)) (used allocs rets : list Z) : MemoryPool :=
  {| is_enabled := is_enabled p; memory_limit := memory_limit p; queue_bound := queue_bound p; buckets := bk; in_use := used;
     allocations := allocs; returned := rets; external_allocations := external_allocations p;
     external_deallocations := external_deallocations p; resize_events := resize_events p;
     dropped_returns := dropped_returns p; capacity_warning := capacity_warning p |}.
Definition set_events (p : MemoryPool) (ext_alloc ext_dealloc resize dropped : Z) (warning : bool) : MemoryPool :=
  {| is_enabled := is_enabled p; memory_limit := memory_limit p; queue_bound := queue_bound p; buckets := buckets p; in_use := in_use p;
     allocations := allocations p; returned := returned p; external_allocations := ext_alloc;
     external_deallocations := ext_dealloc; resize_events := resize; dropped_returns := dropped; capacity_warning := warning |}.
Definition external (warning : bool) (p : MemoryPool) : MemoryPool :=
  set_events p (fetch_add (external_allocations p)) (external_deallocations p) (resize_events p) (dropped_returns p)
    (warning || capacity_warning p).
Definition take_one (idx : nat) (bk : list (list Z)) (fresh : bool) (p : MemoryPool) : MemoryPool :=
  set_counts p bk (alter fetch_add idx (in_use p)) (if fresh then alter fetch_add idx (allocations p) else allocations p) (returned p).

(** A buffer that was handed out: its owner may let it grow. *)
Record PooledBuffer := { from_pool : bool; original_capacity : Z; capacity : Z }.

Section pool.
(** The capacity of [AVec::with_capacity]. *)
Context (avec_capacity : Z → Z).

Definition next_multiple_of (a m : Z) : Z := ((a + m - 1) / m * m)%Z.
Definition allocate_aligned_buffer (cap : Z) : Z := avec_capacity (Z.max (next_multiple_of cap ALIGNMENT) ALIGNMENT).

Definition acquire_buffer (cap : Z) (p : MemoryPool) : (Z * bool) * MemoryPool :=
  if negb (is_enabled p) then ((allocate_aligned_buffer cap, false), p)
  else
    let current := pool_current_size p in
    match best_fit cap with
    | Some idx =>
        let bucket_size := default 0%Z (BUCKET_SIZES !! idx) in
        match default [] (buckets p !! idx) with
        | buf :: free =>
            let bk := <[idx := free]> (buckets p) in
            if (buf <? cap)%Z then ((allocate_aligned_buffer bucket_size, true), take_one idx bk true p)
            else ((buf, true), take_one idx bk false p)
        | [] =>
            if (memory_limit p <? (current + bucket_size) `mod` u64_mod)%Z then
              ((allocate_aligned_buffer bucket_size, false), external true p)
            else ((allocate_aligned_buffer bucket_size, true), take_one idx (buckets p) true p)
        end
    | None => ((allocate_aligned_buffer cap, false), external false p)
    end.

Definition release_buffer (buffer original : Z) (was_pool_allocated : bool) (p : MemoryPool) : MemoryPool :=
  if negb (is_enabled p) then p
  else
    let p := if (buffer =? original)%Z then p
             else set_events p (external_allocations p) (external_deallocations p) (fetch_add (resize_events p))
                    (dropped_returns p) (capacity_warning p) in
    let p := match was_pool_allocated, best_fit original with
             | true, Some orig_idx => set_counts p (buckets p) (alter fetch_sub orig_idx (in_use p)) (allocations p) (returned p)
             | _, _ => p
             end in
    match best_fit buffer with
    | Some idx =>
        let queue := default [] (buckets p !! idx) in
        let full := negb (length queue <? queue_bound p) in
        let p := set_counts p (if full then buckets p else <[idx := queue ++ [buffer]]> (buckets p)) (in_use p) (allocations p)
                   (alter fetch_add idx (returned p)) in
        if full then set_events p (external_allocations p) (external_deallocations p) (resize_events p)
                       (fetch_add (dropped_returns p)) true
        else p
    | None => set_events p (external_allocations p) (fetch_add (external_deallocations p)) (resize_events p) (dropped_returns p)
                (capacity_warning p)
    end.

Definition PooledBuffer_with_capacity (cap : Z) (p : MemoryPool) : PooledBuffer * MemoryPool :=
  let '((buffer, was_pool_allocated), p) := acquire_buffer (Z.max cap ALIGNMENT) p in
  ({| from_pool := was_pool_allocated; original_capacity := buffer; capacity := buffer |}, p).
Definition drop_pooled (b : PooledBuffer) (p : MemoryPool) : MemoryPool :=
  if from_pool b then release_buffer (capacity b) (original_capacity b) true p else p.

(** A buffer that never touched the pool, and the buffer taken out of its wrapper, which is left empty. *)
Definition PooledBuffer_empty : PooledBuffer := {| from_pool := false; original_capacity := 0; capacity := avec_capacity 0 |}.
Definition into_inner (b : PooledBuffer) : Z * PooledBuffer := (capacity b, PooledBuffer_empty).

(** The statistics line takes the warning down. *)
Definition log_stats (p : MemoryPool) : MemoryPool :=
  if negb (is_enabled p) then p
  else if (pool_current_size p =? 0)%Z then p
  else set_events p (external_allocations p) (external_deallocations p) (resize_events p) (dropped_returns p) false.

(** ** Histories: buffers are taken, grow and are dropped

    A request above [isize::MAX] panics in the allocator and is no step. *)

Definition isize_max : Z := (2 ^ 63 - 1)%Z.

Definition world : Type := MemoryPool * list PooledBuffer.
Inductive pool_step : world → world → Prop :=
  | step_take p live cap b p' : (0 ≤ cap ≤ isize_max)%Z → PooledBuffer_with_capacity cap p = (b, p') →
      pool_step (p, live) (p', b :: live)
  | step_grow p l1 b l2 cap : (capacity b ≤ cap)%Z →
      pool_step (p, l1 ++ b :: l2) (p, l1 ++ {| from_pool := from_pool b; original_capacity := original_capacity b; capacity := cap |} :: l2)
  | step_drop p l1 b l2 : pool_step (p, l1 ++ b :: l2) (drop_pooled b p, l1 ++ l2)
  | step_stats p live : pool_step (p, live) (log_stats p, live).
Definition reachable (cfg : MemoryPoolConfig) (w : world) : Prop := ∃ p, MemoryPool_new cfg = Some p ∧ rtc pool_step (p, []) w.

(** The handed out buffers that the pool accounts for in bucket [i]. *)
Definition accounted (i : nat) (b : PooledBuffer) : Prop := from_pool b = true ∧ best_fit (original_capacity b) = Some i.
#[global] Instance accounted_dec i b : Decision (accounted i b).
Proof. unfold accounted. apply _. Defined.
Definition lent (i : nat) (live : list PooledBuffer) : nat := length (filter (accounted i) live).
#[local] Arguments lent : simpl never.
#[local] Arguments best_fit : simpl never.

Record pool_ok (w : world) : Prop := {
  ok_buckets : length (buckets w.1) = NUM_BUCKETS;
  ok_used : length (in_use w.1) = NUM_BUCKETS;
  ok_free : ∀ i queue, buckets w.1 !! i = Some queue →
    length queue ≤ queue_bound w.1 ∧ Forall (λ buf, best_fit buf = Some i) queue;
  ok_count : ∀ i n, in_use w.1 !! i = Some n → n = (Z.of_nat (lent i w.2) `mod` u64_mod)%Z;
  ok_live : Forall (λ b, from_pool b = true → is_enabled w.1 = true ∧ is_Some (best_fit (original_capacity b))) w.2
}.

(** ** Lemmas: size classes *)

Lemma below_sorted (l : list Z) x j s : StronglySorted Z.lt l → l !! j = Some s →
  (j < length (filter (λ s, (s < x)%Z) l) ↔ (s < x)%Z).
Proof.
  intros Hs. revert j. induction Hs as [|y l _ IH Hy]; intros j Hj; [done|]. rewrite filter_cons.
  rewrite Forall_forall in Hy. destruct (decide (y < x)%Z) as [Hlt|Hge].
  - destruct j as [|j]; [injection Hj as ->; cbn; lia|]. cbn [length]. rewrite <-(IH j Hj). lia.
  - assert (filter (λ s, (s < x)%Z) l = []) as ->.
    { destruct (filter (λ s, (s < x)%Z) l) as [|z zs] eqn:E; [done|]. assert (z ∈ filter (λ s, (s < x)%Z) l) as Hz by (rewrite E; left).
      apply list_elem_of_filter in Hz as [? Hz]. specialize (Hy z Hz). lia. }
    cbn. destruct j as [|j]; [injection Hj as ->; lia|]. cbn in Hj. apply list_elem_of_lookup_2 in Hj. specialize (Hy s Hj). lia.
Qed.

Lemma sizes_sorted : StronglySorted Z.lt BUCKET_SIZES.
Proof. apply Sorted_StronglySorted; [intros x y z; lia|]. unfold BUCKET_SIZES. repeat constructor. Qed.

(** The smallest class that is large enough. *)
Lemma best_fit_spec x i : best_fit x = Some i ↔
  (∃ s, BUCKET_SIZES !! i = Some s ∧ (x ≤ s)%Z) ∧ ∀ j s, j < i → BUCKET_SIZES !! j = Some s → (s < x)%Z.
Proof.
  unfold best_fit, binary_search. set (pos := length _).
  assert (∀ j s, BUCKET_SIZES !! j = Some s → (j < pos ↔ (s < x)%Z)) as Hpos by (intros; by apply below_sorted; [apply sizes_sorted|]).
  assert (pos ≤ NUM_BUCKETS) as Hle by (unfold pos; etrans; [apply length_filter|done]).
  assert ((if bool_decide (BUCKET_SIZES !! pos = Some x) then inl pos else inr pos : nat + nat) = inl pos ∧ pos < NUM_BUCKETS
    ∨ (if bool_decide (BUCKET_SIZES !! pos = Some x) then inl pos else inr pos : nat + nat) = inr pos) as Hcase.
  { case_bool_decide as H; [left|by right]. split; [done|]. by apply lookup_lt_Some in H. }
  trans (i = pos ∧ pos < NUM_BUCKETS).
  { destruct Hcase as [[-> ?]| ->]; [naive_solver|]. destruct (Nat.ltb_spec pos NUM_BUCKETS); naive_solver lia. }
  split.
  - intros [-> Hlt]. destruct (lookup_lt_is_Some_2 BUCKET_SIZES pos Hlt) as [s Hs]. split.
    + exists s. split; [done|]. pose proof (Hpos pos s Hs). lia.
    + intros j s' Hj Hs'. by apply (Hpos j s' Hs').
  - intros [(s & Hs & Hx) Hmin]. pose proof (lookup_lt_Some _ _ _ Hs) as Hi. pose proof (Hpos i s Hs) as H1.
    assert (i = pos) as ->; [|done]. destruct (Nat.lt_trichotomy i pos) as [Hlt|[|Hgt]]; [|done|].
    + apply H1 in Hlt. lia.
    + destruct (lookup_lt_is_Some_2 BUCKET_SIZES pos) as [s' Hs']; [unfold NUM_BUCKETS in *; lia|].
      specialize (Hmin pos s' Hgt Hs'). apply (Hpos pos s' Hs') in Hmin. lia.
Qed.

Context (avec_exact : ∀ c, avec_capacity c = c).

Lemma alloc_class i s : BUCKET_SIZES !! i = Some s → allocate_aligned_buffer s = s ∧ best_fit s = Some i.
Proof.
  intros Hs. unfold allocate_aligned_buffer. rewrite avec_exact.
  do 28 (destruct i as [|i]; [injection Hs as <-; split; vm_compute; reflexivity|]). done.
Qed.

Lemma alloc_big cap : (0 ≤ cap)%Z → (cap ≤ allocate_aligned_buffer cap)%Z ∧ (ALIGNMENT ≤ allocate_aligned_buffer cap)%Z.
Proof.
  intros Hc. unfold allocate_aligned_buffer, next_multiple_of, ALIGNMENT. rewrite avec_exact.
  pose proof (Z.div_mod (cap + 4096 - 1) 4096 ltac:(lia)). pose proof (Z.mod_pos_bound (cap + 4096 - 1) 4096 ltac:(lia)). lia.
Qed.
(** ** Lemmas: the invariant *)

Lemma lent_app i l1 l2 : lent i (l1 ++ l2) = lent i l1 + lent i l2.
Proof. unfold lent. by rewrite filter_app, length_app. Qed.

Lemma lent_cons i b live : lent i (b :: live) = (if decide (accounted i b) then 1 else 0) + lent i live.
Proof. unfold lent. rewrite filter_cons. by destruct (decide (accounted i b)). Qed.

Lemma accounted_iff i j b : from_pool b = true → best_fit (original_capacity b) = Some i → accounted j b ↔ j = i.
Proof. unfold accounted. naive_solver. Qed.

Lemma alter_lookup {A} (f : A → A) i j (l : list A) x : alter f i l !! j = Some x →
  ∃ y, l !! j = Some y ∧ x = if decide (j = i) then f y else y.
Proof.
  destruct (decide (j = i)) as [->|Hne].
  - rewrite list_lookup_alter_eq. intros (y & -> & ->)%fmap_Some. by exists y.
  - rewrite list_lookup_alter_ne by done. by exists x.
Qed.

(** Handing out one buffer of class [idx]. *)
Lemma take_one_ok idx bk fresh p live b : pool_ok (p, live) → length bk = NUM_BUCKETS →
  (∀ i queue, bk !! i = Some queue → length queue ≤ queue_bound p ∧ Forall (λ buf, best_fit buf = Some i) queue) →
  is_enabled p = true → from_pool b = true → best_fit (original_capacity b) = Some idx → pool_ok (take_one idx bk fresh p, b :: live).
Proof.
  intros [Hb Hu Hf Hc Hl] Hbk Hq He Hfrom Hfit. split; cbn in *; [done| |done| |].
  - by rewrite length_alter.
  - intros i n (y & Hy & ->)%alter_lookup. rewrite (Hc i y Hy), lent_cons.
    destruct (decide (accounted i b)) as [Ha|Ha]; rewrite (accounted_iff idx) in Ha by done; destruct (decide (i = idx)); try done.
    unfold fetch_add. rewrite Zplus_mod_idemp_l. f_equal. lia.
  - constructor; [|done]. rewrite Hfit. by eauto.
Qed.

Lemma outside_ok p live b : pool_ok (p, live) → from_pool b = false → pool_ok (p, b :: live).
Proof.
  intros [Hb Hu Hf Hc Hl] Hfrom. split; cbn in *; try done.
  - intros i n Hn. rewrite (Hc i n Hn), lent_cons. destruct (decide (accounted i b)) as [[? _]|_]; [congruence|done].
  - constructor; [|done]. congruence.
Qed.

(** The counters of events are no part of the invariant. *)
Lemma events_ok p live a b c d e : pool_ok (p, live) → pool_ok (set_events p a b c d e, live).
Proof. intros [Hb Hu Hf Hc Hl]. by split. Qed.

(** A buffer that comes back: its class has one less in use, and the buffer goes to the queue of the class it
    has by now. *)
Lemma push_ok p live buf idx q rets : pool_ok (p, live) → best_fit buf = Some idx → buckets p !! idx = Some q →
  length q < queue_bound p → pool_ok (set_counts p (<[idx := q ++ [buf]]> (buckets p)) (in_use p) (allocations p) rets, live).
Proof.
  intros [Hb Hu Hf Hc Hl] Hfit Hq Hlen. split; cbn in *; try done.
  - by rewrite length_insert.
  - intros i queue Hi. destruct (decide (i = idx)) as [->|Hne].
    + rewrite list_lookup_insert_eq in Hi by (by apply lookup_lt_Some in Hq). injection Hi as <-. destruct (Hf idx q Hq) as [_ Hall].
      rewrite length_app. cbn. split; [lia|]. apply Forall_app. by repeat constructor.
    + rewrite list_lookup_insert_ne in Hi by done. by apply Hf.
Qed.

Lemma back_ok p l1 b l2 idx : pool_ok (p, l1 ++ b :: l2) → from_pool b = true → best_fit (original_capacity b) = Some idx →
  pool_ok (set_counts p (buckets p) (alter fetch_sub idx (in_use p)) (allocations p) (returned p), l1 ++ l2).
Proof.
  intros [Hb Hu Hf Hc Hl] Hfrom Hfit. split; cbn in *; try done.
  - by rewrite length_alter.
  - intros i n (y & Hy & ->)%alter_lookup. rewrite (Hc i y Hy), !lent_app, lent_cons.
    destruct (decide (accounted i b)) as [Ha|Ha]; rewrite (accounted_iff idx) in Ha by done; destruct (decide (i = idx)); try done.
    unfold fetch_sub. rewrite Zminus_mod_idemp_l. f_equal. lia.
  - apply Forall_app in Hl as [? Hl]. apply Forall_cons in Hl as [_ ?]. by apply Forall_app.
Qed.

Lemma queue_of p live idx c : pool_ok (p, live) → best_fit c = Some idx → ∃ q, buckets p !! idx = Some q.
Proof.
  intros [Hb _ _ _ _] ((s & Hs & _) & _)%best_fit_spec. apply lookup_lt_is_Some_2. cbn in Hb. rewrite Hb.
  by apply lookup_lt_Some in Hs.
Qed.

Lemma drop_ok p l1 b l2 : pool_ok (p, l1 ++ b :: l2) → pool_ok (drop_pooled b p, l1 ++ l2).
Proof.
  intros Hok. unfold drop_pooled. destruct (from_pool b) eqn:Hfrom; cycle 1.
  { destruct Hok as [Hb Hu Hf Hc Hl]. split; cbn in *; try done.
    - intros i n Hn. rewrite (Hc i n Hn), !lent_app, lent_cons. by destruct (decide (accounted i b)) as [[? _]|_]; [congruence|].
    - apply Forall_app in Hl as [? Hl]. apply Forall_cons in Hl as [_ ?]. by apply Forall_app. }
  assert (is_enabled p = true ∧ is_Some (best_fit (original_capacity b))) as [He [idx Hidx]].
  { pose proof (ok_live _ Hok) as Hl. rewrite Forall_forall in Hl. apply (Hl b); [|done]. cbn. apply elem_of_app. right. left. }
  unfold release_buffer. rewrite He, Hidx. cbn [negb].
  set (p1 := if (capacity b =? original_capacity b)%Z then p else _).
  assert (pool_ok (p1, l1 ++ b :: l2)) as Hok1 by (unfold p1; destruct (_ =? _)%Z; [done|by apply events_ok]).
  pose proof (back_ok _ _ _ _ _ Hok1 Hfrom Hidx) as Hok2. clearbody p1. set (p2 := set_counts p1 _ _ _ _) in *. clearbody p2.
  destruct (best_fit (capacity b)) as [j|] eqn:Hj; [|by apply events_ok].
  destruct (queue_of _ _ _ _ Hok2 Hj) as [q Hq]. rewrite Hq. cbn [default from_option id].
  destruct (Nat.ltb_spec (length q) (queue_bound p2)); cbn [negb]; [by apply push_ok|].
  apply events_ok. by destruct Hok2.
Qed.

Lemma take_ok cap p live b p' : (0 ≤ cap)%Z → pool_ok (p, live) → PooledBuffer_with_capacity cap p = (b, p') →
  pool_ok (p', b :: live) ∧ (cap ≤ capacity b)%Z ∧ (ALIGNMENT ≤ capacity b)%Z ∧
  (from_pool b = true → best_fit (capacity b) = best_fit (Z.max cap ALIGNMENT)) ∧ original_capacity b = capacity b.
Proof.
  intros Hcap Hok. unfold PooledBuffer_with_capacity, acquire_buffer. set (c := Z.max cap ALIGNMENT).
  assert (cap ≤ c)%Z by lia. assert (ALIGNMENT ≤ c)%Z by (unfold c; lia). assert (0 ≤ c)%Z by lia. clearbody c.
  destruct (is_enabled p) eqn:He; cbn [negb]; cycle 1.
  { intros [= <- <-]. pose proof (alloc_big c). split; [by apply outside_ok|cbn; repeat split; lia || done]. }
  destruct (best_fit c) as [idx|] eqn:Hidx; cycle 1.
  { intros [= <- <-]. pose proof (alloc_big c). split; [apply outside_ok; [by apply events_ok|done]|cbn; repeat split; lia || done]. }
  destruct (queue_of _ _ _ _ Hok Hidx) as [q Hq]. rewrite Hq. cbn [default from_option id].
  pose proof (proj1 (best_fit_spec c idx) Hidx) as ((s & Hs & Hcs) & _). rewrite Hs. cbn [default from_option id].
  destruct (alloc_class idx s Hs) as [Ha Hfit]. rewrite Ha.
  destruct q as [|buf free].
  - destruct (memory_limit p <? _)%Z; intros [= <- <-]; (split; [|cbn; repeat split; lia || congruence]).
    + apply outside_ok; [by apply events_ok|done].
    + apply take_one_ok; try done; apply Hok.
  - assert (∀ i queue, <[idx:=free]> (buckets p) !! i = Some queue →
      length queue ≤ queue_bound p ∧ Forall (λ buf, best_fit buf = Some i) queue) as Hrest.
    { intros i queue Hi. destruct (decide (i = idx)) as [->|Hne].
      - rewrite list_lookup_insert_eq in Hi by (by apply lookup_lt_Some in Hq). injection Hi as <-.
        destruct (ok_free _ Hok idx _ Hq) as [Hlen Hall]. cbn in Hlen. apply Forall_cons in Hall as [_ ?]. cbn. split; [lia|done].
      - rewrite list_lookup_insert_ne in Hi by done. by apply (ok_free _ Hok). }
    assert (length (<[idx:=free]> (buckets p)) = NUM_BUCKETS) as Hlen by (rewrite length_insert; apply Hok).
    pose proof (ok_free _ Hok idx _ Hq) as [_ [Hbuf _]%Forall_cons].
    destruct (Z.ltb_spec buf c); intros [= <- <-]; (split; [by apply take_one_ok|cbn; repeat split; lia || congruence]).
Qed.

Lemma grow_ok p l1 b l2 cap : pool_ok (p, l1 ++ b :: l2) →
  pool_ok (p, l1 ++ {| from_pool := from_pool b; original_capacity := original_capacity b; capacity := cap |} :: l2).
Proof.
  intros [Hb Hu Hf Hc Hl]. split; cbn in *; try done.
  - intros i n Hn. rewrite (Hc i n Hn), !lent_app, !lent_cons. done.
  - apply Forall_app in Hl as [? Hl]. apply Forall_cons in Hl as [? ?]. apply Forall_app. split; [done|]. by constructor.
Qed.

Lemma new_ok cfg p : MemoryPool_new cfg = Some p → pool_ok (p, []) ∧ queue_bound p = bucket_capacity cfg.
Proof.
  unfold MemoryPool_new. destruct (_ =? 0); [done|]. intros [= <-]. split; [|done].
  split; cbn -[replicate]; try done.
  - intros i queue [-> _]%lookup_replicate. cbn. split; [lia|done].
  - intros i n [-> _]%lookup_replicate. done.
Qed.

Lemma bound_kept w w' : pool_step w w' → queue_bound w'.1 = queue_bound w.1.
Proof.
  destruct 1 as [p live cap b p' _ Ht|p l1 b l2 cap _|p l1 b l2|p live]; cbn [fst]; [|done| |].
  - revert Ht. unfold PooledBuffer_with_capacity, acquire_buffer. intros Ht. by repeat (case_match; simplify_eq/=).
  - unfold drop_pooled, release_buffer. repeat case_match; done.
  - unfold log_stats. by repeat case_match.
Qed.

Lemma reachable_ok cfg w : reachable cfg w → pool_ok w ∧ queue_bound w.1 = bucket_capacity cfg.
Proof.
  intros (p0 & H%new_ok & Hr). change (queue_bound p0) with (queue_bound ((p0, []) : world).1) in H. revert H. induction Hr as [|w1 w2 w3 Hst _ IH]; intros [Hok Hb]; [done|]. apply IH.
  split; [|rewrite <-Hb; by apply bound_kept]. destruct Hst as [p live cap b p' Hc Ht|p l1 b l2 cap _|p l1 b l2|p live].
  - destruct (take_ok cap p live b p') as [? _]; [lia|done..].
  - by apply grow_ok.
  - by apply drop_ok.
  - unfold log_stats. repeat case_match; [done..|by apply events_ok].
Qed.

(** ** Properties *)

(** C29.  [MemoryPool::acquire_buffer], [release_buffer] and [PooledBuffer]'s drop keep the accounting along every
    history of taking, growing and dropping buffers: the counter of a size class is the number of buffers of
    that class handed out and not yet dropped (modulo the width of [usize]), so it is zero when all of them are
    back; a free queue holds no more than [bucket_capacity] buffers and only buffers of its own class; and the
    next buffer has at least the capacity that was asked for, at least one page, and, when the pool tracks it,
    is of the smallest class that fits.  [avec_exact] is that [AVec::with_capacity] gives the capacity it is
    asked for. *)
Theorem pool_accounting cfg p live : reachable cfg (p, live) →
  (∀ i, i < NUM_BUCKETS → ∃ n queue, in_use p !! i = Some n ∧ buckets p !! i = Some queue ∧
     n = (Z.of_nat (lent i live) `mod` u64_mod)%Z ∧ (live = [] → n = 0%Z) ∧
     length queue ≤ bucket_capacity cfg ∧ Forall (λ buf, best_fit buf = Some i) queue) ∧
  (∀ cap b p', (0 ≤ cap ≤ isize_max)%Z → PooledBuffer_with_capacity cap p = (b, p') →
     (cap ≤ capacity b)%Z ∧ (ALIGNMENT ≤ capacity b)%Z ∧
     (from_pool b = true → best_fit (capacity b) = best_fit (Z.max cap ALIGNMENT))).
Proof.
  intros [Hok Hb]%reachable_ok. split.
  - intros i Hi. destruct (lookup_lt_is_Some_2 (in_use p) i) as [n Hn]; [pose proof (ok_used _ Hok); cbn in *; lia|].
    destruct (lookup_lt_is_Some_2 (buckets p) i) as [q Hq]; [pose proof (ok_buckets _ Hok); cbn in *; lia|].
    pose proof (ok_count _ Hok i n Hn) as Hcount. destruct (ok_free _ Hok i q Hq) as [Hlen Hall]. rewrite Hb in Hlen.
    exists n, q. repeat split; try done. by intros ->.
  - intros cap b p' Hcap Ht. destruct (take_ok cap p live b p') as (_ & ? & ? & ? & _); [lia|done..].
Qed.
End pool.

(** A pool of 16 KiB: a buffer of each class, one of them dropped. *)
Definition small_pool : MemoryPoolConfig := {| enabled := true; size_bytes := 16384; bucket_capacity := 2 |}.
Definition took (cap : Z) (w : world) : world := let '(b, p) := PooledBuffer_with_capacity id cap w.1 in (p, b :: w.2).
Lemma took_step cap w : (0 ≤ cap ≤ isize_max)%Z → pool_step id w (took cap w).
Proof.
  intros Hc. unfold took. destruct w as [p live]. cbn [fst snd]. destruct (PooledBuffer_with_capacity id cap p) eqn:E.
  by econstructor.
Qed.
Definition dropped_last (w : world) : world := match w.2 with b :: live => (drop_pooled b w.1, live) | [] => w end.
Lemma dropped_step p b live : pool_step id (p, b :: live) (dropped_last (p, b :: live)).
Proof. apply (step_drop id p [] b live). Qed.

Lemma pool_accounting_witness :
  let w := dropped_last (took 5000 (took 10 (fresh_pool small_pool, []))) in
  reachable id small_pool w ∧ in_use w.1 !! 0 = Some 1%Z ∧ in_use w.1 !! 1 = Some 0%Z ∧ buckets w.1 !! 1 = Some [8192%Z] ∧
  lent 0 w.2 = 1 ∧ ∃ n queue, in_use w.1 !! 0 = Some n ∧ buckets w.1 !! 0 = Some queue ∧ n = (Z.of_nat (lent 0 w.2) `mod` u64_mod)%Z.
Proof.
  intros w.
  assert (reachable id small_pool w) as Hr.
  { exists (fresh_pool small_pool). split; [reflexivity|]. unfold w. eapply rtc_l; [apply (took_step 10); done|].
    eapply rtc_l; [apply (took_step 5000); done|]. apply rtc_once.
    destruct (took 5000 _) as [p [|b live]] eqn:E; [by vm_compute in E|]. apply dropped_step. }
  split; [done|]. do 4 (split; [vm_compute; reflexivity|]).
  destruct w as [p live].
  destruct (proj1 (pool_accounting id (λ c, eq_refl) small_pool p live Hr) 0) as (n & q & Hn & Hq & Hc & _);
    [unfold NUM_BUCKETS; lia|]. by exists n, q.
Defined.

(** The limit binds fresh buffers only, and against the buffers in use: free buffers are outside it, and handing one
    out again is not checked. *)
Example limit_exceeded :
  let w := took 16384 (took 4096 (took 4096 (dropped_last (took 16384 (fresh_pool small_pool, []))))) in
  pool_current_size w.1 = 24576%Z ∧ memory_limit w.1 = 16384%Z ∧ Forall (λ b, from_pool b = true) w.2.
Proof. vm_compute. repeat split; repeat constructor. Qed.
