(* ===== verification/Ec.v ===== *)
(** * Erasure coding of stripes

    [openlake_storage/src/ec.rs] on top of the [reed-solomon-simd] crate.  The
    crate is a parameter: its encoder and decoder objects, fed shard by shard,
    are two functions of the shards they were fed, and what the code relies on
    is the erasure-code law [rs_mds]. *)

From stdpp Require Import base gmap strings list pretty.
From S2P Require Import Prelude Types.

(** The codec: [Err] carries the message of the call that failed; a result maps
    a shard index to [recovery(i)] or [restored_original(i)]. *)
Record RsCodec := {
  rs_encode : nat → nat → nat → list bytes → result string (nat → option bytes);
  rs_decode : nat → nat → nat → list (nat * bytes) → list (nat * bytes) →
              result string (nat → option bytes)
}.

(** What the crate documents for [n] original and [m] recovery shards of [unit]
    bytes: encoding yields [m] recovery shards of that size, and any [n] of the
    [n + m] shards restore the originals that were not supplied. *)
Definition rs_mds (c : RsCodec) (n m unit : nat) : Prop :=
  ∀ shards, length shards = n → Forall (λ s, length s = unit) shards →
  ∃ rec, rs_encode c n m unit shards = Ok rec
    ∧ (∀ i, i < m → ∃ r, rec i = Some r ∧ length r = unit)
    ∧ ∀ os rs, NoDup os.*1 → NoDup rs.*1 →
        (∀ i s, (i, s) ∈ os → shards !! i = Some s) →
        (∀ j s, (j, s) ∈ rs → j < m ∧ rec j = Some s) →
        n ≤ length os + length rs →
        ∃ res, rs_decode c n m unit os rs = Ok res
          ∧ ∀ i s, shards !! i = Some s → i ∉ os.*1 → res i = Some s.

Definition shard_size (block_size data_shards : nat) : nat :=
  let raw := (block_size + data_shards - 1) / data_shards in
  raw + Nat.land raw 1.

Record Erasure := { data_shards : nat; parity_shards : nat }.

Definition Erasure_new (d p : nat) : result StdIoError Erasure :=
  if (d =? 0) || (p =? 0) then
    Err (io_error_other ("EC requires data_shards>=1 and parity_shards>=1 (got "
           +:+ pretty d +:+ "+" +:+ pretty p +:+ ")"))
  else Ok {| data_shards := d; parity_shards := p |}.

(** [stripe.slice(i * unit..(i + 1) * unit)] for each [i] in [0..n]. *)
Definition slices (n unit : nat) (stripe : bytes) : list bytes :=
  (λ i, take unit (drop (i * unit) stripe)) <$> seq 0 n.

Section codec.
Context (c : RsCodec).

Definition encode_stripe (ec : Erasure) (stripe : bytes) : result StdIoError (list bytes) :=
  let n := data_shards ec in
  let m := parity_shards ec in
  let total_len := length stripe in
  if (total_len =? 0) || negb (total_len mod n =? 0) then
    Err (io_error_other ("encode_stripe: stripe len " +:+ pretty total_len
           +:+ " not divisible by " +:+ pretty n +:+ " data shards"))
  else
  let unit := total_len / n in
  if negb (unit mod 2 =? 0) then
    Err (io_error_other ("encode_stripe: shard unit " +:+ pretty unit +:+ " must be even"))
  else
  let out := slices n unit stripe in
  rec ← map_err io_error_other (rs_encode c n m unit out);
  parity ← collect ((λ i, ok_or (rec i)
    (io_error_other ("encode: recovery shard " +:+ pretty i +:+ " missing"))) <$> seq 0 m);
  mret (out ++ parity).

(** The shards fed to the decoder from slots [first..], with their index less
    [first]: the first one of the wrong size is an error. *)
Fixpoint feed (what : string) (unit first i : nat) (slots : list (option bytes)) :
    result StdIoError (list (nat * bytes)) :=
  match slots with
  | [] => Ok []
  | None :: slots => feed what unit first (S i) slots
  | Some s :: slots =>
      if negb (length s =? unit) then
        Err (io_error_other ("decode_stripe: " +:+ what +:+ " shard " +:+ pretty i +:+ " len "
               +:+ pretty (length s) +:+ " != unit " +:+ pretty unit))
      else rest ← feed what unit first (S i) slots; mret ((i - first, s) :: rest)
  end.

Definition present (slots : list (option bytes)) : nat :=
  length (filter (λ s, is_Some s) slots).

Definition decode_stripe (ec : Erasure) (shards : list (option bytes)) (unit : nat) :
    result StdIoError (list bytes) :=
  let n := data_shards ec in
  let m := parity_shards ec in
  if negb (length shards =? n + m) then
    Err (io_error_other ("decode_stripe: expected " +:+ pretty (n + m)
           +:+ " shard slots, got " +:+ pretty (length shards)))
  else if (unit =? 0) || negb (unit mod 2 =? 0) then
    Err (io_error_other ("decode_stripe: shard unit " +:+ pretty unit
           +:+ " must be non-zero and even"))
  else if present (take n shards) =? n then Ok (omap id (take n shards))
  else
  os ← feed "original" unit 0 0 (take n shards);
  rs ← feed "recovery" unit n n (drop n shards);
  res ← map_err io_error_other (rs_decode c n m unit os rs);
  collect (imap (λ i slot,
    match slot with
    | Some orig => Ok orig
    | None => ok_or (res i) (io_error_other ("decode: shard " +:+ pretty i +:+ " not restored"))
    end) (take n shards)).
End codec.

(** ** Lemmas *)

Lemma slices_S n unit (stripe : bytes) :
  slices (S n) unit stripe = take unit stripe :: slices n unit (drop unit stripe).
Proof.
  unfold slices. simpl. rewrite <-fmap_S_seq, <-list_fmap_compose. f_equal.
  apply list_fmap_ext. intros i x _. simpl. by rewrite drop_drop, Nat.add_comm.
Qed.

Lemma length_slices n unit (stripe : bytes) : length (slices n unit stripe) = n.
Proof. unfold slices. by rewrite length_fmap, length_seq. Qed.

Lemma concat_slices n unit (stripe : bytes) : length stripe = n * unit → concat (slices n unit stripe) = stripe.
Proof.
  revert stripe. induction n as [|n IH]; intros stripe Hl.
  - simpl in *. by destruct stripe.
  - rewrite slices_S. simpl. rewrite IH; [apply take_drop|]. rewrite length_drop. lia.
Qed.

Lemma slices_unit n unit (stripe : bytes) :
  length stripe = n * unit → Forall (λ s, length s = unit) (slices n unit stripe).
Proof.
  revert stripe. induction n as [|n IH]; intros stripe Hl; [constructor|].
  rewrite slices_S. constructor; [rewrite length_take; lia|]. apply IH. rewrite length_drop. lia.
Qed.

Lemma collect_Ok {E A B} (f : A → result E B) (g : A → B) l :
  (∀ x, x ∈ l → f x = Ok (g x)) → collect (f <$> l) = Ok (g <$> l).
Proof.
  induction l as [|x l IH]; intros Hf; [done|]. rewrite !fmap_cons. simpl.
  rewrite (Hf x) by left. simpl. rewrite IH; [done|]. intros y Hy. apply Hf. by right.
Qed.

Lemma collect_lookup {E A} (rs : list (result E A)) l :
  length rs = length l → (∀ i x, l !! i = Some x → rs !! i = Some (Ok x)) → collect rs = Ok l.
Proof.
  revert l. induction rs as [|r rs IH]; intros [|x l] Hl Hlk; try done.
  pose proof (Hlk 0 x eq_refl) as [= ->]. simpl. rewrite (IH l); [done|by injection Hl|].
  intros i y Hi. by apply (Hlk (S i)).
Qed.

(** The slots agree with the codeword [shards]. *)
Definition from_codeword (shards : list bytes) (slots : list (option bytes)) : Prop :=
  ∀ i s, slots !! i = Some (Some s) → shards !! i = Some s.

Lemma feed_ok what unit first k slots (shards : list bytes) :
  first ≤ k → Forall (λ s, length s = unit) shards →
  (∀ i s, slots !! i = Some (Some s) → shards !! (k + i) = Some s) →
  ∃ out, feed what unit first k slots = Ok out
    ∧ length out = present slots ∧ NoDup out.*1
    ∧ (∀ j s, (j, s) ∈ out ↔ ∃ i, slots !! i = Some (Some s) ∧ j = k + i - first).
Proof.
  intros Hk Hun. revert k Hk. induction slots as [|[s|] slots IH]; intros k Hk Hs; simpl.
  - eexists. split; [done|]. split; [done|]. split; [constructor|].
    intros j s. split; [by intros ?%elem_of_nil|]. by intros (i & ? & _).
  - assert (length s = unit) as Hlen.
    { apply (Forall_lookup_1 _ _ (k + 0) s Hun). by apply Hs. }
    rewrite (proj2 (Nat.eqb_eq _ _) Hlen). simpl.
    destruct (IH (S k)) as (out & -> & Hl & Hnd & Hin); [lia| |].
    { intros i x Hi. rewrite <-(Hs (S i) x Hi). f_equal. lia. }
    simpl. eexists. split; [done|]. unfold present in *. rewrite filter_cons_True by done.
    split; [simpl; by f_equal|]. split.
    + rewrite fmap_cons. apply NoDup_cons. split; [|done]. simpl.
      intros ([j x] & Hj & (i & _ & ->)%Hin)%list_elem_of_fmap. simpl in Hj. lia.
    + intros j x. rewrite elem_of_cons, Hin. split.
      * intros [[= -> ->]|(i & Hi & ->)]; [exists 0|exists (S i)]; (split; [done|lia]).
      * intros ([|i] & Hi & ->); simpl in Hi; [left; injection Hi as ->; f_equal; lia|].
        right. exists i. split; [done|lia].
  - destruct (IH (S k)) as (out & Hrun & Hl & Hnd & Hin); [lia| |].
    { intros i x Hi. rewrite <-(Hs (S i) x Hi). f_equal. lia. }
    exists out. unfold present in *. rewrite filter_cons_False by (intros [? [=]]).
    split_and!; try done. intros j x. rewrite Hin. split.
    + intros (i & Hi & ->). exists (S i). split; [done|lia].
    + intros ([|i] & Hi & ->); [done|]. exists i. split; [done|lia].
Qed.

Lemma present_app s1 s2 : present (s1 ++ s2) = present s1 + present s2.
Proof. unfold present. by rewrite list.filter_app, length_app. Qed.

Lemma present_full slots : present slots = length slots → ∀ i, i < length slots → ∃ s, slots !! i = Some (Some s).
Proof.
  induction slots as [|[s|] slots IH]; unfold present in *; [simpl; lia| |].
  - rewrite filter_cons_True by done. simpl. intros [= Hl] [|i] Hi; [by exists s|]. simpl.
    apply IH; [done|lia].
  - rewrite filter_cons_False by (intros [? [=]]). simpl. intros Hl.
    pose proof (length_filter (λ s : option bytes, is_Some s) slots). lia.
Qed.

Lemma omap_full (slots : list (option bytes)) shards :
  length slots = length shards → (∀ i, i < length slots → slots !! i = Some (shards !! i)) →
  omap id slots = shards.
Proof.
  revert shards. induction slots as [|s slots IH]; intros [|x shards] Hl Hi; try done.
  pose proof (Hi 0 ltac:(simpl; lia)) as H0. simpl in H0. injection H0 as ->. simpl. f_equal.
  apply IH; [by injection Hl|]. intros i Hlt. apply (Hi (S i)). simpl. lia.
Qed.

Section roundtrip.
Context (c : RsCodec) (ec : Erasure) (unit : nat).
Context (Hmds : rs_mds c (data_shards ec) (parity_shards ec) unit).
Context (Hn : 0 < data_shards ec) (Hunit : 0 < unit) (Heven : unit mod 2 = 0).

Definition parity_of (rec : nat → option bytes) : list bytes :=
  (λ i, default [] (rec i)) <$> seq 0 (parity_shards ec).

(** A full stripe encodes to its slices followed by the recovery shards. *)
Lemma encode_stripe_eq stripe rec : length stripe = data_shards ec * unit →
  rs_encode c (data_shards ec) (parity_shards ec) unit (slices (data_shards ec) unit stripe) = Ok rec →
  (∀ i, i < parity_shards ec → is_Some (rec i)) →
  encode_stripe c ec stripe = Ok (slices (data_shards ec) unit stripe ++ parity_of rec).
Proof.
  intros Hl Henc Hrec. unfold encode_stripe. cbv zeta. rewrite Hl.
  rewrite (proj2 (Nat.eqb_neq _ _)) by nia. rewrite (Nat.mul_comm (data_shards ec)), Nat.Div0.mod_mul.
  rewrite Nat.div_mul by lia. rewrite Heven. simpl. rewrite Henc. simpl.
  rewrite (collect_Ok _ (λ i, default [] (rec i))); [done|].
  intros i [_ Hi]%elem_of_seq. destruct (Hrec i) as (r & Hr); [lia|]. by rewrite Hr.
Qed.

Lemma lookup_codeword data rec i : length data = data_shards ec → i < data_shards ec + parity_shards ec →
  (data ++ parity_of rec) !! i =
    if decide (i < data_shards ec) then data !! i else Some (default [] (rec (i - data_shards ec))).
Proof.
  intros Hl Hi. case_decide.
  - by rewrite lookup_app_l by lia.
  - rewrite lookup_app_r, Hl by lia. unfold parity_of. rewrite list_lookup_fmap, lookup_seq_lt by lia. done.
Qed.

Lemma encode_stripe_ok stripe : length stripe = data_shards ec * unit →
  ∃ parity, encode_stripe c ec stripe = Ok (slices (data_shards ec) unit stripe ++ parity)
    ∧ length parity = parity_shards ec
    ∧ Forall (λ s, length s = unit) (slices (data_shards ec) unit stripe ++ parity).
Proof.
  intros Hl. destruct (Hmds (slices (data_shards ec) unit stripe)) as (rec & Henc & Hrec & _);
    [apply length_slices|by apply slices_unit|].
  exists (parity_of rec). split; [|split].
  - apply encode_stripe_eq; [done..|]. intros i Hi. destruct (Hrec i Hi) as (r & -> & _). done.
  - unfold parity_of. by rewrite length_fmap, length_seq.
  - apply Forall_app. split; [by apply slices_unit|]. apply Forall_fmap, Forall_forall.
    intros i [_ Hi]%elem_of_seq. destruct (Hrec i) as (r & Hr & Hlr); [lia|]. simpl. by rewrite Hr.
Qed.

(** Any [n] shards of a stripe restore it. *)
Lemma decode_encode stripe shards slots :
  length stripe = data_shards ec * unit → encode_stripe c ec stripe = Ok shards →
  length slots = data_shards ec + parity_shards ec →
  from_codeword shards slots → data_shards ec ≤ present slots →
  decode_stripe c ec slots unit = Ok (slices (data_shards ec) unit stripe).
Proof.
  intros Hl He Hls Hfrom Hp. set (n := data_shards ec) in *. set (m := parity_shards ec) in *.
  set (data := slices n unit stripe) in *.
  assert (length data = n) as Hld by apply length_slices.
  assert (Forall (λ s, length s = unit) data) as Hun by by apply slices_unit.
  destruct (Hmds data Hld Hun) as (rec & Henc & Hrec & Hdec).
  destruct (encode_stripe_ok stripe Hl) as (parity & He' & Hlp & Hall). fold n data in He', Hall.
  rewrite He in He'. injection He' as ->.
  rewrite (encode_stripe_eq stripe rec Hl Henc) in He;
    [|intros i Hi; destruct (Hrec i Hi) as (r & -> & _); done].
  fold n data in He. injection He as He. apply app_inv_head in He. subst parity.
  unfold decode_stripe. cbv zeta. fold n m. rewrite Hls, Nat.eqb_refl.
  rewrite (proj2 (Nat.eqb_neq unit 0)), Heven by lia. cbn [negb orb Nat.eqb].
  assert (length (take n slots) = n) as Hlt by (rewrite length_take; lia).
  assert (∀ i s, take n slots !! i = Some (Some s) → data !! i = Some s) as Hdata.
  { intros i s [Hi Hin]%lookup_take_Some. apply Hfrom in Hi. by rewrite lookup_app_l in Hi by lia. }
  destruct (Nat.eqb_spec (present (take n slots)) n) as [Hfull|Hmiss].
  { f_equal. apply omap_full; [lia|]. intros i Hi.
    destruct (present_full (take n slots) ltac:(lia) i Hi) as [s Hs].
    rewrite Hs. f_equal. symmetry. by apply Hdata. }
  destruct (feed_ok "original" unit 0 0 (take n slots) data) as (os & -> & Hlo & Hndo & Hino);
    [done|done|intros i s; apply Hdata|].
  destruct (feed_ok "recovery" unit n n (drop n slots) (data ++ parity_of rec)) as (rs & -> & Hlr & Hndr & Hinr);
    [done|done|intros i s Hi; rewrite lookup_drop in Hi; by apply Hfrom|].
  destruct (Hdec os rs Hndo Hndr) as (res & Hrun & Hres).
  - intros i s (j & Hj & ->)%Hino. rewrite Nat.sub_0_r. by apply Hdata.
  - intros j s (i & Hi & ->)%Hinr. rewrite lookup_drop in Hi.
    pose proof (lookup_lt_Some _ _ _ Hi) as Hlt'. apply Hfrom in Hi.
    replace (n + i - n) with i by lia. assert (i < m) as Him by lia. split; [done|].
    rewrite lookup_codeword, decide_False in Hi by lia. fold n in Hi.
    replace (n + i - n) with i in Hi by lia.
    destruct (Hrec i Him) as (r & Hr & _). rewrite Hr in *. by injection Hi as ->.
  - rewrite Hlo, Hlr, <-present_app, take_drop. done.
  - simpl. rewrite Hrun. simpl. apply collect_lookup; [rewrite length_imap; lia|].
    intros i s Hi. rewrite list_lookup_imap. pose proof (lookup_lt_Some _ _ _ Hi) as Hlti.
    destruct (lookup_lt_is_Some_2 (take n slots) i) as [[o|] Ho]; [lia| |]; rewrite Ho; simpl.
    + rewrite (Hdata _ _ Ho) in Hi. by injection Hi as ->.
    + rewrite (Hres i s Hi); [done|]. intros ([j x] & Hj & (k & Hk & Hjk)%Hino)%list_elem_of_fmap.
      simpl in Hj. replace k with i in Hk by lia. congruence.
Qed.
End roundtrip.

(** ** A concrete codec

    Two data shards and their bytewise exclusive or. *)
Definition xor_byte (a b : byte) : byte :=
  let '(a0, (a1, (a2, (a3, (a4, (a5, (a6, a7))))))) := Byte.to_bits a in
  let '(b0, (b1, (b2, (b3, (b4, (b5, (b6, b7))))))) := Byte.to_bits b in
  Byte.of_bits (xorb a0 b0, (xorb a1 b1, (xorb a2 b2, (xorb a3 b3,
    (xorb a4 b4, (xorb a5 b5, (xorb a6 b6, xorb a7 b7))))))).
Definition xor_bytes : bytes → bytes → bytes := zip_with xor_byte.

Definition xor_codec : RsCodec := {|
  rs_encode n m unit shards :=
    match shards with
    | [a; b] => Ok (λ i, if i =? 0 then Some (xor_bytes a b) else None)
    | _ => Err "RS encoder new: unsupported"
    end;
  rs_decode n m unit os rs :=
    match os, rs with
    | [(i, a)], [(_, p)] => Ok (λ j, if j =? i then None else Some (xor_bytes a p))
    | [_; _], _ => Ok (λ _, None)
    | _, _ => Err "RS decode: NotEnoughShards"
    end
|}.

Lemma xor_byte_l a b : xor_byte a (xor_byte a b) = b.
Proof.
  transitivity (of_bits (to_bits b)); [|apply of_bits_to_bits]. unfold xor_byte.
  destruct (to_bits a) as (a0 & a1 & a2 & a3 & a4 & a5 & a6 & a7).
  destruct (to_bits b) as (b0 & b1 & b2 & b3 & b4 & b5 & b6 & b7). rewrite to_bits_of_bits.
  by rewrite <-!xorb_assoc, !xorb_nilpotent, !xorb_false_l.
Qed.
Lemma xor_byte_comm a b : xor_byte a b = xor_byte b a.
Proof.
  unfold xor_byte. destruct (to_bits a) as (a0 & a1 & a2 & a3 & a4 & a5 & a6 & a7).
  destruct (to_bits b) as (b0 & b1 & b2 & b3 & b4 & b5 & b6 & b7). 
  by rewrite !(xorb_comm a0), !(xorb_comm a1), !(xorb_comm a2), !(xorb_comm a3), !(xorb_comm a4),
    !(xorb_comm a5), !(xorb_comm a6), !(xorb_comm a7).
Qed.
Lemma xor_bytes_l a b : length a = length b → xor_bytes a (xor_bytes a b) = b.
Proof.
  revert b. induction a as [|x a IH]; intros [|y b] Hl; try done. simpl. f_equal.
  - apply xor_byte_l.
  - apply IH. by injection Hl.
Qed.
Lemma xor_bytes_comm a b : xor_bytes a b = xor_bytes b a.
Proof.
  revert b. induction a as [|x a IH]; intros [|y b]; try done. simpl. f_equal; [apply xor_byte_comm|apply IH].
Qed.

Lemma xor_codec_mds unit : rs_mds xor_codec 2 1 unit.
Proof.
  intros shards Hl Hun. destruct shards as [|a [|b [|]]]; try done.
  rewrite !Forall_cons in Hun. destruct Hun as (Ha & Hb & _).
  eexists. split; [done|]. split.
  - intros i Hi. replace i with 0 by lia. simpl. eexists. split; [done|].
    unfold xor_bytes. rewrite length_zip_with. lia.
  - intros os rs Hno Hnr Hos Hrs Hlen.
    assert (∀ i s, (i, s) ∈ os → i < 2) as Hi2.
    { intros i s Hin%Hos. by apply lookup_lt_Some in Hin. }
    assert (length rs ≤ 1) as Hr1.
    { destruct rs as [|[j x] [|[k y] rs]]; simpl; try lia. exfalso.
      destruct (Hrs j x) as [? _]; [left|]. destruct (Hrs k y) as [? _]; [right; left|].
      rewrite !fmap_cons in Hnr. apply NoDup_cons in Hnr as [Hnr _]. apply Hnr. simpl.
      replace j with k by lia. left. }
    destruct os as [|[i s] [|[i' s'] [|[i'' s''] os]]]; simpl in Hlen.
    + lia.
    + destruct rs as [|[j p] [|]]; simpl in *; try lia. eexists. split; [done|].
      intros k x Hk Hne. destruct (Nat.eqb_spec k i) as [->|Hki]; [by destruct Hne; left|].
      pose proof (Hos i s ltac:(left)) as Hi. destruct (Hrs j p) as [Hj Hp]; [left|].
      replace j with 0 in Hp by lia. simpl in Hp. injection Hp as <-.
      destruct k as [|[|k]], i as [|[|i]]; simpl in *; simplify_eq; try lia.
      * rewrite (xor_bytes_comm x), xor_bytes_l; [done|congruence].
      * rewrite xor_bytes_l; [done|congruence].
    + eexists. split; [done|]. intros k x Hk Hne. exfalso. apply Hne.
      pose proof (Hi2 i s ltac:(left)). pose proof (Hi2 i' s' ltac:(right; left)).
      apply lookup_lt_Some in Hk. simpl in Hk. rewrite !fmap_cons in *. simpl in *.
      apply NoDup_cons in Hno as [Hno _]. rewrite list_elem_of_singleton in Hno.
      destruct (decide (k = i)) as [->|]; [left|]. replace k with i' by lia. right. left.
    + exfalso. pose proof (Hi2 i s ltac:(left)). pose proof (Hi2 i' s' ltac:(right; left)).
      pose proof (Hi2 i'' s'' ltac:(right; right; left)). rewrite !fmap_cons in Hno. simpl in Hno.
      rewrite !NoDup_cons, !not_elem_of_cons in Hno. lia.
Qed.

(** ** Properties *)

(** C33.  Erasure round trip: whatever [n] of the [n + m] shards of a stripe
    survive, [decode_stripe] returns the stripe's data shards, and their
    concatenation is the stripe. *)
Theorem ec_any_n_shards (c : RsCodec) (ec : Erasure) (unit : nat) (stripe : bytes)
    (slots : list (option bytes))
    (Hmds : rs_mds c (data_shards ec) (parity_shards ec) unit)
    (Hn : 0 < data_shards ec) (Hunit : 0 < unit) (Heven : unit mod 2 = 0)
    (Hl : length stripe = data_shards ec * unit)
    (Hslots : length slots = data_shards ec + parity_shards ec)
    (Hp : data_shards ec ≤ present slots)
    (Hfrom : ∀ shards, encode_stripe c ec stripe = Ok shards → from_codeword shards slots) :
  ∃ data, decode_stripe c ec slots unit = Ok data ∧ concat data = stripe.
Proof.
  destruct (encode_stripe_ok c ec unit Hmds Hn Hunit Heven stripe Hl) as (parity & He & _).
  exists (slices (data_shards ec) unit stripe). split; [|by apply concat_slices].
  eapply decode_encode; try done. by apply Hfrom.
Qed.

(** The shard size of a block is even, its data shards hold the block, and
    it exceeds the exact share by less than two bytes. *)
Theorem shard_size_bounds (block d : nat) (Hd : 0 < d) :
  shard_size block d mod 2 = 0
  ∧ block ≤ d * shard_size block d
  ∧ d * shard_size block d < block + 2 * d.
Proof.
  unfold shard_size. set (raw := (block + d - 1) / d).
  assert (d * raw ≤ block + d - 1 < d * raw + d) as Hraw.
  { pose proof (Nat.div_mod (block + d - 1) d ltac:(lia)).
    pose proof (Nat.mod_upper_bound (block + d - 1) d). lia. }
  assert (Nat.land raw 1 = raw mod 2) as -> by apply (Nat.land_ones raw 1).
  pose proof (Nat.div_mod raw 2 ltac:(lia)). pose proof (Nat.mod_upper_bound raw 2 ltac:(lia)).
  split; [|nia]. apply Nat.Div0.mod_divides. exists (raw / 2 + raw mod 2). lia.
Qed.

(** ** Witnesses *)

Definition ec21 : Erasure := {| data_shards := 2; parity_shards := 1 |}.
Definition stripe8 : bytes := [x01; x02; x03; x04; x05; x06; x07; x08].

Lemma ec_any_n_shards_witness : ∃ data,
  decode_stripe xor_codec ec21
    [None; Some [x05; x06; x07; x08]; Some [x04; x04; x04; x0c]] 4 = Ok data
  ∧ concat data = stripe8.
Proof.
  apply (ec_any_n_shards xor_codec ec21 4 stripe8); try reflexivity; try (simpl; lia).
  - apply xor_codec_mds.
  - intros shards He. vm_compute in He. injection He as <-.
    intros [|[|[|i]]] s Hs; vm_compute in Hs; simplify_eq; done.
Defined.

Lemma shard_size_bounds_witness : shard_size 10 4 mod 2 = 0 ∧ 10 ≤ 4 * shard_size 10 4.
Proof. destruct (shard_size_bounds 10 4) as (? & ? & _); [lia|]. by split. Defined.
