(* ===== verification/Streams.v ===== *)
(** * Byte streams and sinks

    [openlake_io/src/stream.rs]: the [ByteStream] and [ByteSink] traits, the
    streams over buffers, the window [SkipTakeStream], and the loops
    [read_full], [pump_n].  [None] is a panic.  Loops over a stream carry fuel;
    every chunk they take moves them by at least one byte, so the byte count
    they wait for is fuel enough (the lemmas [..._fuel]). *)

From stdpp Require Import base gmap strings list pretty.
From S2P Require Import Prelude Types Ec.

(** ** The traits

    [read] yields the next chunk; an empty chunk is the end of the stream.
    [yields s bs]: the reads of [s] deliver exactly [bs], without an error.
    [serves s bs]: what [s] delivers is taken from the front of [bs], but it may
    fail or end at any point. *)
Class ByteStream (St : Type) := {
  read : St → option (IoResult bytes * St);
  yields : St → bytes → Prop;
  serves : St → bytes → Prop;
  read_yields : ∀ s bs, yields s bs →
    ∃ chunk rest s', read s = Some (Ok chunk, s') ∧ bs = chunk ++ rest ∧ yields s' rest
      ∧ (chunk = [] → rest = []);
  read_serves : ∀ s bs, serves s bs →
    ∃ res s', read s = Some (res, s')
      ∧ ∀ chunk, res = Ok chunk → chunk ≠ [] → ∃ rest, bs = chunk ++ rest ∧ serves s' rest
}.

(** [written k] is what the sink accepted so far. *)
Class ByteSink (K : Type) := {
  write_all : bytes → K → IoResult unit * K;
  finish : K → IoResult unit * K;
  written : K → bytes;
  write_all_ok : ∀ b k k', write_all b k = (Ok tt, k') → written k' = written k ++ b
}.

(** ** Loops *)

Section loops.
Context {St : Type} `{ByteStream St}.

(** [read_full]: the bytes copied into [dst]; the call returns their number. *)
Fixpoint read_full_loop (fuel want : nat) (dst : bytes) (s : St) : option (IoResult bytes * St) :=
  if length dst <? want then
    match fuel with
    | 0 => None
    | S fuel =>
        '(r, s) ← read s;
        match r with
        | Err e => Some (Err e, s)
        | Ok [] => Some (Ok dst, s)
        | Ok chunk =>
            let take_n := Nat.min (want - length dst) (length chunk) in
            read_full_loop fuel want (dst ++ take take_n chunk) s
        end
    end
  else Some (Ok dst, s).
Definition read_full (want : nat) (s : St) : option (IoResult bytes * St) :=
  read_full_loop want want [] s.

Definition eof_error (what : string) (at_ size : nat) : IoError :=
  Io {| io_kind := KindUnexpectedEof;
        io_msg := what +:+ pretty at_ +:+ "/" +:+ pretty size |}.

Fixpoint pump_loop {K} `{ByteSink K} (fuel size moved : nat) (src : St) (dst : K) :
    option (IoResult unit * St * K) :=
  if moved <? size then
    match fuel with
    | 0 => None
    | S fuel =>
        '(r, src) ← read src;
        match r with
        | Err e => Some (Err e, src, dst)
        | Ok [] => Some (Err (eof_error "pump_n: source ended at " moved size), src, dst)
        | Ok chunk =>
            let chunk := if size <? moved + length chunk then take (size - moved) chunk else chunk in
            match write_all chunk dst with
            | (Err e, dst) => Some (Err e, src, dst)
            | (Ok _, dst) => pump_loop fuel size (moved + length chunk) src dst
            end
        end
    end
  else Some (Ok tt, src, dst).
Definition pump_n {K} `{ByteSink K} (src : St) (dst : K) (size : nat) : option (IoResult unit * St * K) :=
  pump_loop size size 0 src dst.

(** Reading to the end of the stream. *)
Fixpoint drain (fuel : nat) (s : St) : option (IoResult bytes * St) :=
  match fuel with
  | 0 => None
  | S fuel =>
      '(r, s) ← read s;
      match r with
      | Err e => Some (Err e, s)
      | Ok [] => Some (Ok [], s)
      | Ok chunk =>
          '(r, s) ← drain fuel s;
          Some (match r with Ok rest => Ok (chunk ++ rest) | Err e => Err e end, s)
      end
  end.
End loops.

(** ** Streams over buffers *)

(** [BytesByteStream] and [VecByteStream]: the whole buffer, then the end. *)
Record BytesByteStream := { bb_buf : bytes }.
#[global] Program Instance BytesByteStream_stream : ByteStream BytesByteStream := {|
  read s := Some (Ok (bb_buf s), {| bb_buf := [] |});
  yields s bs := bs = bb_buf s;
  serves s bs := bb_buf s `prefix_of` bs
|}.
Next Obligation.
  intros s bs ->. eexists _, [], _. split; [done|]. by rewrite app_nil_r.
Qed.
Next Obligation.
  intros s bs [rest ->]. eexists _, _. split; [done|]. intros chunk [= <-] _.
  exists rest. split; [done|]. apply prefix_nil.
Qed.

(** [RopeByteStream]: one frame per read; an empty frame reads as the end. *)
Record RopeByteStream := { frames : list bytes }.
Definition rope_read (s : RopeByteStream) : IoResult bytes * RopeByteStream :=
  match frames s with
  | [] => (Ok [], s)
  | f :: fs => (Ok f, {| frames := fs |})
  end.
#[global] Program Instance RopeByteStream_stream : ByteStream RopeByteStream := {|
  read s := Some (rope_read s);
  yields s bs := Forall (λ f, f ≠ []) (frames s) ∧ bs = concat (frames s);
  serves s bs := concat (frames s) `prefix_of` bs
|}.
Next Obligation.
  intros [[|f fs]] bs [Hne ->]; simpl in *.
  - by eexists _, [], _.
  - apply Forall_cons in Hne as [Hf Hne]. by eexists _, _, _.
Qed.
Next Obligation.
  intros [[|f fs]] bs [rest ->]; simpl in *; eexists _, _; (split; [done|]); intros chunk [= <-] Hc; [done|].
  exists (concat fs ++ rest). rewrite app_assoc. split; [done|]. by apply prefix_app_r.
Qed.

(** ** [SkipTakeStream]: a window of another stream *)
Record SkipTakeStream (St : Type) := { st_inner : St; to_skip : nat; remaining : nat }.
Arguments st_inner {St} _.
Arguments to_skip {St} _.
Arguments remaining {St} _.

(** Passes a loop's branch on an empty chunk, for a chunk that is not. *)
Ltac take_chunk chunk :=
  let b := fresh "b" in let c := fresh "c" in
  destruct chunk as [|b c]; [done|];
  set (chunk := b :: c) in *; clearbody chunk; clear b c.

Section skip_take.
Context {St : Type} `{ByteStream St}.

Fixpoint skip_take_loop (fuel : nat) (st : SkipTakeStream St) :
    option (IoResult bytes * SkipTakeStream St) :=
  match fuel with
  | 0 => None
  | S fuel =>
      if remaining st =? 0 then Some (Ok [], st) else
      '(r, inner) ← read (st_inner st);
      let st := {| st_inner := inner; to_skip := to_skip st; remaining := remaining st |} in
      match r with
      | Err e => Some (Err e, st)
      | Ok [] => Some (Ok [], st)
      | Ok chunk =>
          if length chunk <=? to_skip st then
            skip_take_loop fuel {| st_inner := inner; to_skip := to_skip st - length chunk;
                                   remaining := remaining st |}
          else
            let kept := drop (to_skip st) chunk in
            let take_n := Nat.min (remaining st) (length kept) in
            Some (Ok (take take_n kept),
                  {| st_inner := inner; to_skip := 0; remaining := remaining st - take_n |})
      end
  end.

(** Each chunk that is skipped whole lowers [to_skip]. *)
Definition skip_take_read (st : SkipTakeStream St) := skip_take_loop (1 + to_skip st) st.

Lemma cons_length_pos (chunk : bytes) : chunk ≠ [] → 0 < length chunk.
Proof. destruct chunk; simpl; [done|lia]. Qed.

Lemma take_app_window n (l1 l2 : bytes) :
  take n (l1 ++ l2) = take (Nat.min n (length l1)) l1 ++ take (n - Nat.min n (length l1)) l2.
Proof.
  rewrite take_app. f_equal; [|f_equal; lia].
  destruct (Nat.le_ge_cases n (length l1)); [by rewrite Nat.min_l|].
  rewrite Nat.min_r by done. by rewrite !take_ge.
Qed.

Lemma drop_app_window n (l1 l2 : bytes) :
  drop n (l1 ++ l2) = drop (Nat.min n (length l1)) l1 ++ drop (n - Nat.min n (length l1)) l2.
Proof.
  rewrite drop_app. destruct (Nat.le_ge_cases n (length l1)).
  - rewrite Nat.min_l by done. do 2 f_equal. lia.
  - rewrite Nat.min_r by done. by rewrite !(drop_ge l1).
Qed.

Lemma skip_take_yields fuel st bs : yields (st_inner st) bs → to_skip st < fuel →
  ∃ chunk rest st', skip_take_loop fuel st = Some (Ok chunk, st')
    ∧ take (remaining st) (drop (to_skip st) bs) = chunk ++ rest
    ∧ (∃ bs', yields (st_inner st') bs' ∧ rest = take (remaining st') (drop (to_skip st') bs'))
    ∧ (chunk = [] → rest = []).
Proof.
  revert st bs. induction fuel as [|fuel IH]; intros st bs Hy Hf; [lia|]. simpl.
  destruct (Nat.eqb_spec (remaining st) 0) as [Hr|Hr].
  { exists [], [], st. rewrite Hr. split_and!; try done. by exists bs. }
  destruct (read_yields _ _ Hy) as (chunk & rest & s' & -> & -> & Hy' & Hend). simpl.
  destruct (decide (chunk = [])) as [->|Hne].
  { rewrite (Hend eq_refl) in *. eexists [], [], _. split_and!; try done.
    - simpl. by rewrite drop_nil, take_nil.
    - exists []. simpl. by rewrite drop_nil, take_nil. }
  pose proof (cons_length_pos _ Hne). take_chunk chunk.
  destruct (Nat.leb_spec (length chunk) (to_skip st)) as [Hle|Hgt].
  - rewrite drop_app_ge by done.
    apply (IH {| st_inner := s'; to_skip := to_skip st - length chunk; remaining := remaining st |} rest);
      [done|simpl; lia].
  - set (kept := drop (to_skip st) chunk). assert (0 < length kept) as Hk by (subst kept; rewrite length_drop; lia).
    eexists _, _, _. split; [done|]. rewrite drop_app_le by lia. fold kept.
    split; [|split; [exists rest; split; [done|]; reflexivity|]].
    + simpl. by rewrite drop_0, take_app_window.
    + intros Hnil. apply (f_equal length) in Hnil. rewrite length_take in Hnil. simpl in Hnil. lia.
Qed.

Lemma skip_take_serves fuel st bs : serves (st_inner st) bs → to_skip st < fuel →
  ∃ res st', skip_take_loop fuel st = Some (res, st')
    ∧ ∀ chunk, res = Ok chunk → chunk ≠ [] → ∃ rest,
        take (remaining st) (drop (to_skip st) bs) = chunk ++ rest
        ∧ ∃ bs', serves (st_inner st') bs' ∧ rest = take (remaining st') (drop (to_skip st') bs').
Proof.
  revert st bs. induction fuel as [|fuel IH]; intros st bs Hy Hf; [lia|]. simpl.
  destruct (Nat.eqb_spec (remaining st) 0) as [Hr|Hr].
  { eexists _, _. split; [done|]. by intros chunk [= <-]. }
  destruct (read_serves _ _ Hy) as (res & s' & -> & Hres). simpl.
  destruct res as [chunk|e]; [|eexists _, _; by split].
  destruct (decide (chunk = [])) as [->|Hne].
  { eexists _, _. split; [done|]. by intros chunk [= <-]. }
  destruct (Hres chunk eq_refl Hne) as (rest & -> & Hs'). pose proof (cons_length_pos _ Hne).
  take_chunk chunk. destruct (Nat.leb_spec (length chunk) (to_skip st)) as [Hle|Hgt].
  - rewrite drop_app_ge by done.
    apply (IH {| st_inner := s'; to_skip := to_skip st - length chunk; remaining := remaining st |} rest);
      [done|simpl; lia].
  - eexists _, _. split; [done|]. intros ch [= <-] _. simpl. rewrite drop_app_le by lia.
    rewrite take_app_window. eexists. split; [done|]. exists rest. by rewrite drop_0.
Qed.
End skip_take.

#[global] Program Instance SkipTakeStream_stream {St} `{ByteStream St} :
    ByteStream (SkipTakeStream St) := {|
  read st := skip_take_read st;
  yields st out := ∃ bs, yields (st_inner st) bs ∧ out = take (remaining st) (drop (to_skip st) bs);
  serves st out := ∃ bs, serves (st_inner st) bs ∧ out = take (remaining st) (drop (to_skip st) bs)
|}.
Next Obligation.
  intros St ? st out (bs & Hy & ->).
  destruct (skip_take_yields (1 + to_skip st) st bs Hy) as (chunk & rest & st' & Hr & Heq & Hy' & Hend); [lia|].
  by exists chunk, rest, st'.
Qed.
Next Obligation.
  intros St ? st out (bs & Hy & ->).
  destruct (skip_take_serves (1 + to_skip st) st bs Hy) as (res & st' & Hr & Hres); [lia|].
  by exists res, st'.
Qed.

(** ** Sinks *)

Record VecByteSink := { vs_buf : bytes }.
#[global] Program Instance VecByteSink_sink : ByteSink VecByteSink := {|
  write_all b k := (Ok tt, {| vs_buf := vs_buf k ++ b |});
  finish k := (Ok tt, k);
  written k := vs_buf k
|}.
Next Obligation. by intros b k k' [= <-]. Qed.

(** ** Lemmas on the loops *)

Section loop_lemmas.
Context {St : Type} `{ByteStream St}.

Lemma drain_yields fuel (s : St) bs : yields s bs → length bs < fuel →
  ∃ s', drain fuel s = Some (Ok bs, s').
Proof.
  revert s bs. induction fuel as [|fuel IH]; intros s bs Hy Hf; [lia|]. simpl.
  destruct (read_yields _ _ Hy) as (chunk & rest & s' & -> & -> & Hy' & Hend). simpl.
  destruct (decide (chunk = [])) as [->|Hne]; [rewrite (Hend eq_refl); by eexists|].
  pose proof (cons_length_pos _ Hne). rewrite length_app in Hf.
  destruct (IH s' rest Hy') as (s'' & Hd); [lia|].
  take_chunk chunk. rewrite Hd. by eexists.
Qed.

Lemma read_full_loop_yields fuel want dst (s : St) bs :
  yields s bs → length dst ≤ want → want - length dst ≤ fuel →
  ∃ s', read_full_loop fuel want dst s = Some (Ok (dst ++ take (want - length dst) bs), s').
Proof.
  revert dst s bs. induction fuel as [|fuel IH]; intros dst s bs Hy Hd Hf; simpl.
  { rewrite (proj2 (Nat.ltb_ge _ _)) by lia. replace (want - length dst) with 0 by lia.
    rewrite take_0, app_nil_r. by eexists. }
  destruct (Nat.ltb_spec (length dst) want) as [Hlt|Hge]; cycle 1.
  { replace (want - length dst) with 0 by lia. rewrite take_0, app_nil_r. by eexists. }
  destruct (read_yields _ _ Hy) as (chunk & rest & s' & -> & -> & Hy' & Hend). simpl.
  destruct (decide (chunk = [])) as [->|Hne].
  { rewrite (Hend eq_refl). simpl. rewrite take_nil, app_nil_r. by eexists. }
  pose proof (cons_length_pos _ Hne). take_chunk chunk. rewrite take_app_window, app_assoc.
  set (k := Nat.min (want - length dst) (length chunk)).
  assert (length (take k chunk) = k) as Hk by (rewrite length_take; lia).
  destruct (IH (dst ++ take k chunk) s' rest Hy') as (s'' & Hrun);
    [rewrite length_app; lia|rewrite length_app; lia|].
  exists s''. rewrite Hrun, length_app, Hk. do 5 f_equal. lia.
Qed.

(** The fuel of [read_full] suffices on every stream that does not panic. *)
Lemma read_full_loop_fuel fuel want dst (s : St) :
  (∀ s, is_Some (read s)) → length dst ≤ want → want - length dst ≤ fuel →
  is_Some (read_full_loop fuel want dst s).
Proof.
  intros Htot. revert dst s. induction fuel as [|fuel IH]; intros dst s Hd Hf; simpl.
  { by rewrite (proj2 (Nat.ltb_ge _ _)) by lia. }
  case_bool; to_prop; [|done]. destruct (Htot s) as [[[chunk|e] s'] ->]; simpl; [|done].
  destruct (decide (chunk = [])) as [->|Hne]; [done|].
  pose proof (cons_length_pos _ Hne). take_chunk chunk.
  apply IH; rewrite length_app, length_take; lia.
Qed.

Context {K : Type} `{ByteSink K}.

Lemma pump_loop_eof fuel size moved (src : St) (dst : K) bs :
  yields src bs → moved ≤ size → size - moved ≤ fuel →
  ∃ r src' dst', pump_loop fuel size moved src dst = Some (r, src', dst')
    ∧ match r with
      | Ok _ => size - moved ≤ length bs ∧ written dst' = written dst ++ take (size - moved) bs
      | Err e => (∃ b k k', write_all b k = (Err e, k'))
                 ∨ (moved + length bs < size
                    ∧ e = eof_error "pump_n: source ended at " (moved + length bs) size
                    ∧ written dst' = written dst ++ bs)
      end.
Proof.
  revert moved src dst bs. induction fuel as [|fuel IH]; intros moved src dst bs Hy Hm Hf; simpl.
  { rewrite (proj2 (Nat.ltb_ge _ _)) by lia. eexists _, _, _. split; [done|]. simpl.
    replace (size - moved) with 0 by lia. rewrite take_0, app_nil_r. split; [lia|done]. }
  destruct (Nat.ltb_spec moved size) as [Hlt|Hge]; cycle 1.
  { eexists _, _, _. split; [done|]. simpl.
    replace (size - moved) with 0 by lia. rewrite take_0, app_nil_r. split; [lia|done]. }
  destruct (read_yields _ _ Hy) as (chunk & rest & s' & -> & -> & Hy' & Hend). simpl.
  destruct (decide (chunk = [])) as [->|Hne].
  { eexists _, _, _. split; [done|]. simpl. right. rewrite (Hend eq_refl). simpl.
    rewrite Nat.add_0_r, app_nil_r. done. }
  pose proof (cons_length_pos _ Hne). take_chunk chunk.
  set (ch := if size <? moved + length chunk then take (size - moved) chunk else chunk).
  assert (ch = take (Nat.min (size - moved) (length chunk)) chunk) as Hch.
  { unfold ch. destruct (Nat.ltb_spec size (moved + length chunk)).
    - by rewrite Nat.min_l by lia.
    - rewrite Nat.min_r by lia. by rewrite take_ge. }
  assert (length ch = Nat.min (size - moved) (length chunk)) as Hlch by (rewrite Hch, length_take; lia).
  destruct (write_all ch dst) as [[[]|e] dst1] eqn:Ew; cycle 1.
  { eexists _, _, _. split; [done|]. simpl. left. by eexists _, _, _. }
  destruct (IH (moved + length ch) s' dst1 rest Hy') as (r & src' & dst' & -> & Hr); [lia|lia|].
  exists r, src', dst'. split; [done|]. rewrite length_app. pose proof (write_all_ok _ _ _ Ew) as Hw.
  destruct r as [[]|e].
  - destruct Hr as [Hlen ->]. split; [lia|].
    rewrite Hw, take_app_window, Hlch, Nat.sub_add_distr, <-app_assoc. by rewrite Hch.
  - destruct Hr as [?|(Hlen & -> & ->)]; [by left|]. right.
    assert (ch = chunk) as -> by (rewrite Hch; apply take_ge; lia).
    split; [lia|]. split; [f_equal; lia|]. by rewrite Hw, app_assoc.
Qed.
End loop_lemmas.

(** ** Properties *)

(** A [SkipTakeStream] is the byte window of its inner stream: over any
    stream that delivers [bs], in chunks of any size, reading it to the end
    delivers exactly the [n] bytes of [bs] after the first [k], without an error
    and without a panic. *)
Theorem skip_take_window {St} `{ByteStream St} (s : St) (bs : bytes) (k n fuel : nat)
    (Hy : yields s bs) (Hf : n < fuel) :
  ∃ st', drain fuel {| st_inner := s; to_skip := k; remaining := n |}
         = Some (Ok (take n (drop k bs)), st').
Proof.
  apply drain_yields; [by exists bs|]. rewrite length_take. lia.
Qed.

Definition rope3 : RopeByteStream := {| frames := [[x01; x02]; [x03; x04; x05]; [x06]] |}.

Lemma skip_take_window_witness : ∃ st',
  drain 4 {| st_inner := rope3; to_skip := 1; remaining := 3 |} = Some (Ok [x02; x03; x04], st').
Proof.
  apply (skip_take_window rope3 [x01; x02; x03; x04; x05; x06] 1 3 4); [|lia].
  split; [|reflexivity]. repeat constructor; discriminate.
Defined.

(** [pump_n] moves exactly [size] bytes: over any stream that delivers
    [bs] and any sink, it returns; on success the sink has received the first
    [size] bytes of [bs] and no more; a source that is too short is the
    unexpected end of file at the position it stopped, with everything it had
    delivered written; any other error is one a write of the sink returned. *)
Theorem pump_n_exact {St K} `{ByteStream St} `{ByteSink K} (src : St) (dst : K) (bs : bytes) (size : nat)
    (Hy : yields src bs) :
  ∃ r src' dst', pump_n src dst size = Some (r, src', dst')
    ∧ match r with
      | Ok _ => size ≤ length bs ∧ written dst' = written dst ++ take size bs
      | Err e => (∃ b k k', write_all b k = (Err e, k'))
                 ∨ (length bs < size
                    ∧ e = eof_error "pump_n: source ended at " (length bs) size
                    ∧ written dst' = written dst ++ bs)
      end.
Proof.
  destruct (pump_loop_eof size size 0 src dst bs Hy) as (r & src' & dst' & Hrun & Hr); [lia|lia|].
  rewrite Nat.sub_0_r in Hr. by exists r, src', dst'.
Qed.

Lemma pump_n_exact_witness : ∃ r src' dst',
  pump_n rope3 {| vs_buf := [] |} 5 = Some (r, src', dst')
  ∧ (is_ok r = true → written dst' = [x01; x02; x03; x04; x05]).
Proof.
  destruct (pump_n_exact rope3 {| vs_buf := [] |} [x01; x02; x03; x04; x05; x06] 5)
    as (r & src' & dst' & Hrun & Hr).
  - split; [|reflexivity]. repeat constructor; discriminate.
  - exists r, src', dst'. split; [done|]. destruct r; [|done]. intros _. apply Hr.
Defined.

(** [read_full] fills the whole buffer unless the stream ends first: it
    copies the first [want] bytes of what the stream delivers. *)
Theorem read_full_exact {St} `{ByteStream St} (s : St) (bs : bytes) (want : nat) (Hy : yields s bs) :
  ∃ s', read_full want s = Some (Ok (take want bs), s').
Proof.
  destruct (read_full_loop_yields want want [] s bs Hy) as (s' & Hr); simpl; [lia|lia|].
  simpl in Hr. rewrite Nat.sub_0_r in Hr. by exists s'.
Qed.

Lemma read_full_exact_witness : ∃ s', read_full 4 rope3 = Some (Ok [x01; x02; x03; x04], s').
Proof.
  apply (read_full_exact rope3 [x01; x02; x03; x04; x05; x06] 4).
  split; [|reflexivity]. repeat constructor; discriminate.
Defined.
