(* ===== verification/Auth.v ===== *)
(** * Request authentication

    Signature version 4 as [openlake_server/src/auth.rs] verifies it, and the
    middleware [run_check] of [openlake_server/src/s3/middleware/sigv4.rs] that
    every request passes: the [Authorization] header, presigned URLs and the
    chunk signatures of a streamed body.

    The signing library, the date parser and the HTTP types are not part of the
    repository: signing is a parameter, so are the text of a header value and
    the parsed URI of a request.  Times are nanoseconds since the epoch. *)

From stdpp Require Import base gmap strings list pretty.
From Stdlib Require Import Strings.Ascii.
From S2P Require Import Prelude Text.

Definition ALGORITHM : string := "AWS4-HMAC-SHA256".
Definition SERVICE : string := "s3".
Definition from_secs (s : Z) : Z := (s * 1000000000)%Z.
Definition MAX_CLOCK_SKEW : Z := from_secs (15 * 60).

(** ** Errors *)

Inductive AuthError :=
  | MissingAuth
  | MalformedAuth (what : string)
  | MissingDate
  | BadDate (what : string)
  | RequestTimeSkewed
  | MissingContentSha
  | UnsupportedContentSha (v : string)
  | InvalidAccessKeyId (k : string)
  | SignatureMismatch
  | RegionMismatch (req server : string)
  | BadService (s : string)
  | MissingDecodedContentLength
  | ChunkSignatureMismatch
  | Signer (what : string)
  | BadAlgorithm (a : string)
  | MalformedPresigned (what : string)
  | BadExpires (n : Z)
  | PresignedExpired.

Definition auth_to_string (e : AuthError) : string :=
  match e with
  | MissingAuth => "missing Authorization header"
  | MalformedAuth w => "malformed Authorization header: " +:+ w
  | MissingDate => "missing x-amz-date"
  | BadDate w => "malformed x-amz-date: " +:+ w
  | RequestTimeSkewed => "request timestamp outside allowed 15-minute skew"
  | MissingContentSha => "missing x-amz-content-sha256"
  | UnsupportedContentSha v => "unsupported x-amz-content-sha256 value: " +:+ v
  | InvalidAccessKeyId k => "access key " +:+ k +:+ " is not recognized"
  | SignatureMismatch => "signature mismatch"
  | RegionMismatch r s => "scope region " +:+ debug_str r +:+ " does not match server region " +:+ debug_str s
  | BadService s => "scope service " +:+ debug_str s +:+ " is not " +:+ debug_str SERVICE
  | MissingDecodedContentLength => "missing x-amz-decoded-content-length for streaming body"
  | ChunkSignatureMismatch => "chunk signature mismatch"
  | Signer w => "internal signer error: " +:+ w
  | BadAlgorithm a => "presigned URL X-Amz-Algorithm must be AWS4-HMAC-SHA256, got " +:+ debug_str a
  | MalformedPresigned w => "malformed presigned URL: " +:+ w
  | BadExpires n => "presigned URL X-Amz-Expires " +:+ pretty n +:+ " out of range (1..=604800)"
  | PresignedExpired => "presigned URL has expired"
  end.

(** The HTTP status and the S3 error code. *)
Definition status_and_code (e : AuthError) : Z * string :=
  match e with
  | MissingAuth => (403%Z, "AccessDenied")
  | MalformedAuth _ => (400%Z, "AuthorizationHeaderMalformed")
  | MissingDate | BadDate _ => (400%Z, "AuthorizationHeaderMalformed")
  | RequestTimeSkewed => (403%Z, "RequestTimeTooSkewed")
  | MissingContentSha => (400%Z, "MissingContentSHA256")
  | UnsupportedContentSha _ => (400%Z, "InvalidRequest")
  | InvalidAccessKeyId _ => (403%Z, "InvalidAccessKeyId")
  | SignatureMismatch => (403%Z, "SignatureDoesNotMatch")
  | RegionMismatch _ _ => (400%Z, "AuthorizationHeaderMalformed")
  | BadService _ => (400%Z, "AuthorizationHeaderMalformed")
  | MissingDecodedContentLength => (400%Z, "InvalidRequest")
  | ChunkSignatureMismatch => (403%Z, "SignatureDoesNotMatch")
  | Signer _ => (500%Z, "InternalError")
  | BadAlgorithm _ => (400%Z, "InvalidRequest")
  | MalformedPresigned _ => (400%Z, "AuthorizationQueryParametersError")
  | BadExpires _ => (400%Z, "AuthorizationQueryParametersError")
  | PresignedExpired => (403%Z, "AccessDenied")
  end.

(** ** Credentials *)

Record Credential := { access_key : string; secret_key : string }.
Record AuthState := { as_region : string; as_keys : gmap string string }.
Definition AuthState_new (region : string) (creds : list Credential) : AuthState :=
  {| as_region := region; as_keys := foldl (λ keys c, <[access_key c := secret_key c]> keys) ∅ creds |}.
Definition secret_for (st : AuthState) (k : string) : option string := as_keys st !! k.

(** ** The Authorization header *)

Record ParsedAuth := {
  pa_access_key : string; pa_scope_date : string; pa_scope_region : string; pa_scope_service : string;
  pa_signed_headers : list string; pa_signature : string
}.

(** The fields seen so far: credential, signed headers, signature. *)
Definition auth_piece (acc : option string * option string * option string) (piece : string) :
    option string * option string * option string :=
  let '(credential, signed_headers, signature) := acc in
  let piece := trim piece in
  match strip_prefix "Credential=" piece with
  | Some v => (Some v, signed_headers, signature)
  | None =>
      match strip_prefix "SignedHeaders=" piece with
      | Some v => (credential, Some v, signature)
      | None =>
          match strip_prefix "Signature=" piece with
          | Some v => (credential, signed_headers, Some v)
          | None => acc
          end
      end
  end.

(** [split(';')] without the empty names, in lower case. *)
Definition header_names (s : string) : list string :=
  to_ascii_lowercase <$> filter (λ h, h ≠ "") (split_char ";" s).

(** The five parts of a credential scope, of which the last is fixed. *)
Definition scope_parts (credential : string) : option (string * string * string * string) :=
  match split_char "/" credential with
  | [k; date; region; service; last] => if decide (last = "aws4_request") then Some (k, date, region, service) else None
  | _ => None
  end.

Definition parse_authorization (value : string) : result AuthError ParsedAuth :=
  rest ← ok_or (strip_prefix ALGORITHM value) (MalformedAuth "expected AWS4-HMAC-SHA256 algorithm");
  let '(credential, signed_headers, signature) :=
    foldl auth_piece (None, None, None) (split_char "," (trim_start rest)) in
  credential ← ok_or credential (MalformedAuth "Credential field missing");
  signed_headers ← ok_or signed_headers (MalformedAuth "SignedHeaders field missing");
  signature ← ok_or signature (MalformedAuth "Signature field missing");
  match scope_parts credential with
  | Some (k, date, region, service) =>
      let headers := header_names signed_headers in
      if decide (headers = []) then Err (MalformedAuth "SignedHeaders must list >=1 header")
      else Ok {| pa_access_key := k; pa_scope_date := date; pa_scope_region := region; pa_scope_service := service;
                 pa_signed_headers := headers; pa_signature := signature |}
  | None => Err (MalformedAuth "Credential scope has wrong shape")
  end.

(** ** Requests *)

(** [get] of a header map gives the first value of a name; the target of the
    request is split by the HTTP library. *)
Record Request := {
  rq_method : string; rq_path : string; rq_query : option string; rq_path_and_query : option string;
  rq_header : string → option bytes
}.

Inductive SignableBody := UnsignedPayload | Precomputed (hash : string).

Inductive PercentEncodingMode := PeSingle | PeDouble.
Inductive PayloadChecksumKind := PcNone | PcXAmzSha256.
Inductive UriPathNormalizationMode := UpDisabled | UpEnabled.
Inductive SessionTokenMode := StInclude | StExclude.
Inductive SignatureLocation := SlHeaders | SlQueryParams.
Record SigningSettings := {
  percent_encoding_mode : PercentEncodingMode; payload_checksum_kind : PayloadChecksumKind;
  uri_path_normalization_mode : UriPathNormalizationMode; session_token_mode : SessionTokenMode;
  excluded_headers : option (list string); signature_location : SignatureLocation; expires_in : option Z
}.
(** The two fields that are not set keep the library's defaults. *)
Definition s3_signing_settings : SigningSettings :=
  {| percent_encoding_mode := PeSingle; payload_checksum_kind := PcXAmzSha256;
     uri_path_normalization_mode := UpDisabled; session_token_mode := StInclude;
     excluded_headers := Some []; signature_location := SlHeaders; expires_in := None |}.

Record PresignedQuery := {
  pq_access_key : string; pq_scope_date : string; pq_scope_region : string; pq_scope_service : string;
  pq_signed_headers : list string; pq_signature : string; pq_request_time : Z; pq_expires : Z
}.

(** The key of a [key=value] pair of a query. *)
Definition pair_key (pair : string) : string :=
  match split_once "=" pair with Some (k, _) => k | None => pair end.

Definition has_presigned_query_params (req : Request) : bool :=
  match rq_query req with
  | None => false
  | Some q => existsb (λ pair, eq_ignore_ascii_case (pair_key pair) "X-Amz-Algorithm") (split_char "&" q)
  end.

Definition strip_amz_query_params (req : Request) : string :=
  match rq_query req with
  | None => rq_path req
  | Some q =>
      let kept := filter (λ pair, String.prefix "X-Amz-" (pair_key pair) = false
                                  ∧ String.prefix "x-amz-" (pair_key pair) = false) (split_char "&" q) in
      if decide (kept = []) then rq_path req else rq_path req +:+ "?" +:+ join "&" kept
  end.

(** The values of the parameters of a presigned URL, by name. *)
Definition presigned_pair (acc : gmap string string) (pair : string) : gmap string string :=
  match split_once "=" pair with
  | None => acc
  | Some (k, v) =>
      if decide (k ∈ ["X-Amz-Algorithm"; "X-Amz-Credential"; "X-Amz-Date"; "X-Amz-Expires";
                      "X-Amz-SignedHeaders"; "X-Amz-Signature"])
      then <[k := percent_decode v]> acc else acc
  end.

Section auth.
(** [HeaderValue::to_str]; [PrimitiveDateTime::parse] with the format of
    [x-amz-date], as a number of seconds. *)
Context (to_str : bytes → option string) (parse_datetime : string → result string Z).
(** The signing library: parameters of a signature, the request to sign, the
    signature in hexadecimal; and the same for a chunk. *)
Context {SigningParams SignableRequest ChunkParams : Type}.
Context (build_params : string → string → string → string → Z → SigningSettings → result string SigningParams).
Context (signable_request : string → string → list (string * string) → SignableBody → result string SignableRequest).
Context (sign : SignableRequest → SigningParams → result string string).
Context (build_chunk_params : string → string → string → string → Z → result string ChunkParams).
Context (sign_chunk : bytes → string → ChunkParams → result string string).

Definition parse_amz_date (s : string) : result AuthError Z :=
  unix ← map_err (λ e, BadDate (debug_str s +:+ ": " +:+ e)) (parse_datetime s);
  if (unix <? 0)%Z then Err (BadDate (debug_str s +:+ ": pre-epoch")) else Ok (from_secs unix).

Definition check_skew (now request_time : Z) : result AuthError unit :=
  if (MAX_CLOCK_SKEW <? Z.abs (now - request_time))%Z then Err RequestTimeSkewed else Ok ().

Definition parse_presigned_query (req : Request) : result AuthError PresignedQuery :=
  raw_query ← ok_or (rq_query req) (MalformedPresigned "missing query string");
  let fields := foldl presigned_pair ∅ (split_char "&" raw_query) in
  algorithm ← ok_or (fields !! "X-Amz-Algorithm") (MalformedPresigned "X-Amz-Algorithm missing");
  credential ← ok_or (fields !! "X-Amz-Credential") (MalformedPresigned "X-Amz-Credential missing");
  date ← ok_or (fields !! "X-Amz-Date") (MalformedPresigned "X-Amz-Date missing");
  expires_raw ← ok_or (fields !! "X-Amz-Expires") (MalformedPresigned "X-Amz-Expires missing");
  signed_hdrs ← ok_or (fields !! "X-Amz-SignedHeaders") (MalformedPresigned "X-Amz-SignedHeaders missing");
  signature ← ok_or (fields !! "X-Amz-Signature") (MalformedPresigned "X-Amz-Signature missing");
  if negb (bool_decide (algorithm = ALGORITHM)) then Err (BadAlgorithm algorithm)
  else
    expires ← ok_or (parse_u64 expires_raw) (MalformedPresigned "X-Amz-Expires not an integer");
    if (expires =? 0)%Z || (604800 <? expires)%Z then Err (BadExpires expires)
    else
      match scope_parts credential with
      | Some (k, sdate, region, service) =>
          let headers := header_names signed_hdrs in
          if decide (headers = []) then Err (MalformedPresigned "X-Amz-SignedHeaders must list >=1 header")
          else
            request_time ← parse_amz_date date;
            Ok {| pq_access_key := k; pq_scope_date := sdate; pq_scope_region := region; pq_scope_service := service;
                  pq_signed_headers := headers; pq_signature := signature; pq_request_time := request_time;
                  pq_expires := expires |}
      | None => Err (MalformedPresigned "X-Amz-Credential scope has wrong shape")
      end.

(** The signed headers that are present as text. *)
Definition signed_values (req : Request) (names : list string) : list (string * string) :=
  omap (λ n, v ← rq_header req n; s ← to_str v; Some (n, s)) names.

(** The signature of a request with the given parameters. *)
Definition signature_of (method uri : string) (hs : list (string * string)) (body : SignableBody)
    (key secret region : string) (time : Z) (settings : SigningSettings) : result AuthError string :=
  params ← map_err (λ e, Signer ("build signing params: " +:+ e)) (build_params key secret region SERVICE time settings);
  signable ← map_err (λ e, Signer ("build signable request: " +:+ e)) (signable_request method uri hs body);
  map_err (λ e, Signer ("sign: " +:+ e)) (sign signable params).

Definition compare_signature (computed given : string) : result AuthError unit :=
  if constant_time_eq (str_bytes computed) (str_bytes given) then Ok () else Err SignatureMismatch.

Definition presigned_settings (expires : Z) : SigningSettings :=
  {| percent_encoding_mode := percent_encoding_mode s3_signing_settings;
     payload_checksum_kind := payload_checksum_kind s3_signing_settings;
     uri_path_normalization_mode := uri_path_normalization_mode s3_signing_settings;
     session_token_mode := session_token_mode s3_signing_settings;
     excluded_headers := excluded_headers s3_signing_settings;
     signature_location := SlQueryParams; expires_in := Some (from_secs expires) |}.

Definition verify_presigned (now : Z) (req : Request) (parsed : PresignedQuery) (secret server_region : string) :
    result AuthError unit :=
  if negb (bool_decide (pq_scope_region parsed = server_region)) then
    Err (RegionMismatch (pq_scope_region parsed) server_region)
  else if negb (bool_decide (pq_scope_service parsed = SERVICE)) then Err (BadService (pq_scope_service parsed))
  else if negb (String.length (pq_scope_date parsed) =? 8) then
    Err (MalformedPresigned "X-Amz-Credential date must be YYYYMMDD")
  else if (now <=? pq_request_time parsed)%Z && (MAX_CLOCK_SKEW <? pq_request_time parsed - now)%Z then
    Err RequestTimeSkewed
  else if (pq_request_time parsed + from_secs (pq_expires parsed) <? now)%Z then Err PresignedExpired
  else
    computed ← signature_of (rq_method req) (strip_amz_query_params req)
                 (signed_values req (pq_signed_headers parsed)) UnsignedPayload
                 (pq_access_key parsed) secret server_region (pq_request_time parsed)
                 (presigned_settings (pq_expires parsed));
    compare_signature computed (pq_signature parsed).

Definition verify_seed (req : Request) (path_and_query : string) (parsed : ParsedAuth) (secret server_region : string)
    (request_time : Z) (body : SignableBody) : result AuthError unit :=
  if negb (bool_decide (pa_scope_region parsed = server_region)) then
    Err (RegionMismatch (pa_scope_region parsed) server_region)
  else if negb (bool_decide (pa_scope_service parsed = SERVICE)) then Err (BadService (pa_scope_service parsed))
  else
    computed ← signature_of (rq_method req) path_and_query (signed_values req (pa_signed_headers parsed)) body
                 (pa_access_key parsed) secret server_region request_time s3_signing_settings;
    compare_signature computed (pa_signature parsed).

Definition verify_chunk (chunk : bytes) (prev_signature given_signature key secret region : string) (request_time : Z) :
    result AuthError string :=
  params ← map_err (λ e, Signer ("build streaming params: " +:+ e)) (build_chunk_params key secret region SERVICE request_time);
  computed ← map_err (λ e, Signer ("sign_chunk: " +:+ e)) (sign_chunk chunk prev_signature params);
  if constant_time_eq (str_bytes computed) (str_bytes given_signature) then Ok computed else Err ChunkSignatureMismatch.

(** ** The middleware *)

Definition SHA_UNSIGNED : string := "UNSIGNED-PAYLOAD".
Definition SHA_STREAMING : string := "STREAMING-AWS4-HMAC-SHA256-PAYLOAD".
Definition SHA_STREAMING_TRAILER : string := "STREAMING-AWS4-HMAC-SHA256-PAYLOAD-TRAILER".
Definition SHA_STREAMING_UNSIGNED_TRAILER : string := "STREAMING-UNSIGNED-PAYLOAD-TRAILER".

Definition is_hex_sha256 (s : string) : bool := (String.length s =? 64) && all_chars is_ascii_hexdigit s.

Definition signable_body_from_headers (req : Request) : result AuthError SignableBody :=
  match rq_header req "x-amz-content-sha256" with
  | None => Ok UnsignedPayload
  | Some h =>
      raw ← ok_or (to_str h) (UnsupportedContentSha "non-ASCII");
      if decide (raw = SHA_UNSIGNED) then Ok UnsignedPayload
      else if decide (raw ∈ [SHA_STREAMING; SHA_STREAMING_TRAILER; SHA_STREAMING_UNSIGNED_TRAILER]) then Ok (Precomputed raw)
      else if is_hex_sha256 raw then Ok (Precomputed raw)
      else Err (UnsupportedContentSha raw)
  end.

Definition path_and_query (req : Request) : string := default (rq_path req) (rq_path_and_query req).

Definition run_check (st : AuthState) (now : Z) (req : Request) : result AuthError unit :=
  let auth_hdr := rq_header req "authorization" in
  if bool_decide (auth_hdr = None) && has_presigned_query_params req then
    parsed ← parse_presigned_query req;
    secret ← ok_or (secret_for st (pq_access_key parsed)) (InvalidAccessKeyId (pq_access_key parsed));
    verify_presigned now req parsed secret (as_region st)
  else
    hv ← ok_or auth_hdr MissingAuth;
    auth_value ← ok_or (to_str hv) (MalformedAuth "Authorization not ASCII");
    parsed ← parse_authorization auth_value;
    dv ← ok_or (rq_header req "x-amz-date") MissingDate;
    amz_date ← ok_or (to_str dv) (BadDate "non-ASCII");
    request_time ← parse_amz_date amz_date;
    _ ← check_skew now request_time;
    if (String.length amz_date <? 8) || negb (bool_decide (pa_scope_date parsed = String.substring 0 8 amz_date)) then
      Err (MalformedAuth "scope date does not match x-amz-date")
    else
      secret ← ok_or (secret_for st (pa_access_key parsed)) (InvalidAccessKeyId (pa_access_key parsed));
      body ← signable_body_from_headers req;
      verify_seed req (path_and_query req) parsed secret (as_region st) request_time body.
End auth.

(** ** Properties *)

Section sound.
Context (to_str : bytes → option string) (parse_datetime : string → result string Z).
Context {SigningParams SignableRequest : Type}.
Context (build_params : string → string → string → string → Z → SigningSettings → result string SigningParams).
Context (signable_request : string → string → list (string * string) → SignableBody → result string SignableRequest).
Context (sign : SignableRequest → SigningParams → result string string).

Abbreviation signs := (signature_of build_params signable_request sign).

(** A request that carries the signature of one of the server's secrets over
    itself, within the time allowed. *)
Definition authentic_presigned (st : AuthState) (now : Z) (req : Request) : Prop :=
  rq_header req "authorization" = None ∧ has_presigned_query_params req = true
  ∧ ∃ p secret, parse_presigned_query parse_datetime req = Ok p
      ∧ secret_for st (pq_access_key p) = Some secret
      ∧ pq_scope_region p = as_region st ∧ pq_scope_service p = SERVICE ∧ String.length (pq_scope_date p) = 8
      ∧ (1 ≤ pq_expires p ≤ 604800)%Z
      ∧ (pq_request_time p - MAX_CLOCK_SKEW ≤ now ≤ pq_request_time p + from_secs (pq_expires p))%Z
      ∧ signs (rq_method req) (strip_amz_query_params req) (signed_values to_str req (pq_signed_headers p)) UnsignedPayload
          (pq_access_key p) secret (as_region st) (pq_request_time p) (presigned_settings (pq_expires p))
        = Ok (pq_signature p).
Definition authentic_header (st : AuthState) (now : Z) (req : Request) : Prop :=
  ∃ hv value p dv date time secret body,
    rq_header req "authorization" = Some hv ∧ to_str hv = Some value ∧ parse_authorization value = Ok p
    ∧ rq_header req "x-amz-date" = Some dv ∧ to_str dv = Some date ∧ parse_amz_date parse_datetime date = Ok time
    ∧ (time - MAX_CLOCK_SKEW ≤ now ≤ time + MAX_CLOCK_SKEW)%Z
    ∧ 8 ≤ String.length date ∧ pa_scope_date p = String.substring 0 8 date
    ∧ secret_for st (pa_access_key p) = Some secret
    ∧ pa_scope_region p = as_region st ∧ pa_scope_service p = SERVICE
    ∧ signable_body_from_headers to_str req = Ok body
    ∧ signs (rq_method req) (path_and_query req) (signed_values to_str req (pa_signed_headers p)) body
        (pa_access_key p) secret (as_region st) time s3_signing_settings = Ok (pa_signature p).

Lemma compare_signature_ok c g : compare_signature c g = Ok () ↔ c = g.
Proof.
  unfold compare_signature. destruct (constant_time_eq (str_bytes c) (str_bytes g)) eqn:E.
  - apply constant_time_eq_spec, (f_equal of_bytes) in E. rewrite !of_bytes_str in E. by subst.
  - split; [done|]. intros ->. by rewrite (proj2 (constant_time_eq_spec _ _)) in E.
Qed.

Lemma if_err {E A} (b : bool) (e : E) (r : result E A) a : (if b then Err e else r) = Ok a ↔ b = false ∧ r = Ok a.
Proof. destruct b; split; try done; by intros []. Qed.

Lemma verify_presigned_ok now req p secret region :
  verify_presigned to_str build_params signable_request sign now req p secret region = Ok () ↔
    pq_scope_region p = region ∧ pq_scope_service p = SERVICE ∧ String.length (pq_scope_date p) = 8
    ∧ (pq_request_time p - MAX_CLOCK_SKEW ≤ now ≤ pq_request_time p + from_secs (pq_expires p))%Z
    ∧ signs (rq_method req) (strip_amz_query_params req) (signed_values to_str req (pq_signed_headers p)) UnsignedPayload
        (pq_access_key p) secret region (pq_request_time p) (presigned_settings (pq_expires p)) = Ok (pq_signature p).
Proof.
  unfold verify_presigned. rewrite !if_err, !negb_false_iff, !bool_decide_eq_true, Nat.eqb_eq, andb_false_iff, Z.leb_gt, !Z.ltb_ge, bind_ok.
  setoid_rewrite compare_signature_ok. assert (0 < MAX_CLOCK_SKEW)%Z by done. split.
  - intros (? & ? & ? & Hs & ? & sg & ? & ->). split_and!; try done; lia.
  - intros (? & ? & ? & [] & ?). split_and!; try done; [lia|]. by eexists.
Qed.

Lemma verify_seed_ok req pq p secret region time body :
  verify_seed to_str build_params signable_request sign req pq p secret region time body = Ok () ↔
    pa_scope_region p = region ∧ pa_scope_service p = SERVICE
    ∧ signs (rq_method req) pq (signed_values to_str req (pa_signed_headers p)) body
        (pa_access_key p) secret region time s3_signing_settings = Ok (pa_signature p).
Proof.
  unfold verify_seed. rewrite !if_err, !negb_false_iff, !bool_decide_eq_true, bind_ok.
  setoid_rewrite compare_signature_ok. split; [intros (? & ? & ? & ? & ->); done|intros (? & ? & ?); eauto].
Qed.

Lemma parse_presigned_expires req p : parse_presigned_query parse_datetime req = Ok p → (1 ≤ pq_expires p ≤ 604800)%Z.
Proof.
  unfold parse_presigned_query. intros (q & _ & H)%bind_ok. do 6 (apply bind_ok in H as (? & _ & H)).
  apply if_err in H as [_ H]. apply bind_ok in H as (n & Hn%ok_or_ok%from_str_radix_range & H).
  apply if_err in H as [Hr H]. apply orb_false_iff in Hr as [H0%Z.eqb_neq H1%Z.ltb_ge].
  destruct (scope_parts _) as [[[[k d] r] s]|]; [|done]. case_decide; [done|]. apply bind_ok in H as (time & _ & [= <-]). cbn. lia.
Qed.

(** C9.  The middleware lets a request through exactly when it is authentic: it
    carries, in its header or in its query, the signature that one of the
    server's own secrets gives to this request, for the server's region and
    service; a header signature is at most fifteen minutes away from the
    server's clock and for the day of its date; a presigned one has not expired,
    and is valid for a week at most. *)
Theorem run_check_authentic (st : AuthState) (now : Z) (req : Request) :
  run_check to_str parse_datetime build_params signable_request sign st now req = Ok () ↔
    authentic_presigned st now req ∨ authentic_header st now req.
Proof.
  unfold run_check. destruct (bool_decide (rq_header req "authorization" = None) && has_presigned_query_params req) eqn:Em.
  - apply andb_prop in Em as [Hn%bool_decide_eq_true Hp]. split.
    + intros (p & Hparse & H)%bind_ok. apply bind_ok in H as (secret & Hs%ok_or_ok & H). left.
      apply verify_presigned_ok in H. split_and!; try done. exists p, secret.
      pose proof (parse_presigned_expires _ _ Hparse). naive_solver.
    + intros [(_ & _ & p & secret & Hparse & Hs & Hv)|(hv & ? & ? & ? & ? & ? & ? & ? & H & _)]; [|congruence].
      rewrite Hparse. cbn [mbind result_bind]. rewrite Hs. cbn [ok_or mbind result_bind].
      apply verify_presigned_ok. naive_solver.
  - split.
    + intros (hv & Hhv%ok_or_ok & H)%bind_ok. apply bind_ok in H as (value & Hval%ok_or_ok & H).
      apply bind_ok in H as (p & Hp & H). apply bind_ok in H as (dv & Hdv%ok_or_ok & H).
      apply bind_ok in H as (date & Hdate%ok_or_ok & H). apply bind_ok in H as (time & Htime & H).
      apply bind_ok in H as (u & Hskew & H). unfold check_skew in Hskew. apply if_err in Hskew as [Hsk%Z.ltb_ge _].
      apply if_err in H as [[Hlen%Nat.ltb_ge Hd%negb_false_iff%bool_decide_eq_true]%orb_false_iff H].
      apply bind_ok in H as (secret & Hs%ok_or_ok & H). apply bind_ok in H as (body & Hb & H).
      apply verify_seed_ok in H as (Hr & Hsv & Hsg). right.
      exists hv, value, p, dv, date, time, secret, body. split_and!; try done; lia.
    + intros [(H1 & H2 & _)|(hv & value & p & dv & date & time & secret & body & Hhv & Hval & Hp & Hdv & Hdate & Htime & Hsk & Hlen & Hd & Hs & Hr & Hsv & Hb & Hsg)].
      { by rewrite H1, H2 in Em. }
      rewrite Hhv. cbn [ok_or mbind result_bind]. rewrite Hval. cbn [ok_or mbind result_bind]. rewrite Hp. cbn [mbind result_bind].
      rewrite Hdv. cbn [ok_or mbind result_bind]. rewrite Hdate. cbn [ok_or mbind result_bind]. rewrite Htime. cbn [mbind result_bind].
      unfold check_skew. rewrite (proj2 (Z.ltb_ge _ _)) by lia. cbn [mbind result_bind].
      rewrite (proj2 (Nat.ltb_ge _ _)), bool_decide_true by done. cbn [orb negb]. rewrite Hs. cbn [ok_or mbind result_bind].
      rewrite Hb. cbn [mbind result_bind]. by apply verify_seed_ok.
Qed.
End sound.

(** A signer for the examples: the signature is the secret and the target. *)
Definition echo_params (_ secret _ _ : string) (_ : Z) (_ : SigningSettings) : result string string := Ok secret.
Definition echo_signable (_ uri : string) (_ : list (string * string)) (_ : SignableBody) : result string string := Ok uri.
Definition echo_sign (uri secret : string) : result string string := Ok (secret +:+ uri).
Definition sample_request (uri : string) : Request := {|
  rq_method := "GET"; rq_path := uri; rq_query := None; rq_path_and_query := Some uri;
  rq_header n := if decide (n = "authorization") then
      Some (str_bytes "AWS4-HMAC-SHA256 Credential=AK/20260101/eu/s3/aws4_request, SignedHeaders=host, Signature=pw/b/k")
    else if decide (n = "x-amz-date") then Some (str_bytes "20260101T000000Z") else None |}.
Example run_check_sample :
  let run now uri := run_check (λ b, Some (of_bytes b)) (λ _, Ok 1000%Z) echo_params echo_signable echo_sign
    (AuthState_new "eu" [{| access_key := "AK"; secret_key := "pw" |}]) now (sample_request uri) in
  run (from_secs 1900) "/b/k" = Ok () ∧ run (from_secs 1901) "/b/k" = Err RequestTimeSkewed
  ∧ run (from_secs 1000) "/b/other" = Err SignatureMismatch.
Proof. vm_compute. done. Qed.
