(* ===== verification/Body.v ===== *)
(** * Request bodies

    [openlake_server/src/s3/body_source.rs] and the [Sha256VerifyStream] of
    [auth.rs]: the frames of an HTTP body as a [ByteStream], the decoder of
    [aws-chunked] bodies with its chain of signatures, and the stream that
    compares the digest of a body with the one its request declares.  SHA-256 and
    the chunk signatures are parameters. *)

From stdpp Require Import base gmap strings list pretty.
From Stdlib Require Import Strings.Ascii.
From S2P Require Import Prelude Text Types Streams Auth.

(** ** Frames of a body *)

(** What [Body::frame] yields: data, trailers, or an error with its text. *)
Inductive Frame := DataFrame (b : bytes) | TrailersFrame | ErrorFrame (msg : string).

Record AxumBodyStream := { ax_body : list Frame; ax_leftover : bytes; ax_eof : bool }.
Definition AxumBodyStream_new (body : list Frame) : AxumBodyStream :=
  {| ax_body := body; ax_leftover := []; ax_eof := false |}.

(** The loop over frames; an error is reported and the next read goes on. *)
Fixpoint axum_frames (body : list Frame) : IoResult bytes * AxumBodyStream :=
  match body with
  | [] => (Ok [], {| ax_body := []; ax_leftover := []; ax_eof := true |})
  | DataFrame [] :: body => axum_frames body
  | DataFrame b :: body => (Ok b, {| ax_body := body; ax_leftover := []; ax_eof := false |})
  | TrailersFrame :: body => axum_frames body
  | ErrorFrame msg :: body =>
      (Err (Io (io_error_other msg)), {| ax_body := body; ax_leftover := []; ax_eof := false |})
  end.
Definition axum_read (s : AxumBodyStream) : IoResult bytes * AxumBodyStream :=
  match ax_leftover s with
  | [] => if ax_eof s then (Ok [], s) else axum_frames (ax_body s)
  | b => (Ok b, {| ax_body := ax_body s; ax_leftover := []; ax_eof := ax_eof s |})
  end.

(** The bytes of the data frames, and whether there is an error among them. *)
Definition frame_bytes (f : Frame) : bytes := match f with DataFrame b => b | _ => [] end.
Definition frame_ok (f : Frame) : bool := match f with ErrorFrame _ => false | _ => true end.
Definition axum_rest (s : AxumBodyStream) : bytes :=
  ax_leftover s ++ if ax_eof s then [] else concat (frame_bytes <$> ax_body s).

Lemma axum_frames_spec body :
  match (axum_frames body).1 with
  | Ok [] => Forall (λ f, frame_bytes f = [] ∧ frame_ok f = true) body ∧ axum_rest (axum_frames body).2 = []
  | Ok chunk => concat (frame_bytes <$> body) = chunk ++ axum_rest (axum_frames body).2
      ∧ (forallb frame_ok body = true → forallb frame_ok (ax_body (axum_frames body).2) = true)
  | Err _ => forallb frame_ok body = false
  end.
Proof.
  induction body as [|[[|b0 b]| |msg] body IH]; simpl; [done| | | |done].
  - destruct (axum_frames body) as [[[|c chunk]|e] s']; simpl in *; [|done..].
    destruct IH. split; [by constructor|done].
  - done.
  - destruct (axum_frames body) as [[[|c chunk]|e] s']; simpl in *; [|done..].
    destruct IH. split; [by constructor|done].
Qed.

#[global] Program Instance AxumBodyStream_stream : ByteStream AxumBodyStream := {|
  read s := Some (axum_read s);
  yields s bs := bs = axum_rest s ∧ (ax_eof s = true ∨ forallb frame_ok (ax_body s) = true);
  serves s bs := axum_rest s `prefix_of` bs
|}.
Next Obligation.
  intros [body left eof] bs [-> Hok]. unfold axum_read, axum_rest in *; simpl in *. destruct left as [|b0 left]; simpl.
  - destruct eof; [by eexists [], [], _|]. destruct Hok as [?|Hok]; [done|].
    pose proof (axum_frames_spec body) as Hs. destruct (axum_frames body) as [[[|c chunk]|e] s'] eqn:E; simpl in Hs.
    + destruct Hs as [Hf Hr]. exists [], [], s'. split; [done|]. split; [|split; [|done]].
      * clear -Hf. induction Hf as [|f fs [Hf _] _ IH]; [done|]. rewrite fmap_cons. cbn [concat]. by rewrite Hf.
      * split; [exact (eq_sym Hr)|]. left. clear -E Hf. revert s' E.
        induction Hf as [|[[]| |] fs [? ?] _ IH]; intros s' E; simpl in *; try done; [by injection E as <-|by apply IH..].
    + destruct Hs as [Hr Hk]. exists (c :: chunk), (axum_rest s'), s'. split; [done|]. split; [done|]. split; [|done]. split; [done|]. right. by apply Hk.
    + congruence.
  - eexists (b0 :: left), _, _. split; [done|]. split; [done|]. split; [|done]. by split.
Qed.
Next Obligation.
  intros [body left eof] bs [rest ->]. unfold axum_read, axum_rest in *; simpl in *. destruct left as [|b0 left]; simpl.
  - destruct eof; [eexists _, _; split; [done|]; by intros ? [= <-]|].
    pose proof (axum_frames_spec body) as Hs. destruct (axum_frames body) as [[[|c chunk]|e] s'] eqn:E; simpl in Hs.
    + eexists _, _. split; [done|]. by intros ? [= <-].
    + destruct Hs as [Hr _]. eexists _, _. split; [done|]. intros ? [= <-] _. exists (axum_rest s' ++ rest).
      rewrite Hr. split; [cbn [app]; by rewrite <-app_assoc|]. by apply prefix_app_r.
    + eexists _, _. by split.
  - eexists _, _. split; [done|]. intros ? [= <-] _. eexists. split; [cbn [app]; by rewrite <-app_assoc|]. by apply prefix_app_r.
Qed.

Lemma axum_read_rest s :
  match axum_read s with
  | (Ok chunk, s') => axum_rest s = chunk ++ axum_rest s'
  | (Err _, s') => axum_rest s = axum_rest s'
  end.
Proof.
  unfold axum_read, axum_rest at 1 3. destruct (ax_leftover s) as [|b l] eqn:Hl; [|by destruct s].
  destruct (ax_eof s) eqn:He; [unfold axum_rest; by rewrite Hl, He|]. cbn [app].
  induction (ax_body s) as [|[[|b0 b]| |msg] body IH]; cbn; try done; by destruct (axum_frames body) as [[|] s'].
Qed.

(** ** The aws-chunked decoder *)

Section chunked.
Context {ChunkParams : Type}.
Context (build_chunk_params : string → string → string → string → Z → result string ChunkParams).
Context (sign_chunk : bytes → string → ChunkParams → result string string).

Record ChunkedBodyStream := {
  cb_inner : AxumBodyStream; cb_carry : bytes; cb_chunk_buf : bytes; cb_chunk_pos : nat;
  cb_running_sig : string; cb_access_key : string; cb_secret : string; cb_region : string;
  cb_request_time : Z; cb_finished : bool
}.
Definition ChunkedBodyStream_new (body : list Frame) (seed key secret region : string) (time : Z) : ChunkedBodyStream :=
  {| cb_inner := AxumBodyStream_new body; cb_carry := []; cb_chunk_buf := []; cb_chunk_pos := 0;
     cb_running_sig := seed; cb_access_key := key; cb_secret := secret; cb_region := region;
     cb_request_time := time; cb_finished := false |}.

Definition with_input (inner : AxumBodyStream) (carry : bytes) (c : ChunkedBodyStream) : ChunkedBodyStream :=
  {| cb_inner := inner; cb_carry := carry; cb_chunk_buf := cb_chunk_buf c; cb_chunk_pos := cb_chunk_pos c;
     cb_running_sig := cb_running_sig c; cb_access_key := cb_access_key c; cb_secret := cb_secret c;
     cb_region := cb_region c; cb_request_time := cb_request_time c; cb_finished := cb_finished c |}.
(** The payload of a verified chunk becomes the current one. *)
Definition with_chunk (payload : bytes) (sig : string) (c : ChunkedBodyStream) : ChunkedBodyStream :=
  {| cb_inner := cb_inner c; cb_carry := cb_carry c; cb_chunk_buf := payload; cb_chunk_pos := 0;
     cb_running_sig := sig; cb_access_key := cb_access_key c; cb_secret := cb_secret c;
     cb_region := cb_region c; cb_request_time := cb_request_time c; cb_finished := cb_finished c |}.
Definition with_pos (pos : nat) (finished : bool) (c : ChunkedBodyStream) : ChunkedBodyStream :=
  {| cb_inner := cb_inner c; cb_carry := cb_carry c; cb_chunk_buf := cb_chunk_buf c; cb_chunk_pos := pos;
     cb_running_sig := cb_running_sig c; cb_access_key := cb_access_key c; cb_secret := cb_secret c;
     cb_region := cb_region c; cb_request_time := cb_request_time c; cb_finished := finished |}.

Definition ended (what : string) : IoError := Io {| io_kind := KindUnexpectedEof; io_msg := what |}.

(** The loops take one data frame per pass, so the number of frames is fuel
    enough; a missing pass is [None]. *)
Definition passes (c : ChunkedBodyStream) : nat := 2 + length (ax_body (cb_inner c)).

Fixpoint ensure_in_carry (fuel : nat) (need : Z) (c : ChunkedBodyStream) : option (IoResult unit * ChunkedBodyStream) :=
  if (Z.of_nat (length (cb_carry c)) <? need)%Z then
    match fuel with
    | 0 => None
    | S fuel =>
        let '(r, inner) := axum_read (cb_inner c) in
        match r with
        | Err e => Some (Err e, with_input inner (cb_carry c) c)
        | Ok [] => Some (Err (ended "aws-chunked: body ended mid-chunk"), with_input inner (cb_carry c) c)
        | Ok chunk => ensure_in_carry fuel need (with_input inner (cb_carry c ++ chunk) c)
        end
    end
  else Some (Ok (), c).

(** The size and the signature of a chunk header. *)
Definition parse_chunk_header (line : string) : IoResult (Z * string) :=
  size_sig ← ok_or (split_once ";" line) (Decode "aws-chunked: header missing ';'");
  size ← ok_or (from_str_radix 16 (trim size_sig.1)) (Decode "aws-chunked: bad chunk size");
  sig ← ok_or (strip_prefix "chunk-signature=" size_sig.2) (Decode "aws-chunked: missing chunk-signature");
  Ok (size, trim sig).

(** After the header: the payload with its line end.  [size + 2] is computed in
    [usize] and wraps; slicing past the end of the carry panics, and
    so does every size for which the sum wraps. *)
Definition chunk_payload (size : Z) (sig : string) (c : ChunkedBodyStream) : option (IoResult bool * ChunkedBodyStream) :=
  '(r, c) ← ensure_in_carry (passes c) ((size + 2) `mod` u64_mod)%Z c;
  match r with
  | Err e => Some (Err e, c)
  | Ok _ =>
      if (Z.of_nat (length (cb_carry c)) <? size)%Z || (u64_mod <=? size + 2)%Z then None
      else
        let n := Z.to_nat size in
        let payload := take n (cb_carry c) in
        match verify_chunk build_chunk_params sign_chunk payload (cb_running_sig c) sig (cb_access_key c) (cb_secret c)
                (cb_region c) (cb_request_time c) with
        | Err e => Some (Err (Decode ("aws-chunked: " +:+ auth_to_string e)), c)
        | Ok new_running =>
            if negb (bool_decide (take 2 (drop n (cb_carry c)) = [x0d; x0a])) then
              Some (Err (Decode "aws-chunked: chunk not CRLF-terminated"), c)
            else Some (Ok (negb (size =? 0)%Z),
                   with_chunk payload new_running (with_input (cb_inner c) (drop (n + 2) (cb_carry c)) c))
        end
  end.

Fixpoint fetch_chunk (fuel : nat) (c : ChunkedBodyStream) : option (IoResult bool * ChunkedBodyStream) :=
  match fuel with
  | 0 => None
  | S fuel =>
      match find_crlf (cb_carry c) with
      | Some p =>
          match from_utf8 (take p (cb_carry c)) with
          | None => Some (Err (Decode "aws-chunked: header not utf-8"), c)
          | Some line =>
              let c := with_input (cb_inner c) (drop (p + 2) (cb_carry c)) c in
              match parse_chunk_header line with
              | Err e => Some (Err e, c)
              | Ok (size, sig) => chunk_payload size sig c
              end
          end
      | None =>
          let '(r, inner) := axum_read (cb_inner c) in
          match r with
          | Err e => Some (Err e, with_input inner (cb_carry c) c)
          | Ok [] => Some (Err (ended "aws-chunked: body ended before chunk header"), with_input inner (cb_carry c) c)
          | Ok chunk => fetch_chunk fuel (with_input inner (cb_carry c ++ chunk) c)
          end
      end
  end.

(** The rest of the current chunk, which is handed out whole. *)
Definition serve_chunk (c : ChunkedBodyStream) : IoResult bytes * ChunkedBodyStream :=
  (Ok (drop (cb_chunk_pos c) (cb_chunk_buf c)), with_pos (length (cb_chunk_buf c)) (cb_finished c) c).
Definition chunked_read (c : ChunkedBodyStream) : option (IoResult bytes * ChunkedBodyStream) :=
  if cb_finished c then Some (Ok [], c)
  else if length (cb_chunk_buf c) <=? cb_chunk_pos c then
    '(r, c) ← fetch_chunk (passes c) c;
    match r with
    | Err e => Some (Err e, c)
    | Ok false => Some (Ok [], with_pos (cb_chunk_pos c) true c)
    | Ok true => Some (serve_chunk c)
    end
  else Some (serve_chunk c).
End chunked.

(** ** Lemmas: reading frames *)

(** What is left to read, in passes. *)
Definition pending (s : AxumBodyStream) : nat :=
  length (ax_body s) + match ax_leftover s with [] => 0 | _ => 1 end.

Lemma axum_frames_pending body :
  match axum_frames body with
  | (Ok (_ :: _), s') => pending s' < length body
  | _ => True
  end.
Proof.
  induction body as [|[[|b0 b]| |msg] body IH]; simpl; try done.
  - destruct (axum_frames body) as [[[|c chunk]|e] s']; try done. lia.
  - unfold pending. simpl. lia.
  - destruct (axum_frames body) as [[[|c chunk]|e] s']; try done. lia.
Qed.

(** A read of a stream with bytes left makes progress. *)
Lemma axum_read_more (s : AxumBodyStream) rest : yields s rest → rest ≠ [] →
  ∃ chunk rest' s', axum_read s = (Ok chunk, s') ∧ chunk ≠ [] ∧ rest = chunk ++ rest' ∧ yields s' rest' ∧ pending s' < pending s.
Proof.
  intros Hy Hne. destruct (read_yields _ _ Hy) as (chunk & rest' & s' & Hr & Heq & Hy' & Hend). injection Hr as Hr.
  assert (chunk ≠ []) as Hc. { intros ->. rewrite (Hend eq_refl) in Heq. done. }
  exists chunk, rest', s'. split_and!; try done. clear -Hr Hc. unfold axum_read in Hr. unfold pending at 2.
  destruct (ax_leftover s) as [|b0 l].
  - destruct (ax_eof s); [by simplify_eq|]. pose proof (axum_frames_pending (ax_body s)) as Hp. rewrite Hr in Hp.
    destruct chunk; [done|]. lia.
  - injection Hr as <- <-. unfold pending. simpl. lia.
Qed.

Lemma with_input_twice i1 k1 i2 k2 c : with_input i2 k2 (with_input i1 k1 c) = with_input i2 k2 c.
Proof. done. Qed.
Lemma with_input_same c : with_input (cb_inner c) (cb_carry c) c = c.
Proof. by destruct c. Qed.

Lemma ensure_in_carry_spec fuel need c rest :
  yields (cb_inner c) rest → (need ≤ Z.of_nat (length (cb_carry c ++ rest)))%Z → pending (cb_inner c) < fuel →
  ∃ inner carry rest', ensure_in_carry fuel need c = Some (Ok (), with_input inner carry c)
    ∧ carry ++ rest' = cb_carry c ++ rest ∧ yields inner rest' ∧ (need ≤ Z.of_nat (length carry))%Z.
Proof.
  revert c rest. induction fuel as [|fuel IH]; intros c rest Hy Hn Hf; [lia|]. cbn [ensure_in_carry].
  destruct (Z.ltb_spec (Z.of_nat (length (cb_carry c))) need) as [Hlt|Hge].
  2: { exists (cb_inner c), (cb_carry c), rest. by rewrite with_input_same. }
  destruct (axum_read_more _ _ Hy) as (chunk & rest' & s' & -> & Hc & -> & Hy' & Hp).
  { intros ->. rewrite app_nil_r in Hn. lia. }
  destruct chunk as [|b0 chunk]; [done|]. set (ch := b0 :: chunk) in *. clearbody ch.
  destruct (IH (with_input s' (cb_carry c ++ ch) c) rest') as (inner & carry & rest'' & He & H1 & H2 & H3).
  - done.
  - cbn. by rewrite <-app_assoc.
  - cbn. lia.
  - exists inner, carry, rest''. rewrite He. split_and!; try done. rewrite H1. cbn. by rewrite <-app_assoc.
Qed.

Section chunked_lemmas.
Context {ChunkParams : Type}.
Context (build_chunk_params : string → string → string → string → Z → result string ChunkParams).
Context (sign_chunk : bytes → string → ChunkParams → result string string).

Abbreviation fetch := (fetch_chunk build_chunk_params sign_chunk).

(** The header line is found whatever the sizes of the frames. *)
Lemma fetch_chunk_header fuel c rest line after :
  yields (cb_inner c) rest → cb_carry c ++ rest = str_bytes line ++ x0d :: x0a :: after →
  x0d ∉ str_bytes line → from_utf8 (str_bytes line) = Some line → pending (cb_inner c) < fuel →
  ∃ inner carry rest', yields inner rest' ∧ carry ++ rest' = after
    ∧ fetch fuel c = match parse_chunk_header line with
                     | Err e => Some (Err e, with_input inner carry c)
                     | Ok (size, sig) => chunk_payload build_chunk_params sign_chunk size sig (with_input inner carry c)
                     end.
Proof.
  revert c rest. induction fuel as [|fuel IH]; intros c rest Hy Hw Hcr Hu Hf; [lia|]. cbn [fetch_chunk].
  assert (cb_carry c = take (length (cb_carry c)) (str_bytes line ++ x0d :: x0a :: after)) as Hcarry
    by by rewrite <-Hw, take_app_length.
  pose proof (find_crlf_prefix (str_bytes line) after (length (cb_carry c)) Hcr) as Hfind. rewrite <-Hcarry in Hfind.
  rewrite Hfind. destruct (Nat.leb_spec (length (str_bytes line) + 2) (length (cb_carry c))) as [Hle|Hgt].
  - assert (take (length (str_bytes line)) (cb_carry c) = str_bytes line) as ->.
    { rewrite <-(take_app_le _ rest), Hw by lia. apply take_app_length. }
    rewrite Hu. exists (cb_inner c), (drop (length (str_bytes line) + 2) (cb_carry c)), rest. split_and!; try done.
    rewrite <-drop_app_le, Hw by lia. rewrite drop_app_add'; done.
  - destruct (axum_read_more _ _ Hy) as (chunk & rest' & s' & -> & Hc & -> & Hy' & Hp).
    { intros ->. rewrite app_nil_r in Hw. rewrite Hw, length_app in Hgt. simpl in Hgt. lia. }
    destruct chunk as [|b0 chunk]; [done|]. set (ch := b0 :: chunk) in *. clearbody ch.
    apply (IH (with_input s' (cb_carry c ++ ch) c) rest'); [done| |done|done|cbn; lia].
    cbn. by rewrite <-app_assoc.
Qed.

(** ** Bodies as a client writes them *)

Context (params : ChunkParams).

(** The header of a chunk of [n] bytes: the size in hexadecimal digits and the signature. *)
Definition header_line (size_hex sig : string) : string := size_hex +:+ ";chunk-signature=" +:+ sig.
Definition header_for (n : nat) (size_hex sig : string) : Prop :=
  all_chars is_ascii_hexdigit size_hex = true ∧ all_chars is_ascii_hexdigit sig = true
  ∧ from_str_radix 16 size_hex = Some (Z.of_nat n) ∧ (Z.of_nat n + 2 < u64_mod)%Z.
Definition chunk_bytes (size_hex sig : string) (payload : bytes) : bytes :=
  str_bytes (header_line size_hex sig) ++ x0d :: x0a :: payload ++ [x0d; x0a].

(** [wire sig payloads w]: [w] begins with the chunks of [payloads] and the empty
    last chunk, signed one after the other from [sig]. *)
Inductive wire : string → list bytes → bytes → Prop :=
  | wire_last sig size_hex sig' tail :
      header_for 0 size_hex sig' → sign_chunk [] sig params = Ok sig' →
      wire sig [] (chunk_bytes size_hex sig' [] ++ tail)
  | wire_chunk sig size_hex sig' p ps w :
      p ≠ [] → header_for (length p) size_hex sig' → sign_chunk p sig params = Ok sig' → wire sig' ps w →
      wire sig (p :: ps) (chunk_bytes size_hex sig' p ++ w).

Lemma header_line_ascii n size_hex sig : header_for n size_hex sig →
  from_utf8 (str_bytes (header_line size_hex sig)) = Some (header_line size_hex sig)
  ∧ x0d ∉ str_bytes (header_line size_hex sig).
Proof.
  intros (Hh & Hs & _). rewrite all_chars_bytes in Hh, Hs. unfold header_line. rewrite !str_bytes_app.
  rewrite !forallb_forall in *. split.
  - rewrite <-!str_bytes_app. apply from_utf8_ascii. rewrite !str_bytes_app, !forallb_app, !andb_true_iff. split_and!; [|done|].
    + apply forallb_forall. intros x Hx. by apply hex_byte_plain, Hh.
    + apply forallb_forall. intros x Hx. by apply hex_byte_plain, Hs.
  - rewrite !elem_of_app. intros [H|[H|H]].
    + by apply list_elem_of_In, Hh, hex_byte_plain in H as (_ & H & _).
    + revert H. change (x0d ∉ str_bytes ";chunk-signature="). by apply (bool_decide_unpack _).
    + by apply list_elem_of_In, Hs, hex_byte_plain in H as (_ & H & _).
Qed.

Lemma hex_no_semicolon s : all_chars is_ascii_hexdigit s = true → has_char ";" s = false.
Proof.
  induction s as [|c s IH]; [done|]. simpl. intros [Hc Hs]%andb_prop. rewrite IH by done. rewrite orb_false_r.
  apply bool_decide_eq_false. intros ->. by vm_compute in Hc.
Qed.

Lemma parse_header n size_hex sig : header_for n size_hex sig →
  parse_chunk_header (header_line size_hex sig) = Ok (Z.of_nat n, sig).
Proof.
  intros (Hh & Hs & Hn & _). unfold parse_chunk_header.
  assert (split_once ";" (header_line size_hex sig) = Some (size_hex, "chunk-signature=" +:+ sig)) as ->.
  { apply split_once_spec. split; [done|]. by apply hex_no_semicolon. }
  cbn [ok_or mbind result_bind fst snd]. rewrite (trim_hex size_hex) by done. rewrite Hn. cbn [ok_or mbind result_bind].
  rewrite (proj2 (strip_prefix_spec _ _ _) eq_refl). cbn [ok_or mbind result_bind]. by rewrite (trim_hex sig).
Qed.

Lemma verify_chunk_ok chunk prev sig key secret region time :
  build_chunk_params key secret region SERVICE time = Ok params → sign_chunk chunk prev params = Ok sig →
  verify_chunk build_chunk_params sign_chunk chunk prev sig key secret region time = Ok sig.
Proof.
  intros Hp Hs. unfold verify_chunk. rewrite Hp. cbn [map_err mbind result_bind]. rewrite Hs. cbn [map_err mbind result_bind].
  by rewrite (proj2 (constant_time_eq_spec _ _)).
Qed.

Definition keyed (c : ChunkedBodyStream) : Prop :=
  build_chunk_params (cb_access_key c) (cb_secret c) (cb_region c) SERVICE (cb_request_time c) = Ok params.

(** A well-formed chunk is decoded and checked whatever the sizes of the frames. *)
Lemma fetch_chunk_wire c rest size_hex sig' p w :
  keyed c → yields (cb_inner c) rest → cb_carry c ++ rest = chunk_bytes size_hex sig' p ++ w →
  header_for (length p) size_hex sig' → sign_chunk p (cb_running_sig c) params = Ok sig' →
  ∃ inner carry rest', yields inner rest' ∧ carry ++ rest' = w
    ∧ fetch (passes c) c = Some (Ok (negb (Z.of_nat (length p) =? 0)%Z), with_chunk p sig' (with_input inner carry c)).
Proof.
  intros Hk Hy Hw Hh Hs. destruct (header_line_ascii _ _ _ Hh) as [Hu Hcr].
  unfold chunk_bytes in Hw. rewrite <-!app_assoc in Hw. cbn [app] in Hw. rewrite <-!app_assoc in Hw. cbn [app] in Hw.
  assert (pending (cb_inner c) < passes c) as Hf by (unfold pending, passes; case_match; lia).
  destruct (fetch_chunk_header (passes c) c rest _ _ Hy Hw Hcr Hu Hf) as (inner & carry & rest' & Hy1 & Hw1 & ->).
  rewrite (parse_header _ _ _ Hh). unfold chunk_payload. destruct Hh as (_ & _ & _ & Hb).
  rewrite Z.mod_small by lia.
  destruct (ensure_in_carry_spec (passes (with_input inner carry c)) (Z.of_nat (length p) + 2)%Z (with_input inner carry c) rest')
    as (inner2 & carry2 & rest2 & -> & Hw2 & Hy2 & Hlen).
  - done.
  - cbn. rewrite Hw1, length_app. simpl. lia.
  - unfold pending, passes. cbn. case_match; lia.
  - rewrite with_input_twice. cbn [mbind option_bind cb_carry with_input cb_inner]. cbn in Hw2. rewrite Hw1 in Hw2.
    rewrite (proj2 (Z.ltb_ge _ _)), (proj2 (Z.leb_gt _ _)) by lia. cbn [orb]. rewrite Nat2Z.id.
    assert (take (length p) carry2 = p) as ->.
    { rewrite <-(take_app_le _ rest2), Hw2 by lia. apply take_app_length. }
    assert (drop (length p) carry2 ++ rest2 = x0d :: x0a :: w) as Hd.
    { rewrite <-drop_app_le, Hw2 by lia. apply drop_app_length. }
    cbn [cb_running_sig cb_access_key cb_secret cb_region cb_request_time with_input].
    rewrite (verify_chunk_ok _ _ _ _ _ _ _ Hk Hs).
    assert (2 ≤ length (drop (length p) carry2)) as Hl2 by (rewrite length_drop; lia).
    destruct (drop (length p) carry2) as [|a [|b q]] eqn:Ed; simpl in Hl2; [lia|lia|]. injection Hd as -> -> Hq.
    rewrite bool_decide_true by done. cbn [negb].
    exists inner2, q, rest2. split_and!; try done. do 3 f_equal.
    rewrite <-drop_drop, Ed. done.
Qed.

(** A decoder at the start of a chunk of a signed body, or inside one. *)
Definition chunked_yields (c : ChunkedBodyStream) (bs : bytes) : Prop :=
  if cb_finished c then bs = []
  else keyed c ∧ ∃ payloads rest, yields (cb_inner c) rest ∧ wire (cb_running_sig c) payloads (cb_carry c ++ rest)
         ∧ bs = drop (cb_chunk_pos c) (cb_chunk_buf c) ++ concat payloads.

Lemma serve_chunk_yields c payloads rest : cb_finished c = false → keyed c → yields (cb_inner c) rest →
  wire (cb_running_sig c) payloads (cb_carry c ++ rest) → chunked_yields (serve_chunk c).2 (concat payloads).
Proof.
  intros Hf Hk Hy Hw. unfold chunked_yields, serve_chunk. cbn [snd cb_finished with_pos]. rewrite Hf. split; [done|]. exists payloads, rest.
  split_and!; [done..|]. cbn [cb_chunk_pos cb_chunk_buf with_pos]. by rewrite drop_ge.
Qed.

Lemma chunked_read_yields c bs : chunked_yields c bs →
  ∃ chunk rest c', chunked_read build_chunk_params sign_chunk c = Some (Ok chunk, c') ∧ bs = chunk ++ rest
    ∧ chunked_yields c' rest ∧ (chunk = [] → rest = []).
Proof.
  unfold chunked_yields at 1, chunked_read. destruct (cb_finished c) eqn:Hfin.
  { intros ->. exists [], [], c. split_and!; try done. unfold chunked_yields. by rewrite Hfin. }
  intros (Hk & payloads & rest & Hy & Hw & ->). destruct (Nat.leb_spec (length (cb_chunk_buf c)) (cb_chunk_pos c)) as [Hpos|Hpos].
  - rewrite (drop_ge (cb_chunk_buf c)) by done. cbn [app].
    inversion Hw as [sig hex sig' tail Hh Hs Hsig Hps Heq|sig hex sig' p ps w Hp Hh Hs Hw' Hsig Hps Heq]; subst sig.
    + symmetry in Heq. destruct (fetch_chunk_wire c rest hex sig' [] tail Hk Hy Heq Hh Hs) as (inner & carry & rest' & Hy' & Hc & ->).
      cbn [mbind option_bind length Z.of_nat Z.eqb negb]. eexists [], [], _. split; [done|]. split; [done|]. split; [|done].
      unfold chunked_yields. cbn. done.
    + symmetry in Heq. destruct (fetch_chunk_wire c rest hex sig' p w Hk Hy Heq Hh Hs) as (inner & carry & rest' & Hy' & Hc & ->).
      assert ((Z.of_nat (length p) =? 0)%Z = false) as -> by (apply Z.eqb_neq; destruct p; simpl; [done|lia]).
      cbn [mbind option_bind negb]. eexists p, (concat ps), _. split; [done|]. split; [done|]. split; [|done].
      apply (serve_chunk_yields _ ps rest'); [done|done|done|]. cbn. by rewrite Hc.
  - eexists _, (concat payloads), _. split; [done|]. split; [done|]. split; [by apply (serve_chunk_yields _ payloads rest)|].
    intros H. apply (f_equal length) in H. rewrite length_drop in H. simpl in H. lia.
Qed.

Lemma chunked_read_serves c bs : (∃ bs', chunked_yields c bs' ∧ bs' `prefix_of` bs) →
  ∃ res c', chunked_read build_chunk_params sign_chunk c = Some (res, c')
    ∧ ∀ chunk, res = Ok chunk → chunk ≠ [] → ∃ rest, bs = chunk ++ rest ∧ ∃ bs', chunked_yields c' bs' ∧ bs' `prefix_of` rest.
Proof.
  intros (bs' & Hy & [tail ->]). destruct (chunked_read_yields _ _ Hy) as (chunk & rest & c' & -> & -> & Hy' & _).
  eexists _, _. split; [done|]. intros ? [= <-] _. exists (rest ++ tail). rewrite <-app_assoc. split; [done|].
  exists rest. split; [done|]. by apply prefix_app_r.
Qed.

#[export] Instance ChunkedBodyStream_stream : ByteStream ChunkedBodyStream := {|
  read := chunked_read build_chunk_params sign_chunk;
  yields := chunked_yields;
  serves c bs := ∃ bs', chunked_yields c bs' ∧ bs' `prefix_of` bs;
  read_yields := chunked_read_yields;
  read_serves := chunked_read_serves
|}.
End chunked_lemmas.

(** ** The chain of signatures *)

Section chain.
Context {ChunkParams : Type}.
Context (build_chunk_params : string → string → string → string → Z → result string ChunkParams).
Context (sign_chunk : bytes → string → ChunkParams → result string string).

(** The signature of [p] after [sig]. *)
Definition next_sig (key secret region : string) (time : Z) (sig : string) (p : bytes) : result string string :=
  params ← build_chunk_params key secret region SERVICE time; sign_chunk p sig params.

(** [carries gaps .. sig ps last w]: the bytes [w] hold the payloads [ps] one after
    the other, each in a chunk whose header declares its length and the signature
    of the payload after the signature before it, from [sig] to [last].  Between
    the chunks there may be other bytes when [gaps] holds. *)
Inductive carries (gaps : bool) (key secret region : string) (time : Z) : string → list bytes → string → bytes → Prop :=
  | carries_end sig w : carries gaps key secret region time sig [] sig w
  | carries_chunk sig between header line given p ps last w :
      (gaps = false → between = []) →
      from_utf8 header = Some line → parse_chunk_header line = Ok (Z.of_nat (length p), given) →
      next_sig key secret region time sig p = Ok given → carries gaps key secret region time given ps last w →
      carries gaps key secret region time sig (p :: ps) last (between ++ header ++ x0d :: x0a :: p ++ x0d :: x0a :: w).

Lemma carries_skip key secret region time skipped sig ps last w :
  carries true key secret region time sig ps last w → carries true key secret region time sig ps last (skipped ++ w).
Proof. intros [|? between]; [constructor|]. rewrite app_assoc. by econstructor. Qed.
Lemma carries_gaps gaps key secret region time sig ps last w :
  carries false key secret region time sig ps last w → carries gaps key secret region time sig ps last w.
Proof. induction 1 as [|sig between header line given p ps last w Hb]; [constructor|]. econstructor; try done. intros _. by apply Hb. Qed.

(** What [n] reads in a row return, errors included; a panic ends the task. *)
Fixpoint reads (n : nat) (c : ChunkedBodyStream) : list (IoResult bytes) :=
  match n with
  | 0 => []
  | S n => match chunked_read build_chunk_params sign_chunk c with
           | None => []
           | Some (r, c) => r :: reads n c
           end
  end.
Definition delivered (rs : list (IoResult bytes)) : list bytes :=
  omap (λ r, match r with Ok (b :: p) => Some (b :: p) | _ => None end) rs.

(** The bytes that have not been decoded. *)
Definition undecoded (c : ChunkedBodyStream) : bytes := cb_carry c ++ axum_rest (cb_inner c).

(** [fetch_chunk] only takes bytes from the input, unless it accepts a chunk. *)
Definition step_ok (c : ChunkedBodyStream) (r : IoResult bool) (c' : ChunkedBodyStream) : Prop :=
  match r with
  | Err _ => c' = with_input (cb_inner c') (cb_carry c') c ∧ ∃ skipped, undecoded c = skipped ++ undecoded c'
  | Ok more => ∃ header line p sig, from_utf8 header = Some line ∧ parse_chunk_header line = Ok (Z.of_nat (length p), sig)
      ∧ next_sig (cb_access_key c) (cb_secret c) (cb_region c) (cb_request_time c) (cb_running_sig c) p = Ok sig
      ∧ c' = with_chunk p sig (with_input (cb_inner c') (cb_carry c') c) ∧ more = negb (bool_decide (p = []))
      ∧ undecoded c = header ++ x0d :: x0a :: p ++ x0d :: x0a :: undecoded c'
  end.

Lemma verify_chunk_inv p prev given key secret region time sig :
  verify_chunk build_chunk_params sign_chunk p prev given key secret region time = Ok sig →
  next_sig key secret region time prev p = Ok given ∧ sig = given.
Proof.
  unfold verify_chunk, next_sig. intros (params & Hp%map_err_ok & H)%bind_ok. apply bind_ok in H as (s & Hs%map_err_ok & H).
  rewrite Hp. cbn [mbind result_bind]. destruct (constant_time_eq _ _) eqn:E; [|done]. injection H as <-.
  apply constant_time_eq_spec, (f_equal of_bytes) in E. rewrite !of_bytes_str in E. by subst.
Qed.

Lemma ensure_in_carry_frame fuel need c r c' : ensure_in_carry fuel need c = Some (r, c') →
  c' = with_input (cb_inner c') (cb_carry c') c ∧ undecoded c = undecoded c'.
Proof.
  revert c. induction fuel as [|fuel IH]; intros c; cbn [ensure_in_carry];
    destruct (Z.ltb_spec (Z.of_nat (length (cb_carry c))) need) as [Hlt|Hge].
  - done.
  - intros [= <- <-]. by rewrite with_input_same.
  - pose proof (axum_read_rest (cb_inner c)) as Hrest. unfold undecoded.
    destruct (axum_read (cb_inner c)) as [[[|b0 chunk]|e] inner]; [by intros [= <- <-]; cbn; rewrite Hrest| |by intros [= <- <-]; cbn; rewrite Hrest].
    intros [H1 H2]%IH. rewrite H1 at 1. rewrite with_input_twice. split; [done|]. rewrite Hrest. unfold undecoded in H2. rewrite <-H2.
    cbn. by rewrite <-app_assoc.
  - intros [= <- <-]. by rewrite with_input_same.
Qed.

Lemma chunk_payload_step size sig c r c' : (0 ≤ size)%Z →
  chunk_payload build_chunk_params sign_chunk size sig c = Some (r, c') →
  match r with
  | Err _ => c' = with_input (cb_inner c') (cb_carry c') c ∧ undecoded c = undecoded c'
  | Ok more => ∃ p, size = Z.of_nat (length p)
      ∧ next_sig (cb_access_key c) (cb_secret c) (cb_region c) (cb_request_time c) (cb_running_sig c) p = Ok sig
      ∧ c' = with_chunk p sig (with_input (cb_inner c') (cb_carry c') c) ∧ more = negb (bool_decide (p = []))
      ∧ undecoded c = p ++ x0d :: x0a :: undecoded c'
  end.
Proof.
  intros Hsz. unfold chunk_payload. destruct (ensure_in_carry _ _ c) as [[[u|e] c1]|] eqn:He; cbn [mbind option_bind]; [| |done].
  2: { intros [= <- <-]. by apply ensure_in_carry_frame in He. }
  apply ensure_in_carry_frame in He as [He Hund]. destruct (_ || _) eqn:Hp; [done|].
  apply orb_false_iff in Hp as [Hlen%Z.ltb_ge Hb].
  destruct (verify_chunk _ _ _ _ _ _ _ _ _) as [new|e] eqn:Hv; [|by intros [= <- <-]].
  apply verify_chunk_inv in Hv as [Hv ->]. destruct (negb _) eqn:Hcrlf; [by intros [= <- <-]|]. intros [= <- <-].
  apply negb_false_iff, bool_decide_eq_true in Hcrlf. set (p := take (Z.to_nat size) (cb_carry c1)) in *.
  assert (length p = Z.to_nat size) as Hpl by (unfold p; rewrite length_take; lia).
  exists p. split; [lia|]. rewrite He in Hv |- *. split; [exact Hv|]. split; [done|]. split.
  - f_equal. destruct (Z.eqb_spec size 0) as [->|Hne]; [by rewrite bool_decide_true|]. rewrite bool_decide_false; [done|].
    intros H%(f_equal length). simpl in H. lia.
  - rewrite Hund. unfold undecoded. cbn [with_chunk with_input cb_carry cb_inner].
    rewrite <-(take_drop (Z.to_nat size) (cb_carry c1)) at 1. fold p. rewrite <-app_assoc. f_equal.
    rewrite <-(take_drop 2 (drop (Z.to_nat size) (cb_carry c1))), Hcrlf, drop_drop. done.
Qed.

Lemma parse_chunk_header_size line size sig : parse_chunk_header line = Ok (size, sig) → (0 ≤ size)%Z.
Proof.
  unfold parse_chunk_header. intros (ss & _ & H)%bind_ok. apply bind_ok in H as (n & Hn%ok_or_ok%from_str_radix_range & H).
  apply bind_ok in H as (sg & _ & [= <- <-]). lia.
Qed.

Lemma fetch_chunk_step fuel c r c' : fetch_chunk build_chunk_params sign_chunk fuel c = Some (r, c') → step_ok c r c'.
Proof.
  revert c. induction fuel as [|fuel IH]; intros c; [done|]. cbn [fetch_chunk]. destruct (find_crlf (cb_carry c)) as [p|] eqn:Hcr.
  - apply find_crlf_Some in Hcr. destruct (from_utf8 _) as [line|] eqn:Hu; [|intros [= <- <-]; split; [by rewrite with_input_same|by exists []]].
    set (c1 := with_input _ _ c).
    assert (undecoded c = take p (cb_carry c) ++ x0d :: x0a :: undecoded c1) as Hund.
    { unfold undecoded at 1. rewrite Hcr at 1. by rewrite <-app_assoc. }
    destruct (parse_chunk_header line) as [[size sig]|e] eqn:Hh.
    2: { intros [= <- <-]. split; [done|]. exists (take p (cb_carry c) ++ [x0d; x0a]). by rewrite Hund, <-app_assoc. }
    intros H%chunk_payload_step; [|by eapply parse_chunk_header_size]. destruct r as [more|e].
    + destruct H as (q & -> & Hn & Hc & Hm & Hq). exists (take p (cb_carry c)), line, q, sig. rewrite <-Hq. split_and!; done.
    + destruct H as [Hc Hu1]. split; [done|]. exists (take p (cb_carry c) ++ [x0d; x0a]). by rewrite Hund, <-Hu1, <-app_assoc.
  - pose proof (axum_read_rest (cb_inner c)) as Hrest.
    destruct (axum_read (cb_inner c)) as [[[|b0 chunk]|e] inner].
    1,3: intros [= <- <-]; split; [done|]; exists []; unfold undecoded; cbn; by rewrite Hrest.
    intros H%IH. set (c1 := with_input _ _ c) in H. assert (undecoded c = undecoded c1) as Hund.
    { unfold undecoded, c1. cbn [with_input cb_carry cb_inner]. rewrite Hrest. by rewrite <-app_assoc. }
    unfold step_ok. rewrite Hund. by destruct r.
Qed.

(** All that is left of the current chunk is nothing: its payload is handed out whole. *)
Definition between (c : ChunkedBodyStream) : Prop := cb_finished c = true ∨ length (cb_chunk_buf c) ≤ cb_chunk_pos c.

Lemma chunked_read_step c r c' : between c → chunked_read build_chunk_params sign_chunk c = Some (r, c') →
  between c' ∧ cb_access_key c' = cb_access_key c ∧ cb_secret c' = cb_secret c ∧ cb_region c' = cb_region c
  ∧ cb_request_time c' = cb_request_time c
  ∧ match r with
    | Err _ => cb_running_sig c' = cb_running_sig c ∧ cb_finished c = false ∧ cb_finished c' = false
        ∧ ∃ skipped, undecoded c = skipped ++ undecoded c'
    | Ok p => if cb_finished c then p = [] else
        cb_finished c' = bool_decide (p = [])
        ∧ ∃ header line, from_utf8 header = Some line ∧ parse_chunk_header line = Ok (Z.of_nat (length p), cb_running_sig c')
            ∧ next_sig (cb_access_key c) (cb_secret c) (cb_region c) (cb_request_time c) (cb_running_sig c) p = Ok (cb_running_sig c')
            ∧ undecoded c = header ++ x0d :: x0a :: p ++ x0d :: x0a :: undecoded c'
    end.
Proof.
  unfold chunked_read, between. destruct (cb_finished c) eqn:Hf; [intros _ [= <- <-]; rewrite Hf; split_and!; by auto|].
  intros [?|Hb]; [done|]. rewrite (proj2 (Nat.leb_le _ _) Hb).
  destruct (fetch_chunk _ _ _ c) as [[[more|e] c1]|] eqn:E; cbn [mbind option_bind]; [| |done]; apply fetch_chunk_step in E.
  - destruct E as (header & line & p & sig & Hu & Hh & Hn & Hc1 & -> & Hund). rewrite Hc1 in Hund |- *. destruct p as [|b0 p].
    + intros [= <- <-]. cbn. split_and!; [by auto|done..|]. by exists header, line.
    + intros [= <- <-]. cbn. rewrite Hf. split_and!; [by auto|done..|]. by exists header, line.
  - intros [= <- <-]. cbn in E. destruct E as [E Hs]. rewrite E in Hs |- *. cbn. rewrite Hf. split_and!; by auto.
Qed.

Lemma reads_finished n c : cb_finished c = true → delivered (reads n c) = [].
Proof.
  revert c. induction n as [|n IH]; intros c Hf; [done|]. simpl. unfold chunked_read. rewrite Hf. by apply IH.
Qed.

(** Whether a read failed, and the payloads accepted, with the empty one of the end. *)
Definition any_error (rs : list (IoResult bytes)) : bool := existsb (λ r, negb (is_ok r)) rs.
Definition accepted (rs : list (IoResult bytes)) : list bytes :=
  delivered rs ++ if decide (Ok [] ∈ rs) then [[]] else [].

Lemma accepted_end n c : cb_finished c = true → accepted (Ok [] :: reads n c) = [[]].
Proof.
  intros Hf. unfold accepted. rewrite decide_True by left. cbn. by rewrite reads_finished.
Qed.
Lemma accepted_chunk b p rs : accepted (Ok (b :: p) :: rs) = (b :: p) :: accepted rs.
Proof. unfold accepted. cbn. f_equal. f_equal. apply decide_ext. rewrite elem_of_cons. naive_solver. Qed.
Lemma accepted_error e rs : accepted (Err e :: rs) = accepted rs.
Proof. unfold accepted. cbn. f_equal. apply decide_ext. rewrite elem_of_cons. naive_solver. Qed.
Lemma reads_finished_errors n c : cb_finished c = true → any_error (reads n c) = false.
Proof.
  revert c. induction n as [|n IH]; intros c Hf; [done|]. simpl. unfold chunked_read. rewrite Hf. by apply IH.
Qed.

(** The payloads the reads from [c] on accept are in the bytes not decoded yet. *)
Lemma reads_carried n c : between c → cb_finished c = false →
  ∃ last, carries (any_error (reads n c)) (cb_access_key c) (cb_secret c) (cb_region c) (cb_request_time c)
            (cb_running_sig c) (accepted (reads n c)) last (undecoded c).
Proof.
  revert c. induction n as [|n IH]; intros c Hb Hf; cbn [reads].
  { exists (cb_running_sig c). constructor. }
  destruct (chunked_read _ _ c) as [[r c']|] eqn:E; [|exists (cb_running_sig c); constructor].
  destruct (chunked_read_step _ _ _ Hb E) as (Hb' & Hk & Hs & Hr & Ht & Hres). destruct r as [[|b0 p]|e].
  - rewrite Hf in Hres. destruct Hres as (Hf' & header & line & Hu & Hh & Hn & ->). rewrite accepted_end by done.
    exists (cb_running_sig c'). apply (carries_chunk _ _ _ _ _ _ [] header line (cb_running_sig c') []); try done. constructor.
  - rewrite Hf in Hres. destruct Hres as (Hf' & header & line & Hu & Hh & Hn & ->). destruct (IH c' Hb' Hf') as [last Hl].
    rewrite Hk, Hs, Hr, Ht in Hl. rewrite accepted_chunk. exists last. by apply (carries_chunk _ _ _ _ _ _ [] header line (cb_running_sig c') (b0 :: p)).
  - destruct Hres as (Hrun & _ & Hf' & skipped & ->). destruct (IH c' Hb' Hf') as [last Hl]. rewrite Hk, Hs, Hr, Ht, Hrun in Hl.
    rewrite accepted_error. exists last. cbn. apply carries_skip. destruct (any_error (reads n c')); [done|by apply carries_gaps].
Qed.
End chain.

(** ** The digest of a body *)

Section sha256.
Context (sha256 : bytes → bytes).
Context {St : Type} `{ByteStream St}.

(** The hasher is the bytes it has been given. *)
Record Sha256VerifyStream := { sv_inner : St; sv_expected : bytes; sv_hasher : bytes; sv_eof : bool }.
Definition Sha256VerifyStream_new (inner : St) (expected_hex : string) : result AuthError Sha256VerifyStream :=
  if String.length expected_hex =? 64 then
    Ok {| sv_inner := inner; sv_expected := str_bytes (to_ascii_lowercase expected_hex); sv_hasher := []; sv_eof := false |}
  else Err (UnsupportedContentSha expected_hex).

Definition sha256_read (s : Sha256VerifyStream) : option (IoResult bytes * Sha256VerifyStream) :=
  if sv_eof s then Some (Ok [], s)
  else
    '(r, inner) ← read (sv_inner s);
    match r with
    | Err e => Some (Err e, {| sv_inner := inner; sv_expected := sv_expected s; sv_hasher := sv_hasher s; sv_eof := false |})
    | Ok [] =>
        let s' := {| sv_inner := inner; sv_expected := sv_expected s; sv_hasher := []; sv_eof := true |} in
        if constant_time_eq (hex_encode (sha256 (sv_hasher s))) (sv_expected s) then Some (Ok [], s')
        else Some (Err (Decode "sha256 mismatch"), s')
    | Ok chunk =>
        Some (Ok chunk, {| sv_inner := inner; sv_expected := sv_expected s; sv_hasher := sv_hasher s ++ chunk; sv_eof := false |})
    end.

#[export] Program Instance Sha256VerifyStream_stream : ByteStream Sha256VerifyStream := {|
  read := sha256_read;
  yields s bs := if sv_eof s then bs = []
    else yields (sv_inner s) bs ∧ hex_encode (sha256 (sv_hasher s ++ bs)) = sv_expected s;
  serves s bs := sv_eof s = true ∨ serves (sv_inner s) bs
|}.
Next Obligation.
  intros s bs. unfold sha256_read. destruct (sv_eof s) eqn:Ee.
  { intros ->. exists [], [], s. by rewrite Ee. }
  intros [Hy Hd]. destruct (read_yields _ _ Hy) as (chunk & rest & s' & -> & -> & Hy' & Hend). cbn [mbind option_bind].
  destruct chunk as [|b0 chunk].
  - rewrite (Hend eq_refl) in *. rewrite app_nil_r in Hd. rewrite (proj2 (constant_time_eq_spec _ _) Hd). by eexists [], [], _.
  - eexists (b0 :: chunk), rest, _. split; [done|]. split; [done|]. split; [|done]. cbn [sv_eof sv_inner sv_hasher sv_expected].
    split; [done|]. by rewrite <-app_assoc.
Qed.
Next Obligation.
  intros s bs Hs. unfold sha256_read. destruct (sv_eof s) eqn:Ee.
  { eexists _, _. split; [done|]. by intros ? [= <-]. }
  destruct Hs as [?|Hs]; [congruence|]. destruct (read_serves _ _ Hs) as (res & s' & -> & Hc). cbn [mbind option_bind].
  destruct res as [[|b0 chunk]|e].
  - destruct (constant_time_eq _ _); eexists _, _; (split; [done|]); [by intros ? [= <-]|done].
  - eexists _, _. split; [done|]. intros ? [= <-] Hne. destruct (Hc _ eq_refl Hne) as (rest & ? & ?). exists rest. auto.
  - eexists _, _. by split.
Qed.

Lemma sha256_drain fuel s bs : sv_eof s = false → yields (sv_inner s) bs → length bs < fuel →
  ∃ s', drain fuel s = Some (if decide (hex_encode (sha256 (sv_hasher s ++ bs)) = sv_expected s) then Ok bs
                             else Err (Decode "sha256 mismatch"), s').
Proof.
  revert s bs. induction fuel as [|fuel IH]; intros s bs Hf Hy Hl; [lia|]. cbn [drain]. change (read s) with (sha256_read s). unfold sha256_read.
  rewrite Hf. destruct (read_yields _ _ Hy) as (chunk & rest & inner & -> & -> & Hy' & Hend). cbn [mbind option_bind].
  destruct chunk as [|b0 chunk].
  - rewrite (Hend eq_refl). rewrite app_nil_r. case_decide as Hd.
    + rewrite (proj2 (constant_time_eq_spec _ _) Hd). by eexists.
    + destruct (constant_time_eq _ _) eqn:E; [by apply constant_time_eq_spec in E|]. by eexists.
  - rewrite length_app in Hl. simpl in Hl. cbn [mbind option_bind].
    edestruct (IH {| sv_inner := inner; sv_expected := sv_expected s; sv_hasher := sv_hasher s ++ b0 :: chunk; sv_eof := false |} rest)
      as (s' & ->); [done|done|lia|]. cbn [mbind option_bind sv_hasher sv_expected]. rewrite <-app_assoc. exists s'.
    by case_decide.
Qed.
End sha256.
Arguments Sha256VerifyStream : clear implicits.

(** ** The body of a request *)

Section source.
Context {ChunkParams : Type}.
Context (build_chunk_params : string → string → string → string → Z → result string ChunkParams).
Context (sign_chunk : bytes → string → ChunkParams → result string string) (sha256 : bytes → bytes).

Inductive BodySource :=
  | Plain (s : AxumBodyStream)
  | HexSha (s : Sha256VerifyStream AxumBodyStream)
  | Chunked (s : ChunkedBodyStream).

Definition plain (body : list Frame) : BodySource := Plain (AxumBodyStream_new body).
Definition hex_sha (body : list Frame) (expected_hex : string) : IoResult BodySource :=
  match Sha256VerifyStream_new (AxumBodyStream_new body) expected_hex with
  | Ok s => Ok (HexSha s)
  | Err e => Err (InvalidArgument (auth_to_string e))
  end.
Definition chunked (body : list Frame) (seed key secret region : string) (time : Z) : BodySource :=
  Chunked (ChunkedBodyStream_new body seed key secret region time).

Definition source_read (b : BodySource) : option (IoResult bytes * BodySource) :=
  match b with
  | Plain s => let '(r, s) := axum_read s in Some (r, Plain s)
  | HexSha s => '(r, s) ← sha256_read sha256 s; Some (r, HexSha s)
  | Chunked s => '(r, s) ← chunked_read build_chunk_params sign_chunk s; Some (r, Chunked s)
  end.

(** Each mode promises what its stream promises. *)
Context (params : ChunkParams).
Definition source_yields (b : BodySource) (bs : bytes) : Prop :=
  match b with
  | Plain s => yields s bs
  | HexSha s => yields (ByteStream := Sha256VerifyStream_stream sha256) s bs
  | Chunked s => chunked_yields build_chunk_params sign_chunk params s bs
  end.
Definition source_serves (b : BodySource) (bs : bytes) : Prop :=
  match b with
  | Plain s => serves s bs
  | HexSha s => serves (ByteStream := Sha256VerifyStream_stream sha256) s bs
  | Chunked s => ∃ bs', chunked_yields build_chunk_params sign_chunk params s bs' ∧ bs' `prefix_of` bs
  end.
#[export] Program Instance BodySource_stream : ByteStream BodySource := {|
  read := source_read; yields := source_yields; serves := source_serves
|}.
Next Obligation.
  intros [s|s|s] bs Hy; unfold source_yields in Hy.
  - destruct (read_yields (ByteStream := AxumBodyStream_stream) _ _ Hy) as (chunk & rest & s' & [= Hr] & ?). exists chunk, rest, (Plain s').
    unfold source_read. by rewrite Hr.
  - destruct (read_yields (ByteStream := Sha256VerifyStream_stream sha256) _ _ Hy) as (chunk & rest & s' & Hr & ?).
    exists chunk, rest, (HexSha s'). unfold source_read. cbn in Hr. by rewrite Hr.
  - destruct (chunked_read_yields _ _ _ _ _ Hy) as (chunk & rest & s' & Hr & ?). exists chunk, rest, (Chunked s'). unfold source_read. by rewrite Hr.
Qed.
Next Obligation.
  intros [s|s|s] bs Hs; unfold source_serves in Hs.
  - destruct (read_serves (ByteStream := AxumBodyStream_stream) _ _ Hs) as (res & s' & [= Hr] & ?). exists res, (Plain s'). unfold source_read. by rewrite Hr.
  - destruct (read_serves (ByteStream := Sha256VerifyStream_stream sha256) _ _ Hs) as (res & s' & Hr & ?).
    exists res, (HexSha s'). unfold source_read. cbn in Hr. by rewrite Hr.
  - destruct (chunked_read_serves _ _ _ _ _ Hs) as (res & s' & Hr & ?). exists res, (Chunked s'). unfold source_read. by rewrite Hr.
Qed.
End source.

(** ** Properties *)

(** C21.  A body that a client has signed chunk by chunk from the seed signature
    is decoded to its payloads, in order and without loss, however the
    transport has cut it into frames (also in the middle of a header or of a
    line end), and with trailers and empty frames in between. *)
Theorem chunked_roundtrip {ChunkParams} build_chunk_params sign_chunk (params : ChunkParams)
    (body : list Frame) (seed key secret region : string) (time : Z) (payloads : list bytes) (fuel : nat)
    (Hkey : build_chunk_params key secret region SERVICE time = Ok params)
    (Hwire : wire sign_chunk params seed payloads (concat (frame_bytes <$> body)))
    (Hok : forallb frame_ok body = true) (Hfuel : length (concat payloads) < fuel) :
  ∃ c', drain (H := ChunkedBodyStream_stream build_chunk_params sign_chunk params) fuel
          (ChunkedBodyStream_new body seed key secret region time) = Some (Ok (concat payloads), c').
Proof.
  apply (drain_yields (H := ChunkedBodyStream_stream build_chunk_params sign_chunk params)); [|done].
  split; [done|]. exists payloads, (concat (frame_bytes <$> body)). split_and!; [|done|done]. split; [done|by right].
Qed.

(** A signer for the examples: the signature counts the bytes signed so far. *)
Definition count_sign (p : bytes) (prev : string) (_ : unit) : result string string :=
  Ok (prev +:+ String.concat EmptyString ((λ _, "a") <$> p)).
Definition count_params (_ _ _ _ : string) (_ : Z) : result string unit := Ok ().
Definition signed_body : list Frame :=
  [DataFrame (str_bytes "3;chunk-signature=fa"); TrailersFrame; DataFrame (str_bytes "aa" ++ [x0d]);
   DataFrame ([x0a] ++ str_bytes "xyz" ++ [x0d; x0a] ++ str_bytes "0;chunk-sig"); DataFrame [];
   DataFrame (str_bytes "nature=faaa" ++ [x0d; x0a; x0d; x0a])].

Lemma signed_body_wire : wire count_sign () "f" [str_bytes "xyz"] (concat (frame_bytes <$> signed_body)).
Proof.
  refine (wire_chunk _ _ "f" "3" "faaa" (str_bytes "xyz") [] (chunk_bytes "0" "faaa" [] ++ []) _ _ _ _).
  - done.
  - by split_and!.
  - done.
  - apply wire_last; [by split_and!|done].
Qed.
Lemma chunked_roundtrip_witness : ∃ c',
  drain (H := ChunkedBodyStream_stream count_params count_sign ()) 4
    (ChunkedBodyStream_new signed_body "f" "AK" "secret" "us-east-1" 0) = Some (Ok (str_bytes "xyz"), c').
Proof.
  apply (chunked_roundtrip count_params count_sign () signed_body "f" "AK" "secret" "us-east-1" 0 [str_bytes "xyz"]).
  - reflexivity.
  - exact signed_body_wire.
  - reflexivity.
  - vm_compute. lia.
Defined.

(** C18.  Whatever the body is, and however often it is read (also past errors),
    every non-empty chunk a decoder hands out stands in the body, in this order,
    after a header that declares its length and a signature, and that signature
    is the one of the chunk under the caller's key, after the signature of the
    chunk before it; the first one after the seed.  While no read has failed the
    chunks stand there without a gap.  An end of body is reported only when an
    empty chunk signed in the same way follows the last one, so that no suffix
    can be cut off. *)
Theorem chunks_authentic {ChunkParams} (build_chunk_params : string → string → string → string → Z → result string ChunkParams)
    sign_chunk (body : list Frame) (seed key secret region : string) (time : Z) (n : nat) :
  let rs := reads build_chunk_params sign_chunk n (ChunkedBodyStream_new body seed key secret region time) in
  let ending := if decide (Ok [] ∈ rs) then [[]] else [] in
  ∃ last, carries build_chunk_params sign_chunk (existsb (λ r, negb (is_ok r)) rs) key secret region time
            seed (delivered rs ++ ending) last (concat (frame_bytes <$> body)).
Proof. apply (reads_carried build_chunk_params sign_chunk n (ChunkedBodyStream_new body seed key secret region time)); [by right|done]. Qed.

(** A forged last chunk is refused, and the chunk before it has been delivered. *)
Example reads_forged :
  reads count_params count_sign 3 (ChunkedBodyStream_new
    [DataFrame (str_bytes "1;chunk-signature=fa" ++ [x0d; x0a; x07; x0d; x0a]);
     DataFrame (str_bytes "0;chunk-signature=fb" ++ [x0d; x0a; x0d; x0a])] "f" "AK" "secret" "us-east-1" 0)
  = [Ok [x07]; Err (Decode "aws-chunked: chunk signature mismatch"); Err (Decode "aws-chunked: header missing ';'")].
Proof. vm_compute. reflexivity. Qed.

(** Reading to its end a body whose request declares a digest gives the body
    when the digest is right, and the mismatch error when it is not; letter
    case does not matter. *)
Theorem sha256_checked {St} `{ByteStream St} (sha256 : bytes → bytes) (inner : St) (body : bytes) (declared : string) (s : Sha256VerifyStream St) (fuel : nat)
    (Hnew : Sha256VerifyStream_new inner declared = Ok s) (Hy : yields inner body) (Hfuel : length body < fuel) :
  ∃ s', drain (H := Sha256VerifyStream_stream sha256) fuel s
        = Some (if decide (hex_encode (sha256 body) = str_bytes (to_ascii_lowercase declared)) then Ok body
                else Err (Decode "sha256 mismatch"), s').
Proof.
  unfold Sha256VerifyStream_new in Hnew. destruct (_ =? 64); [|done]. injection Hnew as <-.
  exact (sha256_drain sha256 fuel {| sv_inner := inner; sv_hasher := [] |} body eq_refl Hy Hfuel).
Qed.

(** A digest for the examples: the length, in 32 bytes. *)
Definition length_digest (b : bytes) : bytes := replicate 31 xab ++ [default x00 (Byte.of_nat (length b))].
Definition declared2 : string := of_bytes (hex_encode (length_digest [x01; x02])).
Lemma sha256_checked_witness : ∃ s s',
  Sha256VerifyStream_new {| frames := [[x01]; [x02]] |} declared2 = Ok s
  ∧ drain (H := Sha256VerifyStream_stream length_digest) 3 s = Some (Ok [x01; x02], s').
Proof.
  eexists. destruct (sha256_checked length_digest {| frames := [[x01]; [x02]] |} [x01; x02] declared2 _ 3 eq_refl)
    as (s' & Hs').
  - split; [by repeat constructor|reflexivity].
  - simpl. lia.
  - exists s'. split; [reflexivity|]. exact Hs'.
Defined.
