(* ===== verification/EcStream.v ===== *)
(** * The striped data path of the engine

    The write side and the read side of erasure-coded objects in
    [openlake_storage/src/engine.rs]: [encode_and_write_stripes], the decoding
    stream [EcReadStream] and [open_ec_part_stream].  [None] is a panic.  The
    codec and the MD5 digest are parameters. *)

From stdpp Require Import base gmap strings list pretty.
From S2P Require Import Prelude Types Ec Streams.

Section write.
Context {St K : Type} `{ByteStream St} `{ByteSink K}.
Context (c : RsCodec) (md5_hex : bytes → string).

(** The inner loop of [encode_and_write_stripes]: [buf] is the filled part of
    the stripe buffer, [carry] the rest of the last chunk. *)
Fixpoint fill_loop (fuel want consumed size : nat) (buf carry : bytes) (src : St) :
    option (IoResult (bytes * bytes) * St) :=
  if length buf <? want then
    match fuel with
    | 0 => None
    | S fuel =>
        '(r, src) ← (match carry with [] => read src | _ => Some (Ok carry, src) end);
        match r with
        | Err e => Some (Err e, src)
        | Ok [] => Some (Err (eof_error "EC put: source ended at " (consumed + length buf) size), src)
        | Ok carry =>
            let take_n := Nat.min (want - length buf) (length carry) in
            fill_loop fuel want consumed size (buf ++ take take_n carry) (drop take_n carry) src
        end
    end
  else Some (Ok (buf, carry), src).

(** The fan-out of one stripe's shards: every sink gets its shard, the first
    failure in slot order is reported.  The sinks are dropped after a failure;
    what they have done stays done, so the model returns them in both cases. *)
Definition first_err (rs : list (IoResult unit)) : option IoError :=
  head (omap (λ r, match r with Err e => Some e | Ok _ => None end) rs).
Definition write_shards (shards : list bytes) (sinks : list K) : IoResult unit * list K :=
  let out := zip_with (λ k shard, write_all shard k) sinks shards in
  (match first_err out.*1 with Some e => Err e | None => Ok () end, out.*2 ++ drop (length shards) sinks).

(** The stripe loop; [hashed] is what the MD5 hasher was fed. *)
Fixpoint stripe_loop (ec : Erasure) (size stripe_data stripes consumed : nat) (hashed carry : bytes)
    (src : St) (sinks : list K) : option (IoResult bytes * list K * St) :=
  match stripes with
  | 0 => Some (Ok hashed, sinks, src)
  | S stripes =>
      let want := Nat.min (size - consumed) stripe_data in
      '(r, src) ← fill_loop want want consumed size [] carry src;
      match r with
      | Err e => Some (Err e, sinks, src)
      | Ok (buf, carry) =>
          let stripe := buf ++ replicate (stripe_data - want) x00 in
          match encode_stripe c ec stripe with
          | Err e => Some (Err (InvalidArgument ("EC encode: " +:+ io_msg e)), sinks, src)
          | Ok shards =>
              match write_shards shards sinks with
              | (Err e, sinks) => Some (Err e, sinks, src)
              | (Ok _, sinks) => stripe_loop ec size stripe_data stripes (consumed + want) (hashed ++ buf) carry src sinks
              end
          end
      end
  end.

Definition encode_and_write_stripes (ec : Erasure) (src : St) (size stripe_data stripes : nat)
    (sinks : list K) : option (IoResult string * list K * St) :=
  '(r, sinks, src) ← stripe_loop ec size stripe_data stripes 0 [] [] src sinks;
  Some (match r with Ok hashed => Ok (md5_hex hashed) | Err e => Err e end, sinks, src).
End write.

(** [div_ceil]. *)
Definition div_ceil (a b : nat) : nat := (a + b - 1) / b.

Section read_side.
Context {St : Type} `{ByteStream St}.
Context (c : RsCodec).

Record EcReadStream := {
  er_ec : Erasure;
  sources : list (option St);
  source_carries : list bytes;
  stripes_remaining : nat;
  stripe_unit : nat;
  er_data_shards : nat;
  er_parity_shards : nat;
  total_remaining : nat;
  decoded : list bytes;
  decode_shard : nat;
  shard_pos : nat;
  er_bucket : string;
  er_key : string
}.

(** The future of one source in [refill]: its shard when it could be read, the
    source when it is still usable, and the bytes read past the shard. *)
Fixpoint pull_loop (fuel unit : nat) (buf carry : bytes) (src : St) :
    option (option St * option bytes * bytes * option IoError) :=
  if length buf <? unit then
    match fuel with
    | 0 => None
    | S fuel =>
        '(r, src) ← read src;
        match r with
        | Err e => Some (None, None, carry, Some e)
        | Ok [] => Some (Some src, None, carry, None)
        | Ok chunk =>
            let take_n := Nat.min (unit - length buf) (length chunk) in
            pull_loop fuel unit (buf ++ take take_n chunk)
              (if take_n <? length chunk then drop take_n chunk else carry) src
        end
    end
  else Some (Some src, if length buf =? unit then Some buf else None, carry, None).

Definition pull (unit : nat) (carry : bytes) (src : St) :=
  let take_n := Nat.min unit (length carry) in
  pull_loop unit unit (take take_n carry) (drop take_n carry) src.

(** What [refill] keeps of one slot: the source, its carry and its shard. *)
Definition pull_slot (unit : nat) (slot : option St) (carry : bytes) :
    option (option St * bytes * option bytes) :=
  match slot with
  | None => Some (None, carry, None)
  | Some src =>
      '(src_opt, shard, carry, err) ← pull unit carry src;
      Some (match err, shard with
            | None, Some shard => (src_opt, carry, Some shard)
            | _, _ => (None, carry, None)
            end)
  end.

Definition refill (st : EcReadStream) : option (IoResult unit * EcReadStream) :=
  let unit := stripe_unit st in
  results ← mapM (λ sc : option St * bytes, pull_slot unit sc.1 sc.2) (zip (sources st) (source_carries st));
  let sources' := (λ r : option St * bytes * option bytes, r.1.1) <$> results in
  let carries' := (λ r : option St * bytes * option bytes, r.1.2) <$> results in
  let shard_opts := (λ r : option St * bytes * option bytes, r.2) <$> results in
  let with_decoded d k p n :=
    {| er_ec := er_ec st; sources := sources'; source_carries := carries';
       stripes_remaining := n; stripe_unit := unit; er_data_shards := er_data_shards st;
       er_parity_shards := er_parity_shards st; total_remaining := total_remaining st;
       decoded := d; decode_shard := k; shard_pos := p;
       er_bucket := er_bucket st; er_key := er_key st |} in
  let kept := with_decoded (decoded st) (decode_shard st) (shard_pos st) (stripes_remaining st) in
  if present shard_opts <? er_data_shards st then
    Some (Err (FileNotFound (er_bucket st) (er_key st +:+ "/part.1")), kept)
  else match decode_stripe c (er_ec st) shard_opts unit with
  | Err e => Some (Err (InvalidArgument ("EC decode: " +:+ io_msg e)), kept)
  | Ok d => Some (Ok tt, with_decoded d 0 0 (stripes_remaining st - 1))
  end.

Definition sum_lengths (l : list bytes) : nat := foldr (λ s r, length s + r) 0 l.

Definition stripe_remaining_bytes (st : EcReadStream) : nat :=
  match drop (decode_shard st) (decoded st) with
  | [] => 0
  | shard :: rest => length shard - shard_pos st + sum_lengths rest
  end.

Definition set_position (total k p : nat) (st : EcReadStream) : EcReadStream :=
  {| er_ec := er_ec st; sources := sources st; source_carries := source_carries st;
     stripes_remaining := stripes_remaining st; stripe_unit := stripe_unit st;
     er_data_shards := er_data_shards st; er_parity_shards := er_parity_shards st;
     total_remaining := total; decoded := decoded st; decode_shard := k; shard_pos := p;
     er_bucket := er_bucket st; er_key := er_key st |}.

(** The tail of [EcReadStream::read]: serve from the current shard. *)
Definition serve_shard (st : EcReadStream) : option (IoResult bytes * EcReadStream) :=
  shard ← decoded st !! decode_shard st;
  let avail := length shard - shard_pos st in
  let serve := Nat.min avail (total_remaining st) in
  let frame := take serve (drop (shard_pos st) shard) in
  let pos := shard_pos st + serve in
  let total := total_remaining st - serve in
  Some (Ok frame,
        if pos =? length shard then set_position total (S (decode_shard st)) 0 st
        else set_position total (decode_shard st) pos st).

Definition ec_read (st : EcReadStream) : option (IoResult bytes * EcReadStream) :=
  if total_remaining st =? 0 then Some (Ok [], st)
  else if stripe_remaining_bytes st =? 0 then
    if stripes_remaining st =? 0 then Some (Ok [], st)
    else
      '(r, st) ← refill st;
      match r with Err e => Some (Err e, st) | Ok _ => serve_shard st end
  else serve_shard st.

(** [open_ec_part_stream] over backends given by their [read_file_stream];
    [stripes - start_stripe] and the remaining size are unsigned, and
    [start_stripe] is a stripe of the part. *)
Definition open_ec_part_stream (backends : list (string → string → nat → nat → IoResult St))
    (bucket key part_path : string) (actual_size block_size unit data_shards parity_shards : nat)
    (ec : Erasure) (start_stripe : nat) : StorageResult EcReadStream :=
  let stripes := Nat.max (div_ceil actual_size block_size) 1 in
  let shard_off := start_stripe * unit in
  let shard_len := (stripes - start_stripe) * unit in
  let sources := (λ b, res_ok (b bucket part_path shard_off shard_len)) <$> backends in
  let ok_count := length (filter (λ s : option St, is_Some s) sources) in
  if ok_count <? data_shards then Err (ObjectNotFound bucket key)
  else Ok {|
    er_ec := ec; sources := sources; source_carries := replicate (length sources) [];
    stripes_remaining := stripes - start_stripe; stripe_unit := unit;
    er_data_shards := data_shards; er_parity_shards := parity_shards;
    total_remaining := actual_size - start_stripe * block_size;
    decoded := []; decode_shard := 0; shard_pos := 0; er_bucket := bucket; er_key := key |}.
End read_side.
Arguments EcReadStream : clear implicits.

(** ** Stripes and shard files

    The reference for the layout: an object is cut into stripes of [sd] bytes,
    the last one padded with zeros; shard file [i] is the concatenation of shard
    [i] of every stripe. *)
Definition pad (sd : nat) (l : bytes) : bytes := l ++ replicate (sd - length l) x00.
Fixpoint stripes_of (sd k : nat) (data : bytes) : list bytes :=
  match k with
  | 0 => []
  | S k => pad sd (take sd data) :: stripes_of sd k (drop sd data)
  end.
Definition codeword (c : RsCodec) (ec : Erasure) (stripe : bytes) : list bytes :=
  match encode_stripe c ec stripe with Ok shards => shards | Err _ => [] end.
Definition shard_file (c : RsCodec) (ec : Erasure) (i : nat) (ss : list bytes) : bytes :=
  concat ((λ s, default [] (codeword c ec s !! i)) <$> ss).

(** ** The write side lays out the shard files *)

Lemma length_pad sd l : length l ≤ sd → length (pad sd l) = sd.
Proof. intros. unfold pad. rewrite length_app, length_replicate. lia. Qed.

Lemma stripes_of_length sd k data : Forall (λ s, length s = sd) (stripes_of sd k data).
Proof.
  revert data. induction k as [|k IH]; intros data; simpl; constructor; [|apply IH].
  apply length_pad. rewrite length_take. lia.
Qed.

Lemma length_stripes_of sd k data : length (stripes_of sd k data) = k.
Proof. revert data. induction k as [|k IH]; intros data; simpl; [done|]. by rewrite IH. Qed.

(** The stripes carry the data, then padding. *)
Lemma concat_stripes_of sd k data : length data ≤ k * sd →
  ∃ z, concat (stripes_of sd k data) = data ++ z.
Proof.
  revert data. induction k as [|k IH]; intros data Hl; simpl in *.
  - exists []. destruct data; [done|simpl in Hl; lia].
  - unfold pad. destruct (Nat.le_ge_cases (length data) sd) as [Hle|Hge].
    + rewrite (take_ge data) by done. rewrite <-app_assoc. by eexists.
    + rewrite length_take, Nat.min_l, Nat.sub_diag by done. simpl. rewrite app_nil_r.
      destruct (IH (drop sd data)) as [z ->]; [rewrite length_drop; lia|].
      exists z. by rewrite app_assoc, take_drop.
Qed.

Section write_lemmas.
Context {St K : Type} `{ByteStream St} `{ByteSink K}.
Context (c : RsCodec) (ec : Erasure) (unit : nat).
Context (Hmds : rs_mds c (data_shards ec) (parity_shards ec) unit).
Context (Hn : 0 < data_shards ec) (Hunit : 0 < unit) (Heven : unit mod 2 = 0).

Lemma fill_loop_yields fuel want consumed size buf carry (src : St) rest :
  yields src rest → length buf ≤ want → want - length buf ≤ fuel →
  want - length buf ≤ length (carry ++ rest) →
  ∃ carry' src' rest',
    fill_loop fuel want consumed size buf carry src
      = Some (Ok (buf ++ take (want - length buf) (carry ++ rest), carry'), src')
    ∧ yields src' rest' ∧ carry' ++ rest' = drop (want - length buf) (carry ++ rest).
Proof.
  revert buf carry src rest. induction fuel as [|fuel IH]; intros buf carry src rest Hy Hb Hf Hl; simpl.
  { rewrite (proj2 (Nat.ltb_ge _ _)) by lia. replace (want - length buf) with 0 by lia.
    rewrite take_0, app_nil_r, drop_0. by eexists _, _, _. }
  destruct (Nat.ltb_spec (length buf) want) as [Hlt|Hge]; cycle 1.
  { replace (want - length buf) with 0 by lia. rewrite take_0, app_nil_r, drop_0. by eexists _, _, _. }
  assert (∃ ch src1 rest1, match carry with [] => read src | _ :: _ => Some (Ok carry, src) end
    = Some (Ok ch, src1) ∧ ch ≠ [] ∧ yields src1 rest1 ∧ carry ++ rest = ch ++ rest1)
    as (ch & src1 & rest1 & -> & Hne & Hy1 & Heq).
  { destruct carry as [|b carry]; [|by eexists _, _, _].
    destruct (read_yields _ _ Hy) as (ch & rest1 & src1 & Hr & -> & Hy1 & Hend).
    exists ch, src1, rest1. split_and!; try done. intros ->. rewrite (Hend eq_refl) in Hl. simpl in Hl. lia. }
  rewrite Heq in *. clear Heq. simpl. pose proof (cons_length_pos _ Hne). take_chunk ch.
  set (k := Nat.min (want - length buf) (length ch)).
  assert (length (buf ++ take k ch) = length buf + k) as Hlen by (rewrite length_app, length_take; lia).
  rewrite length_app in Hl.
  destruct (IH (buf ++ take k ch) (drop k ch) src1 rest1 Hy1) as (carry' & src' & rest' & Hrun & Hy' & Heq').
  - lia.
  - lia.
  - rewrite Hlen, length_app, length_drop. lia.
  - assert (want - length buf = k + (want - (length buf + k))) as Hk by lia.
    rewrite Hlen in *. exists carry', src', rest'. rewrite Hrun, Hk.
    rewrite <-take_take_drop, <-drop_drop, (take_app_le ch), (drop_app_le ch) by lia.
    split_and!; [|done|done]. by rewrite <-app_assoc.
Qed.

(** One stripe's shards reach their sinks. *)
Lemma write_shards_ok shards (sinks sinks' : list K) :
  length shards = length sinks → write_shards shards sinks = (Ok (), sinks') →
  length sinks' = length sinks
  ∧ ∀ i k s, sinks !! i = Some k → shards !! i = Some s →
      ∃ k', sinks' !! i = Some k' ∧ written k' = written k ++ s.
Proof.
  intros Hl. unfold write_shards. set (out := zip_with _ sinks shards). cbn zeta.
  assert (length out = length sinks) as Hlo by (unfold out; rewrite length_zip_with; lia).
  destruct (first_err out.*1) as [e|] eqn:Ef; [done|]. intros [= <-].
  rewrite drop_ge, app_nil_r by lia. split; [by rewrite length_fmap|].
  intros i k s Hk Hs. assert (out !! i = Some (write_all s k)) as Ho.
  { unfold out. rewrite lookup_zip_with, Hk, Hs. done. }
  rewrite list_lookup_fmap, Ho. simpl. eexists. split; [done|].
  destruct (write_all s k) as [[[]|e] k'] eqn:Ew; [by apply write_all_ok|]. exfalso.
  assert (e ∈ omap (λ r : IoResult (), match r with Ok _ => None | Err e0 => Some e0 end) out.*1) as Hin.
  { apply list_elem_of_omap. exists (Err e). split; [|done]. apply list_elem_of_fmap.
    exists (Err e, k'). split; [done|]. by eapply list_elem_of_lookup_2. }
  unfold first_err in Ef. apply head_None in Ef. rewrite Ef in Hin. by apply elem_of_nil in Hin.
Qed.

Lemma codeword_ok stripe : length stripe = data_shards ec * unit →
  encode_stripe c ec stripe = Ok (codeword c ec stripe)
  ∧ length (codeword c ec stripe) = data_shards ec + parity_shards ec
  ∧ Forall (λ s, length s = unit) (codeword c ec stripe).
Proof.
  intros Hl. unfold codeword.
  destruct (encode_stripe_ok c ec unit Hmds Hn Hunit Heven stripe Hl) as (parity & -> & Hp & Hall).
  split_and!; [done| |done]. by rewrite length_app, length_slices, Hp.
Qed.

(** Every sink moves on only by the writes it is given, whatever the outcome. *)
Lemma write_shards_history (R : K → K → Prop) `{!Reflexive R} shards (sinks : list K) :
  (∀ s k, R k (write_all s k).2) → Forall2 R sinks (write_shards shards sinks).2.
Proof.
  intros Hw. unfold write_shards. cbn [snd]. revert shards.
  induction sinks as [|k sinks IH]; intros [|s shards]; cbn; [constructor..| |].
  - constructor; [done|]. by apply Forall_Forall2_diag, Forall_true.
  - constructor; [apply Hw|apply IH].
Qed.

Lemma stripe_loop_history (R : K → K → Prop) `{!PreOrder R} size sd stripes consumed hashed carry (src : St) (sinks : list K) r sinks' src' :
  (∀ s k, R k (write_all s k).2) →
  stripe_loop c ec size sd stripes consumed hashed carry src sinks = Some (r, sinks', src') → Forall2 R sinks sinks'.
Proof.
  intros Hw. revert consumed hashed carry src sinks. induction stripes as [|stripes IH]; intros consumed hashed carry src sinks; cbn [stripe_loop].
  { intros [= _ <- _]. by apply Forall_Forall2_diag, Forall_true. }
  destruct (fill_loop _ _ _ _ _ _ _) as [[[[buf carry']|e] src1]|]; [| |done]; cbn [mbind option_bind];
    [|intros [= _ <- _]; by apply Forall_Forall2_diag, Forall_true].
  destruct (encode_stripe _ _ _) as [shards|e]; [|intros [= _ <- _]; by apply Forall_Forall2_diag, Forall_true].
  pose proof (write_shards_history R shards sinks Hw) as Hh. destruct (write_shards shards sinks) as [[u|e] sinks1]; cbn [snd] in Hh;
    [|by intros [= _ <- _]]. intros H1%IH. by etrans.
Qed.

Lemma stripe_loop_spec size stripes consumed hashed carry (src : St) rest (sinks : list K) :
  let sd := data_shards ec * unit in
  yields src rest → consumed ≤ size → size - consumed ≤ length (carry ++ rest) →
  size - consumed ≤ stripes * sd →
  length sinks = data_shards ec + parity_shards ec →
  let todo := take (size - consumed) (carry ++ rest) in
  ∃ r sinks' src', stripe_loop c ec size sd stripes consumed hashed carry src sinks = Some (r, sinks', src')
    ∧ match r with
      | Ok hashed' =>
          hashed' = hashed ++ todo ∧ length sinks' = length sinks
          ∧ ∀ i k, sinks !! i = Some k → ∃ k', sinks' !! i = Some k'
              ∧ written k' = written k ++ shard_file c ec i (stripes_of sd stripes todo)
      | Err e => ∃ shards ks, (write_shards shards (ks : list K)).1 = Err e
      end.
Proof.
  intros sd. revert consumed hashed carry src rest sinks.
  induction stripes as [|stripes IH]; intros consumed hashed carry src rest sinks Hy Hc Hl Hs Hk todo; cbn [stripe_loop].
  { eexists _, _, _. split; [done|]. simpl. subst todo. replace (size - consumed) with 0 by lia.
    rewrite take_0, app_nil_r. split_and!; try done. intros i k Hi. exists k. by rewrite app_nil_r. }
  set (want := Nat.min (size - consumed) sd).
  destruct (fill_loop_yields want want consumed size [] carry src rest Hy)
    as (carry' & src' & rest' & Hfill & Hy' & Heq); [simpl; lia..|].
  simpl in Hfill, Heq. rewrite Nat.sub_0_r in Hfill, Heq. rewrite Hfill. cbn [mbind option_bind].
  set (R := carry ++ rest) in *. assert (length (take want R) = want) as Hlw by (rewrite length_take; lia).
  assert (take want R = take sd todo) as Htake.
  { unfold todo. rewrite take_take, (Nat.min_comm sd). done. }
  assert (take want R ++ replicate (sd - want) x00 = pad sd (take sd todo)) as Hstripe.
  { unfold pad. by rewrite <-Htake, Hlw. }
  rewrite Hstripe. destruct (codeword_ok (pad sd (take sd todo))) as (-> & Hlc & _).
  { apply length_pad. rewrite length_take. lia. }
  destruct (write_shards (codeword c ec (pad sd (take sd todo))) sinks) as [[[]|e] sinks1] eqn:Ew; cycle 1.
  { eexists (Err e), sinks1, src'. split; [done|]. exists (codeword c ec (pad sd (take sd todo))), sinks. by rewrite Ew. }
  destruct (write_shards_ok (codeword c ec (pad sd (take sd todo))) sinks sinks1 ltac:(lia) Ew) as [Hl1 Hw1].
  destruct (IH (consumed + want) (hashed ++ take want R) carry' src' rest' sinks1) as (r & sinks' & src'' & -> & Hr);
    [done|lia|rewrite Heq, length_drop; lia|lia|lia|].
  assert (take (size - (consumed + want)) (carry' ++ rest') = drop sd todo) as Htodo.
  { rewrite Heq. unfold todo. rewrite Nat.sub_add_distr. unfold want. rewrite skipn_firstn_comm.
    destruct (Nat.le_ge_cases (size - consumed) sd).
    - rewrite Nat.min_l, Nat.sub_diag by done. by replace (size - consumed - sd) with 0 by lia.
    - by rewrite Nat.min_r by done. }
  rewrite Htodo in Hr. exists r, sinks', src''. split; [done|].
  destruct r as [hashed'|e]; [|done]. destruct Hr as (-> & Hl' & Hw'). split_and!.
  - rewrite <-app_assoc. f_equal. rewrite Htake. apply take_drop.
  - lia.
  - intros i k Hi. destruct (lookup_lt_is_Some_2 (codeword c ec (pad sd (take sd todo))) i) as [s Hs'].
    { apply lookup_lt_Some in Hi. lia. }
    destruct (Hw1 i k s Hi Hs') as (k1 & Hk1 & Hwk1). destruct (Hw' i k1 Hk1) as (k' & Hk' & Hwk').
    exists k'. split; [done|]. rewrite Hwk', Hwk1. unfold shard_file. cbn [stripes_of]. rewrite fmap_cons. cbn [concat].
    by rewrite Hs', <-app_assoc.
Qed.
End write_lemmas.

(** ** The read side decodes them *)

Lemma reliable_present {A} (reliable : list bool) (opts : list (option A)) :
  length reliable = length opts →
  (∀ i, reliable !! i = Some true → ∃ x, opts !! i = Some (Some x)) →
  length (filter (λ b, b = true) reliable) ≤ length (filter (λ o, is_Some o) opts).
Proof.
  revert opts. induction reliable as [|g gs IH]; intros [|o opts] Hl Ho; try done.
  specialize (IH opts ltac:(by injection Hl) (λ i, Ho (S i))).
  destruct g.
  - destruct (Ho 0 eq_refl) as [x Hx]. simpl in Hx. injection Hx as ->.
    rewrite !filter_cons_True by done. simpl. lia.
  - rewrite filter_cons_False by done. rewrite filter_cons. case_decide; simpl; lia.
Qed.

Lemma sum_lengths_concat l : sum_lengths l = length (concat l).
Proof. induction l as [|x l IH]; [done|]. simpl. by rewrite IH, length_app. Qed.

Lemma drop_cons_lookup {A} k (l : list A) x rest :
  drop k l = x :: rest → l !! k = Some x ∧ drop (S k) l = rest.
Proof.
  intros Hd. split.
  - rewrite <-(Nat.add_0_r k), <-lookup_drop, Hd. done.
  - replace (S k) with (k + 1) by lia. by rewrite <-drop_drop, Hd.
Qed.

Section read_lemmas.
Context {St : Type} `{ByteStream St}.
Context (c : RsCodec) (ec : Erasure) (unit : nat).
Context (Hmds : rs_mds c (data_shards ec) (parity_shards ec) unit).
Context (Hn : 0 < data_shards ec) (Hunit : 0 < unit) (Heven : unit mod 2 = 0).

Abbreviation n := (data_shards ec).
Abbreviation m := (parity_shards ec).

(** A reliable source delivers the shard; an unreliable one may stop. *)
Lemma pull_loop_yields fuel buf carry (src : St) rest :
  yields src rest → (length buf < unit → carry = []) → length buf ≤ unit → unit - length buf ≤ fuel →
  unit - length buf ≤ length rest →
  ∃ src' carry' rest',
    pull_loop fuel unit buf carry src
      = Some (Some src', Some (buf ++ take (unit - length buf) rest), carry', None)
    ∧ yields src' rest' ∧ carry' ++ rest' = carry ++ drop (unit - length buf) rest.
Proof.
  revert buf carry src rest. induction fuel as [|fuel IH]; intros buf carry src rest Hy Hc Hb Hf Hl; simpl.
  { rewrite (proj2 (Nat.ltb_ge _ _)), (proj2 (Nat.eqb_eq _ _)) by lia.
    replace (unit - length buf) with 0 by lia. rewrite take_0, app_nil_r, drop_0. by eexists _, _, _. }
  destruct (Nat.ltb_spec (length buf) unit) as [Hlt|Hge]; cycle 1.
  { rewrite (proj2 (Nat.eqb_eq _ _)) by lia. replace (unit - length buf) with 0 by lia.
    rewrite take_0, app_nil_r, drop_0. by eexists _, _, _. }
  rewrite (Hc Hlt) in *. destruct (read_yields _ _ Hy) as (ch & rest1 & src1 & -> & -> & Hy1 & Hend). simpl.
  assert (ch ≠ []) as Hne by (intros ->; rewrite (Hend eq_refl) in Hl; simpl in Hl; lia).
  pose proof (cons_length_pos _ Hne). take_chunk ch. rewrite length_app in Hl.
  set (k := Nat.min (unit - length buf) (length ch)).
  assert (length (buf ++ take k ch) = length buf + k) as Hlen by (rewrite length_app, length_take; lia).
  assert ((if k <? length ch then drop k ch else []) = drop k ch) as ->.
  { destruct (Nat.ltb_spec k (length ch)); [done|]. by rewrite drop_ge. }
  destruct (IH (buf ++ take k ch) (drop k ch) src1 rest1 Hy1) as (src' & carry' & rest' & Hrun & Hy' & Heq').
  - intros Hlt'. apply drop_ge. lia.
  - lia.
  - lia.
  - lia.
  - exists src', carry', rest'. rewrite Hlen in *.
    rewrite Hrun, take_app_window, <-app_assoc. fold k. rewrite Nat.sub_add_distr.
    split_and!; [done|done|]. rewrite Heq', (drop_app_window _ ch rest1). fold k. by rewrite Nat.sub_add_distr.
Qed.

Lemma pull_loop_serves fuel buf carry (src : St) rest :
  serves src rest → (length buf < unit → carry = []) → length buf ≤ unit → unit - length buf ≤ fuel →
  ∃ src_opt shard carry' err, pull_loop fuel unit buf carry src = Some (src_opt, shard, carry', err)
    ∧ (err = None → is_Some shard →
       ∃ src' rest', src_opt = Some src' ∧ shard = Some (buf ++ take (unit - length buf) rest)
         ∧ serves src' rest' ∧ carry' ++ rest' = carry ++ drop (unit - length buf) rest).
Proof.
  revert buf carry src rest. induction fuel as [|fuel IH]; intros buf carry src rest Hy Hc Hb Hf; simpl.
  { rewrite (proj2 (Nat.ltb_ge _ _)), (proj2 (Nat.eqb_eq _ _)) by lia.
    replace (unit - length buf) with 0 by lia. rewrite take_0, app_nil_r, drop_0.
    eexists _, _, _, _. split; [done|]. intros _ _. by eexists _, _. }
  destruct (Nat.ltb_spec (length buf) unit) as [Hlt|Hge]; cycle 1.
  { rewrite (proj2 (Nat.eqb_eq _ _)) by lia. replace (unit - length buf) with 0 by lia.
    rewrite take_0, app_nil_r, drop_0. eexists _, _, _, _. split; [done|]. intros _ _. by eexists _, _. }
  rewrite (Hc Hlt) in *. destruct (read_serves _ _ Hy) as (res & src1 & -> & Hres). simpl.
  destruct res as [ch|e]; [|eexists _, _, _, _; split; done].
  destruct (decide (ch = [])) as [->|Hne].
  { eexists _, _, _, _. split; [done|]. by intros _ [? [=]]. }
  destruct (Hres ch eq_refl Hne) as (rest1 & -> & Hy1).
  pose proof (cons_length_pos _ Hne). take_chunk ch.
  set (k := Nat.min (unit - length buf) (length ch)).
  assert (length (buf ++ take k ch) = length buf + k) as Hlen by (rewrite length_app, length_take; lia).
  assert ((if k <? length ch then drop k ch else []) = drop k ch) as ->.
  { destruct (Nat.ltb_spec k (length ch)); [done|]. by rewrite drop_ge. }
  destruct (IH (buf ++ take k ch) (drop k ch) src1 rest1 Hy1) as (so & sh & carry' & err & Hrun & Hok).
  - intros Hlt'. apply drop_ge. lia.
  - lia.
  - lia.
  - exists so, sh, carry', err. split; [done|]. intros He Hs.
    destruct (Hok He Hs) as (src' & rest' & -> & -> & Hs' & Heq'). exists src', rest'.
    rewrite Hlen in *. rewrite take_app_window, <-app_assoc. fold k. rewrite Nat.sub_add_distr in *.
    split_and!; [done|done|done|]. by rewrite Heq', (drop_app_window _ ch rest1).
Qed.

(** Slot [i] of the sources, with stripes [ss] still to come. *)
Definition slot_ok (reliable : bool) (i : nat) (ss : list bytes) (slot : option St) (carry : bytes) : Prop :=
  match slot with
  | None => reliable = false
  | Some s => ∃ rest, (if reliable then yields s rest else serves s rest)
                ∧ carry ++ rest = shard_file c ec i ss
  end.

Lemma shard_file_cons i s0 ss x : codeword c ec s0 !! i = Some x →
  shard_file c ec i (s0 :: ss) = x ++ shard_file c ec i ss.
Proof. intros Hx. unfold shard_file. rewrite fmap_cons. simpl. by rewrite Hx. Qed.

Lemma pull_slot_ok reliable i s0 ss slot carry x :
  codeword c ec s0 !! i = Some x → length x = unit →
  slot_ok reliable i (s0 :: ss) slot carry →
  ∃ slot' carry' sh, pull_slot unit slot carry = Some (slot', carry', sh)
    ∧ slot_ok reliable i ss slot' carry'
    ∧ (∀ y, sh = Some y → y = x) ∧ (reliable = true → sh = Some x).
Proof.
  intros Hx Hlx. destruct slot as [s|]; simpl; [|intros ->; by eexists _, _, _].
  intros (rest & Hy & Heq). rewrite (shard_file_cons _ _ _ _ Hx) in Heq.
  set (k := Nat.min unit (length carry)).
  assert (length (take k carry) = k) as Hlk by (rewrite length_take; lia).
  assert (length (take k carry) < unit → drop k carry = []) as Hc by (intros; apply drop_ge; lia).
  assert (∀ rest', take k carry ++ take (unit - k) rest' = take unit (carry ++ rest')) as Htk.
  { intros rest'. by rewrite take_app_window. }
  assert (drop k carry ++ drop (unit - k) rest = shard_file c ec i ss) as Hdr.
  { transitivity (drop unit (carry ++ rest)); [by rewrite drop_app_window|].
    rewrite Heq, drop_app_length'; done. }
  assert (take unit (carry ++ rest) = x) as Htx by (by rewrite Heq, take_app_length').
  unfold pull. fold k. destruct reliable.
  - destruct (pull_loop_yields unit (take k carry) (drop k carry) s rest Hy Hc) as (s' & carry' & rest' & -> & Hy' & Heq').
    + lia.
    + lia.
    + apply (f_equal length) in Heq. rewrite !length_app in Heq. lia.
    + rewrite Hlk, Htk, Htx in *. simpl. eexists _, _, _. split; [done|]. split_and!.
      * exists rest'. by rewrite Heq'.
      * by intros y [= ->].
      * done.
  - destruct (pull_loop_serves unit (take k carry) (drop k carry) s rest Hy Hc) as (so & sh & carry' & err & -> & Hok);
      [lia|lia|]. simpl. rewrite Hlk, Htk, Htx in *.
    destruct err as [e|]; [by eexists _, _, _|]. destruct sh as [y|]; [|by eexists _, _, _].
    destruct Hok as (s' & rest' & -> & [= ->] & Hs' & Heq'); [done|done|].
    eexists _, _, _. split; [done|]. split_and!; [|by intros y [= ->]|done].
    exists rest'. by rewrite Heq'.
Qed.

(** ** The invariant of the decoding stream *)

(** The sources: at least [n] of them reliable. *)
Definition sources_ok (st : EcReadStream St) (ss : list bytes) : Prop :=
  ∃ reliable : list bool,
    length reliable = n + m ∧ length (sources st) = n + m ∧ length (source_carries st) = n + m
    ∧ n ≤ length (filter (λ b, b = true) reliable)
    ∧ ∀ i g slot carry, reliable !! i = Some g → sources st !! i = Some slot →
        source_carries st !! i = Some carry → slot_ok g i ss slot carry.

Record ec_ok (st : EcReadStream St) (ss : list bytes) : Prop := {
  ok_ec : er_ec st = ec;
  ok_unit : stripe_unit st = unit;
  ok_data : er_data_shards st = n;
  ok_stripes : stripes_remaining st = length ss;
  ok_size : Forall (λ s, length s = n * unit) ss;
  ok_sources : sources_ok st ss;
  ok_shards : Forall (λ s, s ≠ []) (decoded st);
  ok_pos : match drop (decode_shard st) (decoded st) with
           | [] => shard_pos st = 0
           | shard :: _ => shard_pos st < length shard
           end
}.

(** What is decoded and not served yet. *)
Definition buffered (st : EcReadStream St) : bytes :=
  drop (shard_pos st) (concat (drop (decode_shard st) (decoded st))).

Lemma ne_of_length (s : bytes) : length s = unit → s ≠ [].
Proof. intros Hl ->. simpl in Hl. lia. Qed.

(** A refill decodes the next stripe, whichever sources have failed. *)
Lemma refill_ok st s0 ss : ec_ok st (s0 :: ss) →
  ∃ st', refill c st = Some (Ok tt, st') ∧ ec_ok st' ss
    ∧ total_remaining st' = total_remaining st ∧ buffered st' = s0.
Proof.
  intros []. destruct ok_sources0 as (reliable & Hlr & Hls & Hlc & Hrel & Hslot).
  apply Forall_cons in ok_size0 as [Hs0 Hss].
  destruct (codeword_ok c ec unit Hmds Hn Hunit Heven s0 Hs0) as (Henc & Hlcw & Hcw).
  unfold refill. rewrite ok_unit0, ok_data0, ok_ec0.
  destruct (mapM_lookup (λ sc : option St * bytes, pull_slot unit sc.1 sc.2)
    (λ i r, ∀ g, reliable !! i = Some g → slot_ok g i ss r.1.1 r.1.2
      ∧ (∀ y, r.2 = Some y → codeword c ec s0 !! i = Some y) ∧ (g = true → is_Some r.2))
    (zip (sources st) (source_carries st))) as (results & -> & Hlres & Hres).
  { intros i [slot carry] (Hi1 & Hi2)%lookup_zip_Some. simpl.
    pose proof (lookup_lt_Some _ _ _ Hi1) as Hlt.
    destruct (lookup_lt_is_Some_2 reliable i) as [g Hg]; [lia|].
    destruct (lookup_lt_is_Some_2 (codeword c ec s0) i) as [x Hx]; [lia|].
    destruct (pull_slot_ok g i s0 ss slot carry x Hx) as (slot' & carry' & sh & Hp & Hok & Hy & Hg').
    - by eapply (Forall_lookup_1 _ _ _ _ Hcw).
    - by apply (Hslot i).
    - exists (slot', carry', sh). split; [done|]. intros g' Hg''. assert (g' = g) as -> by congruence.
      simpl. split_and!; [done| |]. { intros y ->. by rewrite Hx, (Hy y eq_refl). }
      intros Ht. rewrite (Hg' Ht). done. }
  rewrite length_zip_with, Hls, Hlc, Nat.min_id in Hlres. simpl.
  set (opts := (λ r : option St * bytes * option bytes, r.2) <$> results) in *.
  assert (length opts = n + m) as Hlo by (unfold opts; by rewrite length_fmap).
  assert (∀ i r, results !! i = Some r → ∃ g, reliable !! i = Some g) as Hgs.
  { intros i r Hi%lookup_lt_Some. apply lookup_lt_is_Some_2. lia. }
  assert (n ≤ present opts) as Hpres.
  { etrans; [exact Hrel|]. apply reliable_present; [lia|]. intros i Hi.
    destruct (lookup_lt_is_Some_2 results i) as [r Hr]; [apply lookup_lt_Some in Hi; lia|].
    destruct (Hres i r Hr true Hi) as (_ & _ & Hsh). destruct Hsh as [y Hy]; [done|].
    exists y. unfold opts. by rewrite list_lookup_fmap, Hr, <-Hy. }
  rewrite (proj2 (Nat.ltb_ge _ _) Hpres).
  rewrite (decode_encode c ec unit Hmds Hn Hunit Heven s0 (codeword c ec s0) opts); [|done|done|done| |done]; cycle 1.
  { intros i y Hi. unfold opts in Hi. rewrite list_lookup_fmap in Hi.
    apply fmap_Some in Hi as (r & Hr & Hy). destruct (Hgs i r Hr) as [g Hg].
    destruct (Hres i r Hr g Hg) as (_ & Hyy & _). by apply Hyy. }
  pose proof (slices_unit n unit s0 Hs0) as Hsl. eexists. split; [done|].
  split; [|split; [done|by apply concat_slices]].
  split; simpl; try done.
  - by rewrite ok_stripes0, length_cons, Nat.sub_1_r.
  - exists reliable. simpl. rewrite !length_fmap. split_and!; try done.
    intros i g slot carry Hg (r & -> & Hr)%list_lookup_fmap_Some (r' & -> & Hr')%list_lookup_fmap_Some.
    assert (r' = r) as -> by congruence. apply (Hres i r Hr g Hg).
  - eapply Forall_impl; [exact Hsl|]. apply ne_of_length.
  - rewrite drop_0. destruct (slices n unit s0) as [|shard rest] eqn:Es; [done|].
    apply Forall_cons in Hsl as [Hsh _]. lia.
Qed.

Lemma length_buffered st ss : ec_ok st ss → stripe_remaining_bytes st = length (buffered st).
Proof.
  intros []. unfold stripe_remaining_bytes, buffered.
  destruct (drop (decode_shard st) (decoded st)) as [|shard rest]; simpl.
  - by rewrite drop_nil.
  - rewrite sum_lengths_concat, length_drop, length_app. lia.
Qed.

(** Serving takes the next bytes of the decoded stripe. *)
Lemma serve_shard_ok st ss : ec_ok st ss → 0 < total_remaining st → buffered st ≠ [] →
  ∃ frame st', serve_shard st = Some (Ok frame, st') ∧ ec_ok st' ss ∧ frame ≠ []
    ∧ buffered st = frame ++ buffered st'
    ∧ total_remaining st = length frame + total_remaining st'.
Proof.
  intros Hok Ht Hb. pose proof Hok as []. unfold serve_shard, buffered in *.
  destruct (drop (decode_shard st) (decoded st)) as [|shard rest] eqn:Ed; [simpl in Hb; by rewrite drop_nil in Hb|].
  destruct (drop_cons_lookup _ _ _ _ Ed) as [-> Hnext]. simpl.
  set (serve := Nat.min (length shard - shard_pos st) (total_remaining st)).
  assert (length (take serve (drop (shard_pos st) shard)) = serve) as Hls
    by (rewrite length_take, length_drop; lia).
  eexists _, _. split; [done|].
  assert (take serve (drop (shard_pos st) shard) ≠ []) as Hne.
  { intros He. rewrite He in Hls. simpl in Hls. lia. }
  rewrite drop_app_le by lia. rewrite Hls.
  destruct (Nat.eqb_spec (shard_pos st + serve) (length shard)) as [He|He]; simpl; split_and!; try done; try lia.
  - destruct Hok. split; simpl; try done. rewrite Hnext. destruct rest as [|x rest]; [done|].
    assert (x ∈ decoded st) as Hx.
    { rewrite <-(take_drop (decode_shard st) (decoded st)), Ed. apply elem_of_app. right. right. left. }
    rewrite Forall_forall in ok_shards1. by apply cons_length_pos, ok_shards1.
  - rewrite Hnext, drop_0, (take_ge (drop _ _)); [done|]. rewrite length_drop. lia.
  - destruct Hok. split; simpl; try done. rewrite Ed. lia.
  - rewrite Ed. simpl. rewrite (drop_app_le shard) by lia. rewrite app_assoc. f_equal.
    rewrite <-(take_drop serve (drop (shard_pos st) shard)) at 1. by rewrite drop_drop.
Qed.

(** What the stream delivers. *)
Definition ec_yields (st : EcReadStream St) (out : bytes) : Prop :=
  ∃ ss, ec_ok st ss ∧ out = take (total_remaining st) (buffered st ++ concat ss).

Lemma ec_read_serve st ss : ec_ok st ss → 0 < total_remaining st → buffered st ≠ [] →
  ∃ chunk rest st', serve_shard st = Some (Ok chunk, st')
    ∧ take (total_remaining st) (buffered st ++ concat ss) = chunk ++ rest ∧ ec_yields st' rest
    ∧ (chunk = [] → rest = []).
Proof.
  intros Hok Ht Hb. destruct (serve_shard_ok st ss Hok Ht Hb) as (frame & st' & -> & Hok' & Hne & Hbuf & Htot).
  exists frame, (take (total_remaining st') (buffered st' ++ concat ss)), st'.
  split_and!; [done| |by exists ss|done].
  rewrite Hbuf, Htot, <-app_assoc. by rewrite take_app_add.
Qed.

Lemma ec_read_yields st out : ec_yields st out →
  ∃ chunk rest st', ec_read c st = Some (Ok chunk, st') ∧ out = chunk ++ rest ∧ ec_yields st' rest
    ∧ (chunk = [] → rest = []).
Proof.
  intros (ss & Hok & ->). unfold ec_read.
  destruct (Nat.eqb_spec (total_remaining st) 0) as [Ht|Ht].
  { exists [], [], st. rewrite Ht. split_and!; try done. exists ss. by rewrite Ht. }
  rewrite (length_buffered _ _ Hok).
  destruct (Nat.eqb_spec (length (buffered st)) 0) as [Hb|Hb].
  - apply length_zero_iff_nil in Hb. rewrite (ok_stripes _ _ Hok). destruct ss as [|s0 ss]; simpl.
    + exists [], [], st. rewrite Hb. simpl. rewrite take_nil. split_and!; try done.
      exists []. rewrite Hb. simpl. by rewrite take_nil.
    + destruct (refill_ok st s0 ss Hok) as (st1 & -> & Hok1 & Ht1 & Hb1). simpl.
      rewrite Hb, <-Ht1, <-Hb1. simpl. apply ec_read_serve; [done|lia|].
      rewrite Hb1. apply (ok_size _ _) in Hok. apply Forall_cons in Hok as [Hl _].
      intros ->. simpl in Hl. nia.
  - apply ec_read_serve; [done|lia|]. intros He. by rewrite He in Hb.
Qed.
End read_lemmas.

(** ** Opening a part *)

Section open.
Context {St : Type} `{ByteStream St}.
Context (c : RsCodec).

Definition layout_ok (ec : Erasure) (unit : nat) : Prop :=
  rs_mds c (data_shards ec) (parity_shards ec) unit
  ∧ 0 < data_shards ec ∧ 0 < unit ∧ unit mod 2 = 0.

Definition ec_stream_yields (st : EcReadStream St) (out : bytes) : Prop :=
  layout_ok (er_ec st) (stripe_unit st) ∧ ec_yields c (er_ec st) (stripe_unit st) st out.

Lemma ec_stream_read st out : ec_stream_yields st out →
  ∃ chunk rest st', ec_read c st = Some (Ok chunk, st') ∧ out = chunk ++ rest ∧ ec_stream_yields st' rest
    ∧ (chunk = [] → rest = []).
Proof.
  intros [(Hm & Hn & Hu & He) Hy].
  destruct (ec_read_yields c (er_ec st) (stripe_unit st) Hm Hn Hu He st out Hy)
    as (chunk & rest & st' & Hr & -> & Hy' & Hend).
  exists chunk, rest, st'. split_and!; try done.
  destruct Hy' as (ss & Hok & Hrest). pose proof (ok_ec _ _ _ _ _ Hok) as E1.
  pose proof (ok_unit _ _ _ _ _ Hok) as E2. unfold ec_stream_yields. rewrite E1, E2.
  split; [done|]. by exists ss.
Qed.

#[global] Program Instance EcReadStream_stream : ByteStream (EcReadStream St) := {|
  read st := ec_read c st;
  yields := ec_stream_yields;
  serves := ec_stream_yields;
  read_yields := ec_stream_read
|}.
Next Obligation.
  intros st out Hy. destruct (ec_stream_read st out Hy) as (chunk & rest & st' & Hr & -> & Hy' & _).
  exists (Ok chunk), st'. split; [done|]. intros ch [= <-] _. by exists rest.
Qed.

(** What a backend must do for the reader: a reliable one streams the requested
    bytes of its file; an unreliable one may refuse, or stop anywhere. *)
Definition serves_file (reliable : bool) (opened : IoResult St) (file : bytes) (off len : nat) : Prop :=
  match opened with
  | Ok s => if reliable then yields s (take len (drop off file)) else serves s (take len (drop off file))
  | Err _ => reliable = false
  end.

Lemma shard_file_drop ec unit i ss start :
  (∀ s, s ∈ ss → ∃ x, codeword c ec s !! i = Some x ∧ length x = unit) →
  drop (start * unit) (shard_file c ec i ss) = shard_file c ec i (drop start ss)
  ∧ length (shard_file c ec i ss) = length ss * unit.
Proof.
  revert start. induction ss as [|s ss IH]; intros start Hs.
  { rewrite !drop_nil. split; [|done]. apply drop_nil. }
  destruct (Hs s) as (x & Hx & Hl); [left|]. rewrite (shard_file_cons c ec _ _ _ _ Hx).
  assert (∀ s, s ∈ ss → ∃ x, codeword c ec s !! i = Some x ∧ length x = unit) as Hs'
    by (intros s' ?; apply Hs; by right).
  split.
  - destruct start as [|start]; [simpl; by rewrite (shard_file_cons c ec _ _ _ _ Hx)|]. simpl.
    rewrite <-drop_drop, drop_app_length' by done. by apply IH.
  - rewrite length_app, Hl, (proj2 (IH 0 Hs')). simpl. lia.
Qed.

Lemma stripes_cover ec unit size : layout_ok ec unit →
  size ≤ Nat.max (div_ceil size (data_shards ec * unit)) 1 * (data_shards ec * unit).
Proof.
  intros (_ & Hn & Hu & _). set (sd := data_shards ec * unit). assert (0 < sd) by (unfold sd; nia).
  unfold div_ceil. pose proof (Nat.div_mod (size + sd - 1) sd ltac:(lia)).
  pose proof (Nat.mod_upper_bound (size + sd - 1) sd ltac:(lia)). nia.
Qed.

Lemma concat_drop sd k (ss : list bytes) :
  Forall (λ s, length s = sd) ss → concat (drop k ss) = drop (k * sd) (concat ss).
Proof.
  revert k. induction ss as [|s ss IH]; intros k Hs; [simpl; by rewrite !drop_nil|].
  apply Forall_cons in Hs as [Hl Hs]. destruct k as [|k]; [done|]. simpl.
  rewrite <-drop_drop, drop_app_length' by done. by apply IH.
Qed.

(** Opening a part at a stripe: the stream delivers the part from there. *)
Lemma open_ec_part_ok ec unit bucket key path data backends (reliable : list bool) start :
  let sd := data_shards ec * unit in
  let stripes := Nat.max (div_ceil (length data) sd) 1 in
  layout_ok ec unit → start < stripes → start * sd ≤ length data →
  length backends = data_shards ec + parity_shards ec →
  length reliable = data_shards ec + parity_shards ec →
  data_shards ec ≤ length (filter (λ b, b = true) reliable) →
  (∀ i g b, reliable !! i = Some g → backends !! i = Some b →
     serves_file g (b bucket path (start * unit) ((stripes - start) * unit))
       (shard_file c ec i (stripes_of sd stripes data)) (start * unit) ((stripes - start) * unit)) →
  ∃ st, open_ec_part_stream backends bucket key path (length data) sd unit (data_shards ec)
          (parity_shards ec) ec start = Ok st
    ∧ yields st (drop (start * sd) data).
Proof.
  intros sd stripes Hlay Hst Hle Hlb Hlr Hrel Hfile.
  set (ss := stripes_of sd stripes data) in *.
  assert (length data ≤ stripes * sd) as Hfit by (by apply stripes_cover).
  destruct Hlay as (Hm & Hn & Hu & He).
  assert (∀ i s, i < length backends → s ∈ ss → ∃ x, codeword c ec s !! i = Some x ∧ length x = unit) as Hcw.
  { intros i s Hi Hs. pose proof (stripes_of_length sd stripes data) as Hall.
    rewrite Forall_forall in Hall. destruct (codeword_ok c ec unit Hm Hn Hu He s (Hall s Hs)) as (_ & Hl & Hf).
    destruct (lookup_lt_is_Some_2 (codeword c ec s) i) as [x Hx]; [lia|].
    exists x. split; [done|]. by eapply (Forall_lookup_1 _ _ _ _ Hf). }
  assert (∀ i, i < length backends → take ((stripes - start) * unit) (drop (start * unit) (shard_file c ec i ss))
    = shard_file c ec i (drop start ss)) as Hslice.
  { intros i Hi. destruct (shard_file_drop ec unit i ss start (λ s, Hcw i s Hi)) as [-> Hl].
    apply take_ge. destruct (shard_file_drop ec unit i (drop start ss) 0) as [_ ->].
    - intros s Hs. apply (Hcw i s Hi). by apply elem_of_drop_part in Hs.
    - rewrite length_drop. unfold ss. by rewrite length_stripes_of. }
  unfold open_ec_part_stream. fold stripes.
  set (srcs := (λ b, res_ok (b bucket path (start * unit) ((stripes - start) * unit))) <$> backends).
  assert (length srcs = data_shards ec + parity_shards ec) as Hls by (unfold srcs; by rewrite length_fmap).
  assert (∀ i g slot, reliable !! i = Some g → srcs !! i = Some slot →
    slot_ok c ec g i (drop start ss) slot []) as Hslot.
  { intros i g slot Hg (b & -> & Hb)%list_lookup_fmap_Some. specialize (Hfile i g b Hg Hb).
    unfold serves_file in Hfile. unfold slot_ok.
    destruct (b bucket path _ _) as [s|e]; simpl; [|done].
    rewrite Hslice in Hfile by (by eapply lookup_lt_Some). by eexists. }
  assert (data_shards ec ≤ length (filter (λ s : option St, is_Some s) srcs)) as Hok.
  { etrans; [exact Hrel|]. apply reliable_present; [lia|]. intros i Hi.
    destruct (lookup_lt_is_Some_2 srcs i) as [slot Hs]; [apply lookup_lt_Some in Hi; lia|].
    specialize (Hslot i true slot Hi Hs). destruct slot as [s|]; [by exists s|done]. }
  rewrite (proj2 (Nat.ltb_ge _ _) Hok). eexists. split; [done|].
  split; [by split_and!|]. exists (drop start ss). split.
  - split; simpl; try done.
    + rewrite length_drop. unfold ss. by rewrite length_stripes_of.
    + apply Forall_drop, stripes_of_length.
    + exists reliable. simpl. rewrite length_replicate. split_and!; try done.
      intros i g slot carry Hg Hs [-> _]%lookup_replicate. by apply Hslot.
  - simpl. destruct (concat_stripes_of sd stripes data Hfit) as [z Hz].
    rewrite (concat_drop sd) by apply stripes_of_length. fold ss in Hz. rewrite Hz.
    rewrite drop_app_le by done. symmetry. apply take_app_length'. by rewrite length_drop.
Qed.
End open.

(** ** Properties *)

(** C5.  Put and get of an erasure-coded object, through streams of any
    chunking.  Writing: a source with at least [size] bytes is laid out without
    a panic, and the only failures are the sinks' own; on success the ETag is
    the digest of the first [size] bytes.  Reading: if then at least [n] of the
    [n + m] backends stream back the file they were given, while the others
    refuse, fail or stop at any point of any stripe, the part opened at any
    stripe delivers exactly the object's bytes from that stripe on. *)
Theorem ec_put_get_roundtrip {St1 St2 K} `{ByteStream St1} `{ByteStream St2} `{ByteSink K}
    (c : RsCodec) (md5_hex : bytes → string) (ec : Erasure) (unit : nat)
    (src : St1) (bs : bytes) (size : nat) (sinks : list K)
    (Hlay : layout_ok c ec unit) (Hy : yields src bs) (Hsize : size ≤ length bs)
    (Hfresh : Forall (λ k, written k = []) sinks)
    (Hk : length sinks = data_shards ec + parity_shards ec) :
  let sd := data_shards ec * unit in
  let stripes := Nat.max (div_ceil size sd) 1 in
  ∃ r sinks' src', encode_and_write_stripes c md5_hex ec src size sd stripes sinks = Some (r, sinks', src')
    ∧ match r with
      | Err e => ∃ shards ks, (write_shards shards (ks : list K)).1 = Err e
      | Ok etag =>
          etag = md5_hex (take size bs)
          ∧ ∀ bucket key path (backends : list (string → string → nat → nat → IoResult St2))
              (reliable : list bool) start,
              start < stripes → start * sd ≤ size →
              length backends = data_shards ec + parity_shards ec →
              length reliable = data_shards ec + parity_shards ec →
              data_shards ec ≤ length (filter (λ b, b = true) reliable) →
              (∀ i g b k, reliable !! i = Some g → backends !! i = Some b → sinks' !! i = Some k →
                 serves_file g (b bucket path (start * unit) ((stripes - start) * unit))
                   (written k) (start * unit) ((stripes - start) * unit)) →
              ∃ st, open_ec_part_stream backends bucket key path size sd unit (data_shards ec)
                      (parity_shards ec) ec start = Ok st
                ∧ ∀ fuel, size < fuel →
                    ∃ st', drain (H := EcReadStream_stream c) fuel st
                           = Some (Ok (drop (start * sd) (take size bs)), st')
      end.
Proof.
  intros sd stripes. pose proof Hlay as (Hm & Hn & Hu & He).
  assert (size ≤ stripes * sd) as Hfit by (by apply (stripes_cover c)).
  destruct (stripe_loop_spec c ec unit Hm Hn Hu He size stripes 0 [] [] src bs sinks)
    as (r & sinks' & src' & Hrun & Hr); [done|lia|simpl; lia|lia|done|].
  rewrite Nat.sub_0_r in Hr. fold sd in Hrun, Hr. simpl in Hr.
  unfold encode_and_write_stripes. rewrite Hrun. simpl. eexists _, _, _. split; [done|].
  destruct r as [hashed|e]; [|done]. destruct Hr as (-> & Hl' & Hw). split; [done|].
  intros bucket key path backends reliable start Hst Hle Hlb Hlr Hrel Hfile.
  assert (length (take size bs) = size) as Hls by (rewrite length_take; lia).
  destruct (open_ec_part_ok c ec unit bucket key path (take size bs) backends reliable start Hlay)
    as (st & Hopen & Hyst); rewrite ?Hls; try done; fold sd; fold stripes.
  - intros i g b Hg Hb. destruct (lookup_lt_is_Some_2 sinks i) as [k Hki].
    { apply lookup_lt_Some in Hb. lia. }
    destruct (Hw i k Hki) as (k' & Hk' & Hwk).
    rewrite (Forall_lookup_1 _ _ _ _ Hfresh Hki) in Hwk. simpl in Hwk. rewrite <-Hwk. by eapply Hfile.
  - rewrite Hls in Hopen. exists st. split; [done|]. intros fuel Hf.
    apply (drain_yields (H := EcReadStream_stream c)); [exact Hyst|]. rewrite length_drop. lia.
Qed.

(** ** Witnesses *)

Definition put_src : RopeByteStream := {| frames := [[x01; x02; x03]; [x04; x05; x06; x07]] |}.
Definition empty_sinks : list VecByteSink := replicate 3 {| vs_buf := [] |}.

Definition serving (file : bytes) : string → string → nat → nat → IoResult BytesByteStream :=
  λ _ _ off len, Ok {| bb_buf := take len (drop off file) |}.
Definition refusing : string → string → nat → nat → IoResult BytesByteStream :=
  λ _ _ _ _, Err (Io {| io_kind := KindTimedOut; io_msg := "timed out" |}).

Lemma ec_put_get_roundtrip_witness : ∃ sinks' src',
  encode_and_write_stripes xor_codec (λ _, "md5") ec21 put_src 6 4 2 empty_sinks
    = Some (Ok "md5", sinks', src')
  ∧ ∃ st, open_ec_part_stream
      [refusing; serving [x03; x04; x00; x00]; serving [x02; x06; x05; x06]]
      "b" "k" "k/d/part.1" 6 4 2 2 1 ec21 1 = Ok st
    ∧ ∃ st', drain (H := EcReadStream_stream xor_codec) 7 st = Some (Ok [x05; x06], st').
Proof.
  destruct (ec_put_get_roundtrip (St2 := BytesByteStream) xor_codec (λ _, "md5") ec21 2 put_src
    [x01; x02; x03; x04; x05; x06; x07] 6 empty_sinks) as (r & sinks' & src' & Hrun & Hr).
  - split_and!; [apply xor_codec_mds|simpl; lia|lia|done].
  - split; [|reflexivity]. repeat constructor; discriminate.
  - simpl. lia.
  - by repeat constructor.
  - done.
  - vm_compute in Hrun. injection Hrun as <- <- <-. destruct Hr as [_ Hget].
    eexists _, _. split; [vm_compute; reflexivity|].
    destruct (Hget "b" "k" "k/d/part.1"
      [refusing; serving [x03; x04; x00; x00]; serving [x02; x06; x05; x06]] [false; true; true] 1)
      as (st & Hopen & Hdrain).
    + vm_compute. lia.
    + vm_compute. lia.
    + done.
    + done.
    + vm_compute. lia.
    + intros [|[|[|i]]] g b k Hg Hb Hk; vm_compute in Hg, Hk; simpl in Hb; simplify_eq; reflexivity.
    + exists st. split; [exact Hopen|]. apply (Hdrain 7). vm_compute. lia.
Defined.
