(* ===== verification/Get.v ===== *)
(** * Reading an object

    The read path of [openlake_storage/src/engine.rs] after the consensus read:
    [ByteRange::resolve], [MultiPartEcStream] and the body of [get_versioned],
    which resolves the range, picks the inline or the erasure-coded path, and
    pushes the seek down to parts and stripes.  Backends are given by their
    [read_file_stream].  [None] is a panic (a division by zero data shards). *)

From stdpp Require Import base gmap strings list pretty.
From S2P Require Import Prelude Types Ec Streams EcStream.

(** ** Byte ranges *)

Inductive ByteRange :=
  | Bounded (start end_ : Z)
  | OpenEnded (start : Z)
  | Suffix (last_n : Z).

(** [end - start + 1] is [u64] arithmetic. *)
Definition resolve (r : ByteRange) (size : Z) : option (Z * Z) :=
  match r with
  | Bounded start end_ =>
      if (size =? 0)%Z || (size <=? start)%Z then None
      else let end_ := Z.min end_ (size - 1) in
           Some (start, ((end_ - start + 1) `mod` u64_mod)%Z)
  | OpenEnded start =>
      if (size =? 0)%Z || (size <=? start)%Z then None else Some (start, size - start)%Z
  | Suffix last_n =>
      if (size =? 0)%Z || (last_n =? 0)%Z then None
      else let n := Z.min last_n size in Some (size - n, n)%Z
  end.

(** [x as u64] of an [i64], as a byte count. *)
Definition as_u64 (z : Z) : Z := (z `mod` u64_mod)%Z.
Definition u64_len (z : Z) : nat := Z.to_nat (as_u64 z).

Section get.
Context {St : Type} `{ByteStream St}.
Context (c : RsCodec).

Definition backend := (string → string → nat → nat → IoResult St).

(** ** [MultiPartEcStream] *)

Record MultiPartEcStream := {
  mp_backends : list backend;
  mp_bucket : string;
  mp_key : string;
  mp_data_dir : string;
  mp_parts : list ObjectPartInfo;
  next_idx : nat;
  mp_block_size : nat;
  mp_stripe_unit : nat;
  mp_data_shards : nat;
  mp_parity_shards : nat;
  mp_ec : Erasure;
  current : option (EcReadStream St);
  first_start_stripe : nat
}.

Definition set_current (cur : option (EcReadStream St)) (k : nat) (st : MultiPartEcStream) :
    MultiPartEcStream :=
  {| mp_backends := mp_backends st; mp_bucket := mp_bucket st; mp_key := mp_key st;
     mp_data_dir := mp_data_dir st; mp_parts := mp_parts st; next_idx := k;
     mp_block_size := mp_block_size st; mp_stripe_unit := mp_stripe_unit st;
     mp_data_shards := mp_data_shards st; mp_parity_shards := mp_parity_shards st;
     mp_ec := mp_ec st; current := cur; first_start_stripe := first_start_stripe st |}.

Definition part_path (st : MultiPartEcStream) (p : ObjectPartInfo) : string :=
  mp_key st +:+ "/" +:+ mp_data_dir st +:+ "/part." +:+ pretty (p_number p).

Definition advance (st : MultiPartEcStream) : IoResult bool * MultiPartEcStream :=
  match current st with
  | Some _ => (Ok true, st)
  | None =>
      match mp_parts st !! next_idx st with
      | None => (Ok false, st)
      | Some p =>
          let path := part_path st p in
          let start_stripe := if next_idx st =? 0 then first_start_stripe st else 0 in
          match open_ec_part_stream (mp_backends st) (mp_bucket st) (mp_key st) path
                  (u64_len (p_actual_size p)) (mp_block_size st) (mp_stripe_unit st)
                  (mp_data_shards st) (mp_parity_shards st) (mp_ec st) start_stripe with
          | Ok s => (Ok true, set_current (Some s) (S (next_idx st)) st)
          | Err (ObjectNotFound _ _) => (Err (FileNotFound (mp_bucket st) path), st)
          | Err (SIo io) => (Err io, st)
          | Err other => (Err (InvalidArgument (storage_to_string other)), st)
          end
      end
  end.

Fixpoint mp_loop (fuel : nat) (st : MultiPartEcStream) : option (IoResult bytes * MultiPartEcStream) :=
  match fuel with
  | 0 => None
  | S fuel =>
      let '(r, st) := advance st in
      match r with
      | Err e => Some (Err e, st)
      | Ok false => Some (Ok [], st)
      | Ok true =>
          cur ← current st;
          '(r, cur) ← ec_read c cur;
          let st := set_current (Some cur) (next_idx st) st in
          match r with
          | Err e => Some (Err e, st)
          | Ok [] => mp_loop fuel (set_current None (next_idx st) st)
          | Ok chunk => Some (Ok chunk, st)
          end
      end
  end.

(** A part that has been drained is closed, so the loop runs once per part left
    at most, and once more. *)
Definition mp_read (st : MultiPartEcStream) :=
  mp_loop (2 + (length (mp_parts st) - next_idx st)) st.

(** ** [get_versioned], after the consensus read *)

(** [Box<dyn ByteStream>]. *)
Inductive body_stream :=
  | RopeBody (s : RopeByteStream)
  | RopeWindow (s : SkipTakeStream RopeByteStream)
  | PartsBody (s : MultiPartEcStream)
  | PartsWindow (s : SkipTakeStream MultiPartEcStream).

(** The part that holds the offset, and the offset in it; [0] when the walk
    falls off the end. *)
Fixpoint seek_part (i intra : nat) (parts : list ObjectPartInfo) : nat * nat :=
  match parts with
  | [] => (0, intra)
  | p :: parts =>
      let part_len := u64_len (p_actual_size p) in
      if intra <? part_len then (i, intra) else seek_part (S i) (intra - part_len) parts
  end.

Definition inconsistent (bucket key msg : string) : StorageError := InconsistentMeta bucket key msg.

Definition get_body (backends : list backend) (bucket key : string) (fi : FileInfo)
    (range : option ByteRange) :
    option (StorageResult (ObjectInfo * option (Z * Z) * body_stream)) :=
  let info := to_object_info bucket fi in
  let window := range ≫= λ r, resolve r (as_u64 (size fi)) in
  if bool_decide (is_Some range ∧ window = None)
  then Some (Ok (info, None, RopeBody {| frames := [] |})) else
  let '(offset, length_) := default (0%Z, as_u64 (size fi)) window in
  match data fi with
  | Some ((_ :: _) as fr) =>
      let rope := {| frames := fr |} in
      Some (Ok (info, window,
          if window is Some _
          then RopeWindow {| st_inner := rope; to_skip := Z.to_nat offset; remaining := Z.to_nat length_ |}
          else RopeBody rope))
  | _ =>
      if (size fi =? 0)%Z then Some (Ok (info, window, RopeBody {| frames := [] |})) else
      let n := length backends in
      let d := data_blocks (erasure fi) in
      let p := parity_blocks (erasure fi) in
      if negb (d + p =? n) then
        Some (Err (inconsistent bucket key ("EC config (D=" +:+ pretty d +:+ ", P=" +:+ pretty p
               +:+ ") does not match set size N=" +:+ pretty n)))
      else
      let bsz := Z.to_nat (block_size (erasure fi)) in
      if negb (bsz =? 0) && (d =? 0) then None else
      if (bsz =? 0) || negb (bsz mod d =? 0) then
        Some (Err (inconsistent bucket key ("block_size " +:+ pretty bsz
               +:+ " not a multiple of data_shards " +:+ pretty d)))
      else
      let unit := bsz / d in
      if negb (unit mod 512 =? 0) then
        Some (Err (inconsistent bucket key ("stripe_unit " +:+ pretty unit +:+ " not 512-byte aligned")))
      else match Erasure_new d p with
      | Err e => Some (Err (SIo (InvalidArgument
          ("EC init (" +:+ pretty d +:+ "+" +:+ pretty p +:+ "): " +:+ io_msg e))))
      | Ok ec =>
          if decide (data_dir fi = "") then
            Some (Err (inconsistent bucket key "EC object missing data_dir in xl.meta"))
          else
          let '(start_part, intra) := seek_part 0 (Z.to_nat offset) (parts fi) in
          let start_stripe := intra / bsz in
          let sub := intra mod bsz in
          let stream := {| mp_backends := backends; mp_bucket := bucket; mp_key := key;
                           mp_data_dir := data_dir fi; mp_parts := drop start_part (parts fi);
                           next_idx := 0; mp_block_size := bsz; mp_stripe_unit := unit;
                           mp_data_shards := d; mp_parity_shards := p; mp_ec := ec;
                           current := None; first_start_stripe := start_stripe |} in
          Some (Ok (info, window,
              if window is Some _
              then PartsWindow {| st_inner := stream; to_skip := sub; remaining := Z.to_nat length_ |}
              else PartsBody stream))
      end
  end.
End get.
Arguments MultiPartEcStream : clear implicits.
Arguments body_stream : clear implicits.
Arguments backend : clear implicits.

(** ** [MultiPartEcStream] delivers its parts in order *)

Section multipart.
Context {St : Type} `{ByteStream St}.
Context (c : RsCodec).

(** The parts still to open, with the stripe each is opened at. *)
Definition todo (st : MultiPartEcStream St) : list (ObjectPartInfo * nat) :=
  match next_idx st, mp_parts st with
  | 0, p :: ps => (p, first_start_stripe st) :: ((λ p, (p, 0)) <$> ps)
  | k, ps => (λ p, (p, 0)) <$> drop k ps
  end.

(** Part [p] holds [d], and at least [n] backends serve its shard files from
    stripe [start] on. *)
Definition part_readable (backends : list (backend St)) (bucket path : string) (ec : Erasure) (unit : nat)
    (p : ObjectPartInfo) (start : nat) (d : bytes) : Prop :=
  let sd := data_shards ec * unit in
  let stripes := Nat.max (div_ceil (length d) sd) 1 in
  u64_len (p_actual_size p) = length d
  ∧ start < stripes ∧ start * sd ≤ length d
  ∧ ∃ reliable, length reliable = data_shards ec + parity_shards ec
    ∧ data_shards ec ≤ length (filter (λ b, b = true) reliable)
    ∧ ∀ i g b, reliable !! i = Some g → backends !! i = Some b →
        serves_file g (b bucket path (start * unit) ((stripes - start) * unit))
          (shard_file c ec i (stripes_of sd stripes d)) (start * unit) ((stripes - start) * unit).

Record mp_layout (st : MultiPartEcStream St) : Prop := {
  lay_ok : layout_ok c (mp_ec st) (mp_stripe_unit st);
  lay_block : mp_block_size st = data_shards (mp_ec st) * mp_stripe_unit st;
  lay_data : mp_data_shards st = data_shards (mp_ec st);
  lay_parity : mp_parity_shards st = parity_shards (mp_ec st);
  lay_backends : length (mp_backends st) = data_shards (mp_ec st) + parity_shards (mp_ec st)
}.

Definition tails (st : MultiPartEcStream St) (ds : list bytes) : bytes :=
  concat (zip_with (λ ps d, drop (ps.2 * mp_block_size st) d) (todo st) ds).

Definition mp_yields (st : MultiPartEcStream St) (out : bytes) : Prop :=
  mp_layout st ∧ ∃ cur ds,
    match current st with Some s => ec_stream_yields c s cur | None => cur = [] end
    ∧ Forall2 (λ ps d, part_readable (mp_backends st) (mp_bucket st) (part_path st ps.1) (mp_ec st)
                         (mp_stripe_unit st) ps.1 ps.2 d) (todo st) ds
    ∧ out = cur ++ tails st ds.

Lemma todo_cons st p s rest : todo st = (p, s) :: rest →
  mp_parts st !! next_idx st = Some p
  ∧ s = (if next_idx st =? 0 then first_start_stripe st else 0)
  ∧ ∀ cur, todo (set_current cur (S (next_idx st)) st) = rest.
Proof.
  unfold todo. simpl. destruct (next_idx st) as [|k], (mp_parts st) as [|q qs] eqn:Ep; simpl.
  - done.
  - intros [= <- <- <-]. by rewrite drop_0.
  - done.
  - destruct (drop k qs) as [|x xs] eqn:Ed; [done|]. rewrite fmap_cons. intros [= <- <- <-].
    destruct (drop_cons_lookup _ _ _ _ Ed) as [-> Hd]. by rewrite Hd.
Qed.

Lemma todo_nil st : todo st = [] → mp_parts st !! next_idx st = None.
Proof.
  unfold todo. destruct (next_idx st) as [|k], (mp_parts st) as [|q qs] eqn:Ep; simpl; try done.
  intros Hd%fmap_nil_inv. apply lookup_ge_None. simpl.
  apply (f_equal length) in Hd. rewrite length_drop in Hd. simpl in Hd. lia.
Qed.

(** With nothing open, [advance] opens the next part or reports the end. *)
Lemma advance_yields st out : mp_yields st out → current st = None →
  (todo st = [] ∧ out = [] ∧ advance st = (Ok false, st))
  ∨ (∃ s, advance st = (Ok true, set_current (Some s) (S (next_idx st)) st)
       ∧ mp_yields (set_current (Some s) (S (next_idx st)) st) out
       ∧ length (todo st) = S (length (todo (set_current (Some s) (S (next_idx st)) st)))).
Proof.
  intros (Hlay & cur & ds & Hcur & Hparts & ->) Hnone. rewrite Hnone in Hcur. subst cur.
  unfold advance. rewrite Hnone. destruct (todo st) as [|[p s0] rest] eqn:Et.
  - left. apply Forall2_nil_inv_l in Hparts as ->. unfold tails. rewrite Et. rewrite (todo_nil _ Et). done.
  - right. apply Forall2_cons_inv_l in Hparts as (d & ds' & Hp & Hparts & ->).
    destruct (todo_cons _ _ _ _ Et) as (Hlk & Hs0 & Hrest). rewrite Hlk, <-Hs0. simpl in Hp.
    destruct Hp as (Hlen & Hst & Hle & reliable & Hlr & Hrel & Hfile).
    destruct (open_ec_part_ok c (mp_ec st) (mp_stripe_unit st) (mp_bucket st) (mp_key st) (part_path st p) d
      (mp_backends st) reliable s0) as (s & Hopen & Hy); try done; try apply Hlay.
    rewrite Hlen, (lay_block _ Hlay), (lay_data _ Hlay), (lay_parity _ Hlay), Hopen.
    exists s. split; [done|]. split; [|by rewrite (Hrest (Some s))]. destruct Hlay. split; [by split|].
    exists (drop (s0 * (data_shards (mp_ec st) * mp_stripe_unit st)) d), ds'. split; [done|].
    rewrite (Hrest (Some s)). split; [done|]. unfold tails. rewrite Et, (Hrest (Some s)). simpl.
    by rewrite lay_block0.
Qed.

(** With a part open, a read delivers its next chunk, or finds it drained. *)
Lemma current_yields st s out : mp_yields st out → current st = Some s →
  ∃ chunk s' rest, ec_read c s = Some (Ok chunk, s') ∧ out = chunk ++ rest
    ∧ mp_yields (set_current (if decide (chunk = []) then None else Some s') (next_idx st) st) rest.
Proof.
  intros (Hlay & cur & ds & Hcur & Hparts & ->) Hs. rewrite Hs in Hcur.
  destruct (ec_stream_read c s cur Hcur) as (chunk & rest & s' & Hr & -> & Hy' & Hend).
  exists chunk, s', (rest ++ tails st ds). split; [done|]. split; [by rewrite app_assoc|].
  destruct Hlay. split; [by split|]. exists rest, ds. split_and!; [|done|done].
  simpl. case_decide; [by apply Hend|done].
Qed.

Definition opened (st : MultiPartEcStream St) : nat := if current st is Some _ then 1 else 0.

Lemma mp_loop_yields fuel st out : mp_yields st out → opened st + length (todo st) < fuel →
  ∃ chunk rest st', mp_loop c fuel st = Some (Ok chunk, st') ∧ out = chunk ++ rest ∧ mp_yields st' rest
    ∧ (chunk = [] → rest = []).
Proof.
  revert st out. induction fuel as [|fuel IH]; intros st out Hy Hf; [lia|]. simpl.
  assert ((advance st = (Ok false, st) ∧ out = [])
    ∨ ∃ st1 s, advance st = (Ok true, st1) ∧ current st1 = Some s ∧ mp_yields st1 out
        ∧ 1 + length (todo st1) ≤ opened st + length (todo st))
    as [[-> ->]|(st1 & s & -> & Hs & Hy1 & Hm)].
  { destruct (current st) as [s|] eqn:Hcur.
    - right. exists st, s. unfold advance, opened. by rewrite Hcur.
    - destruct (advance_yields st out Hy Hcur) as [(_ & -> & Ha)|(s & Ha & Hy1 & Hl)]; [by left|].
      right. exists (set_current (Some s) (S (next_idx st)) st), s. split_and!; [done|done|done|].
      unfold opened. rewrite Hcur. lia. }
  { by exists [], [], st. }
  rewrite Hs. simpl. destruct (current_yields st1 s out Hy1 Hs) as (chunk & s' & rest & -> & -> & Hy2). simpl.
  destruct (decide (chunk = [])) as [->|Hne].
  - apply IH; [done|]. unfold opened. simpl. change (todo _) with (todo st1). lia.
  - take_chunk chunk. by eexists _, _, _.
Qed.

#[global] Program Instance MultiPartEcStream_stream : ByteStream (MultiPartEcStream St) := {|
  read st := mp_read c st;
  yields := mp_yields;
  serves := mp_yields
|}.
Next Obligation.
  intros st out Hy. apply mp_loop_yields; [done|]. unfold opened, todo.
  destruct (current st), (next_idx st), (mp_parts st); simpl; rewrite ?length_fmap, ?length_drop; simpl; lia.
Qed.
Next Obligation.
  intros st out Hy.
  destruct (mp_loop_yields (2 + (length (mp_parts st) - next_idx st)) st out Hy)
    as (chunk & rest & st' & Hr & -> & Hy' & _).
  - unfold opened, todo.
    destruct (current st), (next_idx st), (mp_parts st); simpl; rewrite ?length_fmap, ?length_drop; simpl; lia.
  - exists (Ok chunk), st'. split; [done|]. intros ch [= <-] _. by exists rest.
Qed.
End multipart.

(** ** The stream a GET returns *)

Section body.
Context {St : Type} `{ByteStream St}.
Context (c : RsCodec).

Definition lift {A} (inj : A → body_stream St) (o : option (IoResult bytes * A)) :
    option (IoResult bytes * body_stream St) :=
  '(r, s) ← o; Some (r, inj s).

Definition body_yields (b : body_stream St) : bytes → Prop :=
  match b with
  | RopeBody s => yields s
  | RopeWindow s => yields s
  | PartsBody s => yields (ByteStream := MultiPartEcStream_stream c) s
  | PartsWindow s => yields (ByteStream := SkipTakeStream_stream (H := MultiPartEcStream_stream c)) s
  end.

Definition body_read (b : body_stream St) : option (IoResult bytes * body_stream St) :=
  match b with
  | RopeBody s => lift RopeBody (read s)
  | RopeWindow s => lift RopeWindow (read s)
  | PartsBody s => lift PartsBody (read (ByteStream := MultiPartEcStream_stream c) s)
  | PartsWindow s =>
      lift PartsWindow (read (ByteStream := SkipTakeStream_stream (H := MultiPartEcStream_stream c)) s)
  end.

Lemma lift_read {A} `{ByteStream A} (inj : A → body_stream St) (s : A) out :
  (∀ s', body_yields (inj s') = yields s') → yields s out →
  ∃ chunk rest b', lift inj (read s) = Some (Ok chunk, b') ∧ out = chunk ++ rest ∧ body_yields b' rest
    ∧ (chunk = [] → rest = []).
Proof.
  intros Hinj Hy. destruct (read_yields _ _ Hy) as (chunk & rest & s' & -> & -> & Hy' & Hend).
  exists chunk, rest, (inj s'). split_and!; try done. by rewrite Hinj.
Qed.

Lemma body_read_yields b out : body_yields b out →
  ∃ chunk rest b', body_read b = Some (Ok chunk, b') ∧ out = chunk ++ rest ∧ body_yields b' rest
    ∧ (chunk = [] → rest = []).
Proof.
  destruct b as [s|s|s|s]; intros Hy.
  - by apply (lift_read RopeBody).
  - by apply (lift_read RopeWindow).
  - by apply (lift_read (H0 := MultiPartEcStream_stream c) PartsBody).
  - by apply (lift_read (H0 := SkipTakeStream_stream (H := MultiPartEcStream_stream c)) PartsWindow).
Qed.

#[global] Program Instance body_stream_stream : ByteStream (body_stream St) := {|
  read := body_read;
  yields := body_yields;
  serves := body_yields;
  read_yields := body_read_yields
|}.
Next Obligation.
  intros b out Hy. destruct (body_read_yields b out Hy) as (chunk & rest & b' & Hr & -> & Hy' & _).
  exists (Ok chunk), b'. split; [done|]. intros ch [= <-] _. by exists rest.
Qed.
End body.

(** ** The seek *)

Lemma seek_part_ok i intra parts (pds : list bytes) :
  Forall2 (λ p d, u64_len (p_actual_size p) = length d) parts pds → intra < length (concat pds) →
  ∃ k intra', seek_part i intra parts = (i + k, intra')
    ∧ (∃ p d, parts !! k = Some p ∧ pds !! k = Some d ∧ intra' < length d)
    ∧ drop intra (concat pds) = drop intra' (concat (drop k pds)).
Proof.
  intros Hp. revert i intra. induction Hp as [|p d parts pds Hl Hp IH]; intros i intra Hlt; [simpl in Hlt; lia|].
  simpl in *. rewrite Hl. rewrite length_app in Hlt. destruct (Nat.ltb_spec intra (length d)).
  - exists 0, intra. rewrite Nat.add_0_r. split_and!; [done|by exists p, d|done].
  - destruct (IH (S i) (intra - length d)) as (k & intra' & -> & Hk & Hd); [lia|].
    exists (S k), intra'. split_and!; [f_equal; lia|done|]. simpl. by rewrite drop_app_ge.
Qed.

Lemma seek_part_zero i parts : (seek_part i 0 parts).2 = 0.
Proof.
  revert i. induction parts as [|p parts IH]; intros i; simpl; [done|]. case_bool; [done|apply IH].
Qed.

Section get_lemmas.
Context {St : Type} `{ByteStream St}.
Context (c : RsCodec) (backends : list (backend St)) (bucket key : string) (fi : FileInfo)
  (unit : nat) (pds : list bytes).

Abbreviation ec := {| data_shards := data_blocks (erasure fi); parity_shards := parity_blocks (erasure fi) |}.
Abbreviation sd := (data_blocks (erasure fi) * unit).

(** The erasure-coded object [fi] describes: its parts hold [pds], each
    readable from every stripe, and the record is one [put_ec] writes. *)
Record ec_object : Prop := {
  eo_layout : layout_ok c ec unit;
  eo_parity : 0 < parity_blocks (erasure fi);
  eo_block : block_size (erasure fi) = Z.of_nat sd;
  eo_aligned : unit mod 512 = 0;
  eo_backends : length backends = data_blocks (erasure fi) + parity_blocks (erasure fi);
  eo_data : data fi = None;
  eo_dir : data_dir fi ≠ "";
  eo_size : size fi = Z.of_nat (length (concat pds));
  eo_width : (0 < size fi < u64_mod)%Z;
  eo_parts : Forall2 (λ p d, u64_len (p_actual_size p) = length d
    ∧ ∀ start, start * sd ≤ length d → start < Nat.max (div_ceil (length d) sd) 1 →
        part_readable c backends bucket
          (key +:+ "/" +:+ data_dir fi +:+ "/part." +:+ pretty (p_number p)) ec unit p start d)
    (parts fi) pds
}.

Lemma div_ceil_gt a b intra : 0 < b → intra < a → intra / b < Nat.max (div_ceil a b) 1.
Proof.
  intros Hb Hlt. apply Nat.lt_le_trans with (div_ceil a b); [|lia]. unfold div_ceil.
  apply Nat.Div0.div_lt_upper_bound.
  pose proof (Nat.div_mod (a + b - 1) b ltac:(lia)). pose proof (Nat.mod_upper_bound (a + b - 1) b ltac:(lia)). lia.
Qed.

(** The stream opened for an offset: skipping the rest of the offset delivers the
    object from there on. *)
Lemma seek_stream_yields offset k intra :
  ec_object → offset < length (concat pds) → seek_part 0 offset (parts fi) = (k, intra) →
  ∃ X, yields (ByteStream := MultiPartEcStream_stream c)
    {| mp_backends := backends; mp_bucket := bucket; mp_key := key;
       mp_data_dir := data_dir fi; mp_parts := drop k (parts fi); next_idx := 0;
       mp_block_size := sd; mp_stripe_unit := unit; mp_data_shards := data_blocks (erasure fi);
       mp_parity_shards := parity_blocks (erasure fi); mp_ec := ec;
       current := None; first_start_stripe := intra / sd |} X
    ∧ drop (intra mod sd) X = drop offset (concat pds).
Proof.
  intros [] Hoff Hseek. pose proof eo_layout0 as (Hm & Hn & Hu & He). simpl in Hn.
  assert (0 < sd) as Hsd by nia.
  destruct (seek_part_ok 0 offset (parts fi) pds) as (k' & intra' & Hseek' & (p & d & Hp & Hd & Hlt) & Hdrop).
  { eapply Forall2_impl; [exact eo_parts0|]. by intros ? ? [? _]. }
  { done. }
  rewrite Hseek in Hseek'. injection Hseek' as -> ->. rename k' into k, intra' into intra. simpl in *.
  assert (intra / sd * sd ≤ intra) as Hle by (rewrite Nat.mul_comm; apply Nat.Div0.mul_div_le).
  exists (drop (intra / sd * sd) (concat (drop k pds))). split; cycle 1.
  { rewrite drop_drop, Hdrop. f_equal. pose proof (Nat.div_mod intra sd ltac:(lia)). lia. }
  split; [by split|]. exists [], (drop k pds).
  rewrite (drop_S _ _ _ Hd). unfold tails, todo. simpl. rewrite (drop_S _ _ _ Hp). simpl.
  pose proof (Forall2_drop _ _ _ k eo_parts0) as Hall.
  rewrite (drop_S _ _ _ Hd), (drop_S _ _ _ Hp) in Hall. apply Forall2_cons in Hall as [[_ Hhere] Hall].
  split_and!; [done| |].
  - constructor; simpl; [apply Hhere; [lia|by apply div_ceil_gt]|].
    apply Forall2_fmap_l. eapply Forall2_impl; [exact Hall|]. intros q x [_ Hq]. simpl. apply Hq; lia.
  - rewrite (drop_app_le d) by lia. f_equal. clear Hhere.
    revert Hall. generalize (drop (S k) (parts fi)) (drop (S k) pds). intros ps xs Hall.
    induction Hall as [|q x ps xs _ _ IH]; [done|]. simpl. rewrite drop_0. f_equal. apply IH.
Qed.
(** What a request asks of an object with the given bytes. *)
Definition asked (range : option ByteRange) (content : bytes) : bytes :=
  match range with
  | None => content
  | Some r => match resolve r (Z.of_nat (length content)) with
              | Some (off, len) => take (Z.to_nat len) (drop (Z.to_nat off) content)
              | None => []
              end
  end.

Lemma length_asked range content : length (asked range content) ≤ length content.
Proof.
  unfold asked. destruct range as [r|]; [|done]. destruct (resolve _ _) as [[off len]|]; [|simpl; lia].
  rewrite length_take, length_drop. lia.
Qed.

(** [start <= end] and the values are those of a [u64]. *)
Definition range_ok (r : ByteRange) : Prop :=
  match r with
  | Bounded s e => (0 ≤ s ≤ e)%Z ∧ (e < u64_mod)%Z
  | OpenEnded s => (0 ≤ s < u64_mod)%Z
  | Suffix k => (0 ≤ k < u64_mod)%Z
  end.

Lemma resolve_inside r size off len : (0 ≤ size < u64_mod)%Z → range_ok r → resolve r size = Some (off, len) →
  (0 ≤ off)%Z ∧ (0 < len)%Z ∧ (off + len ≤ size)%Z.
Proof.
  intros Hs Hr. change u64_mod with 18446744073709551616%Z in *. destruct r as [s e|s|k]; simpl in *.
  - destruct (Z.eqb_spec size 0), (Z.leb_spec size s); simpl; try done. change u64_mod with 18446744073709551616%Z.
    rewrite Z.mod_small by lia. intros [= <- <-]. lia.
  - destruct (Z.eqb_spec size 0), (Z.leb_spec size s); simpl; try done. intros [= <- <-]. lia.
  - destruct (Z.eqb_spec size 0), (Z.eqb_spec k 0); simpl; try done. intros [= <- <-]. lia.
Qed.

Lemma get_body_refused (range : option ByteRange) : (size fi < u64_mod)%Z → (0 ≤ size fi)%Z →
  is_Some range → range ≫= (λ r, resolve r (size fi)) = None →
  get_body backends bucket key fi range = Some (Ok (to_object_info bucket fi, None, RopeBody {| frames := [] |})).
Proof.
  intros H1 H2 Hs Hn. unfold get_body. assert (as_u64 (size fi) = size fi) as -> by (apply Z.mod_small; lia).
  by rewrite Hn, bool_decide_true.
Qed.

Lemma get_body_ec (range : option ByteRange) (off len : Z) (Ho : ec_object)
    (Hr : match range with
          | None => off = 0%Z ∧ len = size fi
          | Some r => resolve r (size fi) = Some (off, len) ∧ (0 ≤ off < size fi)%Z
          end) :
  ∃ s, get_body backends bucket key fi range
         = Some (Ok (to_object_info bucket fi, range ≫= λ r, resolve r (size fi), s))
    ∧ body_yields c s (take (Z.to_nat len) (drop (Z.to_nat off) (concat pds))).
Proof.
  pose proof Ho as []. pose proof eo_layout0 as (Hm & Hn & Hu & He). simpl in Hn.
  assert (as_u64 (size fi) = size fi) as Hsz by (apply Z.mod_small; lia).
  set (sd := data_blocks (erasure fi) * unit) in *. assert (0 < sd) as Hsd by (unfold sd; nia).
  assert (Z.to_nat off < length (concat pds)) as Hoff by (destruct range; lia).
  destruct (seek_part 0 (Z.to_nat off) (parts fi)) as [k intra] eqn:Hseek.
  destruct (seek_stream_yields (Z.to_nat off) k intra Ho Hoff Hseek)
    as (X & HX & Hdrop). fold sd in HX, Hdrop.
  unfold get_body. rewrite Hsz, eo_data0. rewrite bool_decide_false; cycle 1.
  { intros [[r ->] Hnone]. simpl in Hnone. destruct Hr as [Hr _]. congruence. }
  replace (default (0%Z, size fi) (range ≫= λ r, resolve r (size fi))) with (off, len); cycle 1.
  { destruct range as [r|]; simpl; [by destruct Hr as [-> _]|by destruct Hr as [-> ->]]. }
  rewrite (proj2 (Z.eqb_neq _ _)) by lia. rewrite eo_backends0, Nat.eqb_refl. cbn [negb].
  rewrite eo_block0, Nat2Z.id. fold sd.
  rewrite (proj2 (Nat.eqb_neq sd 0)), (proj2 (Nat.eqb_neq (data_blocks (erasure fi)) 0)) by lia.
  assert (sd mod data_blocks (erasure fi) = 0) as ->.
  { unfold sd. rewrite Nat.mul_comm. apply Nat.Div0.mod_mul. }
  assert (sd / data_blocks (erasure fi) = unit) as ->.
  { unfold sd. rewrite Nat.mul_comm. apply Nat.div_mul. lia. }
  cbn [negb andb orb Nat.eqb]. rewrite eo_aligned0. cbn [negb Nat.eqb].
  unfold Erasure_new. rewrite (proj2 (Nat.eqb_neq (data_blocks (erasure fi)) 0)),
    (proj2 (Nat.eqb_neq (parity_blocks (erasure fi)) 0)) by lia. cbn [orb].
  rewrite decide_False by done. rewrite Hseek. eexists. split; [done|].
  destruct range as [r|]; simpl.
  - destruct Hr as [-> _]. exists X. split; [exact HX|]. simpl. by rewrite Hdrop.
  - destruct Hr as [-> ->]. pose proof (seek_part_zero 0 (parts fi)) as H0.
    change (Z.to_nat 0) with 0 in *. rewrite Hseek in H0. simpl in H0. subst intra.
    rewrite Nat.Div0.mod_0_l, !drop_0 in Hdrop. rewrite drop_0, take_ge by lia. by rewrite <-Hdrop.
Qed.
Lemma get_body_inline (fr : list bytes) (range : option ByteRange) : data fi = Some fr → fr ≠ [] → Forall (λ f, f ≠ []) fr →
  size fi = Z.of_nat (length (concat fr)) → (size fi < u64_mod)%Z →
  ∃ s, get_body backends bucket key fi range
         = Some (Ok (to_object_info bucket fi, range ≫= λ r, resolve r (size fi), s))
    ∧ body_yields c s (asked range (concat fr)).
Proof.
  intros Hdata Hne Hfr Hsize Hw. unfold asked. rewrite <-Hsize.
  destruct (decide (is_Some range ∧ range ≫= (λ r, resolve r (size fi)) = None)) as [[Hs Hn]|Hreq].
  { eexists. rewrite Hn. split; [apply get_body_refused; try done; lia|]. destruct Hs as [r ->]. simpl in Hn. by rewrite Hn. }
  assert (as_u64 (size fi) = size fi) as Hsz by (apply Z.mod_small; lia).
  unfold get_body. rewrite Hsz, Hdata. destruct fr as [|f fr]; [done|]. rewrite bool_decide_false by done.
  destruct range as [r|]; simpl.
  - destruct (resolve r (size fi)) as [[off len]|] eqn:Er; simpl; [|destruct Hreq; by split].
    eexists. split; [done|]. exists (concat (f :: fr)). by split.
  - eexists. split; [done|]. by split.
Qed.
End get_lemmas.

(** ** An object as its readers see it *)

(** [get_opts], for one object and version: it describes the object with [info],
    resolves every well-formed range against its size and hands out a stream of
    the bytes asked for. *)
Class ObjectReader {Str} `{ByteStream Str}
    (get_opts : option ByteRange → option (StorageResult (ObjectInfo * option (Z * Z) * Str)))
    (info : ObjectInfo) (content : bytes) := {
  reader_size : oi_size info = Z.of_nat (length content);
  reader_width : (Z.of_nat (length content) < u64_mod)%Z;
  reader_get range : (∀ r, range = Some r → range_ok r) →
    ∃ s, get_opts range = Some (Ok (info, range ≫= λ r, resolve r (oi_size info), s)) ∧ yields s (asked range content)
}.

Section readers.
Context {St : Type} `{ByteStream St}.
Context (c : RsCodec) (backends : list (backend St)) (bucket key : string) (fi : FileInfo).

Lemma to_object_info_size : (0 ≤ size fi < u64_mod)%Z → oi_size (to_object_info bucket fi) = size fi.
Proof. intros Hs. cbn. lia. Qed.

Lemma ec_reader unit pds : ec_object c backends bucket key fi unit pds →
  ObjectReader (H := body_stream_stream c) (get_body backends bucket key fi) (to_object_info bucket fi) (concat pds).
Proof.
  intros Ho. pose proof Ho as [].
  assert (oi_size (to_object_info bucket fi) = size fi) as Hs by (apply to_object_info_size; lia).
  split; [by rewrite Hs|rewrite <-eo_size0; lia|]. intros range Hok. rewrite Hs. unfold asked. rewrite <-eo_size0.
  destruct range as [r|]; simpl.
  - destruct (resolve r (size fi)) as [[off len]|] eqn:Er.
    + destruct (resolve_inside r (size fi) off len) as (? & ? & ?); [lia|by apply Hok|done|].
      destruct (get_body_ec c backends bucket key fi unit pds (Some r) off len Ho) as (s & Hget & Hy); [split; [done|lia]|].
      exists s. simpl in Hget. rewrite Er in Hget. by split.
    + eexists. split; [apply get_body_refused; simpl; try done; lia|by split].
  - destruct (get_body_ec c backends bucket key fi unit pds None 0 (size fi) Ho) as (s & Hget & Hy); [done|].
    exists s. split; [done|]. rewrite eo_size0, Nat2Z.id, take_ge in Hy by (rewrite length_drop; lia). done.
Qed.

Lemma inline_reader fr : data fi = Some fr → fr ≠ [] → Forall (λ f, f ≠ []) fr →
  size fi = Z.of_nat (length (concat fr)) → (size fi < u64_mod)%Z →
  ObjectReader (H := body_stream_stream c) (get_body backends bucket key fi) (to_object_info bucket fi) (concat fr).
Proof.
  intros Hd Hne Hfr Hs Hw. assert (oi_size (to_object_info bucket fi) = size fi) as Ho by (apply to_object_info_size; lia).
  split; [by rewrite Ho|by rewrite <-Hs|]. intros range _. rewrite Ho. by apply get_body_inline.
Qed.
End readers.

(** ** Properties *)

(** Range resolution follows RFC 7233: for a well-formed range over an
    object of [size] bytes it is refused exactly when no byte of the object
    falls in it, and otherwise denotes a non-empty window inside the object
    whose bytes are those the range names. *)
Theorem resolve_spec (r : ByteRange) (size : Z) (Hsize : (0 ≤ size < u64_mod)%Z)
    (Hr : match r with
          | Bounded s e => (0 ≤ s ≤ e)%Z
          | OpenEnded s => (0 ≤ s)%Z
          | Suffix k => (0 ≤ k)%Z
          end) :
  let named i := match r with
                 | Bounded s e => (s ≤ i ≤ e)%Z
                 | OpenEnded s => (s ≤ i)%Z
                 | Suffix k => (size - k ≤ i)%Z
                 end in
  match resolve r size with
  | None => ∀ i, (0 ≤ i < size)%Z → ¬ named i
  | Some (off, len) => (0 ≤ off)%Z ∧ (0 < len)%Z ∧ (off + len ≤ size)%Z
      ∧ ∀ i, (0 ≤ i < size)%Z → named i ↔ (off ≤ i < off + len)%Z
  end.
Proof.
  change u64_mod with 18446744073709551616%Z in *. destruct r as [s e|s|k]; simpl.
  - destruct (Z.eqb_spec size 0), (Z.leb_spec size s); simpl; try (intros i Hi; lia).
    change u64_mod with 18446744073709551616%Z. rewrite Z.mod_small by lia.
    split_and!; lia.
  - destruct (Z.eqb_spec size 0), (Z.leb_spec size s); simpl; split_and?; try lia; intros i Hi; lia.
  - destruct (Z.eqb_spec size 0), (Z.eqb_spec k 0); simpl; split_and?; try lia; intros i Hi; lia.
Qed.

Lemma resolve_spec_witness :
  resolve (Bounded 7 99) 10 = Some (7, 3)%Z
  ∧ (∀ i, (0 ≤ i < 10)%Z → (7 ≤ i ≤ 99)%Z ↔ (7 ≤ i < 7 + 3)%Z).
Proof.
  split; [reflexivity|]. destruct (resolve_spec (Bounded 7 99) 10) as (_ & _ & _ & H); [unfold u64_mod; lia|lia|exact H].
Defined.

(** C22.  GET of an erasure-coded object, whole or ranged: with at least [n]
    backends serving the shard files of each part, it returns, without a panic
    and without an error, a stream that delivers exactly the requested window
    of the object's bytes, whatever parts and stripes the seek skips. *)
Theorem get_delivers_window {St} `{ByteStream St} (c : RsCodec) (backends : list (backend St))
    (bucket key : string) (fi : FileInfo) (unit : nat) (pds : list bytes) (range : option ByteRange)
    (off len : Z)
    (Ho : ec_object c backends bucket key fi unit pds)
    (Hr : match range with
          | None => off = 0%Z ∧ len = size fi
          | Some r => resolve r (size fi) = Some (off, len) ∧ (0 ≤ off < size fi)%Z
          end) :
  ∃ s, get_body backends bucket key fi range
         = Some (Ok (to_object_info bucket fi, range ≫= λ r, resolve r (size fi), s))
    ∧ ∀ fuel, length (concat pds) < fuel →
        ∃ s', drain (H := body_stream_stream c) fuel s
              = Some (Ok (take (Z.to_nat len) (drop (Z.to_nat off) (concat pds))), s').
Proof.
  destruct (get_body_ec c backends bucket key fi unit pds range off len Ho Hr) as (s & Hget & Hy).
  exists s. split; [done|]. intros fuel Hf. destruct Ho.
  apply (drain_yields (H := body_stream_stream c)); [exact Hy|].
  rewrite length_take, length_drop. destruct range; lia.
Qed.

(** Two parts on three disks, of which the first refuses every read. *)
Definition pd1 : bytes := [x01; x02; x03].
Definition pd2 : bytes := [x0a; x0b].
Definition disk (i : nat) : backend BytesByteStream := λ _ path off len,
  if decide (i = 0) then Err (FileNotFound "b" path)
  else let d := if decide (path = "k/d/part.1") then pd1 else pd2 in
       Ok {| bb_buf := take len (drop off (shard_file xor_codec ec21 i (stripes_of 1024 1 d))) |}.
Definition sample_part (number len : Z) : ObjectPartInfo :=
  {| p_etag := "e"; p_number := number; p_size := 512; p_actual_size := len; p_mod_time_ms := 0;
     p_index := []; p_checksums := ∅ |}.
Definition sample_fi : FileInfo :=
  {| volume := "b"; name := "k"; version_id := "null"; is_latest := true; deleted := false;
     data_dir := "d"; xl_v1 := false; mod_time_ms := 7; size := 5; mode := 0; written_by_version := 0;
     metadata := ∅; meta_sys := ∅; parts := [sample_part 1 3; sample_part 2 2];
     erasure := {| algorithm := "ReedSolomon"; data_blocks := 2; parity_blocks := 1; block_size := 1024;
                   index := 1; distribution := [1; 2; 3]; checksums := [] |};
     data := None; num_versions := 1; fresh := false; idx := 0; checksum := []; versioned := false |}.

Lemma sample_object :
  ec_object xor_codec [disk 0; disk 1; disk 2] "b" "k" sample_fi 512 [pd1; pd2].
Proof.
  split; try done.
  - split_and!; [apply xor_codec_mds|simpl; lia|lia|done].
  - simpl. lia.
  - assert (∀ p d path, u64_len (p_actual_size p) = length d → length d ≤ 3 →
      path = "k/d/part.1" ∧ d = pd1 ∨ path = "k/d/part.2" ∧ d = pd2 → ∀ start,
      start * 1024 ≤ length d → start < Nat.max (div_ceil (length d) 1024) 1 →
      part_readable xor_codec [disk 0; disk 1; disk 2] "b" path ec21 512 p start d) as Hp.
    { intros p d path Hl H3 Hd start Hle Hst. assert (start = 0) as -> by lia.
      assert (Nat.max (div_ceil (length d) 1024) 1 = 1) as Hs1.
      { unfold div_ceil. assert ((length d + 1024 - 1) / 1024 < 2)
          by (apply Nat.Div0.div_lt_upper_bound; lia). lia. }
      split_and!; [done|done|done|]. exists [false; true; true]. split; [done|]. split; [simpl; lia|].
      change (data_shards ec21 * 512) with 1024. rewrite Hs1.
      intros [|[|[|i]]] g b Hg Hb; simpl in Hg, Hb; simplify_eq;
        destruct Hd as [[-> ->]|[-> ->]]; reflexivity. }
    apply Forall2_cons; split; [|apply Forall2_cons; split; [|by apply Forall2_nil]];
      (split; [done|]); apply Hp; auto; simpl; lia.
Qed.

Lemma get_delivers_window_witness : ∃ s,
  get_body [disk 0; disk 1; disk 2] "b" "k" sample_fi (Some (Bounded 2 3))
    = Some (Ok (to_object_info "b" sample_fi, Some (2, 2)%Z, s))
  ∧ ∃ s', drain (H := body_stream_stream xor_codec) 6 s = Some (Ok [x03; x0a], s').
Proof.
  destruct (get_delivers_window xor_codec [disk 0; disk 1; disk 2] "b" "k" sample_fi 512 [pd1; pd2]
    (Some (Bounded 2 3)) 2 2 sample_object) as (s & Hget & Hdrain).
  - split; [reflexivity|simpl; lia].
  - exists s. split; [exact Hget|]. apply (Hdrain 6). simpl. lia.
Defined.

(** GET of an inline object: the stream delivers exactly the requested
    window of the frames kept in the record; a range that cannot be satisfied
    is reported by the missing window and an empty body, for any object. *)
Theorem get_inline_window {St} `{ByteStream St} (c : RsCodec) (backends : list (backend St))
    (bucket key : string) (fi : FileInfo) (fr : list bytes) (range : option ByteRange)
    (Hdata : data fi = Some fr) (Hne : fr ≠ []) (Hfr : Forall (λ f, f ≠ []) fr)
    (Hsize : size fi = Z.of_nat (length (concat fr))) (Hw : (size fi < u64_mod)%Z) :
  ∃ s, get_body backends bucket key fi range
         = Some (Ok (to_object_info bucket fi, range ≫= λ r, resolve r (size fi), s))
    ∧ ∀ fuel, length (concat fr) < fuel →
        ∃ s', drain (H := body_stream_stream c) fuel s = Some (Ok (asked range (concat fr)), s').
Proof.
  destruct (get_body_inline c backends bucket key fi fr range) as (s & Hget & Hy); [done..|].
  exists s. split; [done|]. intros fuel Hf. apply (drain_yields (H := body_stream_stream c)); [exact Hy|].
  pose proof (length_asked range (concat fr)). lia.
Qed.

Definition inline_fi : FileInfo :=
  {| volume := "b"; name := "k"; version_id := "null"; is_latest := true; deleted := false;
     data_dir := ""; xl_v1 := false; mod_time_ms := 7; size := 5; mode := 0; written_by_version := 0;
     metadata := ∅; meta_sys := ∅; parts := []; erasure := ErasureInfo_default;
     data := Some [pd1; pd2]; num_versions := 1; fresh := false; idx := 0; checksum := [];
     versioned := false |}.

Lemma get_inline_window_witness : ∃ s,
  get_body (St := BytesByteStream) [] "b" "k" inline_fi (Some (Suffix 3))
    = Some (Ok (to_object_info "b" inline_fi, Some (2, 3)%Z, s))
  ∧ ∃ s', drain (H := body_stream_stream xor_codec) 6 s = Some (Ok [x03; x0a; x0b], s').
Proof.
  destruct (get_inline_window (St := BytesByteStream) xor_codec [] "b" "k" inline_fi [pd1; pd2]
    (Some (Suffix 3))) as (s & Hget & Hdrain); [done|done|by repeat constructor|done|done|].
  exists s. split; [exact Hget|]. apply (Hdrain 6). simpl. lia.
Defined.
