(* ===== verification/Consensus.v ===== *)
(** * The read consensus

    [Engine::read_with_consensus] of [openlake_storage/src/engine.rs] with its
    helpers [dominant_error], [common_parity], [common_etag],
    [record_etag_matches], [decode_contract_hash] and [erasure_is_valid].  The
    answers of the backends' [read_version] calls are the input.  BLAKE3 is a
    parameter, and so is the iteration order of the hash maps. *)

From stdpp Require Import base gmap strings list pretty.
From S2P Require Import Prelude Types.

Definition erasure_is_valid (ei : ErasureInfo) : bool :=
  negb (data_blocks ei =? 0)
  && (parity_blocks ei <=? data_blocks ei)
  && (length (distribution ei) =? data_blocks ei + parity_blocks ei)
  && negb ((index ei =? 0) || (data_blocks ei + parity_blocks ei <? index ei)).

Definition record_etag_matches (fi : FileInfo) (etag : string) : bool :=
  bool_decide (metadata fi !! ETAG_META_KEY = Some etag).

(** The bytes [decode_contract_hash] feeds to the hasher. *)
Definition contract_bytes (fi : FileInfo) : list byte :=
  str_bytes (version_id fi)
  ++ le_bytes 8 (mod_time_ms fi)
  ++ (if metadata fi !! ETAG_META_KEY is Some etag then str_bytes etag else [])
  ++ [if deleted fi then x01 else x00]
  ++ concat ((λ p, le_bytes 4 (p_number p) ++ le_bytes 8 (p_size p)) <$> parts fi)
  ++ (if negb (deleted fi) && negb (size fi =? 0)%Z then
        [u8_byte (data_blocks (erasure fi)); u8_byte (parity_blocks (erasure fi))]
        ++ le_bytes 4 (block_size (erasure fi))
        ++ (u8_byte <$> distribution (erasure fi))
      else []).

(** Errors that only say a peer is unreachable do not vote. *)
Definition liveness_noise (e : IoError) : bool :=
  match e with
  | Io io => match io_kind io with KindConnectionRefused | KindTimedOut => true | _ => false end
  | _ => false
  end.

Definition voting_errors (errs : list (option IoError)) : list IoError :=
  filter (λ e, liveness_noise e = false) (omap id errs).

(** The parity a record votes for. *)
Definition parity_vote (n : nat) (fi : FileInfo) : nat :=
  if deleted fi || (size fi =? 0)%Z then (n / 2) mod 256 else parity_blocks (erasure fi).
Definition parity_votes (n : nat) (metas : list (option FileInfo)) : list nat :=
  parity_vote n <$> filter (λ m, erasure_is_valid (erasure m) = true) (omap id metas).

(** The etags that vote. *)
Definition etag_vote (fi : FileInfo) : option string :=
  match metadata fi !! ETAG_META_KEY with
  | Some e => if decide (e = "") then None else Some e
  | None => None
  end.
Definition etag_votes (metas : list (option FileInfo)) : list string := omap etag_vote (omap id metas).

Section consensus.
Context (blake3 : list byte → list byte).
Context {HS : HashIter string} {HN : HashIter nat} {HB : HashIter (list byte)}.

Definition decode_contract_hash (fi : FileInfo) : list byte := blake3 (contract_bytes fi).

Definition dominant_error (errs : list (option IoError)) : nat * option IoError :=
  let counts := entry_fold (λ e, (0, e)) (λ s _, (S s.1, s.2))
                  ((λ e, (error_tag e, e)) <$> voting_errors errs) in
  match max_by_key (λ te : string * (nat * IoError), te.2.1) (hash_iter counts) with
  | Some (_, (c, e)) => (c, Some (clone_io_error e))
  | None => (0, None)
  end.

(** [n - p] does not fit when [p > n]; with overflow checks off it wraps to a
    quorum no count reaches. *)
Definition parity_unmet (n p occ : nat) : bool := (n <? p) || (occ <? n - p).
Definition parity_step (n : nat) (best : option (nat * nat)) (po : nat * nat) : option (nat * nat) :=
  if parity_unmet n po.1 po.2 then best
  else match best with
       | None => Some po
       | Some prev => if prev.2 <? po.2 then Some po else best
       end.
Definition common_parity (metas : list (option FileInfo)) (n : nat) : option nat :=
  fst <$> foldl (parity_step n) None (hash_iter (tally (parity_votes n metas))).

Definition common_etag (metas : list (option FileInfo)) (quorum : nat) : option string :=
  match max_by_key snd (hash_iter (tally (etag_votes metas))) with
  | Some (winner, count) => if quorum <=? count then Some winner else None
  | None => None
  end.

(** The records with the winning etag, under their hash. *)
Definition hash_entries (etag : string) (metas : list (option FileInfo)) : list (list byte * nat) :=
  omap (λ im : nat * option FileInfo,
    match im.2 with
    | Some fi => if record_etag_matches fi etag then Some (decode_contract_hash fi, im.1) else None
    | None => None
    end) (enumerate metas).
Definition hash_counts (etag : string) (metas : list (option FileInfo)) : gmap (list byte) (nat * list nat) :=
  entry_fold (λ _, (0, [])) (λ s i, (S s.1, s.2 ++ [i])) (hash_entries etag metas).

(** The votes on the records, after the error gate: the index of the chosen
    backend and its record.  [None] is a panic of [winner_disks[0]] or of the
    final [expect]. *)
Definition vote_records (n : nat) (metas : list (option FileInfo)) (bucket key : string) :
    option (StorageResult (nat * FileInfo)) :=
  match common_parity metas n with
  | None => Some (Err (InsufficientOnlineDrives bucket key
              "no parity value reached its quorum across the set"))
  | Some parity =>
      let d := n - parity in
      match common_etag metas d with
      | None => Some (Err (InconsistentMeta bucket key
                  ("no etag reached quorum " +:+ pretty d +:+ " (have "
                   +:+ pretty (length (omap id metas)) +:+ " valid records)")))
      | Some etag =>
          match max_by_key fst (snd <$> hash_iter (hash_counts etag metas)) with
          | None => Some (Err (InconsistentMeta bucket key "no records matched the winning etag"))
          | Some (winner_count, winner_disks) =>
              if winner_count <? d then
                Some (Err (InconsistentMeta bucket key
                  ("decode-contract hash reached only " +:+ pretty winner_count +:+ "/"
                   +:+ pretty d +:+ " disks")))
              else
                i ← head winner_disks;
                m ← metas !! i;
                fi ← m;
                Some (Ok (i, fi))
          end
      end
  end.

Definition read_with_consensus (bucket key : string) (results : list (IoResult FileInfo)) :
    option (StorageResult (nat * FileInfo)) :=
  let n := length results in
  let metas := res_ok <$> results in
  let errs := (λ r : IoResult FileInfo, if r is Err e then Some e else None) <$> results in
  let half := Nat.max (n / 2) 1 in
  match dominant_error errs with
  | (max_err_count, Some e) =>
      if half <=? max_err_count then Some (Err (map_object_missing bucket key e))
      else vote_records n metas bucket key
  | (_, None) => vote_records n metas bucket key
  end.
End consensus.

(** ** Lemmas: each vote is decided by its counts *)

Lemma foldl_pair_count {A B} (l : list A) (c : nat) (b : B) :
  foldl (λ (s : nat * B) _, (S s.1, s.2)) (c, b) l = (c + length l, b).
Proof. revert c. induction l as [|x l IH]; intros c; simpl; [by rewrite Nat.add_0_r|]. rewrite IH. f_equal. lia. Qed.

Lemma foldl_pair_list {A} (l : list A) (c : nat) (js : list A) :
  foldl (λ (s : nat * list A) i, (S s.1, s.2 ++ [i])) (c, js) l = (c + length l, js ++ l).
Proof.
  revert c js. induction l as [|x l IH]; intros c js; simpl; [by rewrite Nat.add_0_r, app_nil_r|].
  rewrite IH, <-app_assoc. f_equal. lia.
Qed.

Definition tags (errs : list (option IoError)) : list string := error_tag <$> voting_errors errs.

Lemma length_payloads_keyed {A K} `{EqDecision K} (f : A → K) (k : K) (l : list A) :
  length (payloads k ((λ a, (f a, a)) <$> l)) = count k (f <$> l).
Proof.
  unfold count. induction l as [|x l IH]; [done|].
  rewrite !fmap_cons, payloads_cons, filter_cons. simpl. case_decide; simpl; by rewrite IH.
Qed.

Section vote_lemmas.
Context (blake3 : list byte → list byte).
Context {HS : HashIter string} {HN : HashIter nat} {HB : HashIter (list byte)}.

(** The gate: the count reported is the largest of the per-tag counts. *)
Lemma dominant_error_spec errs :
  match dominant_error errs with
  | (c, Some e) => e ∈ voting_errors errs ∧ c = count (error_tag e) (tags errs)
      ∧ ∀ t, count t (tags errs) ≤ c
  | (_, None) => voting_errors errs = []
  end.
Proof.
  unfold dominant_error. set (l := (λ e, (error_tag e, e)) <$> voting_errors errs).
  set (counts := entry_fold _ _ l).
  assert (∀ t, counts !! t = match payloads t l with [] => None | e :: es => Some (S (length es), e) end) as Hlk.
  { intros t. unfold counts. rewrite entry_fold_lookup. destruct (payloads t l); [done|].
    simpl. by rewrite foldl_pair_count. }
  assert (∀ t, length (payloads t l) = count t (tags errs)) as Hlen by (intros; apply length_payloads_keyed).
  destruct (max_by_key _ (hash_iter counts)) as [[t [c e]]|] eqn:Em.
  - pose proof (max_by_key_elem _ _ _ Em) as Hin. rewrite elem_of_hash_iter, Hlk in Hin.
    destruct (payloads t l) as [|e' es] eqn:Ep; [done|]. injection Hin as <- <-.
    assert (e' ∈ voting_errors errs ∧ t = error_tag e') as [He' ->].
    { assert (e' ∈ payloads t l) as Hp by (rewrite Ep; left).
      apply elem_of_payloads, list_elem_of_fmap in Hp as (x & [= -> ->] & Hx). done. }
    rewrite clone_io_error_id. split_and!; [done|by rewrite <-Hlen, Ep|].
    intros t'. rewrite <-Hlen. destruct (payloads t' l) as [|e2 es2] eqn:Ep2; [simpl; lia|].
    assert ((t', (S (length es2), e2)) ∈ hash_iter counts) as Hin2 by (rewrite elem_of_hash_iter, Hlk, Ep2; done).
    apply (max_by_key_max _ _ _ _ Em Hin2).
  - apply max_by_key_None in Em. destruct (voting_errors errs) as [|e es] eqn:Ev; [done|]. exfalso.
    assert (e ∈ payloads (error_tag e) l) as Hp.
    { apply elem_of_payloads. unfold l. rewrite ?Ev, fmap_cons. left. }
    specialize (Hlk (error_tag e)). destruct (payloads (error_tag e) l) as [|e' es'] eqn:Ep; [by apply elem_of_nil in Hp|].
    apply elem_of_hash_iter in Hlk. rewrite Em in Hlk. by apply elem_of_nil in Hlk.
Qed.

Lemma parity_fold n l best :
  match foldl (parity_step n) best l with
  | Some po => best = Some po ∨ (po ∈ l ∧ parity_unmet n po.1 po.2 = false)
  | None => best = None ∧ ∀ po, po ∈ l → parity_unmet n po.1 po.2 = true
  end.
Proof.
  revert best. induction l as [|po l IH]; intros best; simpl.
  { destruct best; [by left|]. split; [done|]. by intros po ?%elem_of_nil. }
  specialize (IH (parity_step n best po)). destruct (foldl _ _ l) as [po'|].
  - destruct IH as [IH|[? ?]]; [|right; split; [by right|done]]. unfold parity_step in IH.
    destruct (parity_unmet n po.1 po.2) eqn:E; [by left|].
    destruct best as [prev|]; [case_bool|]; simplify_eq; try (by left); right; (split; [left|done]).
  - destruct IH as [Hb Hl]. unfold parity_step in Hb. destruct (parity_unmet n po.1 po.2) eqn:E.
    + split; [done|]. intros x [->|?]%elem_of_cons; [done|by apply Hl].
    + destruct best as [prev|]; [case_bool|]; done.
Qed.

(** The parity kept has as many votes as any that reaches its quorum. *)
Lemma parity_fold_max n l best po : foldl (parity_step n) best l = Some po →
  (∀ b, best = Some b → b.2 ≤ po.2) ∧ ∀ q, q ∈ l → parity_unmet n q.1 q.2 = false → q.2 ≤ po.2.
Proof.
  revert best. induction l as [|x l IH]; intros best; simpl.
  { intros ->. split; [by intros b [= ->]|]. by intros q ?%elem_of_nil. }
  intros [Hb Hl]%IH. unfold parity_step in Hb. split.
  - intros b ->. destruct (parity_unmet n x.1 x.2); [by apply Hb|]. destruct (b.2 <? x.2) eqn:E; to_prop; [|by apply Hb].
    specialize (Hb x eq_refl). lia.
  - intros q [->|Hq]%elem_of_cons Hmet; [|by apply Hl]. rewrite Hmet in Hb. destruct best as [b|]; [|by apply Hb].
    destruct (b.2 <? x.2) eqn:E; to_prop; [by apply Hb|]. specialize (Hb b eq_refl). lia.
Qed.
Lemma common_parity_max metas n p : common_parity metas n = Some p →
  ∀ q, q ∈ parity_votes n metas → q ≤ n → n - q ≤ count q (parity_votes n metas) →
    count q (parity_votes n metas) ≤ count p (parity_votes n metas).
Proof.
  unfold common_parity. destruct (foldl _ _ _) as [[p' occ]|] eqn:E; [|done]. intros [= <-] q Hq Hqn Hqc.
  pose proof (parity_fold n (hash_iter (tally (parity_votes n metas))) None) as Hf. rewrite E in Hf.
  destruct Hf as [?|[Hin _]]; [done|]. apply elem_of_hash_iter, tally_Some in Hin as [-> _].
  refine (proj2 (parity_fold_max _ _ _ _ E) (q, count q (parity_votes n metas)) _ _).
  - apply elem_of_hash_iter, tally_Some. split; [done|]. by apply count_elem_of.
  - unfold parity_unmet. cbn. apply orb_false_iff. split; apply Nat.ltb_ge; lia.
Qed.

Lemma common_parity_spec metas n :
  match common_parity metas n with
  | Some p => p ≤ n ∧ n - p ≤ count p (parity_votes n metas) ∧ p ∈ parity_votes n metas
  | None => ∀ p, p ∈ parity_votes n metas → p ≤ n → count p (parity_votes n metas) < n - p
  end.
Proof.
  unfold common_parity. pose proof (parity_fold n (hash_iter (tally (parity_votes n metas))) None) as Hf.
  destruct (foldl _ _ _) as [[p occ]|]; simpl.
  - destruct Hf as [?|[Hin Hq]]; [done|]. apply elem_of_hash_iter, tally_Some in Hin as [-> Hpos].
    unfold parity_unmet in Hq. simpl in Hq. to_prop. split_and!; [lia|lia|by apply count_elem_of].
  - destruct Hf as [_ Hf]. intros p Hp Hle. apply count_elem_of in Hp as Hpos.
    assert ((p, count p (parity_votes n metas)) ∈ hash_iter (tally (parity_votes n metas))) as Hin.
    { apply elem_of_hash_iter, tally_Some. done. }
    specialize (Hf _ Hin). unfold parity_unmet in Hf. simpl in Hf.
    apply orb_true_iff in Hf as [Hf|Hf]; to_prop; lia.
Qed.

Lemma common_etag_spec metas q :
  match common_etag metas q with
  | Some e => q ≤ count e (etag_votes metas) ∧ (∀ e', count e' (etag_votes metas) ≤ count e (etag_votes metas))
              ∧ e ∈ etag_votes metas
  | None => 0 < q → ∀ e, count e (etag_votes metas) < q
  end.
Proof.
  unfold common_etag. set (votes := etag_votes metas).
  assert (∀ e, e ∈ votes → (e, count e votes) ∈ hash_iter (tally votes)) as Hin.
  { intros e He. apply elem_of_hash_iter, tally_Some. split; [done|]. by apply count_elem_of. }
  destruct (max_by_key snd (hash_iter (tally votes))) as [[w k]|] eqn:Em.
  - pose proof (max_by_key_elem _ _ _ Em) as Hw. apply elem_of_hash_iter, tally_Some in Hw as [-> Hpos].
    assert (∀ e, count e votes ≤ count w votes) as Hmax.
    { intros e. destruct (decide (e ∈ votes)) as [He|He]; [apply (max_by_key_max _ _ _ _ Em (Hin e He))|].
      rewrite <-count_elem_of in He. lia. }
    case_bool; to_prop; [split_and!; [done|done|by apply count_elem_of]|]. intros _ e. specialize (Hmax e). lia.
  - apply max_by_key_None in Em. intros Hq e. destruct (decide (e ∈ votes)) as [He|He].
    + apply Hin in He. rewrite Em in He. by apply elem_of_nil in He.
    + rewrite <-count_elem_of in He. lia.
Qed.

(** The disks recorded under a hash. *)
Definition disks_with (etag : string) (metas : list (option FileInfo)) (h : list byte) : list nat :=
  payloads h (hash_entries blake3 etag metas).

Lemma hash_counts_lookup etag metas h :
  hash_counts blake3 etag metas !! h =
    if decide (disks_with etag metas h = []) then None
    else Some (length (disks_with etag metas h), disks_with etag metas h).
Proof.
  unfold hash_counts, disks_with. rewrite entry_fold_lookup. destruct (payloads h _) as [|i js]; [done|].
  rewrite decide_False by done. simpl. by rewrite foldl_pair_list.
Qed.

Lemma elem_of_disks_with etag metas h i :
  i ∈ disks_with etag metas h ↔
    ∃ fi, metas !! i = Some (Some fi) ∧ record_etag_matches fi etag = true ∧ decode_contract_hash blake3 fi = h.
Proof.
  unfold disks_with. rewrite elem_of_payloads. unfold hash_entries. rewrite list_elem_of_omap. split.
  - intros ([j [fi|]] & Hj%elem_of_enumerate & Hx); simpl in Hx; [|done].
    destruct (record_etag_matches fi etag) eqn:E; [|done]. injection Hx as <- ->. by exists fi.
  - intros (fi & Hi & He & <-). exists (i, Some fi). rewrite elem_of_enumerate. simpl. by rewrite He.
Qed.

(** What a decided vote means, without reference to any iteration order: a
    parity [p] with its quorum, a most frequent etag and a contract hash, each
    with at least [n - p] supporters, and the first disk of that hash. *)
Definition reached_with (n : nat) (metas : list (option FileInfo)) (i : nat) (fi : FileInfo) (p : nat) (etag : string) : Prop :=
  (p ≤ n) ∧ p ∈ parity_votes n metas ∧ n - p ≤ count p (parity_votes n metas)
    ∧ etag ∈ etag_votes metas ∧ n - p ≤ count etag (etag_votes metas) ∧ record_etag_matches fi etag = true
    ∧ n - p ≤ length (disks_with etag metas (decode_contract_hash blake3 fi))
    ∧ head (disks_with etag metas (decode_contract_hash blake3 fi)) = Some i
    ∧ metas !! i = Some (Some fi).
Definition consensus_reached (n : nat) (metas : list (option FileInfo)) (i : nat) (fi : FileInfo) : Prop :=
  ∃ p etag, reached_with n metas i fi p etag.

Lemma elem_of_hash_values etag metas (c : nat) (ds : list nat) :
  (c, ds) ∈ (snd <$> hash_iter (hash_counts blake3 etag metas)) ↔
    ∃ h, ds = disks_with etag metas h ∧ ds ≠ [] ∧ c = length ds.
Proof.
  rewrite list_elem_of_fmap. split.
  - intros ([h [c' ds']] & [= -> ->] & Hin). rewrite elem_of_hash_iter, hash_counts_lookup in Hin.
    case_decide; [done|]. injection Hin as <- <-. by exists h.
  - intros (h & -> & Hne & ->). exists (h, (length (disks_with etag metas h), disks_with etag metas h)).
    split; [done|]. rewrite elem_of_hash_iter, hash_counts_lookup. by rewrite decide_False.
Qed.

(** And that no other candidate had more votes. *)
Definition winners (n : nat) (metas : list (option FileInfo)) (p : nat) (etag : string) : Prop :=
  (∀ q, q ∈ parity_votes n metas → q ≤ n → n - q ≤ count q (parity_votes n metas) →
     count q (parity_votes n metas) ≤ count p (parity_votes n metas))
  ∧ ∀ e, count e (etag_votes metas) ≤ count etag (etag_votes metas).
Lemma vote_records_wins n metas bucket key :
  ∃ r, vote_records blake3 n metas bucket key = Some r
    ∧ ∀ i fi, r = Ok (i, fi) → ∃ p etag, winners n metas p etag ∧ reached_with n metas i fi p etag.
Proof.
  unfold vote_records. pose proof (common_parity_spec metas n) as Hp.
  pose proof (common_parity_max metas n) as Hpm. destruct (common_parity metas n) as [p|]; [|by eexists].
  destruct Hp as (Hp1 & Hp2 & Hp3). specialize (Hpm p eq_refl). pose proof (common_etag_spec metas (n - p)) as He.
  destruct (common_etag metas (n - p)) as [etag|]; [|by eexists]. destruct He as (He1 & He2 & He3).
  destruct (max_by_key fst _) as [[c ds]|] eqn:Em; [|by eexists].
  pose proof (max_by_key_elem _ _ _ Em) as Hin. apply elem_of_hash_values in Hin as (h & -> & Hne & ->).
  case_bool; to_prop; [by eexists|].
  destruct (disks_with etag metas h) as [|i ds] eqn:Ed; [done|]. simpl.
  assert (i ∈ disks_with etag metas h) as Hi by (rewrite Ed; left).
  apply elem_of_disks_with in Hi as (fi & Hm & Hr & Hh). rewrite Hm. simpl.
  eexists. split; [done|]. intros i' fi' [= <- <-]. exists p, etag. split; [done|]. unfold reached_with. rewrite Hh, Ed.
  split_and!; done.
Qed.
Lemma vote_records_spec n metas bucket key :
  ∃ r, vote_records blake3 n metas bucket key = Some r
    ∧ ∀ i fi, r = Ok (i, fi) → consensus_reached n metas i fi.
Proof.
  destruct (vote_records_wins n metas bucket key) as (r & Hv & Hr). exists r. split; [done|]. intros i fi Ho.
  destruct (Hr i fi Ho) as (p & etag & _ & H). by exists p, etag.
Qed.

Lemma length_payloads_count {A} (h : list byte) (l : list (list byte * A)) :
  length (payloads h l) = count h l.*1.
Proof.
  unfold count. induction l as [|[k a] l IH]; [done|].
  rewrite payloads_cons, fmap_cons, filter_cons. simpl. case_decide; simpl; by rewrite IH.
Qed.

(** When every parity voted for leaves a majority of data shards, the decision
    is forced. *)
Lemma vote_records_complete n metas bucket key i fi :
  length metas = n → (∀ p, p ∈ parity_votes n metas → 2 * p < n) →
  consensus_reached n metas i fi → vote_records blake3 n metas bucket key = Some (Ok (i, fi)).
Proof.
  intros Hn Hmaj (p & etag & Hpn & Hpv & Hpc & Hev & Hec & Hem & Hdc & Hhd & Hi).
  assert (length (parity_votes n metas) ≤ n) as Hlp.
  { unfold parity_votes. rewrite length_fmap. etrans; [apply length_filter|]. rewrite <-Hn. apply length_omap. }
  assert (length (etag_votes metas) ≤ n) as Hle.
  { unfold etag_votes. etrans; [apply length_omap|]. rewrite <-Hn. apply length_omap. }
  assert (2 * p < n) as Hp2 by by apply Hmaj.
  unfold vote_records. pose proof (common_parity_spec metas n) as Hp.
  destruct (common_parity metas n) as [p'|]; [|specialize (Hp p Hpv Hpn); lia].
  destruct Hp as (Hp1 & Hpc' & Hpv'). specialize (Hmaj p' Hpv').
  assert (p' = p) as ->.
  { destruct (decide (p' = p)) as [|Hne]; [done|].
    pose proof (count_two p' p (parity_votes n metas) Hne). lia. }
  pose proof (common_etag_spec metas (n - p)) as He.
  destruct (common_etag metas (n - p)) as [etag'|]; [|specialize (He ltac:(lia) etag); lia].
  destruct He as (He1 & He2 & _). assert (etag' = etag) as ->.
  { destruct (decide (etag' = etag)) as [|Hne]; [done|].
    pose proof (count_two etag' etag (etag_votes metas) Hne). lia. }
  set (h := decode_contract_hash blake3 fi) in *.
  assert (disks_with etag metas h ≠ []) as Hdne by (intros E; rewrite E in Hhd; done).
  assert ((length (disks_with etag metas h), disks_with etag metas h)
    ∈ snd <$> hash_iter (hash_counts blake3 etag metas)) as Hin by (apply elem_of_hash_values; by exists h).
  destruct (max_by_key fst _) as [[c ds]|] eqn:Em; cycle 1.
  { apply max_by_key_None in Em. rewrite Em in Hin. by apply elem_of_nil in Hin. }
  pose proof (max_by_key_max _ _ _ _ Em Hin) as Hmax. simpl in Hmax.
  pose proof (max_by_key_elem _ _ _ Em) as Hin'. apply elem_of_hash_values in Hin' as (h' & -> & Hne' & ->).
  assert (h' = h) as ->.
  { destruct (decide (h' = h)) as [|Hne]; [done|]. unfold disks_with in *.
    pose proof (count_two h' h (hash_entries blake3 etag metas).*1 Hne) as Hc.
    rewrite <-!length_payloads_count, length_fmap in Hc.
    assert (length (hash_entries blake3 etag metas) ≤ n).
    { unfold hash_entries. etrans; [apply length_omap|]. by rewrite length_enumerate, Hn. }
    lia. }
  rewrite (proj2 (Nat.ltb_ge _ _)) by lia. rewrite Hhd. simpl. by rewrite Hi.
Qed.
End vote_lemmas.

(** ** The whole call *)

Lemma lookup_res_ok (results : list (IoResult FileInfo)) i fi :
  (res_ok <$> results) !! i = Some (Some fi) → results !! i = Some (Ok fi).
Proof.
  rewrite list_lookup_fmap. intros (r & -> & Hr)%fmap_Some. destruct r; simpl in Hr; congruence.
Qed.

Lemma etag_votes_nonempty metas etag : etag ∈ etag_votes metas → etag ≠ "".
Proof.
  intros (fi & _ & Hv)%list_elem_of_omap. unfold etag_vote in Hv.
  destruct (metadata fi !! ETAG_META_KEY); [|done]. case_decide; congruence.
Qed.

Lemma count_all {A} `{EqDecision A} (x : A) l : (∀ y, y ∈ l → y = x) → count x l = length l.
Proof.
  induction l as [|y l IH]; intros Hl; [done|]. rewrite count_cons, IH; [|intros z ?; apply Hl; by right].
  rewrite decide_True; [done|]. apply Hl. left.
Qed.

(** Every record counted under a hash voted for the etag. *)
Lemma disks_le_etag_votes blake3 etag metas h : etag ≠ "" →
  length (disks_with blake3 etag metas h) ≤ count etag (etag_votes metas).
Proof.
  intros He. unfold disks_with, hash_entries, enumerate, etag_votes. generalize 0 as k.
  induction metas as [|[fi|] metas IH]; intros k; [done| |]; cbn [length seq zip_with];
    rewrite !omap_cons; cbn [fst snd id]; [|apply IH]. rewrite omap_cons.
  specialize (IH (S k)). unfold record_etag_matches, etag_vote in *.
  destruct (metadata fi !! ETAG_META_KEY) as [e|]; [|done].
  destruct (decide (e = etag)) as [->|Hne].
  - rewrite bool_decide_true, decide_False, payloads_cons, count_cons, (decide_True (P := etag = etag)) by done.
    cbn [fst snd]. case_decide; simpl; lia.
  - rewrite bool_decide_false by congruence. etrans; [exact IH|].
    case_decide; [done|]. rewrite count_cons. lia.
Qed.

(** The error side of the answers. *)
Definition answer_errors (results : list (IoResult FileInfo)) : list (option IoError) :=
  (λ r : IoResult FileInfo, if r is Err e then Some e else None) <$> results.

Section whole.
Context (blake3 : list byte → list byte) (bucket key : string) (results : list (IoResult FileInfo)).
Context {HS : HashIter string} {HN : HashIter nat} {HB : HashIter (list byte)}.

Definition gate_open : Prop := ∀ t, count t (tags (answer_errors results)) < Nat.max (length results / 2) 1.

(** The gate passes exactly when no kind of error reaches half of the set. *)
Lemma consensus_gate :
  (gate_open ∧ read_with_consensus blake3 bucket key results
     = vote_records blake3 (length results) (res_ok <$> results) bucket key)
  ∨ (¬ gate_open ∧ ∃ e, e ∈ voting_errors (answer_errors results)
       ∧ read_with_consensus blake3 bucket key results = Some (Err (map_object_missing bucket key e))).
Proof.
  unfold read_with_consensus. fold (answer_errors results).
  pose proof (dominant_error_spec (answer_errors results)) as Hd.
  destruct (dominant_error (answer_errors results)) as [c [e|]].
  - destruct Hd as (He & -> & Hmax). case_bool; to_prop.
    + right. split; [|by exists e]. intros Hg. specialize (Hg (error_tag e)). lia.
    + left. split; [|done]. intros t. specialize (Hmax t). lia.
  - left. split; [|done]. intros t. unfold tags. rewrite Hd.
    change (0 < Nat.max (length results / 2) 1). lia.
Qed.
End whole.

Lemma voting_errors_mix (a b : nat) (e : IoError) (fi : FileInfo) : liveness_noise e = false →
  voting_errors (answer_errors (replicate a (Err e) ++ replicate b (Ok fi))) = replicate a e.
Proof.
  intros He. unfold voting_errors, answer_errors. induction a as [|a IH].
  - simpl. induction b as [|b IH]; [done|apply IH].
  - simpl replicate. simpl app. rewrite fmap_cons, omap_cons. cbn [id].
    rewrite filter_cons_True by done. by rewrite IH.
Qed.

Lemma omap_fmap_res_ok (results : list (IoResult FileInfo)) :
  omap (λ m, m) (res_ok <$> results) = omap res_ok results.
Proof. induction results as [|[] rs IH]; [done|..]; cbn; rewrite <-IH; done. Qed.

Lemma answers_count (results : list (IoResult FileInfo)) :
  length (omap id (answer_errors results)) + length (omap res_ok results) = length results.
Proof.
  unfold answer_errors. induction results as [|[fi|e] rs IH]; [done|..]; rewrite fmap_cons, !omap_cons; cbn [res_ok id length];
    lia.
Qed.

(** Every record is counted under the hash they share. *)
Lemma disks_with_all blake3 etag metas h :
  (∀ fi, fi ∈ omap (λ m, m) metas → record_etag_matches fi etag = true ∧ decode_contract_hash blake3 fi = h) →
  length (disks_with blake3 etag metas h) = length (omap (λ m, m) metas).
Proof.
  unfold disks_with, hash_entries, enumerate. generalize 0 as k.
  induction metas as [|[fi|] metas IH]; intros k Hall; [done| |]; cbn [length seq zip_with];
    rewrite !omap_cons; cbn [fst snd]; [|apply IH; intros fi Hfi; by apply Hall].
  destruct (Hall fi) as [-> ->]; [rewrite omap_cons; left|]. rewrite payloads_cons, decide_True by done.
  simpl. f_equal. apply IH. intros fi' Hfi'. apply Hall. rewrite omap_cons. by right.
Qed.

(** When the records returned all agree, any of the orders picks the first of
    them, provided enough backends answered. *)
Lemma consensus_unanimous {HS : HashIter string} {HN : HashIter nat} {HB : HashIter (list byte)}
    (blake3 : list byte → list byte) (bucket key : string) (results : list (IoResult FileInfo)) q etag h :
  let n := length results in
  let oks := omap res_ok results in
  q < n → n - q ≤ length oks → n - length oks < Nat.max (n / 2) 1 → etag ≠ "" →
  Forall (λ fi, erasure_is_valid (erasure fi) = true ∧ parity_vote n fi = q
                ∧ metadata fi !! ETAG_META_KEY = Some etag ∧ decode_contract_hash blake3 fi = h) oks →
  ∃ i fi, read_with_consensus blake3 bucket key results = Some (Ok (i, fi)) ∧ results !! i = Some (Ok fi).
Proof.
  intros n oks Hq Henough Hfew Hne Hall. rewrite Forall_forall in Hall. set (metas := res_ok <$> results).
  assert (omap (λ m, m) metas = oks) as Hm by apply omap_fmap_res_ok.
  assert (parity_votes n metas = replicate (length oks) q) as Hpv.
  { unfold parity_votes. change (omap id metas) with (omap (λ m, m) metas). rewrite Hm, filter_all by (intros fi Hfi; by apply Hall).
    symmetry. apply replicate_as_elem_of. split; [by rewrite length_fmap|].
    intros y (fi & -> & Hfi)%list_elem_of_fmap. by apply Hall. }
  assert (etag_votes metas = replicate (length oks) etag) as Hev.
  { unfold etag_votes. change (omap id metas) with (omap (λ m, m) metas). rewrite Hm.
    clear -Hall Hne. induction oks as [|fi fis IH]; [done|]. rewrite omap_cons. unfold etag_vote at 1.
    destruct (Hall fi) as (_ & _ & -> & _); [left|]. rewrite decide_False by done. simpl. f_equal.
    apply IH. intros fi' Hfi'. apply Hall. by right. }
  assert (∀ i fi, metas !! i = Some (Some fi) → fi ∈ oks) as Hin.
  { intros i fi Hi. rewrite <-Hm. apply list_elem_of_omap. exists (Some fi). split; [|done]. by eapply list_elem_of_lookup_2. }
  destruct (consensus_gate blake3 bucket key results) as [[_ ->]|[Hno _]]; cycle 1.
  { exfalso. apply Hno. intros t. eapply Nat.le_lt_trans; [apply count_le_length|].
    unfold tags. rewrite length_fmap. eapply Nat.le_lt_trans; [|exact Hfew].
    unfold voting_errors. etrans; [apply length_filter|]. pose proof (answers_count results). unfold n, oks. lia. }
  fold n metas. unfold vote_records.
  pose proof (common_parity_spec metas n) as Hp. rewrite Hpv in Hp.
  destruct (common_parity metas n) as [p|].
  2: { specialize (Hp q). rewrite count_all, length_replicate in Hp; [|by intros y ?%elem_of_replicate_inv].
       exfalso. enough (length oks < n - q) by lia. apply Hp; [|lia]. apply elem_of_replicate. split; [done|lia]. }
  destruct Hp as (_ & _ & Hp). apply elem_of_replicate_inv in Hp as ->.
  pose proof (common_etag_spec metas (n - q)) as He. rewrite Hev in He.
  destruct (common_etag metas (n - q)) as [et|].
  2: { specialize (He ltac:(lia) etag). rewrite count_all, length_replicate in He; [lia|by intros y ?%elem_of_replicate_inv]. }
  destruct He as (_ & _ & He). apply elem_of_replicate_inv in He as ->.
  assert (length (disks_with blake3 etag metas h) = length oks) as Hdw.
  { rewrite <-Hm. apply disks_with_all. intros fi Hfi. unfold record_etag_matches. rewrite Hm in Hfi.
    destruct (Hall _ Hfi) as (_ & _ & -> & ->). by rewrite bool_decide_true. }
  assert ((length (disks_with blake3 etag metas h), disks_with blake3 etag metas h)
    ∈ snd <$> hash_iter (hash_counts blake3 etag metas)) as Hw.
  { apply elem_of_hash_values. exists h. split_and!; [done| |done]. intros E. rewrite E in Hdw. simpl in Hdw. lia. }
  destruct (max_by_key fst _) as [[c ds]|] eqn:Em; cycle 1.
  { apply max_by_key_None in Em. rewrite Em in Hw. by apply elem_of_nil in Hw. }
  pose proof (max_by_key_max _ _ _ _ Em Hw) as Hmax. simpl in Hmax.
  apply max_by_key_elem, elem_of_hash_values in Em as (h' & -> & Hne' & ->).
  rewrite (proj2 (Nat.ltb_ge _ _)) by lia.
  destruct (disks_with blake3 etag metas h') as [|i ds] eqn:Ed; [done|]. simpl.
  assert (i ∈ disks_with blake3 etag metas h') as Hi by (rewrite Ed; left).
  apply elem_of_disks_with in Hi as (fi & Hi & _). rewrite Hi. simpl. exists i, fi.
  split; [done|]. by apply lookup_res_ok.
Qed.

(** ** Properties *)

(** C6.  Soundness of a read: the consensus never panics, and a record it
    returns was returned by the backend it names, the first of those that agree
    with it, and fewer backends than half of the set failed with any one kind of
    error that votes.  Behind it are the winners of the votes: a parity [p] that a
    valid record declares, with [n - p] votes or more and no fewer than any other
    parity that reaches its own quorum, and a non-empty etag with [n - p] votes or
    more and no fewer than any other; [n - p] backends or more hold a record with
    that etag and the same decode contract.  When every valid record declares
    less than half of the set as parity, those backends are a majority. *)
Theorem consensus_sound {HS : HashIter string} {HN : HashIter nat} {HB : HashIter (list byte)}
    (blake3 : list byte → list byte) (bucket key : string) (results : list (IoResult FileInfo)) :
  ∃ out, read_with_consensus blake3 bucket key results = Some out
    ∧ ∀ i fi, out = Ok (i, fi) →
        let n := length results in
        let metas := res_ok <$> results in
        results !! i = Some (Ok fi)
        ∧ (∀ t, count t (tags (answer_errors results)) < Nat.max (n / 2) 1)
        ∧ ∃ p etag,
            let agreeing := disks_with blake3 etag metas (decode_contract_hash blake3 fi) in
            (p ∈ parity_votes n metas ∧ p ≤ n ∧ n - p ≤ count p (parity_votes n metas)
             ∧ ∀ q, q ∈ parity_votes n metas → q ≤ n → n - q ≤ count q (parity_votes n metas) →
                 count q (parity_votes n metas) ≤ count p (parity_votes n metas))
            ∧ (record_etag_matches fi etag = true ∧ etag ≠ "" ∧ n - p ≤ count etag (etag_votes metas)
               ∧ ∀ e, count e (etag_votes metas) ≤ count etag (etag_votes metas))
            ∧ head agreeing = Some i ∧ n - p ≤ length agreeing
            ∧ ((∀ q, q ∈ parity_votes n metas → 2 * q < n) → n < 2 * length agreeing).
Proof.
  destruct (vote_records_wins blake3 (length results) (res_ok <$> results) bucket key) as (r & Hv & Hr).
  destruct (consensus_gate blake3 bucket key results) as [[Hgate ->]|[_ (e & _ & ->)]]; [|by eexists].
  exists r. split; [done|]. intros i fi ->.
  destruct (Hr i fi eq_refl) as (p & etag & [Hwp Hwe] & Hpn & Hpv & Hpc & Hev & Hec & Hem & Hdc & Hhd & Hi).
  split_and!; [by apply lookup_res_ok|done|]. exists p, etag. pose proof (etag_votes_nonempty _ _ Hev) as Hne.
  split_and!; try done. intros Hmaj. specialize (Hmaj p Hpv). lia.
Qed.

(** A read does not depend on the iteration order of the hash maps: when
    every parity the records vote for is less than half of the set, the record
    returned under one order is returned, from the same backend, under any
    other. *)
Theorem consensus_order_independent
    (HS1 HS2 : HashIter string) (HN1 HN2 : HashIter nat) (HB1 HB2 : HashIter (list byte))
    (blake3 : list byte → list byte) (bucket key : string) (results : list (IoResult FileInfo))
    (i : nat) (fi : FileInfo)
    (Hmaj : ∀ p, p ∈ parity_votes (length results) (res_ok <$> results) → 2 * p < length results)
    (Hrun : read_with_consensus (HS := HS1) (HN := HN1) (HB := HB1) blake3 bucket key results = Some (Ok (i, fi))) :
  read_with_consensus (HS := HS2) (HN := HN2) (HB := HB2) blake3 bucket key results = Some (Ok (i, fi)).
Proof.
  destruct (consensus_gate (HS := HS1) (HN := HN1) (HB := HB1) blake3 bucket key results)
    as [[Hgate Hv]|[_ (e & _ & Hv)]]; rewrite Hrun in Hv; [|done].
  destruct (vote_records_spec (HS := HS1) (HN := HN1) (HB := HB1) blake3 (length results) (res_ok <$> results) bucket key)
    as (r & Hr & Hok). rewrite <-Hv in Hr. injection Hr as <-.
  destruct (consensus_gate (HS := HS2) (HN := HN2) (HB := HB2) blake3 bucket key results)
    as [[_ ->]|[Hno _]]; [|done].
  apply vote_records_complete; [apply length_fmap|done|]. by apply Hok.
Qed.

(** C25.  Availability: when the records of at least [n - p] backends agree on a
    non-empty etag and the decode contract of [fi], all valid records vote for
    the parity [p < n / 2], and no kind of error reaches half of the set, the
    read returns the first of the agreeing records. *)
Theorem consensus_available {HS : HashIter string} {HN : HashIter nat} {HB : HashIter (list byte)}
    (blake3 : list byte → list byte) (bucket key : string) (results : list (IoResult FileInfo))
    (p i : nat) (etag : string) (fi : FileInfo)
    (Hp : 2 * p < length results) (Hetag : etag ≠ "")
    (Hvotes : ∀ q, q ∈ parity_votes (length results) (res_ok <$> results) → q = p)
    (Hcount : length results - p ≤ length (parity_votes (length results) (res_ok <$> results)))
    (Hagree : length results - p ≤ length (disks_with blake3 etag (res_ok <$> results) (decode_contract_hash blake3 fi)))
    (Hfirst : head (disks_with blake3 etag (res_ok <$> results) (decode_contract_hash blake3 fi)) = Some i)
    (Hfi : results !! i = Some (Ok fi))
    (Hgate : ∀ t, count t (tags (answer_errors results)) < Nat.max (length results / 2) 1) :
  read_with_consensus blake3 bucket key results = Some (Ok (i, fi)).
Proof.
  set (n := length results) in *. set (metas := res_ok <$> results) in *.
  assert (metas !! i = Some (Some fi)) as Hm by (unfold metas; by rewrite list_lookup_fmap, Hfi).
  assert (i ∈ disks_with blake3 etag metas (decode_contract_hash blake3 fi)) as Hi by by apply head_Some_elem_of.
  apply elem_of_disks_with in Hi as (fi' & Hm' & Hem & _). assert (fi' = fi) as -> by congruence.
  assert (count p (parity_votes n metas) = length (parity_votes n metas)) as Hall by by apply count_all.
  destruct (consensus_gate blake3 bucket key results) as [[_ ->]|[Hno _]]; [|by destruct Hno].
  apply vote_records_complete; [apply length_fmap| |].
  { intros q Hq. by rewrite (Hvotes q Hq). }
  exists p, etag. fold n metas. split_and!; try done; try lia.
  - apply count_elem_of. lia.
  - apply count_elem_of. pose proof (disks_le_etag_votes blake3 etag metas (decode_contract_hash blake3 fi) Hetag). lia.
  - pose proof (disks_le_etag_votes blake3 etag metas (decode_contract_hash blake3 fi) Hetag). lia.
Qed.

(** The gate of a set of odd size fires below the majority: with
    [2 * k + 1] backends, [k] answers of "file not found" make the object "not
    found", whatever record the other [k + 1] backends agree on. *)
Theorem gate_fires_below_majority {HS : HashIter string} {HN : HashIter nat} {HB : HashIter (list byte)}
    (blake3 : list byte → list byte) (bucket key : string) (fi : FileInfo) (k : nat) (v p : string)
    (Hk : 0 < k) :
  let results := replicate k (Err (FileNotFound v p)) ++ replicate (S k) (Ok fi) in
  length results = 2 * k + 1
  ∧ read_with_consensus blake3 bucket key results = Some (Err (ObjectNotFound bucket key)).
Proof.
  intros results. assert (length results = 2 * k + 1) as Hl.
  { unfold results. rewrite length_app, !length_replicate. lia. }
  split; [done|].
  assert (voting_errors (answer_errors results) = replicate k (FileNotFound v p)) as Hv by by apply voting_errors_mix.
  destruct (consensus_gate blake3 bucket key results) as [[Hg _]|[_ (e & He & ->)]].
  - exfalso. specialize (Hg "FileNotFound"). unfold tags in Hg. rewrite Hv, fmap_replicate, count_all, length_replicate in Hg.
    + rewrite Hl in Hg. replace ((2 * k + 1) / 2) with k in Hg; [lia|].
      apply (Nat.div_unique _ 2 k 1); lia.
    + by intros y ?%elem_of_replicate_inv.
  - rewrite Hv in He. by apply elem_of_replicate_inv in He as ->.
Qed.

(** ** Witnesses *)

#[local] Instance string_order : HashIter string := listed_order string.
#[local] Instance nat_order : HashIter nat := listed_order nat.
#[local] Instance bytes_order : HashIter (list byte) := listed_order (list byte).

(** The record of disk [i] of a set of four with one parity disk. *)
Definition rec4 (i : nat) : FileInfo :=
  {| volume := "b"; name := "k"; version_id := "null"; is_latest := true; deleted := false;
     data_dir := "d"; xl_v1 := false; mod_time_ms := 7; size := 5; mode := 0; written_by_version := 0;
     metadata := {[ETAG_META_KEY := "e1"]}; meta_sys := ∅; parts := [];
     erasure := {| algorithm := "ReedSolomon"; data_blocks := 3; parity_blocks := 1; block_size := 3072;
                   index := S i; distribution := [1; 2; 3; 4]; checksums := [] |};
     data := None; num_versions := 1; fresh := false; idx := 0; checksum := []; versioned := false |}.
Definition answers4 : list (IoResult FileInfo) :=
  [Err (FileNotFound "b" "k"); Ok (rec4 1); Ok (rec4 2); Ok (rec4 3)].

Lemma consensus_order_independent_witness :
  read_with_consensus id "b" "k" answers4 = Some (Ok (1, rec4 1)).
Proof.
  apply (consensus_order_independent string_order string_order nat_order nat_order bytes_order bytes_order
    id "b" "k" answers4).
  - intros p Hp. vm_compute in Hp. set_unfold in Hp. simpl. lia.
  - vm_compute. reflexivity.
Defined.

Lemma consensus_available_witness :
  read_with_consensus id "b" "k" answers4 = Some (Ok (1, rec4 1)).
Proof.
  apply (consensus_available id "b" "k" answers4 1 1 "e1" (rec4 1)).
  - simpl. lia.
  - done.
  - intros q Hq. vm_compute in Hq. set_unfold in Hq. lia.
  - vm_compute. lia.
  - vm_compute. lia.
  - vm_compute. reflexivity.
  - done.
  - intros t. change (tags (answer_errors answers4)) with ["FileNotFound"].
    rewrite count_cons. change (count t []) with 0. case_decide; simpl; lia.
Defined.

Lemma gate_fires_below_majority_witness :
  read_with_consensus id "b" "k" [Err (FileNotFound "b" "k"); Ok (rec4 1); Ok (rec4 2)]
    = Some (Err (ObjectNotFound "b" "k"))
  ∧ read_with_consensus id "b" "k" (replicate 1 (Err (FileNotFound "b" "k")) ++ replicate 2 (Ok (rec4 1)))
    = Some (Err (ObjectNotFound "b" "k")).
Proof.
  split; [vm_compute; reflexivity|].
  destruct (gate_fires_below_majority id "b" "k" (rec4 1) 1 "b" "k") as [_ H]; [lia|exact H].
Defined.
