(* ===== verification/Listing.v ===== *)
(** * Object listing

    [Engine::list], [list_one_set], [merge_within_set], [vote_fileinfo] and
    [merge_across_sets] of [openlake_storage/src/engine.rs].  A listing walks
    every disk of every erasure set, merges the walks of a set under a read
    quorum and merges the sets.  Both merges keep one cursor per stream and
    repeatedly consume the smallest key under the cursors; they are proved equal
    to a reference k-way merge on the remaining suffixes.  The answers of the
    backends' [walk_dir] calls are a parameter. *)

From stdpp Require Import base gmap strings sorting list.
From S2P Require Import Prelude Types Cluster.

(** ** Cursors *)

Section cursors.
Context {A : Type} (key : A → string).

(** [streams[i].get(heads[i])]. *)
Definition at_cursor (streams : list (list A)) (i h : nat) : option A :=
  s ← streams !! i; s !! h.

(** The first loop of both merges: the smallest key under the cursors, with the
    first stream that shows it. *)
Definition smallest_step (streams : list (list A)) (smallest : option (nat * string)) (ih : nat * nat) :
    option (nat * string) :=
  match at_cursor streams ih.1 ih.2 with
  | Some x =>
      match smallest with
      | None => Some (ih.1, key x)
      | Some cur => if str_ltb (key x) cur.2 then Some (ih.1, key x) else smallest
      end
  | None => smallest
  end.
Definition smallest_head (streams : list (list A)) (heads : list nat) : option (nat * string) :=
  foldl (smallest_step streams) None (enumerate heads).

(** One iteration of the second loop: a stream that shows [target] is
    consumed and its entry folded into the accumulator. *)
Definition consume_step {Acc} (upd : Acc → A → Acc) (streams : list (list A)) (target : string)
    (st : list nat * Acc) (j : nat) : list nat * Acc :=
  match st.1 !! j with
  | None => st
  | Some h =>
      match at_cursor streams j h with
      | Some x => if decide (key x = target) then (<[j := S h]> st.1, upd st.2 x) else st
      | None => st
      end
  end.

(** Enough iterations to consume every entry and see the end. *)
Definition merge_fuel (streams : list (list A)) : nat := S (sum_list (length <$> streams)).
End cursors.

(** ** Merging the disks of one set *)

Definition Sig : Type := string * Z * string * Z * bool.
Definition sig_of (fi : FileInfo) : Sig :=
  (default "" (metadata fi !! ETAG_META_KEY), mod_time_ms fi, version_id fi, size fi, deleted fi).

Section within.
Context {HSig : HashIter Sig}.

Definition vote_fileinfo (candidates : list FileInfo) (quorum : nat) : option FileInfo :=
  let tally := entry_fold (λ fi, (0, fi)) (λ s _, (S s.1, s.2)) ((λ fi, (sig_of fi, fi)) <$> candidates) in
  (λ kcf : Sig * (nat * FileInfo), kcf.2.2)
    <$> max_by_key (λ kcf : Sig * (nat * FileInfo), kcf.2.1)
          (filter (λ kcf : Sig * (nat * FileInfo), quorum ≤ kcf.2.1) (hash_iter tally)).

Fixpoint merge_within_loop (fuel : nat) (streams : list (list (string * FileInfo))) (quorum : nat)
    (bucket : string) (heads : list nat) (out : list ObjectInfo) : list ObjectInfo :=
  match fuel with
  | 0 => out
  | S fuel =>
      match smallest_head fst streams heads with
      | None => out
      | Some (_, target) =>
          let '(heads, candidates) :=
            foldl (consume_step fst (λ acc x, acc ++ [x.2]) streams target) (heads, [])
              (seq 0 (length streams)) in
          if length candidates <? quorum then merge_within_loop fuel streams quorum bucket heads out
          else
            match vote_fileinfo candidates quorum with
            | Some canonical =>
                if negb (deleted canonical) then
                  merge_within_loop fuel streams quorum bucket heads (out ++ [to_object_info bucket canonical])
                else merge_within_loop fuel streams quorum bucket heads out
            | None => merge_within_loop fuel streams quorum bucket heads out
            end
      end
  end.

Definition merge_within_set (streams : list (list (string * FileInfo))) (quorum : nat) (bucket : string) :
    list ObjectInfo :=
  merge_within_loop (merge_fuel streams) streams quorum bucket (replicate (length streams) 0) [].
End within.

(** ** Merging the sets *)

Definition newer (chosen oi : ObjectInfo) : ObjectInfo :=
  if (oi_modified_ms chosen <? oi_modified_ms oi)%Z then oi else chosen.

Fixpoint merge_across_loop (fuel : nat) (streams : list (list ObjectInfo)) (heads : list nat)
    (out : list ObjectInfo) : list ObjectInfo :=
  match fuel with
  | 0 => out
  | S fuel =>
      match smallest_head oi_key streams heads with
      | None => out
      | Some (i, target_key) =>
          match h ← heads !! i; at_cursor streams i h with
          | None => out
          | Some chosen =>
              let heads := alter S i heads in
              let '(heads, chosen) :=
                foldl (consume_step oi_key newer streams target_key) (heads, chosen)
                  (filter (λ j, j ≠ i) (seq 0 (length streams))) in
              merge_across_loop fuel streams heads (out ++ [chosen])
          end
      end
  end.

Definition merge_across_sets (streams : list (list ObjectInfo)) : list ObjectInfo :=
  merge_across_loop (merge_fuel streams) streams (replicate (length streams) 0) [].

(** ** The listing

    [walk d cap] is what the backend of disk [d] answers to
    [walk_dir(bucket, "", true, prefix, start_after, cap)]; [backends] are the
    disks the engine has a backend for.  [None] is the panic of [set_disks] or
    [num_sets]. *)
Section listing.
Context {HSig : HashIter Sig}.
Context (cluster : ClusterConfig) (backends : gset DiskAddr).
Context (walk : DiskAddr → option nat → IoResult (list (string * FileInfo))).

Definition list_one_set (set_idx : nat) (bucket : string) (max_keys : option nat) :
    option (StorageResult (list ObjectInfo)) :=
  all ← set_disks cluster set_idx;
  let disks := filter (λ a, a ∈ backends) all in
  if decide (disks = []) then Some (Ok [])
  else
    let n := length disks in
    let streams := omap (λ d, res_ok (walk d max_keys)) disks in
    let quorum := (n + 1) / 2 in
    if length streams <? quorum then Some (Ok [])
    else Some (Ok (merge_within_set streams quorum bucket)).

Definition list_objects (bucket : string) (max_keys : nat) : option (StorageResult (list ObjectInfo)) :=
  ns ← num_sets cluster;
  if ns =? 0 then Some (Ok [])
  else
    let per_set_cap := if max_keys =? 0 then None else Some (max_keys + 1) in
    per_set ← mapM (λ set_idx, list_one_set set_idx bucket per_set_cap) (seq 0 ns);
    match collect per_set with
    | Err e => Some (Err e)
    | Ok sets_ok =>
        let merged := merge_across_sets sets_ok in
        Some (Ok (if (0 <? max_keys) && (max_keys + 1 <? length merged)
                  then take (max_keys + 1) merged else merged))
    end.
End listing.

(** ** Reference merge

    The keys of all streams in order, each once, with every record a stream
    holds for it. *)
Section reference.
Context {A : Type} (key : A → string).

Definition keys_of (streams : list (list A)) : list string := key <$> concat streams.
Definition sorted_keys (streams : list (list A)) : list string :=
  merge_sort String.le (remove_dups (keys_of streams)).
Definition records_of (k : string) (streams : list (list A)) : list A :=
  concat (filter (λ x, key x = k) <$> streams).
Definition merge_reference {B} (emit : list A → option B) (streams : list (list A)) : list B :=
  omap (λ k, emit (records_of k streams)) (sorted_keys streams).

Definition sorted_stream (s : list A) : Prop := StronglySorted str_lt (key <$> s).

(** What one round does to the remaining suffix of a stream. *)
Definition pop (k : string) (s : list A) : list A :=
  match s with x :: s' => if decide (key x = k) then s' else s | [] => [] end.
Definition shown (k : string) (s : list A) : option A :=
  match s with x :: _ => if decide (key x = k) then Some x else None | [] => None end.

Lemma str_le_lt_or_eq a b : String.le a b ↔ str_lt a b ∨ a = b.
Proof.
  rewrite str_lt_spec. unfold strict. split.
  - intros Hab. destruct (decide (a = b)) as [->|Hne]; [by right|left]. split; [done|].
    intros Hba. apply Hne. by apply (anti_symm String.le).
  - intros [[? _]| ->]; [done|]. reflexivity.
Qed.

Lemma elem_of_sorted_keys k streams : k ∈ sorted_keys streams ↔ ∃ s x, s ∈ streams ∧ x ∈ s ∧ key x = k.
Proof.
  unfold sorted_keys. rewrite merge_sort_Permutation, elem_of_remove_dups. unfold keys_of.
  rewrite list_elem_of_fmap. setoid_rewrite elem_of_concat. naive_solver.
Qed.

Lemma strongly_sorted_lt (l : list string) : StronglySorted str_lt l ↔ StronglySorted String.le l ∧ NoDup l.
Proof.
  induction l as [|x l IH]; [split; [split|]; constructor|]. split.
  - intros [Hs Hf]%StronglySorted_inv. apply IH in Hs as [Hs Hn]. split; constructor; try done.
    + eapply Forall_impl; [done|]. intros y Hy. apply str_le_lt_or_eq. by left.
    + intros Hx. rewrite Forall_forall in Hf. specialize (Hf x Hx). by apply (irreflexivity str_lt x).
  - intros [[Hs Hf]%StronglySorted_inv [Hx Hn]%NoDup_cons]. constructor; [by apply IH|].
    rewrite Forall_forall in Hf |- *. intros y Hy. specialize (Hf y Hy).
    apply str_le_lt_or_eq in Hf as [?| ->]; [done|]. by destruct Hx.
Qed.

Lemma sorted_keys_sorted streams : StronglySorted str_lt (sorted_keys streams).
Proof.
  apply strongly_sorted_lt. unfold sorted_keys. split.
  - apply Sorted_StronglySorted; [apply _|]. apply Sorted_merge_sort, _.
  - rewrite merge_sort_Permutation. apply NoDup_remove_dups.
Qed.

(** A strictly sorted list is determined by its elements. *)
Lemma strictly_sorted_unique (l1 l2 : list string) :
  StronglySorted str_lt l1 → StronglySorted str_lt l2 → (∀ k, k ∈ l1 ↔ k ∈ l2) → l1 = l2.
Proof.
  intros [H1 N1]%strongly_sorted_lt [H2 N2]%strongly_sorted_lt Hiff.
  apply (StronglySorted_unique String.le); [done..|]. by apply NoDup_Permutation.
Qed.

Definition least_shown (k : string) (streams : list (list A)) : Prop :=
  (∃ s x, s ∈ streams ∧ head s = Some x ∧ key x = k)
  ∧ ∀ s x, s ∈ streams → head s = Some x → ¬ str_lt (key x) k.

Lemma sorted_stream_head x s y : sorted_stream (x :: s) → y ∈ s → str_lt (key x) (key y).
Proof.
  unfold sorted_stream. rewrite fmap_cons. intros [_ Hf]%StronglySorted_inv Hy.
  rewrite Forall_fmap, Forall_forall in Hf. by apply Hf.
Qed.

Lemma sorted_pop k s : sorted_stream s → sorted_stream (pop k s).
Proof. destruct s as [|x s]; [done|]. intros Hs. simpl. case_decide; [|done].
  unfold sorted_stream in *. rewrite fmap_cons in Hs. by apply StronglySorted_inv in Hs as [? _].
Qed.

Lemma least_below k streams s y : Forall sorted_stream streams → least_shown k streams →
  s ∈ streams → y ∈ s → k = key y ∨ str_lt k (key y).
Proof.
  intros Hs [_ Hl] Hin Hy. rewrite Forall_forall in Hs. specialize (Hs s Hin).
  destruct s as [|x s]; [by apply elem_of_nil in Hy|].
  specialize (Hl _ x Hin eq_refl). destruct (str_lt_trichotomy (key x) k) as [?|Hx]; [done|].
  apply elem_of_cons in Hy as [->|Hy]; [naive_solver|]. right.
  pose proof (sorted_stream_head _ _ _ Hs Hy). destruct Hx as [<-|?]; [done|by etrans].
Qed.

Lemma elem_of_pop k y s : y ∈ pop k s → y ∈ s.
Proof. destruct s as [|x s]; [done|]. simpl. case_decide; [|done]. by right. Qed.

Lemma elem_of_pop_inv k y s : key y ≠ k → y ∈ s → y ∈ pop k s.
Proof.
  destruct s as [|x s]; [done|]. simpl. intros Hne. case_decide; [|done].
  intros [->|?]%elem_of_cons; done.
Qed.

(** After a round no suffix holds the key any more. *)
Lemma pop_above k streams s y : Forall sorted_stream streams → least_shown k streams →
  s ∈ streams → y ∈ pop k s → str_lt k (key y).
Proof.
  intros Hs Hl Hin Hy. destruct (least_below k streams s y Hs Hl Hin (elem_of_pop _ _ _ Hy)) as [Heq|?]; [|done].
  exfalso. rewrite Forall_forall in Hs. specialize (Hs s Hin). destruct s as [|x s]; [by apply elem_of_nil in Hy|].
  destruct Hl as [_ Hl]. specialize (Hl _ x Hin eq_refl). simpl in Hy. case_decide as Hx.
  - pose proof (sorted_stream_head _ _ _ Hs Hy) as Hlt. rewrite Hx, <-Heq in Hlt. by apply (irreflexivity str_lt k).
  - apply elem_of_cons in Hy as [->|Hy]; [done|]. pose proof (sorted_stream_head _ _ _ Hs Hy). by rewrite <-Heq in *.
Qed.

Lemma sorted_keys_step k streams : Forall sorted_stream streams → least_shown k streams →
  sorted_keys streams = k :: sorted_keys (pop k <$> streams).
Proof.
  intros Hs Hl. apply strictly_sorted_unique; [apply sorted_keys_sorted| |].
  - constructor; [apply sorted_keys_sorted|]. rewrite Forall_forall. intros k' Hk'.
    apply elem_of_sorted_keys in Hk' as (s' & y & (s & -> & Hin)%list_elem_of_fmap & Hy & <-). by eapply pop_above.
  - intros k'. rewrite elem_of_cons, !elem_of_sorted_keys. split.
    + intros (s & y & Hin & Hy & <-). destruct (decide (key y = k)) as [->|Hne]; [by left|right].
      exists (pop k s), y. split_and!; [by apply list_elem_of_fmap_2|by apply elem_of_pop_inv|done].
    + intros [->|(s' & y & (s & -> & Hin)%list_elem_of_fmap & Hy & <-)].
      * destruct Hl as [(s & x & ? & ? & <-) _]. exists s, x. split_and!; [done| |done].
        destruct s; simplify_eq/=. by left.
      * exists s, y. split_and!; [done|by eapply elem_of_pop|done].
Qed.

Lemma records_of_pop k k' streams : k' ≠ k → records_of k' (pop k <$> streams) = records_of k' streams.
Proof.
  intros Hne. unfold records_of. rewrite <-list_fmap_compose. f_equal. apply list_fmap_ext.
  intros i s _. simpl. destruct s as [|x s]; [done|]. simpl. case_decide as Hx; [|done].
  by rewrite filter_cons, decide_False by congruence.
Qed.

Lemma records_of_least k streams : Forall sorted_stream streams → least_shown k streams →
  records_of k streams = omap (shown k) streams.
Proof.
  intros Hs Hl. unfold records_of.
  assert (∀ s, s ∈ streams → filter (λ x, key x = k) s = option_list (shown k s)) as Hone.
  { intros s Hin. destruct s as [|x s]; [done|]. pose proof (λ y, pop_above k streams (x :: s) y Hs Hl Hin) as Ha.
    simpl in *. rewrite filter_cons. case_decide as Hx; simpl; [f_equal|]; apply filter_none; intros y Hy Hk.
    - specialize (Ha y Hy). rewrite Hk in Ha. by apply (irreflexivity str_lt k).
    - specialize (Ha y ltac:(by right)). rewrite Hk in Ha. by apply (irreflexivity str_lt k). }
  clear Hs Hl. induction streams as [|s streams IH]; [done|]. rewrite fmap_cons, omap_cons. simpl.
  rewrite Hone by left. rewrite IH by (intros; apply Hone; by right). by destruct (shown k s).
Qed.

(** One round of the reference. *)
Lemma merge_reference_step {B} (emit : list A → option B) k streams :
  Forall sorted_stream streams → least_shown k streams →
  merge_reference emit streams =
    option_list (emit (omap (shown k) streams)) ++ merge_reference emit (pop k <$> streams).
Proof.
  intros Hs Hl. unfold merge_reference. rewrite (sorted_keys_step k) by done. rewrite omap_cons.
  rewrite records_of_least by done.
  assert (omap (λ k', emit (records_of k' streams)) (sorted_keys (pop k <$> streams))
    = omap (λ k', emit (records_of k' (pop k <$> streams))) (sorted_keys (pop k <$> streams))) as ->.
  { apply omap_ext_elem. intros k' (s' & y & (s & -> & Hin)%list_elem_of_fmap & Hy & <-)%elem_of_sorted_keys.
    rewrite records_of_pop; [done|]. intros Heq. pose proof (pop_above _ _ _ _ Hs Hl Hin Hy) as Hlt.
    rewrite Heq in Hlt. by apply (irreflexivity str_lt k). }
  by destruct (emit _).
Qed.

Lemma merge_reference_end {B} (emit : list A → option B) streams :
  (∀ s, s ∈ streams → s = []) → merge_reference emit streams = [].
Proof.
  intros He. unfold merge_reference. destruct (sorted_keys streams) as [|k ks] eqn:E; [done|].
  assert (k ∈ sorted_keys streams) as Hk by (rewrite E; left).
  apply elem_of_sorted_keys in Hk as (s & x & ->%He & Hx & _). by apply elem_of_nil in Hx.
Qed.
End reference.

(** ** The cursors implement the reference *)

Section cursor_lemmas.
Context {A : Type} (key : A → string).

(** What is left of each stream. *)
Definition rems (heads : list nat) (streams : list (list A)) : list (list A) := zip_with drop heads streams.
Definition advance (k : string) (h : nat) (s : list A) : nat :=
  match shown key k (drop h s) with Some _ => S h | None => h end.

Lemma head_drop (h : nat) (s : list A) : head (drop h s) = s !! h.
Proof. revert s. induction h as [|h IH]; intros [|x s]; simpl; [done..|apply IH]. Qed.

Lemma pop_drop k h s : drop (advance k h s) s = pop key k (drop h s).
Proof.
  unfold advance. destruct (drop h s) as [|x r] eqn:E; simpl; [done|]. case_decide; [|done].
  by rewrite <-Nat.add_1_r, <-drop_drop, E.
Qed.

Lemma rems_advance k heads streams :
  rems (zip_with (advance k) heads streams) streams = pop key k <$> rems heads streams.
Proof.
  unfold rems. revert streams. induction heads as [|h heads IH]; intros [|s streams]; simpl; [done..|].
  by rewrite pop_drop, IH.
Qed.

Lemma consume_fold {Acc} (upd : Acc → A → Acc) k ss1 ss2 ss3 hs1 hs2 hs3 acc :
  length hs1 = length ss1 → length hs2 = length ss2 →
  foldl (consume_step key upd (ss1 ++ ss2 ++ ss3) k) (hs1 ++ hs2 ++ hs3, acc) (seq (length ss1) (length ss2))
    = (hs1 ++ zip_with (advance k) hs2 ss2 ++ hs3, foldl upd acc (omap (shown key k) (rems hs2 ss2))).
Proof.
  revert ss1 hs1 hs2 acc. induction ss2 as [|s ss2 IH]; intros ss1 hs1 hs2 acc H1 H2.
  { by destruct hs2. }
  destruct hs2 as [|h hs2]; [done|]. injection H2 as H2. cbn [length seq foldl].
  assert (consume_step key upd (ss1 ++ (s :: ss2) ++ ss3) k (hs1 ++ (h :: hs2) ++ hs3, acc) (length ss1)
    = ((hs1 ++ [advance k h s]) ++ hs2 ++ hs3, foldl upd acc (option_list (shown key k (drop h s))))) as ->.
  { unfold consume_step, at_cursor, advance. cbn [fst snd app].
    rewrite list_lookup_middle by done. rewrite (list_lookup_middle ss1) by done. simpl.
    rewrite <-(head_drop h s). destruct (drop h s) as [|x r]; simpl; [by rewrite <-app_assoc|].
    case_decide; simpl; rewrite <-app_assoc; [|done]. by rewrite insert_app_r_alt, H1, Nat.sub_diag by lia. }
  specialize (IH (ss1 ++ [s]) (hs1 ++ [advance k h s]) hs2).
  rewrite !length_app, <-!app_assoc in IH. cbn [length app] in IH. rewrite !Nat.add_1_r in IH.
  rewrite <-app_assoc. cbn [app]. rewrite IH by lia. unfold rems. cbn [zip_with]. rewrite omap_cons.
  f_equal. by destruct (shown key k (drop h s)).
Qed.

Lemma smallest_fold streams l :
  match foldl (smallest_step key streams) None l with
  | None => ∀ ih, ih ∈ l → at_cursor streams ih.1 ih.2 = None
  | Some (i, k) => ∃ m h x, l !! m = Some (i, h) ∧ at_cursor streams i h = Some x ∧ key x = k
      ∧ (∀ ih y, ih ∈ l → at_cursor streams ih.1 ih.2 = Some y → ¬ str_lt (key y) k)
      ∧ (∀ m' ih y, m' < m → l !! m' = Some ih → at_cursor streams ih.1 ih.2 = Some y → key y ≠ k)
  end.
Proof.
  induction l as [|[i h] l IH] using rev_ind; [intros ih H; by apply elem_of_nil in H|].
  rewrite foldl_app. cbn [foldl]. destruct (foldl _ None l) as [[j k]|]; unfold smallest_step; cbn [fst snd].
  - destruct IH as (m & h' & x & Hm & Hx & Hk & Hmin & Hfst). pose proof (lookup_lt_Some _ _ _ Hm).
    destruct (at_cursor streams i h) as [y|] eqn:Ey; [destruct (str_ltb (key y) k) eqn:El|].
    + exists (length l), h, y. rewrite list_lookup_middle by done. split_and!; [done..| |].
      * intros ih z [Hin| ->%list_elem_of_singleton]%elem_of_app Hz Hlt; simpl in *; simplify_eq.
        -- eapply (Hmin ih z); [done..|]. by etrans.
        -- by apply (irreflexivity str_lt (key y)).
      * intros m' ih z Hm' Hl' Hz Heq. rewrite lookup_app_l in Hl' by done.
        apply (Hmin ih z); [by eapply list_elem_of_lookup_2|done|]. by rewrite Heq.
    + exists m, h', x. rewrite lookup_app_l by done. split_and!; [done..| |].
      * intros ih z [Hin| ->%list_elem_of_singleton]%elem_of_app Hz; [by eapply Hmin|]. simpl in Hz. simplify_eq.
        unfold str_lt. by rewrite El.
      * intros m' ih z Hm' Hl'. rewrite lookup_app_l in Hl' by lia. by eapply Hfst.
    + exists m, h', x. rewrite lookup_app_l by done. split_and!; [done..| |].
      * intros ih z [Hin| ->%list_elem_of_singleton]%elem_of_app Hz; [by eapply Hmin|]. simpl in Hz. simplify_eq.
      * intros m' ih z Hm' Hl'. rewrite lookup_app_l in Hl' by lia. by eapply Hfst.
  - destruct (at_cursor streams i h) as [y|] eqn:Ey.
    + exists (length l), h, y. rewrite list_lookup_middle by done. split_and!; [done..| |].
      * intros ih z [Hin| ->%list_elem_of_singleton]%elem_of_app Hz; simpl in *; simplify_eq.
        -- by rewrite (IH ih Hin) in Hz.
        -- apply (irreflexivity str_lt).
      * intros m' ih z Hm' Hl' Hz. rewrite lookup_app_l in Hl' by done.
        rewrite (IH ih) in Hz; [done|]. by eapply list_elem_of_lookup_2.
    + intros ih [Hin| ->%list_elem_of_singleton]%elem_of_app; [by apply IH|done].
Qed.

Lemma lookup_enumerate {B} (l : list B) m i x : enumerate l !! m = Some (i, x) → m = i ∧ l !! i = Some x.
Proof.
  unfold enumerate. intros (i' & x' & [= <- <-] & [-> ?]%lookup_seq & ?)%lookup_zip_with_Some. done.
Qed.

Lemma lookup_rems heads streams i : length heads = length streams →
  ∀ s, rems heads streams !! i = Some s ↔ ∃ h s0, heads !! i = Some h ∧ streams !! i = Some s0 ∧ s = drop h s0.
Proof. intros Hl s. unfold rems. rewrite lookup_zip_with_Some. naive_solver. Qed.

(** The first loop in terms of what is left of the streams. *)
Lemma smallest_head_spec heads streams : length heads = length streams →
  match smallest_head key streams heads with
  | None => ∀ s, s ∈ rems heads streams → s = []
  | Some (i, k) => least_shown key k (rems heads streams)
      ∧ (∃ h s x, heads !! i = Some h ∧ streams !! i = Some s ∧ s !! h = Some x ∧ shown key k (drop h s) = Some x)
      ∧ (∀ j s, j < i → rems heads streams !! j = Some s → shown key k s = None)
  end.
Proof.
  intros Hl. unfold smallest_head. pose proof (smallest_fold streams (enumerate heads)) as Hf.
  assert (∀ s x, s ∈ rems heads streams → head s = Some x →
    ∃ j h, (j, h) ∈ enumerate heads ∧ at_cursor streams j h = Some x) as Hcur.
  { intros s x [j Hj]%list_elem_of_lookup Hx. apply lookup_rems in Hj as (h & s0 & Hh & Hs0 & ->); [|done].
    exists j, h. rewrite elem_of_enumerate. split; [done|]. unfold at_cursor. rewrite Hs0. simpl.
    by rewrite head_drop in Hx. }
  destruct (foldl _ _ _) as [[i k]|].
  - destruct Hf as (m & h & x & [-> Hh]%lookup_enumerate & Hx & Hk & Hmin & Hfst).
    unfold at_cursor in Hx. destruct (streams !! i) as [s|] eqn:Hs; [|done]. simpl in Hx.
    split_and!.
    + split; [|intros s' y Hin Hy Hlt; destruct (Hcur s' y Hin Hy) as (j & h' & ? & ?); by eapply Hmin].
      exists (drop h s), x. rewrite head_drop. split_and!; [|done..].
      apply (list_elem_of_lookup_2 _ i). apply lookup_rems; [done|]. by exists h, s.
    + exists h, s, x. split_and!; [done..|]. pose proof (head_drop h s) as Hd. rewrite Hx in Hd.
      destruct (drop h s) as [|y r]; simplify_eq/=. by rewrite decide_True.
    + intros j s' Hj Hs'. apply lookup_rems in Hs' as (h' & s0 & Hh' & Hs0 & ->); [|done].
      destruct (drop h' s0) as [|y r] eqn:Ed; [done|]. simpl. rewrite decide_False; [done|].
      apply (Hfst j (j, h')); [done| |].
      * unfold enumerate. apply lookup_zip_with_Some. exists j, h'. rewrite lookup_seq.
        split_and!; [done..|by eapply lookup_lt_Some|done].
      * unfold at_cursor. cbn [fst snd]. rewrite Hs0. simpl. by rewrite <-head_drop, Ed.
  - intros s Hin. destruct s as [|x s]; [done|]. destruct (Hcur _ x Hin eq_refl) as (j & h & Hjh & Hat).
    specialize (Hf _ Hjh). simpl in Hf. congruence.
Qed.

Lemma sum_pop k (ss : list (list A)) : sum_list (length <$> (pop key k <$> ss)) ≤ sum_list (length <$> ss).
Proof.
  induction ss as [|s ss IH]; [done|]. rewrite !fmap_cons. simpl. destruct s as [|x s]; simpl; [lia|].
  case_decide; simpl; lia.
Qed.

Lemma sum_pop_lt k ss : least_shown key k ss → sum_list (length <$> (pop key k <$> ss)) < sum_list (length <$> ss).
Proof.
  intros [(s & x & Hin & Hx & Hk) _]. apply list_elem_of_split in Hin as (l1 & l2 & ->).
  pose proof (sum_pop k l1). pose proof (sum_pop k l2). destruct s as [|y s]; [done|]. injection Hx as ->.
  assert (∀ a b : list nat, sum_list (a ++ b) = sum_list a + sum_list b) as Happ.
  { induction a as [|n a IH]; intros b; simpl; [done|]. rewrite IH. lia. }
  rewrite !fmap_app, !fmap_cons, !Happ. simpl. rewrite decide_True by done. lia.
Qed.
End cursor_lemmas.

Section within_lemmas.
Context {HSig : HashIter Sig}.

(** What one key contributes to the listing of a set. *)
Definition emit_within (quorum : nat) (bucket : string) (rs : list (string * FileInfo)) : option ObjectInfo :=
  if length rs <? quorum then None
  else match vote_fileinfo rs.*2 quorum with
       | Some canonical => if negb (deleted canonical) then Some (to_object_info bucket canonical) else None
       | None => None
       end.

Lemma foldl_snoc_snd (acc : list FileInfo) (l : list (string * FileInfo)) :
  foldl (λ acc x, acc ++ [x.2]) acc l = acc ++ l.*2.
Proof.
  revert acc. induction l as [|x l IH]; intros acc; simpl; [by rewrite app_nil_r|]. by rewrite IH, <-app_assoc.
Qed.

Lemma merge_within_loop_eq fuel streams quorum bucket heads out :
  length heads = length streams → Forall (sorted_stream fst) (rems heads streams) →
  sum_list (length <$> rems heads streams) < fuel →
  merge_within_loop fuel streams quorum bucket heads out
    = out ++ merge_reference fst (emit_within quorum bucket) (rems heads streams).
Proof.
  revert heads out. induction fuel as [|fuel IH]; intros heads out Hl Hs Hf; [lia|].
  cbn [merge_within_loop]. pose proof (smallest_head_spec fst heads streams Hl) as Hsm.
  destruct (smallest_head fst streams heads) as [[i k]|].
  2: { rewrite merge_reference_end by done. by rewrite app_nil_r. }
  destruct Hsm as (Hleast & _ & _).
  pose proof (consume_fold fst (λ acc x, acc ++ [x.2]) k [] streams [] [] heads [] [] eq_refl Hl) as Hc.
  rewrite !app_nil_r in Hc. cbn [app length] in Hc. rewrite Hc, foldl_snoc_snd. cbn [app].
  set (cs := omap (shown fst k) (rems heads streams)).
  assert (∀ out', merge_within_loop fuel streams quorum bucket (zip_with (advance fst k) heads streams) out'
     = out' ++ merge_reference fst (emit_within quorum bucket) (pop fst k <$> rems heads streams)) as Hrec.
  { intros out'. rewrite IH, rems_advance; [done|rewrite length_zip_with; lia| |].
    - rewrite rems_advance, Forall_fmap. eapply Forall_impl; [done|]. intros s. apply sorted_pop.
    - rewrite rems_advance. pose proof (sum_pop_lt fst k _ Hleast). lia. }
  rewrite (merge_reference_step fst _ k) by done. fold cs. unfold emit_within at 1.
  rewrite length_fmap. destruct (length cs <? quorum); [apply Hrec|].
  destruct (vote_fileinfo cs.*2 quorum) as [fi|]; [|apply Hrec].
  destruct (negb (deleted fi)); [|apply Hrec]. by rewrite Hrec, <-app_assoc.
Qed.
End within_lemmas.

Definition emit_newest (rs : list ObjectInfo) : option ObjectInfo :=
  match rs with [] => None | x :: rs => Some (foldl newer x rs) end.

Lemma filter_seq_ne i n : i < n → filter (λ j, j ≠ i) (seq 0 n) = seq 0 i ++ seq (S i) (n - S i).
Proof.
  intros Hi. replace n with (i + S (n - S i)) at 1 by lia. rewrite seq_app, list.filter_app. cbn [seq plus].
  rewrite filter_cons, decide_False by (intros H; by apply H).
  f_equal; apply filter_all; intros j Hj; apply elem_of_seq in Hj; lia.
Qed.

(** The second loop of [merge_across_sets] consumes every stream that shows the
    key and keeps the newest entry, the first among equals. *)
Lemma across_round streams heads i k : length heads = length streams →
  smallest_head oi_key streams heads = Some (i, k) →
  ∃ x, (h ← heads !! i; at_cursor streams i h) = Some x
    ∧ ∃ chosen, emit_newest (omap (shown oi_key k) (rems heads streams)) = Some chosen
    ∧ foldl (consume_step oi_key newer streams k) (alter S i heads, x)
        (filter (λ j, j ≠ i) (seq 0 (length streams))) = (zip_with (advance oi_key k) heads streams, chosen).
Proof.
  intros Hl Hsm. pose proof (smallest_head_spec oi_key heads streams Hl) as Hspec. rewrite Hsm in Hspec.
  destruct Hspec as (_ & (h & s & x & Hh & Hs & Hx & Hshown) & Hbefore).
  exists x. split; [rewrite Hh; simpl; unfold at_cursor; by rewrite Hs|].
  apply list_elem_of_split_length in Hh as (hs1 & hs3 & -> & ->).
  apply list_elem_of_split_length in Hs as (ss1 & ss3 & -> & Hlen).
  rewrite !length_app in Hl. cbn [length] in Hl.
  rewrite filter_seq_ne by (rewrite length_app; simpl; lia). rewrite foldl_app.
  replace (length (ss1 ++ s :: ss3) - S (length hs1)) with (length ss3) by (rewrite length_app; simpl; lia).
  assert (alter S (length hs1) (hs1 ++ h :: hs3) = hs1 ++ S h :: hs3) as ->.
  { rewrite alter_app_r_alt by lia. by rewrite Nat.sub_diag. }
  assert (omap (shown oi_key k) (rems hs1 ss1) = []) as Hnone.
  { rewrite <-(omap_ext_elem (λ _, None)); [by induction (rems hs1 ss1)|].
    intros r [j Hj]%list_elem_of_lookup. symmetry. pose proof (lookup_lt_Some _ _ _ Hj) as Hjl.
    unfold rems in Hjl. rewrite length_zip_with in Hjl. apply (Hbefore j); [lia|].
    unfold rems in *. rewrite zip_with_app by lia. by rewrite lookup_app_l by (rewrite length_zip_with; lia). }
  pose proof (consume_fold oi_key newer k [] ss1 (s :: ss3) [] hs1 (S h :: hs3) x eq_refl ltac:(lia)) as H1.
  cbn [app length] in H1. rewrite Hlen, H1, Hnone. cbn [foldl].
  pose proof (consume_fold oi_key newer k (ss1 ++ [s]) ss3 [] (zip_with (advance oi_key k) hs1 ss1 ++ [S h]) hs3 [] x) as H2.
  rewrite !app_nil_r, <-!app_assoc, !length_app, length_zip_with in H2. cbn [app length] in H2.
  rewrite !Nat.add_1_r in H2. rewrite H2 by lia.
  eexists. unfold rems at 1. rewrite zip_with_app by lia. cbn [zip_with]. fold (rems hs1 ss1).
  rewrite omap_app, Hnone, omap_cons, Hshown. cbn [app emit_newest]. split; [done|].
  rewrite zip_with_app by lia. cbn [zip_with]. assert (advance oi_key k h s = S h) as -> by (unfold advance; by rewrite Hshown). done.
Qed.

Lemma merge_across_loop_eq fuel streams heads out :
  length heads = length streams → Forall (sorted_stream oi_key) (rems heads streams) →
  sum_list (length <$> rems heads streams) < fuel →
  merge_across_loop fuel streams heads out
    = out ++ merge_reference oi_key emit_newest (rems heads streams).
Proof.
  revert heads out. induction fuel as [|fuel IH]; intros heads out Hl Hs Hf; [lia|].
  cbn [merge_across_loop]. pose proof (smallest_head_spec oi_key heads streams Hl) as Hsm.
  destruct (smallest_head oi_key streams heads) as [[i k]|] eqn:E.
  2: { rewrite merge_reference_end by done. by rewrite app_nil_r. }
  destruct Hsm as (Hleast & _ & _).
  destruct (across_round streams heads i k Hl E) as (x & -> & chosen & Hch & ->).
  rewrite IH, rems_advance; [|rewrite length_zip_with; lia| |].
  - rewrite (merge_reference_step oi_key _ k (rems heads streams)) by done. rewrite Hch. by rewrite <-app_assoc.
  - rewrite rems_advance, Forall_fmap. eapply Forall_impl; [done|]. intros s. apply sorted_pop.
  - rewrite rems_advance. pose proof (sum_pop_lt oi_key k _ Hleast). lia.
Qed.

Lemma rems_start {A} (streams : list (list A)) : rems (replicate (length streams) 0) streams = streams.
Proof. unfold rems. induction streams as [|s ss IH]; simpl; [done|]. by rewrite IH, drop_0. Qed.

Lemma merge_within_set_eq {HSig : HashIter Sig} streams quorum bucket :
  Forall (sorted_stream fst) streams →
  merge_within_set streams quorum bucket = merge_reference fst (emit_within quorum bucket) streams.
Proof.
  intros Hs. unfold merge_within_set. rewrite merge_within_loop_eq; rewrite ?rems_start; try done.
  - by rewrite length_replicate.
  - unfold merge_fuel. lia.
Qed.

Lemma merge_across_sets_eq streams : Forall (sorted_stream oi_key) streams →
  merge_across_sets streams = merge_reference oi_key emit_newest streams.
Proof.
  intros Hs. unfold merge_across_sets. rewrite merge_across_loop_eq; rewrite ?rems_start; try done.
  - by rewrite length_replicate.
  - unfold merge_fuel. lia.
Qed.

(** ** The vote on one key *)

Section vote_lemmas.
Context {HSig : HashIter Sig}.

Definition sig_count (sig : Sig) (cs : list FileInfo) : nat := count sig (sig_of <$> cs).
Definition first_with (sig : Sig) (cs : list FileInfo) : option FileInfo :=
  head (filter (λ fi, sig_of fi = sig) cs).

Lemma payloads_sig sig cs : payloads sig ((λ fi, (sig_of fi, fi)) <$> cs) = filter (λ fi, sig_of fi = sig) cs.
Proof.
  induction cs as [|c cs IH]; [done|]. rewrite fmap_cons, payloads_cons, filter_cons. simpl. rewrite IH.
  by case_decide.
Qed.

Lemma sig_count_filter sig cs : sig_count sig cs = length (filter (λ fi, sig_of fi = sig) cs).
Proof.
  unfold sig_count, count. induction cs as [|c cs IH]; [done|]. rewrite fmap_cons, !filter_cons.
  case_decide; simpl; by rewrite IH.
Qed.

(** The candidates of the vote: the signatures, their counts and the first record of each. *)
Lemma elem_of_ballot cs q sig c fi :
  (sig, (c, fi)) ∈ filter (λ kcf : Sig * (nat * FileInfo), q ≤ kcf.2.1)
      (hash_iter (entry_fold (λ fi, (0, fi)) (λ s _, (S s.1, s.2)) ((λ fi, (sig_of fi, fi)) <$> cs)))
  ↔ c = sig_count sig cs ∧ first_with sig cs = Some fi ∧ q ≤ c.
Proof.
  rewrite list_elem_of_filter, elem_of_hash_iter, entry_fold_lookup, payloads_sig, sig_count_filter.
  unfold first_with. simpl. destruct (filter _ cs) as [|x xs]; simpl; [naive_solver|].
  assert (∀ c0 (b : FileInfo), foldl (λ (s : nat * FileInfo) _, (S s.1, s.2)) (c0, b) xs = (c0 + length xs, b)) as ->.
  { clear. induction xs as [|y xs IH]; intros c0 b; simpl; [by rewrite Nat.add_0_r|]. rewrite IH. f_equal. lia. }
  simpl. naive_solver.
Qed.

Lemma vote_fileinfo_Some cs q fi : vote_fileinfo cs q = Some fi →
  first_with (sig_of fi) cs = Some fi ∧ q ≤ sig_count (sig_of fi) cs
  ∧ ∀ sig, sig_count sig cs ≤ sig_count (sig_of fi) cs.
Proof.
  unfold vote_fileinfo. destruct (max_by_key _ _) as [[sig [c fi']]|] eqn:Em; [|done]. intros [= <-].
  pose proof (max_by_key_elem _ _ _ Em) as Hin. apply elem_of_ballot in Hin as (-> & Hfst & Hq).
  assert (sig_of fi' = sig) as Hsig.
  { unfold first_with in Hfst. destruct (filter _ cs) as [|x xs] eqn:E; simplify_eq/=.
    assert (fi' ∈ filter (λ fi, sig_of fi = sig) cs) as Hx by (rewrite E; left). by apply list_elem_of_filter in Hx as [? _]. }
  rewrite Hsig. split_and!; [done..|]. intros sig'.
  destruct (decide (q ≤ sig_count sig' cs)) as [Hq'|]; [|lia].
  destruct (first_with sig' cs) as [fi2|] eqn:E2.
  - assert ((sig', (sig_count sig' cs, fi2)) ∈ filter (λ kcf : Sig * (nat * FileInfo), q ≤ kcf.2.1)
      (hash_iter (entry_fold (λ fi, (0, fi)) (λ s _, (S s.1, s.2)) ((λ fi, (sig_of fi, fi)) <$> cs)))) as Hin2
      by by apply elem_of_ballot.
    apply (max_by_key_max _ _ _ _ Em Hin2).
  - rewrite sig_count_filter. unfold first_with in E2. destruct (filter (λ fi, sig_of fi = sig') cs); [simpl; lia|done].
Qed.

(** A signature that alone reaches the quorum wins. *)
Lemma vote_fileinfo_wins cs q fi : 0 < q → first_with (sig_of fi) cs = Some fi → q ≤ sig_count (sig_of fi) cs →
  (∀ sig, sig ≠ sig_of fi → sig_count sig cs < q) → vote_fileinfo cs q = Some fi.
Proof.
  intros Hq Hfst Hc Hother. destruct (vote_fileinfo cs q) as [fi'|] eqn:E.
  - apply vote_fileinfo_Some in E as (Hf' & Hc' & _). destruct (decide (sig_of fi' = sig_of fi)) as [Heq|Hne].
    + rewrite Heq in Hf'. congruence.
    + specialize (Hother _ Hne). lia.
  - exfalso. unfold vote_fileinfo in E. apply fmap_None, max_by_key_None in E.
    assert ((sig_of fi, (sig_count (sig_of fi) cs, fi)) ∈ filter (λ kcf : Sig * (nat * FileInfo), q ≤ kcf.2.1)
      (hash_iter (entry_fold (λ fi, (0, fi)) (λ s _, (S s.1, s.2)) ((λ fi, (sig_of fi, fi)) <$> cs)))) as Hin
      by by apply elem_of_ballot.
    rewrite E in Hin. by apply elem_of_nil in Hin.
Qed.
End vote_lemmas.

(** ** What the merges output *)

Lemma elem_of_merge_reference {A B} (key : A → string) (emit : list A → option B) streams b :
  b ∈ merge_reference key emit streams ↔ ∃ k, k ∈ sorted_keys key streams ∧ emit (records_of key k streams) = Some b.
Proof. unfold merge_reference. apply list_elem_of_omap. Qed.

Lemma merge_reference_sorted {A B} (key : A → string) (emit : list A → option B) (bkey : B → string) streams :
  (∀ k b, emit (records_of key k streams) = Some b → bkey b = k) →
  StronglySorted str_lt (bkey <$> merge_reference key emit streams).
Proof.
  intros Hk. unfold merge_reference. pose proof (sorted_keys_sorted key streams) as Hs.
  induction (sorted_keys key streams) as [|k ks IH]; [constructor|]. apply StronglySorted_inv in Hs as [Hs Hf].
  rewrite omap_cons. destruct (emit _) as [b|] eqn:E; [|by apply IH]. rewrite fmap_cons.
  constructor; [by apply IH|]. rewrite (Hk _ _ E). rewrite Forall_fmap, Forall_forall.
  intros b' (k' & Hk' & E')%list_elem_of_omap. simpl. rewrite (Hk _ _ E'). rewrite Forall_forall in Hf. by apply Hf.
Qed.

Lemma elem_of_records_of {A} (key : A → string) k streams x :
  x ∈ records_of key k streams ↔ key x = k ∧ ∃ s, s ∈ streams ∧ x ∈ s.
Proof.
  unfold records_of. rewrite elem_of_concat. split.
  - intros (l & (s & -> & Hs)%list_elem_of_fmap & [Hk Hx]%list_elem_of_filter). eauto.
  - intros (Hk & s & Hs & Hx). exists (filter (λ x, key x = k) s).
    rewrite list_elem_of_filter. split; [by apply list_elem_of_fmap_2|done].
Qed.

(** A walk lists each object under its name. *)
Definition named_stream (s : list (string * FileInfo)) : Prop := Forall (λ x, x.1 = name x.2) s.
Definition records_named (k : string) (streams : list (list (string * FileInfo))) : list FileInfo :=
  (records_of fst k streams).*2.

Lemma records_named_name k streams fi : Forall named_stream streams → fi ∈ records_named k streams → name fi = k.
Proof.
  intros Hn ([k' fi'] & -> & Hx)%list_elem_of_fmap. simpl. apply elem_of_records_of in Hx as (<- & s & Hs & Hx).
  rewrite Forall_forall in Hn. specialize (Hn s Hs). unfold named_stream in Hn. rewrite Forall_forall in Hn.
  symmetry. apply (Hn _ Hx).
Qed.

Lemma first_with_elem sig cs fi : first_with sig cs = Some fi → fi ∈ cs ∧ sig_of fi = sig.
Proof.
  unfold first_with. destruct (filter _ cs) as [|x xs] eqn:E; [done|]. intros [= ->].
  assert (fi ∈ filter (λ fi, sig_of fi = sig) cs) as Hx by (rewrite E; left). apply list_elem_of_filter in Hx. naive_solver.
Qed.

Lemma emit_within_Some {HSig : HashIter Sig} quorum bucket k streams oi :
  emit_within quorum bucket (records_of fst k streams) = Some oi →
  ∃ fi, oi = to_object_info bucket fi ∧ deleted fi = false ∧ fi ∈ records_named k streams
    ∧ quorum ≤ sig_count (sig_of fi) (records_named k streams)
    ∧ ∀ sig, sig_count sig (records_named k streams) ≤ sig_count (sig_of fi) (records_named k streams).
Proof.
  unfold emit_within. case_bool; [done|]. fold (records_named k streams).
  destruct (vote_fileinfo _ quorum) as [fi|] eqn:E; [|done]. case_bool; [|done]. intros [= <-].
  apply vote_fileinfo_Some in E as (Hf & Hq & Hmax). apply first_with_elem in Hf as [Hf _].
  exists fi. to_prop. done.
Qed.

Lemma within_keys_sorted {HSig : HashIter Sig} streams quorum bucket :
  Forall (sorted_stream fst) streams → Forall named_stream streams →
  sorted_stream oi_key (merge_within_set streams quorum bucket).
Proof.
  intros Hs Hn. rewrite merge_within_set_eq by done. apply merge_reference_sorted.
  intros k oi (fi & -> & _ & Hin & _)%emit_within_Some. simpl. by eapply records_named_name.
Qed.

Lemma emit_newest_Some rs oi : emit_newest rs = Some oi →
  oi ∈ rs ∧ ∀ oi', oi' ∈ rs → (oi_modified_ms oi' ≤ oi_modified_ms oi)%Z.
Proof.
  destruct rs as [|x rs]; [done|]. simpl. intros [= <-]. revert x.
  induction rs as [|y rs IH]; intros x; simpl.
  { split; [left|]. intros o Ho. apply list_elem_of_singleton in Ho as ->. done. }
  destruct (IH (newer x y)) as [Hin Hmax]. split.
  - apply elem_of_cons in Hin as [->|Hin]; [unfold newer; case_bool; [right; left|left]|right; by right].
  - assert (oi_modified_ms x ≤ oi_modified_ms (newer x y) ∧ oi_modified_ms y ≤ oi_modified_ms (newer x y))%Z as [Hx Hy].
    { unfold newer. case_bool; to_prop; lia. }
    pose proof (Hmax (newer x y) ltac:(left)) as Hn.
    intros o [->|[->|Ho]%elem_of_cons]%elem_of_cons; [lia..|]. apply Hmax. by right.
Qed.

Lemma across_keys_sorted streams : Forall (sorted_stream oi_key) streams →
  sorted_stream oi_key (merge_across_sets streams).
Proof.
  intros Hs. rewrite merge_across_sets_eq by done. apply merge_reference_sorted.
  intros k oi [Hin _]%emit_newest_Some. apply elem_of_records_of in Hin. by destruct Hin.
Qed.

Lemma across_elem streams oi : Forall (sorted_stream oi_key) streams → oi ∈ merge_across_sets streams →
  (∃ s, s ∈ streams ∧ oi ∈ s)
  ∧ ∀ s oi', s ∈ streams → oi' ∈ s → oi_key oi' = oi_key oi → (oi_modified_ms oi' ≤ oi_modified_ms oi)%Z.
Proof.
  intros Hs. rewrite merge_across_sets_eq by done. intros (k & Hk & [Hin Hmax]%emit_newest_Some)%elem_of_merge_reference.
  apply elem_of_records_of in Hin as (<- & s & ? & ?). split; [eauto|].
  intros s' oi' ???. apply Hmax, elem_of_records_of. eauto.
Qed.

Lemma across_complete streams s oi : Forall (sorted_stream oi_key) streams → s ∈ streams → oi ∈ s →
  oi_key oi ∈ oi_key <$> merge_across_sets streams.
Proof.
  intros Hs Hin Ho. rewrite merge_across_sets_eq by done. apply list_elem_of_fmap.
  assert (oi ∈ records_of oi_key (oi_key oi) streams) as Hr by (apply elem_of_records_of; eauto).
  destruct (emit_newest (records_of oi_key (oi_key oi) streams)) as [o|] eqn:E.
  - exists o. split.
    + apply emit_newest_Some in E as [E _]. apply elem_of_records_of in E as [-> _]. done.
    + apply elem_of_merge_reference. exists (oi_key oi). split; [|done]. apply elem_of_sorted_keys. eauto.
  - destruct (records_of _ _ _); [by apply elem_of_nil in Hr|done].
Qed.

Lemma list_one_set_ok {HSig : HashIter Sig} cluster backends walk i bucket cap :
  is_Some (set_disks cluster i) →
  (∀ d l, walk d cap = Ok l → sorted_stream fst l ∧ named_stream l) →
  ∃ s, list_one_set cluster backends walk i bucket cap = Some (Ok s) ∧ sorted_stream oi_key s.
Proof.
  intros [ds Hds] Hw. unfold list_one_set. rewrite Hds. simpl.
  case_decide; [exists []; split; [done|constructor]|].
  case_bool; [exists []; split; [done|constructor]|].
  eexists. split; [done|]. apply within_keys_sorted; rewrite Forall_forall;
    intros s (d & Hd & Hok)%list_elem_of_omap; destruct (walk d cap) eqn:E; simplify_eq/=; by eapply Hw.
Qed.

Lemma collect_ok {E A} (l : list A) : collect (Ok (E:=E) <$> l) = Ok l.
Proof. induction l as [|x l IH]; [done|]. rewrite fmap_cons. cbn [collect]. by rewrite IH. Qed.

Lemma take_sorted n (l : list ObjectInfo) : sorted_stream oi_key l → sorted_stream oi_key (take n l).
Proof.
  unfold sorted_stream. rewrite fmap_take. intros Hs. rewrite <-(take_drop n (oi_key <$> l)) in Hs.
  revert Hs. generalize (drop n (oi_key <$> l)). induction (take n (oi_key <$> l)) as [|x r IH]; [constructor|].
  intros r' [Hs Hf]%StronglySorted_inv. constructor; [by eapply IH|]. by apply Forall_app in Hf as [? _].
Qed.

Lemma take_sorted_rest n (l : list ObjectInfo) k : sorted_stream oi_key l → k ∈ oi_key <$> l →
  k ∈ oi_key <$> take n l ∨ (length (take n l) = n ∧ ∀ oi, oi ∈ take n l → str_lt (oi_key oi) k).
Proof.
  revert n. induction l as [|x l IH]; intros n Hs Hk; [by apply elem_of_nil in Hk|].
  destruct n as [|n]; [right; split; [done|]; intros oi H; by apply elem_of_nil in H|].
  pose proof (λ y, sorted_stream_head oi_key x l y Hs) as Hx. unfold sorted_stream in Hs. rewrite fmap_cons in Hs, Hk.
  apply StronglySorted_inv in Hs as [Hs _]. cbn [take]. rewrite fmap_cons.
  apply elem_of_cons in Hk as [->|Hk]; [left; left|].
  destruct (IH n Hs Hk) as [?|[Hl Hlt]]; [left; by right|right]. split; [simpl; by rewrite Hl|].
  intros oi [->|Hoi]%elem_of_cons; [|by apply Hlt].
  apply list_elem_of_fmap in Hk as (y & -> & Hy). by apply Hx.
Qed.

Lemma all_ok_list {E A} (P : A → Prop) (rs : list (result E A)) :
  (∀ i r, rs !! i = Some r → ∃ a, r = Ok a ∧ P a) → ∃ l, rs = Ok <$> l ∧ Forall P l.
Proof.
  induction rs as [|r rs IH]; intros Hr; [by exists []|].
  destruct (Hr 0 r eq_refl) as (a & -> & Ha). destruct IH as (l & -> & Hl); [intros i; apply (Hr (S i))|].
  exists (a :: l). split; [done|by constructor].
Qed.

(** Merging the walks of one set.  For walks that are sorted by name, the
    output is strictly sorted by key (each key at most once), every listed
    object comes from a record that is not a delete marker, that some disk
    holds and whose signature (etag, time, version, size, delete flag) at least
    [quorum] disks agree on, more than or as many as on any other signature of
    that key; and conversely a live record whose signature alone reaches the
    quorum for its key is listed. *)
Theorem merge_within_set_spec {HSig : HashIter Sig} streams quorum bucket :
  0 < quorum → Forall (sorted_stream fst) streams → Forall named_stream streams →
  let out := merge_within_set streams quorum bucket in
  StronglySorted str_lt (oi_key <$> out)
  ∧ (∀ oi, oi ∈ out → ∃ fi, oi = to_object_info bucket fi ∧ deleted fi = false
      ∧ fi ∈ records_named (oi_key oi) streams
      ∧ quorum ≤ sig_count (sig_of fi) (records_named (oi_key oi) streams)
      ∧ ∀ sig, sig_count sig (records_named (oi_key oi) streams)
               ≤ sig_count (sig_of fi) (records_named (oi_key oi) streams))
  ∧ (∀ fi, deleted fi = false →
      first_with (sig_of fi) (records_named (name fi) streams) = Some fi →
      quorum ≤ sig_count (sig_of fi) (records_named (name fi) streams) →
      (∀ sig, sig ≠ sig_of fi → sig_count sig (records_named (name fi) streams) < quorum) →
      to_object_info bucket fi ∈ out).
Proof.
  intros Hq Hs Hn out. split_and!; [by apply within_keys_sorted| |].
  - intros oi. unfold out. rewrite merge_within_set_eq by done.
    intros (k & _ & (fi & -> & Hd & Hin & Hrest)%emit_within_Some)%elem_of_merge_reference.
    exists fi. simpl. rewrite (records_named_name _ _ _ Hn Hin). done.
  - intros fi Hd Hf Hc Hu. unfold out. rewrite merge_within_set_eq by done. apply elem_of_merge_reference.
    exists (name fi). split.
    + apply first_with_elem in Hf as [Hf _]. apply list_elem_of_fmap in Hf as ([k fi'] & -> & Hf).
      apply elem_of_records_of in Hf as (Hk & s & ? & ?). apply elem_of_sorted_keys. eauto.
    + unfold emit_within. fold (records_named (name fi) streams).
      assert (quorum ≤ length (records_of fst (name fi) streams)) as Hl.
      { rewrite sig_count_filter in Hc. pose proof (length_filter (λ fi', sig_of fi' = sig_of fi) (records_named (name fi) streams)).
        unfold records_named in *. rewrite length_fmap in *. lia. }
      rewrite (proj2 (Nat.ltb_ge _ _)) by done. rewrite (vote_fileinfo_wins _ _ fi) by done. by rewrite Hd.
Qed.

(** C20.  A listing of a booted cluster whose disks walk in name order.  It
    always succeeds; its keys are strictly increasing; at most [max_keys + 1]
    objects are returned when a limit is given; each returned object is one
    some set listed, and no set listed a newer one under that key; and no key
    is skipped: every key a set listed is returned, or the page is full and all
    its keys come before it. *)
Theorem list_objects_spec {HSig : HashIter Sig} cluster backends walk bucket max_keys :
  wf_cluster cluster →
  (∀ d cap l, walk d cap = Ok l → sorted_stream fst l ∧ named_stream l) →
  ∃ out sets, list_objects cluster backends walk bucket max_keys = Some (Ok out)
    ∧ mapM (λ i, list_one_set cluster backends walk i bucket (if max_keys =? 0 then None else Some (max_keys + 1)))
        (seq 0 (length sets)) = Some (Ok <$> sets)
    ∧ num_sets cluster = Some (length sets)
    ∧ StronglySorted str_lt (oi_key <$> out)
    ∧ (0 < max_keys → length out ≤ max_keys + 1)
    ∧ (∀ oi, oi ∈ out → (∃ s, s ∈ sets ∧ oi ∈ s)
        ∧ ∀ s oi', s ∈ sets → oi' ∈ s → oi_key oi' = oi_key oi → (oi_modified_ms oi' ≤ oi_modified_ms oi)%Z)
    ∧ (∀ s oi, s ∈ sets → oi ∈ s → oi_key oi ∈ oi_key <$> out
        ∨ (0 < max_keys ∧ length out = max_keys + 1 ∧ ∀ oi', oi' ∈ out → str_lt (oi_key oi') (oi_key oi))).
Proof.
  intros Hwf Hw. destruct (num_sets_wf _ Hwf) as (ns & Hns & Hpos & Htot).
  set (cap := if max_keys =? 0 then None else Some (max_keys + 1)).
  destruct (mapM_lookup (λ i, list_one_set cluster backends walk i bucket cap)
    (λ _ r, ∃ s, r = Ok s ∧ sorted_stream oi_key s) (seq 0 ns)) as (rs & Hrs & Hlen & Hok).
  { intros i x [-> Hi]%lookup_seq. simpl.
    destruct (list_one_set_ok cluster backends walk i bucket cap) as (s & ? & ?); [|by intros; eapply Hw|eauto].
    destruct (set_disks_wf cluster i ns Hwf Hns) as (ds & -> & _); [lia|done]. }
  destruct (all_ok_list _ rs Hok) as (sets & -> & Hsorted).
  rewrite length_fmap, length_seq in Hlen.
  pose proof (across_keys_sorted sets Hsorted) as Hall.
  exists (if 0 <? max_keys then take (max_keys + 1) (merge_across_sets sets) else merge_across_sets sets), sets.
  rewrite Hlen. split_and!; [|done..| | | |].
  - unfold list_objects. rewrite Hns. cbn [mbind option_bind]. rewrite (proj2 (Nat.eqb_neq _ _)) by lia.
    fold cap. rewrite Hrs. cbn [mbind option_bind]. rewrite collect_ok. do 2 f_equal.
    destruct (0 <? max_keys); [|done]. cbn [andb]. case_bool; to_prop; [done|]. by rewrite take_ge by lia.
  - case_bool; [by apply take_sorted|done].
  - intros Hm. rewrite (proj2 (Nat.ltb_lt _ _)) by done. rewrite length_take. lia.
  - intros oi Hoi. apply across_elem; [done|]. case_bool; [|done]. apply elem_of_take in Hoi as (? & ? & ?). by eapply list_elem_of_lookup_2.
  - intros s oi Hs Hoi. pose proof (across_complete sets s oi Hsorted Hs Hoi) as Hk. case_bool; [|by left].
    to_prop. destruct (take_sorted_rest (max_keys + 1) _ _ Hall Hk) as [?|[? ?]]; [by left|by right].
Qed.

(** ** Evaluation *)

Definition sample_record (n etag : string) (t : Z) : string * FileInfo :=
  (n, {| volume := "b"; name := n; version_id := "null"; is_latest := true; deleted := false; data_dir := "";
         xl_v1 := false; mod_time_ms := t; size := 3; mode := 0; written_by_version := 0;
         metadata := {[ETAG_META_KEY := etag]}; meta_sys := ∅; parts := []; erasure := ErasureInfo_default;
         data := None; num_versions := 1; fresh := true; idx := 0; checksum := []; versioned := false |}).
Definition sample_walks : list (list (string * FileInfo)) :=
  [ [sample_record "a" "e1" 1; sample_record "b" "e2" 5];
    [sample_record "b" "e2" 5; sample_record "c" "e3" 1];
    [sample_record "a" "e1" 1; sample_record "b" "old" 2] ].

Example merge_sample :
  (λ oi, (oi_key oi, oi_etag oi))
    <$> merge_within_set (HSig := listed_order Sig) sample_walks 2 "b" = [("a", "e1"); ("b", "e2")].
Proof. vm_compute. reflexivity. Qed.

(** Walks that are not in name order can make a key both disks hold miss its quorum. *)
Example unsorted_walk_drops_key :
  merge_within_set (HSig := listed_order Sig)
    [[sample_record "a/x" "e1" 1; sample_record "a-b" "e2" 1]; [sample_record "a-b" "e2" 1]] 2 "b" = [].
Proof. vm_compute. reflexivity. Qed.

Lemma merge_within_set_spec_witness :
  StronglySorted str_lt (oi_key <$> merge_within_set (HSig := listed_order Sig) sample_walks 2 "b")
  ∧ to_object_info "b" (sample_record "b" "e2" 5).2 ∈ merge_within_set (HSig := listed_order Sig) sample_walks 2 "b".
Proof.
  destruct (merge_within_set_spec (HSig := listed_order Sig) sample_walks 2 "b") as (H1 & _ & H3).
  - lia.
  - repeat (apply Forall_cons; split; [repeat constructor|]). by apply Forall_nil.
  - repeat (apply Forall_cons; split; [repeat constructor|]). by apply Forall_nil.
  - split; [exact H1|]. apply H3; [reflexivity|reflexivity|vm_compute; lia|].
    intros sig Hne. change (records_named _ sample_walks)
      with [(sample_record "b" "e2" 5).2; (sample_record "b" "e2" 5).2; (sample_record "b" "old" 2).2].
    unfold sig_count, count. cbn [fmap list_fmap]. rewrite !filter_cons, filter_nil.
    rewrite !decide_False by (intros Heq; apply Hne; rewrite <-Heq; reflexivity). case_decide; simpl; lia.
Defined.

Definition sample_walk (d : DiskAddr) (cap : option nat) : IoResult (list (string * FileInfo)) :=
  if decide (node_id d = 0) then Err (Io (io_error_other "down")) else Ok [sample_record "a" "e1" 1; sample_record "b" "e2" 5].

Lemma list_objects_spec_witness :
  ∃ out, list_objects (HSig := listed_order Sig) sample_cluster (list_to_set (all_disks sample_cluster)) sample_walk "b" 1
           = Some (Ok out) ∧ StronglySorted str_lt (oi_key <$> out) ∧ length out ≤ 2.
Proof.
  destruct (list_objects_spec (HSig := listed_order Sig) sample_cluster (list_to_set (all_disks sample_cluster))
    sample_walk "b" 1 sample_cluster_wf) as (out & sets & H1 & _ & _ & H2 & H3 & _).
  - intros d cap l. unfold sample_walk. case_decide; [done|]. intros [= <-]. split; repeat constructor.
  - exists out. split; [exact H1|]. split; [exact H2|]. apply H3. lia.
Defined.

(** A capped walk counts the keys below the quorum too: with leftovers of failed
    uploads on one drive, a key two drives of the set hold is not on the page
    that should hold it, and the page says that it is the last one. *)
Definition stale_walk (d : DiskAddr) (cap : option nat) : IoResult (list (string * FileInfo)) :=
  let all := match set_disks sample_cluster 0 with
             | Some [d0; d1; d2; d3] =>
                 if decide (d = d0) then [sample_record "a1" "x" 1; sample_record "a2" "x" 1; sample_record "b" "e" 1]
                 else if decide (d = d1) then [sample_record "b" "e" 1; sample_record "c" "e" 1]
                 else if decide (d = d2) then [sample_record "c" "e" 1]
                 else []
             | _ => []
             end in
  Ok (match cap with Some n => take n all | None => all end).
Example capped_listing_drops_key :
  let list := list_objects (HSig := listed_order Sig) sample_cluster (list_to_set (all_disks sample_cluster)) stale_walk "b" in
  (λ r, match r with Ok l => oi_key <$> l | Err _ => [] end) <$> list 0 = Some ["b"; "c"]
  ∧ (λ r, match r with Ok l => oi_key <$> l | Err _ => [] end) <$> list 1 = Some ["c"].
Proof. vm_compute. split; reflexivity. Qed.
