(* ===== verification/XlMeta.v ===== *)
(** * The on-disk metadata file

    [openlake_io/src/xl_meta.rs]: encoding a list of version records with their
    inline payloads into one [xl.meta] blob and decoding it strictly.

    The msgpack codec ([rmp_serde]) and the checksum ([xxh64]) are parameters.
    A string is its UTF-8 bytes; slicing a string inside a character is a panic,
    written [None]. *)

From stdpp Require Import base gmap strings sorting pretty list.
From S2P Require Import Prelude Types Consensus.

(** ** Records on disk *)

Record ChecksumBlock := { cb_part_number : Z; cb_algorithm : string; cb_hash : bytes }.

Record ErasureBlock := {
  eb_algorithm : string; eb_data_blocks : nat; eb_parity_blocks : nat; eb_index : nat;
  eb_block_size : Z; eb_distribution : list nat; eb_checksums : list ChecksumBlock
}.

Record PartBlock := {
  pb_number : Z; pb_size : Z; pb_actual_size : Z; pb_mod_time : Z; pb_etag : string;
  pb_index : bytes; pb_checksums : gmap string string
}.

Record VersionRecord := {
  vr_version_id : bytes;
  vr_ty : Z;
  vr_mod_time : Z;
  vr_data_dir : bytes;
  vr_size : Z;
  vr_erasure : ErasureBlock;
  vr_parts : list PartBlock;
  vr_metadata : gmap string string;
  vr_meta_sys : gmap string bytes;
  vr_inline_offset : Z;
  vr_inline_length : Z
}.

(** [OnDiskMeta]: the versions. *)
Definition OnDiskMeta : Type := list VersionRecord.

Record DecodedRecord := {
  dr_version_id : string;
  dr_data_dir : string;
  dr_deleted : bool;
  dr_size : Z;
  dr_mod_time_ms : Z;
  dr_metadata : gmap string string;
  dr_meta_sys : gmap string bytes;
  dr_erasure : ErasureInfo;
  dr_parts : list ObjectPartInfo;
  dr_inline : option (list bytes);
  dr_num_versions : Z
}.

Record EncodedXlMeta := { xl_head : bytes; xl_tail : list bytes }.
Definition to_vec (e : EncodedXlMeta) : bytes := xl_head e ++ concat (xl_tail e).
Definition encoded_len (e : EncodedXlMeta) : nat :=
  length (xl_head e) + sum_list (length <$> xl_tail e).

Definition MAGIC : bytes := str_bytes "XL2 ".
Definition FORMAT_MAJOR : Z := 1.
Definition FORMAT_MINOR : Z := 3.
Definition HEADER_LEN : nat := 8.
Definition BIN32_TAG : byte := xc6.
Definition BIN32_HEADER_LEN : nat := 5.
Definition CRC_TAG : byte := xce.
Definition CRC_LEN : nat := 5.

(** ** Field encoders and decoders *)

Definition encode_erasure (ei : ErasureInfo) : ErasureBlock :=
  {| eb_algorithm := algorithm ei; eb_data_blocks := data_blocks ei; eb_parity_blocks := parity_blocks ei;
     eb_index := index ei; eb_block_size := block_size ei; eb_distribution := distribution ei;
     eb_checksums := (λ c, {| cb_part_number := ci_part_number c; cb_algorithm := ci_algorithm c;
                              cb_hash := ci_hash c |}) <$> checksums ei |}.
Definition decode_erasure (b : ErasureBlock) : ErasureInfo :=
  {| algorithm := eb_algorithm b; data_blocks := eb_data_blocks b; parity_blocks := eb_parity_blocks b;
     block_size := eb_block_size b; index := eb_index b; distribution := eb_distribution b;
     checksums := (λ c, {| ci_part_number := cb_part_number c; ci_algorithm := cb_algorithm c;
                           ci_hash := cb_hash c |}) <$> eb_checksums b |}.
Definition encode_part (p : ObjectPartInfo) : PartBlock :=
  {| pb_number := p_number p; pb_size := p_size p; pb_actual_size := p_actual_size p;
     pb_mod_time := p_mod_time_ms p; pb_etag := p_etag p; pb_index := p_index p; pb_checksums := p_checksums p |}.
Definition decode_part (p : PartBlock) : ObjectPartInfo :=
  {| p_etag := pb_etag p; p_number := pb_number p; p_size := pb_size p; p_actual_size := pb_actual_size p;
     p_mod_time_ms := pb_mod_time p; p_index := pb_index p; p_checksums := pb_checksums p |}.

(** ** Identifiers *)

Definition ZERO_ID : bytes := replicate 16 x00.

(** A digit of [from_str_radix(_, 16)]. *)
Definition hex_digit (c : byte) : option Z :=
  let z := Z_of_byte c in
  if ((48 <=? z) && (z <=? 57))%Z then Some (z - 48)%Z
  else if ((97 <=? z) && (z <=? 102))%Z then Some (z - 87)%Z
  else if ((65 <=? z) && (z <=? 70))%Z then Some (z - 55)%Z
  else None.

(** [u8::from_str_radix] on two bytes: a leading [+] is accepted. *)
Definition hex_pair (a b : byte) : option byte :=
  if decide (a = x2b) then d ← hex_digit b; Some (byte_of_Z d)
  else h ← hex_digit a; l ← hex_digit b; Some (byte_of_Z (16 * h + l)%Z).

Definition char_boundary (rest : bytes) : bool :=
  match rest with
  | [] => true
  | c :: _ => negb ((128 <=? Z_of_byte c) && (Z_of_byte c <? 192))%Z
  end.

(** The loop over [hex[i * 2..i * 2 + 2]]. *)
Fixpoint hex_pairs (hex : bytes) : option (option bytes) :=
  match hex with
  | a :: b :: rest =>
      if char_boundary hex && char_boundary rest then
        match hex_pair a b with
        | None => Some None
        | Some x => r ← hex_pairs rest; Some (option_map (cons x) r)
        end
      else None
  | _ => Some (Some [])
  end.

Definition parse_uuid_bytes (s field : string) : option (IoResult bytes) :=
  if decide (s = "" ∨ s = NULL_VERSION_ID) then Some (Ok ZERO_ID)
  else
    let hex := filter (λ c, c ≠ x2d) (str_bytes s) in
    if negb (length hex =? 32) then
      Some (Err (Encode (field +:+ ": expected 32 hex chars after stripping dashes, got " +:+ pretty (length hex))))
    else r ← hex_pairs hex; Some (ok_or r (Encode (field +:+ ": invalid hex"))).

(** One byte under [{:02x}]. *)
Definition hex_char (d : Z) : byte := byte_of_Z (if (d <? 10)%Z then 48 + d else 87 + d)%Z.
Definition hex2 (b : byte) : bytes := [hex_char (Z_of_byte b / 16); hex_char (Z_of_byte b `mod` 16)].
Definition format_uuid_hex (b : bytes) : string :=
  String.string_of_list_byte
    (concat (hex2 <$> take 4 b) ++ [x2d] ++ concat (hex2 <$> sub_bytes 4 6 b) ++ [x2d]
     ++ concat (hex2 <$> sub_bytes 6 8 b) ++ [x2d] ++ concat (hex2 <$> sub_bytes 8 10 b) ++ [x2d]
     ++ concat (hex2 <$> sub_bytes 10 16 b)).
Definition format_version_id_bytes (b : bytes) : string :=
  if decide (b = ZERO_ID) then NULL_VERSION_ID else format_uuid_hex b.
Definition format_data_dir_bytes (b : bytes) : string :=
  if decide (b = ZERO_ID) then "" else format_uuid_hex b.

(** ** Validation *)

Definition guard (bad : bool) (e : IoError) : IoResult unit := if bad then Err e else Ok ().

Definition validate_erasure (ei : ErasureInfo) (ctx : string) : IoResult unit :=
  let err (msg : string) :=
    if decide (ctx = "encode") then Encode ("erasure: " +:+ msg) else InvalidArgument ("erasure: " +:+ msg) in
  let n := data_blocks ei + parity_blocks ei in
  _ ← guard (bool_decide (algorithm ei = "")) (err "algorithm must be non-empty");
  _ ← guard (data_blocks ei =? 0) (err "data_blocks must be >= 1");
  _ ← guard (data_blocks ei <? parity_blocks ei)
        (err ("parity_blocks (" +:+ pretty (parity_blocks ei) +:+ ") must be <= data_blocks ("
              +:+ pretty (data_blocks ei) +:+ ")"));
  _ ← guard (n =? 0) (err "data_blocks + parity_blocks must be > 0");
  _ ← guard (negb (length (distribution ei) =? n))
        (err ("distribution length (" +:+ pretty (length (distribution ei))
              +:+ ") must equal data_blocks + parity_blocks (" +:+ pretty n +:+ ")"));
  _ ← guard ((index ei =? 0) || (n <? index ei))
        (err ("index (" +:+ pretty (index ei) +:+ ") must be in [1, " +:+ pretty n +:+ "]"));
  guard (block_size ei =? 0)%Z (err "block_size must be > 0").

(** The loop over the parts: the first offending part, in order. *)
Fixpoint each_part {A} (check : nat → A → IoResult unit) (i : nat) (ps : list A) : IoResult unit :=
  match ps with
  | [] => Ok ()
  | p :: ps => _ ← check i p; each_part check (S i) ps
  end.

Definition part_msg (i : nat) (what : string) (got : Z) : string :=
  "parts[" +:+ pretty i +:+ "]." +:+ what +:+ ", got " +:+ pretty got.

Definition has_inline (fi : FileInfo) : bool :=
  match data fi with Some (_ :: _) => true | _ => false end.
Definition frame_total (fi : FileInfo) : Z :=
  foldr (λ f acc, Z.of_nat (length f) + acc)%Z 0%Z (default [] (data fi)).

Definition check_encode_part (i : nat) (p : ObjectPartInfo) : IoResult unit :=
  _ ← guard (p_number p <=? 0)%Z (Encode (part_msg i "number must be > 0" (p_number p)));
  _ ← guard (p_size p <? 0)%Z (Encode (part_msg i "size must be >= 0" (p_size p)));
  guard (p_actual_size p <? 0)%Z (Encode (part_msg i "actual_size must be >= 0" (p_actual_size p))).

Definition validate_for_encode (fi : FileInfo) : IoResult unit :=
  _ ← guard (size fi <? 0)%Z (Encode ("size must be >= 0, got " +:+ pretty (size fi)));
  _ ← guard (mod_time_ms fi =? 0)%Z (Encode "mod_time_ms must be set (got 0)");
  _ ← validate_erasure (erasure fi) "encode";
  _ ← (if deleted fi then
         _ ← guard (negb (bool_decide (parts fi = []))) (Encode "delete marker must have no parts");
         _ ← guard (negb (size fi =? 0)%Z) (Encode ("delete marker must have size 0, got " +:+ pretty (size fi)));
         guard (has_inline fi) (Encode "delete marker must have no inline data")
       else
         guard ((0 <? size fi)%Z && bool_decide (parts fi = []))
           (Encode "non-deleted object with size > 0 must have at least one part"));
  _ ← guard (has_inline fi && negb (bool_decide (data_dir fi = "")))
        (Encode "version cannot set both inline data and data_dir; inline-vs-EC is mutually exclusive");
  _ ← guard (negb (deleted fi) && (0 <? size fi)%Z && negb (has_inline fi) && bool_decide (data_dir fi = ""))
        (Encode "non-deleted EC object with size > 0 must have a non-empty data_dir");
  _ ← guard (has_inline fi && negb (frame_total fi =? size fi)%Z)
        (Encode ("inline frame total (" +:+ pretty (frame_total fi) +:+ ") must equal size ("
                 +:+ pretty (size fi) +:+ ")"));
  each_part check_encode_part 0 (parts fi).

Definition corrupt (msg : string) : IoError := CorruptMetadata "" "" msg.

Definition check_decode_part (i : nat) (p : PartBlock) : IoResult unit :=
  _ ← guard (pb_number p <=? 0)%Z (corrupt (part_msg i "number must be > 0" (pb_number p)));
  guard (pb_size p <? 0)%Z (corrupt (part_msg i "size must be >= 0" (pb_size p))).

Definition validate_decoded_version (v : VersionRecord) : IoResult unit :=
  _ ← guard (version_type_u8 VDeleteMarker <? vr_ty v)%Z (corrupt ("invalid version type: " +:+ pretty (vr_ty v)));
  _ ← guard (vr_size v <? 0)%Z (corrupt ("size must be >= 0, got " +:+ pretty (vr_size v)));
  _ ← guard (vr_mod_time v =? 0)%Z (corrupt "mod_time must be set (got 0)");
  _ ← map_err (λ e, corrupt ("erasure validation: " +:+ io_to_string e))
        (validate_erasure (decode_erasure (vr_erasure v)) "decode");
  _ ← (if (vr_ty v =? version_type_u8 VDeleteMarker)%Z then
         _ ← guard (negb (length (vr_parts v) =? 0)) (corrupt "delete marker must have no parts");
         _ ← guard (negb (vr_size v =? 0)%Z) (corrupt ("delete marker must have size 0, got " +:+ pretty (vr_size v)));
         guard (negb (vr_inline_length v =? 0)%Z) (corrupt "delete marker must have inline_length == 0")
       else
         guard ((0 <? vr_size v)%Z && (length (vr_parts v) =? 0))
           (corrupt "non-deleted object with size > 0 must have at least one part"));
  _ ← guard ((0 <? vr_inline_length v)%Z && negb (bool_decide (vr_data_dir v = ZERO_ID)))
        (corrupt "version sets both inline_length>0 and a non-zero data_dir; inline-vs-EC is mutually exclusive");
  _ ← guard ((0 <? vr_inline_length v)%Z && negb ((vr_size v `mod` u64_mod) =? vr_inline_length v)%Z)
        (corrupt ("inline_length (" +:+ pretty (vr_inline_length v) +:+ ") must equal size ("
                  +:+ pretty (vr_size v) +:+ ") for inline versions"));
  each_part check_decode_part 0 (vr_parts v).

(** ** Encoding *)

(** The frames of a version that reach the tail, and their length. *)
Definition tail_frames (fi : FileInfo) : list bytes := filter (λ f, f ≠ []) (default [] (data fi)).
Definition version_len (fi : FileInfo) : Z :=
  foldr (λ f acc, Z.of_nat (length f) + acc)%Z 0%Z (tail_frames fi).
(** The loop that assigns each version its slice of the tail. *)
Fixpoint inline_meta (tail_pos : Z) (vs : list FileInfo) : list (Z * Z) :=
  match vs with
  | [] => []
  | fi :: vs =>
      let len := version_len fi in
      ((if (len =? 0)%Z then 0%Z else tail_pos), len) :: inline_meta (tail_pos + len) vs
  end.

(** [?] under a computation that may also panic. *)
Definition bind_io {A B} (m : option (IoResult A)) (f : A → option (IoResult B)) : option (IoResult B) :=
  match m with
  | None => None
  | Some (Err e) => Some (Err e)
  | Some (Ok a) => f a
  end.

Definition version_record (fi : FileInfo) (off_len : Z * Z) : option (IoResult VersionRecord) :=
  bind_io (parse_uuid_bytes (version_id fi) "version_id") (λ vid,
  bind_io (parse_uuid_bytes (data_dir fi) "data_dir") (λ dd,
  Some (Ok {| vr_version_id := vid;
              vr_ty := version_type_u8 (if deleted fi then VDeleteMarker else VObject);
              vr_mod_time := mod_time_ms fi;
              vr_data_dir := dd;
              vr_size := size fi;
              vr_erasure := encode_erasure (erasure fi);
              vr_parts := encode_part <$> parts fi;
              vr_metadata := metadata fi;
              vr_meta_sys := meta_sys fi;
              vr_inline_offset := off_len.1;
              vr_inline_length := off_len.2 |}))).

Fixpoint version_records (vs : list (FileInfo * (Z * Z))) : option (IoResult (list VersionRecord)) :=
  match vs with
  | [] => Some (Ok [])
  | (fi, ol) :: vs =>
      bind_io (version_record fi ol) (λ v, bind_io (version_records vs) (λ l, Some (Ok (v :: l))))
  end.

Definition newest_first {A} (mod_time : A → Z) : list A → list A :=
  sort_by (λ a b, (mod_time b <=? mod_time a)%Z).

Definition as_i32 (n : nat) : Z := ((Z.of_nat n + 2 ^ 31) `mod` u32_mod - 2 ^ 31)%Z.

Section codec.
Context (rmp_to_vec : OnDiskMeta → result string bytes).
Context (rmp_from_slice : bytes → result string OnDiskMeta).
Context (xxh64 : bytes → Z).

(** [xxh64(body, 0) as u32]. *)
Definition crc (body : bytes) : Z := (xxh64 body `mod` u32_mod)%Z.

Definition xl_frame (body : bytes) : bytes :=
  MAGIC ++ le_bytes 2 FORMAT_MAJOR ++ le_bytes 2 FORMAT_MINOR ++ [BIN32_TAG]
  ++ be_bytes 4 (Z.of_nat (length body) `mod` u32_mod)%Z ++ body ++ [CRC_TAG] ++ be_bytes 4 (crc body).

Definition encode_versions (vs : list FileInfo) : option (IoResult EncodedXlMeta) :=
  if decide (vs = []) then Some (Err (Encode "encode_versions: empty versions slice"))
  else
    bind_io (Some (collect (validate_for_encode <$> vs))) (λ _,
    bind_io (version_records (zip vs (inline_meta 0 vs))) (λ records,
    match rmp_to_vec records with
    | Err e => Some (Err (Encode ("xl.meta encode: " +:+ e)))
    | Ok body => Some (Ok {| xl_head := xl_frame body; xl_tail := vs ≫= tail_frames |})
    end)).

Definition encode (fi : FileInfo) : option (IoResult EncodedXlMeta) := encode_versions [fi].

(** ** Decoding *)

(** The inline payload of a version: a slice of the tail. *)
Definition inline_of (bs : bytes) (crc_end : nat) (v : VersionRecord) : IoResult (option (list bytes)) :=
  let tail_len := length bs - crc_end in
  if (0 <? vr_inline_length v)%Z then
    let lo := vr_inline_offset v in
    let hi := (lo + vr_inline_length v)%Z in
    if (u64_mod <=? hi)%Z then Err (corrupt "inline range overflow")
    else if (Z.of_nat tail_len <? hi)%Z then
      Err (corrupt ("inline range [" +:+ pretty lo +:+ "," +:+ pretty hi +:+ ") exceeds tail length "
                    +:+ pretty tail_len))
    else Ok (Some [sub_bytes (crc_end + Z.to_nat lo) (crc_end + Z.to_nat hi) bs])
  else Ok None.

Definition decoded_record (total : nat) (v : VersionRecord) (inline : option (list bytes)) : DecodedRecord :=
  {| dr_version_id := format_version_id_bytes (vr_version_id v);
     dr_data_dir := format_data_dir_bytes (vr_data_dir v);
     dr_deleted := (vr_ty v =? version_type_u8 VDeleteMarker)%Z;
     dr_size := vr_size v;
     dr_mod_time_ms := vr_mod_time v;
     dr_metadata := vr_metadata v;
     dr_meta_sys := vr_meta_sys v;
     dr_erasure := decode_erasure (vr_erasure v);
     dr_parts := decode_part <$> vr_parts v;
     dr_inline := inline;
     dr_num_versions := as_i32 total |}.

(** The checks on the envelope: the body and where the tail starts. *)
Definition open_frame (bs : bytes) : IoResult (bytes * nat) :=
  _ ← guard (length bs <? HEADER_LEN + BIN32_HEADER_LEN + CRC_LEN) (corrupt "too short");
  _ ← guard (negb (bool_decide (take 4 bs = MAGIC))) (corrupt "bad magic");
  let major := from_le_bytes (sub_bytes 4 6 bs) in
  let minor := from_le_bytes (sub_bytes 6 8 bs) in
  _ ← guard (negb (major =? FORMAT_MAJOR)%Z) (UnsupportedMetadataVersion major FORMAT_MAJOR);
  _ ← guard (negb (minor =? FORMAT_MINOR)%Z)
        (corrupt ("format minor mismatch: file has " +:+ pretty major +:+ "." +:+ pretty minor
                  +:+ ", expected " +:+ pretty FORMAT_MAJOR +:+ "." +:+ pretty FORMAT_MINOR));
  _ ← guard (negb (bool_decide (bs !! HEADER_LEN = Some BIN32_TAG))) (corrupt "missing bin32 header");
  let body_len := Z.to_nat (from_be_bytes (sub_bytes (HEADER_LEN + 1) (HEADER_LEN + 5) bs)) in
  let body_start := HEADER_LEN + BIN32_HEADER_LEN in
  let body_end := body_start + body_len in
  let crc_end := body_end + CRC_LEN in
  _ ← guard (length bs <? crc_end) (corrupt "truncated body or crc");
  let body := sub_bytes body_start body_end bs in
  _ ← guard (negb (bool_decide (bs !! body_end = Some CRC_TAG))) (corrupt "missing crc marker");
  let stored_crc := from_be_bytes (sub_bytes (body_end + 1) (body_end + 5) bs) in
  _ ← guard (negb (crc body =? stored_crc)%Z) (corrupt "crc mismatch");
  Ok (body, crc_end).

Definition decode_all (bs : bytes) : IoResult (list DecodedRecord) :=
  '(body, crc_end) ← open_frame bs;
  on_disk ← map_err (λ e, corrupt ("decode body: " +:+ e)) (rmp_from_slice body);
  _ ← guard (length on_disk =? 0) (corrupt "empty versions list");
  let versions := newest_first vr_mod_time on_disk in
  _ ← collect (validate_decoded_version <$> versions);
  collect ((λ v, decoded_record (length versions) v <$> inline_of bs crc_end v) <$> versions).

Definition decode (bs : bytes) : IoResult DecodedRecord :=
  all ← decode_all bs;
  ok_or (head all) (corrupt "empty versions list").

Definition find_version (bs : bytes) (vid : string) : IoResult (option DecodedRecord) :=
  all ← decode_all bs;
  Ok (head (filter (λ r, dr_version_id r = vid) all)).
End codec.

Definition file_info_from_record (rec : DecodedRecord) (vol path : string) : FileInfo :=
  {| volume := vol; name := path; version_id := dr_version_id rec; is_latest := true;
     deleted := dr_deleted rec; data_dir := dr_data_dir rec; xl_v1 := false;
     mod_time_ms := dr_mod_time_ms rec; size := dr_size rec; mode := 0; written_by_version := 0;
     metadata := dr_metadata rec; meta_sys := dr_meta_sys rec; parts := dr_parts rec;
     erasure := dr_erasure rec; data := dr_inline rec; num_versions := Z.max (dr_num_versions rec) 1;
     fresh := false; idx := 0; checksum := []; versioned := false |}.

(** ** Lemmas: fields *)

Lemma guard_ok b e u : guard b e = Ok u ↔ b = false.
Proof. destruct u, b; simpl; naive_solver. Qed.

(** Splits a successful chain of checks into its facts. *)
Ltac inv_ok H :=
  repeat match type of H with
  | (_ ≫= _) = Ok _ => let H1 := fresh "Hok" in apply bind_ok in H as (? & H1 & H); try (apply guard_ok in H1)
  end; try (apply guard_ok in H); repeat match goal with u : unit |- _ => destruct u end.

Lemma collect_fmap_ok {E A B} (f : A → result E B) (g : A → B) (l : list A) :
  (∀ x, x ∈ l → f x = Ok (g x)) → collect (f <$> l) = Ok (g <$> l).
Proof.
  induction l as [|x l IH]; [done|]. intros Hl. rewrite !fmap_cons. cbn [collect]. rewrite Hl by left.
  rewrite IH by (intros; apply Hl; by right). done.
Qed.

Lemma collect_ok_inv {E A} (rs : list (result E A)) l : collect rs = Ok l → rs = Ok <$> l.
Proof.
  revert l. induction rs as [|r rs IH]; intros l; cbn [collect]; [intros [= <-]; done|].
  intros (a & -> & (l' & Hl & [= <-])%bind_ok)%bind_ok. by rewrite (IH _ Hl).
Qed.

Lemma decode_encode_erasure ei : decode_erasure (encode_erasure ei) = ei.
Proof.
  destruct ei as [alg d p bs ix ds cs]. unfold decode_erasure. cbn. f_equal.
  induction cs as [|[] cs IH]; [done|]. by rewrite !fmap_cons, IH.
Qed.

Lemma decode_encode_parts (ps : list ObjectPartInfo) : decode_part <$> (encode_part <$> ps) = ps.
Proof. induction ps as [|[] ps IH]; [done|]. by rewrite !fmap_cons, IH. Qed.

Lemma encode_decode_erasure b : encode_erasure (decode_erasure b) = b.
Proof.
  destruct b as [alg d p bs ix ds cs]. unfold encode_erasure. cbn. f_equal.
  induction cs as [|[] cs IH]; [done|]. by rewrite !fmap_cons, IH.
Qed.

(** ** Lemmas: identifiers *)

Lemma hex_pair_hex2 b : hex_pair (hex_char (Z_of_byte b / 16)) (hex_char (Z_of_byte b `mod` 16)) = Some b.
Proof. by destruct b. Qed.

Definition plain_char (c : byte) : bool :=
  bool_decide (c ≠ x2d) && negb ((128 <=? Z_of_byte c) && (Z_of_byte c <? 192))%Z.

Lemma hex2_plain b c : c ∈ hex2 b → plain_char c = true.
Proof. intros [->|[->|H]%elem_of_cons]%elem_of_cons; [by destruct b..|by apply elem_of_nil in H]. Qed.

Lemma hex_bytes_plain l c : c ∈ concat (hex2 <$> l) → plain_char c = true.
Proof. intros (h & (b & -> & _)%list_elem_of_fmap & Hc)%elem_of_concat. by eapply hex2_plain. Qed.

Lemma plain_boundary l : (∀ c, c ∈ l → plain_char c = true) → char_boundary l = true.
Proof.
  destruct l as [|c l]; [done|]. intros Hl. specialize (Hl c ltac:(left)). unfold plain_char in Hl.
  by apply andb_prop in Hl as [_ ?].
Qed.

Lemma hex_pairs_hex l : hex_pairs (concat (hex2 <$> l)) = Some (Some l).
Proof.
  induction l as [|b l IH]; [done|]. rewrite fmap_cons.
  pose proof (plain_boundary _ (hex_bytes_plain (b :: l))) as Hb. rewrite fmap_cons in Hb.
  pose proof (plain_boundary _ (hex_bytes_plain l)) as Hr.
  unfold hex2 at 1 in Hb. unfold hex2 at 1. cbn [concat app] in *. cbn [hex_pairs]. rewrite Hb, Hr. cbn [andb].
  by rewrite hex_pair_hex2, IH.
Qed.

Lemma filter_hex l : filter (λ c, c ≠ x2d) (concat (hex2 <$> l)) = concat (hex2 <$> l).
Proof.
  pose proof (hex_bytes_plain l) as Hp. induction (concat (hex2 <$> l)) as [|c r IH]; [done|].
  rewrite filter_cons, decide_True, IH; [done|intros; apply Hp; by right|].
  specialize (Hp c ltac:(left)). unfold plain_char in Hp. apply andb_prop in Hp as [Hp _]. by apply bool_decide_eq_true in Hp.
Qed.

Lemma str_bytes_of l : str_bytes (String.string_of_list_byte l) = l.
Proof. apply String.list_byte_of_string_of_list_byte. Qed.

Lemma length_hex l : length (concat (hex2 <$> l)) = 2 * length l.
Proof. induction l as [|b l IH]; [done|]. rewrite fmap_cons. cbn [concat]. rewrite length_app, IH. simpl. lia. Qed.

Definition uuid_bytes (b : bytes) : bytes :=
  concat (hex2 <$> take 4 b) ++ [x2d] ++ concat (hex2 <$> sub_bytes 4 6 b) ++ [x2d]
  ++ concat (hex2 <$> sub_bytes 6 8 b) ++ [x2d] ++ concat (hex2 <$> sub_bytes 8 10 b) ++ [x2d]
  ++ concat (hex2 <$> sub_bytes 10 16 b).

Lemma filter_uuid b : length b = 16 → filter (λ c, c ≠ x2d) (uuid_bytes b) = concat (hex2 <$> b).
Proof.
  intros Hl. unfold uuid_bytes. rewrite !list.filter_app, !filter_hex.
  do 16 (destruct b as [|? b]; [done|]). destruct b; [|done]. done.
Qed.

(** Parsing inverts formatting. *)
Lemma parse_format_uuid b field : length b = 16 → parse_uuid_bytes (format_uuid_hex b) field = Some (Ok b).
Proof.
  intros Hl. unfold parse_uuid_bytes. fold (uuid_bytes b) in *. unfold format_uuid_hex. fold (uuid_bytes b).
  assert (8 < length (uuid_bytes b)) as Hlen.
  { unfold uuid_bytes. rewrite !length_app, !length_hex, length_take, Hl. simpl. lia. }
  rewrite decide_False.
  - rewrite str_bytes_of, filter_uuid by done. rewrite length_hex, Hl. cbn [Nat.eqb Nat.mul Nat.add negb].
    by rewrite hex_pairs_hex.
  - intros [H|H]; apply (f_equal str_bytes) in H; rewrite str_bytes_of in H; rewrite H in Hlen; simpl in Hlen; lia.
Qed.

(** The two identifier fields as the engine writes them. *)
Definition canonical_id (null s : string) : Prop :=
  s = null ∨ ∃ b, length b = 16 ∧ b ≠ ZERO_ID ∧ s = format_uuid_hex b.

Lemma canonical_version_id s field : canonical_id NULL_VERSION_ID s →
  ∃ b, parse_uuid_bytes s field = Some (Ok b) ∧ format_version_id_bytes b = s.
Proof.
  intros [->|(b & Hl & Hne & ->)].
  - exists ZERO_ID. split; [done|]. unfold format_version_id_bytes. by rewrite decide_True.
  - exists b. rewrite parse_format_uuid by done. split; [done|]. unfold format_version_id_bytes. by rewrite decide_False.
Qed.

Lemma canonical_data_dir s field : canonical_id "" s →
  ∃ b, parse_uuid_bytes s field = Some (Ok b) ∧ format_data_dir_bytes b = s ∧ (s = "" → b = ZERO_ID).
Proof.
  intros [->|(b & Hl & Hne & ->)].
  - exists ZERO_ID. split_and!; [done| |done]. unfold format_data_dir_bytes. by rewrite decide_True.
  - exists b. rewrite parse_format_uuid by done. split_and!; [done| |].
    + unfold format_data_dir_bytes. by rewrite decide_False.
    + intros H. apply (f_equal str_bytes) in H. unfold format_uuid_hex in H. rewrite str_bytes_of in H.
      apply (f_equal length) in H. rewrite !length_app in H. simpl in H. lia.
Qed.

(** ** Lemmas: the envelope *)

Lemma four_bytes l : length l = 4 → ∃ a b c d : byte, l = [a; b; c; d].
Proof. intros H. do 4 (destruct l as [|? l]; [done|]). destruct l; [|done]. eauto. Qed.

Section frame_lemmas.
Context (xxh64 : bytes → Z).

Lemma crc_range body : (0 ≤ crc xxh64 body < u32_mod)%Z.
Proof. apply Z.mod_pos_bound. done. Qed.

Lemma length_xl_frame body : length (xl_frame xxh64 body) = 18 + length body.
Proof. unfold xl_frame. rewrite !length_app, !length_be_bytes, !length_le_bytes. simpl. lia. Qed.

(** The decoder finds the body and the start of the tail in what the encoder framed. *)
Lemma open_xl_frame body tail : (Z.of_nat (length body) < u32_mod)%Z →
  open_frame xxh64 (xl_frame xxh64 body ++ tail) = Ok (body, length (xl_frame xxh64 body)).
Proof.
  intros Hlen. pose proof (crc_range body) as Hcrc. rewrite length_xl_frame. unfold xl_frame.
  rewrite Z.mod_small by lia.
  pose proof (from_be_be_bytes 4 (Z.of_nat (length body)) ltac:(unfold u32_mod in *; lia)) as Hb1.
  pose proof (from_be_be_bytes 4 (crc xxh64 body) ltac:(unfold u32_mod in *; lia)) as Hb2.
  destruct (four_bytes _ (length_be_bytes 4 (Z.of_nat (length body)))) as (a & b & c & d & E1).
  destruct (four_bytes _ (length_be_bytes 4 (crc xxh64 body))) as (e & f & g & h & E2).
  rewrite E1 in *. rewrite E2 in *. clear E1 E2.
  change (MAGIC ++ le_bytes 2 FORMAT_MAJOR ++ le_bytes 2 FORMAT_MINOR ++ [BIN32_TAG] ++ [a; b; c; d] ++ body
            ++ [CRC_TAG] ++ [e; f; g; h]) with
    ([x58; x4c; x32; x20; x01; x00; x03; x00; BIN32_TAG; a; b; c; d] ++ body ++ [CRC_TAG; e; f; g; h]).
  rewrite <-!app_assoc. set (bs := [_; _; _; _; _; _; _; _; _; _; _; _; _] ++ _).
  assert (length bs = 18 + length body + length tail) as Hl.
  { unfold bs. rewrite !length_app. simpl. lia. }
  unfold open_frame.
  assert (sub_bytes (HEADER_LEN + 1) (HEADER_LEN + 5) bs = [a; b; c; d]) as -> by done.
  cbv zeta. rewrite Hb1, Nat2Z.id. change (HEADER_LEN + BIN32_HEADER_LEN) with 13. change CRC_LEN with 5.
  assert (sub_bytes 13 (13 + length body) bs = body) as Hbody.
  { unfold sub_bytes. replace (13 + length body - 13) with (length body) by lia. unfold bs.
    rewrite drop_app_length' by done. by rewrite take_app_length. }
  assert (drop (13 + length body) bs = [CRC_TAG; e; f; g; h] ++ tail) as Htail.
  { rewrite <-drop_drop. unfold bs. rewrite drop_app_length' by done. by rewrite drop_app_length. }
  assert (bs !! (13 + length body) = Some CRC_TAG) as Htag.
  { pose proof (lookup_drop bs (13 + length body) 0) as H0. rewrite Htail, Nat.add_0_r in H0. by rewrite <-H0. }
  assert (sub_bytes (13 + length body + 1) (13 + length body + 5) bs = [e; f; g; h]) as Hc.
  { unfold sub_bytes. rewrite <-drop_drop, Htail.
    replace (13 + length body + 5 - (13 + length body + 1)) with 4 by lia. done. }
  rewrite Hbody, Htag, Hc, Hb2, Hl, Z.eqb_refl.
  rewrite !(proj2 (Nat.ltb_ge _ _)) by lia. replace (13 + length body + 5) with (18 + length body) by lia. done.
Qed.
End frame_lemmas.

(** ** Lemmas: the inline tail *)

Lemma concat_tail_frames fi : concat (tail_frames fi) = concat (default [] (data fi)).
Proof.
  unfold tail_frames. induction (default [] (data fi)) as [|f fs IH]; [done|]. rewrite filter_cons.
  case_decide as Hf; cbn [concat]; rewrite IH; [done|]. by destruct f.
Qed.

Lemma sum_frames (fs : list bytes) :
  foldr (λ f acc, (Z.of_nat (length f) + acc)%Z) 0%Z fs = Z.of_nat (length (concat fs)).
Proof. induction fs as [|f fs IH]; [done|]. cbn [foldr concat]. rewrite IH, length_app. lia. Qed.

Lemma length_concat_sum (fs : list bytes) : length (concat fs) = sum_list (length <$> fs).
Proof. induction fs as [|f fs IH]; [done|]. rewrite fmap_cons. cbn [concat]. by rewrite length_app, IH. Qed.

Definition payload (fi : FileInfo) : bytes := concat (default [] (data fi)).

Lemma version_len_payload fi : version_len fi = Z.of_nat (length (payload fi)).
Proof. unfold version_len. by rewrite sum_frames, concat_tail_frames. Qed.

Lemma frame_total_payload fi : frame_total fi = Z.of_nat (length (payload fi)).
Proof. unfold frame_total. by rewrite sum_frames. Qed.

Lemma concat_bind_tail vs : concat (vs ≫= tail_frames) = concat (payload <$> vs).
Proof.
  induction vs as [|fi vs IH]; [done|]. rewrite bind_cons, fmap_cons, concat_app, IH. cbn [concat].
  by rewrite concat_tail_frames.
Qed.

(** Each version's slice of the tail holds exactly its payload. *)
Lemma inline_meta_slice (pos : nat) vs fi off len : (fi, (off, len)) ∈ zip vs (inline_meta (Z.of_nat pos) vs) →
  len = Z.of_nat (length (payload fi)) ∧
  (0 < len → Z.of_nat pos ≤ off ∧ off + len ≤ Z.of_nat (pos + length (concat (payload <$> vs)))
    ∧ take (length (payload fi)) (drop (Z.to_nat off - pos) (concat (payload <$> vs))) = payload fi)%Z.
Proof.
  revert pos. induction vs as [|fi' vs IH]; intros pos; [intros H; by apply elem_of_nil in H|].
  cbn [inline_meta zip zip_with]. rewrite fmap_cons. cbn [concat]. rewrite version_len_payload, length_app.
  intros [[= <- -> ->]|Hin]%elem_of_cons.
  - split; [done|]. intros Hlen. rewrite (proj2 (Z.eqb_neq _ _)) by lia. split_and!; [lia..|].
    rewrite Nat2Z.id, Nat.sub_diag, drop_0. apply take_app_length.
  - rewrite <-Nat2Z.inj_add in Hin. apply IH in Hin as [-> Hrest]. split; [done|]. intros Hlen.
    destruct (Hrest Hlen) as (H1 & H2 & H3). split_and!; [lia..|].
    rewrite drop_app_ge by lia. rewrite <-H3 at 2. f_equal. f_equal. lia.
Qed.

Lemma length_inline_meta pos vs : length (inline_meta pos vs) = length vs.
Proof. revert pos. induction vs as [|fi vs IH]; intros pos; [done|]. cbn [inline_meta length]. by rewrite IH. Qed.

(** ** Lemmas: what the encoder accepts the decoder accepts *)

Lemma validate_erasure_ctx ei c1 c2 : validate_erasure ei c1 = Ok () → validate_erasure ei c2 = Ok ().
Proof.
  unfold validate_erasure. intros H. inv_ok H. rewrite Hok, Hok0, Hok1, Hok2, Hok3, Hok4, H. done.
Qed.

Lemma each_part_encoded i ps :
  each_part check_encode_part i ps = Ok () → each_part check_decode_part i (encode_part <$> ps) = Ok ().
Proof.
  revert i. induction ps as [|p ps IH]; intros i; [done|]. rewrite fmap_cons. cbn [each_part].
  intros (u & Hp & Hr)%bind_ok. rewrite (IH _ Hr). unfold check_encode_part in Hp. inv_ok Hp.
  unfold check_decode_part. cbn. by rewrite Hok, Hok0.
Qed.

Lemma version_record_inv fi ol v : version_record fi ol = Some (Ok v) →
  parse_uuid_bytes (version_id fi) "version_id" = Some (Ok (vr_version_id v))
  ∧ parse_uuid_bytes (data_dir fi) "data_dir" = Some (Ok (vr_data_dir v))
  ∧ v = {| vr_version_id := vr_version_id v; vr_ty := version_type_u8 (if deleted fi then VDeleteMarker else VObject);
           vr_mod_time := mod_time_ms fi; vr_data_dir := vr_data_dir v; vr_size := size fi;
           vr_erasure := encode_erasure (erasure fi); vr_parts := encode_part <$> parts fi;
           vr_metadata := metadata fi; vr_meta_sys := meta_sys fi;
           vr_inline_offset := ol.1; vr_inline_length := ol.2 |}.
Proof.
  unfold version_record. destruct (parse_uuid_bytes (version_id fi) _) as [[vid|]|]; cbn [bind_io]; try done.
  destruct (parse_uuid_bytes (data_dir fi) _) as [[dd|]|]; cbn [bind_io]; try done. intros [= <-]. done.
Qed.

Lemma payload_has_inline fi : payload fi ≠ [] → has_inline fi = true.
Proof. unfold payload, has_inline. by destruct (data fi) as [[|? ?]|]. Qed.

Lemma validate_encoded fi off v : version_record fi (off, Z.of_nat (length (payload fi))) = Some (Ok v) →
  (Z.of_nat (length (payload fi)) < u64_mod)%Z →
  validate_for_encode fi = Ok () → validate_decoded_version v = Ok ().
Proof.
  intros (Hvid & Hdd & ->)%version_record_inv Hlen Hval. unfold validate_for_encode in Hval. inv_ok Hval.
  apply each_part_encoded in Hval. rewrite frame_total_payload in Hok5.
  unfold validate_decoded_version. cbn. rewrite Hval, Hok, Hok0, decode_encode_erasure.
  rewrite (validate_erasure_ctx _ _ "decode" Hok1). cbn [map_err]. rewrite length_fmap.
  assert (bool_decide (parts fi = []) = (length (parts fi) =? 0)) as Hparts by by destruct (parts fi).
  rewrite Hparts in *.
  assert (has_inline fi = false → payload fi = []) as Hnone.
  { intros Hi. destruct (decide (payload fi = [])) as [|Hne]; [done|]. apply payload_has_inline in Hne. congruence. }
  assert ((0 <? Z.of_nat (length (payload fi)))%Z = true → size fi = Z.of_nat (length (payload fi)) ∧ data_dir fi = "") as Hin.
  { intros Hpos. assert (has_inline fi = true) as Hi by (apply payload_has_inline; intros E; by rewrite E in Hpos).
    rewrite Hi in *. cbn [andb] in *. to_prop. split; [lia|]. by apply bool_decide_eq_true in Hok3. }
  destruct (0 <? Z.of_nat (length (payload fi)))%Z eqn:Epos; cbn [andb guard mbind result_bind].
  - destruct Hin as [Hsz Hdir]; [done|]. rewrite Hdir in Hdd. injection Hdd as <-.
    rewrite bool_decide_eq_true_2 by done. cbn [negb guard mbind result_bind].
    rewrite Hsz, Z.mod_small, Z.eqb_refl by lia. cbn [negb guard mbind result_bind]. rewrite <-Hsz.
    destruct (deleted fi); cbn [version_type_u8 Z.eqb Z.ltb Z.compare guard mbind result_bind] in *.
    + inv_ok Hok2. to_prop. apply Z.ltb_lt in Epos. rewrite <-Hsz in Epos. lia.
    + inv_ok Hok2. by rewrite Hok2.
  - destruct (deleted fi); cbn [version_type_u8 Z.eqb Z.ltb Z.compare Pos.eqb Pos.compare Pos.compare_cont guard mbind result_bind] in *.
    + inv_ok Hok2. rewrite Hok6, Hok7. cbn. rewrite (Hnone Hok2). done.
    + inv_ok Hok2. by rewrite Hok2.
Qed.

(** ** Round trip *)

(** What a reader gets back for a version. *)
Definition record_of (n : nat) (fi : FileInfo) : DecodedRecord :=
  {| dr_version_id := version_id fi; dr_data_dir := data_dir fi; dr_deleted := deleted fi;
     dr_size := size fi; dr_mod_time_ms := mod_time_ms fi; dr_metadata := metadata fi;
     dr_meta_sys := meta_sys fi; dr_erasure := erasure fi; dr_parts := parts fi;
     dr_inline := if decide (payload fi = []) then None else Some [payload fi];
     dr_num_versions := as_i32 n |}.

Definition canonical (fi : FileInfo) : Prop :=
  canonical_id NULL_VERSION_ID (version_id fi) ∧ canonical_id "" (data_dir fi).

Lemma version_records_Forall2 l rs : version_records l = Some (Ok rs) →
  Forall2 (λ p v, version_record p.1 p.2 = Some (Ok v)) l rs.
Proof.
  revert rs. induction l as [|[fi ol] l IH]; intros rs; cbn [version_records]; [intros [= <-]; constructor|].
  destruct (version_record fi ol) as [[v|]|] eqn:E; cbn [bind_io]; try done.
  destruct (version_records l) as [[r|]|]; cbn [bind_io]; try done. intros [= <-]. constructor; [done|by apply IH].
Qed.

Lemma decode_version vs head n fi off len v :
  (fi, (off, len)) ∈ zip vs (inline_meta 0 vs) → version_record fi (off, len) = Some (Ok v) → canonical fi →
  (Z.of_nat (length (concat (payload <$> vs))) < u64_mod)%Z →
  decoded_record n v <$> inline_of (head ++ concat (payload <$> vs)) (length head) v = Ok (record_of n fi).
Proof.
  intros Hin Hv [Hc1 Hc2] Hlen. apply (inline_meta_slice 0) in Hin as [-> Hslice].
  apply version_record_inv in Hv as (Hp1 & Hp2 & ->).
  destruct (canonical_version_id _ "version_id" Hc1) as (b1 & E1 & F1). rewrite Hp1 in E1. injection E1 as E1.
  destruct (canonical_data_dir _ "data_dir" Hc2) as (b2 & E2 & F2 & _). rewrite Hp2 in E2. injection E2 as E2.
  unfold inline_of. cbn. rewrite length_app, Nat.add_comm, Nat.add_sub.
  assert (∀ i, decoded_record n {| vr_version_id := vr_version_id v;
      vr_ty := version_type_u8 (if deleted fi then VDeleteMarker else VObject);
      vr_mod_time := mod_time_ms fi; vr_data_dir := vr_data_dir v; vr_size := size fi;
      vr_erasure := encode_erasure (erasure fi); vr_parts := encode_part <$> parts fi;
      vr_metadata := metadata fi; vr_meta_sys := meta_sys fi;
      vr_inline_offset := off; vr_inline_length := Z.of_nat (length (payload fi)) |} i
    = {| dr_version_id := version_id fi; dr_data_dir := data_dir fi; dr_deleted := deleted fi;
         dr_size := size fi; dr_mod_time_ms := mod_time_ms fi; dr_metadata := metadata fi;
         dr_meta_sys := meta_sys fi; dr_erasure := erasure fi; dr_parts := parts fi;
         dr_inline := i; dr_num_versions := as_i32 n |}) as Hrec.
  { intros i. unfold decoded_record. cbn [vr_version_id vr_data_dir vr_ty vr_size vr_mod_time vr_metadata vr_meta_sys
      vr_erasure vr_parts]. rewrite E1, E2, F1, F2, decode_encode_erasure, decode_encode_parts. by destruct (deleted fi). }
  unfold record_of. destruct (decide (payload fi = [])) as [Hnil|Hne].
  - rewrite Hnil. cbn. rewrite <-Hrec, Hnil. done.
  - assert (0 < length (payload fi)) as Hpos by (destruct (payload fi); [done|simpl; lia]).
    destruct Hslice as (H1 & H2 & H3); [lia|]. rewrite (proj2 (Z.ltb_lt _ _)) by lia.
    rewrite (proj2 (Z.leb_gt _ _)) by lia. rewrite (proj2 (Z.ltb_ge _ _)) by lia.
    cbn [fmap result_fmap]. rewrite Hrec. do 4 f_equal. unfold sub_bytes. rewrite drop_app_add.
    rewrite Nat.sub_0_r in H3. replace (_ - _) with (length (payload fi)) by lia. by rewrite H3.
Qed.

Section roundtrip.
Context (rmp_to_vec : OnDiskMeta → result string bytes).
Context (rmp_from_slice : bytes → result string OnDiskMeta).
Context (xxh64 : bytes → Z).

Lemma encode_versions_inv vs e : encode_versions rmp_to_vec xxh64 vs = Some (Ok e) →
  vs ≠ [] ∧ Forall (λ fi, validate_for_encode fi = Ok ()) vs
  ∧ ∃ rs body, version_records (zip vs (inline_meta 0 vs)) = Some (Ok rs) ∧ rmp_to_vec rs = Ok body
      ∧ xl_head e = xl_frame xxh64 body ∧ concat (xl_tail e) = concat (payload <$> vs).
Proof.
  unfold encode_versions. case_decide; [done|]. intros He. split; [done|].
  destruct (collect _) as [l|] eqn:Ec; [|done]. cbn [bind_io] in He. split.
  { apply collect_ok_inv in Ec. rewrite Forall_forall. intros fi Hfi.
    assert (validate_for_encode fi ∈ validate_for_encode <$> vs) as Hv by by apply list_elem_of_fmap_2.
    rewrite Ec in Hv. apply list_elem_of_fmap in Hv as ([] & -> & _). done. }
  destruct (version_records _) as [[rs|]|]; cbn [bind_io] in He; try done.
  destruct (rmp_to_vec rs) as [body|] eqn:Eb; [|done]. injection He as <-. exists rs, body.
  split_and!; [done..|]. apply concat_bind_tail.
Qed.

Context (rmp_roundtrip : ∀ m b, rmp_to_vec m = Ok b → rmp_from_slice b = Ok m).

Lemma decode_all_encode vs e :
  encode_versions rmp_to_vec xxh64 vs = Some (Ok e) → Forall canonical vs →
  (Z.of_nat (length (xl_head e)) < u32_mod)%Z → (Z.of_nat (encoded_len e) < u64_mod)%Z →
  decode_all rmp_from_slice xxh64 (to_vec e) = Ok (newest_first dr_mod_time_ms (record_of (length vs) <$> vs)).
Proof.
  intros (Hne & Hval & rs & body & Hrs & Hbody & Hhead & Htail)%encode_versions_inv Hcan Hl1 Hl2.
  assert (Z.of_nat (length (concat (payload <$> vs))) < u64_mod)%Z as Htl.
  { unfold encoded_len in Hl2. rewrite <-Htail, length_concat_sum. lia. }
  pose proof (version_records_Forall2 _ _ Hrs) as HF.
  assert (length rs = length vs) as Hlen.
  { apply Forall2_length in HF. rewrite <-HF, length_zip_with, length_inline_meta. lia. }
  assert (∀ v, v ∈ rs → validate_decoded_version v = Ok ()) as Hvalid.
  { intros v [i Hi]%list_elem_of_lookup. destruct (Forall2_lookup_r _ _ _ _ _ HF Hi) as ([fi [off len]] & Hz & Hv).
    pose proof (list_elem_of_lookup_2 _ _ _ Hz) as Hin. pose proof (inline_meta_slice 0 _ _ _ _ Hin) as [-> Hs].
    apply (validate_encoded fi off); [done| |].
    - destruct (decide (0 < length (payload fi))) as [Hp|]; [|unfold u64_mod; lia]. destruct Hs as (? & ? & _); lia.
    - rewrite Forall_forall in Hval. apply Hval. apply (elem_of_zip_l fi (off, Z.of_nat (length (payload fi))) _ _ Hin). }
  set (bs := to_vec e). set (ce := length (xl_head e)).
  set (g := λ v, decoded_record (length vs) v (match inline_of bs ce v with Ok i => i | Err _ => None end)).
  assert (Forall2 (λ fi v, decoded_record (length vs) v <$> inline_of bs ce v = Ok (record_of (length vs) fi)) vs rs) as Hg.
  { apply Forall2_same_length_lookup. split; [done|]. intros i fi v Hfi Hv.
    destruct (Forall2_lookup_r _ _ _ _ _ HF Hv) as ([fi' [off len]] & Hz & Hrec).
    pose proof (list_elem_of_lookup_2 _ _ _ Hz) as Hin.
    apply lookup_zip_with_Some in Hz as (fi'' & ol & [= <- <-] & Hfi' & _). rewrite Hfi in Hfi'. injection Hfi' as <-.
    unfold bs, ce, to_vec. rewrite Htail. eapply decode_version; [done..| |done].
    rewrite Forall_forall in Hcan. apply Hcan. by eapply list_elem_of_lookup_2. }
  unfold decode_all.
  unfold bs, to_vec in *. rewrite Hhead, open_xl_frame; [|rewrite Hhead, length_xl_frame in Hl1; lia].
  cbn [mbind result_bind]. rewrite (rmp_roundtrip _ _ Hbody). cbn [map_err mbind result_bind].
  rewrite Hlen, (proj2 (Nat.eqb_neq _ _)) by (destruct vs; [done|simpl; lia]). cbn [guard mbind result_bind].
  assert (∀ v, v ∈ newest_first vr_mod_time rs ↔ v ∈ rs) as Hmem.
  { intros v. unfold newest_first. by rewrite sort_by_perm. }
  rewrite (collect_fmap_ok _ (λ _, ())) by (intros v Hv; apply Hvalid; by apply Hmem). cbn [mbind result_bind].
  assert (length (newest_first vr_mod_time rs) = length vs) as -> by (unfold newest_first; by rewrite sort_by_perm).
  rewrite <-Hhead. fold ce.
  assert (∀ v, v ∈ rs → decoded_record (length vs) v <$> inline_of (xl_head e ++ concat (xl_tail e)) ce v = Ok (g v)) as Hgv.
  { intros v [i Hi]%list_elem_of_lookup. destruct (Forall2_lookup_r _ _ _ _ _ Hg Hi) as (fi & _ & Hr).
    unfold g, bs. by destruct (inline_of _ ce v). }
  rewrite (collect_fmap_ok _ g) by (intros v Hv; apply Hgv; by apply Hmem). f_equal.
  assert (g <$> rs = record_of (length vs) <$> vs) as <-.
  { assert (Forall2 (λ fi v, g v = record_of (length vs) fi) vs rs) as HG.
    { eapply Forall2_impl; [exact Hg|]. cbn. intros fi v Hr. unfold g, bs. destruct (inline_of _ ce v); [|done].
      assert (∀ a b : DecodedRecord, Ok (E:=IoError) a = Ok b → a = b) as Hinj by congruence. by apply Hinj. }
    revert HG. generalize (record_of (length vs)). generalize g. clear. intros g f HG.
    induction HG as [|fi v vs rs Hv _ IH]; [done|]. rewrite !fmap_cons. by rewrite Hv, IH. }
  unfold newest_first. by apply sort_by_fmap.
Qed.
End roundtrip.

Lemma newest_first_sorted {A} (mt : A → Z) l : StronglySorted (λ a b, (mt b ≤ mt a)%Z) (newest_first mt l).
Proof.
  unfold newest_first.
  pose proof (sort_by_sorted (λ a b, (mt b <=? mt a)%Z) l) as Hs. cbn in Hs.
  assert (∀ r, StronglySorted (λ a b, (mt b <=? mt a)%Z = true) r → StronglySorted (λ a b, (mt b ≤ mt a)%Z) r) as Himp.
  { induction 1 as [|x r _ IH Hx]; constructor; [done|]. rewrite Forall_forall in Hx |- *. intros y Hy. by apply Z.leb_le, Hx. }
  apply Himp, Hs.
  - intros x y. rewrite !Z.leb_le. lia.
  - intros x y z. rewrite !Z.leb_le. lia.
Qed.

Lemma filter_unique {A B} `{EqDecision B} (f : A → B) (l : list A) x :
  NoDup (f <$> l) → x ∈ l → filter (λ y, f y = f x) l = [x].
Proof.
  induction l as [|y l IH]; [by intros _ ?%elem_of_nil|]. rewrite fmap_cons. intros [Hy Hl]%NoDup_cons.
  intros [->|Hx]%elem_of_cons; rewrite filter_cons.
  - rewrite decide_True by done. f_equal. destruct (filter _ l) as [|z zs] eqn:E; [done|].
    assert (z ∈ filter (λ y0, f y0 = f y) l) as Hz by (rewrite E; left). apply list_elem_of_filter in Hz as [Hz ?].
    destruct Hy. rewrite <-Hz. by apply list_elem_of_fmap_2.
  - rewrite decide_False; [by apply IH|]. intros Heq. apply Hy. rewrite Heq. by apply list_elem_of_fmap_2.
Qed.

Section reads.
Context (rmp_to_vec : OnDiskMeta → result string bytes).
Context (rmp_from_slice : bytes → result string OnDiskMeta).
Context (xxh64 : bytes → Z).
Context (rmp_roundtrip : ∀ m b, rmp_to_vec m = Ok b → rmp_from_slice b = Ok m).
Context (vs : list FileInfo) (e : EncodedXlMeta).
Context (Henc : encode_versions rmp_to_vec xxh64 vs = Some (Ok e)) (Hcan : Forall canonical vs).
Context (Hl1 : (Z.of_nat (length (xl_head e)) < u32_mod)%Z) (Hl2 : (Z.of_nat (encoded_len e) < u64_mod)%Z).

Lemma decode_encoded : ∃ fi, fi ∈ vs ∧ decode rmp_from_slice xxh64 (to_vec e) = Ok (record_of (length vs) fi)
  ∧ ∀ fi', fi' ∈ vs → (mod_time_ms fi' ≤ mod_time_ms fi)%Z.
Proof.
  pose proof (decode_all_encode _ _ _ rmp_roundtrip vs e Henc Hcan Hl1 Hl2) as Hd.
  apply encode_versions_inv in Henc as (Hne & _). set (recs := record_of (length vs) <$> vs) in *.
  assert (newest_first dr_mod_time_ms recs ≡ₚ recs) as Hperm by apply sort_by_perm.
  pose proof (newest_first_sorted dr_mod_time_ms recs) as Hsort.
  unfold decode. rewrite Hd. cbn [mbind result_bind].
  destruct (newest_first dr_mod_time_ms recs) as [|r rest] eqn:E.
  { apply Permutation_nil in Hperm. unfold recs in Hperm. by destruct vs. }
  assert (r ∈ recs) as Hr by (rewrite <-Hperm; left). apply list_elem_of_fmap in Hr as (fi & -> & Hfi).
  exists fi. split_and!; [done..|]. intros fi' Hfi'.
  assert (record_of (length vs) fi' ∈ recs) as Hin by by apply list_elem_of_fmap_2.
  rewrite <-Hperm in Hin. apply StronglySorted_inv in Hsort as [_ Hall]. rewrite Forall_forall in Hall.
  apply elem_of_cons in Hin as [Heq|Hin]; [|by apply (Hall _ Hin)].
  apply (f_equal dr_mod_time_ms) in Heq. simpl in Heq. lia.
Qed.

Lemma find_version_encoded fi : NoDup (version_id <$> vs) → fi ∈ vs →
  find_version rmp_from_slice xxh64 (to_vec e) (version_id fi) = Ok (Some (record_of (length vs) fi)).
Proof.
  intros Hnd Hfi. pose proof (decode_all_encode _ _ _ rmp_roundtrip vs e Henc Hcan Hl1 Hl2) as Hd.
  set (recs := record_of (length vs) <$> vs) in *.
  assert (newest_first dr_mod_time_ms recs ≡ₚ recs) as Hperm by apply sort_by_perm.
  unfold find_version. rewrite Hd. cbn [mbind result_bind].
  pose proof (filter_unique dr_version_id (newest_first dr_mod_time_ms recs) (record_of (length vs) fi)) as Hu.
  simpl in Hu. rewrite Hu; [done| |].
  - rewrite Hperm. unfold recs. by rewrite <-list_fmap_compose.
  - rewrite Hperm. by apply list_elem_of_fmap_2.
Qed.
End reads.

(** C8.  An encoded [xl.meta] reads back as written.  For version records whose
    identifiers are in the form the engine writes, what [encode_versions]
    produced decodes to exactly the same versions, newest first, each with its
    own inline payload and the version count; [decode] returns one with the
    greatest time stamp, and [find_version] returns each version under its
    identifier. *)
Theorem xl_meta_roundtrip rmp_to_vec rmp_from_slice xxh64 vs e :
  (∀ m b, rmp_to_vec m = Ok b → rmp_from_slice b = Ok m) →
  encode_versions rmp_to_vec xxh64 vs = Some (Ok e) → Forall canonical vs →
  (Z.of_nat (length (xl_head e)) < u32_mod)%Z → (Z.of_nat (encoded_len e) < u64_mod)%Z →
  decode_all rmp_from_slice xxh64 (to_vec e) = Ok (newest_first dr_mod_time_ms (record_of (length vs) <$> vs))
  ∧ (∃ fi, fi ∈ vs ∧ decode rmp_from_slice xxh64 (to_vec e) = Ok (record_of (length vs) fi)
       ∧ ∀ fi', fi' ∈ vs → (mod_time_ms fi' ≤ mod_time_ms fi)%Z)
  ∧ (NoDup (version_id <$> vs) → ∀ fi, fi ∈ vs →
       find_version rmp_from_slice xxh64 (to_vec e) (version_id fi) = Ok (Some (record_of (length vs) fi))).
Proof.
  intros Hrmp He Hcan Hl1 Hl2. split_and!.
  - by apply (decode_all_encode _ _ _ Hrmp).
  - by apply (decode_encoded _ _ _ Hrmp).
  - intros Hnd fi Hfi. by apply (find_version_encoded _ _ _ Hrmp).
Qed.

(** Encoding records with canonical identifiers does not panic. *)
Lemma encode_no_panic rmp_to_vec xxh64 vs : Forall canonical vs → is_Some (encode_versions rmp_to_vec xxh64 vs).
Proof.
  intros Hc. unfold encode_versions. case_decide; [by eexists|]. destruct (collect _) as [l|]; [|by eexists].
  cbn [bind_io].
  assert (∀ l, Forall (λ p, canonical p.1) l → is_Some (version_records l)) as Hr.
  { induction 1 as [|[fi ol] r [H1 H2] _ IH]; cbn [version_records]; [by eexists|]. unfold version_record.
    simpl in H1, H2. destruct (canonical_version_id _ "version_id" H1) as (b1 & -> & _). cbn [bind_io].
    destruct (canonical_data_dir _ "data_dir" H2) as (b2 & -> & _). cbn [bind_io].
    destruct IH as [[?|?] ->]; by eexists. }
  destruct (Hr (zip vs (inline_meta 0 vs))) as [r Er].
  { rewrite Forall_forall in Hc. apply Forall_forall. intros [fi ol] Hin%elem_of_zip_l. by apply Hc. }
  rewrite Er. destruct r as [rs|e]; cbn [bind_io]; [|by eexists]. by destruct (rmp_to_vec rs); eexists.
Qed.

(** ** What the decoder guarantees *)

Lemma five_split (l : bytes) : 5 ≤ length l → ∃ c e f g h, l = c :: e :: f :: g :: h :: drop 5 l.
Proof. intros H. do 5 (destruct l as [|? l]; [simpl in H; lia|]). eauto 10. Qed.

(** A blob the envelope checks accept is a framed body followed by a tail. *)
Lemma open_frame_inv xxh64 bs body ce : open_frame xxh64 bs = Ok (body, ce) →
  ∃ tail, bs = xl_frame xxh64 body ++ tail ∧ ce = length (xl_frame xxh64 body)
    ∧ (Z.of_nat (length body) < u32_mod)%Z.
Proof.
  unfold open_frame. intros H. inv_ok H. change (HEADER_LEN + BIN32_HEADER_LEN) with 13 in *.
  change CRC_LEN with 5 in *. to_prop.
  do 13 (destruct bs as [|? bs]; [simpl in *; lia|]). rename bs into r.
  match type of Hok0 with bool_decide (take 4 ?l = _) = _ => set (bs := l) in * end.
  assert (sub_bytes 4 6 bs = [b3; b4]) as E1 by done. rewrite E1 in *.
  assert (sub_bytes 6 8 bs = [b5; b6]) as E2 by done. rewrite E2 in *.
  assert (sub_bytes (HEADER_LEN + 1) (HEADER_LEN + 5) bs = [b8; b9; b10; b11]) as E3 by done. rewrite E3 in *.
  apply bool_decide_eq_true in Hok0, Hok3, Hok5. injection Hok0 as -> -> -> ->. injection Hok3 as ->.
  set (bl := Z.to_nat (from_be_bytes [b8; b9; b10; b11])) in *.
  pose proof (from_be_bytes_range [b8; b9; b10; b11]) as Hr. change (256 ^ _)%Z with u32_mod in Hr.
  pose proof (le_bytes_from_le [b3; b4]) as L1. rewrite Hok1 in L1. injection L1 as <- <-.
  pose proof (le_bytes_from_le [b5; b6]) as L2. rewrite Hok2 in L2. injection L2 as <- <-.
  assert (length bs = 13 + length r) as Hlen by done. rewrite Hlen in *.
  assert (sub_bytes 13 (13 + bl) bs = take bl r) as Hbody.
  { unfold sub_bytes. replace (13 + bl - 13) with bl by lia. done. }
  rewrite Hbody in *. injection H as <- <-.
  assert (drop (13 + bl) bs = drop bl r) as Hdrop by done.
  destruct (five_split (drop bl r)) as (c & e & f & g & h & Hd); [rewrite length_drop; lia|]. rewrite drop_drop in Hd.
  assert (c = CRC_TAG) as ->.
  { pose proof (lookup_drop bs (13 + bl) 0) as H0. rewrite Hdrop, Hd, Nat.add_0_r, Hok5 in H0. by injection H0. }
  assert (sub_bytes (13 + bl + 1) (13 + bl + 5) bs = [e; f; g; h]) as Hcrc.
  { unfold sub_bytes. rewrite <-drop_drop, Hdrop, Hd. replace (13 + bl + 5 - (13 + bl + 1)) with 4 by lia. done. }
  rewrite Hcrc in Hok6. exists (drop (bl + 5) r).
  assert (length (take bl r) = bl) as Htl by (rewrite length_take; lia).
  assert (Z.of_nat bl = from_be_bytes [b8; b9; b10; b11]) as Hbl by (unfold bl; lia).
  rewrite length_xl_frame, Htl. split_and!; [|lia|lia]. unfold xl_frame.
  rewrite Htl, Z.mod_small, Hbl, Hok6 by lia. pose proof (be_bytes_from_be [b8; b9; b10; b11]) as B1.
  pose proof (be_bytes_from_be [e; f; g; h]) as B2. cbn [length] in B1, B2. rewrite B1, B2.
  unfold bs. rewrite <-(take_drop bl r) at 1. rewrite Hd, <-!app_assoc. done.
Qed.

Lemma format_version_id_canonical b : length b = 16 → canonical_id NULL_VERSION_ID (format_version_id_bytes b).
Proof. intros Hb. unfold format_version_id_bytes. case_decide; [by left|right; eauto]. Qed.

Lemma format_data_dir_canonical b : length b = 16 → canonical_id "" (format_data_dir_bytes b).
Proof. intros Hb. unfold format_data_dir_bytes. case_decide; [by left|right; eauto]. Qed.

(** The types of a version record: the integers of the tail arithmetic and the
    two 16-byte identifiers. *)
Record typed_version (v : VersionRecord) : Prop := {
  tv_offset : is_u64 (vr_inline_offset v);
  tv_length : is_u64 (vr_inline_length v);
  tv_size : (- 2 ^ 63 ≤ vr_size v < 2 ^ 63)%Z;
  tv_version_id : length (vr_version_id v) = 16;
  tv_data_dir : length (vr_data_dir v) = 16
}.

(** What every decoded record satisfies, [tail] being the bytes after the body. *)
Record sound_record (tail : bytes) (r : DecodedRecord) : Prop := {
  sr_version_id : canonical_id NULL_VERSION_ID (dr_version_id r);
  sr_data_dir : canonical_id "" (dr_data_dir r);
  sr_erasure : erasure_is_valid (dr_erasure r) = true;
  sr_block : block_size (dr_erasure r) ≠ 0%Z;
  sr_size : (0 ≤ dr_size r)%Z;
  sr_time : dr_mod_time_ms r ≠ 0%Z;
  sr_marker : dr_deleted r = true → dr_parts r = [] ∧ dr_size r = 0%Z ∧ dr_inline r = None;
  sr_parts : dr_deleted r = false → (0 < dr_size r)%Z → dr_parts r ≠ [];
  sr_each_part : Forall (λ p, 0 < p_number p ∧ 0 ≤ p_size p)%Z (dr_parts r);
  sr_inline : ∀ fs, dr_inline r = Some fs → ∃ p off, fs = [p] ∧ p ≠ [] ∧ Z.of_nat (length p) = dr_size r
                ∧ take (length p) (drop off tail) = p ∧ dr_data_dir r = ""
}.

Lemma validate_erasure_valid ei ctx : validate_erasure ei ctx = Ok () →
  erasure_is_valid ei = true ∧ block_size ei ≠ 0%Z.
Proof.
  unfold validate_erasure. intros H. inv_ok H. unfold erasure_is_valid. rewrite Hok0, Hok4. to_prop.
  rewrite (proj2 (Nat.leb_le _ _)) by lia. rewrite (proj2 (Nat.eqb_eq _ _)) by lia. done.
Qed.

Lemma each_part_decoded i ps : each_part check_decode_part i ps = Ok () →
  Forall (λ p, 0 < p_number p ∧ 0 ≤ p_size p)%Z (decode_part <$> ps).
Proof.
  revert i. induction ps as [|p ps IH]; intros i; cbn [each_part]; [constructor|].
  intros (u & Hp & Hr)%bind_ok. rewrite fmap_cons. constructor; [|by eapply IH].
  unfold check_decode_part in Hp. inv_ok Hp. to_prop. simpl. lia.
Qed.

Lemma inline_of_sound head tail v i : typed_version v → validate_decoded_version v = Ok () →
  inline_of (head ++ tail) (length head) v = Ok (Some i) →
  ∃ p off, i = [p] ∧ p ≠ [] ∧ Z.of_nat (length p) = vr_size v ∧ take (length p) (drop off tail) = p
    ∧ vr_data_dir v = ZERO_ID ∧ vr_ty v ≠ 1%Z.
Proof.
  intros [[Ho1 Ho2] [Hl1 Hl2] Hsz _ _] Hval Hin. unfold inline_of in Hin.
  destruct (0 <? vr_inline_length v)%Z eqn:Epos; [|done]. rewrite length_app, Nat.add_comm, Nat.add_sub in Hin.
  destruct (u64_mod <=? _)%Z eqn:Eo; [done|]. destruct (Z.of_nat (length tail) <? _)%Z eqn:Et; [done|].
  injection Hin as <-. unfold validate_decoded_version in Hval. inv_ok Hval. rewrite Epos in *. cbn [andb] in *.
  to_prop. apply bool_decide_eq_true in Hok4. rewrite Z.mod_small in Hok5 by (unfold u64_mod in *; lia).
  set (lo := Z.to_nat (vr_inline_offset v)).
  assert (sub_bytes (length head + lo) (length head + Z.to_nat (vr_inline_offset v + vr_inline_length v)) (head ++ tail)
    = take (Z.to_nat (vr_inline_length v)) (drop lo tail)) as ->.
  { unfold sub_bytes. rewrite drop_app_add. f_equal. lia. }
  set (p := take (Z.to_nat (vr_inline_length v)) (drop lo tail)).
  assert (length p = Z.to_nat (vr_inline_length v)) as Hlp by (unfold p; rewrite length_take, length_drop; lia).
  exists p, lo. split_and!; [done|intros E; rewrite E in Hlp; simpl in Hlp; lia|lia|by rewrite Hlp|done|].
  intros Hty. rewrite Hty in Hok3. cbn in Hok3. inv_ok Hok3. to_prop. lia.
Qed.

Lemma decode_all_sound rmp_from_slice xxh64 bs rs :
  (∀ b m, rmp_from_slice b = Ok m → Forall typed_version m) →
  decode_all rmp_from_slice xxh64 bs = Ok rs →
  ∃ body tail, bs = xl_frame xxh64 body ++ tail ∧ (Z.of_nat (length body) < u32_mod)%Z
    ∧ rs ≠ [] ∧ StronglySorted (λ a b, (dr_mod_time_ms b ≤ dr_mod_time_ms a)%Z) rs
    ∧ Forall (sound_record tail) rs.
Proof.
  intros Htyped Hd. unfold decode_all in Hd. apply bind_ok in Hd as ([body ce] & Hframe & Hd).
  apply open_frame_inv in Hframe as (tail & -> & -> & Hlen). inv_ok Hd.
  destruct (rmp_from_slice body) as [m|] eqn:Em; [|done]. injection Hok as <-. specialize (Htyped _ _ Em). to_prop.
  set (versions := newest_first vr_mod_time m) in *.
  assert (versions ≡ₚ m) as Hperm by apply sort_by_perm.
  apply collect_ok_inv in Hd, Hok1. exists body, tail. split_and!; [done..| | |].
  - intros ->. rewrite fmap_nil in Hd. apply (f_equal length) in Hd. rewrite length_fmap, Hperm in Hd. simpl in Hd. lia.
  - assert (vr_mod_time <$> versions = dr_mod_time_ms <$> rs) as Heq.
    { clear -Hd. revert rs Hd. generalize (length versions). induction versions as [|v vs IH]; intros n [|r rs] Hd; try done.
      rewrite !fmap_cons in Hd. injection Hd as Hr Hd. rewrite !fmap_cons, (IH n rs Hd). f_equal.
      destruct (inline_of _ _ v); [|done]. injection Hr as <-. done. }
    pose proof (newest_first_sorted vr_mod_time m) as Hs. fold versions in Hs.
    clear -Heq Hs. revert rs Heq. induction Hs as [|v vs _ IH Hv]; intros [|r rs] Heq; try done; constructor;
      rewrite !fmap_cons in Heq; injection Heq as Hr Heq; [by apply IH|].
    assert (Forall (λ t, t ≤ dr_mod_time_ms r)%Z (dr_mod_time_ms <$> rs)) as Hf;
      [rewrite <-Heq, Forall_fmap, <-Hr; done|by rewrite Forall_fmap in Hf].
  - rewrite Forall_forall. intros r Hr.
    assert (Ok r ∈ Ok (E:=IoError) <$> rs) as Hin by by apply list_elem_of_fmap_2.
    rewrite <-Hd in Hin. apply list_elem_of_fmap in Hin as (v & Hv & Hvin).
    assert (validate_decoded_version v = Ok ()) as Hval.
    { assert (validate_decoded_version v ∈ validate_decoded_version <$> versions) as H by by apply list_elem_of_fmap_2.
      rewrite Hok1 in H. by apply list_elem_of_fmap in H as ([] & -> & _). }
    assert (typed_version v) as Hty by (rewrite Forall_forall in Htyped; apply Htyped; by rewrite <-Hperm).
    destruct (inline_of _ _ v) as [i|] eqn:Ei; [|done]. injection Hv as ->.
    pose proof Hval as Hval'. unfold validate_decoded_version in Hval'. inv_ok Hval'.
    destruct (validate_erasure (decode_erasure (vr_erasure v)) "decode") as [[]|] eqn:Ee; [|done].
    apply validate_erasure_valid in Ee as [Ev Eb]. apply each_part_decoded in Hval'.
    change (version_type_u8 VDeleteMarker) with 1%Z in *.
    match goal with H : (if (vr_ty v =? 1)%Z then _ else _) = Ok _ |- _ => rename H into Hkind end. to_prop.
    constructor; cbn; try done.
    + by apply format_version_id_canonical, Hty.
    + by apply format_data_dir_canonical, Hty.
    + intros Hdel. rewrite Hdel in Hkind. cbn in Hkind. inv_ok Hkind. to_prop. split_and!; [by destruct (vr_parts v)|done|].
      destruct i as [i|]; [|done]. apply inline_of_sound in Ei as (? & ? & ? & ? & ? & ? & ? & Hn); [|done..]. congruence.
    + intros Hdel Hpos. rewrite Hdel in Hkind. cbn in Hkind. inv_ok Hkind. rewrite (proj2 (Z.ltb_lt _ _)) in Hkind by done.
      cbn in Hkind. to_prop. by destruct (vr_parts v).
    + intros fs ->. apply inline_of_sound in Ei as (p & off & -> & Hp & Hl & Ht & Hdd & _); [|done..].
      exists p, off. split_and!; try done. unfold format_data_dir_bytes. by rewrite decide_True.
Qed.

(** The decoder is strict.  Whatever [decode_all] accepts is a framed body
    with its checksum, followed by a tail; it yields at least one record, newest
    first; and every record is sound: its
    identifiers are in canonical form, its erasure layout passes the check the
    read consensus makes, a delete marker carries nothing, a live object of
    positive size has parts, and an inline payload is a slice of the tail of
    exactly the recorded size, never together with a data directory. *)
Theorem decode_all_strict rmp_from_slice xxh64 bs rs :
  (∀ b m, rmp_from_slice b = Ok m → Forall typed_version m) →
  decode_all rmp_from_slice xxh64 bs = Ok rs →
  ∃ body tail, bs = xl_frame xxh64 body ++ tail ∧ (Z.of_nat (length body) < u32_mod)%Z
    ∧ rs ≠ [] ∧ StronglySorted (λ a b, (dr_mod_time_ms b ≤ dr_mod_time_ms a)%Z) rs
    ∧ Forall (sound_record tail) rs.
Proof. apply decode_all_sound. Qed.

(** ** Evaluation *)

#[global] Instance ChecksumBlock_eq_dec : EqDecision ChecksumBlock.
Proof. solve_decision. Defined.
#[global] Instance ErasureBlock_eq_dec : EqDecision ErasureBlock.
Proof. solve_decision. Defined.
#[global] Instance PartBlock_eq_dec : EqDecision PartBlock.
Proof. solve_decision. Defined.
#[global] Instance VersionRecord_eq_dec : EqDecision VersionRecord.
Proof. solve_decision. Defined.

Definition sample_ec : ErasureInfo :=
  {| algorithm := "ReedSolomon"; data_blocks := 2; parity_blocks := 1; block_size := 4096; index := 1;
     distribution := [1; 2; 3]; checksums := [] |}.
Definition sample_uuid (b : byte) : string := format_uuid_hex (replicate 16 b).
Definition sample_version (vid : string) (t : Z) (frames : list bytes) : FileInfo :=
  let n := Z.of_nat (length (concat frames)) in
  {| volume := "b"; name := "k"; version_id := vid; is_latest := true; deleted := false; data_dir := "";
     xl_v1 := false; mod_time_ms := t; size := n; mode := 0; written_by_version := 0;
     metadata := ∅; meta_sys := ∅;
     parts := [{| p_etag := "e"; p_number := 1; p_size := n; p_actual_size := n; p_mod_time_ms := t;
                  p_index := []; p_checksums := ∅ |}];
     erasure := sample_ec; data := Some frames; num_versions := 1; fresh := true; idx := 0;
     checksum := []; versioned := true |}.
Definition sample_versions : list FileInfo :=
  [sample_version (sample_uuid xab) 7 [[x01; x02]; []; [x03]]; sample_version "null" 9 [[x04; x05]]].

(** A concrete codec for the values of a table, a value being written as its position. *)
Section table_codec.
Context (table : list OnDiskMeta).

Definition typed_versionb (v : VersionRecord) : bool :=
  ((0 <=? vr_inline_offset v) && (vr_inline_offset v <? u64_mod) && (0 <=? vr_inline_length v)
   && (vr_inline_length v <? u64_mod) && (- 2 ^ 63 <=? vr_size v) && (vr_size v <? 2 ^ 63))%Z
  && (length (vr_version_id v) =? 16) && (length (vr_data_dir v) =? 16).
Definition table_to_vec (m : OnDiskMeta) : result string bytes :=
  match list_find (λ x, x = m) table with
  | Some (i, _) => if forallb typed_versionb m then Ok (replicate i x01) else Err "out of range"
  | None => Err "not in the table"
  end.
Definition table_from_slice (b : bytes) : result string OnDiskMeta :=
  match table !! length b with
  | Some m => if forallb typed_versionb m then Ok m else Err "out of range"
  | None => Err "malformed"
  end.

Lemma table_codec_roundtrip m b : table_to_vec m = Ok b → table_from_slice b = Ok m.
Proof.
  unfold table_to_vec, table_from_slice. destruct (list_find _ table) as [[i x]|] eqn:Ef; [|done].
  apply list_find_Some in Ef as (Hi & -> & _). destruct (forallb typed_versionb m) eqn:E; [|done]. intros [= <-].
  unfold OnDiskMeta in *. by rewrite length_replicate, Hi, E.
Qed.

Lemma table_codec_typed b m : table_from_slice b = Ok m → Forall typed_version m.
Proof.
  unfold table_from_slice. destruct (table !! length b) as [m'|]; [|done].
  destruct (forallb typed_versionb m') eqn:E; [|done]. intros [= <-]. rewrite forallb_forall in E.
  rewrite Forall_forall. intros v Hv. apply list_elem_of_In in Hv. specialize (E v Hv). unfold typed_versionb in E.
  to_prop. constructor; unfold is_u64; lia.
Qed.
End table_codec.

(** The records of a list of versions. *)
Definition records_for (vs : list FileInfo) : OnDiskMeta :=
  match version_records (zip vs (inline_meta 0 vs)) with Some (Ok rs) => rs | _ => [] end.
Definition sample_to_vec := table_to_vec [records_for sample_versions].
Definition sample_from_slice := table_from_slice [records_for sample_versions].
Definition sum_hash (b : bytes) : Z := foldr (λ x acc, (Z_of_byte x + 31 * acc) `mod` u64_mod)%Z 5%Z b.
Definition sample_encoded : EncodedXlMeta :=
  match encode_versions sample_to_vec sum_hash sample_versions with
  | Some (Ok e) => e | _ => {| xl_head := []; xl_tail := [] |} end.

Lemma sample_canonical : Forall canonical sample_versions.
Proof.
  repeat (apply Forall_cons; split). 3: by apply Forall_nil.
  - split; [right; by exists (replicate 16 xab)|by left].
  - split; by left.
Qed.

Lemma xl_meta_roundtrip_witness :
  dr_version_id <$> newest_first dr_mod_time_ms (record_of 2 <$> sample_versions) = ["null"; sample_uuid xab]
  ∧ decode_all sample_from_slice sum_hash (to_vec sample_encoded)
    = Ok (newest_first dr_mod_time_ms (record_of 2 <$> sample_versions)).
Proof.
  split; [vm_compute; reflexivity|].
  apply (xl_meta_roundtrip sample_to_vec sample_from_slice sum_hash sample_versions sample_encoded
    (table_codec_roundtrip _)).
  - vm_compute. reflexivity.
  - exact sample_canonical.
  - vm_compute. reflexivity.
  - vm_compute. reflexivity.
Defined.

Lemma decode_all_strict_witness :
  ∃ body tail, to_vec sample_encoded = xl_frame sum_hash body ++ tail
    ∧ Forall (sound_record tail) (newest_first dr_mod_time_ms (record_of 2 <$> sample_versions)).
Proof.
  destruct (decode_all_strict sample_from_slice sum_hash (to_vec sample_encoded)
    (newest_first dr_mod_time_ms (record_of 2 <$> sample_versions)) (table_codec_typed _)) as (body & tail & H1 & _ & _ & _ & H2).
  - vm_compute. reflexivity.
  - exists body, tail. split; [exact H1|exact H2].
Defined.
