(* ===== verification/Fs.v ===== *)
(** * The file tree of a drive

    What [openlake_io/src/local_fs.rs] uses of the operating system's file
    interface ([std::fs] and its asynchronous mirror): a tree of directories and
    files under the drive root, with the calls that read and change it.  Any
    call may also fail without an effect, as the fault oracle decides, so the
    theorems of the backend hold for every pattern of I/O errors.  Crashes, and
    with them the effect of [fsync], are not modelled. *)

From stdpp Require Import base gmap strings list.
From S2P Require Import Prelude Types.

Abbreviation path := (list string).
Inductive node := NDir | NFile (content : bytes).
#[global] Instance node_eq_dec : EqDecision node.
Proof. solve_decision. Defined.

Abbreviation fstree := (@gmap (list string) (@list_eq_dec string String.eq_dec)
  (@list_countable string String.eq_dec String.countable) node).

Definition enoent : StdIoError := {| io_kind := KindNotFound; io_msg := "No such file or directory" |}.
Definition eexist : StdIoError := {| io_kind := KindAlreadyExists; io_msg := "File exists" |}.
Definition enotdir : StdIoError := {| io_kind := KindUncategorized; io_msg := "Not a directory" |}.
Definition eisdir : StdIoError := {| io_kind := KindUncategorized; io_msg := "Is a directory" |}.
Definition enotempty : StdIoError := {| io_kind := KindUncategorized; io_msg := "Directory not empty" |}.
Definition einval : StdIoError := {| io_kind := KindUncategorized; io_msg := "Invalid argument" |}.

(** ** Trees *)

Definition parent (p : path) : path := take (length p - 1) p.
Definition dir_at (t : fstree) (p : path) : bool :=
  match p with [] => true | _ => bool_decide (t !! p = Some NDir) end.
(** Is there anything strictly below [p]? *)
Definition inhabited (t : fstree) (p : path) : bool :=
  existsb (λ kv : path * node, bool_decide (p `prefix_of` kv.1 ∧ p ≠ kv.1)) (map_to_list t).
Definition children (t : fstree) (p : path) : list string :=
  omap (λ kv : path * node,
    match drop (length p) kv.1 with
    | [n] => if bool_decide (p `prefix_of` kv.1) then Some n else None
    | _ => None
    end) (map_to_list t).

(** The error for a path that leads nowhere: one of its directories is a file,
    or something on the way does not exist. *)
Definition missing (t : fstree) (p : path) : StdIoError :=
  if existsb (λ k, match t !! take k p with Some (NFile _) => true | _ => false end) (seq 1 (length p - 1))
  then enotdir else enoent.

Definition t_read (p : path) (t : fstree) : result StdIoError bytes :=
  match t !! p with Some (NFile b) => Ok b | Some NDir => Err eisdir | None => Err (missing t p) end.
Definition t_is_dir (p : path) (t : fstree) : result StdIoError bool :=
  match t !! p with Some NDir => Ok true | Some (NFile _) => Ok false | None => Err (missing t p) end.
(** Create or replace the content of a file. *)
Definition t_write (p : path) (b : bytes) (t : fstree) : result StdIoError fstree :=
  if negb (dir_at t (parent p)) then Err (missing t p)
  else match t !! p with Some NDir => Err eisdir | _ => Ok (<[p := NFile b]> t) end.
Definition t_create_dir (p : path) (t : fstree) : result StdIoError fstree :=
  match t !! p with
  | Some _ => Err eexist
  | None => if dir_at t (parent p) then Ok (<[p := NDir]> t) else Err (missing t p)
  end.
Fixpoint t_create_dir_all (base : path) (rest : list string) (t : fstree) : result StdIoError fstree :=
  match rest with
  | [] => Ok t
  | s :: rest =>
      let q := base ++ [s] in
      match t !! q with
      | Some (NFile _) => Err (match rest with [] => eexist | _ => enotdir end)
      | _ => t_create_dir_all q rest (<[q := NDir]> t)
      end
  end.
Definition t_remove_file (p : path) (t : fstree) : result StdIoError fstree :=
  match t !! p with Some (NFile _) => Ok (delete p t) | Some NDir => Err eisdir | None => Err (missing t p) end.
Definition t_remove_dir (p : path) (t : fstree) : result StdIoError fstree :=
  match t !! p with
  | Some NDir => if inhabited t p then Err enotempty else Ok (delete p t)
  | Some (NFile _) => Err enotdir
  | None => Err (missing t p)
  end.

(** Everything at and below [src] moves to [dst], replacing what was there. *)
Definition move_entry (src dst : path) (kv : path * node) : option (path * node) :=
  if decide (src `prefix_of` kv.1) then Some (dst ++ drop (length src) kv.1, kv.2)
  else if decide (dst `prefix_of` kv.1) then None
  else Some kv.
Definition move (src dst : path) (t : fstree) : fstree :=
  list_to_map (omap (move_entry src dst) (map_to_list t)).
Definition t_rename (src dst : path) (t : fstree) : result StdIoError fstree :=
  match t !! src with
  | None => Err (missing t src)
  | Some n =>
      if negb (dir_at t (parent dst)) then Err (missing t dst)
      else if decide (src `prefix_of` dst) then (if decide (src = dst) then Ok t else Err einval)
      else match n, t !! dst with
           | NFile _, Some NDir => Err eisdir
           | NDir, Some (NFile _) => Err enotdir
           | NDir, Some NDir => if inhabited t dst then Err enotempty else Ok (move src dst t)
           | _, _ => Ok (move src dst t)
           end
  end.

(** ** Drives and calls *)

(** The tree, and how many calls have been made. *)
Record Disk := { tree : fstree; ticks : nat }.

(** A computation of the backend on one drive; [None] is a panic. *)
Definition Fs (E A : Type) : Type := Disk → option (result E A * Disk).
Definition fs_ret {E A} (a : A) : Fs E A := λ d, Some (Ok a, d).
Definition fs_err {E A} (e : E) : Fs E A := λ d, Some (Err e, d).
(** [match m { Ok(a) => ok(a), Err(e) => err(e) }]. *)
Definition fs_match {E F A B} (m : Fs E A) (ok : A → Fs F B) (err : E → Fs F B) : Fs F B := λ d,
  match m d with
  | None => None
  | Some (Ok a, d) => ok a d
  | Some (Err e, d) => err e d
  end.
Definition fs_bind {E A B} (m : Fs E A) (k : A → Fs E B) : Fs E B := fs_match m k fs_err.
Definition fs_map_err {E F A} (f : E → F) (m : Fs E A) : Fs F A := fs_match m fs_ret (λ e, fs_err (f e)).
(** [let _ = m]. *)
Definition fs_ignore {E F A} (m : Fs E A) : Fs F unit := fs_match m (λ _, fs_ret ()) (λ _, fs_ret ()).
Definition fs_lift {E A} (r : result E A) : Fs E A := λ d, Some (r, d).

Declare Scope fs_scope.
Delimit Scope fs_scope with fs.
Notation "x <- m ;; k" := (fs_bind m (λ x, k%fs)) (at level 100, m at next level, right associativity) : fs_scope.
Notation "m ;; k" := (fs_bind m (λ _, k%fs)) (at level 100, right associativity) : fs_scope.

Section calls.
(** The calls that fail, with their message. *)
Context (fault : nat → option string).

Definition os_call {A} (f : fstree → result StdIoError (A * fstree)) : Fs StdIoError A := λ d,
  let d1 := {| tree := tree d; ticks := S (ticks d) |} in
  match fault (ticks d) with
  | Some msg => Some (Err (io_error_other msg), d1)
  | None =>
      match f (tree d) with
      | Ok (a, t) => Some (Ok a, {| tree := t; ticks := S (ticks d) |})
      | Err e => Some (Err e, d1)
      end
  end.
Definition query {A} (f : fstree → result StdIoError A) : Fs StdIoError A :=
  os_call (λ t, (λ a, (a, t)) <$> f t).
Definition change (f : fstree → result StdIoError fstree) : Fs StdIoError unit :=
  os_call (λ t, (λ t', ((), t')) <$> f t).

Definition os_read (p : path) : Fs StdIoError bytes := query (t_read p).
Definition os_is_dir (p : path) : Fs StdIoError bool := query (t_is_dir p).
Definition os_read_dir (p : path) : Fs StdIoError (list string) :=
  query (λ t, if dir_at t p then Ok (children t p)
              else match t !! p with Some (NFile _) => Err enotdir | _ => Err (missing t p) end).
Definition os_create_dir (p : path) : Fs StdIoError unit := change (t_create_dir p).
Definition os_create_dir_all (p : path) : Fs StdIoError unit := change (t_create_dir_all [] p).
Definition os_remove_file (p : path) : Fs StdIoError unit := change (t_remove_file p).
Definition os_remove_dir (p : path) : Fs StdIoError unit := change (t_remove_dir p).
Definition os_rename (src dst : path) : Fs StdIoError unit := change (t_rename src dst).
(** [open] with [create] and [truncate]; writing the whole content; [fsync] and
    [close], which do not change the tree. *)
Definition os_create (p : path) : Fs StdIoError unit := change (t_write p []).
Definition os_create_new (p : path) : Fs StdIoError unit :=
  change (λ t, match t !! p with Some _ => Err eexist | None => t_write p [] t end).
Definition os_write_all (p : path) (b : bytes) : Fs StdIoError unit := change (t_write p b).
Definition os_sync : Fs StdIoError unit := change Ok.
End calls.

(** ** Lemmas: trees *)

Lemma prefix_drop (p q : path) : p `prefix_of` q → q = p ++ drop (length p) q.
Proof. intros [r ->]. by rewrite drop_app_length. Qed.

Lemma parent_snoc p s : parent (p ++ [s]) = p.
Proof. unfold parent. rewrite length_app. simpl. rewrite Nat.add_sub. by rewrite take_app_length. Qed.

Lemma inhabited_true t p : inhabited t p = true ↔ ∃ q n, t !! q = Some n ∧ p `prefix_of` q ∧ p ≠ q.
Proof.
  unfold inhabited. rewrite existsb_exists. split.
  - intros ([q n] & Hin%list_elem_of_In & Hb). apply elem_of_map_to_list in Hin.
    apply bool_decide_eq_true in Hb as [??]. eauto.
  - intros (q & n & Hq & Hp & Hne). exists (q, n). split; [|by apply bool_decide_eq_true].
    apply list_elem_of_In. by apply elem_of_map_to_list.
Qed.

(** Where the entries are after a move. *)
Lemma lookup_move src dst t q : ¬ (src `prefix_of` dst) →
  move src dst t !! q =
    if decide (dst `prefix_of` q) then t !! (src ++ drop (length dst) q)
    else if decide (src `prefix_of` q) then None else t !! q.
Proof.
  intros Hsd. set (target := if decide (dst `prefix_of` q) then t !! (src ++ drop (length dst) q)
    else if decide (src `prefix_of` q) then None else t !! q).
  assert (∀ q' n, (q', n) ∈ omap (move_entry src dst) (map_to_list t) ↔
    ∃ k, t !! k = Some n ∧ move_entry src dst (k, n) = Some (q', n)) as Hin.
  { intros q' n. rewrite list_elem_of_omap. split.
    - intros ([k n'] & Hk%elem_of_map_to_list & Hm). assert (n' = n) as ->.
      { unfold move_entry in Hm. repeat case_decide; simplify_eq/=; done. }
      eauto.
    - intros (k & Hk & Hm). exists (k, n). by rewrite elem_of_map_to_list. }
  assert (∀ k n q', move_entry src dst (k, n) = Some (q', n) →
    (src `prefix_of` k ∧ q' = dst ++ drop (length src) k) ∨ (¬ src `prefix_of` k ∧ ¬ dst `prefix_of` k ∧ q' = k)) as Hme.
  { intros k n q'. unfold move_entry. simpl. repeat case_decide; intros [= <-]; auto. }
  assert (∀ n, (q, n) ∈ omap (move_entry src dst) (map_to_list t) ↔ target = Some n) as Hq.
  { intros n. rewrite Hin. unfold target. split.
    - intros (k & Hk & [[Hp ->]|(Hp & Hp' & ->)]%Hme).
      + rewrite decide_True by by exists (drop (length src) k). rewrite drop_app_length. by rewrite <-(prefix_drop _ _ Hp).
      + by rewrite !decide_False.
    - case_decide as Hd; [|case_decide as Hs; [done|]]; intros Ht.
      + exists (src ++ drop (length dst) q). split; [done|]. unfold move_entry. simpl.
        rewrite decide_True by by exists (drop (length dst) q). rewrite drop_app_length. do 2 f_equal. symmetry. by apply prefix_drop.
      + exists q. split; [done|]. unfold move_entry. simpl. by rewrite !decide_False. }
  unfold move. destruct (list_to_map _ !! q) as [n|] eqn:E.
  - apply elem_of_list_to_map_2 in E. symmetry. by apply Hq.
  - destruct target as [n|] eqn:Et; [|done]. exfalso. apply not_elem_of_list_to_map_2 in E. apply E.
    apply list_elem_of_fmap. exists (q, n). split; [done|]. by apply Hq.
Qed.

Lemma t_create_dir_all_lookup base rest t t' q : t_create_dir_all base rest t = Ok t' →
  t' !! q = if bool_decide (base `prefix_of` q ∧ base ≠ q ∧ q `prefix_of` (base ++ rest)) then Some NDir else t !! q.
Proof.
  revert base t. induction rest as [|s rest IH]; intros base t; simpl.
  { intros [= <-]. rewrite bool_decide_false; [done|]. intros (H1 & H2 & H3). rewrite app_nil_r in H3.
    apply H2. by apply (anti_symm prefix). }
  intros Ht. assert (t_create_dir_all (base ++ [s]) rest (<[base ++ [s] := NDir]> t) = Ok t') as Ht'.
  { destruct (t !! (base ++ [s])) as [[]|]; done. }
  rewrite (IH _ _ Ht'). rewrite <-app_assoc. simpl. destruct (decide (q = base ++ [s])) as [->|Hne].
  - rewrite lookup_insert_eq. rewrite (bool_decide_true (base `prefix_of` _ ∧ _)); [by case_bool_decide|].
    split_and!; [by exists [s]|intros H; apply (f_equal length) in H; rewrite length_app in H; simpl in H; lia|].
    exists rest. by rewrite <-app_assoc.
  - rewrite lookup_insert_ne by done. erewrite bool_decide_ext; [reflexivity|]. split.
    + intros (H1 & H2 & H3). split_and!; [by etrans; [apply prefix_app_r|]| |done].
      intros ->. destruct H1 as [r Hr]. apply (f_equal length) in Hr. rewrite !length_app in Hr. simpl in Hr. lia.
    + intros (H1 & H2 & H3). destruct H1 as [[|x r] ->]; [by rewrite app_nil_r in H2|].
      pose proof H3 as H4. apply prefix_app_inv, prefix_cons_inv_1 in H4 as ->.
      split_and!; [exists r; by rewrite <-app_assoc|intros H; by apply Hne|done].
Qed.

(** ** Reasoning about backend computations

    [fs_spec P m Q R]: from a tree that satisfies [P], [m] does not panic, and
    leaves a tree that satisfies [Q] of its result or [R] of its error. *)
Definition fs_spec {E A : Type} (P : fstree → Prop) (m : Fs E A) (Q : A → fstree → Prop) (R : E → fstree → Prop) : Prop :=
  ∀ d, P (tree d) → ∃ r d', m d = Some (r, d') ∧
    match r with Ok a => Q a (tree d') | Err e => R e (tree d') end.

Section rules.
Context {E A : Type}.
Implicit Types (P : fstree → Prop) (Q : A → fstree → Prop) (R : E → fstree → Prop).

Lemma fs_spec_ret P Q R a : (∀ t, P t → Q a t) → fs_spec P (fs_ret a) Q R.
Proof. intros H d Hd. exists (Ok a), d. auto. Qed.

Lemma fs_spec_err P Q R e : (∀ t, P t → R e t) → fs_spec P (fs_err e) Q R.
Proof. intros H d Hd. exists (Err e), d. auto. Qed.

Lemma fs_spec_lift P Q R r :
  (∀ t, P t → match r with Ok a => Q a t | Err e => R e t end) → fs_spec P (fs_lift r) Q R.
Proof. intros H d Hd. exists r, d. split; [done|]. by apply H. Qed.

Lemma fs_spec_weaken P P' (m : Fs E A) Q Q' R R' : fs_spec P m Q R →
  (∀ t, P' t → P t) → (∀ a t, Q a t → Q' a t) → (∀ e t, R e t → R' e t) → fs_spec P' m Q' R'.
Proof.
  intros Hm HP HQ HR d Hd. destruct (Hm d (HP _ Hd)) as (r & d' & E1 & H1). exists r, d'. split; [done|].
  destruct r; auto.
Qed.

Lemma fs_spec_pre P (m : Fs E A) Q R : (∀ t, P t → fs_spec (λ t', t' = t) m Q R) → fs_spec P m Q R.
Proof. intros H d Hd. by apply (H (tree d) Hd d). Qed.
End rules.

Lemma fs_spec_match {E F A B : Type} (P : fstree → Prop) (m : Fs E A) (Q : A → fstree → Prop) (R : E → fstree → Prop) (ok : A → Fs F B) (err : E → Fs F B)
    (Q' : B → fstree → Prop) (R' : F → fstree → Prop) :
  fs_spec P m Q R → (∀ a, fs_spec (Q a) (ok a) Q' R') → (∀ e, fs_spec (R e) (err e) Q' R') →
  fs_spec P (fs_match m ok err) Q' R'.
Proof.
  intros Hm Hok Herr d Hd. destruct (Hm d Hd) as ([a|e] & d1 & E1 & H1); unfold fs_match; rewrite E1;
    [by apply Hok|by apply Herr].
Qed.

Lemma fs_spec_bind {E A B : Type} (P : fstree → Prop) (m : Fs E A) (Q : A → fstree → Prop) (k : A → Fs E B)
    (Q' : B → fstree → Prop) (R : E → fstree → Prop) :
  fs_spec P m Q R → (∀ a, fs_spec (Q a) (k a) Q' R) → fs_spec P (fs_bind m k) Q' R.
Proof. intros Hm Hk. eapply fs_spec_match; [done..|]. intros e. by apply fs_spec_err. Qed.

Lemma fs_spec_map_err {E F A : Type} (P : fstree → Prop) (m : Fs E A) (Q : A → fstree → Prop) (R : F → fstree → Prop) (f : E → F) :
  fs_spec P m Q (λ e, R (f e)) → fs_spec P (fs_map_err f m) Q R.
Proof.
  intros Hm. eapply fs_spec_match; [exact Hm| |]; intros x; [by apply fs_spec_ret|by apply fs_spec_err].
Qed.

Lemma fs_spec_ignore {E F A : Type} (P : fstree → Prop) (m : Fs E A) (Q : unit → fstree → Prop) (R : F → fstree → Prop) :
  fs_spec P m (λ _, Q ()) (λ _, Q ()) → fs_spec P (fs_ignore m) Q R.
Proof. intros Hm. eapply fs_spec_match; [exact Hm| |]; intros x; by apply fs_spec_ret. Qed.

(** A call of the operating system: it fails without an effect, or does what the tree function says. *)
Lemma fs_spec_change fault (P : fstree → Prop) f (Q : unit → fstree → Prop) (R : StdIoError → fstree → Prop) :
  (∀ t msg, P t → R (io_error_other msg) t) →
  (∀ t, P t → match f t with Ok t' => Q () t' | Err e => R e t end) →
  fs_spec P (change fault f) Q R.
Proof.
  intros Hf Hc d Hd. unfold change, os_call. destruct (fault (ticks d)) as [msg|].
  - eexists _, _. split; [done|]. by apply Hf.
  - specialize (Hc _ Hd). destruct (f (tree d)) as [t'|e]; simpl; eexists _, _; (split; [done|]); done.
Qed.

Lemma fs_spec_query {A : Type} fault (P : fstree → Prop) (f : fstree → result StdIoError A) (Q : A → fstree → Prop) (R : StdIoError → fstree → Prop) :
  (∀ t msg, P t → R (io_error_other msg) t) →
  (∀ t, P t → match f t with Ok a => Q a t | Err e => R e t end) →
  fs_spec P (query fault f) Q R.
Proof.
  intros Hf Hc d Hd. unfold query, os_call. destruct (fault (ticks d)) as [msg|].
  - eexists _, _. split; [done|]. by apply Hf.
  - specialize (Hc _ Hd). destruct (f (tree d)) as [a|e]; simpl; eexists _, _; (split; [done|]); done.
Qed.

(** ** Frames: the paths a computation does not touch *)

Definition same (X : path → Prop) (t0 t : fstree) : Prop := ∀ q, X q → t !! q = t0 !! q.

Lemma same_trans X t1 t2 t3 : same X t1 t2 → same X t2 t3 → same X t1 t3.
Proof. intros H1 H2 q HX. by rewrite H2, H1. Qed.

Lemma create_dir_all_dir p t t' : t_create_dir_all [] p t = Ok t' → dir_at t' p = true.
Proof.
  intros Ht. destruct p as [|s p]; [done|]. unfold dir_at. apply bool_decide_eq_true.
  rewrite (t_create_dir_all_lookup _ _ _ _ _ Ht). rewrite bool_decide_true; [done|].
  split_and!; [apply prefix_nil|done|done].
Qed.

Lemma write_ok p b t t' : t_write p b t = Ok t' → t' = <[p := NFile b]> t.
Proof. unfold t_write. destruct (dir_at t (parent p)); [|done]. simpl. by destruct (t !! p) as [[]|]; intros [= <-]. Qed.

Lemma rename_ok src dst t t' : t_rename src dst t = Ok t' →
  (src = dst ∧ t' = t) ∨ (¬ src `prefix_of` dst ∧ t' = move src dst t).
Proof.
  unfold t_rename. destruct (t !! src) as [n|]; [|done]. destruct (dir_at t (parent dst)); [|done]. simpl.
  destruct (decide (src `prefix_of` dst)) as [Hp|Hp].
  { case_decide; [|done]. intros [= <-]. by left. }
  intros H. right. split; [done|].
  destruct n, (t !! dst) as [[]|]; try (by injection H); try done. by destruct (inhabited t dst); [|injection H].
Qed.

Lemma same_rename X src dst t t' : t_rename src dst t = Ok t' →
  (∀ q, X q → ¬ src `prefix_of` q ∧ ¬ dst `prefix_of` q) → same X t t'.
Proof.
  intros [[-> ->]|[Hp ->]]%rename_ok HX q Hq; [done|]. destruct (HX q Hq) as [H1 H2].
  by rewrite lookup_move, !decide_False.
Qed.

Lemma same_write X p b t t' : t_write p b t = Ok t' → (∀ q, X q → q ≠ p) → same X t t'.
Proof. intros ->%write_ok HX q Hq. rewrite lookup_insert_ne; [done|]. intros ->. by apply (HX _ Hq). Qed.

(** [m] does not panic and, whatever it returns, leaves the paths in [X] as they are. *)
Definition framed {E A : Type} (X : path → Prop) (m : Fs E A) : Prop :=
  ∀ t0, fs_spec (same X t0) m (λ _, same X t0) (λ _, same X t0).

Section framed.
Context (fault : nat → option string) (X : path → Prop).

Lemma framed_ret {E A : Type} (a : A) : framed X (fs_ret (E:=E) a).
Proof. intros t0. by apply fs_spec_ret. Qed.
Lemma framed_err {E A : Type} (e : E) : framed X (fs_err (A:=A) e).
Proof. intros t0. by apply fs_spec_err. Qed.
Lemma framed_lift {E A : Type} (r : result E A) : framed X (fs_lift r).
Proof. intros t0. apply fs_spec_lift. by destruct r. Qed.
Lemma framed_match {E F A B : Type} (m : Fs E A) (ok : A → Fs F B) (err : E → Fs F B) :
  framed X m → (∀ a, framed X (ok a)) → (∀ e, framed X (err e)) → framed X (fs_match m ok err).
Proof. intros Hm Hok Herr t0. eapply fs_spec_match; [apply Hm|intros a; apply Hok|intros e; apply Herr]. Qed.
Lemma framed_bind {E A B : Type} (m : Fs E A) (k : A → Fs E B) :
  framed X m → (∀ a, framed X (k a)) → framed X (fs_bind m k).
Proof. intros Hm Hk. apply framed_match; [done..|]. intros e. apply framed_err. Qed.
Lemma framed_map_err {E F A : Type} (f : E → F) (m : Fs E A) : framed X m → framed X (fs_map_err f m).
Proof. intros Hm. apply framed_match; [done|..]; intros; [apply framed_ret|apply framed_err]. Qed.
Lemma framed_ignore {E F A : Type} (m : Fs E A) : framed X m → framed X (fs_ignore (F:=F) m).
Proof. intros Hm. apply framed_match; [done|..]; intros; apply framed_ret. Qed.

Lemma framed_query {A : Type} (f : fstree → result StdIoError A) : framed X (query fault f).
Proof. intros t0. apply fs_spec_query; [done|]. intros t Ht. by destruct (f t). Qed.

Lemma framed_change f : (∀ t t', f t = Ok t' → same X t t') → framed X (change fault f).
Proof.
  intros Hf t0. apply fs_spec_change; [done|]. intros t Ht. destruct (f t) as [t'|] eqn:E; [|done].
  by eapply same_trans, Hf.
Qed.

Lemma framed_sync : framed X (os_sync fault).
Proof. apply framed_change. by intros t t' [= <-]. Qed.
Lemma framed_create_dir_all p : (∀ q, X q → ¬ q `prefix_of` p) → framed X (os_create_dir_all fault p).
Proof.
  intros HX. apply framed_change. intros t t' Ht q Hq. rewrite (t_create_dir_all_lookup _ _ _ _ _ Ht).
  rewrite bool_decide_false; [done|]. intros (_ & _ & ?). by apply (HX q Hq).
Qed.
Lemma framed_remove_dir p : (∀ q, X q → q ≠ p) → framed X (os_remove_dir fault p).
Proof.
  intros HX. apply framed_change. intros t t' Ht q Hq. unfold t_remove_dir in Ht.
  destruct (t !! p) as [[]|]; [|done..]. destruct (inhabited t p); [done|]. injection Ht as <-.
  rewrite lookup_delete_ne; [done|]. intros ->. by apply (HX q).
Qed.
Lemma framed_create_dir p : (∀ q, X q → q ≠ p) → framed X (os_create_dir fault p).
Proof.
  intros HX. apply framed_change. intros t t' Ht q Hq. unfold t_create_dir in Ht. destruct (t !! p); [done|].
  destruct (dir_at t (parent p)); [|done]. injection Ht as <-. rewrite lookup_insert_ne; [done|]. intros ->. by apply (HX q).
Qed.
Lemma framed_rename src dst : (∀ q, X q → ¬ src `prefix_of` q ∧ ¬ dst `prefix_of` q) → framed X (os_rename fault src dst).
Proof. intros HX. apply framed_change. intros t t' Ht. by eapply same_rename. Qed.
Lemma framed_create p : (∀ q, X q → q ≠ p) → framed X (os_create fault p).
Proof. intros HX. apply framed_change. intros t t' Ht. by eapply same_write. Qed.
Lemma framed_write_all p b : (∀ q, X q → q ≠ p) → framed X (os_write_all fault p b).
Proof. intros HX. apply framed_change. intros t t' Ht. by eapply same_write. Qed.
Lemma framed_remove_file p : (∀ q, X q → q ≠ p) → framed X (os_remove_file fault p).
Proof.
  intros HX. apply framed_change. intros t t' Ht q Hq. unfold t_remove_file in Ht.
  destruct (t !! p) as [[]|]; [done| |done]. injection Ht as <-. rewrite lookup_delete_ne; [done|]. intros ->. by apply (HX _ Hq).
Qed.
End framed.

Lemma framed_weaken {E A : Type} (X Y : path → Prop) (m : Fs E A) : (∀ q, X q → Y q) → framed Y m → framed X m.
Proof.
  intros HXY Hm t0 d Hd. destruct (Hm (tree d) d) as (r & d' & E1 & H1); [done|]. exists r, d'. split; [done|].
  destruct r; intros q Hq; (rewrite H1 by auto); by apply Hd.
Qed.

(** A computation that is framed around [p] keeps what is known of [p]. *)
Lemma framed_at {E A : Type} (p : path) (m : Fs E A) v : framed (λ q, q = p) m →
  fs_spec (λ t, t !! p = v) m (λ _ t, t !! p = v) (λ _ t, t !! p = v).
Proof.
  intros Hm d Hd. destruct (Hm (tree d) d) as (r & d' & E1 & H1); [done|]. exists r, d'. split; [done|].
  destruct r; rewrite H1 by done; done.
Qed.

Lemma fs_spec_and {E A : Type} (P1 P2 : fstree → Prop) (m : Fs E A) (Q1 Q2 : A → fstree → Prop) (R1 R2 : E → fstree → Prop) :
  fs_spec P1 m Q1 R1 → fs_spec P2 m Q2 R2 →
  fs_spec (λ t, P1 t ∧ P2 t) m (λ a t, Q1 a t ∧ Q2 a t) (λ e t, R1 e t ∧ R2 e t).
Proof.
  intros H1 H2 d [Hd1 Hd2]. destruct (H1 d Hd1) as (r & d' & E1 & HQ1). destruct (H2 d Hd2) as (r' & d'' & E2 & HQ2).
  rewrite E1 in E2. injection E2 as <- <-. exists r, d'. split; [done|]. by destruct r.
Qed.

#[export] Hint Resolve framed_ret framed_err framed_lift framed_match framed_bind framed_map_err framed_ignore
  framed_query framed_sync framed_create_dir_all framed_remove_dir framed_create_dir framed_rename framed_create
  framed_write_all framed_remove_file : openlake.

Lemma fs_spec_elim {E A : Type} (P : fstree → Prop) (m : Fs E A) (Q : A → fstree → Prop) (R : E → fstree → Prop) d r d' :
  fs_spec P m Q R → P (tree d) → m d = Some (r, d') →
  match r with Ok a => Q a (tree d') | Err e => R e (tree d') end.
Proof. intros Hm Hd Hr. destruct (Hm d Hd) as (r' & d'' & E1 & H1). rewrite Hr in E1. by injection E1 as <- <-. Qed.
