(* ===== verification/LocalFs.v ===== *)
(** * The local drive backend

    [LocalFsBackend] of [openlake_io/src/local_fs.rs]: volumes, metadata files,
    the atomic promotion of a staged version ([rename_data]) and its undo
    ([delete_version]), over the file tree of [Fs].

    Random names ([Uuid::new_v4().simple()]) are drawn from [fresh_name] at the
    current call number; the purge worker that empties the trash is not
    modelled, nor is the cache of open files. *)

From stdpp Require Import base gmap strings sorting pretty list.
From Stdlib Require Import Strings.Ascii.
From S2P Require Import Prelude Text Types XlMeta Fs.

Definition META_FILENAME : string := "xl.meta".
Definition META_BACKUP_FILENAME : string := "xl.meta.bkp".
Definition TRASH_DIRNAME : string := ".openlake.trash".
Definition STAGING_VOL : string := ".openlake.staging".
Definition MULTIPART_VOL : string := ".openlake.multipart".
Definition SYSTEM_BUCKET : string := ".openlake.sys".

Definition is_system_vol (v : string) : bool :=
  bool_decide (v = STAGING_VOL) || bool_decide (v = MULTIPART_VOL) || bool_decide (v = SYSTEM_BUCKET).

(** The segments [.] and [..] are names like any other here; the source hands
    them to the operating system, which resolves them. *)
Definition segments (p : string) : list string := filter (λ s, s ≠ "") (split_char "/" p).

Definition vol_path (v : string) : path := [v].
Definition file_path (v p : string) : path := v :: segments p.
Definition meta_path (v p : string) : path := file_path v p ++ [META_FILENAME].

Definition map_open_err (e : StdIoError) (v p : string) : IoError :=
  match io_kind e with
  | KindNotFound => FileNotFound v p
  | KindAlreadyExists => FileAlreadyExists v p
  | _ => Io e
  end.
Definition not_found_as (missing : IoError) (e : StdIoError) : IoError :=
  match io_kind e with KindNotFound => missing | _ => Io e end.
(** The corruption of a metadata file, with the place it was read from. *)
Definition at_place (v p : string) (e : IoError) : IoError :=
  match e with CorruptMetadata _ _ msg => CorruptMetadata v p msg | other => other end.

Section backend.
Context (fault : nat → option string) (fresh_name : nat → string).
Context (rmp_to_vec : OnDiskMeta → result string bytes).
Context (rmp_from_slice : bytes → result string OnDiskMeta).
Context (xxh64 : bytes → Z).
Local Open Scope fs_scope.

Abbreviation io m := (fs_map_err Io m).

Definition xl_decode_all := decode_all rmp_from_slice xxh64.
(** An encoding that panics panics here too. *)
Definition fs_encode (vs : list FileInfo) : Fs IoError EncodedXlMeta := λ d,
  match encode_versions rmp_to_vec xxh64 vs with None => None | Some r => Some (r, d) end.

(** ** Volumes *)

Definition require_vol (v : string) : Fs IoError unit :=
  if is_system_vol v then io (os_create_dir_all fault (vol_path v))
  else fs_match (os_is_dir fault (vol_path v))
         (λ is_dir : bool, if is_dir then fs_ret () else fs_err (VolumeNotFound v))
         (λ e, fs_err (not_found_as (VolumeNotFound v) e)).

Definition make_vol (v : string) : Fs IoError unit :=
  if bool_decide (v = "") || has_char "/" v || has_char "000" v then fs_err (InvalidArgument ("volume " +:+ debug_str v))
  else fs_map_err (λ e, match io_kind e with KindAlreadyExists => VolumeExists v | _ => Io e end)
         (os_create_dir fault (vol_path v)).

Definition stat_vol (v : string) : Fs IoError VolInfo :=
  fs_match (os_is_dir fault (vol_path v))
    (λ is_dir : bool, if is_dir then fs_ret {| vol_name := v |} else fs_err (VolumeNotFound v))
    (λ _, fs_err (VolumeNotFound v)).

(** Directories whose name does not start with a dot. *)
Definition list_vols : Fs IoError (list VolInfo) :=
  fs_match (os_read_dir fault [])
    (λ names, let fix go (names : list string) : Fs IoError (list VolInfo) :=
       match names with
       | [] => fs_ret []
       | n :: names =>
           if String.prefix "." n then go names
           else
             is_dir <- io (os_is_dir fault [n]) ;;
             out <- go names ;;
             fs_ret (if is_dir : bool then {| vol_name := n |} :: out else out)
       end in go names)
    (λ e, match io_kind e with KindNotFound => fs_ret [] | _ => fs_err (Io e) end).

Definition move_to_trash (target : path) : Fs StdIoError unit := λ d,
  os_rename fault target [TRASH_DIRNAME; fresh_name (ticks d)] d.

Definition delete_vol (v : string) (force : bool) : Fs IoError unit :=
  if force then fs_map_err (not_found_as (VolumeNotFound v)) (move_to_trash (vol_path v))
  else fs_map_err (λ e, match io_kind e with
                        | KindNotFound => VolumeNotFound v
                        | _ => if decide (e = enotempty) then VolumeNotEmpty v else Io e
                        end) (os_remove_dir fault (vol_path v)).

(** ** Plain files *)

Definition check_file (v p : string) : Fs IoError unit :=
  require_vol v ;;
  fs_match (os_is_dir fault (file_path v p)) (λ _, fs_ret ()) (λ e, fs_err (not_found_as (FileNotFound v p) e)).

Definition delete (v p : string) (recursive : bool) : Fs IoError unit :=
  require_vol v ;;
  is_dir <- fs_map_err (not_found_as (FileNotFound v p)) (os_is_dir fault (file_path v p)) ;;
  if is_dir : bool then
    if recursive then io (move_to_trash (file_path v p)) else io (os_remove_dir fault (file_path v p))
  else io (os_remove_file fault (file_path v p)).

Definition rename_file (sv sp dv dp : string) : Fs IoError unit :=
  require_vol sv ;;
  require_vol dv ;;
  io (os_create_dir_all fault (parent (file_path dv dp))) ;;
  fs_map_err (not_found_as (FileNotFound sv sp)) (os_rename fault (file_path sv sp) (file_path dv dp)).

(** [atomic_write_with]: a sibling temporary file, [fsync], rename, [fsync] of
    the directory; on an error the temporary file is removed. *)
Definition atomic_write (final : path) (content : bytes) : Fs IoError unit := λ d,
  let fname := default "" (last final) in
  let tmp := parent final ++ ["." +:+ fname +:+ "." +:+ fresh_name (ticks d) +:+ ".tmp"] in
  let body :=
    io (os_create_new fault tmp) ;;
    io (os_write_all fault tmp content) ;;
    io (os_sync fault) ;;
    io (os_sync fault) ;;
    io (os_rename fault tmp final) ;;
    io (os_sync fault) in
  fs_match body fs_ret (λ e, fs_ignore (os_remove_file fault tmp) ;; fs_err e) d.

Definition write_file (v p : string) (content : bytes) : Fs IoError unit :=
  require_vol v ;;
  io (os_create_dir_all fault (parent (file_path v p))) ;;
  atomic_write (file_path v p) content.

Definition read_file (v p : string) : Fs IoError (option bytes) :=
  require_vol v ;;
  fs_match (os_read fault (file_path v p)) (λ b, fs_ret (Some b))
    (λ e, match io_kind e with KindNotFound => fs_ret None | _ => fs_err (Io e) end).

Definition make_dir_all (v p : string) : Fs IoError unit :=
  require_vol v ;; io (os_create_dir_all fault (file_path v p)).

Definition list_dir (v dir : string) (count : nat) : Fs IoError (list string) :=
  require_vol v ;;
  fs_match (os_read_dir fault (file_path v dir))
    (λ names, fs_ret (if count =? 0 then names else take count names))
    (λ e, match io_kind e with KindNotFound => fs_ret [] | _ => fs_err (Io e) end).

(** ** Metadata files *)

Definition write_metadata (v p : string) (fi : FileInfo) : Fs IoError unit :=
  require_vol v ;;
  io (os_create_dir_all fault (file_path v p)) ;;
  encoded <- fs_encode [fi] ;;
  atomic_write (meta_path v p) (to_vec encoded).

Definition read_version (v p : string) (vid : option string) (read_data : bool) : Fs IoError FileInfo :=
  require_vol v ;;
  raw <- fs_map_err (not_found_as (FileNotFound v p)) (os_read fault (meta_path v p)) ;;
  rec <- match vid with
         | None => fs_lift (map_err (at_place v p) (decode rmp_from_slice xxh64 raw))
         | Some id =>
             found <- fs_lift (find_version rmp_from_slice xxh64 raw id) ;;
             match found with
             | Some r => fs_ret r
             | None => fs_err (FileVersionNotFound v p id)
             end
         end ;;
  let fi := file_info_from_record rec v p in
  fs_ret (if read_data then fi else
    {| volume := volume fi; name := name fi; version_id := version_id fi; is_latest := is_latest fi;
       deleted := deleted fi; data_dir := data_dir fi; xl_v1 := xl_v1 fi; mod_time_ms := mod_time_ms fi;
       size := size fi; mode := mode fi; written_by_version := written_by_version fi; metadata := metadata fi;
       meta_sys := meta_sys fi; parts := parts fi; erasure := erasure fi; data := None;
       num_versions := num_versions fi; fresh := fresh fi; idx := idx fi; checksum := checksum fi;
       versioned := versioned fi |}).

Definition update_metadata (v p : string) (fi : FileInfo) : Fs IoError unit := write_metadata v p fi.
Definition verify_file (v p : string) (fi : FileInfo) : Fs IoError unit := check_file v p.

(** ** The walk of a volume *)

(** [walk_entries] is the loop over the sorted names of [dir]; [down] walks a
    directory that holds no metadata file. *)
Section walk.
Context (v : string) (prefix_filter : string) (recursive : bool).
Context (start_after : option string) (max_keys : option nat).

Definition walk_full (out : list (string * FileInfo)) : bool :=
  match max_keys with Some n => n <=? length out | None => false end.
Definition before_start (child : string) : bool :=
  match start_after with
  | Some after => bool_decide (String.compare child after = Lt) && negb (String.prefix (child +:+ "/") after)
                  && negb (bool_decide (after = child))
  | None => false
  end.
Definition filtered_out (child : string) : bool :=
  negb (bool_decide (prefix_filter = "")) && negb (String.prefix prefix_filter child)
  && negb (String.prefix (child +:+ "/") prefix_filter).
Definition keep_object (name : string) : bool :=
  (bool_decide (prefix_filter = "") || String.prefix prefix_filter name)
  && match start_after with Some after => bool_decide (String.compare name after = Gt) | None => true end.

Section entries.
Context (dir : string) (down : string → list (string * FileInfo) → Fs IoError (list (string * FileInfo))).
Fixpoint walk_entries (names : list string) (out : list (string * FileInfo)) : Fs IoError (list (string * FileInfo)) :=
  match names with
  | [] => fs_ret out
  | n :: names =>
      if walk_full out then fs_ret out
      else
        let child := if decide (dir = "") then n else dir +:+ "/" +:+ n in
        if before_start child || filtered_out child then walk_entries names out
        else fs_match (read_version v child None false)
          (λ fi, walk_entries names (if keep_object (name fi) then out ++ [(name fi, fi)] else out))
          (λ e, match e with
                | FileNotFound _ _ =>
                    if recursive then out <- down child out ;; walk_entries names out else walk_entries names out
                | _ => walk_entries names out
                end)
  end.
End entries.

Fixpoint walk_inner (fuel : nat) (dir : string) (out : list (string * FileInfo)) : Fs IoError (list (string * FileInfo)) :=
  match fuel with
  | 0 => λ _, None
  | S fuel =>
      if walk_full out then fs_ret out
      else
        names <- list_dir v dir 0 ;;
        walk_entries dir (walk_inner fuel) (sort_by (λ a b, bool_decide (String.compare a b ≠ Gt)) names) out
  end.

(** A directory entered is one level deeper than the one above it, so the
    number of paths bounds the depth. *)
Definition walk_dir (base_dir : string) : Fs IoError (list (string * FileInfo)) := λ d,
  (require_vol v ;; walk_inner (2 + length (map_to_list (tree d))) base_dir []) d.
End walk.

(** The data directories of a list of records go to the trash, best effort. *)
Fixpoint trash_data_dirs (object_dir : path) (rs : list DecodedRecord) : Fs IoError unit :=
  match rs with
  | [] => fs_ret ()
  | r :: rs =>
      (if decide (dr_data_dir r = "") then fs_ret ()
       else fs_ignore (move_to_trash (object_dir ++ [dr_data_dir r]))) ;;
      trash_data_dirs object_dir rs
  end.

(** Removes the emptied directories from [cur] up to the volume root. *)
Fixpoint prune_dirs (fuel : nat) (vol_root cur : path) : Fs IoError unit :=
  match fuel with
  | 0 => fs_ret ()
  | S fuel =>
      if decide (vol_root `prefix_of` cur ∧ cur ≠ vol_root) then
        fs_match (os_remove_dir fault cur) (λ _, prune_dirs fuel vol_root (parent cur)) (λ _, fs_ret ())
      else fs_ret ()
  end.

Definition delete_object_scoped (v p : string) : Fs IoError unit :=
  require_vol v ;;
  let object_dir := file_path v p in
  let meta := object_dir ++ [META_FILENAME] in
  raw <- fs_map_err (not_found_as (FileNotFound v p)) (os_read fault meta) ;;
  match xl_decode_all raw with
  | Ok records => trash_data_dirs object_dir records
  | Err _ => fs_ret ()
  end ;;
  io (os_remove_file fault meta) ;;
  fs_ignore (os_remove_file fault (object_dir ++ [META_BACKUP_FILENAME])) ;;
  prune_dirs (length object_dir) (vol_path v) object_dir.

(** The keys of a batch one after the other: they are deletes of different
    objects, run together. *)
Definition delete_batch (v : string) (paths : list string) : Fs IoError (list (IoResult unit)) :=
  let fix go (paths : list string) : Fs IoError (list (IoResult unit)) :=
    match paths with
    | [] => fs_ret []
    | p :: paths =>
        r <- fs_match (delete_object_scoped v p) (λ u, fs_ret (Ok u)) (λ e, fs_ret (Err e)) ;;
        rs <- go paths ;;
        fs_ret (r :: rs)
    end in
  require_vol v ;; go paths.

Definition delete_version (v p : string) (fi : FileInfo) (opts : DeleteOptions) : Fs IoError unit :=
  if negb (undo_write opts) then delete_object_scoped v p
  else
    let object_dir := file_path v p in
    let bkp := object_dir ++ [META_BACKUP_FILENAME] in
    let live := object_dir ++ [META_FILENAME] in
    fs_match (os_rename fault bkp live)
      (λ _, io (os_sync fault) ;;
            if decide (data_dir fi = "") then fs_ret ()
            else fs_ignore (move_to_trash (object_dir ++ [data_dir fi])))
      (λ e, match io_kind e with
            | KindNotFound => delete v p true
            | _ => fs_err (Io e)
            end).

(** ** The format file *)

Section format_file.
Context (json_to_vec : FormatJson → result string bytes) (json_from_slice : bytes → result string FormatJson).

Definition FORMAT_FILENAME : string := ".openlake.format.json".
Definition read_format : Fs IoError (option FormatJson) :=
  fs_match (os_read fault [FORMAT_FILENAME])
    (λ b, match json_from_slice b with
          | Ok fmt => fs_ret (Some fmt)
          | Err e => fs_err (Decode ("format.json: " +:+ e))
          end)
    (λ e, match io_kind e with KindNotFound => fs_ret None | _ => fs_err (Io e) end).
Definition write_format (fmt : FormatJson) : Fs IoError unit :=
  match json_to_vec fmt with
  | Ok b => atomic_write [FORMAT_FILENAME] b
  | Err e => fs_err (Encode ("format.json: " +:+ e))
  end.
End format_file.

(** The versions of the promoted metadata file: the others as they are, and the new one. *)
Definition merge_versions (existing : list DecodedRecord) (fi : FileInfo) (dv dp : string) : list FileInfo :=
  newest_first mod_time_ms
    (((λ r, file_info_from_record r dv dp) <$> filter (λ r, dr_version_id r ≠ version_id fi) existing) ++ [fi]).

Definition write_synced (p : path) (content : bytes) : Fs IoError unit :=
  io (os_create fault p) ;; io (os_write_all fault p content) ;; io (os_sync fault) ;; io (os_sync fault).

(** The live metadata file before a promotion, with its versions. *)
Definition read_live (v p : string) : Fs IoError (option bytes * list DecodedRecord) :=
  fs_match (os_read fault (meta_path v p))
    (λ raw, all <- fs_lift (map_err (at_place v p) (xl_decode_all raw)) ;; fs_ret (Some raw, all))
    (λ e, match io_kind e with KindNotFound => fs_ret (None, []) | _ => fs_err (Io e) end).

Definition prior_of (existing : list DecodedRecord) (fi : FileInfo) : option DecodedRecord :=
  head (filter (λ r, dr_version_id r = version_id fi) existing).
Definition old_data_dir_of (existing : list DecodedRecord) (fi : FileInfo) : string :=
  match prior_of existing fi with
  | Some r => if bool_decide (dr_data_dir r = "") || bool_decide (dr_data_dir r = data_dir fi) then "" else dr_data_dir r
  | None => ""
  end.

Definition rename_data (sv sp : string) (fi : FileInfo) (dv dp : string) : Fs IoError RenameDataResp :=
  if negb (is_system_vol sv) then
    fs_err (InvalidArgument ("rename_data: src_volume must be a system volume (got " +:+ sv +:+ ")"))
  else
    require_vol dv ;;
    live <- read_live dv dp ;;
    let existing := snd live in
    let merged := merge_versions existing fi dv dp in
    encoded <- fs_encode merged ;;
    let staged := file_path sv sp in
    let staged_meta := staged ++ [META_FILENAME] in
    let dst_dir := file_path dv dp in
    io (os_create_dir_all fault staged) ;;
    write_synced staged_meta (to_vec encoded) ;;
    has_data_dir <- (if decide (data_dir fi = "") then fs_ret false
                     else fs_match (os_is_dir fault (staged ++ [data_dir fi])) fs_ret (λ _, fs_ret false)) ;;
    (if has_data_dir : bool then
       io (os_create_dir_all fault dst_dir) ;;
       io (os_rename fault (staged ++ [data_dir fi]) (dst_dir ++ [data_dir fi]))
     else fs_ret ()) ;;
    match prior_of existing fi, fst live with
    | Some _, Some raw =>
        io (os_create_dir_all fault dst_dir) ;; write_synced (dst_dir ++ [META_BACKUP_FILENAME]) raw
    | _, _ => fs_ret ()
    end ;;
    io (os_create_dir_all fault dst_dir) ;;
    io (os_rename fault staged_meta (dst_dir ++ [META_FILENAME])) ;;
    io (os_sync fault) ;;
    fs_ignore (os_remove_dir fault staged) ;;
    fs_ret {| sign := []; old_data_dir := old_data_dir_of existing fi |}.
End backend.

(** ** Capacity

    What [statvfs] answers; the products are of [u64]s. *)
Record StatVfs := { f_frsize : Z; f_blocks : Z; f_bavail : Z; f_files : Z; f_favail : Z }.
Definition disk_info (root : string) (statvfs : result StdIoError StatVfs) : IoResult DiskInfo :=
  if has_char "000" root then Err (InvalidArgument "root path contains NUL")
  else
    s ← map_err Io statvfs;
    let total := ((f_blocks s * f_frsize s) `mod` u64_mod)%Z in
    let free := ((f_bavail s * f_frsize s) `mod` u64_mod)%Z in
    Ok {| di_total := total; di_free := free; di_used := Z.max 0 (total - free);
          di_used_inodes := Z.max 0 (f_files s - f_favail s); di_free_inodes := f_favail s; fs_type := "";
          root_disk := false; healing := false; endpoint := ""; mount_path := root; di_id := root |}.

(** A local drive with its failing calls, its supply of names, its root and
    what the operating system tells of it. *)
Record LocalDrive := { ld_fault : nat → option string; ld_name : nat → string; ld_root : string;
                       ld_statvfs : nat → result StdIoError StatVfs; ld_disk : Disk }.
Definition set_tree (d : Disk) (b : LocalDrive) : LocalDrive :=
  {| ld_fault := ld_fault b; ld_name := ld_name b; ld_root := ld_root b; ld_statvfs := ld_statvfs b; ld_disk := d |}.
Definition on_disk {A} (m : Fs IoError A) (b : LocalDrive) : option (IoResult A * LocalDrive) :=
  '(r, d) ← m (ld_disk b); Some (r, set_tree d b).

(** ** Lemmas: paths *)

Lemma snoc_not_prefix {A} (p : list A) x : ¬ (p ++ [x]) `prefix_of` p.
Proof. intros H%prefix_length. rewrite length_app in H. simpl in H. lia. Qed.

Lemma snoc_prefix_inv {A} (p : list A) x y r : (p ++ [x]) `prefix_of` (p ++ y :: r) → x = y.
Proof. intros H%prefix_app_inv. by apply prefix_cons_inv_1 in H. Qed.

Lemma other_root (a b : string) p q : a ≠ b → ¬ (a :: p) `prefix_of` (b :: q).
Proof. intros Hne H%prefix_cons_inv_1. done. Qed.

(** ** Lemmas: promotion *)

Section promote.
Context (fault : nat → option string) (fresh_name : nat → string).
Context (rmp_to_vec : OnDiskMeta → result string bytes).
Context (rmp_from_slice : bytes → result string OnDiskMeta).
Context (xxh64 : bytes → Z).
Context (sv sp : string) (fi : FileInfo) (dv dp : string).
Context (Hsys : is_system_vol sv = true) (Hvol : sv ≠ dv)
  (Hdd : data_dir fi ≠ META_FILENAME ∧ data_dir fi ≠ META_BACKUP_FILENAME).
Context (existing : list DecodedRecord).

Let staged := file_path sv sp.
Let dst := file_path dv dp.
Let staged_meta := staged ++ [META_FILENAME].
Let live := dst ++ [META_FILENAME].
Let backup := dst ++ [META_BACKUP_FILENAME].
Let grafted := dst ++ [data_dir fi].

(** The paths a promotion leaves alone: not below the staging directory or the
    new data directory, nor on the way to them, and not the live metadata file;
    the backup is written only when a version is replaced. *)
Definition untouched (q : path) : Prop :=
  ¬ staged `prefix_of` q ∧ ¬ q `prefix_of` staged ∧ ¬ q `prefix_of` dst ∧ ¬ grafted `prefix_of` q
  ∧ (q = backup → prior_of existing fi = None) ∧ ¬ live `prefix_of` q.
Definition before (q : path) : Prop := untouched q ∨ q = live.

Lemma staged_outside_dst r : ¬ staged `prefix_of` (dst ++ r).
Proof. by apply other_root. Qed.
Lemma dst_outside_staged r : ¬ dst `prefix_of` (staged ++ r).
Proof. apply other_root. congruence. Qed.

Lemma before_staged q : before q → ¬ q `prefix_of` staged ∧ ¬ staged `prefix_of` q.
Proof.
  intros [(? & ? & _)| ->]; [done|]. split; [|apply staged_outside_dst].
  intros H. apply (dst_outside_staged []). rewrite app_nil_r. etrans; [|exact H]. by exists [META_FILENAME].
Qed.
Lemma before_dst q : before q → ¬ q `prefix_of` dst.
Proof. intros [(_ & _ & ? & _)| ->]; [done|]. apply snoc_not_prefix. Qed.
Lemma before_grafted q : before q → ¬ grafted `prefix_of` q.
Proof. intros [(_ & _ & _ & ? & _)| ->]; [done|]. intros H%snoc_prefix_inv. by destruct Hdd. Qed.
Lemma before_backup q : before q → prior_of existing fi ≠ None → q ≠ backup.
Proof.
  intros [(_ & _ & _ & _ & H & _)| ->] Hp; [intros ->; by apply Hp, H|].
  unfold live, backup. intros H. apply app_inj_2 in H as [_ H]; done.
Qed.
Lemma before_under_staged q r : before q → q ≠ staged ++ r.
Proof. intros Hq ->. destruct (before_staged _ Hq) as [? Hn]. apply Hn. by exists r. Qed.

Lemma require_vol_framed v X : (∀ q, X q → ¬ q `prefix_of` [v]) → framed X (require_vol fault v).
Proof.
  intros HX. unfold require_vol. destruct (is_system_vol v); [by auto with openlake|].
  apply framed_match; [apply framed_query|intros []; auto with openlake|auto with openlake].
Qed.

Lemma write_synced_spec p c P : (∀ t, P t → ∀ b, P (<[p := NFile b]> t)) →
  fs_spec P (write_synced fault p c) (λ _ t, P t ∧ t !! p = Some (NFile c)) (λ _, P).
Proof.
  intros HP. unfold write_synced.
  assert (∀ b (Q : fstree → Prop), (∀ t, P t → Q (<[p := NFile b]> t)) →
    fs_spec P (fs_map_err Io (change fault (t_write p b))) (λ _, Q) (λ _, P)) as Hw.
  { intros b Q HQ. apply fs_spec_map_err, fs_spec_change; [done|]. intros t Ht.
    destruct (t_write p b t) as [t'|] eqn:E; [|done]. apply write_ok in E as ->. by apply HQ. }
  assert (∀ Q : fstree → Prop, (∀ t, Q t → P t) →
    fs_spec Q (fs_map_err Io (os_sync fault)) (λ _, Q) (λ _, P)) as Hs.
  { intros Q HQ. apply fs_spec_map_err, fs_spec_change; [intros; by apply HQ|]. by intros. }
  eapply fs_spec_bind; [apply (Hw [] P); auto|]. intros u1.
  eapply fs_spec_bind; [apply (Hw c (λ t, P t ∧ t !! p = Some (NFile c)))|].
  { intros t Ht. split; [auto|apply lookup_insert_eq]. }
  intros u2. eapply fs_spec_bind; [apply Hs; by intros t []|]. intros u3. apply Hs. by intros t [].
Qed.

(** The live metadata file of a tree, decoded. *)
Definition live_at (t : fstree) (raw : option bytes) : Prop :=
  match t !! live with
  | None => raw = None ∧ existing = []
  | Some (NFile b) => raw = Some b ∧ decode_all rmp_from_slice xxh64 b = Ok existing
  | Some NDir => False
  end.

Context (t0 : fstree) (raw : option bytes).
Context (Hlive : live_at t0 raw).

Definition intact (t : fstree) : Prop := same before t0 t.

Lemma intact_live t : intact t → t !! live = t0 !! live.
Proof. intros H. apply H. by right. Qed.

Lemma read_live_spec : fs_spec intact (read_live fault rmp_from_slice xxh64 dv dp)
  (λ r t, r = (raw, existing) ∧ intact t) (λ _, intact).
Proof.
  unfold read_live. eapply (fs_spec_match _ _ (λ b t, t0 !! live = Some (NFile b) ∧ intact t)
    (λ er t, (io_kind er = KindNotFound → t0 !! live = None) ∧ intact t)).
  - apply fs_spec_query; [intros t msg Ht; by split|]. intros t Ht. unfold t_read.
    change (meta_path dv dp) with live. rewrite (intact_live _ Ht). by destruct (t0 !! live) as [[]|].
  - intros b. apply fs_spec_pre. intros t [Hb Ht]. unfold live_at in Hlive. rewrite Hb in Hlive.
    destruct Hlive as [-> Hd]. unfold xl_decode_all. rewrite Hd. cbn.
    intros d Htd. exists (Ok (Some b, existing)), d. rewrite Htd. done.
  - intros er. apply fs_spec_pre. intros t [Hb Ht]. destruct (io_kind er) eqn:Ek;
      try (apply fs_spec_err; by intros ? ->).
    apply fs_spec_ret. intros ? ->. unfold live_at in Hlive. rewrite (Hb eq_refl) in Hlive.
    destruct Hlive as [-> ->]. done.
Qed.

Lemma require_dst_spec : fs_spec (λ t, t = t0) (require_vol fault dv) (λ _, intact) (λ _, intact).
Proof.
  assert (framed before (require_vol fault dv)) as Hrv.
  { apply require_vol_framed. intros q Hq H. apply (before_dst q Hq). etrans; [exact H|]. by exists (segments dp). }
  eapply fs_spec_weaken; [apply (Hrv t0)|by intros t -> q|by intros ? t Ht|by intros ? t Ht].
Qed.

(** A version that cannot be encoded is refused before anything is written. *)
Lemma rename_data_refused er : encode_versions rmp_to_vec xxh64 (merge_versions existing fi dv dp) = Some (Err er) →
  fs_spec (λ t, t = t0) (rename_data fault rmp_to_vec rmp_from_slice xxh64 sv sp fi dv dp)
    (λ _ _, False) (λ _, intact).
Proof.
  intros Henc. unfold rename_data. rewrite Hsys. cbn [negb].
  eapply fs_spec_bind; [apply require_dst_spec|].
  intros u1. eapply fs_spec_bind; [apply read_live_spec|]. intros [raw' ex']. cbn [fst snd].
  apply fs_spec_pre. intros t [[= -> ->] Ht].
  eapply (fs_spec_bind _ _ (λ _ _, False)); [|by intros a d []].
  intros d Htd. unfold fs_encode. rewrite Henc. exists (Err er), d. by rewrite Htd.
Qed.

Context (e : EncodedXlMeta).
Context (Henc : encode_versions rmp_to_vec xxh64 (merge_versions existing fi dv dp) = Some (Ok e)).

Definition staged_ok (t : fstree) : Prop := intact t ∧ t !! staged_meta = Some (NFile (to_vec e)).
Definition backed_up (t : fstree) : Prop := prior_of existing fi ≠ None → t !! backup = t0 !! live.
Definition committed (t : fstree) : Prop :=
  same untouched t0 t ∧ t !! live = Some (NFile (to_vec e)) ∧ backed_up t ∧ t !! dst = Some NDir.

Lemma create_dir_all_staged : framed before (os_create_dir_all fault staged).
Proof. apply framed_create_dir_all. intros q Hq. by apply before_staged. Qed.

Lemma intact_insert t p b : intact t → (∀ q, before q → q ≠ p) → intact (<[p := NFile b]> t).
Proof. intros Ht Hp q Hq. rewrite lookup_insert_ne; [by apply Ht|]. intros ->. by apply (Hp _ Hq). Qed.

Lemma staged_meta_outside : (∀ r, staged_meta ≠ dst ++ r) ∧ ¬ staged_meta `prefix_of` dst.
Proof.
  split.
  - intros r H. apply (dst_outside_staged [META_FILENAME]). unfold staged_meta in H. rewrite H. by exists r.
  - intros H. apply (staged_outside_dst []). rewrite app_nil_r. etrans; [|exact H]. by exists [META_FILENAME].
Qed.

(** Steps that touch neither the live file nor the staged one. *)
Lemma staged_ok_framed {A : Type} (m : Fs IoError A) :
  framed before m → framed (λ q, q = staged_meta) m → fs_spec staged_ok m (λ _, staged_ok) (λ _, intact).
Proof.
  intros H1 H2. eapply fs_spec_weaken; [apply fs_spec_and; [apply (H1 t0)|apply framed_at, H2]|intros t Ht; exact Ht|intros a t Ht; exact Ht|].
  by intros ? t [? _].
Qed.

Lemma graft_spec (has_dd : bool) : fs_spec staged_ok
  (if has_dd then
     fs_bind (fs_map_err Io (os_create_dir_all fault dst)) (λ _,
       fs_map_err Io (os_rename fault (staged ++ [data_dir fi]) grafted))
   else fs_ret ()) (λ _, staged_ok) (λ _, intact).
Proof.
  destruct staged_meta_outside as [Ho Hp]. destruct has_dd; [|by apply fs_spec_ret].
  apply staged_ok_framed; apply framed_bind; try intros u; apply framed_map_err;
    [apply framed_create_dir_all|apply framed_rename|apply framed_create_dir_all|apply framed_rename].
  - apply before_dst.
  - intros q Hq. split; [|by apply before_grafted]. intros [r ->]. rewrite <-app_assoc in Hq.
    by apply (before_under_staged _ ([data_dir fi] ++ r) Hq).
  - by intros q ->.
  - intros q ->. split.
    + intros H%snoc_prefix_inv. by destruct Hdd.
    + intros [r Hr]. unfold grafted in Hr. rewrite <-app_assoc in Hr. by apply Ho in Hr.
Qed.

Lemma backup_spec : fs_spec staged_ok
  (match prior_of existing fi, raw with
   | Some _, Some b =>
       fs_bind (fs_map_err Io (os_create_dir_all fault dst)) (λ _, write_synced fault backup b)
   | _, _ => fs_ret ()
   end) (λ _ t, staged_ok t ∧ backed_up t) (λ _, intact).
Proof.
  destruct staged_meta_outside as [Ho Hp].
  destruct (prior_of existing fi) as [r|] eqn:Ep; [|apply fs_spec_ret; intros t Ht; split; [done|]; intros H; by rewrite Ep in H].
  destruct raw as [b|] eqn:Er.
  2: { exfalso. unfold live_at in Hlive. destruct (t0 !! live) as [[]|]; [done|by destruct Hlive|].
       destruct Hlive as [_ ->]. done. }
  eapply fs_spec_bind.
  - apply staged_ok_framed; apply framed_map_err, framed_create_dir_all; [apply before_dst|by intros q ->].
  - intros u. eapply fs_spec_weaken; [apply (write_synced_spec backup b staged_ok)|done| |].
    + intros t [H1 H2] c. split.
      * apply intact_insert; [done|]. intros q Hq. apply before_backup; [done|]. by rewrite Ep.
      * rewrite lookup_insert_ne; [done|]. intros H. by apply (Ho [META_BACKUP_FILENAME]).
    + intros _ t [Hs Hb]. split; [done|]. intros _. rewrite Hb. unfold live_at in Hlive.
      destruct (t0 !! live) as [[]|]; [done| |by destruct Hlive]. destruct Hlive as [[= ->] _]. done.
    + by intros ? t [? _].
Qed.

Lemma commit_spec : fs_spec (λ t, (staged_ok t ∧ backed_up t) ∧ t !! dst = Some NDir)
  (fs_map_err Io (os_rename fault staged_meta live)) (λ _, committed) (λ _, intact).
Proof.
  destruct staged_meta_outside as [Ho Hp].
  apply fs_spec_map_err, fs_spec_change; [by intros t ? [[[? _] _] _]|]. intros t [[[Hi Hs] Hb] Hd].
  destruct (t_rename staged_meta live t) as [t'|] eqn:E; [|done]. pose proof E as E'.
  apply rename_ok in E as [[E _]|[Hnp ->]]; [by apply Ho in E|]. split_and!.
  - intros q Hq. rewrite lookup_move by done. rewrite !decide_False; [by apply Hi; left| |by apply Hq].
    intros H. destruct Hq as [Hq _]. apply Hq. etrans; [|exact H]. by exists [META_FILENAME].
  - rewrite lookup_move by done. rewrite decide_True by done. rewrite drop_all. by rewrite app_nil_r.
  - intros Hpr. rewrite lookup_move by done. rewrite !decide_False; [by apply Hb| |].
    + intros H. apply (staged_outside_dst [META_BACKUP_FILENAME]). etrans; [|exact H]. by exists [META_FILENAME].
    + by intros H%snoc_prefix_inv.
  - rewrite lookup_move by done. rewrite !decide_False; [done|done|apply snoc_not_prefix].
Qed.

Lemma mkdir_dst_spec : fs_spec (λ t, staged_ok t ∧ backed_up t) (fs_map_err Io (os_create_dir_all fault dst))
  (λ _ t, (staged_ok t ∧ backed_up t) ∧ t !! dst = Some NDir) (λ _, intact).
Proof.
  destruct staged_meta_outside as [Ho Hp].
  apply fs_spec_map_err, fs_spec_change; [by intros t ? [[? _] _]|]. intros t [[Hi Hs] Hb].
  destruct (t_create_dir_all [] dst t) as [t'|] eqn:E; [|done].
  assert (∀ q, ¬ q `prefix_of` dst → t' !! q = t !! q) as Hsame.
  { intros q Hq. rewrite (t_create_dir_all_lookup _ _ _ _ _ E). rewrite bool_decide_false; [done|]. by intros (_ & _ & ?). }
  split; [split; [split|]|].
  - intros q Hq. rewrite Hsame by by apply before_dst. by apply Hi.
  - by rewrite Hsame.
  - intros Hpr. rewrite Hsame by apply snoc_not_prefix. by apply Hb.
  - apply create_dir_all_dir in E. unfold dst, file_path, dir_at in *. by apply bool_decide_eq_true in E.
Qed.

Lemma rmdir_staged_spec : fs_spec committed (os_remove_dir fault staged) (λ _, committed) (λ _, committed).
Proof.
  apply fs_spec_change; [done|]. intros t (Hu & Hl & Hb & Hd).
  destruct (t_remove_dir staged t) as [t'|] eqn:E; [|done].
  assert (∀ q, q ≠ staged → t' !! q = t !! q) as Hsame.
  { intros q Hq. unfold t_remove_dir in E. destruct (t !! staged) as [[]|]; [|done..].
    destruct (inhabited t staged); [done|]. injection E as <-. by rewrite lookup_delete_ne. }
  assert (∀ r, dst ++ r ≠ staged) as Hne.
  { intros r H. apply (staged_outside_dst r). by rewrite H. }
  split_and!.
  - intros q Hq. rewrite Hsame; [by apply Hu|]. intros ->. by destruct Hq as [Hq _].
  - rewrite Hsame by apply Hne. done.
  - intros Hpr. rewrite Hsame by apply Hne. by apply Hb.
  - rewrite <-Hd. apply Hsame. specialize (Hne []). by rewrite app_nil_r in Hne.
Qed.

Lemma rename_data_lemma : fs_spec (λ t, t = t0)
  (rename_data fault rmp_to_vec rmp_from_slice xxh64 sv sp fi dv dp)
  (λ resp t, committed t ∧ resp = {| sign := []; old_data_dir := old_data_dir_of existing fi |})
  (λ _ t, intact t ∨ committed t).
Proof.
  unfold rename_data. rewrite Hsys. cbn [negb].
  assert (∀ A (P : fstree → Prop) (m : Fs IoError A) Q, fs_spec P m Q (λ _, intact) →
    fs_spec P m Q (λ _ t, intact t ∨ committed t)) as Hl.
  { intros A P m Q Hm. eapply fs_spec_weaken; [exact Hm|done|done|]. intros ? t ?. by left. }
  eapply fs_spec_bind; [apply Hl, require_dst_spec|].
  intros u1. eapply fs_spec_bind; [apply Hl, read_live_spec|]. intros [raw' ex']. cbn [fst snd].
  apply fs_spec_pre. intros t [[= -> ->] Ht].
  eapply (fs_spec_bind _ _ (λ enc t, enc = e ∧ intact t)).
  { intros d Htd. unfold fs_encode. rewrite Henc. exists (Ok e), d. rewrite Htd. done. }
  intros enc. apply fs_spec_pre. intros t1 [-> Ht1].
  eapply (fs_spec_bind _ _ (λ _, intact)).
  { apply Hl, fs_spec_map_err. eapply fs_spec_weaken; [apply (create_dir_all_staged t0)|by intros ? ->|by intros ? ? ?..]. }
  intros u2. eapply fs_spec_bind; [apply Hl; apply (write_synced_spec staged_meta (to_vec e) intact)|].
  { intros t2 Ht2 b. apply intact_insert; [done|]. intros q Hq. by apply before_under_staged. }
  intros u3. fold staged_ok.
  eapply (fs_spec_bind _ _ (λ _, staged_ok)).
  { destruct (decide (data_dir fi = "")); [by apply fs_spec_ret|]. apply Hl.
    eapply fs_spec_match; [apply fs_spec_query with (Q := λ _, staged_ok) (R := λ _, staged_ok); [done|]| |].
    - intros t2 Ht2. by destruct (t_is_dir _ t2).
    - intros a. by apply fs_spec_ret.
    - intros er. by apply fs_spec_ret. }
  intros has_dd. eapply fs_spec_bind; [apply Hl, (graft_spec has_dd)|].
  intros u4. eapply fs_spec_bind; [apply Hl, backup_spec|].
  intros u5. eapply (fs_spec_bind _ _ (λ _ t, (staged_ok t ∧ backed_up t) ∧ t !! dst = Some NDir)).
  { apply Hl, mkdir_dst_spec. }
  intros u6. eapply fs_spec_bind; [apply Hl, commit_spec|]. intros u7.
  eapply (fs_spec_bind _ _ (λ _, committed)).
  { apply fs_spec_map_err, fs_spec_change; [intros; by right|]. by intros. }
  intros u8. eapply (fs_spec_bind _ _ (λ _, committed)).
  { apply fs_spec_ignore, rmdir_staged_spec. }
  intros u9. by apply fs_spec_ret.
Qed.

(** ** Lemmas: undo *)

Definition undo : DeleteOptions := {| force_del_marker := false; undo_write := true |}.
Definition outside_undo (q : path) : Prop :=
  ¬ backup `prefix_of` q ∧ ¬ live `prefix_of` q ∧ ¬ grafted `prefix_of` q ∧ ¬ [TRASH_DIRNAME] `prefix_of` q.

Lemma move_to_trash_spec (P : fstree → Prop) target (Q : unit → fstree → Prop) (R : StdIoError → fstree → Prop) :
  (∀ n, fs_spec P (os_rename fault target [TRASH_DIRNAME; n]) Q R) → fs_spec P (move_to_trash fault fresh_name target) Q R.
Proof. intros H d Hd. unfold move_to_trash. by apply H. Qed.

Context (Htrash : dv ≠ TRASH_DIRNAME).

Lemma trash_outside_dst n r : ¬ [TRASH_DIRNAME; n] `prefix_of` (dst ++ r).
Proof. apply other_root. congruence. Qed.

Lemma undo_restores_lemma t1 b : t1 !! backup = Some (NFile b) → t1 !! dst = Some NDir →
  fs_spec (λ t, t = t1) (delete_version fault fresh_name rmp_from_slice xxh64 dv dp fi undo)
    (λ _ t, t !! live = Some (NFile b) ∧ same outside_undo t1 t)
    (λ _ t, t = t1 ∨ (t !! live = Some (NFile b) ∧ same outside_undo t1 t)).
Proof.
  intros Hb Hd. unfold delete_version. cbn [undo undo_write negb].
  set (done_ := λ t : fstree, t !! live = Some (NFile b) ∧ same outside_undo t1 t).
  assert (¬ backup `prefix_of` live) as Hbl by by intros H%snoc_prefix_inv.
  eapply (fs_spec_match _ _ (λ _, done_) (λ e t, t = t1 ∧ io_kind e ≠ KindNotFound)).
  - apply fs_spec_change; [intros t msg ->; done|]. intros t ->.
    destruct (t_rename _ _ t1) as [t'|er] eqn:E.
    2: { split; [done|]. unfold t_rename in E. fold dst live backup in E. rewrite Hb in E. unfold live in E. rewrite parent_snoc in E. fold live in E.
         change (dir_at t1 dst) with (bool_decide (t1 !! dst = Some NDir)) in E.
         rewrite bool_decide_true in E by done. cbn [negb] in E. rewrite decide_False in E by done.
         destruct (t1 !! live) as [[]|]; [injection E as <-; done|done|done]. }
    apply rename_ok in E as [[E _]|[_ ->]]; [by apply app_inj_2 in E as [_ E]|]. split.
    + rewrite lookup_move by done. rewrite decide_True by done. by rewrite drop_all, app_nil_r.
    + intros q (H1 & H2 & _). rewrite lookup_move by done. by rewrite !decide_False.
  - intros u1. eapply (fs_spec_bind _ _ (λ _, done_)).
    { apply fs_spec_map_err, fs_spec_change; [intros; by right|]. by intros. }
    intros u2. case_decide; [by apply fs_spec_ret|]. apply fs_spec_ignore, move_to_trash_spec. intros n.
    apply fs_spec_change; [done|]. intros t [Hl Hs]. destruct (t_rename _ _ t) as [t'|] eqn:E; [|done].
    apply rename_ok in E as [[_ ->]|[Hnp ->]]; [done|]. split.
    + rewrite lookup_move by done. rewrite !decide_False; [done| |apply trash_outside_dst].
      intros Hx%snoc_prefix_inv. by destruct Hdd.
    + intros q Hq. rewrite lookup_move by done. destruct Hq as (H1 & H2 & H3 & H4). rewrite !decide_False; [by apply Hs|done|].
      intros Hx. apply H4. etrans; [|exact Hx]. by exists [n].
  - intros er. apply fs_spec_pre. intros t [-> Hk].
    destruct (io_kind er); try done; apply fs_spec_err; intros ? ->; by left.
Qed.

(** Without a backup the undo removes the object with all its versions. *)
Lemma undo_discards_lemma t1 : is_system_vol dv = false → t1 !! backup = None → t1 !! dst = Some NDir →
  fs_spec (λ t, t = t1) (delete_version fault fresh_name rmp_from_slice xxh64 dv dp fi undo)
    (λ _ t, ∀ q, dst `prefix_of` q → t !! q = None) (λ _ _, True).
Proof.
  intros Hns Hb Hd. unfold delete_version. cbn [undo undo_write negb].
  eapply (fs_spec_match _ _ (λ _ _, False) (λ e t, t = t1)).
  - apply fs_spec_change; [done|]. intros t ->. unfold t_rename. fold dst backup. by rewrite Hb.
  - intros u. by intros d [].
  - intros er. destruct (io_kind er); try (by apply fs_spec_err).
    unfold delete. eapply (fs_spec_bind _ _ (λ _ t, t = t1)).
    { unfold require_vol. rewrite Hns. eapply (fs_spec_match _ _ (λ _ t, t = t1) (λ _ t, t = t1)).
      - apply fs_spec_query; [done|]. intros t ->. by destruct (t_is_dir _ t1).
      - intros []; [by apply fs_spec_ret|by apply fs_spec_err].
      - intros er'. by apply fs_spec_err. }
    intros u1. eapply (fs_spec_bind _ _ (λ b t, b = true ∧ t = t1)).
    { apply fs_spec_map_err, fs_spec_query; [done|]. intros t ->. unfold t_is_dir.
      change (file_path dv dp) with dst. by rewrite Hd. }
    intros b. apply fs_spec_pre. intros t [-> ->]. apply fs_spec_map_err, move_to_trash_spec. intros n.
    apply fs_spec_change; [done|]. intros t ->. destruct (t_rename _ _ t1) as [t'|] eqn:E; [|done].
    apply rename_ok in E as [[E _]|[Hnp ->]].
    { exfalso. unfold file_path in E. congruence. }
    intros q [r ->]. rewrite lookup_move by done. rewrite decide_False by apply trash_outside_dst.
    rewrite decide_True; [done|]. by exists r.
Qed.
End promote.

(** ** What a promoted metadata file holds *)

Definition recount (n : nat) (r : DecodedRecord) : DecodedRecord :=
  {| dr_version_id := dr_version_id r; dr_data_dir := dr_data_dir r; dr_deleted := dr_deleted r;
     dr_size := dr_size r; dr_mod_time_ms := dr_mod_time_ms r; dr_metadata := dr_metadata r;
     dr_meta_sys := dr_meta_sys r; dr_erasure := dr_erasure r; dr_parts := dr_parts r;
     dr_inline := dr_inline r; dr_num_versions := as_i32 n |}.

Lemma record_of_decoded tail r n v p : sound_record tail r → record_of n (file_info_from_record r v p) = recount n r.
Proof.
  intros Hs. unfold record_of, recount, payload. cbn. f_equal.
  destruct (dr_inline r) as [fs|] eqn:E; cbn; [|done].
  destruct (sr_inline _ _ Hs _ E) as (q & off & -> & Hne & _). cbn. rewrite app_nil_r. by rewrite decide_False.
Qed.

Lemma live_sound rmp_from_slice xxh64 dv dp existing t raw :
  (∀ b m, rmp_from_slice b = Ok m → Forall typed_version m) →
  live_at rmp_from_slice xxh64 dv dp existing t raw → ∃ tail, Forall (sound_record tail) existing.
Proof.
  intros Ht. unfold live_at. destruct (t !! _) as [[|b]|]; [done| |intros [_ ->]; by exists []].
  intros [_ Hd]. destruct (decode_all_sound _ _ _ _ Ht Hd) as (body & tail & _ & _ & _ & _ & Hs). by exists tail.
Qed.

Lemma merge_versions_perm existing fi dv dp :
  merge_versions existing fi dv dp ≡ₚ
    ((λ r, file_info_from_record r dv dp) <$> filter (λ r, dr_version_id r ≠ version_id fi) existing) ++ [fi].
Proof. apply sort_by_perm. Qed.

Lemma merge_versions_canonical tail existing fi dv dp :
  Forall (sound_record tail) existing → canonical fi → Forall canonical (merge_versions existing fi dv dp).
Proof.
  intros Hs Hc. rewrite merge_versions_perm. apply Forall_app. split; [|by apply Forall_singleton].
  apply Forall_fmap, Forall_forall. intros r [_ Hr]%list_elem_of_filter. rewrite Forall_forall in Hs.
  destruct (Hs r Hr). by split.
Qed.

Lemma merge_versions_NoDup existing fi dv dp :
  NoDup (dr_version_id <$> existing) → NoDup (version_id <$> merge_versions existing fi dv dp).
Proof.
  intros Hn. rewrite merge_versions_perm, fmap_app, <-list_fmap_compose. apply NoDup_app. split_and!.
  - induction existing as [|r rs IH]; [constructor|]. rewrite fmap_cons in Hn. apply NoDup_cons in Hn as [Hr Hn].
    rewrite filter_cons. case_decide; [|by apply IH]. rewrite fmap_cons. constructor; [|by apply IH].
    intros Hin. apply list_elem_of_fmap in Hin as (r' & Heq & Hf). apply list_elem_of_filter in Hf as [_ Hr']. apply Hr, list_elem_of_fmap. exists r'. by split; [exact Heq|].
  - intros v Hv Hs. apply list_elem_of_fmap in Hv as (r & Heq & Hf). apply list_elem_of_filter in Hf as [Hne _].
    apply list_elem_of_singleton in Hs. by rewrite Heq in Hs.
  - apply NoDup_singleton.
Qed.

(** C7.  Promotion of a staged version, under any pattern of I/O failures, over a
    live metadata file that decodes, when the merged records can be encoded and
    fit the lengths of their frame.
    [rename_data] does not panic and leaves every path outside the staging
    directory, the new data directory and the object's metadata as it was.  On
    success the live metadata file is the new one, in which the promoted version
    is found as given and every version with another identifier exactly as
    before, the replaced data directory being reported; on an error the live
    file is the old one or the new one, never anything else. *)
Theorem rename_data_commits fault rmp_to_vec rmp_from_slice xxh64 sv sp fi dv dp d raw existing e :
  (∀ m b, rmp_to_vec m = Ok b → rmp_from_slice b = Ok m) →
  (∀ b m, rmp_from_slice b = Ok m → Forall typed_version m) →
  is_system_vol sv = true → sv ≠ dv →
  data_dir fi ≠ META_FILENAME ∧ data_dir fi ≠ META_BACKUP_FILENAME →
  live_at rmp_from_slice xxh64 dv dp existing (tree d) raw →
  NoDup (dr_version_id <$> existing) → canonical fi →
  let merged := merge_versions existing fi dv dp in
  encode_versions rmp_to_vec xxh64 merged = Some (Ok e) →
  (Z.of_nat (length (xl_head e)) < u32_mod)%Z → (Z.of_nat (encoded_len e) < u64_mod)%Z →
  ∃ r d', rename_data fault rmp_to_vec rmp_from_slice xxh64 sv sp fi dv dp d = Some (r, d')
    ∧ same (untouched sv sp fi dv dp existing) (tree d) (tree d')
    ∧ match r with
      | Ok resp =>
          tree d' !! meta_path dv dp = Some (NFile (to_vec e))
          ∧ old_data_dir resp = old_data_dir_of existing fi
          ∧ find_version rmp_from_slice xxh64 (to_vec e) (version_id fi) = Ok (Some (record_of (length merged) fi))
          ∧ ∀ v, v ∈ existing → dr_version_id v ≠ version_id fi →
              find_version rmp_from_slice xxh64 (to_vec e) (dr_version_id v) = Ok (Some (recount (length merged) v))
      | Err _ => tree d' !! meta_path dv dp = tree d !! meta_path dv dp
                 ∨ tree d' !! meta_path dv dp = Some (NFile (to_vec e))
      end.
Proof.
  intros Hrt Hty Hsys Hvol Hdd Hlive Hnd Hcan merged Henc Hl1 Hl2.
  destruct (live_sound _ _ _ _ _ _ _ Hty Hlive) as (tail & Hsound).
  pose proof (merge_versions_canonical tail existing fi dv dp Hsound Hcan) as Hmc.
  pose proof (merge_versions_NoDup existing fi dv dp Hnd) as Hmn.
  assert (∀ f, f ∈ merged → find_version rmp_from_slice xxh64 (to_vec e) (version_id f) = Ok (Some (record_of (length merged) f))) as Hfind.
  { intros f Hf. by apply (find_version_encoded rmp_to_vec). }
  destruct (rename_data_lemma fault rmp_to_vec rmp_from_slice xxh64 sv sp fi dv dp Hsys Hvol Hdd existing (tree d) raw Hlive e Henc d eq_refl)
    as (r & d' & Hr & Hpost). exists r, d'. split; [done|]. destruct r as [resp|err].
  - destruct Hpost as [(Hu & Hl & _) ->]. split; [done|]. split_and!; [done..| |].
    + apply Hfind. unfold merged. rewrite merge_versions_perm. apply elem_of_app. right. by apply list_elem_of_singleton.
    + intros v Hv Hne. rewrite Forall_forall in Hsound. rewrite <-(record_of_decoded tail v _ dv dp) by by apply Hsound.
      apply (Hfind (file_info_from_record v dv dp)). unfold merged. rewrite merge_versions_perm. apply elem_of_app. left.
      apply list_elem_of_fmap. exists v. split; [done|]. by apply list_elem_of_filter.
  - destruct Hpost as [Hi|(Hu & Hl & _)]; [|by split; [|right]]. split.
    + intros q Hq. apply Hi. by left.
    + left. apply Hi. by right.
Qed.

(** C23.  A promotion that replaced a version can be undone: after a successful
    [rename_data] over a version with the same identifier, a successful
    [delete_version] with [undo_write] brings back the metadata file as it was
    before, byte for byte, and every path outside the object's metadata, the new
    data directory, the staging directory and the trash is as before. *)
Theorem undo_restores fault fresh_name rmp_to_vec rmp_from_slice xxh64 sv sp fi dv dp d raw existing e resp d1 d2 :
  is_system_vol sv = true → sv ≠ dv → dv ≠ TRASH_DIRNAME →
  data_dir fi ≠ META_FILENAME ∧ data_dir fi ≠ META_BACKUP_FILENAME →
  live_at rmp_from_slice xxh64 dv dp existing (tree d) raw →
  encode_versions rmp_to_vec xxh64 (merge_versions existing fi dv dp) = Some (Ok e) →
  prior_of existing fi ≠ None →
  rename_data fault rmp_to_vec rmp_from_slice xxh64 sv sp fi dv dp d = Some (Ok resp, d1) →
  delete_version fault fresh_name rmp_from_slice xxh64 dv dp fi undo d1 = Some (Ok (), d2) →
  tree d2 !! meta_path dv dp = tree d !! meta_path dv dp
  ∧ same (λ q, untouched sv sp fi dv dp existing q ∧ outside_undo fi dv dp q) (tree d) (tree d2).
Proof.
  intros Hsys Hvol Htr Hdd Hlive Henc Hprior Hren Hund.
  pose proof (fs_spec_elim _ _ _ _ _ _ _ (rename_data_lemma fault rmp_to_vec rmp_from_slice xxh64 sv sp fi dv dp
    Hsys Hvol Hdd existing (tree d) raw Hlive e Henc) eq_refl Hren) as [(Hu & Hl & Hb & Hd) _].
  specialize (Hb Hprior). unfold live_at in Hlive. unfold meta_path.
  destruct (tree d !! (file_path dv dp ++ [META_FILENAME])) as [[|b]|] eqn:El; [done| |by destruct Hlive as [_ ->]].
  pose proof (fs_spec_elim _ _ _ _ _ _ _ (undo_restores_lemma fault fresh_name rmp_from_slice xxh64 fi dv dp Hdd Htr
    (tree d1) b Hb Hd) eq_refl Hund) as [Hl2 Hs2].
  split; [done|]. intros q [Hq1 Hq2]. rewrite Hs2 by done. by apply Hu.
Qed.

(** C34.  A promotion that added a version cannot be undone safely: when no
    version had its identifier, no backup is written, and the undo then removes
    the object's whole directory, so that versions committed long before are
    gone from the drive with everything they refer to. *)
Theorem undo_destroys_versions fault fresh_name rmp_to_vec rmp_from_slice xxh64 sv sp fi dv dp d raw existing e resp d1 d2 :
  is_system_vol sv = true → sv ≠ dv → dv ≠ TRASH_DIRNAME → is_system_vol dv = false →
  data_dir fi ≠ META_FILENAME ∧ data_dir fi ≠ META_BACKUP_FILENAME →
  live_at rmp_from_slice xxh64 dv dp existing (tree d) raw →
  encode_versions rmp_to_vec xxh64 (merge_versions existing fi dv dp) = Some (Ok e) →
  prior_of existing fi = None → tree d !! (file_path dv dp ++ [META_BACKUP_FILENAME]) = None →
  rename_data fault rmp_to_vec rmp_from_slice xxh64 sv sp fi dv dp d = Some (Ok resp, d1) →
  delete_version fault fresh_name rmp_from_slice xxh64 dv dp fi undo d1 = Some (Ok (), d2) →
  ∀ q, file_path dv dp `prefix_of` q → tree d2 !! q = None.
Proof.
  intros Hsys Hvol Htr Hns Hdd Hlive Henc Hprior Hnb Hren Hund.
  pose proof (fs_spec_elim _ _ _ _ _ _ _ (rename_data_lemma fault rmp_to_vec rmp_from_slice xxh64 sv sp fi dv dp
    Hsys Hvol Hdd existing (tree d) raw Hlive e Henc) eq_refl Hren) as [(Hu & Hl & _ & Hd) _].
  assert (tree d1 !! (file_path dv dp ++ [META_BACKUP_FILENAME]) = None) as Hb.
  { rewrite <-Hnb. apply Hu. split_and!.
    - by apply other_root.
    - apply other_root. congruence.
    - apply snoc_not_prefix.
    - intros H%snoc_prefix_inv. by destruct Hdd.
    - done.
    - by intros H%snoc_prefix_inv. }
  exact (fs_spec_elim _ _ _ _ _ _ _ (undo_discards_lemma fault fresh_name rmp_from_slice xxh64 fi dv dp Htr
    (tree d1) Hns Hb Hd) eq_refl Hund).
Qed.

(** ** Evaluation *)

Definition first_put : FileInfo := sample_version (sample_uuid xaa) 7 [[x01; x02]].
Definition second_put : FileInfo := sample_version (sample_uuid xbb) 9 [[x03]].
Definition again_put : FileInfo := sample_version (sample_uuid xaa) 8 [[x04; x05; x06]].

Definition back (n : nat) (fi : FileInfo) : FileInfo := file_info_from_record (record_of n fi) "b" "k".
Definition put_table : list OnDiskMeta :=
  [records_for [first_put]; records_for [second_put; back 1 first_put]; records_for [again_put]].
Definition put_to_vec := table_to_vec put_table.
Definition put_from_slice := table_from_slice put_table.
Definition no_fault (n : nat) : option string := None.
Definition name_of (n : nat) : string := pretty n.
Definition drive_of (d : Disk) : LocalDrive :=
  {| ld_fault := no_fault; ld_name := name_of; ld_root := "/d0"; ld_disk := d;
     ld_statvfs := λ _, Ok {| f_frsize := 4096; f_blocks := 100; f_bavail := 40; f_files := 20; f_favail := 5 |} |}.

Definition empty_drive : Disk :=
  {| tree := <[["b"] := NDir]> (<[[STAGING_VOL] := NDir]> {[[TRASH_DIRNAME] := NDir]}); ticks := 0 |}.
Definition promote (fi : FileInfo) (d : Disk) : option (IoResult RenameDataResp * Disk) :=
  rename_data no_fault put_to_vec put_from_slice sum_hash STAGING_VOL "s" fi "b" "k" d.
Definition disk_of {E A : Type} (o : option (result E A * Disk)) : Disk := match o with Some (_, d) => d | None => empty_drive end.
Definition drive1 : Disk := Eval vm_compute in disk_of (promote first_put empty_drive).
Definition drive2 : Disk := Eval vm_compute in disk_of (promote second_put drive1).
Definition drive3 : Disk := Eval vm_compute in disk_of (promote again_put drive1).
Definition undone (fi : FileInfo) (d : Disk) : option (IoResult unit * Disk) :=
  delete_version no_fault name_of put_from_slice sum_hash "b" "k" fi undo d.

Example promote_runs :
  (fst <$> promote first_put empty_drive, fst <$> promote second_put drive1, fst <$> promote again_put drive1)
  = (Some (Ok {| sign := []; old_data_dir := "" |}), Some (Ok {| sign := []; old_data_dir := "" |}),
     Some (Ok {| sign := []; old_data_dir := "" |})).
Proof. vm_compute. reflexivity. Qed.

(** A walk visits the names of each directory in order, which is not the order of
    the keys: [a/x] comes before [a-b]. *)
Definition promote_at (key : string) (d : Disk) : Disk :=
  disk_of (rename_data no_fault put_to_vec put_from_slice sum_hash STAGING_VOL "s" first_put "b" key d).
Lemma walk_order_differs :
  (∃ rs d', walk_dir no_fault put_from_slice sum_hash "b" "" true None None "" (promote_at "a-b" (promote_at "a/x" empty_drive))
     = Some (Ok rs, d') ∧ rs.*1 = ["a/x"; "a-b"]) ∧ String.compare "a-b" "a/x" = Lt.
Proof. split; [|reflexivity]. eexists _, _. split; vm_compute; reflexivity. Qed.

Definition raw1 : bytes := Eval vm_compute in
  match tree drive1 !! meta_path "b" "k" with Some (NFile b) => b | _ => [] end.
Definition versions1 : list DecodedRecord := [record_of 1 first_put].
Definition encoded_for (vs : list FileInfo) : EncodedXlMeta :=
  match encode_versions put_to_vec sum_hash vs with Some (Ok e) => e | _ => {| xl_head := []; xl_tail := [] |} end.
Definition encoded2 : EncodedXlMeta := encoded_for (merge_versions versions1 second_put "b" "k").
Definition encoded3 : EncodedXlMeta := encoded_for (merge_versions versions1 again_put "b" "k").

Lemma live_drive1 : live_at put_from_slice sum_hash "b" "k" versions1 (tree drive1) (Some raw1).
Proof. vm_compute. split; reflexivity. Qed.

Lemma canonical_second : canonical second_put.
Proof. split; [right; by exists (replicate 16 xbb)|by left]. Qed.

Lemma rename_data_commits_witness :
  ∃ r d', promote second_put drive1 = Some (r, d')
    ∧ same (untouched STAGING_VOL "s" second_put "b" "k" versions1) (tree drive1) (tree d').
Proof.
  destruct (rename_data_commits no_fault put_to_vec put_from_slice sum_hash STAGING_VOL "s" second_put "b" "k" drive1
    (Some raw1) versions1 encoded2 (table_codec_roundtrip _) (table_codec_typed _)) as (r & d' & H1 & H2 & _).
  - reflexivity.
  - discriminate.
  - split; discriminate.
  - exact live_drive1.
  - apply NoDup_singleton.
  - exact canonical_second.
  - vm_compute. reflexivity.
  - vm_compute. reflexivity.
  - vm_compute. reflexivity.
  - exists r, d'. split; [exact H1|exact H2].
Defined.

Lemma undo_restores_witness :
  tree (disk_of (undone again_put drive3)) !! meta_path "b" "k" = tree drive1 !! meta_path "b" "k".
Proof.
  refine (proj1 (undo_restores no_fault name_of put_to_vec put_from_slice sum_hash STAGING_VOL "s" again_put "b" "k" drive1
    (Some raw1) versions1 encoded3 {| sign := []; old_data_dir := "" |} drive3 (disk_of (undone again_put drive3))
    _ _ _ _ _ _ _ _ _)).
  - reflexivity.
  - discriminate.
  - discriminate.
  - split; discriminate.
  - exact live_drive1.
  - vm_compute. reflexivity.
  - vm_compute. discriminate.
  - vm_compute. reflexivity.
  - vm_compute. reflexivity.
Defined.

Lemma undo_destroys_versions_witness :
  tree drive1 !! meta_path "b" "k" = Some (NFile raw1)
  ∧ tree (disk_of (undone second_put drive2)) !! meta_path "b" "k" = None.
Proof.
  split; [vm_compute; reflexivity|].
  apply (undo_destroys_versions no_fault name_of put_to_vec put_from_slice sum_hash STAGING_VOL "s" second_put "b" "k" drive1
    (Some raw1) versions1 encoded2 {| sign := []; old_data_dir := "" |} drive2 (disk_of (undone second_put drive2))).
  - reflexivity.
  - discriminate.
  - discriminate.
  - reflexivity.
  - split; discriminate.
  - exact live_drive1.
  - vm_compute. reflexivity.
  - vm_compute. reflexivity.
  - vm_compute. reflexivity.
  - vm_compute. reflexivity.
  - vm_compute. reflexivity.
  - by exists [META_FILENAME].
Defined.
