(* ===== verification/Backend.v ===== *)
(** * The storage backend trait

    [StorageBackend] of [openlake_io/src/backend.rs] as a class: the calls a
    drive answers, wherever it is.  [LocalDrive_backend] is the local instance
    ([LocalFsBackend] of [local_fs.rs]); the streams and sinks over the files of
    a local drive are instances of the stream classes.  [Call] lists the calls of
    the trait as data, so that a theorem can speak of all of them at once.

    The calls for the format file have a class of their own; [label] only names
    the drive in messages. *)

From stdpp Require Import base gmap strings sorting pretty list.
From S2P Require Import Prelude Text Types Streams XlMeta Fs LocalFs.

Abbreviation call B A := (B → option (IoResult A * B)).

(** [UpdateMetadataOpts]. *)
Record UpdateMetadataOpts := { no_persistence : bool }.

Class StorageBackend (B : Type) := {
  sb_disk_info : call B DiskInfo;
  sb_make_vol : string → call B unit;
  sb_list_vols : call B (list VolInfo);
  sb_stat_vol : string → call B VolInfo;
  sb_delete_vol : string → bool → call B unit;
  sb_list_dir : string → string → nat → call B (list string);
  sb_rename_file : string → string → string → string → call B unit;
  sb_check_file : string → string → call B unit;
  sb_delete : string → string → bool → call B unit;
  sb_delete_batch : string → list string → bool → call B (list (IoResult unit));
  sb_write_metadata : string → string → string → FileInfo → call B unit;
  sb_read_version : string → string → string → option string → bool → call B FileInfo;
  sb_walk_dir : string → string → bool → string → option string → option nat → call B (list (string * FileInfo));
  sb_update_metadata : string → string → FileInfo → UpdateMetadataOpts → call B unit;
  sb_delete_version : string → string → FileInfo → bool → DeleteOptions → call B unit;
  sb_rename_data : string → string → FileInfo → string → string → call B RenameDataResp;
  sb_verify_file : string → string → FileInfo → call B unit;
  sb_write_file : string → string → bytes → call B unit;
  sb_read_file : string → string → call B (option bytes);
  sb_make_dir_all : string → string → call B unit
}.

(** ** Local drives *)

Section local.
Context (rmp_to_vec : OnDiskMeta → result string bytes).
Context (rmp_from_slice : bytes → result string OnDiskMeta).
Context (xxh64 : bytes → Z).

Definition LocalDrive_backend : StorageBackend LocalDrive := {|
  sb_disk_info := λ b, Some (disk_info (ld_root b) (ld_statvfs b (ticks (ld_disk b))), b);
  sb_make_vol := λ v b, on_disk (make_vol (ld_fault b) v) b;
  sb_list_vols := λ b, on_disk (list_vols (ld_fault b)) b;
  sb_stat_vol := λ v b, on_disk (stat_vol (ld_fault b) v) b;
  sb_delete_vol := λ v force b, on_disk (delete_vol (ld_fault b) (ld_name b) v force) b;
  sb_list_dir := λ v dir count b, on_disk (list_dir (ld_fault b) v dir count) b;
  sb_rename_file := λ sv sp dv dp b, on_disk (rename_file (ld_fault b) sv sp dv dp) b;
  sb_check_file := λ v p b, on_disk (check_file (ld_fault b) v p) b;
  sb_delete := λ v p rec b, on_disk (LocalFs.delete (ld_fault b) (ld_name b) v p rec) b;
  sb_delete_batch := λ v ps _ b, on_disk (delete_batch (ld_fault b) (ld_name b) rmp_from_slice xxh64 v ps) b;
  sb_write_metadata := λ _ v p fi b, on_disk (write_metadata (ld_fault b) (ld_name b) rmp_to_vec xxh64 v p fi) b;
  sb_read_version := λ _ v p vid rd b, on_disk (read_version (ld_fault b) rmp_from_slice xxh64 v p vid rd) b;
  sb_walk_dir := λ v base rec prefix after max b,
    on_disk (walk_dir (ld_fault b) rmp_from_slice xxh64 v prefix rec after max base) b;
  sb_update_metadata := λ v p fi _ b, on_disk (update_metadata (ld_fault b) (ld_name b) rmp_to_vec xxh64 v p fi) b;
  sb_delete_version := λ v p fi _ opts b,
    on_disk (delete_version (ld_fault b) (ld_name b) rmp_from_slice xxh64 v p fi opts) b;
  sb_rename_data := λ sv sp fi dv dp b,
    on_disk (rename_data (ld_fault b) rmp_to_vec rmp_from_slice xxh64 sv sp fi dv dp) b;
  sb_verify_file := λ v p fi b, on_disk (verify_file (ld_fault b) v p fi) b;
  sb_write_file := λ v p c b, on_disk (write_file (ld_fault b) (ld_name b) v p c) b;
  sb_read_file := λ v p b, on_disk (read_file (ld_fault b) v p) b;
  sb_make_dir_all := λ v p b, on_disk (make_dir_all (ld_fault b) v p) b
|}.
End local.

(** ** The calls as data *)

Inductive Call : Type → Type :=
  | CDiskInfo : Call DiskInfo
  | CMakeVol (v : string) : Call unit
  | CListVols : Call (list VolInfo)
  | CStatVol (v : string) : Call VolInfo
  | CDeleteVol (v : string) (force : bool) : Call unit
  | CListDir (v dir : string) (count : nat) : Call (list string)
  | CRenameFile (sv sp dv dp : string) : Call unit
  | CCheckFile (v p : string) : Call unit
  | CDelete (v p : string) (recursive : bool) : Call unit
  | CDeleteBatch (v : string) (ps : list string) (recursive : bool) : Call (list (IoResult unit))
  | CWriteMetadata (ov v p : string) (fi : FileInfo) : Call unit
  | CReadVersion (ov v p : string) (vid : option string) (read_data : bool) : Call FileInfo
  | CWalkDir (v base : string) (recursive : bool) (prefix : string) (after : option string) (max : option nat) :
      Call (list (string * FileInfo))
  | CUpdateMetadata (v p : string) (fi : FileInfo) (opts : UpdateMetadataOpts) : Call unit
  | CDeleteVersion (v p : string) (fi : FileInfo) (force : bool) (opts : DeleteOptions) : Call unit
  | CRenameData (sv sp : string) (fi : FileInfo) (dv dp : string) : Call RenameDataResp
  | CVerifyFile (v p : string) (fi : FileInfo) : Call unit
  | CWriteFile (v p : string) (content : bytes) : Call unit
  | CReadFile (v p : string) : Call (option bytes)
  | CMakeDirAll (v p : string) : Call unit.

Definition run_call {B} `{StorageBackend B} {A} (c : Call A) : call B A :=
  match c with
  | CDiskInfo => sb_disk_info
  | CMakeVol v => sb_make_vol v
  | CListVols => sb_list_vols
  | CStatVol v => sb_stat_vol v
  | CDeleteVol v force => sb_delete_vol v force
  | CListDir v dir count => sb_list_dir v dir count
  | CRenameFile sv sp dv dp => sb_rename_file sv sp dv dp
  | CCheckFile v p => sb_check_file v p
  | CDelete v p rec => sb_delete v p rec
  | CDeleteBatch v ps rec => sb_delete_batch v ps rec
  | CWriteMetadata ov v p fi => sb_write_metadata ov v p fi
  | CReadVersion ov v p vid rd => sb_read_version ov v p vid rd
  | CWalkDir v base rec prefix after max => sb_walk_dir v base rec prefix after max
  | CUpdateMetadata v p fi opts => sb_update_metadata v p fi opts
  | CDeleteVersion v p fi force opts => sb_delete_version v p fi force opts
  | CRenameData sv sp fi dv dp => sb_rename_data sv sp fi dv dp
  | CVerifyFile v p fi => sb_verify_file v p fi
  | CWriteFile v p content => sb_write_file v p content
  | CReadFile v p => sb_read_file v p
  | CMakeDirAll v p => sb_make_dir_all v p
  end.

(** ** Files as streams and sinks

    The file is addressed by its path: no other call moves it while it is open. *)

Definition STREAM_CHUNK_BYTES : Z := 4 * 1024 * 1024.

(** [pread] and [pwrite]; a write past the end fills the gap with zeros. *)
Definition t_read_at (p : path) (pos want : nat) (t : fstree) : result StdIoError bytes :=
  (λ c, take want (drop pos c)) <$> t_read p t.
Definition padded (pos : nat) (c : bytes) : bytes := take pos c ++ replicate (pos - length c) x00.
Definition t_write_at (p : path) (pos : nat) (b : bytes) (t : fstree) : result StdIoError fstree :=
  c ← t_read p t; Ok (<[p := NFile (padded pos c ++ b ++ drop (pos + length b) c)]> t).

Record LocalFileStream := { lf_drive : LocalDrive; lf_path : path; lf_pos : nat; lf_end : nat }.

(** [LocalFileStream::read]. *)
Definition local_read (s : LocalFileStream) : option (IoResult bytes * LocalFileStream) :=
  let want := Z.to_nat (Z.min (Z.of_nat (lf_end s - lf_pos s)) STREAM_CHUNK_BYTES) in
  if want =? 0 then Some (Ok [], s)
  else
    '(r, b) ← on_disk (fs_map_err Io (query (ld_fault (lf_drive s)) (t_read_at (lf_path s) (lf_pos s) want))) (lf_drive s);
    match r with
    | Err e => Some (Err e, {| lf_drive := b; lf_path := lf_path s; lf_pos := lf_pos s; lf_end := lf_end s |})
    | Ok c => Some (Ok c, {| lf_drive := b; lf_path := lf_path s; lf_pos := lf_pos s + length c; lf_end := lf_end s |})
    end.

Definition read_file_stream (v p : string) (offset len : nat) (b : LocalDrive) :
    option (IoResult LocalFileStream * LocalDrive) :=
  match on_disk (fs_bind (require_vol (ld_fault b) v) (λ _,
      fs_map_err (λ e, map_open_err e v p) (query (ld_fault b) (t_read (file_path v p))))) b with
  | None => None
  | Some (Err e, b) => Some (Err e, b)
  | Some (Ok _, b) => Some (Ok {| lf_drive := b; lf_path := file_path v p; lf_pos := offset; lf_end := offset + len |}, b)
  end.

(** [sk_open]: [file] is [Some]. *)
Record LocalFileSink := { sk_drive : LocalDrive; sk_path : path; sk_open : bool; sk_pos : nat;
                          sk_expected : nat; sk_written : nat }.

(** A call of the operating system on the sink's drive. *)
Definition sink_call (f : fstree → result StdIoError fstree) (k : LocalFileSink) : IoResult unit * LocalDrive :=
  match on_disk (fs_map_err Io (change (ld_fault (sk_drive k)) f)) (sk_drive k) with
  | Some x => x
  | None => (Ok (), sk_drive k)
  end.

Definition sink_write_all (buf : bytes) (k : LocalFileSink) : IoResult unit * LocalFileSink :=
  if length buf =? 0 then (Ok (), k)
  else if negb (sk_open k) then (Err (Io (io_error_other "write after finish")), k)
  else
    let '(r, b) := sink_call (t_write_at (sk_path k) (sk_pos k) buf) k in
    let n := if is_ok r then length buf else 0 in
    (r, {| sk_drive := b; sk_path := sk_path k; sk_open := true; sk_pos := sk_pos k + n;
           sk_expected := sk_expected k; sk_written := sk_written k + n |}).

(** [file.take()] comes before [sync_all] and [close]. *)
Definition sink_finish (k : LocalFileSink) : IoResult unit * LocalFileSink :=
  if negb (sk_written k =? sk_expected k) then
    (Err (eof_error "create_file_writer: wrote " (sk_written k) (sk_expected k)), k)
  else if sk_open k then
    let closed b := {| sk_drive := b; sk_path := sk_path k; sk_open := false; sk_pos := sk_pos k;
                       sk_expected := sk_expected k; sk_written := sk_written k |} in
    match sink_call Ok k with
    | (Err e, b) => (Err e, closed b)
    | (Ok _, b) => let '(r, b) := sink_call Ok (closed b) in (r, closed b)
    end
  else (Ok (), k).

Definition create_file_writer (v p : string) (size : nat) (b : LocalDrive) :
    option (IoResult LocalFileSink * LocalDrive) :=
  match on_disk (fs_bind (require_vol (ld_fault b) v) (λ _,
      fs_bind (fs_map_err Io (os_create_dir_all (ld_fault b) (parent (file_path v p)))) (λ _,
      fs_map_err (λ e, map_open_err e v p) (os_create (ld_fault b) (file_path v p))))) b with
  | None => None
  | Some (Err e, b) => Some (Err e, b)
  | Some (Ok _, b) => Some (Ok {| sk_drive := b; sk_path := file_path v p; sk_open := true; sk_pos := 0;
                                  sk_expected := size; sk_written := 0 |}, b)
  end.

(** ** Lemmas: files *)

Definition file_at (b : LocalDrive) (p : path) : option bytes :=
  match tree (ld_disk b) !! p with Some (NFile c) => Some c | _ => None end.
(** No call of the drive fails from now on. *)
Definition healthy (b : LocalDrive) : Prop := ∀ k, ticks (ld_disk b) ≤ k → ld_fault b k = None.

Lemma file_at_read b p c : file_at b p = Some c ↔ t_read p (tree (ld_disk b)) = Ok c.
Proof. unfold file_at, t_read. destruct (_ !! p) as [[]|]; naive_solver. Qed.

(** A query of a drive: an injected error, or the answer; the tree stays. *)
Lemma on_disk_query {A} (f : fstree → result StdIoError A) b :
  ∃ r b', on_disk (fs_map_err Io (query (ld_fault b) f)) b = Some (r, b')
    ∧ tree (ld_disk b') = tree (ld_disk b) ∧ (healthy b → healthy b' ∧ r = map_err Io (f (tree (ld_disk b))))
    ∧ (∀ a, r = Ok a → f (tree (ld_disk b)) = Ok a).
Proof.
  unfold on_disk, fs_map_err, fs_match, query, os_call, healthy. destruct (ld_fault b (ticks (ld_disk b))) as [msg|] eqn:E.
  - eexists _, _. split; [done|]. split_and!; [done| |done]. intros H. rewrite H in E by done. done.
  - destruct (f (tree (ld_disk b))) as [a|e] eqn:Ef; cbn; eexists _, _; (split; [done|]); split_and!; cbn; try done.
    1,3: (intros H; split; [intros k Hk; apply H; lia|done]). by intros a' [= <-].
Qed.

Lemma on_disk_change (f : fstree → result StdIoError fstree) b :
  ∃ r b', on_disk (fs_map_err Io (change (ld_fault b) f)) b = Some (r, b')
    ∧ match r with Ok _ => f (tree (ld_disk b)) = Ok (tree (ld_disk b')) | Err _ => tree (ld_disk b') = tree (ld_disk b) end.
Proof.
  unfold on_disk, fs_map_err, fs_match, change, os_call. destruct (ld_fault b (ticks (ld_disk b))) as [msg|] eqn:E.
  - by eexists _, _.
  - destruct (f (tree (ld_disk b))) as [a|e] eqn:Ef; cbn; by eexists _, _.
Qed.

Lemma sink_call_spec f k : let '(r, b) := sink_call f k in
  match r with Ok _ => f (tree (ld_disk (sk_drive k))) = Ok (tree (ld_disk b))
             | Err _ => tree (ld_disk b) = tree (ld_disk (sk_drive k)) end.
Proof. unfold sink_call. destruct (on_disk_change f (sk_drive k)) as (r & b & -> & H). done. Qed.

Lemma length_padded pos c : length (padded pos c) = pos.
Proof. unfold padded. rewrite length_app, length_take, length_replicate. lia. Qed.

(** What the sink has put into its file. *)
Definition sink_content (k : LocalFileSink) : bytes := padded (sk_pos k) (default [] (file_at (sk_drive k) (sk_path k))).

Lemma sink_write_all_ok b k k' : sink_write_all b k = (Ok (), k') → sink_content k' = sink_content k ++ b.
Proof.
  unfold sink_write_all. destruct (Nat.eqb_spec (length b) 0) as [Hb|Hb].
  { intros [= <-]. apply nil_length_inv in Hb as ->. by rewrite app_nil_r. }
  destruct (sk_open k); [|done]. cbn [negb]. pose proof (sink_call_spec (t_write_at (sk_path k) (sk_pos k) b) k) as Hs.
  destruct (sink_call _ k) as [[[]|e] b']; [|done]. intros [= <-]. unfold sink_content. cbn [sk_pos sk_drive sk_path is_ok].
  unfold t_write_at in Hs. destruct (t_read _ _) as [c|] eqn:Ec; [|done]. cbn in Hs. injection Hs as Hs.
  apply file_at_read in Ec. rewrite Ec. unfold file_at. rewrite <-Hs, lookup_insert_eq. cbn [default id].
  set (q := padded (sk_pos k) c). assert (length q = sk_pos k) as Hq by apply length_padded.
  unfold padded at 1. rewrite !length_app, Hq.
  replace (sk_pos k + length b - _) with 0 by lia. rewrite app_nil_r, app_assoc.
  rewrite take_app_length'; [done|]. rewrite length_app. lia.
Qed.

#[global] Program Instance LocalFileSink_sink : ByteSink LocalFileSink := {|
  write_all := sink_write_all;
  finish := sink_finish;
  written := sink_content
|}.
Next Obligation. intros b k k' H. by apply sink_write_all_ok. Qed.

Lemma window_step (c : bytes) pos e want : want ≤ e - pos →
  let chunk := take want (drop pos c) in
  take (e - pos) (drop pos c) = chunk ++ take (e - (pos + length chunk)) (drop (pos + length chunk) c).
Proof.
  intros Hw chunk. unfold chunk. rewrite <-drop_drop. set (l := drop pos c).
  rewrite <-(take_drop want l) at 1. rewrite take_app, length_take.
  destruct (Nat.le_ge_cases (length l) want) as [Hl|Hl].
  - rewrite Nat.min_r, (take_ge l want), !(drop_ge l), take_nil, take_nil, !app_nil_r, take_ge by lia. done.
  - rewrite Nat.min_l by done. rewrite (take_ge (take want l)) by (rewrite length_take; lia). do 2 f_equal. lia.
Qed.

Lemma chunk_bound n : Z.to_nat (Z.min (Z.of_nat n) STREAM_CHUNK_BYTES) ≤ n ∧
  (Z.to_nat (Z.min (Z.of_nat n) STREAM_CHUNK_BYTES) = 0 → n = 0).
Proof. unfold STREAM_CHUNK_BYTES. split; lia. Qed.

(** What is left of the file's window. *)
Definition left_of (s : LocalFileStream) (c : bytes) : bytes := take (lf_end s - lf_pos s) (drop (lf_pos s) c).

(** A read of a window of a file: an error, or the next bytes of it. *)
Lemma local_read_spec s c : file_at (lf_drive s) (lf_path s) = Some c →
  ∃ r s', local_read s = Some (r, s') ∧ file_at (lf_drive s') (lf_path s') = Some c
    ∧ (healthy (lf_drive s) → healthy (lf_drive s') ∧ is_ok r = true)
    ∧ ∀ chunk, r = Ok chunk → left_of s c = chunk ++ left_of s' c ∧ (chunk = [] → left_of s c = []).
Proof.
  intros Hc. unfold local_read. destruct (chunk_bound (lf_end s - lf_pos s)) as [Hle Hz].
  set (want := Z.to_nat _) in *. destruct (Nat.eqb_spec want 0) as [Hw|Hw].
  { exists (Ok []), s. split; [done|]. split; [done|]. split; [done|]. intros chunk [= <-]. unfold left_of.
    by rewrite (Hz Hw), take_0. }
  destruct (on_disk_query (t_read_at (lf_path s) (lf_pos s) want) (lf_drive s)) as (r & b' & -> & Ht & Hh & Hok).
  cbn [mbind option_bind]. unfold t_read_at in *. pose proof Hc as Hr. apply file_at_read in Hr. rewrite Hr in *. cbn in *.
  destruct r as [a|e].
  - injection (Hok a eq_refl) as <-. eexists _, _. split; [done|]. cbn. split_and!.
    + unfold file_at in *. by rewrite Ht.
    + intros H. by destruct (Hh H).
    + intros chunk [= <-]. unfold left_of. cbn. split; [by apply window_step|]. intros Hn.
      assert (drop (lf_pos s) c = []) as ->; [|by rewrite take_nil]. destruct (drop (lf_pos s) c); [done|]. by destruct want.
  - eexists _, _. split; [done|]. cbn. split_and!; [unfold file_at in *; by rewrite Ht| |done].
    intros H. destruct (Hh H) as [_ [=]].
Qed.

#[global] Program Instance LocalFileStream_stream : ByteStream LocalFileStream := {|
  read := local_read;
  yields s bs := healthy (lf_drive s) ∧ ∃ c, file_at (lf_drive s) (lf_path s) = Some c ∧ bs = left_of s c;
  serves s bs := ∃ c, file_at (lf_drive s) (lf_path s) = Some c ∧ left_of s c `prefix_of` bs
|}.
Next Obligation.
  intros s bs (Hh & c & Hc & ->). destruct (local_read_spec s c Hc) as (r & s' & E & Hc' & Hok & Hr).
  destruct (Hok Hh) as [Hh' Hk]. destruct r as [chunk|]; [|done]. destruct (Hr chunk eq_refl) as [Hl Hn].
  exists chunk, (left_of s' c), s'. split; [done|]. split; [done|]. split; [by split; [|exists c]|]. intros ->.
  rewrite Hn in Hl by done. by destruct (left_of s' c).
Qed.
Next Obligation.
  intros s bs (c & Hc & [rest ->]). destruct (local_read_spec s c Hc) as (r & s' & E & Hc' & _ & Hr).
  exists r, s'. split; [done|]. intros chunk -> _. destruct (Hr chunk eq_refl) as [Hl _].
  exists (left_of s' c ++ rest). rewrite Hl, <-app_assoc. split; [done|]. exists c. split; [done|]. by exists rest.
Qed.

(** ** Properties *)

(** The bytes pushed into a sink, chunk by chunk; the first error ends it. *)
Fixpoint push_all {K} `{ByteSink K} (chunks : list bytes) (k : K) : IoResult unit * K :=
  match chunks with
  | [] => (Ok (), k)
  | c :: chunks => match write_all c k with (Ok _, k) => push_all chunks k | (Err e, k) => (Err e, k) end
  end.

Lemma push_all_written {K} `{ByteSink K} chunks (k k' : K) :
  push_all chunks k = (Ok (), k') → written k' = written k ++ concat chunks.
Proof.
  revert k. induction chunks as [|c chunks IH]; intros k; cbn; [intros [= ->]; by rewrite app_nil_r|].
  destruct (write_all c k) as [[[]|] k1] eqn:E; [|done]. intros H1%IH. rewrite H1, (write_all_ok _ _ _ E). by rewrite app_assoc.
Qed.

(** The sink's bookkeeping: it has written as far as its position, and its file is no longer than that. *)
Definition sink_ok (k : LocalFileSink) : Prop :=
  sk_written k = sk_pos k ∧ ∃ c, file_at (sk_drive k) (sk_path k) = Some c ∧ length c = sk_pos k.

Lemma sink_ok_content k c : sink_ok k → file_at (sk_drive k) (sk_path k) = Some c → sink_content k = c.
Proof.
  intros (_ & c' & Hc & Hl) Hc'. rewrite Hc in Hc'. injection Hc' as <-. unfold sink_content. rewrite Hc. cbn. unfold padded.
  rewrite take_ge by lia. replace (_ - _) with 0 by lia. by rewrite app_nil_r.
Qed.

Lemma sink_write_keeps b k r k' : sink_ok k → sink_write_all b k = (r, k') →
  sink_ok k' ∧ sk_path k' = sk_path k ∧ sk_expected k' = sk_expected k.
Proof.
  intros (Hw & c & Hc & Hl). unfold sink_write_all. destruct (Nat.eqb_spec (length b) 0) as [Hb|Hb].
  { intros [= <- <-]. split_and!; [|done..]. split; [done|]. by exists c. }
  destruct (sk_open k) eqn:Eo; cbn [negb]; [|intros [= <- <-]; split_and!; [split; [done|by exists c]|done..]].
  pose proof (sink_call_spec (t_write_at (sk_path k) (sk_pos k) b) k) as Hs.
  destruct (sink_call _ k) as [r' b']. intros [= <- <-]. split; [|done].
  destruct r' as [u|e]; cbn.
  - unfold t_write_at in Hs. pose proof Hc as Hr. apply file_at_read in Hr. rewrite Hr in Hs. cbn in Hs. injection Hs as Hs.
    split; cbn; [lia|]. unfold file_at. rewrite <-Hs, lookup_insert_eq. eexists. split; [done|].
    rewrite !length_app, length_padded, length_drop. lia.
  - split; cbn; [lia|]. exists c. unfold file_at in *. rewrite Hs. split; [done|]. cbn. lia.
Qed.

Lemma push_keeps chunks (k k' : LocalFileSink) r : sink_ok k → push_all chunks k = (r, k') →
  sink_ok k' ∧ sk_path k' = sk_path k ∧ sk_expected k' = sk_expected k.
Proof.
  revert k. induction chunks as [|c chunks IH]; intros k Hk; cbn; [by intros [= <- <-]|].
  destruct (sink_write_all c k) as [r1 k1] eqn:E. destruct (sink_write_keeps _ _ _ _ Hk E) as (Hk1 & Hp & He).
  destruct r1 as [[]|]; [|by intros [= <- <-]]. intros H1. destruct (IH k1 Hk1 H1) as (H2 & H3 & H4). by rewrite H3, H4.
Qed.

Lemma sink_finish_spec k k' c : sink_ok k → file_at (sk_drive k) (sk_path k) = Some c → sink_finish k = (Ok (), k') →
  length c = sk_expected k ∧ file_at (sk_drive k') (sk_path k) = Some c.
Proof.
  intros (Hw & c' & Hc & Hl) Hc'. rewrite Hc in Hc'. injection Hc' as <-. unfold sink_finish.
  destruct (Nat.eqb_spec (sk_written k) (sk_expected k)) as [He|]; [|done]. cbn [negb].
  destruct (sk_open k); [|intros [= <-]; split; [lia|done]].
  pose proof (sink_call_spec Ok k) as H1. destruct (sink_call Ok k) as [[u|e] b1]; [|done].
  set (k1 := Build_LocalFileSink _ _ _ _ _ _).
  pose proof (sink_call_spec Ok k1) as H2. destruct (sink_call Ok k1) as [[[]|e] b2]; [|done].
  intros [= <-]. injection H1 as H1. injection H2 as H2. split; [lia|]. unfold file_at in *. cbn in *. by rewrite <-H2, <-H1.
Qed.

Lemma create_file_writer_spec v p sz b k b' : create_file_writer v p sz b = Some (Ok k, b') →
  sink_ok k ∧ sink_content k = [] ∧ sk_path k = file_path v p ∧ sk_expected k = sz.
Proof.
  unfold create_file_writer. set (m := fs_bind _ _).
  assert (fs_spec (λ _, True) m (λ _ t, t !! file_path v p = Some (NFile [])) (λ _ _, True)) as Hm.
  { assert (∀ (E A : Type) (m : Fs E A), framed (λ _, False) m → fs_spec (λ _, True) m (λ _ _, True) (λ _ _, True)) as Hf.
    { intros E A m' H. eapply fs_spec_weaken; [apply (H ∅)|by intros t _ q []|done|done]. }
    eapply fs_spec_bind; [apply Hf, require_vol_framed; done|intros u1].
    eapply fs_spec_bind; [apply Hf, framed_map_err, framed_create_dir_all; done|intros u2].
    apply fs_spec_map_err, fs_spec_change; [done|]. intros t _. destruct (t_write _ _ t) as [t'|] eqn:E; [|done].
    apply write_ok in E as ->. apply lookup_insert_eq. }
  destruct (Hm (ld_disk b) I) as (r & d & E & Hr). unfold on_disk. rewrite E. cbn.
  destruct r as [u|e]; [|done]. intros [= <- _].
  assert (file_at (set_tree d b) (file_path v p) = Some []) as Hf.
  { unfold file_at. cbn [ld_disk set_tree]. by rewrite Hr. }
  split_and!; [split; [done|by exists []]| |done..]. unfold sink_content. cbn [sk_drive sk_path sk_pos]. by rewrite Hf.
Qed.

(** Computations that only move the call counter forward. *)
Definition forward {E A} (m : Fs E A) : Prop := ∀ d r d', m d = Some (r, d') → ticks d ≤ ticks d'.

Lemma forward_call {A} fault (f : fstree → result StdIoError (A * fstree)) : forward (os_call fault f).
Proof.
  intros d r d'. unfold os_call. destruct (fault _); [intros [= _ <-]; cbn; lia|].
  destruct (f (tree d)) as [[a t]|e]; intros [= _ <-]; cbn; lia.
Qed.
Lemma forward_match {E F A B} (m : Fs E A) (ok : A → Fs F B) (err : E → Fs F B) :
  forward m → (∀ a, forward (ok a)) → (∀ e, forward (err e)) → forward (fs_match m ok err).
Proof.
  intros Hm Hok Herr d r d'. unfold fs_match. destruct (m d) as [[[a|e] d1]|] eqn:E1; [| |done]; intros H;
    (etrans; [by eapply Hm|]); [by eapply Hok|by eapply Herr].
Qed.
Lemma forward_ret {E A} (r : result E A) : forward (λ d, Some (r, d)).
Proof. by intros d r' d' [= _ <-]. Qed.

Lemma forward_require_vol fault v : forward (require_vol fault v).
Proof.
  unfold require_vol. destruct (is_system_vol v); [apply forward_match; intros; [apply forward_call|apply forward_ret..]|].
  apply forward_match; [apply forward_call|intros []; apply forward_ret|intros; apply forward_ret].
Qed.

(** Opening a file for reading leaves it as it is. *)
Lemma read_file_stream_spec v p offset len b s b' : segments p ≠ [] → read_file_stream v p offset len b = Some (Ok s, b') →
  lf_drive s = b' ∧ lf_path s = file_path v p ∧ lf_pos s = offset ∧ lf_end s = offset + len
  ∧ file_at b' (file_path v p) = file_at b (file_path v p) ∧ (healthy b → healthy b').
Proof.
  intros Hp. unfold read_file_stream. set (m := fs_bind _ _).
  assert (framed (λ q, q = file_path v p) m) as Hf.
  { apply framed_bind; [apply require_vol_framed|intros; apply framed_map_err, framed_query].
    intros q -> H%prefix_length. unfold file_path in H. destruct (segments p); [done|]. cbn in H. lia. }
  assert (forward m) as Hm.
  { apply forward_match; [apply forward_require_vol|intros u; apply forward_match; intros;
      [apply forward_call|apply forward_ret..]|intros; apply forward_ret]. }
  destruct (framed_at _ _ (tree (ld_disk b) !! file_path v p) Hf (ld_disk b) eq_refl) as (r & d & E & Hr).
  unfold on_disk. rewrite E. cbn. destruct r as [u|e]; [|done]. intros [= <- <-]. split_and!; try done.
  - unfold file_at. cbn. by rewrite Hr.
  - intros H k Hk. cbn in *. apply H. specialize (Hm _ _ _ E). lia.
Qed.

(** Writing a file through a sink, whatever calls of the drive fail: when
    opening, every push and [finish] report success, the bytes pushed are as
    many as announced and they are the content of the file.  Later, as long as
    the file is left alone and the drive has no more errors, every window that
    is opened is read back exactly; a window that reaches past the end of the
    file ends with it. *)
Theorem local_file_roundtrip (v p : string) (sz : nat) (b b1 : LocalDrive) (k k1 k2 : LocalFileSink) (chunks : list bytes)
    (offset len : nat) (b2 b3 : LocalDrive) (s : LocalFileStream) (Hpath : segments p ≠ [])
    (Hopen : create_file_writer v p sz b = Some (Ok k, b1)) (Hpush : push_all chunks k = (Ok (), k1))
    (Hfin : finish k1 = (Ok (), k2)) (Hkeep : file_at b2 (file_path v p) = file_at (sk_drive k2) (file_path v p))
    (Hhealthy : healthy b2) (Hread : read_file_stream v p offset len b2 = Some (Ok s, b3)) :
  length (concat chunks) = sz ∧ yields s (take len (drop offset (concat chunks))).
Proof.
  destruct (create_file_writer_spec _ _ _ _ _ _ Hopen) as (Hk & Hc0 & Hp & He).
  destruct (push_keeps _ _ _ _ Hk Hpush) as (Hk1 & Hp1 & He1).
  pose proof (push_all_written _ _ _ Hpush) as Hw. cbn in Hw. rewrite Hc0 in Hw. cbn in Hw.
  destruct Hk1 as (Hw1 & c & Hc & Hl). assert (sink_content k1 = c) as Hcc by (by apply sink_ok_content; [split; [|exists c]|]).
  assert (c = concat chunks) as -> by congruence.
  destruct (sink_finish_spec k1 k2 (concat chunks)) as [Hlen Hfile]; [by split; [|exists (concat chunks)]|done|done|].
  rewrite Hp1, Hp in Hfile. split; [congruence|].
  destruct (read_file_stream_spec _ _ _ _ _ _ _ Hpath Hread) as (<- & Hp3 & Hpos & Hend & Hsame & Hh).
  split; [by apply Hh|]. exists (concat chunks). split; [congruence|]. unfold left_of. rewrite Hpos, Hend. f_equal. lia.
Qed.

(** ** Evaluation *)

Definition stream_drive : LocalDrive :=
  drive_of {| tree := {[ ["b"] := NDir ]}; ticks := 0 |}.
Definition stream_run : option (LocalFileSink * LocalFileStream * LocalDrive) :=
  match create_file_writer "b" "d/part" 5 stream_drive with
  | Some (Ok k, _) =>
      match push_all [[x01; x02]; []; [x03; x04; x05]] k with
      | (Ok _, k) => match finish k with
                     | (Ok _, k) => match read_file_stream "b" "d/part" 1 9 (sk_drive k) with
                                    | Some (Ok s, b) => Some (k, s, b)
                                    | _ => None
                                    end
                     | _ => None
                     end
      | _ => None
      end
  | _ => None
  end.

Lemma local_file_roundtrip_witness : ∃ k s b, stream_run = Some (k, s, b) ∧ yields s [x02; x03; x04; x05].
Proof.
  unfold stream_run. destruct (create_file_writer "b" "d/part" 5 stream_drive) as [[[k|] b1]|] eqn:E1; [|vm_compute in E1; discriminate E1..].
  destruct (push_all [[x01; x02]; []; [x03; x04; x05]] k) as [[[]|] k1] eqn:E2; [|vm_compute in E1; injection E1 as <- <-; vm_compute in E2; discriminate E2].
  destruct (finish k1) as [[[]|] k2] eqn:E3.
  2: { vm_compute in E1; injection E1 as <- <-; vm_compute in E2; injection E2 as <-; vm_compute in E3; discriminate E3. }
  destruct (read_file_stream "b" "d/part" 1 9 (sk_drive k2)) as [[[s|] b3]|] eqn:E4.
  2-3: vm_compute in E1; injection E1 as <- <-; vm_compute in E2; injection E2 as <-; vm_compute in E3; injection E3 as <-;
       vm_compute in E4; discriminate E4.
  exists k2, s, b3. split; [reflexivity|].
  apply (local_file_roundtrip "b" "d/part" 5 stream_drive b1 k k1 k2 [[x01; x02]; []; [x03; x04; x05]] 1 9 (sk_drive k2) b3 s).
  - discriminate.
  - exact E1.
  - exact E2.
  - exact E3.
  - reflexivity.
  - vm_compute in E1; injection E1 as <- <-; vm_compute in E2; injection E2 as <-; vm_compute in E3; injection E3 as <-.
    intros n _. reflexivity.
  - exact E4.
Defined.
