(* ===== verification/Put.v ===== *)
(** * The write path of the engine

    [Engine::put_inline] of [openlake_storage/src/engine.rs] with the helpers of
    every write: [require_quorum], [build_file_info], [default_erasure_info],
    [with_per_disk_index], [single_part_info], [drain_inline_payload],
    [finalize_sinks_quorum], [promote_versions] and [cleanup_src], over any
    storage backends; local drives are one instance.  A fan-out over the drives
    of a set is a pass over the list of drives: the calls of one fan-out go to
    different drives.  MD5, UUIDs and the clock are parameters. *)

From stdpp Require Import base gmap strings sorting pretty list.
From Stdlib Require Import Strings.Ascii.
From S2P Require Import Prelude Text Types Cluster Streams Auth Body Dsync Consensus XlMeta Fs LocalFs Backend.

(** ** Quorum verdict *)

(** [std::mem::discriminant]: equal exactly for errors of the same variant. *)
Definition same_variant (a b : IoError) : bool := bool_decide (error_tag a = error_tag b).

(** The flat scan for the bucket of a variant. *)
Fixpoint bump (e : IoError) (buckets : list (nat * IoError)) : list (nat * IoError) :=
  match buckets with
  | [] => [(1, e)]
  | (c, x) :: rest => if same_variant x e then (S c, x) :: rest else (c, x) :: bump e rest
  end.
Fixpoint quorum_scan {A} (benign : IoError → bool) (rs : list (IoResult A)) (ok : nat) (buckets : list (nat * IoError)) :
    nat * list (nat * IoError) :=
  match rs with
  | [] => (ok, buckets)
  | Ok _ :: rs => quorum_scan benign rs (S ok) buckets
  | Err e :: rs =>
      if benign e then quorum_scan benign rs (S ok) buckets else quorum_scan benign rs ok (bump e buckets)
  end.
Definition require_quorum {A} (rs : list (IoResult A)) (quorum : nat) (benign : IoError → bool) : IoResult unit :=
  let '(ok, buckets) := quorum_scan benign rs 0 [] in
  if quorum <=? ok then Ok ()
  else Err (default (InvalidArgument "no results") (snd <$> max_by_key fst buckets)).

(** The sinks are dropped; what finishing them did to their drives stays. *)
Definition finalize_sinks_quorum {K} `{ByteSink K} (sinks : list K) (quorum : nat) : IoResult unit * list K :=
  let out := finish <$> sinks in
  (require_quorum out.*1 quorum (λ _, false), out.*2).

(** ** Records of a write *)

Definition DEFAULT_EC_PER_SHARD_BYTES : Z := 1024 * 1024.

Definition build_file_info (vol nm : string) (sz : Z) (etag : string) (mod_time : Z)
    (content_type : option string) (inline : option (list bytes)) (ps : list ObjectPartInfo) : FileInfo :=
  {| volume := vol; name := nm; version_id := ""; is_latest := true; deleted := false; data_dir := "";
     xl_v1 := false; mod_time_ms := mod_time; size := sz; mode := 0; written_by_version := 0;
     metadata := (match content_type with
                  | Some ct => <[CONTENT_TYPE_META_KEY := ct]>
                  | None => λ m, m
                  end) {[ETAG_META_KEY := etag]};
     meta_sys := ∅; parts := ps; erasure := ErasureInfo_default; data := inline; num_versions := 1;
     fresh := true; idx := 0; checksum := []; versioned := false |}.

Definition set_ids (vid dd : string) (fi : FileInfo) : FileInfo :=
  {| volume := volume fi; name := name fi; version_id := vid; is_latest := is_latest fi;
     deleted := deleted fi; data_dir := dd; xl_v1 := xl_v1 fi; mod_time_ms := mod_time_ms fi;
     size := size fi; mode := mode fi; written_by_version := written_by_version fi; metadata := metadata fi;
     meta_sys := meta_sys fi; parts := parts fi; erasure := erasure fi; data := data fi;
     num_versions := num_versions fi; fresh := fresh fi; idx := idx fi; checksum := checksum fi;
     versioned := versioned fi |}.
Definition set_erasure (ei : ErasureInfo) (fi : FileInfo) : FileInfo :=
  {| volume := volume fi; name := name fi; version_id := version_id fi; is_latest := is_latest fi;
     deleted := deleted fi; data_dir := data_dir fi; xl_v1 := xl_v1 fi; mod_time_ms := mod_time_ms fi;
     size := size fi; mode := mode fi; written_by_version := written_by_version fi; metadata := metadata fi;
     meta_sys := meta_sys fi; parts := parts fi; erasure := ei; data := data fi;
     num_versions := num_versions fi; fresh := fresh fi; idx := idx fi; checksum := checksum fi;
     versioned := versioned fi |}.

(** The three counts are [u8]. *)
Definition default_erasure_info (d p n : nat) : ErasureInfo :=
  {| algorithm := "ReedSolomon"; data_blocks := d; parity_blocks := p;
     block_size := ((DEFAULT_EC_PER_SHARD_BYTES * Z.of_nat d) `mod` u32_mod)%Z;
     index := 0; distribution := seq 1 n; checksums := [] |}.

Definition with_index (ei : ErasureInfo) (i : nat) : ErasureInfo :=
  {| algorithm := algorithm ei; data_blocks := data_blocks ei; parity_blocks := parity_blocks ei;
     block_size := block_size ei; index := (i + 1) mod 256; distribution := distribution ei;
     checksums := checksums ei |}.
Definition with_per_disk_index (base_fi : FileInfo) (base_erasure : ErasureInfo) (n : nat) : list FileInfo :=
  (λ i, set_erasure (with_index base_erasure i) base_fi) <$> seq 0 n.

Definition single_part_info (etag : string) (on_disk_size actual_size mod_time : Z) : list ObjectPartInfo :=
  [{| p_etag := etag; p_number := 1; p_size := on_disk_size; p_actual_size := actual_size;
      p_mod_time_ms := mod_time; p_index := []; p_checksums := ∅ |}].

(** [drain_inline_payload]: the frames and, for the digest, their bytes. *)
Fixpoint drain_frames {St} `{ByteStream St} (fuel payload_len total : nat) (frames : list bytes) (src : St) :
    option (IoResult (list bytes)) :=
  if total <? payload_len then
    match fuel with
    | 0 => None
    | S fuel =>
        '(r, src) ← read src;
        match r with
        | Err e => Some (Err e)
        | Ok [] => Some (Err (eof_error "inline put: source ended at " total payload_len))
        | Ok chunk =>
            let take_n := Nat.min (payload_len - total) (length chunk) in
            let frame := if take_n <? length chunk then take take_n chunk else chunk in
            drain_frames fuel payload_len (total + length frame) (frames ++ [frame]) src
        end
    end
  else Some (Ok frames).
Definition drain_inline_payload {St} `{ByteStream St} (md5 : bytes → string) (src : St) (payload_len : nat) :
    option (IoResult (list bytes * string)) :=
  match drain_frames payload_len payload_len 0 [] src with
  | None => None
  | Some (Err e) => Some (Err e)
  | Some (Ok frames) => Some (Ok (frames, md5 (concat frames)))
  end.

(** ** Promotion over the drives of a set *)

Section promotion.
Context {B : Type} `{StorageBackend B}.

(** A call to each drive of a list, in one fan-out. *)
Fixpoint fan {A C} (call : A → B → option (C * B)) (xs : list A) (bs : list B) : option (list C * list B) :=
  match xs, bs with
  | x :: xs, b :: bs => '(c, b) ← call x b; '(cs, bs) ← fan call xs bs; Some (c :: cs, b :: bs)
  | _, _ => Some ([], bs)
  end.

Definition cleanup_src (src_volume src_path : string) (bs : list B) : option (list B) :=
  snd <$> fan (λ (_ : unit) b, sb_delete src_volume src_path true b) (replicate (length bs) ()) bs.

(** The follow-up call to a drive whose promotion succeeded. *)
Definition undo_one (bucket key : string) (x : FileInfo * IoResult RenameDataResp) (b : B) : option (unit * B) :=
  match x.2 with
  | Ok _ => '(_, b) ← sb_delete_version bucket key x.1 false undo b; Some ((), b)
  | Err _ => Some ((), b)
  end.
Definition stale_one (bucket key : string) (x : FileInfo * IoResult RenameDataResp) (b : B) : option (unit * B) :=
  match x.2 with
  | Ok resp =>
      if bool_decide (old_data_dir resp ≠ "") && bool_decide (old_data_dir resp ≠ data_dir x.1) then
        '(_, b) ← sb_delete bucket (key +:+ "/" +:+ old_data_dir resp) true b; Some ((), b)
      else Some ((), b)
  | Err _ => Some ((), b)
  end.

Definition first_error {A} (rs : list (IoResult A)) : option IoError :=
  head (omap (λ r : IoResult A, match r with Err e => Some e | Ok _ => None end) rs).

Definition promote_versions (bs : list B) (src_volume src_path : string) (fis : list FileInfo)
    (bucket key : string) (quorum : nat) : option (StorageResult unit * list B) :=
  if negb (length fis =? length bs) then None
  else
    '(rs, bs) ← fan (λ fi b, sb_rename_data src_volume src_path fi bucket key b) fis bs;
    let successes := length (omap res_ok rs) in
    if successes <? quorum then
      '(_, bs) ← fan (undo_one bucket key) (zip fis rs) bs;
      bs ← cleanup_src src_volume src_path bs;
      Some (Err (map_bucket_or_io bucket (default (InvalidArgument "no quorum") (first_error rs))), bs)
    else
      '(_, bs) ← fan (stale_one bucket key) (zip fis rs) bs;
      bs ← cleanup_src src_volume src_path bs;
      Some (Ok (), bs).

(** The records of an inline object, one per drive. *)
Definition inline_records (parity n : nat) (bucket key : string) (sz : nat) (frames : list bytes) (etag : string)
    (mod_time : Z) (content_type : option string) (vid : string) : list FileInfo :=
  let data_shards := n - parity in
  let ps := single_part_info etag (Z.of_nat sz) (Z.of_nat sz) mod_time in
  let base := set_ids vid "" (build_file_info bucket key (Z.of_nat sz) etag mod_time content_type (Some frames) ps) in
  let ei := default_erasure_info (data_shards mod 256) (parity mod 256) (n mod 256) in
  with_per_disk_index base ei n.

(** [lock] is the guard at the fence; [staging_id] the fresh name of the staging
    directory; [parity] the cluster's default parity count. *)
Definition put_inline {St} `{ByteStream St} (md5 : bytes → string) (lock : LockGuard) (parity : nat)
    (bucket key : string) (sz : nat) (src : St) (content_type : option string) (mod_time : Z)
    (vid staging_id : string) (bs : list B) (quorum : nat) : option (StorageResult ObjectInfo * list B) :=
  let n := length bs in
  if n <? parity then None
  else
    drained ← drain_inline_payload md5 src sz;
    match drained with
    | Err e => Some (Err (SIo e), bs)
    | Ok (frames, etag) =>
        let fis := inline_records parity n bucket key sz frames etag mod_time content_type vid in
        match check lock with
        | Err e => Some (Err e, bs)
        | Ok _ =>
            '(r, bs) ← promote_versions bs STAGING_VOL staging_id fis bucket key quorum;
            match r with
            | Err e => Some (Err e, bs)
            | Ok _ =>
                Some (Ok {| oi_bucket := bucket; oi_key := key; oi_size := Z.of_nat sz; oi_etag := etag;
                            oi_storage_class := Inline; oi_modified_ms := mod_time; oi_content_type := content_type;
                            oi_version_id := vid; oi_is_delete_marker := false |}, bs)
            end
        end
    end.
End promotion.

(** A volume that is not a system volume is not the staging volume. *)
Lemma staging_ne bucket : is_system_vol bucket = false → STAGING_VOL ≠ bucket.
Proof. by intros H <-. Qed.

(** ** Lemmas: the quorum verdict *)

Definition accepted {A} (benign : IoError → bool) (r : IoResult A) : bool :=
  match r with Ok _ => true | Err e => benign e end.
(** The errors that count against the quorum. *)
Definition rejected {A} (benign : IoError → bool) (rs : list (IoResult A)) : list IoError :=
  omap (λ r : IoResult A, match r with Err e => if benign e then None else Some e | Ok _ => None end) rs.
Definition accepts {A} (benign : IoError → bool) (rs : list (IoResult A)) : nat :=
  length (filter (λ r, accepted benign r = true) rs).

Lemma quorum_scan_spec {A} benign (rs : list (IoResult A)) ok buckets :
  quorum_scan benign rs ok buckets = (ok + accepts benign rs, foldl (λ bk e, bump e bk) buckets (rejected benign rs)).
Proof.
  revert ok buckets. unfold accepts, rejected. induction rs as [|[a|e] rs IH]; intros ok bk; [by rewrite Nat.add_0_r|..]; cbn [quorum_scan];
    rewrite filter_cons, omap_cons; cbn [accepted].
  - rewrite decide_True by done. cbn [length]. rewrite IH. f_equal. lia.
  - destruct (benign e).
    + rewrite decide_True by done. cbn [length]. rewrite IH. f_equal. lia.
    + rewrite decide_False by done. by rewrite IH.
Qed.

(** The buckets hold, for each variant seen, its first error and its count. *)
Definition bucketed (seen : list IoError) (bk : list (nat * IoError)) : Prop :=
  NoDup (error_tag <$> bk.*2)
  ∧ (∀ c x, (c, x) ∈ bk → x ∈ seen ∧ c = count (error_tag x) (error_tag <$> seen))
  ∧ (∀ e, e ∈ seen → error_tag e ∈ error_tag <$> bk.*2).

Lemma bump_tags e bk :
  error_tag <$> (bump e bk).*2 =
    (error_tag <$> bk.*2) ++ if decide (error_tag e ∈ error_tag <$> bk.*2) then [] else [error_tag e].
Proof.
  induction bk as [|[c x] bk IH]; [done|]. cbn [bump]. unfold same_variant. destruct (decide (error_tag x = error_tag e)) as [He|He].
  - rewrite bool_decide_true by done. rewrite decide_True; [by rewrite app_nil_r|]. rewrite <-He. left.
  - rewrite bool_decide_false by done. rewrite !fmap_cons, IH. simpl. f_equal. f_equal.
    apply decide_ext. rewrite elem_of_cons. split; [by right|]. intros [H|H]; [by rewrite H in He|done].
Qed.

Lemma bump_elem e bk c x : NoDup (error_tag <$> bk.*2) → (c, x) ∈ bump e bk →
  (error_tag x ≠ error_tag e ∧ (c, x) ∈ bk) ∨
  (error_tag x = error_tag e ∧ ((∃ c', c = S c' ∧ (c', x) ∈ bk) ∨ (c = 1 ∧ x = e ∧ error_tag e ∉ error_tag <$> bk.*2))).
Proof.
  induction bk as [|[c0 x0] bk IH]; cbn [bump]; intros Hn Hin.
  - apply list_elem_of_singleton in Hin as [= -> ->]. right. split; [done|]. right. split_and!; [done..|]. apply not_elem_of_nil.
  - rewrite !fmap_cons in Hn. apply NoDup_cons in Hn as [Hx0 Hn]. unfold same_variant in Hin. case_bool_decide as He.
    + apply elem_of_cons in Hin as [[= -> ->]|Hin]; [right; split; [done|left; exists c0; split; [done|left]]|].
      left. split; [|by right]. intros Heq. apply Hx0. simpl. rewrite He, <-Heq.
      apply list_elem_of_fmap. exists x. split; [done|]. apply list_elem_of_fmap. by exists (c, x).
    + apply elem_of_cons in Hin as [[= -> ->]|Hin]; [left; split; [done|left]|].
      destruct (IH Hn Hin) as [[H1 H2]|[H1 [(c' & -> & H2)|(-> & -> & H2)]]].
      * left. split; [done|by right].
      * right. split; [done|]. left. exists c'. split; [done|by right].
      * right. split; [done|]. right. split_and!; [done..|]. rewrite !fmap_cons. simpl.
        intros [H|H]%elem_of_cons; [by rewrite H in He|done].
Qed.

Lemma bump_bucketed seen bk e : bucketed seen bk → bucketed (seen ++ [e]) (bump e bk).
Proof.
  intros (Hn & Hc & Hs). split_and!.
  - rewrite bump_tags. case_decide; [by rewrite app_nil_r|]. apply NoDup_app. split_and!; [done| |apply NoDup_singleton].
    intros t Ht ->%list_elem_of_singleton. done.
  - intros c x Hin. rewrite fmap_app, count_app, elem_of_app. cbn [fmap list_fmap]. rewrite count_cons.
    change (count (error_tag x) []) with 0.
    destruct (bump_elem _ _ _ _ Hn Hin) as [[Hne Hx]|[He [(c' & -> & Hx)|(-> & -> & Hno)]]].
    + destruct (Hc _ _ Hx) as [? ->]. split; [by left|]. rewrite decide_False by congruence. lia.
    + destruct (Hc _ _ Hx) as [? ->]. split; [by left|]. rewrite decide_True by done. lia.
    + split; [right; by apply list_elem_of_singleton|]. rewrite decide_True by done.
      enough (count (error_tag e) (error_tag <$> seen) = 0) by lia.
      destruct (count (error_tag e) (error_tag <$> seen)) eqn:E; [done|]. exfalso. apply Hno.
      assert (error_tag e ∈ error_tag <$> seen) as Hin' by (apply count_elem_of; lia).
      apply list_elem_of_fmap in Hin' as (y & -> & Hy). by apply Hs.
  - intros y Hy. rewrite bump_tags. apply elem_of_app. apply elem_of_app in Hy as [Hy|Hy]; [left; by apply Hs|].
    apply list_elem_of_singleton in Hy as ->. case_decide; [by left|right; by apply list_elem_of_singleton].
Qed.

Lemma buckets_spec errs seen bk : bucketed seen bk → bucketed (seen ++ errs) (foldl (λ bk e, bump e bk) bk errs).
Proof.
  revert seen bk. induction errs as [|e errs IH]; intros seen bk Hb; simpl; [by rewrite app_nil_r|].
  rewrite (cons_middle e seen errs), app_assoc. by apply IH, bump_bucketed.
Qed.

(** ** Lemmas: the payload *)

Lemma drain_frames_yields {St} `{ByteStream St} fuel len total frames (src : St) body :
  yields src body → total ≤ len → len - total ≤ fuel →
  ∃ r, drain_frames fuel len total frames src = Some r
    ∧ match r with
      | Ok fs => len - total ≤ length body ∧ concat fs = concat frames ++ take (len - total) body
      | Err e => length body < len - total ∧ e = eof_error "inline put: source ended at " (total + length body) len
      end.
Proof.
  revert total frames src body. induction fuel as [|fuel IH]; intros total frames src body Hy Ht Hf; cbn [drain_frames].
  { rewrite (proj2 (Nat.ltb_ge _ _)) by lia. eexists. split; [done|]. replace (len - total) with 0 by lia.
    rewrite take_0, app_nil_r. split; [lia|done]. }
  destruct (Nat.ltb_spec total len) as [Hlt|Hge]; cycle 1.
  { eexists. split; [done|]. replace (len - total) with 0 by lia. rewrite take_0, app_nil_r. split; [lia|done]. }
  destruct (read_yields _ _ Hy) as (chunk & rest & s' & -> & -> & Hy' & Hend). cbn [mbind option_bind].
  destruct chunk as [|c chunk0] eqn:Ec.
  { rewrite (Hend eq_refl). eexists. split; [done|]. simpl. split; [lia|]. by rewrite Nat.add_0_r. }
  rewrite <-Ec. assert (0 < length chunk) as Hpos by (rewrite Ec; simpl; lia). clear Ec Hend.
  set (k := Nat.min (len - total) (length chunk)).
  assert ((if k <? length chunk then take k chunk else chunk) = take k chunk) as ->.
  { case_bool; [done|]. to_prop. by rewrite take_ge by lia. }
  assert (length (take k chunk) = k) as Hk by (rewrite length_take; lia). rewrite Hk.
  destruct (IH (total + k) (frames ++ [take k chunk]) s' rest Hy') as (r & Hr & Hpost); [lia|lia|].
  exists r. split; [exact Hr|]. rewrite length_app. destruct r as [fs|e].
  - destruct Hpost as [H1 H2]. split; [lia|]. rewrite H2, concat_app. cbn [concat]. rewrite app_nil_r, <-app_assoc. f_equal.
    rewrite take_app_window. f_equal. f_equal. lia.
  - destruct Hpost as [H1 ->]. destruct (decide (k = length chunk)); [|lia]. split; [lia|]. f_equal. lia.
Qed.

Lemma drain_inline_payload_yields {St} `{ByteStream St} md5 (src : St) body len : yields src body →
  ∃ r, drain_inline_payload md5 src len = Some r
    ∧ match r with
      | Ok (fs, etag) => len ≤ length body ∧ concat fs = take len body ∧ etag = md5 (take len body)
      | Err e => length body < len ∧ e = eof_error "inline put: source ended at " (length body) len
      end.
Proof.
  intros Hy. unfold drain_inline_payload.
  destruct (drain_frames_yields len len 0 [] src body Hy) as (r & -> & Hr); [lia|lia|].
  rewrite Nat.sub_0_r in Hr. destruct r as [fs|e]; eexists; (split; [done|]); [|done].
  destruct Hr as [H1 H2]. by rewrite H2.
Qed.

(** A drain that succeeds stops before the end of the body, where the digest
    would be compared. *)
Lemma drain_frames_sha256 {St} `{ByteStream St} sha256 expected fuel len total frames (src : St) hasher fs :
  drain_frames fuel len total frames src = Some (Ok fs) →
  drain_frames (H := Sha256VerifyStream_stream sha256) fuel len total frames
    {| sv_inner := src; sv_expected := expected; sv_hasher := hasher; sv_eof := false |} = Some (Ok fs).
Proof.
  revert total frames src hasher. induction fuel as [|fuel IH]; intros total frames src hasher; cbn [drain_frames];
    destruct (total <? len); try done.
  cbn [read Sha256VerifyStream_stream]. unfold sha256_read at 1. cbn [sv_eof sv_inner].
  destruct (read src) as [[[[|b0 chunk]|e] src']|]; cbn [mbind option_bind]; try done. apply IH.
Qed.

(** ** Lemmas: fan-outs *)

Section fan_lemmas.
Context {B A C : Type}.

Lemma fan_spec (call : A → B → option (C * B)) (P : A → B → Prop) (Q : A → C → B → Prop) xs bs :
  (∀ x b, P x b → ∃ c b', call x b = Some (c, b') ∧ Q x c b') → Forall2 P xs bs →
  ∃ cs bs', fan call xs bs = Some (cs, bs') ∧ Forall3 Q xs cs bs'.
Proof.
  intros Hcall. induction 1 as [|x b xs bs Hb _ IH]; [exists [], []; split; [done|constructor]|].
  destruct (Hcall x b Hb) as (c & b' & E & HQ). destruct IH as (cs & bs' & Ef & HQs).
  exists (c :: cs), (b' :: bs'). cbn [fan]. rewrite E. cbn [mbind option_bind]. rewrite Ef. split; [done|]. by constructor.
Qed.
End fan_lemmas.

Lemma Forall3_zip {A B C} (Q : A → B → C → Prop) xs ys zs : Forall3 Q xs ys zs →
  Forall2 (λ xy z, Q xy.1 xy.2 z) (zip xs ys) zs.
Proof. induction 1; by constructor. Qed.

(** ** Lemmas: paths of data directories *)

Lemma uuid_no_slash b : x2f ∉ uuid_bytes b.
Proof.
  assert (∀ l, x2f ∉ concat (hex2 <$> l)) as Hh by (intros l (h & (c & -> & _)%list_elem_of_fmap & Hc)%elem_of_concat;
    apply elem_of_cons in Hc as [Hc|Hc%list_elem_of_singleton]; by destruct c).
  unfold uuid_bytes. rewrite !elem_of_app, !list_elem_of_singleton. intros H. destruct_or?; naive_solver.
Qed.

(** A path component of a data directory: none, or one that is not a metadata file. *)
Lemma canonical_segments s : canonical_id "" s → s ≠ "" → segments s = [s] ∧ s ≠ META_FILENAME ∧ s ≠ META_BACKUP_FILENAME.
Proof.
  intros [->|(b & Hl & _ & ->)] Hne; [done|]. split_and!.
  - unfold segments, format_uuid_hex. rewrite split_char_free; [by rewrite filter_cons, decide_True|].
    change "/"%char with (ascii_of_byte x2f). rewrite has_char_of_bytes. apply bool_decide_eq_false, uuid_no_slash.
  - intros H. apply (f_equal str_bytes) in H. unfold format_uuid_hex in H. rewrite str_bytes_of in H.
    apply (f_equal length) in H. rewrite !length_app, !length_hex in H. rewrite !length_take in H. simpl in H. lia.
  - intros H. apply (f_equal str_bytes) in H. unfold format_uuid_hex in H. rewrite str_bytes_of in H.
    apply (f_equal length) in H. rewrite !length_app, !length_hex in H. rewrite !length_take in H. simpl in H. lia.
Qed.

(** ** What the write path needs of a backend

    [ready fi b]: the drive can take the version [fi]; [published fi b]: [fi] is
    the latest version that a read of the object on [b] finds.  The laws say how
    the calls of a promotion move a drive from one to the other, under any
    pattern of failures. *)
Class PromotionLaws (B : Type) {HB : StorageBackend B} (sv sp bucket key : string) := {
  ready : FileInfo → B → Prop;
  published : FileInfo → B → Prop;
  rename_publishes : ∀ fi b, ready fi b → ∃ r b', sb_rename_data sv sp fi bucket key b = Some (r, b')
    ∧ ∀ resp, r = Ok resp → published fi b' ∧ canonical_id "" (old_data_dir resp);
  undo_total : ∀ fi b, is_Some (sb_delete_version bucket key fi false undo b);
  delete_total : ∀ v p b, is_Some (sb_delete v p true b);
  sweep_keeps : ∀ fi b r b', published fi b → sb_delete sv sp true b = Some (r, b') → published fi b';
  stale_keeps : ∀ fi b r b' dd, published fi b → canonical_id "" dd → dd ≠ "" → dd ≠ data_dir fi →
    sb_delete bucket (key +:+ "/" +:+ dd) true b = Some (r, b') → published fi b';
  read_published : ∀ fi b, published fi b → ∃ r b', sb_read_version "" bucket key None true b = Some (r, b')
    ∧ ∀ fi', r = Ok fi' → ∃ n, fi' = file_info_from_record (record_of n fi) bucket key
}.

Section promotion_lemmas.
Context {B : Type} {HB : StorageBackend B} (sv sp bucket key : string) {HL : PromotionLaws B sv sp bucket key}.

Lemma cleanup_total (bs : list B) : ∃ bs', cleanup_src sv sp bs = Some bs'.
Proof.
  unfold cleanup_src. destruct (fan_spec (λ (_ : unit) b, sb_delete sv sp true b) (λ _ _, True) (λ _ _ _, True)
    (replicate (length bs) ()) bs) as (cs & bs' & -> & _); [| |by eexists].
  - intros _ b _. destruct (delete_total sv sp b) as [[c b'] E]. by exists c, b'.
  - induction bs; by constructor.
Qed.

Lemma cleanup_keeps fis bs bs' : cleanup_src sv sp bs = Some bs' → Forall2 published fis bs → Forall2 published fis bs'.
Proof.
  unfold cleanup_src. intros Hc Hp. apply fmap_Some in Hc as ([cs bs2] & Hf & ->). simpl.
  revert cs bs2 Hf. induction Hp as [|fi b fis bs Hb _ IH]; intros cs bs2; cbn [length replicate fan].
  { intros [= <- <-]. constructor. }
  intros ([r b'] & Hd & Hf)%bind_Some. cbn in Hf. apply bind_Some in Hf as ([cs3 bs3] & Hf & [= <- <-]).
  constructor; [by eapply sweep_keeps|by eapply IH].
Qed.

(** What a promotion of [fis] leaves on the drives. *)
Definition promoted (fi : FileInfo) (r : IoResult RenameDataResp) (b : B) : Prop :=
  ∀ resp, r = Ok resp → published fi b ∧ canonical_id "" (old_data_dir resp).

Lemma undo_fan_total xs (bs : list B) : length xs = length bs →
  ∃ us bs', fan (undo_one bucket key) xs bs = Some (us, bs').
Proof.
  intros Hl. destruct (fan_spec (undo_one bucket key) (λ _ _, True) (λ _ _ _, True) xs bs) as (us & bs' & -> & _); [| |by eexists _, _].
  - intros [fi [resp|e]] b _; unfold undo_one; cbn; [|by eexists _, _].
    destruct (undo_total fi b) as [[c b'] ->]. by eexists _, _.
  - apply Forall2_same_length_lookup_2; [done|]. done.
Qed.

Lemma stale_fan_spec xs (bs : list B) :
  Forall2 (λ x b, promoted x.1 x.2 b ∧ is_ok x.2 = true) xs bs →
  ∃ us bs', fan (stale_one bucket key) xs bs = Some (us, bs') ∧ Forall2 published xs.*1 bs'.
Proof.
  intros Hx. edestruct (fan_spec (stale_one bucket key)) with (Q := λ (x : FileInfo * IoResult RenameDataResp) (_ : unit) b, published x.1 b) (2 := Hx)
    as (us & bs' & Hf & H3).
  - intros [fi [resp|e]] b [Hp Hok]; [|done]. destruct (Hp resp eq_refl) as [Hpub Hcan]. unfold stale_one; cbn [fst snd].
    destruct (_ && _) eqn:Hb; [|by eexists _, _]. apply andb_prop in Hb as [Hb%bool_decide_eq_true Hb'%bool_decide_eq_true].
    destruct (delete_total bucket (key +:+ "/" +:+ old_data_dir resp) b) as [[c b'] E]. rewrite E. eexists _, _. split; [done|].
    by eapply stale_keeps.
  - exists us, bs'. split; [done|]. clear -H3. induction H3; by constructor.
Qed.

Lemma all_ok (rs : list (IoResult RenameDataResp)) :
  length rs ≤ length (omap res_ok rs) → Forall (λ r, is_ok r = true) rs.
Proof.
  induction rs as [|[a|e] rs IH]; [constructor|..]; rewrite omap_cons; cbn [res_ok length]; intros Hl.
  - constructor; [done|]. apply IH. lia.
  - pose proof (length_omap res_ok rs). lia.
Qed.

(** A promotion does not panic; with the full set as quorum, success means that
    every drive has published its version. *)
Lemma promote_versions_spec fis (bs : list B) : Forall2 ready fis bs →
  ∃ r bs', promote_versions bs sv sp fis bucket key (length bs) = Some (r, bs')
    ∧ (r = Ok () → Forall2 published fis bs').
Proof.
  intros Hr. unfold promote_versions. rewrite (Forall2_length _ _ _ Hr), Nat.eqb_refl. cbn [negb].
  edestruct (fan_spec (λ fi b, sb_rename_data sv sp fi bucket key b)) with (Q := promoted) (2 := Hr)
    as (rs & bs1 & -> & H3); [intros fi b Hb; apply (rename_publishes fi b Hb)|].
  cbn [mbind option_bind]. pose proof (Forall3_length_lm _ _ _ _ H3) as Hl1. pose proof (Forall3_length_lr _ _ _ _ H3) as Hl2.
  pose proof (Forall2_length _ _ _ Hr) as Hl3.
  case_bool; to_prop.
  - destruct (undo_fan_total (zip fis rs) bs1) as (us & bs2 & ->); [rewrite length_zip; lia|]. cbn [mbind option_bind].
    destruct (cleanup_total bs2) as (bs3 & ->). eexists _, _. split; [done|]. done.
  - destruct (stale_fan_spec (zip fis rs) bs1) as (us & bs2 & -> & Hp).
    { assert (Forall (λ r, is_ok r = true) rs) as Hok by (apply all_ok; lia).
      clear -H3 Hok. induction H3; [constructor|]. apply Forall_cons in Hok as [? ?]. constructor; [done|by auto]. }
    cbn [mbind option_bind]. destruct (cleanup_total bs2) as (bs3 & Hc). rewrite Hc. eexists _, _. split; [done|]. intros _.
    eapply cleanup_keeps; [exact Hc|]. rewrite fst_zip in Hp by lia. done.
Qed.

(** The reads of the object's latest version on every drive. *)
Definition read_all (bs : list B) : option (list (IoResult FileInfo) * list B) :=
  fan (λ (_ : unit) b, sb_read_version "" bucket key None true b) (replicate (length bs) ()) bs.

Lemma read_all_published fis bs : Forall2 published fis bs →
  ∃ rs bs', read_all bs = Some (rs, bs') ∧ length rs = length bs
    ∧ Forall (λ fi', ∃ n fi, fi ∈ fis ∧ fi' = file_info_from_record (record_of n fi) bucket key) (omap res_ok rs).
Proof.
  unfold read_all. induction 1 as [|fi b fis bs Hb _ IH]; cbn [length replicate fan]; [by exists [], []|].
  destruct (read_published fi b Hb) as (r & b' & -> & Hr). destruct IH as (rs & bs' & -> & Hl & Hrs).
  eexists _, _. split; [done|]. split; [by simpl; rewrite Hl|]. rewrite omap_cons.
  assert (Forall (λ fi', ∃ n fi0, fi0 ∈ fi :: fis ∧ fi' = file_info_from_record (record_of n fi0) bucket key) (omap res_ok rs)) as Hrs'.
  { eapply Forall_impl; [exact Hrs|]. intros fi' (n & fi0 & ? & ?). exists n, fi0. split; [by right|done]. }
  destruct r as [fi'|e]; cbn [res_ok]; [|done]. constructor; [|done].
  destruct (Hr fi' eq_refl) as (n & ->). exists n, fi. split; [left|done].
Qed.
End promotion_lemmas.

(** ** Local drives keep the promises *)

Section local_laws.
Context (rmp_to_vec : OnDiskMeta → result string bytes).
Context (rmp_from_slice : bytes → result string OnDiskMeta).
Context (xxh64 : bytes → Z).
Context (rmp_roundtrip : ∀ m b, rmp_to_vec m = Ok b → rmp_from_slice b = Ok m).
Context (rmp_typed : ∀ b m, rmp_from_slice b = Ok m → Forall typed_version m).
Context (sv sp bucket key : string).
Context (Hsv : is_system_vol sv = true) (sv_ne_bucket : sv ≠ bucket) (Htrash : bucket ≠ TRASH_DIRNAME).

(** The object's metadata on the drive decodes to versions that are older than
    [fi] or replaced by it, and the new file is within the format's lengths. *)
Definition local_ready (fi : FileInfo) (b : LocalDrive) : Prop :=
  canonical fi ∧ ∃ raw existing,
    live_at rmp_from_slice xxh64 bucket key existing (tree (ld_disk b)) raw
    ∧ (∀ r, r ∈ existing → dr_version_id r ≠ version_id fi → (dr_mod_time_ms r < mod_time_ms fi)%Z)
    ∧ ∀ e, encode_versions rmp_to_vec xxh64 (merge_versions existing fi bucket key) = Some (Ok e) →
        (Z.of_nat (length (xl_head e)) < u32_mod)%Z ∧ (Z.of_nat (encoded_len e) < u64_mod)%Z.

Definition tree_published (fi : FileInfo) (t : fstree) : Prop :=
  ∃ raw n, t !! meta_path bucket key = Some (NFile raw) ∧ decode rmp_from_slice xxh64 raw = Ok (record_of n fi).
Definition local_published (fi : FileInfo) (b : LocalDrive) : Prop := tree_published fi (tree (ld_disk b)).

Lemma on_disk_spec {A : Type} (P : fstree → Prop) (m : Fs IoError A) Q R b : fs_spec P m Q R → P (tree (ld_disk b)) →
  ∃ r b', on_disk m b = Some (r, b') ∧ match r with Ok a => Q a (tree (ld_disk b')) | Err e => R e (tree (ld_disk b')) end.
Proof.
  intros Hm HP. destruct (Hm _ HP) as (r & d' & E & Hq). unfold on_disk. rewrite E. eexists _, _. split; [done|]. done.
Qed.

Lemma old_data_dir_canonical tail existing fi : Forall (sound_record tail) existing →
  canonical_id "" (old_data_dir_of existing fi).
Proof.
  intros Hs. unfold old_data_dir_of. destruct (prior_of existing fi) as [r|] eqn:E; [|by left].
  unfold prior_of in E. apply head_Some_elem_of, list_elem_of_filter in E as [_ Hr].
  rewrite Forall_forall in Hs. destruct (_ || _); [by left|]. apply (Hs r Hr).
Qed.

Lemma latest_is_new existing fi e : Forall canonical (merge_versions existing fi bucket key) →
  (∀ r, r ∈ existing → dr_version_id r ≠ version_id fi → (dr_mod_time_ms r < mod_time_ms fi)%Z) →
  encode_versions rmp_to_vec xxh64 (merge_versions existing fi bucket key) = Some (Ok e) →
  (Z.of_nat (length (xl_head e)) < u32_mod)%Z ∧ (Z.of_nat (encoded_len e) < u64_mod)%Z →
  ∃ n, decode rmp_from_slice xxh64 (to_vec e) = Ok (record_of n fi).
Proof.
  intros Hc Hnew He [Hl1 Hl2].
  destruct (decode_encoded _ _ _ rmp_roundtrip _ _ He Hc Hl1 Hl2) as (fi' & Hin & Hd & Hmax).
  eexists. rewrite Hd. do 2 f_equal. rewrite merge_versions_perm in Hin.
  apply elem_of_app in Hin as [Hin| ->%list_elem_of_singleton]; [exfalso|done].
  apply list_elem_of_fmap in Hin as (r & -> & [Hne Hr]%list_elem_of_filter). specialize (Hnew r Hr Hne).
  specialize (Hmax fi). cbn in Hmax.
  enough (mod_time_ms fi ≤ dr_mod_time_ms r)%Z by lia. apply Hmax.
  rewrite merge_versions_perm. apply elem_of_app. right. by apply list_elem_of_singleton.
Qed.

Lemma local_rename_publishes fi b : local_ready fi b →
  ∃ r b', on_disk (rename_data (ld_fault b) rmp_to_vec rmp_from_slice xxh64 sv sp fi bucket key) b = Some (r, b')
    ∧ ∀ resp, r = Ok resp → local_published fi b' ∧ canonical_id "" (old_data_dir resp).
Proof.
  intros (Hcan & raw & existing & Hlive & Hnew & Hfits).
  destruct (live_sound _ _ _ _ _ _ _ rmp_typed Hlive) as (tail & Hsound).
  pose proof (merge_versions_canonical tail existing fi bucket key Hsound Hcan) as Hmc.
  assert (data_dir fi ≠ META_FILENAME ∧ data_dir fi ≠ META_BACKUP_FILENAME) as Hdd.
  { destruct Hcan as [_ Hd]. destruct (decide (data_dir fi = "")) as [->|Hne]; [done|].
    by destruct (canonical_segments _ Hd Hne) as (_ & ? & ?). }
  destruct (encode_no_panic rmp_to_vec xxh64 _ Hmc) as [[e|er] He].
  - pose proof (rename_data_lemma (ld_fault b) rmp_to_vec rmp_from_slice xxh64 sv sp fi bucket key Hsv sv_ne_bucket Hdd
      existing _ raw Hlive e He) as Hspec.
    destruct (on_disk_spec _ _ _ _ b Hspec eq_refl) as (r & b' & E & Hr). exists r, b'. split; [done|]. intros resp ->.
    destruct Hr as [(_ & Hl & _) ->]. split; [|by eapply old_data_dir_canonical].
    destruct (latest_is_new _ _ _ Hmc Hnew He (Hfits e He)) as [n Hn]. by exists (to_vec e), n.
  - pose proof (rename_data_refused (ld_fault b) rmp_to_vec rmp_from_slice xxh64 sv sp fi bucket key Hsv
      existing _ raw Hlive er He) as Hspec.
    destruct (on_disk_spec _ _ _ _ b Hspec eq_refl) as (r & b' & E & Hr). exists r, b'. split; [done|]. by intros resp ->.
Qed.

(** A recursive delete leaves the paths that are neither below its target, nor
    in the trash, nor the volume itself. *)
Lemma delete_framed fault nm v p X :
  (∀ q, X q → ¬ q `prefix_of` [v] ∧ ¬ file_path v p `prefix_of` q ∧ ¬ [TRASH_DIRNAME] `prefix_of` q) →
  framed X (LocalFs.delete fault nm v p true).
Proof.
  intros HX. unfold LocalFs.delete. apply framed_bind; [apply require_vol_framed; intros q Hq; by apply HX|].
  intros _. apply framed_bind; [apply framed_map_err, framed_query|]. intros [].
  - apply framed_map_err. intros t0 d Hd. unfold move_to_trash. apply framed_rename; [|done].
    intros q Hq. destruct (HX q Hq) as (_ & ? & Ht). split; [done|]. intros [r ->]. apply Ht. by eexists (_ :: r).
  - apply framed_map_err, framed_remove_file. intros q Hq ->. by destruct (HX _ Hq) as (_ & Hp & _).
Qed.

Lemma live_not_volume v : ¬ meta_path bucket key `prefix_of` [v].
Proof.
  unfold meta_path, file_path. intros H%prefix_length. rewrite length_app in H. simpl in H. lia.
Qed.
Lemma live_not_trash : ¬ [TRASH_DIRNAME] `prefix_of` meta_path bucket key.
Proof. apply other_root. congruence. Qed.

Lemma delete_keeps v p b r b' fi :
  ¬ file_path v p `prefix_of` meta_path bucket key → local_published fi b →
  on_disk (LocalFs.delete (ld_fault b) (ld_name b) v p true) b = Some (r, b') → local_published fi b'.
Proof.
  intros Hp (raw & n & Hm & Hd) E.
  assert (framed (λ q, q = meta_path bucket key) (LocalFs.delete (ld_fault b) (ld_name b) v p true)) as Hf.
  { apply delete_framed. intros q ->. split_and!; [apply live_not_volume|done|apply live_not_trash]. }
  destruct (on_disk_spec _ _ _ _ b (framed_at _ _ _ Hf) Hm) as (r2 & b2 & E2 & Hr). rewrite E in E2. injection E2 as <- <-.
  exists raw, n. split; [|done]. by destruct r.
Qed.

Lemma stale_path_outside dd : canonical_id "" dd → dd ≠ "" →
  ¬ file_path bucket (key +:+ "/" +:+ dd) `prefix_of` meta_path bucket key.
Proof.
  intros Hc Hne. destruct (canonical_segments dd Hc Hne) as (Hs & Hm & _).
  unfold meta_path, file_path, segments in *. change (key +:+ "/" +:+ dd) with (key +:+ String "/" dd). rewrite split_char_app, list.filter_app, Hs.
  intros H%prefix_cons_inv_2. by apply snoc_prefix_inv in H.
Qed.

Lemma undo_framed fault nm fi : framed (λ _, False) (delete_version fault nm rmp_from_slice xxh64 bucket key fi undo).
Proof.
  unfold delete_version. cbn [undo undo_write negb]. apply framed_match; [by apply framed_rename|..].
  - intros _. apply framed_bind; [apply framed_map_err, framed_sync|]. intros _. case_decide; [apply framed_ret|].
    apply framed_ignore. intros t0 d Hd. unfold move_to_trash. by apply framed_rename.
  - intros e. destruct (io_kind e); try apply framed_err. by apply delete_framed.
Qed.

Lemma read_version_spec fault fi : fs_spec (tree_published fi)
  (read_version fault rmp_from_slice xxh64 bucket key None true)
  (λ fi' _, ∃ n, fi' = file_info_from_record (record_of n fi) bucket key) (λ _ _, True).
Proof.
  apply fs_spec_pre. intros t (raw & n & Hm & Hd). unfold read_version.
  eapply (fs_spec_bind _ _ (λ _ t', t' !! meta_path bucket key = Some (NFile raw))).
  { assert (framed (λ q, q = meta_path bucket key) (require_vol fault bucket)) as Hf.
    { apply require_vol_framed. intros q ->. apply live_not_volume. }
    eapply fs_spec_weaken; [apply (framed_at _ _ (Some (NFile raw)) Hf)|by intros ? ->|by intros ? t' H|done]. }
  intros u. eapply (fs_spec_bind _ _ (λ b _, b = raw)).
  { apply fs_spec_map_err, fs_spec_query; [done|]. intros t' Ht'. unfold t_read. by rewrite Ht'. }
  intros b. apply fs_spec_pre. intros t' ->. eapply (fs_spec_bind _ _ (λ r _, r = record_of n fi)).
  { rewrite Hd. apply fs_spec_lift. done. }
  intros r. apply fs_spec_ret. intros ? ->. by exists n.
Qed.

#[export] Instance LocalDrive_laws :
  PromotionLaws LocalDrive (HB := LocalDrive_backend rmp_to_vec rmp_from_slice xxh64) sv sp bucket key.
Proof.
  refine {| ready := local_ready; published := local_published |}; cbn.
  - exact local_rename_publishes.
  - intros fi b. destruct (on_disk_spec (same (λ _, False) ∅) _ _ _ b (undo_framed (ld_fault b) (ld_name b) fi _)) as (r & b' & E & _);
      [by intros q []|]. exact (mk_is_Some _ _ E).
  - intros v p b. assert (framed (λ _, False) (LocalFs.delete (ld_fault b) (ld_name b) v p true)) as Hf by by apply delete_framed.
    destruct (on_disk_spec (same (λ _, False) ∅) _ _ _ b (Hf _)) as (r & b' & E & _); [by intros q []|]. exact (mk_is_Some _ _ E).
  - intros fi b r b' Hp E. eapply delete_keeps; [|exact Hp|exact E]. apply other_root, sv_ne_bucket.
  - intros fi b r b' dd Hp Hc Hne _ E. eapply delete_keeps; [|exact Hp|exact E]. by apply stale_path_outside.
  - intros fi b Hp. destruct (on_disk_spec _ _ _ _ b (read_version_spec (ld_fault b) fi) Hp) as (r & b' & E & Hr).
    exists r, b'. split; [done|]. by intros fi' ->.
Defined.
End local_laws.

(** ** Lemmas: the records of an object *)

Section base_records.
Context (parity n : nat) (bucket key : string) (base : FileInfo).

(** The records of a set: [base] with the slot of each drive. *)
Definition set_records : list FileInfo :=
  with_per_disk_index base (default_erasure_info ((n - parity) mod 256) (parity mod 256) (n mod 256)) n.
(** The record of drive [i], read back. *)
Definition read_back (m i : nat) : FileInfo :=
  let ei := default_erasure_info ((n - parity) mod 256) (parity mod 256) (n mod 256) in
  file_info_from_record (record_of m (set_erasure (with_index ei i) base)) bucket key.

Lemma read_back_of fi m : fi ∈ set_records → ∃ i, i < n ∧ file_info_from_record (record_of m fi) bucket key = read_back m i.
Proof.
  unfold set_records, with_per_disk_index. intros (i & -> & Hi)%list_elem_of_fmap.
  apply elem_of_seq in Hi. exists i. split; [lia|done].
Qed.

Lemma length_set_records : length set_records = n.
Proof. unfold set_records, with_per_disk_index. by rewrite length_fmap, length_seq. Qed.

Context (Hn : 0 < n < 256) (Hparity : 2 * parity ≤ n).

Lemma read_back_valid m i : i < n → erasure_is_valid (erasure (read_back m i)) = true.
Proof.
  intros Hi. unfold read_back, erasure_is_valid. cbn -[Nat.modulo Nat.ltb Nat.eqb Nat.leb].
  rewrite !(Nat.mod_small _ 256) by lia. rewrite length_seq.
  rewrite !andb_true_iff, !negb_true_iff, orb_false_iff, !Nat.eqb_neq, Nat.ltb_ge, Nat.leb_le, Nat.eqb_eq. lia.
Qed.

Lemma read_back_parity m i : deleted base = false →
  parity_vote n (read_back m i) = if (size base =? 0)%Z then n / 2 else parity.
Proof.
  intros Hd. unfold parity_vote, read_back. cbn -[Nat.modulo Nat.div Z.eqb]. rewrite Hd. cbn [orb].
  assert (n / 2 < 256) by (apply Nat.Div0.div_lt_upper_bound; lia).
  by rewrite !(Nat.mod_small _ 256) by lia.
Qed.
End base_records.

Lemma build_etag vol nm sz etag mod_time content_type inline ps :
  metadata (build_file_info vol nm sz etag mod_time content_type inline ps) !! ETAG_META_KEY = Some etag.
Proof. cbn. destruct content_type; [rewrite lookup_insert_ne by done|]; apply lookup_insert_eq. Qed.

Section put_lemmas.
Context {B : Type} {HB : StorageBackend B} {St : Type} `{ByteStream St}.

Lemma put_inline_spec (md5 : bytes → string) (lock : LockGuard) parity bucket key sz (src : St) body content_type mod_time vid
    staging_id {HL : PromotionLaws B STAGING_VOL staging_id bucket key} (bs : list B) :
  parity ≤ length bs → yields src body →
  (∀ frames etag, drain_inline_payload md5 src sz = Some (Ok (frames, etag)) → Forall2 ready
     (inline_records parity (length bs) bucket key sz frames etag mod_time content_type vid) bs) →
  ∃ r bs', put_inline md5 lock parity bucket key sz src content_type mod_time vid staging_id bs (length bs) = Some (r, bs')
    ∧ (length body < sz → r = Err (SIo (eof_error "inline put: source ended at " (length body) sz)) ∧ bs' = bs)
    ∧ ∀ info, r = Ok info → sz ≤ length body ∧ check lock = Ok ()
        ∧ oi_etag info = md5 (take sz body) ∧ oi_size info = Z.of_nat sz ∧ oi_version_id info = vid
        ∧ ∃ frames, concat frames = take sz body ∧ Forall2 published
            (inline_records parity (length bs) bucket key sz frames (md5 (take sz body)) mod_time content_type vid) bs'.
Proof.
  intros Hp Hy Hready. unfold put_inline. rewrite (proj2 (Nat.ltb_ge _ _)) by lia.
  destruct (drain_inline_payload_yields md5 src body sz Hy) as (d & Hdr & Hd). rewrite Hdr. cbn [mbind option_bind].
  destruct d as [[frames etag]|e].
  2: { destruct Hd as [? ->]. eexists _, _. split; [done|]. split; [done|]. done. }
  destruct Hd as (Hlen & Hfr & ->).
  destruct (check lock) as [[]|e] eqn:Ec; [|eexists _, _; split; [done|]; split; [lia|done]].
  destruct (promote_versions_spec STAGING_VOL staging_id bucket key _ bs (Hready frames _ Hdr)) as (r & bs' & -> & Hr).
  cbn [mbind option_bind]. destruct r as [[]|e]; [|eexists _, _; split; [done|]; split; [lia|done]].
  eexists _, _. split; [done|]. split; [lia|]. intros info [= <-]. cbn. split_and!; try done. exists frames. split; [done|]. by apply Hr.
Qed.

(** Reading back the records that every drive of the set has published. *)
Lemma consensus_on_set {HS : HashIter string} {HN : HashIter nat} {HH : HashIter (list byte)} (blake3 : bytes → bytes)
    parity bucket key base sv sp {HL : PromotionLaws B sv sp bucket key} n (bs : list B) etag :
  0 < n < 256 → 2 * parity ≤ n → etag ≠ "" → metadata base !! ETAG_META_KEY = Some etag → deleted base = false →
  Forall2 published (set_records parity n base) bs →
  ∃ answers bs', read_all bucket key bs = Some (answers, bs') ∧ length answers = n
    ∧ let failed := n - length (omap res_ok answers) in
      (failed ≤ parity → failed < Nat.max (n / 2) 1 →
       ∃ i m j, read_with_consensus blake3 bucket key answers = Some (Ok (i, read_back parity n bucket key base m j))
         ∧ answers !! i = Some (Ok (read_back parity n bucket key base m j))).
Proof.
  intros Hn Hparity Hetag Hmeta Hdel Hpub.
  destruct (read_all_published sv sp bucket key _ _ Hpub) as (answers & bs' & Hread & Hla & Hans).
  exists answers, bs'. split; [exact Hread|].
  pose proof (Forall2_length _ _ _ Hpub) as Hl'. rewrite length_set_records in Hl'. rewrite <-Hl' in Hla.
  split; [done|]. cbn zeta. intros Hf1 Hf2. pose proof (length_omap res_ok answers) as Hle.
  assert (∀ fi, fi ∈ omap res_ok answers → ∃ m i, i < n ∧ fi = read_back parity n bucket key base m i) as Hform.
  { rewrite Forall_forall in Hans. intros fi' Hfi'. destruct (Hans _ Hfi') as (m & fi & Hin & ->).
    destruct (read_back_of _ _ bucket key _ fi m Hin) as (i & Hi & ->). by exists m, i. }
  destruct (consensus_unanimous blake3 bucket key answers (if (size base =? 0)%Z then n / 2 else parity) etag
    (blake3 (contract_bytes (read_back parity n bucket key base 0 0)))) as (i & fi & Hcons & Hi).
  - rewrite Hla. case_bool; [apply Nat.div_lt|]; lia.
  - rewrite Hla. enough (parity ≤ n / 2) by (case_bool; lia). apply Nat.div_le_lower_bound; lia.
  - by rewrite Hla.
  - done.
  - apply Forall_forall. intros fi Hfi. destruct (Hform fi Hfi) as (m & i & Hi & ->). rewrite Hla.
    split_and!; [by apply read_back_valid|by apply read_back_parity|exact Hmeta|reflexivity].
  - destruct (Hform fi) as (m & j & Hj & ->).
    { apply list_elem_of_omap. exists (Ok fi). split; [|done]. by eapply list_elem_of_lookup_2. }
    by exists i, m, j.
Qed.

(** The same for an inline object, down to its frames. *)
Lemma consensus_on_records {HS : HashIter string} {HN : HashIter nat} {HH : HashIter (list byte)} (blake3 : bytes → bytes)
    parity bucket key sz body content_type mod_time vid sv sp {HL : PromotionLaws B sv sp bucket key} n (bs : list B) frames etag :
  0 < n < 256 → 2 * parity ≤ n → etag ≠ "" → concat frames = take sz body →
  Forall2 published (inline_records parity n bucket key sz frames etag mod_time content_type vid) bs →
  ∃ answers bs', read_all bucket key bs = Some (answers, bs') ∧ length answers = n
    ∧ let failed := n - length (omap res_ok answers) in
      (failed ≤ parity → failed < Nat.max (n / 2) 1 →
       ∃ i fi, read_with_consensus blake3 bucket key answers = Some (Ok (i, fi))
         ∧ answers !! i = Some (Ok fi)
         ∧ payload fi = take sz body ∧ size fi = Z.of_nat sz ∧ version_id fi = vid
         ∧ metadata fi !! ETAG_META_KEY = Some etag
         ∧ data fi = if decide (take sz body = []) then None else Some [take sz body]).
Proof.
  intros Hn Hparity Hetag Hfr Hpub. rewrite <-Hfr.
  destruct (consensus_on_set blake3 parity bucket key (set_ids vid "" (build_file_info bucket key (Z.of_nat sz) etag mod_time
    content_type (Some frames) (single_part_info etag (Z.of_nat sz) (Z.of_nat sz) mod_time))) sv sp n bs etag)
    as (answers & bs' & H1 & H2 & H3); [done..|apply build_etag|done|done|].
  exists answers, bs'. split; [done|]. split; [done|]. cbn zeta. intros Hf1 Hf2.
  destruct (H3 Hf1 Hf2) as (i & m & j & Hc & Ha). eexists i, _. split; [exact Hc|]. split; [exact Ha|].
  split_and!; [|done|done|apply build_etag|done].
  unfold payload at 1. cbn. unfold payload. cbn. case_decide as H0; cbn; [done|]. by rewrite app_nil_r.
Qed.

(** Reading back what every drive of the set has published. *)
Lemma consensus_on_published {HS : HashIter string} {HN : HashIter nat} {HH : HashIter (list byte)} (blake3 : bytes → bytes)
    parity bucket key sz body content_type mod_time vid sv sp {HL : PromotionLaws B sv sp bucket key} n (bs : list B) frames etag :
  0 < n < 256 → 2 * parity ≤ n → etag ≠ "" → concat frames = take sz body →
  Forall2 published (inline_records parity n bucket key sz frames etag mod_time content_type vid) bs →
  ∃ answers bs', read_all bucket key bs = Some (answers, bs') ∧ length answers = n
    ∧ let failed := n - length (omap res_ok answers) in
      (failed ≤ parity → failed < Nat.max (n / 2) 1 →
       ∃ i fi, read_with_consensus blake3 bucket key answers = Some (Ok (i, fi))
         ∧ answers !! i = Some (Ok fi)
         ∧ payload fi = take sz body ∧ size fi = Z.of_nat sz ∧ version_id fi = vid
         ∧ metadata fi !! ETAG_META_KEY = Some etag).
Proof.
  intros Hn Hparity Hetag Hfr Hpub.
  destruct (consensus_on_records blake3 parity bucket key sz body content_type mod_time vid sv sp n bs frames etag Hn Hparity Hetag Hfr Hpub)
    as (answers & bs' & H1 & H2 & H3). exists answers, bs'. split; [done|]. split; [done|]. intros failed Hf1 Hf2.
  destruct (H3 Hf1 Hf2) as (i & fi & ? & ? & ? & ? & ? & ? & _). exists i, fi. done.
Qed.
End put_lemmas.

(** ** Properties *)

(** The quorum verdict of a fan-out: success exactly when the successes
    and the benign errors reach the quorum; otherwise the error reported is one
    of the errors that count against it, of a variant no other variant
    outnumbers, and "no results" when there is none. *)
Theorem require_quorum_spec {A} (rs : list (IoResult A)) (quorum : nat) (benign : IoError → bool) :
  match require_quorum rs quorum benign with
  | Ok _ => quorum ≤ accepts benign rs
  | Err e => accepts benign rs < quorum
      ∧ match rejected benign rs with
        | [] => e = InvalidArgument "no results"
        | errs => e ∈ errs ∧ ∀ e', e' ∈ errs →
            count (error_tag e') (error_tag <$> errs) ≤ count (error_tag e) (error_tag <$> errs)
        end
  end.
Proof.
  unfold require_quorum. rewrite quorum_scan_spec. cbn [plus].
  pose proof (buckets_spec (rejected benign rs) [] []) as Hb. cbn [app] in Hb.
  set (bk := foldl _ [] (rejected benign rs)) in *.
  assert (bucketed (rejected benign rs) bk) as (_ & Hc & Hs).
  { apply Hb. split_and!; [constructor| |]; [intros c x H|intros e H]; by apply elem_of_nil in H. }
  case_bool; to_prop; [done|]. split; [done|].
  destruct (max_by_key fst bk) as [[c e]|] eqn:Em; simpl; cycle 1.
  { apply max_by_key_None in Em. destruct (rejected benign rs) as [|e errs]; [done|].
    specialize (Hs e ltac:(left)). rewrite Em in Hs. by apply elem_of_nil in Hs. }
  pose proof (max_by_key_elem _ _ _ Em) as Hin. destruct (Hc _ _ Hin) as [He ->].
  enough (∀ e', e' ∈ rejected benign rs → count (error_tag e') (error_tag <$> rejected benign rs)
    ≤ count (error_tag e) (error_tag <$> rejected benign rs)) as Hmax.
  { destruct (rejected benign rs); [by apply elem_of_nil in He|done]. }
  intros e' He'. specialize (Hs e' He').
  apply list_elem_of_fmap in Hs as (x & -> & Hx). apply list_elem_of_fmap in Hx as ([c' x'] & -> & Hx).
  destruct (Hc _ _ Hx) as [_ Hcx]. pose proof (max_by_key_max _ _ _ _ Em Hx) as Hle. simpl in *. lia.
Qed.

(** C17.  Writing and reading an inline object, over local drives whose calls
    may fail in any pattern.  [put_inline] does not panic; a source that ends
    early is an error and no drive is touched.  When it reports success (the
    quorum being the whole set, and the object's earlier versions older), the
    lock was held, and every later read of the latest version in which at most
    [parity] drives fail, and fewer than half of the set, returns a record with
    exactly the bytes written, their size, their etag and the version
    identifier. *)
Theorem put_inline_read_back
    (rmp_to_vec : OnDiskMeta → result string bytes) (rmp_from_slice : bytes → result string OnDiskMeta)
    (xxh64 : bytes → Z) (md5 : bytes → string) (blake3 : bytes → bytes)
    {HS : HashIter string} {HN : HashIter nat} {HH : HashIter (list byte)} {St} `{ByteStream St}
    (lock : LockGuard) (parity : nat) (bucket key : string) (sz : nat) (src : St) (body : bytes)
    (content_type : option string) (mod_time : Z) (vid staging_id : string) (drives : list LocalDrive)
    (Hroundtrip : ∀ m b, rmp_to_vec m = Ok b → rmp_from_slice b = Ok m)
    (Htyped : ∀ b m, rmp_from_slice b = Ok m → Forall typed_version m)
    (Hmd5 : ∀ b, md5 b ≠ "")
    (Hbucket : is_system_vol bucket = false) (Htrash : bucket ≠ TRASH_DIRNAME)
    (Hn : 0 < length drives < 256) (Hparity : 2 * parity ≤ length drives)
    (Hsrc : yields src body)
    (Hready : ∀ frames etag, drain_inline_payload md5 src sz = Some (Ok (frames, etag)) →
       Forall2 (local_ready rmp_to_vec rmp_from_slice xxh64 bucket key)
         (inline_records parity (length drives) bucket key sz frames etag mod_time content_type vid) drives) :
  let backend := LocalDrive_backend rmp_to_vec rmp_from_slice xxh64 in
  let n := length drives in
  ∃ r drives', put_inline md5 lock parity bucket key sz src content_type mod_time vid staging_id drives n = Some (r, drives')
    ∧ (length body < sz → is_ok r = false ∧ drives' = drives)
    ∧ ∀ info, r = Ok info →
        check lock = Ok () ∧ oi_etag info = md5 (take sz body)
        ∧ ∃ answers drives'', read_all bucket key drives' = Some (answers, drives'') ∧ length answers = n
            ∧ let failed := n - length (omap res_ok answers) in
              (failed ≤ parity → failed < Nat.max (n / 2) 1 →
               ∃ i fi, read_with_consensus blake3 bucket key answers = Some (Ok (i, fi))
                 ∧ answers !! i = Some (Ok fi)
                 ∧ payload fi = take sz body ∧ size fi = Z.of_nat sz ∧ version_id fi = vid
                 ∧ metadata fi !! ETAG_META_KEY = Some (oi_etag info)).
Proof.
  intros backend n.
  pose (laws := LocalDrive_laws rmp_to_vec rmp_from_slice xxh64 Hroundtrip Htyped STAGING_VOL staging_id bucket key
    eq_refl (staging_ne bucket Hbucket) Htrash).
  destruct (put_inline_spec (HL := laws) md5 lock parity bucket key sz src body content_type mod_time vid staging_id drives)
    as (r & drives' & Hrun & Hshort & Hok); [lia|done|done|].
  exists r, drives'. split; [exact Hrun|]. split; [intros Hl; by destruct (Hshort Hl) as [-> ->]|].
  intros info Hr. destruct (Hok info Hr) as (Hlen & Hlock & Hetag & Hsize & Hvid & frames & Hfr & Hpub).
  split; [done|]. split; [done|].
  rewrite Hetag. exact (consensus_on_published (HL := laws) blake3 parity bucket key sz body content_type mod_time vid STAGING_VOL
    staging_id n drives' frames _ Hn Hparity (Hmd5 _) Hfr Hpub).
Qed.

(** ** Evaluation *)

#[local] Instance put_string_order : HashIter string := listed_order string.
#[local] Instance put_nat_order : HashIter nat := listed_order nat.
#[local] Instance put_bytes_order : HashIter (list byte) := listed_order (list byte).

Definition put_etag (b : bytes) : string := "e" +:+ pretty (length b).
Definition put_fis : list FileInfo :=
  inline_records 1 2 "b" "k" 3 [[x01; x02]; [x03]] (put_etag [x01; x02; x03]) 9 None (sample_uuid xcc).
Definition two_to_vec := table_to_vec ((λ fi, records_for [fi]) <$> put_fis).
Definition two_from_slice := table_from_slice ((λ fi, records_for [fi]) <$> put_fis).
Definition two_drives : list LocalDrive :=
  replicate 2 (drive_of empty_drive).
Definition put_lock : LockGuard := {| g_resource := None; g_uid := None; g_state := {| stop := false; lost := false |} |}.
Definition put_run : option (StorageResult ObjectInfo * list LocalDrive) :=
  put_inline (H := LocalDrive_backend two_to_vec two_from_slice sum_hash) put_etag put_lock 1 "b" "k" 3 rope3 None 9
    (sample_uuid xcc) "s" two_drives 2.
Definition drives_after : list LocalDrive := match put_run with Some (_, ds) => ds | None => [] end.
Definition answers_after : list (IoResult FileInfo) :=
  match read_all (HB := LocalDrive_backend two_to_vec two_from_slice sum_hash) "b" "k" drives_after with
  | Some (rs, _) => rs | None => [] end.

Example put_runs :
  ((λ r : StorageResult ObjectInfo * list LocalDrive, is_ok r.1) <$> put_run, is_ok <$> answers_after)
  = (Some true, [true; true]).
Proof. vm_compute. reflexivity. Qed.

Lemma two_drives_ready frames etag :
  drain_inline_payload put_etag rope3 3 = Some (Ok (frames, etag)) →
  Forall2 (local_ready two_to_vec two_from_slice sum_hash "b" "k")
    (inline_records 1 2 "b" "k" 3 frames etag 9 None (sample_uuid xcc)) two_drives.
Proof.
  intros Hd. vm_compute in Hd. injection Hd as <- <-.
  constructor; [|constructor; [|constructor]].
  all: split; [split; [right; exists (replicate 16 xcc); split_and!; [done|discriminate|done]|by left]|].
  all: exists None, []; split_and!; [split; reflexivity|intros r H; by apply elem_of_nil in H|].
  all: intros e He; vm_compute in He; injection He as <-; split; vm_compute; reflexivity.
Qed.

Lemma put_inline_read_back_witness :
  ∃ i fi, read_with_consensus (λ b, b) "b" "k" answers_after = Some (Ok (i, fi)) ∧ payload fi = [x01; x02; x03].
Proof.
  destruct (put_inline_read_back two_to_vec two_from_slice sum_hash put_etag (λ b, b) put_lock 1 "b" "k" 3 rope3
    [x01; x02; x03; x04; x05; x06] None 9 (sample_uuid xcc) "s" two_drives) as (r & drives' & Hrun & _ & Hok).
  - exact (table_codec_roundtrip _).
  - exact (table_codec_typed _).
  - discriminate.
  - reflexivity.
  - discriminate.
  - simpl. lia.
  - simpl. lia.
  - split; [|reflexivity]. repeat constructor; discriminate.
  - exact two_drives_ready.
  - change (put_run = Some (r, drives')) in Hrun.
    assert (drives' = drives_after) as -> by (unfold drives_after; by rewrite Hrun).
    pose proof (f_equal fst put_runs) as Hp. cbn [fst] in Hp. rewrite Hrun in Hp.
    destruct r as [info|e]; [|discriminate Hp].
    destruct (Hok info eq_refl) as (_ & _ & answers & ds & Hread & _ & Hc).
    assert (answers = answers_after) as -> by (unfold answers_after; by rewrite Hread).
    destruct Hc as (i & fi & H1 & _ & H2 & _); [vm_compute; lia|vm_compute; lia|].
    exists i, fi. split; [exact H1|exact H2].
Defined.

(** The digest a request declares for an inline object plays no part in
    storing it: with any declared digest, right or wrong, [put_inline] has the
    outcome and the effect on the drives that it has for the bare body, as long
    as the body is not shorter than the size announced. *)
Theorem inline_put_ignores_digest {B} `{StorageBackend B} {St} `{ByteStream St} (md5 : bytes → string) (sha256 : bytes → bytes)
    (lock : LockGuard) (parity : nat) (bucket key : string) (sz : nat) (inner : St) (body : bytes) (declared : string)
    (s : Sha256VerifyStream St) (ct : option string) (now : Z) (vid sid : string) (bs : list B) (quorum : nat)
    (Hnew : Sha256VerifyStream_new inner declared = Ok s) (Hy : yields inner body) (Hsz : sz ≤ length body) :
  put_inline (H0 := Sha256VerifyStream_stream sha256) md5 lock parity bucket key sz s ct now vid sid bs quorum
  = put_inline md5 lock parity bucket key sz inner ct now vid sid bs quorum.
Proof.
  unfold Sha256VerifyStream_new in Hnew. destruct (_ =? 64); [|done]. injection Hnew as <-.
  unfold put_inline, drain_inline_payload.
  destruct (drain_frames_yields sz sz 0 [] inner body Hy) as ([fs|e] & Hr & Hpost); [lia|lia| |lia].
  by rewrite (drain_frames_sha256 sha256 _ _ _ _ _ _ _ _ Hr), Hr.
Qed.

(** The empty body's digest is declared, three bytes are stored. *)
Lemma inline_put_ignores_digest_witness : ∃ s,
  Sha256VerifyStream_new rope3 (of_bytes (hex_encode (length_digest []))) = Ok s
  ∧ put_inline (H := LocalDrive_backend two_to_vec two_from_slice sum_hash) (H0 := Sha256VerifyStream_stream length_digest)
      put_etag put_lock 1 "b" "k" 3 s None 9 (sample_uuid xcc) "s" two_drives 2 = put_run.
Proof.
  eexists. split; [reflexivity|].
  apply (inline_put_ignores_digest (H := LocalDrive_backend two_to_vec two_from_slice sum_hash) put_etag length_digest put_lock 1
    "b" "k" 3 rope3 [x01; x02; x03; x04; x05; x06] (of_bytes (hex_encode (length_digest [])))).
  - reflexivity.
  - split; [|reflexivity]. repeat constructor; discriminate.
  - simpl. lia.
Defined.
