(* ===== verification/Format.v ===== *)
(** * Cluster identity at boot

    [openlake_storage/src/format.rs]: the loop with which a node joins its
    cluster.  The seed node formats a fresh cluster with a new identifier; every
    other boot polls the format files of all disks and takes the identifier of
    the majority.  The clock is an input of each poll, and so is what other nodes
    do to the disks between two polls. *)

From stdpp Require Import base gmap strings list.
From S2P Require Import Prelude Types Fs LocalFs.

Inductive FormatError :=
  | FTimeout (d : Z)
  | QuorumDisagreement
  | LocalDiskMissingFormat
  | LocalDiskWrongDeploymentId (local cluster : string)
  | SeedUnreachable (msg : string)
  | FIo (e : IoError).

(** The calls of a disk, and what it promises: it holds a format file or none;
    a read fails or tells which; a write that succeeds is there, one that fails
    has happened or not. *)
Class FormatBackend (B : Type) := {
  fb_read_format : B → option (IoResult (option FormatJson) * B);
  fb_write_format : FormatJson → B → option (IoResult unit * B);
  fb_holds : B → option FormatJson → Prop;
  fb_read_spec b o : fb_holds b o →
    ∃ r b', fb_read_format b = Some (r, b') ∧ fb_holds b' o ∧ (∀ o', r = Ok o' → o' = o);
  fb_write_spec b o f : fb_holds b o →
    ∃ r b', fb_write_format f b = Some (r, b')
      ∧ match r with Ok _ => fb_holds b' (Some f) | Err _ => fb_holds b' o ∨ fb_holds b' (Some f) end
}.

Section format.
Context {B : Type} `{FormatBackend B} `{!HashIter string}.

Fixpoint read_all (bs : list B) : option (list (IoResult (option FormatJson)) * list B) :=
  match bs with
  | [] => Some ([], [])
  | b :: bs => '(r, b) ← fb_read_format b; '(rs, bs) ← read_all bs; Some (r :: rs, b :: bs)
  end.

Definition all_ok_none (rs : list (IoResult (option FormatJson))) : bool :=
  forallb (λ r, match r with Ok None => true | _ => false end) rs.

(** The identifiers of the format files that were read. *)
Definition ids_of (rs : list (IoResult (option FormatJson))) : list string :=
  omap (λ r, match r with Ok (Some f) => Some (fj_id f) | _ => None end) rs.

Definition format_for (id : string) (set_drive_count : nat) (this : Z) : FormatJson :=
  {| fj_version := 1; fj_format := "openlake"; fj_id := id; fj_set_drive_count := set_drive_count; fj_this_disk := this |}.
(** One pass over the disks, with their offsets; the first error ends it. *)
Fixpoint write_disks (id : string) (sdc : nat) (bs : list B) (offsets : list Z) : option (result FormatError unit * list B) :=
  match bs, offsets with
  | b :: bs, this :: offsets =>
      '(r, b) ← fb_write_format (format_for id sdc this) b;
      match r with
      | Err e => Some (Err (FIo e), b :: bs)
      | Ok _ => '(r, bs) ← write_disks id sdc bs offsets; Some (r, b :: bs)
      end
  | _, _ => Some (Ok (), bs)
  end.
Definition write_all_disks (local peers : list B) (local_off peer_off : list Z) (id : string) (sdc : nat) :
    option (result FormatError unit * (list B * list B)) :=
  '(r, local) ← write_disks id sdc local local_off;
  match r with
  | Err e => Some (Err e, (local, peers))
  | Ok _ => '(r, peers) ← write_disks id sdc peers peer_off; Some (r, (local, peers))
  end.

Definition vote_majority (local_fmts peer_fmts : list (IoResult (option FormatJson))) : result FormatError string :=
  let counts := tally (ids_of (local_fmts ++ peer_fmts)) in
  let total_formatted := sum_list (snd <$> hash_iter counts) in
  let majority := total_formatted / 2 + 1 in
  match list_find (λ idn : string * nat, majority ≤ idn.2) (hash_iter counts) with
  | Some (_, (id, _)) => Ok id
  | None => Err QuorumDisagreement
  end.

(** The first readable local disk with another identifier. *)
Definition wrong_local (id : string) (local_fmts : list (IoResult (option FormatJson))) : option string :=
  snd <$> list_find (λ i, i ≠ id) (ids_of local_fmts).

(** One pass of the loop up to the deadline check: a result, or none yet. *)
Definition boot_pass (am_seed : bool) (fresh_id : string) (sdc : nat) (local_off peer_off : list Z) (local peers : list B) :
    option (option (result FormatError string) * (list B * list B)) :=
  '(local_fmts, local) ← read_all local;
  '(peer_fmts, peers) ← read_all peers;
  let quorum := (length local + length peers) / 2 + 1 in
  let formatted := length (ids_of local_fmts) + length (ids_of peer_fmts) in
  if (formatted =? 0) && all_ok_none local_fmts && all_ok_none peer_fmts && am_seed then
    '(r, disks) ← write_all_disks local peers local_off peer_off fresh_id sdc;
    Some (Some (match r with Ok _ => Ok fresh_id | Err e => Err e end), disks)
  else if quorum <=? formatted then
    Some (Some (if existsb (λ r, match r with Ok None => true | _ => false end) local_fmts then Err LocalDiskMissingFormat
                else id ← vote_majority local_fmts peer_fmts;
                     match wrong_local id local_fmts with
                     | Some l => Err (LocalDiskWrongDeploymentId l id)
                     | None => Ok id
                     end), (local, peers))
  else Some (None, (local, peers)).

(** A poll: the clock at the deadline check, and what happens to the disks
    while the node sleeps. *)
Record poll := { pl_now : Z; pl_env : list B * list B → list B * list B }.

Fixpoint boot_loop (polls : list poll) (am_seed : bool) (fresh_id : string) (sdc : nat) (local_off peer_off : list Z)
    (deadline timeout : Z) (local peers : list B) : option (result FormatError string * (list B * list B)) :=
  match polls with
  | [] => None
  | p :: polls =>
      '(r, disks) ← boot_pass am_seed fresh_id sdc local_off peer_off local peers;
      match r with
      | Some r => Some (r, disks)
      | None =>
          if (deadline <=? pl_now p)%Z then Some (Err (FTimeout timeout), disks)
          else let '(local, peers) := pl_env p disks in
               boot_loop polls am_seed fresh_id sdc local_off peer_off deadline timeout local peers
      end
  end.

Definition bootstrap_format (polls : list poll) (start : Z) (fresh_id : string) (local peers : list B)
    (local_off peer_off : list Z) (my_id : Z) (node_ids : list Z) (sdc : nat) (timeout : Z) :
    option (result FormatError string * (list B * list B)) :=
  seed_id ← head node_ids;
  boot_loop polls (my_id =? seed_id)%Z fresh_id sdc local_off peer_off (start + timeout)%Z timeout local peers.
End format.
Arguments poll : clear implicits.

(** ** Lemmas *)

Section lemmas.
Context {B : Type} `{FormatBackend B} `{!HashIter string}.

(** A reading of disks that hold [os]. *)
Definition seen (rs : list (IoResult (option FormatJson))) (os : list (option FormatJson)) : Prop :=
  Forall2 (λ r o, ∀ o', r = Ok o' → o' = o) rs os.

Lemma read_all_spec bs os : Forall2 fb_holds bs os →
  ∃ rs bs', read_all bs = Some (rs, bs') ∧ Forall2 fb_holds bs' os ∧ seen rs os.
Proof.
  induction 1 as [|b o bs os Hb _ (rs & bs' & E & Hh & Hs)]; [by exists [], []; repeat constructor|].
  destruct (fb_read_spec b o Hb) as (r & b' & Er & Hb' & Hr). exists (r :: rs), (b' :: bs'). cbn [read_all].
  rewrite Er. cbn [mbind option_bind]. rewrite E. split; [done|]. split; by constructor.
Qed.

(** What the disks hold: the identifiers of the format files. *)
Definition held (os : list (option FormatJson)) : list string := omap (λ o, fj_id <$> o) os.

Lemma seen_ids rs os : seen rs os → ids_of rs `sublist_of` held os.
Proof.
  induction 1 as [|r o rs os Hr _ IH]; [done|]. unfold ids_of, held. cbn [omap list_omap]. fold (ids_of rs) (held os).
  destruct r as [[f|]|e].
  - rewrite <-(Hr _ eq_refl). cbn. by constructor.
  - rewrite <-(Hr _ eq_refl). done.
  - destruct o; cbn; [by constructor|done].
Qed.

Lemma length_held os : length (held os) ≤ length os.
Proof. unfold held. induction os as [|[f|] os IH]; cbn; lia. Qed.

Lemma sublist_count {K} `{EqDecision K} (k : K) l1 l2 : l1 `sublist_of` l2 → count k l1 ≤ count k l2.
Proof. intros Hs. induction Hs; rewrite ?count_cons; lia. Qed.

Lemma tally_snoc (l : list string) x : tally (l ++ [x]) = <[x := S (count x l)]> (tally l).
Proof.
  apply map_eq. intros k. rewrite tally_lookup, count_app, count_cons. change (count k []) with 0.
  destruct (decide (x = k)) as [->|Hne].
  - rewrite lookup_insert_eq, decide_False by lia. f_equal. lia.
  - rewrite lookup_insert_ne, tally_lookup by done. by replace (count k l + (0 + 0)) with (count k l) by lia.
Qed.

Lemma sum_list_perm (l1 l2 : list nat) : l1 ≡ₚ l2 → sum_list l1 = sum_list l2.
Proof. induction 1; simpl; lia. Qed.

(** The counts of a tally add up to the number of votes. *)
Lemma tally_total (l : list string) : sum_list (snd <$> hash_iter (tally l)) = length l.
Proof.
  rewrite (sum_list_perm _ ((map_to_list (tally l)).*2)) by (by rewrite hash_iter_perm).
  induction l as [|x l IH] using rev_ind; [done|]. rewrite tally_snoc, length_app. simpl.
  pose proof (tally_lookup l x) as Hx. case_decide as Hc.
  - rewrite (sum_list_perm _ (((x, S (count x l)) :: map_to_list (tally l)).*2)) by (by rewrite map_to_list_insert).
    rewrite fmap_cons. cbn [sum_list_with id snd]. lia.
  - rewrite <-insert_delete_eq.
    rewrite (sum_list_perm _ (((x, S (count x l)) :: map_to_list (base.delete x (tally l))).*2))
      by (by rewrite map_to_list_insert by apply lookup_delete_eq).
    rewrite (sum_list_perm _ (((x, count x l) :: map_to_list (base.delete x (tally l))).*2)) in IH
      by (by rewrite map_to_list_delete).
    rewrite fmap_cons in *. cbn [sum_list_with id snd] in *. lia.
Qed.

(** The vote is for the identifier of more than half of the files read, if any. *)
Lemma vote_majority_spec lf pf :
  let ids := ids_of (lf ++ pf) in
  match vote_majority lf pf with
  | Ok id => length ids < 2 * count id ids
  | Err e => e = QuorumDisagreement ∧ ∀ id, 2 * count id ids ≤ length ids
  end.
Proof.
  cbn zeta. set (ids := ids_of (lf ++ pf)). unfold vote_majority. fold ids. rewrite tally_total.
  destruct (list_find _ _) as [[i [id n]]|] eqn:E.
  - apply list_find_Some in E as (Hi & Hn & _). apply list_elem_of_lookup_2, elem_of_hash_iter, tally_Some in Hi as [-> _].
    cbn [snd] in Hn. pose proof (Nat.div_mod (length ids) 2 ltac:(lia)). pose proof (Nat.mod_upper_bound (length ids) 2 ltac:(lia)). lia.
  - split; [done|]. intros id. apply list_find_None in E. rewrite Forall_forall in E.
    destruct (decide (count id ids = 0)) as [->|Hc]; [lia|].
    specialize (E (id, count id ids)). cbn [snd] in E. rewrite Nat.nle_gt in E.
    assert (count id ids < length ids / 2 + 1) by (apply E, elem_of_hash_iter, tally_Some; lia).
    pose proof (Nat.div_mod (length ids) 2 ltac:(lia)). lia.
Qed.

(** A vote over a reading of at least a quorum of the disks, when few of them
    carry another identifier than [id]. *)
Definition foreign (id : string) (os : list (option FormatJson)) : list string := filter (λ i, i ≠ id) (held os).

Lemma count_foreign (id : string) l : count id l + length (filter (λ i, i ≠ id) l) = length l.
Proof. unfold count. induction l as [|x l IH]; [done|]. rewrite !filter_cons. repeat case_decide; simpl; try done; lia. Qed.

Lemma vote_id lf pf os id : seen (lf ++ pf) os → 4 * length (foreign id os) ≤ length os →
  length os / 2 + 1 ≤ length (ids_of (lf ++ pf)) → vote_majority lf pf = Ok id.
Proof.
  intros Hs Hf Hq. set (ids := ids_of (lf ++ pf)) in *.
  assert (length (filter (λ i, i ≠ id) ids) ≤ length (foreign id os)) as Hfi.
  { apply sublist_length. assert (ids `sublist_of` held os) as Hsub by by apply seen_ids. clear -Hsub. unfold foreign.
    induction Hsub; rewrite ?filter_cons; repeat case_decide; by try constructor. }
  pose proof (count_foreign id ids). pose proof (Nat.div_mod (length os) 2 ltac:(lia)).
  pose proof (Nat.mod_upper_bound (length os) 2 ltac:(lia)).
  pose proof (vote_majority_spec lf pf) as Hv. fold ids in Hv. cbn zeta in Hv.
  destruct (vote_majority lf pf) as [id'|e]; [|destruct Hv as [_ Hv]; specialize (Hv id); lia].
  destruct (decide (id' = id)) as [->|Hne]; [done|]. pose proof (count_two id' id ids Hne). lia.
Qed.

Lemma ids_of_app l1 l2 : ids_of (l1 ++ l2) = ids_of l1 ++ ids_of l2.
Proof. apply omap_app. Qed.
Lemma held_app l1 l2 : held (l1 ++ l2) = held l1 ++ held l2.
Proof. apply omap_app. Qed.

Lemma all_none_held rs os : seen rs os → all_ok_none rs = true → held os = [].
Proof.
  induction 1 as [|r o rs os Hr _ IH]; [done|]. cbn [all_ok_none forallb]. intros [Hh Ht]%andb_prop.
  destruct r as [[|]|]; try done. rewrite <-(Hr _ eq_refl). by apply IH.
Qed.

Definition disks_hold (disks : list B * list B) (lo po : list (option FormatJson)) : Prop :=
  Forall2 fb_holds disks.1 lo ∧ Forall2 fb_holds disks.2 po.

(** One pass over disks of which some are formatted: nothing is written, and
    there is a result only when a quorum of the format files can be read. *)
Lemma boot_pass_spec am_seed fresh_id sdc loff poff disks lo po :
  disks_hold disks lo po → held (lo ++ po) ≠ [] →
  ∃ lf pf disks', disks_hold disks' lo po ∧ seen lf lo ∧ seen pf po
    ∧ boot_pass am_seed fresh_id sdc loff poff disks.1 disks.2
      = Some (if length (lo ++ po) / 2 + 1 <=? length (ids_of (lf ++ pf)) then
                Some (if existsb (λ r, match r with Ok None => true | _ => false end) lf then Err LocalDiskMissingFormat
                      else id ← vote_majority lf pf;
                           match wrong_local id lf with Some l => Err (LocalDiskWrongDeploymentId l id) | None => Ok id end)
              else None, disks').
Proof.
  destruct disks as [L P]. intros [Hl Hp] Hne. cbn [fst snd] in *. destruct (read_all_spec L lo Hl) as (lf & L' & EL & HL' & Hlf).
  destruct (read_all_spec P po Hp) as (pf & P' & EP & HP' & Hpf). exists lf, pf, (L', P').
  split; [done|]. split; [done|]. split; [done|]. unfold boot_pass. rewrite EL. cbn [mbind option_bind]. rewrite EP. cbn [mbind option_bind].
  destruct ((length (ids_of lf) + length (ids_of pf) =? 0) && all_ok_none lf && all_ok_none pf) eqn:Ez.
  { apply andb_prop in Ez as [[_ Hal]%andb_prop Hap]. destruct Hne. rewrite held_app.
    by rewrite (all_none_held _ _ Hlf Hal), (all_none_held _ _ Hpf Hap). }
  cbn [andb]. rewrite (Forall2_length _ _ _ HL'), (Forall2_length _ _ _ HP'), ids_of_app, !length_app.
  by destruct (_ <=? _).
Qed.

(** The loop over polls that leave the format files alone. *)
Definition quiet (lo po : list (option FormatJson)) (polls : list (poll B)) : Prop :=
  Forall (λ p, ∀ disks, disks_hold disks lo po → disks_hold (pl_env p disks) lo po) polls.

Lemma boot_loop_spec (Q : result FormatError string → Prop) am_seed fresh_id sdc loff poff deadline timeout lo po polls disks :
  held (lo ++ po) ≠ [] → disks_hold disks lo po → quiet lo po polls → Exists (λ p, (deadline ≤ pl_now p)%Z) polls →
  Q (Err (FTimeout timeout)) →
  (∀ disks r disks', disks_hold disks lo po →
     boot_pass am_seed fresh_id sdc loff poff disks.1 disks.2 = Some (Some r, disks') → Q r) →
  ∃ r disks', boot_loop polls am_seed fresh_id sdc loff poff deadline timeout disks.1 disks.2 = Some (r, disks')
    ∧ disks_hold disks' lo po ∧ Q r.
Proof.
  intros Hne Hd Hq Hex Ht Hpass. revert disks Hd Hq. induction Hex as [p polls Hnow|p polls _ IH]; intros disks Hd Hq.
  - destruct (boot_pass_spec am_seed fresh_id sdc loff poff disks lo po Hd Hne) as (lf & pf & disks' & Hd' & _ & _ & E).
    cbn [boot_loop]. rewrite E. specialize (Hpass disks). rewrite E in Hpass. cbn [mbind option_bind].
    destruct (_ <=? _); [eexists _, _; split; [done|]; split; [done|]; by eapply Hpass|].
    rewrite (proj2 (Z.leb_le _ _)) by done. by eexists _, _.
  - inversion Hq as [|? ? Hp Hq']; subst.
    destruct (boot_pass_spec am_seed fresh_id sdc loff poff disks lo po Hd Hne) as (lf & pf & disks' & Hd' & _ & _ & E).
    cbn [boot_loop]. rewrite E. specialize (Hpass disks) as Hpd. rewrite E in Hpd. cbn [mbind option_bind].
    destruct (_ <=? _); [eexists _, _; split; [done|]; split; [done|]; by eapply Hpd|].
    destruct (Z.leb_spec deadline (pl_now p)); [by eexists _, _|].
    destruct (pl_env p disks') as [L P] eqn:Ee. apply (IH (L, P)); [|done]. rewrite <-Ee. by apply Hp.
Qed.

Lemma write_disks_ok id sdc bs os offs : Forall2 fb_holds bs os → length offs = length bs →
  ∃ r bs', write_disks id sdc bs offs = Some (r, bs')
    ∧ (r = Ok () → Forall2 fb_holds bs' ((λ t, Some (format_for id sdc t)) <$> offs)).
Proof.
  intros Hh. revert offs. induction Hh as [|b o bs os Hb _ IH]; intros offs Hl; destruct offs as [|t offs]; simpl in Hl; try lia.
  - eexists _, _. split; [done|]. intros _. constructor.
  - destruct (fb_write_spec b o (format_for id sdc t) Hb) as (r & b' & E & Hr). cbn [write_disks]. rewrite E. cbn [mbind option_bind].
    destruct r as [u|e]; [|by eexists _, _]. destruct (IH offs) as (r & bs' & -> & Hok); [lia|]. eexists _, _. split; [done|].
    intros Hr'. rewrite fmap_cons. constructor; auto.
Qed.
End lemmas.

(** ** Properties *)

Section properties.
Context {B : Type} `{FormatBackend B} `{!HashIter string}.

(** C26.  A node joins the right cluster.  When at most a quarter of the disks
    carry another identifier than [id] (and some disk is formatted), and nobody
    else changes the format files meanwhile, a boot that polls until its deadline returns, whatever disks fail to answer: with [id],
    or with an error that is either the timeout or names a disk of the node
    itself, one without a format file or one that belongs to another cluster;
    and it has not written to any disk. *)
Theorem boot_agreement (id : string) (lo po : list (option FormatJson)) (polls : list (poll B)) (start : Z) (fresh_id : string)
    (local peers : list B) (local_off peer_off : list Z) (my_id seed : Z) (nodes : list Z) (sdc : nat) (timeout : Z)
    (Hholds : disks_hold (local, peers) lo po) (Hsome : held (lo ++ po) ≠ [])
    (Hforeign : 4 * length (foreign id (lo ++ po)) ≤ length (lo ++ po))
    (Hquiet : quiet lo po polls) (Hlast : Exists (λ p, (start + timeout ≤ pl_now p)%Z) polls) :
  ∃ r disks', bootstrap_format polls start fresh_id local peers local_off peer_off my_id (seed :: nodes) sdc timeout = Some (r, disks')
    ∧ disks_hold disks' lo po
    ∧ match r with
      | Ok id' => id' = id
      | Err e => e = FTimeout timeout ∨ (e = LocalDiskMissingFormat ∧ None ∈ lo)
          ∨ ∃ other, e = LocalDiskWrongDeploymentId other id ∧ other ≠ id ∧ other ∈ held lo
      end.
Proof.
  apply (boot_loop_spec (λ r, match r with
      | Ok id' => id' = id
      | Err e => e = FTimeout timeout ∨ (e = LocalDiskMissingFormat ∧ None ∈ lo)
          ∨ ∃ other, e = LocalDiskWrongDeploymentId other id ∧ other ≠ id ∧ other ∈ held lo
      end) _ _ _ _ _ _ _ _ _ _ (local, peers)); [done|done|done|done|by left|].
  intros disks r disks' Hd Hpass.
  destruct (boot_pass_spec (my_id =? seed)%Z fresh_id sdc local_off peer_off disks lo po Hd Hsome) as (lf & pf & d & _ & Hlf & Hpf & E).
  rewrite E in Hpass. destruct (Nat.leb_spec (length (lo ++ po) / 2 + 1) (length (ids_of (lf ++ pf)))) as [Hq|]; [|done].
  injection Hpass as <- _. destruct (existsb _ lf) eqn:Em.
  { right; left. split; [done|]. apply existsb_exists in Em as ([[f|]|e] & Hin%list_elem_of_In & ?); try done.
    apply list_elem_of_lookup in Hin as [i Hi]. destruct (Forall2_lookup_l _ _ _ _ _ Hlf Hi) as (o & Ho & Hr).
    rewrite (Hr _ eq_refl). by eapply list_elem_of_lookup_2. }
  rewrite (vote_id lf pf (lo ++ po) id); [|by apply Forall2_app|done|done]. cbn [mbind result_bind].
  unfold wrong_local. destruct (list_find _ (ids_of lf)) as [[i other]|] eqn:Ew; [|done]. cbn [fmap option_fmap option_map snd].
  apply list_find_Some in Ew as (Hi & Hne & _). right; right. exists other. split; [done|]. split; [done|].
  eapply elem_of_submseteq; [by eapply list_elem_of_lookup_2|]. by apply sublist_submseteq, seen_ids.
Qed.

(** C35.  A cluster whose first boot was cut short stays down: when some disks have
    a format file, but fewer than a quorum of them, every boot of every node
    (the seed's too, with every disk answering or not) ends with the timeout and
    writes nothing, so that the next boot finds the same disks. *)
Theorem partial_format_stuck (lo po : list (option FormatJson)) (polls : list (poll B)) (start : Z) (fresh_id : string)
    (local peers : list B) (local_off peer_off : list Z) (my_id seed : Z) (nodes : list Z) (sdc : nat) (timeout : Z)
    (Hholds : disks_hold (local, peers) lo po)
    (Hpartial : 0 < length (held (lo ++ po)) < length (lo ++ po) / 2 + 1)
    (Hquiet : quiet lo po polls) (Hlast : Exists (λ p, (start + timeout ≤ pl_now p)%Z) polls) :
  ∃ disks', bootstrap_format polls start fresh_id local peers local_off peer_off my_id (seed :: nodes) sdc timeout
              = Some (Err (FTimeout timeout), disks')
    ∧ disks_hold disks' lo po.
Proof.
  assert (held (lo ++ po) ≠ []) as Hne by (intros E; rewrite E in Hpartial; simpl in Hpartial; lia).
  destruct (boot_loop_spec (λ r, r = Err (FTimeout timeout)) (my_id =? seed)%Z fresh_id sdc local_off peer_off (start + timeout)%Z
    timeout lo po polls (local, peers) Hne Hholds Hquiet Hlast) as (r & disks' & E & Hd & ->); [done| |by eauto].
  intros disks r disks' Hd Hpass.
  destruct (boot_pass_spec (my_id =? seed)%Z fresh_id sdc local_off peer_off disks lo po Hd Hne) as (lf & pf & d & _ & Hlf & Hpf & E).
  rewrite E in Hpass. destruct (Nat.leb_spec (length (lo ++ po) / 2 + 1) (length (ids_of (lf ++ pf)))) as [Hq|]; [|done].
  assert (seen (lf ++ pf) (lo ++ po)) as Hs by by apply Forall2_app.
  apply seen_ids, sublist_length in Hs. lia.
Qed.

(** The first boot of the seed, when it succeeds, has formatted every disk. *)
Lemma first_boot fresh_id sdc local peers lo po local_off peer_off id disks' :
  disks_hold (local, peers) lo po → length local_off = length local → length peer_off = length peers →
  write_all_disks local peers local_off peer_off fresh_id sdc = Some (Ok id, disks') →
  disks_hold disks' ((λ t, Some (format_for fresh_id sdc t)) <$> local_off) ((λ t, Some (format_for fresh_id sdc t)) <$> peer_off).
Proof.
  intros [Hl Hp] Hlo Hpo. unfold write_all_disks.
  destruct (write_disks_ok fresh_id sdc local lo local_off Hl Hlo) as ([[]|e] & L & -> & HL); [|done]. cbn [mbind option_bind].
  destruct (write_disks_ok fresh_id sdc peers po peer_off Hp Hpo) as ([[]|e] & P & -> & HP); cbn [mbind option_bind]; [|done].
  intros [= <- <-]. split; auto.
Qed.
End properties.

(** ** Local drives *)

Section local.
Context (json_to_vec : FormatJson → result string bytes) (json_from_slice : bytes → result string FormatJson).
(** [serde_json] reads back what it wrote. *)
Context (json_roundtrip : ∀ f b, json_to_vec f = Ok b → json_from_slice b = Ok f).

Lemma string_length_app (a b : string) : String.length (a +:+ b) = String.length a + String.length b.
Proof. induction a as [|c a IH]; [done|]. cbn. by rewrite <-IH. Qed.

(** A temporary file is a sibling with another name. *)
Lemma tmp_apart (p : path) (fname suffix : string) :
  let tmp := p ++ ["." +:+ fname +:+ "." +:+ suffix] in
  ¬ tmp `prefix_of` p ++ [fname] ∧ p ++ [fname] ≠ tmp ∧ ¬ p ++ [fname] `prefix_of` tmp.
Proof.
  assert (("." +:+ fname +:+ "." +:+ suffix) ≠ fname) as Hne.
  { intros E%(f_equal String.length). rewrite !string_length_app in E. simpl in E. lia. }
  cbn zeta. split_and!.
  - intros [[|x r] E]; apply (f_equal reverse) in E as E'; rewrite ?app_nil_r in E.
    + by apply app_inj_2 in E as [_ [= ?]].
    + apply (f_equal length) in E. rewrite !length_app in E. simpl in E. lia.
  - intros E. by apply app_inj_2 in E as [_ [= ?]].
  - intros [[|x r] E]; rewrite ?app_nil_r in E.
    + by apply app_inj_2 in E as [_ [= ?]].
    + apply (f_equal length) in E. rewrite !length_app in E. simpl in E. lia.
Qed.

(** A reader of the file sees the old content or the new one. *)
Lemma atomic_write_spec fault fresh_name p fname content v :
  fs_spec (λ t, t !! (p ++ [fname]) = v) (atomic_write fault fresh_name (p ++ [fname]) content)
    (λ _ t, t !! (p ++ [fname]) = Some (NFile content))
    (λ _ t, t !! (p ++ [fname]) = v ∨ t !! (p ++ [fname]) = Some (NFile content)).
Proof.
  intros d Hd. unfold atomic_write. rewrite parent_snoc, last_snoc. change (default "" (Some fname)) with fname.
  set (final := p ++ [fname]) in *. set (tmp := p ++ [_ +:+ _]). destruct (tmp_apart p fname (fresh_name (ticks d) +:+ ".tmp")) as (Hp & Hne & Hp').
  fold tmp in Hp, Hne, Hp'. fold final in Hp, Hne, Hp'. clearbody tmp final.
  set (Q1 := λ t : fstree, t !! final = v). set (Q2 := λ t : fstree, Q1 t ∧ t !! tmp = Some (NFile content)).
  set (Q3 := λ t : fstree, t !! final = Some (NFile content)). set (R := λ t : fstree, Q1 t ∨ Q3 t).
  assert (∀ (P Q : fstree → Prop) f, (∀ t, P t → R t) → (∀ t t', P t → f t = Ok t' → Q t') →
    fs_spec P (fs_map_err Io (change fault f)) (λ _, Q) (λ _, R)) as Hstep.
  { intros P Q f HP HQ. apply fs_spec_map_err, fs_spec_change; [auto|]. intros t Ht. destruct (f t) eqn:E; eauto. }
  assert (∀ b t t', Q1 t → t_write tmp b t = Ok t' → Q1 t' ∧ t' !! tmp = Some (NFile b)) as Hwr.
  { intros b t t' Ht ->%write_ok. split; [|apply lookup_insert_eq]. unfold Q1. by rewrite lookup_insert_ne by congruence. }
  revert d Hd. apply (fs_spec_match Q1 _ (λ _, Q3) (λ _, R) _ _ (λ _, Q3) (λ _, R)); [|intros u; by apply fs_spec_ret|].
  - eapply (fs_spec_bind _ _ (λ _, Q1)); [apply Hstep; [by left|]|intros u1].
    { intros t t' Ht E. destruct (t !! tmp); [done|]. by eapply Hwr. }
    eapply (fs_spec_bind _ _ (λ _, Q2)); [apply Hstep; [by left|]; intros t t' Ht E; by eapply Hwr|intros u2].
    eapply (fs_spec_bind _ _ (λ _, Q2)); [apply Hstep; [by intros t [? _]; left|]; by intros t t' Ht [= <-]|intros u3].
    eapply (fs_spec_bind _ _ (λ _, Q2)); [apply Hstep; [by intros t [? _]; left|]; by intros t t' Ht [= <-]|intros u4].
    eapply (fs_spec_bind _ _ (λ _, Q3)); [apply Hstep; [by intros t [? _]; left|]|intros u5].
    { intros t t' [_ Ht] [[E _]|[_ ->]]%rename_ok; [by subst|]. unfold Q3. rewrite lookup_move by done.
      by rewrite decide_True, drop_ge, app_nil_r by done. }
    apply Hstep; [by right|]. by intros t t' Ht [= <-].
  - intros e. eapply (fs_spec_bind _ _ (λ _, R)); [|intros u; by apply fs_spec_err].
    apply fs_spec_ignore, fs_spec_change; [done|]. intros t Ht. unfold t_remove_file.
    destruct (t !! tmp) as [[]|]; [done| |done]. unfold R, Q1, Q3 in *. by rewrite !lookup_delete_ne by congruence.
Qed.

Definition local_holds (b : LocalDrive) (o : option FormatJson) : Prop :=
  match tree (ld_disk b) !! [FORMAT_FILENAME] with
  | None => o = None
  | Some (NFile c) => ∃ f, json_from_slice c = Ok f ∧ o = Some f
  | Some NDir => False
  end.

(** A local drive is a disk with a format file, whatever calls fail. *)
Program Definition LocalDrive_format : FormatBackend LocalDrive := {|
  fb_read_format b := on_disk (read_format (ld_fault b) json_from_slice) b;
  fb_write_format f b := on_disk (write_format (ld_fault b) (ld_name b) json_to_vec f) b;
  fb_holds := local_holds
|}.
Next Obligation.
  intros [fault fresh root sv d] o Hb. unfold on_disk, read_format, fs_match, os_read, query, os_call, t_read, local_holds in *. cbn in *.
  destruct (fault (ticks d)) as [msg|]; [by eexists _, _|].
  destruct (tree d !! [FORMAT_FILENAME]) as [[|c]|] eqn:E; [done| |]; cbn.
  - destruct Hb as (f & Hf & ->). rewrite Hf. eexists _, _. split; [done|]. cbn. rewrite E. split; [by exists f|]. by intros o' [= <-].
  - subst o. eexists _, _. split; [done|]. cbn. rewrite E. split; [done|]. by intros o' [= <-].
Qed.
Next Obligation.
  intros [fault fresh root sv d] o f Hb. unfold on_disk, write_format. cbn [ld_disk ld_fault ld_name].
  destruct (json_to_vec f) as [c|e] eqn:Ej; [|eexists _, _; split; [done|]; by left].
  destruct (atomic_write_spec fault fresh [] FORMAT_FILENAME c (tree d !! [FORMAT_FILENAME]) d eq_refl) as (r & d' & Er & Hr).
  cbn [app] in *. rewrite Er. eexists r, _. split; [done|]. unfold local_holds in *. cbn in *.
  assert (∀ v, v = Some (NFile c) → match v with None => Some f = None | Some (NFile c) => ∃ f', json_from_slice c = Ok f' ∧ Some f = Some f'
    | Some NDir => False end) as Hnew by (intros v ->; exists f; eauto).
  destruct r as [u|e]; [by apply Hnew|]. destruct Hr as [Hr|Hr]; [left; by rewrite Hr|right; by apply Hnew].
Qed.
End local.

(** ** Disks in memory *)

Record Cell := { cl_format : option FormatJson; cl_up : bool }.
Definition cell_down : IoError := Io (io_error_other "unreachable").
#[export] Program Instance Cell_backend : FormatBackend Cell := {|
  fb_read_format c := Some (if cl_up c then Ok (cl_format c) else Err cell_down, c);
  fb_write_format f c := Some (if cl_up c then (Ok (), {| cl_format := Some f; cl_up := true |}) else (Err cell_down, c));
  fb_holds c o := cl_format c = o
|}.
Next Obligation. intros c o <-. eexists _, _. split; [done|]. split; [done|]. destruct (cl_up c); congruence. Qed.
Next Obligation. intros c o f <-. destruct (cl_up c); eexists _, _; (split; [reflexivity|]); cbn; auto. Qed.

Definition cell (up : bool) (id : string) : Cell := {| cl_format := Some (format_for id 4 0); cl_up := up |}.
Definition blank : Cell := {| cl_format := None; cl_up := true |}.
Definition polls_to (n : nat) : list (poll Cell) := (λ i, {| pl_now := Z.of_nat i; pl_env d := d |}) <$> seq 0 n.
Lemma polls_quiet lo po n : quiet lo po (polls_to n).
Proof. apply Forall_fmap, Forall_forall. by intros i _ disks. Qed.
Lemma polls_last n : Exists (λ p : poll Cell, (0 + Z.of_nat n ≤ pl_now p)%Z) (polls_to (S n)).
Proof.
  apply Exists_exists. exists {| pl_now := Z.of_nat n; pl_env d := d |}. split; [|simpl; lia].
  apply list_elem_of_fmap. exists n. split; [done|]. apply elem_of_seq. lia.
Qed.
#[local] Instance format_string_order : HashIter string := listed_order string.

(** Three disks of one cluster, of which one does not answer, and one of another. *)
Lemma boot_agreement_witness : ∃ r disks',
  bootstrap_format (polls_to 2) 0 "new" [cell true "a"] [cell true "a"; cell false "a"; cell true "b"] [0%Z] [1%Z; 2%Z; 3%Z] 7 [7%Z; 8%Z] 4 1
    = Some (Ok r, disks') ∧ r = "a".
Proof.
  destruct (boot_agreement "a" [Some (format_for "a" 4 0)] ((λ i, Some (format_for i 4 0)) <$> ["a"; "a"; "b"]) (polls_to 2) 0 "new"
    [cell true "a"] [cell true "a"; cell false "a"; cell true "b"] [0%Z] [1%Z; 2%Z; 3%Z] 7 7 [8%Z] 4 1) as ([r|e] & disks' & E & _ & Hr).
  - split; repeat constructor.
  - discriminate.
  - vm_compute. lia.
  - apply polls_quiet.
  - apply (polls_last 1).
  - exists r, disks'. split; [exact E|exact Hr].
  - vm_compute in E. discriminate E.
Defined.

(** The seed formatted one disk of three before it failed. *)
Lemma partial_format_stuck_witness : ∃ disks',
  bootstrap_format (polls_to 4) 0 "new" [cell true "a"; blank] [blank] [0%Z; 1%Z] [2%Z] 7 [7%Z; 8%Z] 3 3
    = Some (Err (FTimeout 3), disks') ∧ disks_hold disks' [Some (format_for "a" 4 0); None] [None].
Proof.
  apply (partial_format_stuck [Some (format_for "a" 4 0); None] [None] (polls_to 4) 0 "new" [cell true "a"; blank] [blank]
    [0%Z; 1%Z] [2%Z] 7 7 [8%Z] 3 3).
  - split; repeat constructor.
  - vm_compute. lia.
  - apply polls_quiet.
  - apply (polls_last 3).
Defined.

(** The majority is one of the files read, not of the cluster: with half of the
    disks each, two nodes that miss one disk of the other join two clusters. *)
Example split_cluster :
  let boot local peers my_id := fst <$> bootstrap_format (polls_to 2) 0 "new" local peers [0%Z; 1%Z] [2%Z; 3%Z] my_id [7%Z; 8%Z] 4 1 : option (result FormatError string) in
  boot [cell true "a"; cell true "a"] [cell true "b"; cell false "b"] 7%Z = Some (Ok "a")
  ∧ boot [cell true "b"; cell true "b"] [cell false "a"; cell true "a"] 8%Z = Some (Ok "b").
Proof. vm_compute. done. Qed.

(** The seed formats a fresh cluster; the other node then joins it. *)
Example first_boots :
  let first := bootstrap_format (polls_to 2) 0 "new" [blank] [blank; blank] [0%Z] [1%Z; 2%Z] 7 [7%Z; 8%Z] 3 1 in
  (fst <$> first) = Some (Ok "new")
  ∧ match first with
    | Some (_, (l, p)) => (fst <$> bootstrap_format (polls_to 2) 0 "other" p l [1%Z; 2%Z] [0%Z] 8 [7%Z; 8%Z] 3 1) = Some (Ok "new")
    | None => False
    end.
Proof. vm_compute. done. Qed.
