(* ===== verification/Config.v ===== *)
(** * Server configuration and the start of a node

    [openlake_server/src/config.rs] and what [main.rs] builds from it: the table
    of backends, the lock clients of the sets, the order in which disks are
    formatted.  The TOML reader, the existence of files, the opening of a disk and
    the clients of a peer are parameters; a message of [anyhow] is its text. *)

From stdpp Require Import base gmap strings list sorting pretty.
From Stdlib Require Import Strings.Ascii.
From S2P Require Import Prelude Text Types Cluster Dsync Pool Auth Listing Put.

Inductive TransportMode := H2 | Rdma.
Inductive Mode := Storage | KvMode.
#[global] Instance TransportMode_eq_dec : EqDecision TransportMode.
Proof. solve_decision. Defined.
#[global] Instance Mode_eq_dec : EqDecision Mode.
Proof. solve_decision. Defined.

Record KvSlabToml := { capacity_gb : Z; reserve_ttl_secs : Z }.
Definition default_kv_reserve_ttl_secs : Z := 60.
Definition capacity_bytes (k : KvSlabToml) : Z := ((capacity_gb k * 1024 * 1024 * 1024) `mod` u64_mod)%Z.

Record RdmaQosToml := { traffic_class : Z; service_level : Z }.
Record RdmaToml := {
  self_node_id : nat; dev_name : string; dc_key : Z; qos : RdmaQosToml; bulk_pool_cap : nat;
  network_timeout_secs : Z; srq_depth : Z; max_send_wr : Z; peer_credit : Z; max_clients : option Z
}.
Definition default_bulk_pool_cap : nat := 64.
Definition default_srq_depth : Z := 4096.
Definition default_max_send_wr : Z := 256.
Definition default_peer_credit : Z := 4.
Definition default_network_timeout_secs : Z := 10 * 60 * 60.

Record MemoryPoolToml := { mp_enabled : bool; mp_size_bytes : Z; mp_bucket_capacity : nat }.
Definition MemoryPoolToml_default : MemoryPoolToml :=
  let d := MemoryPoolConfig_default in
  {| mp_enabled := enabled d; mp_size_bytes := size_bytes d; mp_bucket_capacity := bucket_capacity d |}.
Definition pool_config (t : MemoryPoolToml) : MemoryPoolConfig :=
  {| enabled := mp_enabled t; size_bytes := mp_size_bytes t; bucket_capacity := mp_bucket_capacity t |}.

Record TlsConfig := { cert_path : string; key_path : string; client_ca : option string }.

Record Config := {
  self_id : nat;
  data_dirs : list string;
  s3_addr : string;
  s3_port : option nat;
  cfg_rpc_addr : string;
  cfg_set_drive_count : nat;
  cfg_default_parity_count : nat;
  region : string;
  credentials : list Credential;
  cfg_nodes : list NodeAddr;
  s3_tls : option TlsConfig;
  rpc_tls : option TlsConfig;
  memory_pool : MemoryPoolToml;
  mode : Mode;
  transport : TransportMode;
  rdma : option RdmaToml;
  kv_slab : option KvSlabToml
}.

(** The two forms of [data_dirs] in the file. *)
Inductive OneOrMany := One (p : string) | Many (v : list string).
Definition deserialize_data_dirs (v : OneOrMany) : list string := match v with One p => [p] | Many v => v end.

(** ** The checks of [Config::from_toml] *)

Section checks.
Context (toml_from_str : string → result string Config) (is_dir exists_path : string → bool) (rdma_build : bool).

Definition is_none {A} (o : option A) : bool := match o with None => true | Some _ => false end.
(** [if b { anyhow::bail!(msg) }]. *)
Definition anyhow (b : bool) (msg : string) : result string unit := if b then Err msg else Ok ().

Definition validate_tls_files (t : TlsConfig) (label : string) : result string unit :=
  _ ← anyhow (negb (exists_path (cert_path t))) (label +:+ ".cert_path " +:+ cert_path t +:+ " does not exist");
  _ ← anyhow (negb (exists_path (key_path t))) (label +:+ ".key_path " +:+ key_path t +:+ " does not exist");
  match client_ca t with
  | Some ca => anyhow (negb (exists_path ca)) (label +:+ ".client_ca " +:+ ca +:+ " does not exist")
  | None => Ok ()
  end.

(** What [PathBuf]s are compared by: repeated separators and a [.] that is not
    the first component do not count. *)
Definition components (p : string) : bool * list string :=
  let ws := split_char "/"%char p in
  (bool_decide (head ws = Some "") && negb (bool_decide (p = "")),
   (if bool_decide (head ws = Some ".") then ["."] else []) ++ filter (λ w, w ≠ "" ∧ w ≠ ".") ws).

Fixpoint check_dirs (i : nat) (dirs : list string) (seen : list (bool * list string)) : result string unit :=
  match dirs with
  | [] => Ok ()
  | p :: dirs =>
      _ ← anyhow (negb (is_dir p)) ("data_dirs[" +:+ pretty i +:+ "] = " +:+ p +:+ " is not an existing directory");
      _ ← anyhow (bool_decide (components p ∈ seen))
            ("data_dirs[" +:+ pretty i +:+ "] = " +:+ p +:+ " is duplicated; each disk needs a unique mountpoint");
      check_dirs (S i) dirs (components p :: seen)
  end.

Definition check_kv (cfg : Config) : result string unit :=
  if decide (mode cfg = KvMode) then
    _ ← anyhow (is_none (kv_slab cfg)) ("mode = " +:+ quoted "kv" +:+ " requires a [kv_slab] block with capacity_gb");
    anyhow (negb (length (cfg_nodes cfg) =? 1)) ("mode = " +:+ quoted "kv" +:+ " nodes are standalone; list only this node")
  else Ok ().

(** [u32::saturating_mul]; [peer_credit + 1] wraps. *)
Definition saturating_mul (a b : Z) : Z := Z.min (a * b) (u32_mod - 1).
Definition check_rdma (cfg : Config) : result string unit :=
  match rdma cfg with
  | Some r =>
      _ ← anyhow (peer_credit r =? 0)%Z "[rdma] peer_credit must be >= 1";
      anyhow (srq_depth r <? saturating_mul (default 0 (max_clients r)) ((peer_credit r + 1) `mod` u32_mod))%Z
        "[rdma] max_clients x (peer_credit + 1) exceeds srq_depth"
  | None => Ok ()
  end.

Definition check_storage (cfg : Config) : result string unit :=
  if decide (mode cfg = Storage) then
    let total_disks := foldr (λ n acc, disk_count n + acc) 0 (cfg_nodes cfg) in
    let sdc := cfg_set_drive_count cfg in
    let parity := cfg_default_parity_count cfg in
    _ ← anyhow (total_disks =? 0) "at least one node must declare disk_count >= 1";
    _ ← anyhow ((sdc =? 0) || (total_disks <? sdc))
          ("set_drive_count must be in [1, " +:+ pretty total_disks +:+ "] (total disks across cluster)");
    _ ← anyhow (negb (total_disks mod sdc =? 0))
          ("total disks (" +:+ pretty total_disks +:+ ") must be a multiple of set_drive_count (" +:+ pretty sdc +:+ ")");
    _ ← anyhow (parity =? 0) "default_parity_count must be >= 1; refusing to boot with no parity";
    let max_parity := sdc / 2 in
    _ ← anyhow (max_parity <? parity)
          ("default_parity_count (" +:+ pretty parity +:+ ") must be <= set_drive_count / 2 (" +:+ pretty max_parity
             +:+ "); Reed-Solomon requires P <= D");
    match List.find (λ n, id n =? self_id cfg) (cfg_nodes cfg) with
    | None => Err "self_id presence checked above"
    | Some self_node =>
        _ ← anyhow (negb (length (data_dirs cfg) =? disk_count self_node))
              ("data_dirs.len() (" +:+ pretty (length (data_dirs cfg)) +:+ ") must equal this node's disk_count ("
                 +:+ pretty (disk_count self_node) +:+ ")");
        check_dirs 0 (data_dirs cfg) []
    end
  else Ok ().

Fixpoint check_credentials (cs : list Credential) : result string unit :=
  match cs with
  | [] => Ok ()
  | c :: cs =>
      _ ← anyhow (bool_decide (access_key c = "") || bool_decide (secret_key c = ""))
            "credential access_key and secret_key must both be non-empty";
      check_credentials cs
  end.

Definition check_tls (cfg : Config) : result string unit :=
  _ ← match s3_tls cfg with Some t => validate_tls_files t "s3_tls" | None => Ok () end;
  _ ← match length (cfg_nodes cfg), rpc_tls cfg with
      | 1, _ => Ok ()
      | _, None => Ok ()
      | _, Some t =>
          _ ← validate_tls_files t "rpc_tls";
          anyhow (is_none (client_ca t))
            "rpc_tls.client_ca is required for multi-node clusters so RemoteBackend can verify peer certificates"
      end;
  match rpc_tls cfg with
  | Some t => if length (cfg_nodes cfg) =? 1 then validate_tls_files t "rpc_tls" else Ok ()
  | None => Ok ()
  end.

Definition check_transport (cfg : Config) : result string unit :=
  if decide (transport cfg = Rdma) then
    _ ← anyhow (is_none (rdma cfg)) ("transport = " +:+ quoted "rdma" +:+ " requires an [rdma] config block");
    anyhow (negb rdma_build) ("transport = " +:+ quoted "rdma" +:+ " requires the `rdma` cargo feature on a Linux build")
  else Ok ().

Definition from_toml (text : string) : result string Config :=
  cfg ← toml_from_str text;
  _ ← anyhow (negb (existsb (λ n, id n =? self_id cfg) (cfg_nodes cfg)))
        ("self_id " +:+ pretty (self_id cfg) +:+ " not present in nodes table");
  _ ← check_kv cfg;
  _ ← check_rdma cfg;
  _ ← check_storage cfg;
  _ ← anyhow (bool_decide (trim (region cfg) = "")) "region must be non-empty";
  _ ← anyhow (bool_decide (length (credentials cfg) = 0)) "at least one credential is required; server refuses to run open";
  _ ← check_credentials (credentials cfg);
  _ ← check_tls cfg;
  _ ← check_transport cfg;
  Ok cfg.
End checks.

(** ** What [main.rs] builds from it

    A backend is the handle of a local disk or the client of a disk of a peer; a
    lock peer is this node's lock table or a client.  [None] is a panic of an
    [expect]. *)

Record RdmaConfig := {
  rc_self_node_id : nat; rc_runtime_id : nat; rc_dev_name : string; rc_dc_key : Z; rc_qos : RdmaQosToml;
  rc_bulk_buf_size : Z; rc_bulk_pool_cap : nat; rc_num_cluster_nodes : nat; rc_min_recv_bufs : Z;
  rc_srq_depth : Z; rc_max_send_wr : Z; rc_peer_credit : Z
}.
Definition build_rdma_config (t : RdmaToml) (runtime_id num_cluster_nodes : nat) : RdmaConfig :=
  {| rc_self_node_id := self_node_id t; rc_runtime_id := runtime_id; rc_dev_name := dev_name t; rc_dc_key := dc_key t;
     rc_qos := qos t; rc_bulk_buf_size := DEFAULT_EC_PER_SHARD_BYTES; rc_bulk_pool_cap := bulk_pool_cap t;
     rc_num_cluster_nodes := num_cluster_nodes; rc_min_recv_bufs := 0; rc_srq_depth := srq_depth t;
     rc_max_send_wr := max_send_wr t; rc_peer_credit := peer_credit t |}.

Section boot.
Context {B P : Type} (open_disk : string → result string B) (remote_disk : NodeAddr → nat → B).
Context (local_peer : P) (remote_peer : NodeAddr → P).

Definition at_node (n i : nat) : DiskAddr := {| node_id := n; disk_idx := i |}.

(** The first loop over the nodes: this node's disks and every node's lock peer. *)
Definition insert_locals (k : nat) (disks : list B) (m : gmap DiskAddr B) : gmap DiskAddr B :=
  foldl (λ m ib, <[at_node k (Z.to_nat (Z.of_nat ib.1 `mod` u16_mod)%Z) := ib.2]> m) m (enumerate disks).
Definition local_nodes (cfg : Config) (disks : list B) (ns : list NodeAddr) (m : gmap DiskAddr B) : gmap DiskAddr B :=
  foldl (λ m n, if id n =? self_id cfg then insert_locals (id n) disks m else m) m ns.
Definition lock_peers (cfg : Config) : gmap nat P :=
  foldl (λ m n, <[id n := if id n =? self_id cfg then local_peer else remote_peer n]> m) ∅ (cfg_nodes cfg).
(** The second loop: the disks of the peers. *)
Definition peer_nodes (cfg : Config) (ns : list NodeAddr) (m : gmap DiskAddr B) : gmap DiskAddr B :=
  foldl (λ m n, if id n =? self_id cfg then m
                else foldl (λ m i, <[at_node (id n) i := remote_disk n i]> m) m (seq 0 (disk_count n))) m ns.
Definition all_backends_of (cfg : Config) (disks : list B) : gmap DiskAddr B :=
  peer_nodes cfg (cfg_nodes cfg) (local_nodes cfg disks (cfg_nodes cfg) ∅).

(** The disks in the order of the topology, with their one-based positions, split into this node's and the others. *)
Record FormatArgs := { local_b : list B; local_off : list nat; peer_b : list B; peer_off : list nat }.
Fixpoint format_scan (cfg : Config) (backends : gmap DiskAddr B) (addrs : list DiskAddr) (flat_idx : nat) (a : FormatArgs) :
    option FormatArgs :=
  match addrs with
  | [] => Some a
  | addr :: addrs =>
      let flat_idx := S flat_idx in
      be ← backends !! addr;
      format_scan cfg backends addrs flat_idx
        (if node_id addr =? self_id cfg
         then {| local_b := local_b a ++ [be]; local_off := local_off a ++ [flat_idx]; peer_b := peer_b a; peer_off := peer_off a |}
         else {| local_b := local_b a; local_off := local_off a; peer_b := peer_b a ++ [be]; peer_off := peer_off a ++ [flat_idx] |})
  end.
Definition cluster_of (cfg : Config) (deployment : string) : ClusterConfig :=
  {| nodes := cfg_nodes cfg; set_drive_count := cfg_set_drive_count cfg;
     default_parity_count := cfg_default_parity_count cfg; deployment_id := deployment |}.
Definition format_args (cfg : Config) (backends : gmap DiskAddr B) : option FormatArgs :=
  format_scan cfg backends (all_disks (cluster_of cfg "")) 0 {| local_b := []; local_off := []; peer_b := []; peer_off := [] |}.

(** One lock client per set, over the nodes that own disks of the set. *)
Definition set_client (cluster : ClusterConfig) (peers : gmap nat P) (set_idx : nat) : option (DsyncClient * list P) :=
  ids ← set_node_ids cluster set_idx;
  ps ← mapM (λ i, peers !! i) ids;
  Some (dsync_new (length ps), ps).
Definition dsync_table (cluster : ClusterConfig) (peers : gmap nat P) : option (list (DsyncClient * list P)) :=
  ns ← num_sets cluster;
  mapM (set_client cluster peers) (seq 0 (ns `max` 1)).

Record Booted := { b_cluster : ClusterConfig; b_backends : gmap DiskAddr B; b_format : FormatArgs; b_dsync : list (DsyncClient * list P);
                   b_auth : AuthState }.
(** The entry of this node, which the runtime expects to be there. *)
Definition self_node (cfg : Config) : option NodeAddr := List.find (λ n, id n =? self_id cfg) (cfg_nodes cfg).
(** [run_storage_runtime]; [deployment] is what formatting the drives answers. *)
Definition run_storage (cfg : Config) (deployment : string) : option (result string Booted) :=
  _ ← self_node cfg;
  match collect (open_disk <$> data_dirs cfg) with
  | Err e => Some (Err e)
  | Ok disks =>
      let backends := all_backends_of cfg disks in
      args ← format_args cfg backends;
      let cluster := cluster_of cfg deployment in
      dsync ← dsync_table cluster (lock_peers cfg);
      Some (Ok {| b_cluster := cluster; b_backends := backends; b_format := args; b_dsync := dsync;
                  b_auth := AuthState_new (region cfg) (credentials cfg) |})
  end.

(** *** The start of the process *)

(** The environment variable [OPENLAKE_SELF_ID] replaces the node id after the
    checks; [bad_int] is the text of the error of a [u16] that does not parse. *)
Definition with_self_id (k : nat) (cfg : Config) : Config :=
  {| self_id := k; data_dirs := data_dirs cfg; s3_addr := s3_addr cfg; s3_port := s3_port cfg; cfg_rpc_addr := cfg_rpc_addr cfg;
     cfg_set_drive_count := cfg_set_drive_count cfg; cfg_default_parity_count := cfg_default_parity_count cfg; region := region cfg;
     credentials := credentials cfg; cfg_nodes := cfg_nodes cfg; s3_tls := s3_tls cfg; rpc_tls := rpc_tls cfg;
     memory_pool := memory_pool cfg; mode := mode cfg; transport := transport cfg;
     rdma := (λ r, {| self_node_id := k; dev_name := dev_name r; dc_key := dc_key r; qos := qos r; bulk_pool_cap := bulk_pool_cap r;
                      network_timeout_secs := network_timeout_secs r; srq_depth := srq_depth r; max_send_wr := max_send_wr r;
                      peer_credit := peer_credit r; max_clients := max_clients r |}) <$> rdma cfg;
     kv_slab := kv_slab cfg |}.
Definition parse_u16 (s : string) : option nat := n ← parse_u64 s; if (n <? u16_mod)%Z then Some (Z.to_nat n) else None.
Definition override_self_id (bad_int : string → string) (env : option string) (cfg : Config) : result string Config :=
  match env with
  | None => Ok cfg
  | Some s => ord ← ok_or (parse_u16 s) (bad_int s); Ok (with_self_id ord cfg)
  end.

(** [main]: the configuration, the buffer pool, the processors and certificates
    ([load]), and one of the runtimes; the KV runtime builds no tables. *)
Definition start (read_config : string → result string Config) (bad_int : string → string) (load : Config → result string unit)
    (text : string) (env : option string) (deployment : string) : option (result string (MemoryPool * option Booted)) :=
  match cfg ← read_config text; override_self_id bad_int env cfg with
  | Err e => Some (Err e)
  | Ok cfg =>
      pool ← MemoryPool_new (pool_config (memory_pool cfg));
      match load cfg with
      | Err e => Some (Err e)
      | Ok _ =>
          match mode cfg with
          | KvMode => Some (Ok (pool, None))
          | Storage => r ← run_storage cfg deployment; Some (b ← r; Ok (pool, Some b))
          end
      end
  end.

(** [Engine::dsync_for_obj] and [dsync_for_bucket]. *)
Definition dsync_for_obj (siphash : list string → N) (b : Booted) (bucket key : string) : option (DsyncClient * list P) :=
  s ← set_index_for siphash (b_cluster b) bucket key; b_dsync b !! s.
Definition dsync_for_bucket (siphash : list string → N) (b : Booted) (bucket : string) : option (DsyncClient * list P) :=
  dsync_for_obj siphash b bucket "".
End boot.

(** ** Lemmas *)

Lemma anyhow_ok b msg u : anyhow b msg = Ok u → b = false.
Proof. by destruct b. Qed.

Section accepted.
Context (toml_from_str : string → result string Config) (is_dir exists_path : string → bool) (rdma_build : bool).

Lemma from_toml_ok text cfg : from_toml toml_from_str is_dir exists_path rdma_build text = Ok cfg →
  existsb (λ n, id n =? self_id cfg) (cfg_nodes cfg) = true ∧ check_storage is_dir cfg = Ok () ∧ check_rdma cfg = Ok ()
  ∧ trim (region cfg) ≠ "" ∧ credentials cfg ≠ [] ∧ check_credentials (credentials cfg) = Ok ().
Proof.
  unfold from_toml. intros (c & _ & H)%bind_ok.
  apply bind_ok in H as (u0 & H0%anyhow_ok & H). apply bind_ok in H as (u1 & _ & H). apply bind_ok in H as ([] & H2 & H).
  apply bind_ok in H as ([] & H3 & H). apply bind_ok in H as (u4 & H4%anyhow_ok & H). apply bind_ok in H as (u5 & H5%anyhow_ok & H).
  apply bind_ok in H as ([] & H6 & H). apply bind_ok in H as (u7 & _ & H). apply bind_ok in H as (u8 & _ & [= ->]).
  apply bool_decide_eq_false_1 in H4, H5. apply negb_false_iff in H0. split_and!; try done.
  intros E. by rewrite E in H5.
Qed.

Lemma check_credentials_ok cs : check_credentials cs = Ok () → Forall (λ c, access_key c ≠ "" ∧ secret_key c ≠ "") cs.
Proof.
  induction cs as [|c cs IH]; [done|]. intros (u & [H1 H2]%anyhow_ok%orb_false_iff & H)%bind_ok.
  apply bool_decide_eq_false_1 in H1, H2. constructor; [done|]. by apply IH.
Qed.

Lemma check_dirs_ok i dirs seen : check_dirs is_dir i dirs seen = Ok () →
  Forall (λ p, is_dir p = true) dirs ∧ NoDup (components <$> dirs) ∧ ∀ p, p ∈ components <$> dirs → p ∉ seen.
Proof.
  revert i seen. induction dirs as [|p dirs IH]; intros i seen.
  { intros _. split_and!; [done|constructor|]. by intros p ?%elem_of_nil. }
  intros (u & H1%anyhow_ok & (v & H2%anyhow_ok & H)%bind_ok)%bind_ok. apply negb_false_iff in H1. apply bool_decide_eq_false_1 in H2.
  apply IH in H as (Hd & Hnd & Hout). split_and!.
  - by constructor.
  - rewrite fmap_cons. constructor; [|done]. intros Hin. apply (Hout _ Hin). by left.
  - intros q [->|Hq]%elem_of_cons; [done|]. intros Hs. apply (Hout q Hq). by right.
Qed.

Lemma find_self cfg n : List.find (λ n, id n =? self_id cfg) (cfg_nodes cfg) = Some n → n ∈ cfg_nodes cfg ∧ id n = self_id cfg.
Proof.
  intros [Hin Hid]%List.find_some. split; [by apply list_elem_of_In|by apply Nat.eqb_eq].
Qed.

Lemma check_storage_ok cfg : mode cfg = Storage → check_storage is_dir cfg = Ok () → NoDup (id <$> cfg_nodes cfg) →
  (∀ dep, wf_cluster (cluster_of cfg dep))
  ∧ ∃ self, self ∈ cfg_nodes cfg ∧ id self = self_id cfg ∧ length (data_dirs cfg) = disk_count self
    ∧ NoDup (components <$> data_dirs cfg) ∧ Forall (λ p, is_dir p = true) (data_dirs cfg).
Proof.
  intros Hm. unfold check_storage. rewrite decide_True by done. intros Hc Hids.
  apply bind_ok in Hc as (u0 & H0%anyhow_ok & Hc). apply bind_ok in Hc as (u1 & [H1 H1']%anyhow_ok%orb_false_iff & Hc).
  apply bind_ok in Hc as (u2 & H2%anyhow_ok & Hc). apply bind_ok in Hc as (u3 & H3%anyhow_ok & Hc).
  apply bind_ok in Hc as (u4 & H4%anyhow_ok & Hc). apply negb_false_iff in H2.
  apply Nat.eqb_neq in H0, H1, H3. apply Nat.ltb_ge in H1', H4. apply Nat.eqb_eq in H2.
  split; [intros dep; split; unfold total_disks; cbn [cluster_of nodes set_drive_count default_parity_count]; (lia || done)|].
  destruct (List.find _ _) as [self|] eqn:Hf; [|done]. apply find_self in Hf as [Hin Hid].
  apply bind_ok in Hc as (u5 & H5%anyhow_ok & Hc). apply negb_false_iff, Nat.eqb_eq in H5.
  apply check_dirs_ok in Hc as (? & ? & _). by exists self.
Qed.
End accepted.

Section table.
Context {B : Type} (remote_disk : NodeAddr → nat → B).

Lemma insert_indices k (f : nat → B) (l : list nat) (m : gmap DiskAddr B) a :
  foldl (λ m i, <[at_node k i := f i]> m) m l !! a
  = if decide (node_id a = k ∧ disk_idx a ∈ l) then Some (f (disk_idx a)) else m !! a.
Proof.
  revert m. induction l as [|i l IH]; intros m; cbn [foldl].
  { rewrite decide_False; [done|]. by intros [_ ?%elem_of_nil]. }
  rewrite IH. destruct (decide (node_id a = k ∧ disk_idx a ∈ l)) as [[-> Hl]|Hn].
  { rewrite decide_True; [done|]. split; [done|by right]. }
  destruct (decide (a = at_node k i)) as [->|Hne].
  { rewrite lookup_insert_eq, decide_True; [done|]. split; [done|by left]. }
  rewrite lookup_insert_ne by done. rewrite decide_False; [done|]. intros [Hk [Hi|Hi]%elem_of_cons]; [|by apply Hn].
  apply Hne. destruct a. cbn in *. by subst.
Qed.

Lemma peer_nodes_cons cfg n ns (m : gmap DiskAddr B) : peer_nodes remote_disk cfg (n :: ns) m
  = peer_nodes remote_disk cfg ns (if id n =? self_id cfg then m
      else foldl (λ m i, <[at_node (id n) i := remote_disk n i]> m) m (seq 0 (disk_count n))).
Proof. done. Qed.

Lemma peer_skips cfg ns (m : gmap DiskAddr B) a : (∀ n, n ∈ ns → id n ≠ self_id cfg → id n ≠ node_id a) →
  peer_nodes remote_disk cfg ns m !! a = m !! a.
Proof.
  revert m. induction ns as [|n ns IH]; intros m Hn; [done|]. rewrite peer_nodes_cons, IH by (intros; apply Hn; [by right|done]). destruct (Nat.eqb_spec (id n) (self_id cfg)) as [|Hs]; [done|].
  rewrite insert_indices, decide_False; [done|]. intros [Ha _]. by apply (Hn n); [left|..].
Qed.

Lemma peer_lookup cfg ns (m : gmap DiskAddr B) n i : NoDup (id <$> ns) → n ∈ ns → id n ≠ self_id cfg → i < disk_count n →
  peer_nodes remote_disk cfg ns m !! at_node (id n) i = Some (remote_disk n i).
Proof.
  revert m. induction ns as [|n' ns IH]; intros m Hnd Hin Hself Hi; [by apply elem_of_nil in Hin|].
  rewrite peer_nodes_cons.
  apply NoDup_cons in Hnd as [Hn' Hnd]. apply elem_of_cons in Hin as [->|Hin]; [|by apply IH].
  rewrite (proj2 (Nat.eqb_neq _ _) Hself), peer_skips.
  - rewrite insert_indices, decide_True; [done|]. split; [done|]. apply elem_of_seq. cbn. lia.
  - intros n2 H2 _ E. apply Hn'. cbn in E. rewrite <-E. by apply list_elem_of_fmap_2.
Qed.

Lemma insert_zip k (disks : list B) (m : gmap DiskAddr B) s a : (Z.of_nat (s + length disks) ≤ u16_mod)%Z →
  foldl (λ m ib, <[at_node k (Z.to_nat (Z.of_nat ib.1 `mod` u16_mod)%Z) := ib.2]> m) m (zip (seq s (length disks)) disks) !! a
  = if decide (node_id a = k ∧ s ≤ disk_idx a < s + length disks) then disks !! (disk_idx a - s) else m !! a.
Proof.
  revert m s. induction disks as [|b disks IH]; intros m s Hs; cbn in *.
  { rewrite decide_False; [done|lia]. }
  rewrite IH by lia. rewrite Z.mod_small by (unfold u16_mod in *; lia). rewrite Nat2Z.id.
  destruct (decide (node_id a = k ∧ S s ≤ disk_idx a < S s + length disks)) as [[Hk Hr]|Hn].
  { rewrite decide_True by (split; [done|lia]). replace (disk_idx a - s) with (S (disk_idx a - S s)) by lia. done. }
  destruct (decide (a = at_node k s)) as [->|Hne].
  { rewrite lookup_insert_eq, decide_True by (cbn; lia). cbn. by rewrite Nat.sub_diag. }
  rewrite lookup_insert_ne by done. rewrite decide_False; [done|]. intros [Hk Hr]. apply Hne. destruct a as [x y]. cbn in *.
  unfold at_node. f_equal; [done|lia].
Qed.

Lemma insert_locals_lookup k (disks : list B) (m : gmap DiskAddr B) a : (Z.of_nat (length disks) ≤ u16_mod)%Z →
  insert_locals k disks m !! a = if decide (node_id a = k ∧ disk_idx a < length disks) then disks !! disk_idx a else m !! a.
Proof.
  intros Hl. unfold insert_locals, enumerate. rewrite insert_zip by lia.
  destruct (decide (node_id a = k ∧ disk_idx a < length disks)); [rewrite decide_True by (split; [tauto|lia])|rewrite decide_False by lia; done].
  f_equal. lia.
Qed.

Lemma local_nodes_lookup cfg ns (disks : list B) (m : gmap DiskAddr B) a : (Z.of_nat (length disks) ≤ u16_mod)%Z →
  local_nodes cfg disks ns m !! a
  = if decide (self_id cfg ∈ id <$> ns ∧ node_id a = self_id cfg ∧ disk_idx a < length disks) then disks !! disk_idx a else m !! a.
Proof.
  intros Hl. revert m. induction ns as [|n ns IH]; intros m.
  { cbn. rewrite decide_False; [done|]. by intros [?%elem_of_nil _]. }
  change (local_nodes cfg disks (n :: ns) m)
    with (local_nodes cfg disks ns (if id n =? self_id cfg then insert_locals (id n) disks m else m)).
  rewrite IH, fmap_cons.
  destruct (Nat.eqb_spec (id n) (self_id cfg)) as [->|Hne]; [rewrite insert_locals_lookup by done|];
    repeat case_decide; rewrite elem_of_cons in *; naive_solver.
Qed.

(** ** Every disk has its backend *)

Lemma backends_local cfg (disks : list B) self i : NoDup (id <$> cfg_nodes cfg) → self ∈ cfg_nodes cfg → id self = self_id cfg →
  length disks = disk_count self → (Z.of_nat (disk_count self) ≤ u16_mod)%Z → i < disk_count self →
  all_backends_of remote_disk cfg disks !! at_node (self_id cfg) i = disks !! i.
Proof.
  intros Hnd Hin Hid Hlen Hw Hi. unfold all_backends_of.
  rewrite peer_skips by (intros n _ Hn; done). rewrite local_nodes_lookup, decide_True; [done| |lia].
  cbn. split_and!; [|done|lia]. rewrite <-Hid. by apply list_elem_of_fmap_2.
Qed.

Lemma backends_remote cfg (disks : list B) n i : NoDup (id <$> cfg_nodes cfg) → n ∈ cfg_nodes cfg → id n ≠ self_id cfg →
  i < disk_count n → all_backends_of remote_disk cfg disks !! at_node (id n) i = Some (remote_disk n i).
Proof. intros. unfold all_backends_of. by apply peer_lookup. Qed.

Lemma backends_total cfg (disks : list B) self dep a : NoDup (id <$> cfg_nodes cfg) → self ∈ cfg_nodes cfg → id self = self_id cfg →
  length disks = disk_count self → (Z.of_nat (disk_count self) ≤ u16_mod)%Z → a ∈ all_disks (cluster_of cfg dep) →
  is_Some (all_backends_of remote_disk cfg disks !! a).
Proof.
  intros Hnd Hin Hid Hlen Hw (n & Hn & Ha & Hi)%elem_of_all_disks. destruct a as [k i]. cbn in *. subst k.
  destruct (decide (id n = self_id cfg)) as [E|Hne]; cycle 1.
  { pose proof (backends_remote cfg disks n i Hnd Hn Hne Hi) as Hb. unfold at_node in Hb. by rewrite Hb. }
  assert (n = self) as ->.
  { apply list_elem_of_lookup in Hn as [j Hj], Hin as [j' Hj']. assert (j = j') as ->.
    { apply (NoDup_lookup (id <$> cfg_nodes cfg) j j' (self_id cfg)); [done|..]; rewrite list_lookup_fmap;
        [rewrite Hj|rewrite Hj']; cbn; congruence. }
    congruence. }
  pose proof (backends_local cfg disks self i Hnd Hin Hid Hlen Hw Hi) as Hb. unfold at_node in Hb. rewrite E, Hb.
  apply lookup_lt_is_Some. lia.
Qed.
End table.

Section peers.
Context {P : Type} (local_peer : P) (remote_peer : NodeAddr → P).

Lemma lock_peers_lookup cfg ns (m : gmap nat P) n : n ∈ ns → NoDup (id <$> ns) →
  foldl (λ m n, <[id n := if id n =? self_id cfg then local_peer else remote_peer n]> m) m ns !! id n
  = Some (if id n =? self_id cfg then local_peer else remote_peer n).
Proof.
  revert m. induction ns as [|n' ns IH] using rev_ind; intros m Hin Hnd; [by apply elem_of_nil in Hin|].
  rewrite foldl_snoc. rewrite fmap_app in Hnd. apply NoDup_app in Hnd as (Hnd & Hdis & _).
  apply elem_of_app in Hin as [Hin|Hin].
  - rewrite lookup_insert_ne; [by apply IH|]. intros E. apply (Hdis (id n)); [by apply list_elem_of_fmap_2|]. rewrite <-E. left.
  - apply list_elem_of_singleton in Hin as ->. by rewrite lookup_insert_eq.
Qed.

Lemma set_client_ok cfg dep set_idx ds : NoDup (id <$> cfg_nodes cfg) → set_disks (cluster_of cfg dep) set_idx = Some ds →
  (∀ d, d ∈ ds → d ∈ all_disks (cluster_of cfg dep)) →
  ∃ ids ps, set_client (cluster_of cfg dep) (lock_peers local_peer remote_peer cfg) set_idx = Some (dsync_new (length ids), ps)
    ∧ NoDup ids ∧ (∀ k, k ∈ ids ↔ k ∈ node_id <$> ds)
    ∧ Forall2 (λ k p, ∃ n, n ∈ cfg_nodes cfg ∧ id n = k ∧ p = if k =? self_id cfg then local_peer else remote_peer n) ids ps.
Proof.
  intros Hnd Hds Hall. unfold set_client, set_node_ids. rewrite Hds. cbn [mbind option_bind].
  destruct (node_ids_loop_spec ds ∅ []) as [Hids Hel]; [constructor|set_solver|].
  set (ids := node_ids_loop ds ∅ []) in *.
  assert (∀ k, k ∈ ids ↔ k ∈ node_id <$> ds) as Hk by (intros k; rewrite Hel, elem_of_nil; tauto).
  destruct (mapM_lookup (λ i, lock_peers local_peer remote_peer cfg !! i)
    (λ j p, ∃ n, n ∈ cfg_nodes cfg ∧ ids !! j = Some (id n) ∧ p = if id n =? self_id cfg then local_peer else remote_peer n) ids)
    as (ps & Hps & Hlen & Hp).
  { intros j k Hj. assert (k ∈ node_id <$> ds) as Hin by (apply Hk; by apply list_elem_of_lookup_2 in Hj).
    apply list_elem_of_fmap in Hin as (d & -> & Hd). apply Hall, elem_of_all_disks in Hd as (n & Hn & Hid & _).
    rewrite Hid. eexists. split; [by apply lock_peers_lookup|]. exists n. by rewrite Hj, Hid. }
  rewrite Hps. cbn [mbind option_bind]. exists ids, ps. split_and!; [by rewrite Hlen|done|done|].
  apply Forall2_same_length_lookup_2; [done|]. intros j k p Hj Hpj. destruct (Hp j p Hpj) as (n & Hn & Hj' & ->).
  rewrite Hj in Hj'. injection Hj' as ->. by exists n.
Qed.

End peers.

(** ** The order of formatting *)

Section format_order.
Context {B : Type} (remote_disk : NodeAddr → nat → B).

Lemma format_scan_ok cfg (m : gmap DiskAddr B) addrs k a : Forall (λ d, is_Some (m !! d)) addrs →
  ∃ a', format_scan cfg m addrs k a = Some a'
    ∧ local_b a' = local_b a ++ omap (λ d, m !! d) (filter (λ d, node_id d = self_id cfg) addrs)
    ∧ local_off a' ++ peer_off a' ≡ₚ (local_off a ++ peer_off a) ++ seq (S k) (length addrs).
Proof.
  revert k a. induction addrs as [|d addrs IH]; intros k a Hall.
  { exists a. cbn. split_and!; [done|by rewrite app_nil_r|by rewrite app_nil_r]. }
  apply Forall_cons in Hall as [[b Hb] Hall]. cbn [format_scan]. rewrite Hb. cbn [mbind option_bind].
  rewrite filter_cons. destruct (Nat.eqb_spec (node_id d) (self_id cfg)) as [E|E].
  - destruct (IH (S k) {| local_b := local_b a ++ [b]; local_off := local_off a ++ [S k]; peer_b := peer_b a; peer_off := peer_off a |} Hall)
      as (a' & Ha & Hl & Ho). exists a'. rewrite decide_True by done. cbn in *. rewrite Hb. split_and!; [done|by rewrite Hl, <-app_assoc|].
    rewrite Ho. solve_Permutation.
  - destruct (IH (S k) {| local_b := local_b a; local_off := local_off a; peer_b := peer_b a ++ [b]; peer_off := peer_off a ++ [S k] |} Hall)
      as (a' & Ha & Hl & Ho). exists a'. rewrite decide_False by done. cbn in *. split_and!; [done|done|].
    rewrite Ho. solve_Permutation.
Qed.

Lemma omap_fmap_l {A A' : Type} (f : A' → option B) (g : A → A') (l : list A) : omap f (g <$> l) = omap (λ x, f (g x)) l.
Proof. induction l as [|x l IH]; [done|]. rewrite fmap_cons, !omap_cons. by rewrite IH. Qed.

Lemma lookups_seq (l : list B) (f : nat → option B) s : (∀ i, i < length l → f (s + i) = l !! i) →
  omap f (seq s (length l)) = l.
Proof.
  revert s. induction l as [|b l IH]; intros s Hf; [done|]. cbn [length seq]. rewrite omap_cons.
  pose proof (Hf 0 ltac:(cbn; lia)) as H0. rewrite Nat.add_0_r in H0. rewrite H0. cbn. f_equal. apply IH.
  intros i Hi. replace (S s + i) with (s + S i) by lia. rewrite Hf by (cbn; lia). done.
Qed.

Definition node_slots (n : NodeAddr) : list DiskAddr := at_node (id n) <$> seq 0 (disk_count n).
Lemma all_disks_slots ns c : nodes c = ns → all_disks c = concat (node_slots <$> ns).
Proof.
  intros <-. unfold all_disks. induction (nodes c) as [|n ns IH]; [done|]. cbn [fmap list_fmap concat].
  change ((n :: ns) ≫= ?f) with (f n ++ (ns ≫= f)). by f_equal.
Qed.

Lemma own_slots ns k : filter (λ d, node_id d = k) (concat (node_slots <$> ns)) = concat (node_slots <$> filter (λ n, id n = k) ns).
Proof.
  induction ns as [|n ns IH]; [done|]. rewrite fmap_cons. cbn [concat]. rewrite filter_app, IH, filter_cons.
  destruct (decide (id n = k)) as [E|E]; [rewrite fmap_cons; cbn [concat]; f_equal|].
  - apply filter_all. intros d (i & -> & _)%list_elem_of_fmap. done.
  - rewrite filter_none; [done|]. by intros d (i & -> & _)%list_elem_of_fmap.
Qed.

Lemma local_order cfg (disks : list B) self dep : NoDup (id <$> cfg_nodes cfg) → self ∈ cfg_nodes cfg → id self = self_id cfg →
  length disks = disk_count self → (Z.of_nat (disk_count self) ≤ u16_mod)%Z →
  omap (λ d, all_backends_of remote_disk cfg disks !! d)
    (filter (λ d, node_id d = self_id cfg) (all_disks (cluster_of cfg dep))) = disks.
Proof.
  intros Hnd Hin Hid Hlen Hw.
  assert (filter (λ n, id n = self_id cfg) (cfg_nodes cfg) = [self]) as Hf.
  { clear Hlen Hw. induction (cfg_nodes cfg) as [|n ns IH]; [by apply elem_of_nil in Hin|].
    rewrite fmap_cons in Hnd. apply NoDup_cons in Hnd as [Hn Hnd]. rewrite filter_cons.
    apply elem_of_cons in Hin as [<-|Hin].
    - rewrite decide_True by done. f_equal. apply filter_none. intros n' Hn' E. apply Hn. rewrite Hid, <-E. by apply list_elem_of_fmap_2.
    - rewrite decide_False; [by apply IH|]. intros E. apply Hn. rewrite E, <-Hid. by apply list_elem_of_fmap_2. }
  rewrite (all_disks_slots (cfg_nodes cfg)), own_slots, Hf by done. cbn [fmap list_fmap concat]. rewrite app_nil_r. unfold node_slots.
  rewrite omap_fmap_l, <-Hlen. apply lookups_seq. intros i Hi. cbn. rewrite Hid.
  apply (backends_local remote_disk cfg disks self i); try done. lia.
Qed.
End format_order.

(** ** The tables of a node *)

Lemma self_found cfg self : self ∈ cfg_nodes cfg → id self = self_id cfg →
  is_Some (List.find (λ n, id n =? self_id cfg) (cfg_nodes cfg)).
Proof.
  intros Hin Hid. destruct (List.find _ _) as [n|] eqn:Hf; [by eexists|].
  apply list_elem_of_In in Hin. pose proof (List.find_none _ _ Hf self Hin) as Hn. cbn in Hn. by apply Nat.eqb_neq in Hn.
Qed.

(** What the environment variable leaves as it was. *)
Lemma override_same bad_int env cfg0 cfg : override_self_id bad_int env cfg0 = Ok cfg →
  cfg_nodes cfg = cfg_nodes cfg0 ∧ (∀ dep, cluster_of cfg dep = cluster_of cfg0 dep) ∧ credentials cfg = credentials cfg0
  ∧ mode cfg = mode cfg0 ∧ (env = None → cfg = cfg0).
Proof.
  unfold override_self_id. destruct env as [s|]; [|by intros [= ->]]. intros (ord & _ & [= <-])%bind_ok. done.
Qed.

Lemma run_storage_ok {B P : Type} (open_disk : string → result string B) (remote_disk : NodeAddr → nat → B) (local_peer : P)
    (remote_peer : NodeAddr → P) (siphash : list string → N) (dep : string) (cfg : Config) (self : NodeAddr) (disks : list B) :
  (∀ dep, wf_cluster (cluster_of cfg dep)) → self ∈ cfg_nodes cfg → id self = self_id cfg → length (data_dirs cfg) = disk_count self →
  NoDup (id <$> cfg_nodes cfg) → Forall (λ n, (Z.of_nat (disk_count n) < u16_mod)%Z) (cfg_nodes cfg) →
  collect (open_disk <$> data_dirs cfg) = Ok disks →
  ∃ b, run_storage open_disk remote_disk local_peer remote_peer cfg dep = Some (Ok b)
    ∧ wf_cluster (b_cluster b)
    ∧ (∀ a, a ∈ all_disks (b_cluster b) → is_Some (b_backends b !! a))
    ∧ (∀ i d, disks !! i = Some d → b_backends b !! at_node (self_id cfg) i = Some d)
    ∧ (∀ n i, n ∈ cfg_nodes cfg → id n ≠ self_id cfg → i < disk_count n → b_backends b !! at_node (id n) i = Some (remote_disk n i))
    ∧ local_b (b_format b) = disks
    ∧ local_off (b_format b) ++ peer_off (b_format b) ≡ₚ seq 1 (total_disks (b_cluster b))
    ∧ ∀ bucket key, ∃ drives ids ps, disks_for siphash (b_cluster b) bucket key = Some drives
         ∧ dsync_for_obj siphash b bucket key = Some (dsync_new (length ids), ps)
         ∧ NoDup ids ∧ (∀ k, k ∈ ids ↔ k ∈ node_id <$> drives)
         ∧ Forall2 (λ k p, ∃ n, n ∈ cfg_nodes cfg ∧ id n = k ∧ p = if k =? self_id cfg then local_peer else remote_peer n) ids ps.
Proof.
  intros Hwf Hin Hid Hlen Hids Hwidth Hopen.
  assert (length disks = disk_count self) as Hdl.
  { rewrite <-Hlen, <-(length_fmap open_disk). apply XlMeta.collect_ok_inv in Hopen as ->. by rewrite length_fmap. }
  assert (Z.of_nat (disk_count self) ≤ u16_mod)%Z as Hw by (rewrite Forall_forall in Hwidth; specialize (Hwidth self Hin); lia).
  unfold run_storage, self_node. destruct (self_found cfg self Hin Hid) as [n0 ->]. cbn [mbind option_bind]. rewrite Hopen.
  destruct (format_scan_ok cfg (all_backends_of remote_disk cfg disks) (all_disks (cluster_of cfg "")) 0
    {| local_b := []; local_off := []; peer_b := []; peer_off := [] |}) as (args & Hargs & Hlb & Hoff).
  { apply Forall_forall. intros a Ha. by apply (backends_total remote_disk cfg disks self ""). }
  unfold format_args. rewrite Hargs. cbn [mbind option_bind].
  set (cl := cluster_of cfg dep). destruct (num_sets_wf cl (Hwf dep)) as (ns & Hns & Hpos & _).
  pose (goodset s c := ∃ drives ids ps, set_disks cl s = Some drives ∧ c = (dsync_new (length ids), ps) ∧ NoDup ids
    ∧ (∀ k, k ∈ ids ↔ k ∈ node_id <$> drives)
    ∧ Forall2 (λ k p, ∃ n, n ∈ cfg_nodes cfg ∧ id n = k ∧ p = if k =? self_id cfg then local_peer else remote_peer n) ids ps).
  destruct (mapM_lookup (set_client cl (lock_peers local_peer remote_peer cfg)) goodset (seq 0 (ns `max` 1))) as (tbl & Htbl & Htl & Hgood).
  { intros s s' [-> Hs]%lookup_seq. cbn [plus]. destruct (set_disks_wf cl s ns (Hwf dep) Hns ltac:(lia)) as (ds & Hds & Eds & _).
    destruct (set_client_ok local_peer remote_peer cfg dep s ds Hids Hds) as (ids & ps & Hc & Hnd & Hk & Hf).
    { intros d Hd. rewrite Eds in Hd. by apply elem_of_take_part, elem_of_drop_part in Hd. }
    eexists. split; [done|]. by exists ds, ids, ps. }
  unfold dsync_table. rewrite Hns. cbn [mbind option_bind]. rewrite Htbl. cbn [mbind option_bind].
  eexists. split; [done|]. cbn [b_cluster b_backends b_format]. split_and!.
  - apply Hwf.
  - intros a Ha. by apply (backends_total remote_disk cfg disks self dep).
  - intros i d Hi. pose proof (lookup_lt_Some _ _ _ Hi). rewrite (backends_local remote_disk cfg disks self i); try done. lia.
  - intros n i Hn Hs Hi. by apply backends_remote.
  - rewrite Hlb. apply (local_order remote_disk cfg disks self ""); try done.
  - rewrite Hoff, length_all_disks. done.
  - intros bucket key. destruct (disks_for_wf siphash cl bucket key (Hwf dep)) as (s & ns' & ds & Hs & Hns' & Hlt & Hds & _).
    rewrite Hns in Hns'. injection Hns' as <-.
    destruct (lookup_lt_is_Some_2 tbl s) as [c Hc]; [rewrite Htl, length_seq; lia|].
    destruct (Hgood s c Hc) as (drives & ids & ps & Hd & -> & Hnd & Hk & Hf). exists drives, ids, ps.
    split; [|split; [|done]].
    + unfold disks_for. rewrite Hs. cbn. done.
    + unfold dsync_for_obj. cbn [b_cluster b_dsync]. rewrite Hs. cbn. done.
Qed.

(** ** Property *)

(** C10.  The start of a storage node from a configuration the server accepts,
    whose node ids differ, and perhaps another node id from the environment.  It
    panics when the buffer pool has queues of capacity zero, and when the node id
    is not in the table.  Otherwise, when the node of that id has as many disks as
    there are data directories (which the checks guarantee for the id in the
    file), and the disks and certificates can be opened, the node starts (no
    [expect] fails) and what it builds is right.  The topology is well formed,
    with at least one parity drive per set; every disk of the topology has a
    backend, the local ones in the order of [data_dirs], the others a client of
    their node; every disk has one position of the format; the lock client used
    for an object, or for a bucket, has exactly the nodes that own the drives of
    its set as peers and asks a majority of them; and some credential, with no
    empty key, is loaded. *)
Theorem accepted_config_boots {B P : Type} (toml_from_str : string → result string Config) (is_dir exists_path : string → bool)
    (rdma_build : bool) (open_disk : string → result string B) (remote_disk : NodeAddr → nat → B) (local_peer : P)
    (remote_peer : NodeAddr → P) (bad_int : string → string) (load : Config → result string unit)
    (siphash : list string → N) (text dep : string) (env : option string) (cfg0 cfg : Config) (disks : list B)
    (Haccept : from_toml toml_from_str is_dir exists_path rdma_build text = Ok cfg0) (Hmode : mode cfg0 = Storage)
    (Hover : override_self_id bad_int env cfg0 = Ok cfg)
    (Hids : NoDup (id <$> cfg_nodes cfg)) (Hwidth : Forall (λ n, (Z.of_nat (disk_count n) < u16_mod)%Z) (cfg_nodes cfg))
    (Hload : load cfg = Ok ()) (Hopen : collect (open_disk <$> data_dirs cfg) = Ok disks) :
  let started := start open_disk remote_disk local_peer remote_peer (from_toml toml_from_str is_dir exists_path rdma_build)
                   bad_int load text env dep in
  (mp_bucket_capacity (memory_pool cfg) = 0 → started = None)
  ∧ (self_id cfg ∉ id <$> cfg_nodes cfg → started = None)
  ∧ (mp_bucket_capacity (memory_pool cfg) ≠ 0 →
     env = None ∨ (∃ n, n ∈ cfg_nodes cfg ∧ id n = self_id cfg ∧ length (data_dirs cfg) = disk_count n) →
     ∃ pool b, started = Some (Ok (pool, Some b)) ∧ MemoryPool_new (pool_config (memory_pool cfg)) = Some pool
       ∧ wf_cluster (b_cluster b)
       ∧ (∀ a, a ∈ all_disks (b_cluster b) → is_Some (b_backends b !! a))
       ∧ (∀ i d, disks !! i = Some d → b_backends b !! at_node (self_id cfg) i = Some d)
       ∧ (∀ n i, n ∈ cfg_nodes cfg → id n ≠ self_id cfg → i < disk_count n → b_backends b !! at_node (id n) i = Some (remote_disk n i))
       ∧ local_b (b_format b) = disks
       ∧ local_off (b_format b) ++ peer_off (b_format b) ≡ₚ seq 1 (total_disks (b_cluster b))
       ∧ (∀ bucket key, ∃ drives ids ps, disks_for siphash (b_cluster b) bucket key = Some drives
            ∧ dsync_for_obj siphash b bucket key = Some (dsync_new (length ids), ps)
            ∧ NoDup ids ∧ (∀ k, k ∈ ids ↔ k ∈ node_id <$> drives)
            ∧ Forall2 (λ k p, ∃ n, n ∈ cfg_nodes cfg ∧ id n = k ∧ p = if k =? self_id cfg then local_peer else remote_peer n) ids ps)
       ∧ credentials cfg ≠ [] ∧ Forall (λ c, access_key c ≠ "" ∧ secret_key c ≠ "") (credentials cfg)).
Proof.
  intros started. destruct (override_same bad_int env cfg0 cfg Hover) as (En & Ecl & Ec & Em & Eenv).
  assert (started = (pool ← MemoryPool_new (pool_config (memory_pool cfg));
    r ← run_storage open_disk remote_disk local_peer remote_peer cfg dep; Some (b ← r; Ok (pool, Some b)))) as ->.
  { subst started. unfold start. rewrite Haccept. cbn [mbind result_bind]. by rewrite Hover, Hload, Em, Hmode. }
  unfold MemoryPool_new. cbn [pool_config bucket_capacity]. split_and!.
  - by intros ->.
  - intros Hno. destruct (_ =? 0); [done|]. cbn [mbind option_bind]. unfold run_storage, self_node. destruct (List.find _ _) as [n|] eqn:Hf; [|done].
    apply find_self in Hf as [Hn Hid]. destruct Hno. rewrite <-Hid. by apply list_elem_of_fmap_2.
  - intros Hcap%Nat.eqb_neq Hself. rewrite Hcap. cbn [mbind option_bind].
    apply from_toml_ok in Haccept as (_ & Hchk & _ & _ & Hne & Hcred).
    destruct (check_storage_ok is_dir cfg0 Hmode Hchk ltac:(by rewrite <-En)) as (Hwf & self0 & Hin0 & Hid0 & Hlen0 & _).
    assert (∃ self, self ∈ cfg_nodes cfg ∧ id self = self_id cfg ∧ length (data_dirs cfg) = disk_count self) as (self & Hin & Hid & Hlen).
    { destruct Hself as [He|Hn]; [|done]. rewrite (Eenv He). by exists self0. }
    destruct (run_storage_ok open_disk remote_disk local_peer remote_peer siphash dep cfg self disks) as (b & -> & H); try done.
    { intros d. by rewrite Ecl. }
    cbn [mbind option_bind result_bind]. eexists _, b. split; [done|]. split; [done|]. destruct H as (?&?&?&?&?&?&?).
    rewrite Ec. split_and!; try done. by apply check_credentials_ok.
Qed.

(** ** Witness: two nodes of two disks, sets of two *)

Definition two_nodes : list NodeAddr :=
  [{| id := 0; rpc_addr := "10.0.0.1:9100"; disk_count := 2 |}; {| id := 1; rpc_addr := "10.0.0.2:9100"; disk_count := 2 |}].
Definition sample_config (ns : list NodeAddr) : Config :=
  {| self_id := 0; data_dirs := ["/mnt/disk0"; "/mnt/disk1"]; s3_addr := "0.0.0.0:9000"; s3_port := None;
     cfg_rpc_addr := "0.0.0.0:9100"; cfg_set_drive_count := 2; cfg_default_parity_count := 1; region := "us-east-1";
     credentials := [{| access_key := "k"; secret_key := "s" |}]; cfg_nodes := ns; s3_tls := None; rpc_tls := None;
     memory_pool := MemoryPoolToml_default; mode := Storage; transport := H2; rdma := None; kv_slab := None |}.
Definition with_capacity (cap : nat) (cfg : Config) : Config :=
  {| self_id := self_id cfg; data_dirs := data_dirs cfg; s3_addr := s3_addr cfg; s3_port := s3_port cfg; cfg_rpc_addr := cfg_rpc_addr cfg;
     cfg_set_drive_count := cfg_set_drive_count cfg; cfg_default_parity_count := cfg_default_parity_count cfg; region := region cfg;
     credentials := credentials cfg; cfg_nodes := cfg_nodes cfg; s3_tls := s3_tls cfg; rpc_tls := rpc_tls cfg;
     memory_pool := {| mp_enabled := true; mp_size_bytes := 1048576; mp_bucket_capacity := cap |}; mode := mode cfg;
     transport := transport cfg; rdma := rdma cfg; kv_slab := kv_slab cfg |}.
Definition read_sample (ns : list NodeAddr) (text : string) : result string Config := Ok (sample_config ns).

(** The other node reads the same file, with its id in the environment. *)
Definition sample_start (env : option string) (cap : nat) : option (result string (MemoryPool * option (@Booted (string + nat * nat)%type string))) :=
  start (λ p, Ok (inl p)) (λ n i, inr (id n, i)) "here" rpc_addr
    (from_toml (λ _, Ok (with_capacity cap (sample_config two_nodes))) (λ _, true) (λ _, true) false)
    (λ s, "not a u16: " +:+ s) (λ _, Ok ()) "" env "d".
Lemma accepted_config_boots_witness :
  sample_start None 0 = None ∧ sample_start (Some "7") 128 = None
  ∧ ∃ pool b, sample_start (Some "1") 128 = Some (Ok (pool, Some b)) ∧ wf_cluster (b_cluster b)
      ∧ b_backends b !! at_node 0 1 = Some (inr (0, 1)) ∧ local_b (b_format b) = [inl "/mnt/disk0"; inl "/mnt/disk1"].
Proof.
  pose (run env cap := accepted_config_boots (λ _, Ok (with_capacity cap (sample_config two_nodes))) (λ _, true) (λ _, true) false
    (λ p, Ok (inl p)) (λ n i, inr (id n, i)) "here" rpc_addr (λ s, "not a u16: " +:+ s) (λ _, Ok ()) (λ _, 0%N) "" "d" env
    (with_capacity cap (sample_config two_nodes))).
  assert (NoDup (id <$> two_nodes)) as Hids by (cbn; repeat constructor; set_solver).
  assert (Forall (λ n, (Z.of_nat (disk_count n) < u16_mod)%Z) two_nodes) as Hw by (repeat constructor).
  pose (dirs := [inl "/mnt/disk0"; inl "/mnt/disk1"] : list (string + nat * nat)).
  split; [|split].
  - exact (proj1 (run None 0 (with_capacity 0 (sample_config two_nodes)) dirs eq_refl eq_refl eq_refl Hids Hw eq_refl eq_refl) eq_refl).
  - refine (proj1 (proj2 (run (Some "7") 128 (with_self_id 7 (with_capacity 128 (sample_config two_nodes))) dirs
      eq_refl eq_refl eq_refl Hids Hw eq_refl eq_refl)) _). cbn. set_solver.
  - pose proof (proj2 (proj2 (run (Some "1") 128 (with_self_id 1 (with_capacity 128 (sample_config two_nodes))) dirs
      eq_refl eq_refl eq_refl Hids Hw eq_refl eq_refl))) as H.
    destruct H as (pool & b & Hs & _ & Hwf & _ & _ & Hrem & Hl & _); [done| |].
    { right. exists {| id := 1; rpc_addr := "10.0.0.2:9100"; disk_count := 2 |}. split; [|done]. right. left. }
    exists pool, b. split_and!; [exact Hs|exact Hwf| |exact Hl].
    apply (Hrem {| id := 0; rpc_addr := "10.0.0.1:9100"; disk_count := 2 |}); [left|done|cbn; lia].
Defined.

(** Paths are compared by their components. *)
Example dirs_compared :
  let cfg dirs := {| self_id := 0; data_dirs := dirs; s3_addr := ""; s3_port := None; cfg_rpc_addr := ""; cfg_set_drive_count := 2;
    cfg_default_parity_count := 1; region := ""; credentials := []; cfg_nodes := [{| id := 0; rpc_addr := ""; disk_count := 2 |}];
    s3_tls := None; rpc_tls := None; memory_pool := MemoryPoolToml_default; mode := Storage; transport := H2; rdma := None; kv_slab := None |} in
  is_ok (check_storage (λ _, true) (cfg ["/mnt/a"; "/mnt//./a/"])) = false ∧ is_ok (check_storage (λ _, true) (cfg ["a"; "./a"])) = true.
Proof. vm_compute. done. Qed.

(** Node ids are not compared: with one id twice, a set can consist of one disk counted twice, and the loss of that disk
    loses both of its shards. *)
Example twin_nodes_accepted :
  let ns := [{| id := 0; rpc_addr := "10.0.0.1:9100"; disk_count := 2 |}; {| id := 7; rpc_addr := "10.0.0.2:9100"; disk_count := 1 |};
             {| id := 7; rpc_addr := "10.0.0.3:9100"; disk_count := 1 |}] in
  from_toml (read_sample ns) (λ _, true) (λ _, true) false "" = Ok (sample_config ns)
  ∧ set_disks (cluster_of (sample_config ns) "d") 1 = Some [at_node 7 0; at_node 7 0].
Proof. vm_compute. done. Qed.
