(* ===== verification/Rpc.v ===== *)
(** * The storage plane between nodes

    [openlake_io/src/rpc.rs] (the envelope), [openlake_server/src/rpc_server.rs]
    (the routes and [dispatch]) and [openlake_io/src/remote_fs.rs] (the client):
    a drive of another node as a storage backend.  Bincode and base64 are
    parameters.  What the network does to a call is an input ([delivery]): the
    call never arrives, its reply is lost, or both arrive.

    The arm for an RDMA attach is the one of a build without the [rdma] feature; [RdmaKv] has the other one. *)

From stdpp Require Import base gmap strings sorting pretty list.
From S2P Require Import Prelude Text Types LockServer Streams XlMeta Fs LocalFs Backend Format.

(** ** The envelope *)

Record SlabMeta := { slab_base : Z; rkey : Z; sm_slot_bytes : Z }.
Record LocalRdmaEndpoint := { runtime_id : Z; dct_num : Z; gid : bytes; dc_key : Z; lid : Z; kv_slab : option SlabMeta }.
Record RdmaEndpointsReply := { complete : bool; endpoints : list LocalRdmaEndpoint }.

Inductive Request :=
  | RDiskInfo (disk_idx : nat)
  | RMakeVol (disk_idx : nat) (v : string)
  | RStatVol (disk_idx : nat) (v : string)
  | RListVols (disk_idx : nat)
  | RDeleteVol (disk_idx : nat) (v : string) (force : bool)
  | RListDir (disk_idx : nat) (v dir : string) (count : Z)
  | RWalkDir (disk_idx : nat) (v base : string) (recursive : bool) (prefix : string) (after : option string) (max : option Z)
  | RCreateFileStream (disk_idx : nat) (v p : string) (sz : nat)
  | RReadFileStream (disk_idx : nat) (v p : string) (offset len : nat)
  | RRenameFile (disk_idx : nat) (sv sp dv dp : string)
  | RCheckFile (disk_idx : nat) (v p : string)
  | RDelete (disk_idx : nat) (v p : string) (recursive : bool)
  | RDeleteBatch (disk_idx : nat) (v : string) (ps : list string) (recursive : bool)
  | RWriteMetadata (disk_idx : nat) (ov v p : string) (fi : FileInfo)
  | RUpdateMetadata (disk_idx : nat) (v p : string) (fi : FileInfo) (no_persistence : bool)
  | RReadVersion (disk_idx : nat) (ov v p : string) (vid : option string) (read_data : bool)
  | RDeleteVersion (disk_idx : nat) (v p : string) (fi : FileInfo) (force undo : bool)
  | RRenameData (disk_idx : nat) (sv sp : string) (fi : FileInfo) (dv dp : string)
  | RVerifyFile (disk_idx : nat) (v p : string) (fi : FileInfo)
  | RReadFormat (disk_idx : nat)
  | RWriteFormat (disk_idx : nat) (fmt : FormatJson)
  | RWriteFile (disk_idx : nat) (v p : string) (content : bytes)
  | RReadFile (disk_idx : nat) (v p : string)
  | RMakeDirAll (disk_idx : nat) (v p : string)
  | RLockAcquire (resource uid : string) (ttl_ms : Z)
  | RLockRelease (resource uid : string)
  | RLockRefresh (resource uid : string)
  | RGetRdmaEndpoints
  | RRdmaAttach (client_node_id epoch : Z) (eps : list LocalRdmaEndpoint) (slot_bytes : Z).

Inductive Response :=
  | POk
  | PVol (v : VolInfo)
  | PVols (vs : list VolInfo)
  | PStrings (ss : list string)
  | PFile (fi : FileInfo)
  | PWalked (es : list (string * FileInfo))
  | PDisk (d : DiskInfo)
  | PDeleteBatchResult (rs : list (option WireError))
  | PRenamed (r : RenameDataResp)
  | PFormatOpt (o : option FormatJson)
  | PFileBytes (o : option bytes)
  | PLockGranted | PLockDenied | PLockRefreshed | PLockNotFound
  | PRdmaEndpoints (r : RdmaEndpointsReply)
  | PRdmaAttached (r : RdmaEndpointsReply)
  | PRdmaAttachDenied (why : string)
  | PErr (e : WireError).

(** ** The server *)

(** One node: its disks, its lock server and what it tells of its endpoints. *)
Record Node (B : Type) := { n_disks : list B; n_locks : LockServer; n_endpoints : RdmaEndpointsReply }.
Arguments n_disks {B} _.
Arguments n_locks {B} _.
Arguments n_endpoints {B} _.
Definition set_disk {B} (i : nat) (b : B) (n : Node B) : Node B :=
  {| n_disks := <[i := b]> (n_disks n); n_locks := n_locks n; n_endpoints := n_endpoints n |}.
Definition set_server {B} (s : LockServer) (n : Node B) : Node B :=
  {| n_disks := n_disks n; n_locks := s; n_endpoints := n_endpoints n |}.

Definition disk_at {B} (disks : list B) (disk_idx : nat) : IoResult B :=
  ok_or (disks !! disk_idx)
    (InvalidArgument ("disk_idx " +:+ pretty disk_idx +:+ " out of range (this node owns "
                      +:+ pretty (length disks) +:+ " disks)")).

Definition fold {A} (r : IoResult A) (ok : A → Response) : Response :=
  match r with Ok v => ok v | Err e => PErr (wire_of_io e) end.
Definition fold_unit (r : IoResult unit) : Response := fold r (λ _, POk).
Definition fold_batch (r : IoResult (list (IoResult unit))) : Response :=
  fold r (λ per_key, PDeleteBatchResult
    ((λ r : IoResult unit, match r with Ok _ => None | Err e => Some (wire_of_io e) end) <$> per_key)).

Section server.
Context {B : Type} `{SB : StorageBackend B, FB : FormatBackend B}.

(** [disk_or_err!] and the call on that disk. *)
Definition on_disk_idx {A} (i : nat) (m : B → option (A * B)) (reply : A → Response) (n : Node B) : option (Response * Node B) :=
  match disk_at (n_disks n) i with
  | Err e => Some (PErr (wire_of_io e), n)
  | Ok b => '(r, b) ← m b; Some (reply r, set_disk i b n)
  end.

Definition dispatch (now : Z) (req : Request) (n : Node B) : option (Response * Node B) :=
  match req with
  | RDiskInfo i => on_disk_idx i sb_disk_info (λ r, fold r PDisk) n
  | RMakeVol i v => on_disk_idx i (sb_make_vol v) fold_unit n
  | RStatVol i v => on_disk_idx i (sb_stat_vol v) (λ r, fold r PVol) n
  | RListVols i => on_disk_idx i sb_list_vols (λ r, fold r PVols) n
  | RDeleteVol i v force => on_disk_idx i (sb_delete_vol v force) fold_unit n
  | RListDir i v dir count => on_disk_idx i (sb_list_dir v dir (Z.to_nat count)) (λ r, fold r PStrings) n
  | RWalkDir i v base rec prefix after max =>
      on_disk_idx i (sb_walk_dir v base rec prefix after (Z.to_nat <$> max)) (λ r, fold r PWalked) n
  | RCreateFileStream _ _ _ _ | RReadFileStream _ _ _ _ _ =>
      Some (PErr (wire_of_io (InvalidArgument "streaming variant routed through unary dispatch")), n)
  | RRenameFile i sv sp dv dp => on_disk_idx i (sb_rename_file sv sp dv dp) fold_unit n
  | RCheckFile i v p => on_disk_idx i (sb_check_file v p) fold_unit n
  | RDelete i v p rec => on_disk_idx i (sb_delete v p rec) fold_unit n
  | RDeleteBatch i v ps rec => on_disk_idx i (sb_delete_batch v ps rec) fold_batch n
  | RWriteMetadata i ov v p fi => on_disk_idx i (sb_write_metadata ov v p fi) fold_unit n
  | RUpdateMetadata i v p fi np => on_disk_idx i (sb_update_metadata v p fi {| no_persistence := np |}) fold_unit n
  | RReadVersion i ov v p vid rd => on_disk_idx i (sb_read_version ov v p vid rd) (λ r, fold r PFile) n
  | RDeleteVersion i v p fi force undo =>
      on_disk_idx i (sb_delete_version v p fi force {| force_del_marker := force; undo_write := undo |}) fold_unit n
  | RRenameData i sv sp fi dv dp => on_disk_idx i (sb_rename_data sv sp fi dv dp) (λ r, fold r PRenamed) n
  | RVerifyFile i v p fi => on_disk_idx i (sb_verify_file v p fi) fold_unit n
  | RReadFormat i => on_disk_idx i fb_read_format (λ r, fold r PFormatOpt) n
  | RWriteFormat i fmt => on_disk_idx i (fb_write_format fmt) fold_unit n
  | RWriteFile i v p c => on_disk_idx i (sb_write_file v p c) fold_unit n
  | RReadFile i v p => on_disk_idx i (sb_read_file v p) (λ r, fold r PFileBytes) n
  | RMakeDirAll i v p => on_disk_idx i (sb_make_dir_all v p) fold_unit n
  | RLockAcquire resource u _ =>
      let '(granted, s) := acquire now resource u (n_locks n) in
      Some (if granted : bool then PLockGranted else PLockDenied, set_server s n)
  | RLockRelease resource u => Some (POk, set_server (release resource u (n_locks n)) n)
  | RLockRefresh resource u =>
      let '(stamped, s) := refresh now resource u (n_locks n) in
      Some (if stamped : bool then PLockRefreshed else PLockNotFound, set_server s n)
  | RGetRdmaEndpoints => Some (PRdmaEndpoints (n_endpoints n), n)
  | RRdmaAttach id _ _ _ =>
      Some (PRdmaAttachDenied ("node " +:+ pretty id +:+ " tried rdma attach on a server built without rdma"), n)
  end.
End server.

(** ** The wire *)

Record HttpReply := { hr_status : Z; hr_body : bytes }.
Definition is_success (status : Z) : bool := ((200 <=? status) && (status <? 300))%Z.
Definition UNARY_BODY_LIMIT : Z := 8 * 1024 * 1024.
Definition STREAM_REQ_LIMIT : Z := 64 * 1024.

(** Bincode for the two envelopes, as the Rust library provides it. *)
Class Bincode := {
  enc_req : Request → result string bytes;
  dec_req : bytes → result string Request;
  enc_resp : Response → result string bytes;
  dec_resp : bytes → result string Response
}.
(** What it promises: an envelope is encoded, and read back as it was. *)
Class BincodeLaws (C : Bincode) : Prop := {
  req_roundtrip : ∀ r b, enc_req r = Ok b → dec_req b = Ok r;
  resp_total : ∀ r, ∃ b, enc_resp r = Ok b;
  resp_roundtrip : ∀ r b, enc_resp r = Ok b → dec_resp b = Ok r
}.

Section wire.
Context {C : Bincode} {B : Type} `{SB : StorageBackend B, FB : FormatBackend B}.

(** [rpc::encode(..).unwrap_or_default()]. *)
Definition reply_bytes (r : Response) : bytes := match enc_resp r with Ok b => b | Err _ => [] end.
Definition rpc_ok (body : bytes) : HttpReply := {| hr_status := 200; hr_body := body |}.
Definition error_response (status : Z) (e : IoError) : HttpReply :=
  {| hr_status := status; hr_body := reply_bytes (PErr (wire_of_io e)) |}.
Definition is_streaming (r : Request) : bool :=
  match r with RCreateFileStream _ _ _ _ | RReadFileStream _ _ _ _ _ => true | _ => false end.

(** The body is collected under a limit. *)
Definition too_large : HttpReply := error_response 413 (Io (io_error_other "length limit exceeded")).

Definition handle_unary (now : Z) (body : bytes) (n : Node B) : option (HttpReply * Node B) :=
  if (UNARY_BODY_LIMIT <? Z.of_nat (length body))%Z then Some (too_large, n)
  else
    match dec_req body with
    | Err e => Some (error_response 400 (Decode e), n)
    | Ok req =>
        if is_streaming req then Some (error_response 400 (InvalidArgument "streaming variant routed to /v1/rpc"), n)
        else '(resp, n) ← dispatch now req n; Some (rpc_ok (reply_bytes resp), n)
    end.

(** ** The client *)

Definition map_http (msg : string) : IoError := Io (io_error_other msg).
(** [unexpected(r)]; [debug] is what [{:?}] prints of the response. *)
Context (debug : Response → string).
Definition unexpected_resp (r : Response) : IoError := Decode ("unexpected response variant: " +:+ debug r).

(** How a reply is read: a reply that is not a success still may carry an error. *)
Definition read_reply (reply : HttpReply) : IoResult Response :=
  if is_success (hr_status reply) then map_err Decode (dec_resp (hr_body reply))
  else match dec_resp (hr_body reply) with
       | Ok (PErr e) => Err (io_of_wire e)
       | _ => Err (Io (io_error_other ("rpc http status: " +:+ pretty (hr_status reply))))
       end.

(** [RemoteBackend::unary]. *)
Definition unary (env : call_env) (req : Request) (n : Node B) : option (IoResult Response * Node B) :=
  match enc_req req with
  | Err e => Some (Err (Encode e), n)
  | Ok body =>
      match fate env with
      | Dropped => Some (Err network_error, n)
      | ReplyLost => '(_, n) ← handle_unary (at_time env) body n; Some (Err network_error, n)
      | Delivered => '(reply, n) ← handle_unary (at_time env) body n; Some (read_reply reply, n)
      end
  end.

(** [call_unit!] and [call_typed!]. *)
Definition call_typed {A} (env : call_env) (req : Request) (pick : Response → option A) (n : Node B) :
    option (IoResult A * Node B) :=
  '(r, n) ← unary env req n;
  Some (resp ← r;
        match pick resp with
        | Some a => Ok a
        | None => match resp with PErr e => Err (io_of_wire e) | other => Err (unexpected_resp other) end
        end, n).
Definition call_unit (env : call_env) (req : Request) (n : Node B) : option (IoResult unit * Node B) :=
  call_typed env req (λ r, match r with POk => Some () | _ => None end) n.

(** The counts of two calls travel as [u32]. *)
Definition as_u32 (k : nat) : Z := (Z.of_nat k `mod` u32_mod)%Z.

(** The storage calls of [RemoteBackend]. *)
Definition remote_call {A} (env : call_env) (i : nat) (c : Call A) : Node B → option (IoResult A * Node B) :=
  match c with
  | CDiskInfo => call_typed env (RDiskInfo i) (λ r, match r with PDisk d => Some d | _ => None end)
  | CMakeVol v => call_unit env (RMakeVol i v)
  | CListVols => call_typed env (RListVols i) (λ r, match r with PVols vs => Some vs | _ => None end)
  | CStatVol v => call_typed env (RStatVol i v) (λ r, match r with PVol v => Some v | _ => None end)
  | CDeleteVol v force => call_unit env (RDeleteVol i v force)
  | CListDir v dir count =>
      call_typed env (RListDir i v dir (as_u32 count)) (λ r, match r with PStrings ss => Some ss | _ => None end)
  | CRenameFile sv sp dv dp => call_unit env (RRenameFile i sv sp dv dp)
  | CCheckFile v p => call_unit env (RCheckFile i v p)
  | CDelete v p rec => call_unit env (RDelete i v p rec)
  | CDeleteBatch v ps rec => λ n,
      '(r, n) ← unary env (RDeleteBatch i v ps rec) n;
      Some (match r with
            | Err e => Err e
            | Ok (PDeleteBatchResult per_key) =>
                Ok ((λ o : option WireError, match o with None => Ok () | Some e => Err (io_of_wire e) end) <$> per_key)
            | Ok other => Err (unexpected_resp other)
            end, n)
  | CWriteMetadata ov v p fi => call_unit env (RWriteMetadata i ov v p fi)
  | CReadVersion ov v p vid rd =>
      call_typed env (RReadVersion i ov v p vid rd) (λ r, match r with PFile fi => Some fi | _ => None end)
  | CWalkDir v base rec prefix after max =>
      call_typed env (RWalkDir i v base rec prefix after (as_u32 <$> max)) (λ r, match r with PWalked es => Some es | _ => None end)
  | CUpdateMetadata v p fi opts => call_unit env (RUpdateMetadata i v p fi (no_persistence opts))
  | CDeleteVersion v p fi force opts => call_unit env (RDeleteVersion i v p fi force (undo_write opts))
  | CRenameData sv sp fi dv dp =>
      call_typed env (RRenameData i sv sp fi dv dp) (λ r, match r with PRenamed x => Some x | _ => None end)
  | CVerifyFile v p fi => call_unit env (RVerifyFile i v p fi)
  | CWriteFile v p content => call_unit env (RWriteFile i v p content)
  | CReadFile v p => call_typed env (RReadFile i v p) (λ r, match r with PFileBytes o => Some o | _ => None end)
  | CMakeDirAll v p => call_unit env (RMakeDirAll i v p)
  end.

Definition remote_read_format (env : call_env) (i : nat) : Node B → option (IoResult (option FormatJson) * Node B) :=
  call_typed env (RReadFormat i) (λ r, match r with PFormatOpt o => Some o | _ => None end).
Definition remote_write_format (env : call_env) (i : nat) (f : FormatJson) : Node B → option (IoResult unit * Node B) :=
  call_unit env (RWriteFormat i f).
Definition get_rdma_endpoints (env : call_env) : Node B → option (IoResult RdmaEndpointsReply * Node B) :=
  call_typed env RGetRdmaEndpoints (λ r, match r with PRdmaEndpoints x => Some x | _ => None end).

(** ** The reference: the same call on the disk, seen through the wire *)

(** The request that a call sends. *)
Definition request_of {A} (i : nat) (c : Call A) : Request :=
  match c with
  | CDiskInfo => RDiskInfo i
  | CMakeVol v => RMakeVol i v
  | CListVols => RListVols i
  | CStatVol v => RStatVol i v
  | CDeleteVol v force => RDeleteVol i v force
  | CListDir v dir count => RListDir i v dir (as_u32 count)
  | CRenameFile sv sp dv dp => RRenameFile i sv sp dv dp
  | CCheckFile v p => RCheckFile i v p
  | CDelete v p rec => RDelete i v p rec
  | CDeleteBatch v ps rec => RDeleteBatch i v ps rec
  | CWriteMetadata ov v p fi => RWriteMetadata i ov v p fi
  | CReadVersion ov v p vid rd => RReadVersion i ov v p vid rd
  | CWalkDir v base rec prefix after max => RWalkDir i v base rec prefix after (as_u32 <$> max)
  | CUpdateMetadata v p fi opts => RUpdateMetadata i v p fi (no_persistence opts)
  | CDeleteVersion v p fi force opts => RDeleteVersion i v p fi force (undo_write opts)
  | CRenameData sv sp fi dv dp => RRenameData i sv sp fi dv dp
  | CVerifyFile v p fi => RVerifyFile i v p fi
  | CWriteFile v p content => RWriteFile i v p content
  | CReadFile v p => RReadFile i v p
  | CMakeDirAll v p => RMakeDirAll i v p
  end.

(** The call that the peer performs: the counts modulo 2^32, and one option
    rebuilt from the argument beside it. *)
Definition narrowed {A} (c : Call A) : Call A :=
  match c with
  | CListDir v dir count => CListDir v dir (Z.to_nat (as_u32 count))
  | CWalkDir v base rec prefix after max => CWalkDir v base rec prefix after (Z.to_nat ∘ as_u32 <$> max)
  | CDeleteVersion v p fi force opts =>
      CDeleteVersion v p fi force {| force_del_marker := force; undo_write := undo_write opts |}
  | c => c
  end.

Definition wire_error (e : IoError) : IoError := io_of_wire (wire_of_io e).
(** What the caller sees of the result: errors translated, also inside a batch;
    a failure of the batch as a whole has no place in the reply. *)
Definition seen_batch (r : IoResult (list (IoResult unit))) : IoResult (list (IoResult unit)) :=
  match r with
  | Ok rs => Ok (map (map_err wire_error) rs)
  | Err e => Err (unexpected_resp (PErr (wire_of_io e)))
  end.
Definition seen {A} (c : Call A) : IoResult A → IoResult A :=
  match c with CDeleteBatch _ _ _ => seen_batch | _ => map_err wire_error end.
(** A call on the disk the index names. *)
Definition call_disk {A} (i : nat) (c : Call A) (n : Node B) : option (IoResult A * Node B) :=
  match disk_at (n_disks n) i with
  | Err e => Some (Err e, n)
  | Ok b => '(r, b) ← run_call c b; Some (r, set_disk i b n)
  end.
End wire.

(** ** Lemmas: a call through the wire *)

Section calls.
Context {C : Bincode} {CL : BincodeLaws C} {B : Type} `{SB : StorageBackend B, FB : FormatBackend B}.
Context (debug : Response → string).

(** The reply of the peer to a call. *)
Definition reply_of {A} (c : Call A) : IoResult A → Response :=
  match c with
  | CDiskInfo => λ r, fold r PDisk
  | CListVols => λ r, fold r PVols
  | CStatVol _ => λ r, fold r PVol
  | CListDir _ _ _ => λ r, fold r PStrings
  | CDeleteBatch _ _ _ => fold_batch
  | CReadVersion _ _ _ _ _ => λ r, fold r PFile
  | CWalkDir _ _ _ _ _ _ => λ r, fold r PWalked
  | CRenameData _ _ _ _ _ => λ r, fold r PRenamed
  | CReadFile _ _ => λ r, fold r PFileBytes
  | _ => fold_unit
  end.

Lemma on_disk_idx_spec {A} i (m : call B A) reply (n : Node B) : (∀ e, reply (Err e) = PErr (wire_of_io e)) →
  on_disk_idx i m reply n =
    '(r, n) ← match disk_at (n_disks n) i with
              | Err e => Some (Err e, n)
              | Ok b => '(r, b) ← m b; Some (r, set_disk i b n)
              end; Some (reply r, n).
Proof.
  intros He. unfold on_disk_idx. destruct (disk_at (n_disks n) i) as [b|e]; cbn; [|by rewrite He].
  by destruct (m b) as [[r b']|].
Qed.

Lemma dispatch_request {A} (c : Call A) now i (n : Node B) :
  dispatch now (request_of i c) n = '(r, n) ← call_disk i (narrowed c) n; Some (reply_of c r, n).
Proof.
  unfold call_disk. destruct c as [| | | | | | | | | | | |v base rec pre after [k|]|? ? ? []| | | | | | ]; cbn [dispatch request_of];
    by rewrite on_disk_idx_spec.
Qed.

Lemma dispatched_total {A} (c : Call A) i : is_streaming (request_of i c) = false.
Proof. by destruct c. Qed.

(** The round trip of one request. *)
Lemma unary_spec env req (n : Node B) body : enc_req req = Ok body → (Z.of_nat (length body) ≤ UNARY_BODY_LIMIT)%Z →
  is_streaming req = false →
  unary env req n =
    match fate env with
    | Dropped => Some (Err network_error, n)
    | ReplyLost => '(_, n) ← dispatch (at_time env) req n; Some (Err network_error, n)
    | Delivered => '(resp, n) ← dispatch (at_time env) req n; Some (Ok resp, n)
    end.
Proof.
  intros He Hl Hs. unfold unary, handle_unary. rewrite He, (req_roundtrip _ _ He), Hs.
  rewrite (proj2 (Z.ltb_ge _ _)) by done.
  destruct (fate env); [| |done]; destruct (dispatch (at_time env) req n) as [[resp n']|]; cbn; try done.
  unfold reply_bytes. destruct (resp_total resp) as [b Hb]. rewrite Hb. unfold read_reply. cbn.
  by rewrite (resp_roundtrip _ _ Hb).
Qed.

(** A request that is too long is refused before it is read. *)
Lemma unary_too_long env req (n : Node B) body : enc_req req = Ok body → (UNARY_BODY_LIMIT < Z.of_nat (length body))%Z →
  unary env req n = Some (Err (if fate env is Delivered then Decode "io: length limit exceeded" else network_error), n).
Proof.
  intros He Hl. unfold unary, handle_unary. rewrite He. rewrite (proj2 (Z.ltb_lt _ _)) by done.
  destruct (fate env); cbn; try done. unfold read_reply, too_large, error_response, reply_bytes.
  cbn. destruct (resp_total (PErr (WOther ("io: " +:+ "length limit exceeded")))) as [b Hb]. rewrite Hb. by rewrite (resp_roundtrip _ _ Hb).
Qed.

(** How the client reads the reply to its call. *)
Definition understood {A} (c : Call A) : Response → IoResult A :=
  let typed {A} (pick : Response → option A) resp :=
    match pick resp with
    | Some a => Ok a
    | None => match resp with PErr e => Err (io_of_wire e) | other => Err (unexpected_resp debug other) end
    end in
  match c with
  | CDiskInfo => typed (λ r, match r with PDisk d => Some d | _ => None end)
  | CListVols => typed (λ r, match r with PVols d => Some d | _ => None end)
  | CStatVol _ => typed (λ r, match r with PVol d => Some d | _ => None end)
  | CListDir _ _ _ => typed (λ r, match r with PStrings d => Some d | _ => None end)
  | CDeleteBatch _ _ _ => λ r,
      match r with
      | PDeleteBatchResult per_key =>
          Ok ((λ o : option WireError, match o with None => Ok () | Some e => Err (io_of_wire e) end) <$> per_key)
      | other => Err (unexpected_resp debug other)
      end
  | CReadVersion _ _ _ _ _ => typed (λ r, match r with PFile d => Some d | _ => None end)
  | CWalkDir _ _ _ _ _ _ => typed (λ r, match r with PWalked d => Some d | _ => None end)
  | CRenameData _ _ _ _ _ => typed (λ r, match r with PRenamed d => Some d | _ => None end)
  | CReadFile _ _ => typed (λ r, match r with PFileBytes d => Some d | _ => None end)
  | _ => typed (λ r, match r with POk => Some () | _ => None end)
  end.

Lemma remote_call_unary {A} (c : Call A) env i (n : Node B) :
  remote_call debug env i c n =
    '(r, n) ← unary env (request_of i c) n; Some (match r with Ok resp => understood c resp | Err e => Err e end, n).
Proof.
  destruct c; cbn [remote_call request_of]; unfold call_unit, call_typed; destruct (unary env _ n) as [[[resp|e] n']|]; try done;
    by destruct resp.
Qed.

Lemma understood_reply {A} (c : Call A) r : understood c (reply_of c r) = seen debug c r.
Proof.
  destruct c; destruct r as [a|e]; cbn; try done; try (by destruct a).
  f_equal. rewrite <-list_fmap_compose. apply list_fmap_ext. by intros ? [[]|] _.
Qed.

Lemma disk_at_lookup (disks : list B) i b : disk_at disks i = Ok b → disks !! i = Some b.
Proof. unfold disk_at. by destruct (disks !! i); intros [= ->]. Qed.
End calls.

(** ** Properties *)

(** C12.  Every storage call on a drive of another node whose request can be
    encoded within the limit of 8 MiB, for every fate of the call on the network: it is the same call on that node's disk, with the two
    counts narrowed to 32 bits and the error translated by the wire, and it
    changes nothing else of the node.  A call that never arrives has no effect;
    a call whose reply is lost has its effect and reports a network error; an
    index the node does not have is an error without an effect. *)
Theorem remote_call_equiv {C : Bincode} {CL : BincodeLaws C} {B : Type} `{SB : StorageBackend B, FB : FormatBackend B}
    (debug : Response → string) {A : Type} (c : Call A) (env : call_env) (i : nat) (n : Node B) (body : bytes)
    (Hencode : enc_req (request_of i c) = Ok body) (Hfits : (Z.of_nat (length body) ≤ UNARY_BODY_LIMIT)%Z) :
  remote_call debug env i c n =
    match fate env with
    | Dropped => Some (Err network_error, n)
    | ReplyLost => '(_, n') ← call_disk i (narrowed c) n; Some (Err network_error, n')
    | Delivered => '(r, n') ← call_disk i (narrowed c) n; Some (seen debug c r, n')
    end.
Proof.
  rewrite remote_call_unary, (unary_spec env _ n body Hencode Hfits (dispatched_total c i)).
  destruct (fate env); [| |done]; rewrite dispatch_request; destruct (call_disk i (narrowed c) n) as [[r n']|]; cbn; try done.
  by rewrite understood_reply.
Qed.

(** ** Streams over the wire *)

(** The data frames of an HTTP response body; an error ends it. *)
Abbreviation frames_in := (list (result string bytes)).

Record RemoteReadStream := { rr_inner : frames_in; rr_remaining : nat }.

(** [RemoteReadStream::read]; empty frames are skipped. *)
Fixpoint remote_read_loop (fs : frames_in) (remaining : nat) : IoResult bytes * RemoteReadStream :=
  if remaining =? 0 then (Ok [], {| rr_inner := fs; rr_remaining := remaining |})
  else match fs with
       | [] => (Err (Io {| io_kind := KindUnexpectedEof;
                           io_msg := "remote stream truncated, " +:+ pretty remaining +:+ " bytes missing" |}),
                {| rr_inner := []; rr_remaining := remaining |})
       | Err msg :: fs => (Err (map_http msg), {| rr_inner := fs; rr_remaining := remaining |})
       | Ok [] :: fs => remote_read_loop fs remaining
       | Ok buf :: fs =>
           if remaining <? length buf then
             (Err (Io (io_error_other ("remote read overran by " +:+ pretty (length buf - remaining) +:+ " bytes"))),
              {| rr_inner := fs; rr_remaining := remaining |})
           else (Ok buf, {| rr_inner := fs; rr_remaining := remaining - length buf |})
       end.
Definition remote_read (s : RemoteReadStream) := remote_read_loop (rr_inner s) (rr_remaining s).

(** The frames before the first error. *)
Fixpoint good_frames (fs : frames_in) : list bytes :=
  match fs with Ok b :: fs => b :: good_frames fs | _ => [] end.

Lemma remote_read_spec fs remaining : let '(r, s) := remote_read_loop fs remaining in
  ∀ chunk, r = Ok chunk →
    (chunk = [] → remaining = 0)
    ∧ length chunk + rr_remaining s = remaining
    ∧ (chunk ≠ [] → concat (good_frames fs) = chunk ++ concat (good_frames (rr_inner s))).
Proof.
  induction fs as [|[[|b buf]|msg] fs IH]; cbn [remote_read_loop]; destruct (Nat.eqb_spec remaining 0) as [->|Hr];
    try (by intros chunk [= <-]); try (by intros chunk [=]); [exact IH|].
  destruct (Nat.ltb_spec remaining (length (b :: buf))) as [Hl|Hl]; [by intros chunk [=]|].
  intros chunk [= <-]. cbn [rr_remaining rr_inner]. split_and!; [done|lia|done].
Qed.

#[global] Program Instance RemoteReadStream_stream : ByteStream RemoteReadStream := {|
  read s := Some (remote_read s);
  yields s bs := Forall (λ f, is_ok f = true) (rr_inner s) ∧ concat (good_frames (rr_inner s)) = bs ∧ length bs = rr_remaining s;
  serves s bs := concat (good_frames (rr_inner s)) `prefix_of` bs
|}.
Next Obligation.
  intros [fs rem] bs (Hok & Hc & Hl). cbn in *. unfold remote_read. cbn.
  revert bs Hc Hl. induction Hok as [|[[|b buf]|] fs Hb Hok IH]; intros bs Hc Hl; cbn [good_frames concat remote_read_loop] in *; [|..|done].
  - subst bs. cbn in *. subst rem. exists [], [], {| rr_inner := []; rr_remaining := 0 |}. done.
  - destruct (Nat.eqb_spec rem 0) as [->|Hr]; [|by apply IH].
    apply nil_length_inv in Hl as ->. eexists [], [], _. split; [done|]. split; [done|]. split; [|done].
    cbn. split; [by constructor|done].
  - destruct (Nat.eqb_spec rem 0) as [->|Hr]; [subst bs; rewrite length_app in Hl; cbn in Hl; lia|].
    subst bs. rewrite length_app in Hl.
    destruct (Nat.ltb_spec rem (length (b :: buf))); [lia|].
    eexists (b :: buf), (concat (good_frames fs)), _. split; [done|]. split; [done|]. split; [|done]. cbn in *. split_and!; [done..|lia].
Qed.
Next Obligation.
  intros [fs rem] bs [rest ->]. cbn. unfold remote_read. cbn. pose proof (remote_read_spec fs rem) as H.
  destruct (remote_read_loop fs rem) as [r s]. exists r, s. split; [done|]. intros chunk -> Hc.
  destruct (H chunk eq_refl) as (_ & _ & Hcat). rewrite (Hcat Hc), <-app_assoc.
  eexists. split; [done|]. by exists rest.
Qed.

(** The body of a streaming read on the server: frames of the local stream, cut
    at the announced length. *)
Fixpoint body_of {St} `{ByteStream St} (fuel total sent : nat) (s : St) : option frames_in :=
  if total <=? sent then Some []
  else match fuel with
       | 0 => None
       | S fuel =>
           '(r, s) ← read s;
           match r with
           | Err e => Some [Err (io_to_string e)]
           | Ok [] => Some []
           | Ok b =>
               let take_n := Nat.min (total - sent) (length b) in
               let frame := if take_n <? length b then take take_n b else b in
               fs ← body_of fuel total (sent + length frame) s;
               Some (Ok frame :: fs)
           end
       end.

Lemma body_of_yields {St} `{ByteStream St} fuel total sent (s : St) bs : yields s bs → total - sent ≤ fuel →
  ∃ fs, body_of fuel total sent s = Some fs ∧ Forall (λ f, is_ok f = true) fs
    ∧ concat (good_frames fs) = take (total - sent) bs.
Proof.
  revert sent s bs. induction fuel as [|fuel IH]; intros sent s bs Hy Hf; cbn [body_of]; destruct (Nat.leb_spec total sent) as [Hs|Hs]; try lia.
  1,2: exists []; split_and!; [done|constructor|by replace (total - sent) with 0 by lia].
  destruct (read_yields s bs Hy) as (chunk & rest & s' & -> & -> & Hy' & He). cbn [mbind option_bind].
  destruct chunk as [|b chunk].
  { exists []. rewrite (He eq_refl). split_and!; [done|constructor|by rewrite app_nil_r, take_nil]. }
  set (c := b :: chunk) in *. assert (0 < length c) as Hc by (unfold c; cbn; lia). clearbody c.
  set (frame := if Nat.min (total - sent) (length c) <? length c then take (Nat.min (total - sent) (length c)) c else c).
  assert (frame = take (total - sent) c) as ->.
  { unfold frame. destruct (Nat.ltb_spec (Nat.min (total - sent) (length c)) (length c)).
    - by rewrite Nat.min_l by lia.
    - by rewrite take_ge by lia. }
  rewrite length_take.
  destruct (IH (sent + Nat.min (total - sent) (length c)) s' rest Hy') as (fs & -> & Hok & Hcat); [lia|].
  cbn [mbind option_bind]. eexists. split; [done|]. split; [by constructor|]. cbn. rewrite Hcat, take_app. f_equal. f_equal. lia.
Qed.

(** A window of a file read from another node.  When the peer's local
    stream delivers [bs], the client's stream delivers exactly the announced
    length of them.  Whatever the network makes of the frames, a client that
    reads to the end without an error has received as many bytes as announced
    and no byte that was not sent, in order: a body that is cut short or too
    long is an error, never a short read. *)
Theorem remote_read_exact {St} `{ByteStream St} (s : St) (bs : bytes) (len : nat) (Hy : yields s bs) :
  ∃ fs, body_of len len 0 s = Some fs
    ∧ (len ≤ length bs → yields {| rr_inner := fs; rr_remaining := len |} (take len bs))
    ∧ ∀ (received : frames_in) (fuel : nat) (data : bytes) (s' : RemoteReadStream), concat (good_frames received) `prefix_of` concat (good_frames fs) →
        drain fuel {| rr_inner := received; rr_remaining := len |} = Some (Ok data, s') →
        len ≤ length bs ∧ data = take len bs.
Proof.
  destruct (body_of_yields len len 0 s bs Hy) as (fs & Hfs & Hok & Hcat); [lia|]. rewrite Nat.sub_0_r in Hcat.
  exists fs. split; [done|]. split.
  { intros Hl. split; [done|]. split; [done|]. cbn. rewrite length_take. lia. }
  intros received fuel data s' Hpre Hd.
  assert (∀ (fuel : nat) (r : RemoteReadStream) (data : bytes) (s' : RemoteReadStream), drain fuel r = Some (Ok data, s') →
    length data = rr_remaining r ∧ data `prefix_of` concat (good_frames (rr_inner r))) as Hdrain.
  { clear. induction fuel as [|fuel IH]; intros [fs rem] data s'; cbn; [done|]. unfold remote_read. cbn.
    pose proof (remote_read_spec fs rem) as Hr. destruct (remote_read_loop fs rem) as [[[|b c]|e] s1]; cbn; [..|done].
    - intros [= <- <-]. destruct (Hr [] eq_refl) as (-> & _); [|done]. split; [done|apply prefix_nil].
    - destruct (Hr _ eq_refl) as (_ & Hlen & Hcat). destruct (drain fuel s1) as [[[rest|] s2]|] eqn:Ed; [|done..].
      intros [= <- <-]. destruct (IH _ _ _ Ed) as [Hl [tl Ht]]. rewrite Hcat by done. cbn in *. split; [rewrite length_app; lia|].
      exists tl. rewrite Ht. cbn. by rewrite <-app_assoc. }
  destruct (Hdrain _ _ _ _ Hd) as [Hl [tl Ht]]. cbn in Hl, Ht. destruct Hpre as [tl' Ht'].
  rewrite Hcat, Ht, <-app_assoc in Ht'.
  assert (length (take len bs) = len) as Hlen.
  { apply (f_equal length) in Ht'. rewrite length_take, length_app in Ht'. rewrite length_take. lia. }
  split; [rewrite length_take in Hlen; lia|]. rewrite Ht' in Hlen |- *. rewrite length_app in Hlen.
  assert (tl ++ tl' = []) as -> by (apply nil_length_inv; lia). by rewrite app_nil_r.
Qed.

(** ** Streaming writes *)

(** A frame of a request body. *)
Inductive body_frame := FData (b : bytes) | FTrailers | FError (msg : string).

(** [pump_body_into_sink]. *)
Fixpoint pump_body {K} `{ByteSink K} (frames : list body_frame) (expected moved : nat) (k : K) : IoResult unit * K :=
  if moved <? expected then
    match frames with
    | [] => (Err (eof_error "stream-write body ended at " moved expected), k)
    | FTrailers :: frames => pump_body frames expected moved k
    | FError msg :: _ => (Err (Io (io_error_other msg)), k)
    | FData data :: frames =>
        if length data =? 0 then pump_body frames expected moved k
        else
          let take_n := Nat.min (expected - moved) (length data) in
          let chunk := if take_n <? length data then take take_n data else data in
          match write_all chunk k with
          | (Ok _, k) => pump_body frames expected (moved + length chunk) k
          | (Err e, k) => (Err e, k)
          end
    end
  else (Ok (), k).
Definition pump_body_into_sink {K} `{ByteSink K} (frames : list body_frame) (k : K) (expected : nat) := pump_body frames expected 0 k.

(** The bytes of a body. *)
Fixpoint body_bytes (frames : list body_frame) : bytes :=
  match frames with
  | FData b :: frames => b ++ body_bytes frames
  | FTrailers :: frames => body_bytes frames
  | _ => []
  end.

Lemma pump_body_written {K} `{ByteSink K} frames expected moved (k k' : K) : moved ≤ expected →
  pump_body frames expected moved k = (Ok (), k') →
  expected - moved ≤ length (body_bytes frames) ∧ written k' = written k ++ take (expected - moved) (body_bytes frames).
Proof.
  revert moved k. induction frames as [|[data| |msg] frames IH]; intros moved k Hm; cbn [pump_body body_bytes];
    destruct (Nat.ltb_spec moved expected) as [Hl|Hl]; try done;
    try (intros [= <-]; replace (expected - moved) with 0 by lia; split; [lia|by rewrite app_nil_r]); [|by apply IH].
  destruct (Nat.eqb_spec (length data) 0) as [Hz|Hz].
  { apply nil_length_inv in Hz as ->. by apply IH. }
  set (chunk := if Nat.min (expected - moved) (length data) <? length data then take (Nat.min (expected - moved) (length data)) data else data).
  assert (chunk = take (expected - moved) data) as ->.
  { unfold chunk. destruct (Nat.ltb_spec (Nat.min (expected - moved) (length data)) (length data));
      [by rewrite Nat.min_l by lia|by rewrite take_ge by lia]. }
  destruct (write_all (take (expected - moved) data) k) as [[[]|] k1] eqn:Ew; [|done]. rewrite length_take.
  intros Hp. apply IH in Hp as [H1 H2]; [|lia]. rewrite length_app. split; [lia|].
  rewrite H2, (write_all_ok _ _ _ Ew), take_app, app_assoc. do 2 f_equal. lia.
Qed.

Section stream_write.
Context {C : Bincode} {B K : Type} `{SK : ByteSink K}.
Context (debug : Response → string).
(** [URL_SAFE_NO_PAD] of the base64 library. *)
Context (b64_encode : bytes → string) (b64_decode : string → result string bytes).
(** [create_file_writer] of the peer's disks, and the disk a sink belongs to. *)
Context (create_file_writer : string → string → nat → B → option (IoResult K * B)) (disk_of : K → B).

Definition HDR_RPC : string := "x-openlake-rpc".

(** [handle_stream_write]; [hdr] is the header, when it is there and printable. *)
Definition handle_stream_write (hdr : option string) (frames : list body_frame) (n : Node B) : option (HttpReply * Node B) :=
  let bad e := Some (error_response 400 e, n) in
  match hdr with
  | None => bad (InvalidArgument ("missing " +:+ HDR_RPC +:+ " header"))
  | Some env_b64 =>
      match b64_decode env_b64 with
      | Err e => bad (InvalidArgument ("decode " +:+ HDR_RPC +:+ ": " +:+ e))
      | Ok env_bytes =>
          match dec_req env_bytes with
          | Err e => bad (Decode e)
          | Ok (RCreateFileStream i v p sz) =>
              match disk_at (n_disks n) i with
              | Err e => bad e
              | Ok b =>
                  '(r, b) ← create_file_writer v p sz b;
                  match r with
                  | Err e => Some (error_response 500 e, set_disk i b n)
                  | Ok sink =>
                      let '(pump_result, sink) := pump_body_into_sink frames sink sz in
                      let '(finish_result, sink) := finish sink in
                      let n := set_disk i (disk_of sink) n in
                      Some (match pump_result, finish_result with
                            | Ok _, Ok _ => rpc_ok (reply_bytes POk)
                            | Err e, _ => error_response 500 e
                            | Ok _, Err e => error_response 500 e
                            end, n)
                  end
              end
          | Ok _ => bad (InvalidArgument "expected CreateFileStream envelope")
          end
      end
  end.

(** [RemoteWriteSink]: the chunks in the body so far, the request's header, the
    peer, and what the network does to the request; [rw_accepts] is how many
    more chunks the body channel takes. *)
Record RemoteWriteSink := {
  rw_tx : option (list bytes); rw_expected : nat; rw_written : nat; rw_finished : bool;
  rw_hdr : string; rw_peer : Node B; rw_env : call_env; rw_accepts : nat
}.

Definition remote_write_all (buf : bytes) (k : RemoteWriteSink) : IoResult unit * RemoteWriteSink :=
  if rw_finished k then (Err (Io (io_error_other "write after finish")), k)
  else if length buf =? 0 then (Ok (), k)
  else match rw_tx k with
       | None => (Err (Io (io_error_other "sink already closed")), k)
       | Some chunks =>
           match rw_accepts k with
           | 0 => (Err (Io (io_error_other "peer body channel closed")), k)
           | S more =>
               (Ok (), {| rw_tx := Some (chunks ++ [buf]); rw_expected := rw_expected k;
                          rw_written := rw_written k + length buf; rw_finished := false; rw_hdr := rw_hdr k;
                          rw_peer := rw_peer k; rw_env := rw_env k; rw_accepts := more |})
           end
       end.

(** How the reply to a streaming write is read. *)
Definition read_write_reply (reply : HttpReply) : IoResult unit :=
  if is_success (hr_status reply) then
    match dec_resp (hr_body reply) with
    | Err e => Err (Decode e)
    | Ok POk => Ok ()
    | Ok (PErr e) => Err (io_of_wire e)
    | Ok other => Err (unexpected_resp debug other)
    end
  else match dec_resp (hr_body reply) with
       | Ok (PErr e) => Err (io_of_wire e)
       | _ => Err (Io (io_error_other ("create_file http " +:+ pretty (hr_status reply))))
       end.

(** [finish] and [finish_inner]; a panic of the peer's handler is a lost reply. *)
Definition closed_sink (k : RemoteWriteSink) (tx : option (list bytes)) (n : Node B) : RemoteWriteSink :=
  {| rw_tx := tx; rw_expected := rw_expected k; rw_written := rw_written k; rw_finished := true; rw_hdr := rw_hdr k;
     rw_peer := n; rw_env := rw_env k; rw_accepts := rw_accepts k |}.
Definition remote_finish (k : RemoteWriteSink) : IoResult unit * RemoteWriteSink :=
  if rw_finished k then (Ok (), k)
  else if negb (rw_written k =? rw_expected k) then
    (Err (eof_error "create_file_writer: wrote " (rw_written k) (rw_expected k)), closed_sink k (rw_tx k) (rw_peer k))
  else
    match fate (rw_env k) with
    | Dropped => (Err network_error, closed_sink k None (rw_peer k))
    | f =>
        match handle_stream_write (Some (rw_hdr k)) (FData <$> default [] (rw_tx k)) (rw_peer k) with
        | None => (Err network_error, closed_sink k None (rw_peer k))
        | Some (reply, n) =>
            (match f with Delivered => read_write_reply reply | _ => Err network_error end, closed_sink k None n)
        end
    end.

(** [RemoteBackend::create_file_writer]. *)
Definition remote_create_file_writer (env : call_env) (accepts i : nat) (v p : string) (sz : nat) (n : Node B) : IoResult RemoteWriteSink :=
  match enc_req (RCreateFileStream i v p sz) with
  | Err e => Err (Encode e)
  | Ok b => Ok {| rw_tx := Some []; rw_expected := sz; rw_written := 0; rw_finished := false; rw_hdr := b64_encode b;
                  rw_peer := n; rw_env := env; rw_accepts := accepts |}
  end.

Program Definition RemoteWriteSink_sink : ByteSink RemoteWriteSink := {|
  write_all := remote_write_all;
  finish := remote_finish;
  written k := concat (default [] (rw_tx k))
|}.
Next Obligation.
  intros b k k'. unfold remote_write_all. destruct (rw_finished k); [done|].
  destruct (Nat.eqb_spec (length b) 0) as [Hb|Hb]; [intros [= <-]; apply nil_length_inv in Hb as ->; by rewrite app_nil_r|].
  destruct (rw_tx k) as [chunks|] eqn:Et; [|done]. destruct (rw_accepts k); [done|]. intros [= <-]. cbn.
  rewrite concat_app. cbn. by rewrite app_nil_r.
Qed.

(** An open sink that has counted its bytes. *)
Definition rw_ok (hdr : string) (n : Node B) (sz : nat) (k : RemoteWriteSink) : Prop :=
  rw_finished k = false ∧ rw_hdr k = hdr ∧ rw_peer k = n ∧ rw_expected k = sz
  ∧ ∃ fs, rw_tx k = Some fs ∧ rw_written k = length (concat fs).

Lemma remote_push_ok hdr n sz chunks k k' r : rw_ok hdr n sz k →
  push_all (H := RemoteWriteSink_sink) chunks k = (r, k') → rw_ok hdr n sz k'.
Proof.
  revert k. induction chunks as [|c chunks IH]; intros k Hk; cbn; [by intros [= _ <-]|].
  destruct (remote_write_all c k) as [r1 k1] eqn:E.
  assert (rw_ok hdr n sz k1) as Hk1; [|destruct r1; [by apply IH|by intros [= _ <-]]].
  destruct Hk as (Hf & Hh & Hp & He & fs & Ht & Hw). unfold remote_write_all in E. rewrite Hf, Ht in E.
  destruct (length c =? 0); [injection E as _ <-; by split_and!; [..|exists fs]|].
  destruct (rw_accepts k); injection E as _ <-; [by split_and!; [..|exists fs]|].
  split_and!; [done..|]. eexists. split; [done|]. cbn. rewrite Hw, concat_app, length_app. cbn. by rewrite app_nil_r.
Qed.

Lemma body_bytes_data fs : body_bytes (FData <$> fs) = concat fs.
Proof. induction fs as [|f fs IH]; [done|]. cbn. by rewrite IH. Qed.

(** Writing a file on another node.  When opening the sink, every push and
    [finish] report success, the peer has opened its file, has written exactly
    the bytes that were pushed, as many as announced and in order, and has
    finished it with success; nothing else of the peer has changed. *)
Theorem remote_write_delivers {CL : BincodeLaws C} (Hb64 : ∀ b, b64_decode (b64_encode b) = Ok b)
    (env : call_env) (accepts i : nat) (v p : string) (sz : nat) (n : Node B) (k k1 k2 : RemoteWriteSink) (chunks : list bytes)
    (Hopen : remote_create_file_writer env accepts i v p sz n = Ok k)
    (Hpush : push_all (H := RemoteWriteSink_sink) chunks k = (Ok (), k1))
    (Hfin : finish (ByteSink := RemoteWriteSink_sink) k1 = (Ok (), k2)) :
  length (concat chunks) = sz
  ∧ ∃ b b' sink sink' sink'', n_disks n !! i = Some b ∧ create_file_writer v p sz b = Some (Ok sink, b')
      ∧ written sink' = written sink ++ concat chunks ∧ finish sink' = (Ok (), sink'')
      ∧ rw_peer k2 = set_disk i (disk_of sink'') n.
Proof.
  unfold remote_create_file_writer in Hopen. destruct (enc_req _) as [eb|] eqn:Ee; [|done].
  assert (rw_ok (b64_encode eb) n sz k ∧ rw_tx k = Some []) as [Hk Ht0].
  { injection Hopen as <-. split; [|done]. split_and!; [done..|]. by exists []. }
  pose proof (push_all_written (H := RemoteWriteSink_sink) _ _ _ Hpush) as Hw. cbn in Hw. rewrite Ht0 in Hw. cbn in Hw.
  destruct (remote_push_ok _ _ _ _ _ _ _ Hk Hpush) as (Hf & Hh & Hp & Hexp & fs & Ht & Hcnt).
  rewrite Ht in Hw. cbn in Hw. cbn in Hfin. unfold remote_finish in Hfin. rewrite Hf in Hfin.
  destruct (Nat.eqb_spec (rw_written k1) (rw_expected k1)) as [Hn|]; [|done]. cbn [negb] in Hfin.
  destruct (fate (rw_env k1)); [|by destruct (handle_stream_write _ _ _) as [[]|]|done].
  rewrite Hh, Ht, Hp in Hfin. cbn [default id] in Hfin. unfold handle_stream_write in Hfin.
  rewrite Hb64, (req_roundtrip _ _ Ee) in Hfin.
  assert (∀ st e, read_write_reply (error_response st e) = Ok () → False) as Hbad.
  { intros st e. unfold read_write_reply, error_response, reply_bytes. cbn [hr_body hr_status].
    destruct (resp_total (PErr (wire_of_io e))) as [rb Hrb]. rewrite Hrb, (resp_roundtrip _ _ Hrb). by destruct (is_success st). }
  destruct (disk_at (n_disks n) i) as [b|e] eqn:Ed; [|injection Hfin as H _; by apply Hbad in H].
  destruct (create_file_writer v p sz b) as [[[sink|e] b']|] eqn:Ec; cbv beta iota zeta delta [mbind option_bind] in Hfin; [|injection Hfin as H _; by apply Hbad in H|done].
  destruct (pump_body_into_sink (FData <$> fs) sink sz) as [[[]|e] sink'] eqn:Epump.
  2: { destruct (finish sink') as [? ?]. cbv beta iota zeta delta [mbind option_bind] in Hfin. injection Hfin as H _. by apply Hbad in H. }
  destruct (finish sink') as [[[]|e] sink''] eqn:Efin; cbv beta iota zeta delta [mbind option_bind] in Hfin; [|injection Hfin as H _; by apply Hbad in H].
  injection Hfin as _ <-. apply pump_body_written in Epump as [_ Hsink]; [|lia].
  rewrite body_bytes_data, Hw, Nat.sub_0_r in Hsink. rewrite Hcnt, Hw, Hexp in Hn.
  split; [done|]. exists b, b', sink, sink', sink''. split; [by apply disk_at_lookup|]. split; [done|].
  split; [by rewrite Hsink, take_ge by lia|]. split; done.
Qed.
End stream_write.

(** ** Streaming reads *)

Section stream_read.
Context {C : Bincode} {B St : Type} `{ST : ByteStream St}.
(** [read_file_stream] of the peer's disks. *)
Context (read_file_stream : string → string → nat → nat → B → option (IoResult St * B)).

(** [handle_stream_read]: an error, or the body of the file's bytes. *)
Definition handle_stream_read (body : bytes) (n : Node B) : option ((HttpReply + frames_in) * Node B) :=
  if (STREAM_REQ_LIMIT <? Z.of_nat (length body))%Z then Some (inl too_large, n)
  else
    match dec_req body with
    | Err e => Some (inl (error_response 400 (Decode e)), n)
    | Ok (RReadFileStream i v p offset len) =>
        match disk_at (n_disks n) i with
        | Err e => Some (inl (error_response 400 e), n)
        | Ok b =>
            '(r, b) ← read_file_stream v p offset len b;
            match r with
            | Err e => Some (inl (error_response 500 e), set_disk i b n)
            | Ok s => fs ← body_of len len 0 s; Some (inr fs, set_disk i b n)
            end
        end
    | Ok _ => Some (inl (error_response 400 (InvalidArgument "expected ReadFileStream envelope")), n)
    end.

(** [RemoteBackend::read_file_stream]; [cut] is what the network makes of the body. *)
Definition remote_read_file_stream (env : call_env) (cut : frames_in → frames_in) (i : nat) (v p : string) (offset len : nat)
    (n : Node B) : option (IoResult RemoteReadStream * Node B) :=
  match enc_req (RReadFileStream i v p offset len) with
  | Err e => Some (Err (Encode e), n)
  | Ok body =>
      match fate env with
      | Dropped => Some (Err network_error, n)
      | f =>
          '(r, n) ← handle_stream_read body n;
          Some (match f, r with
                | Delivered, inr fs => Ok {| rr_inner := cut fs; rr_remaining := len |}
                | Delivered, inl reply =>
                    match dec_resp (hr_body reply) with
                    | Ok (PErr e) => Err (io_of_wire e)
                    | _ => Err (Io (io_error_other ("read_file_stream http " +:+ pretty (hr_status reply))))
                    end
                | _, _ => Err network_error
                end, n)
      end
  end.
End stream_read.

(** ** Evaluation *)

(** A codec for every countable type: the bits of its code. *)
Fixpoint pos_bytes (p : positive) : bytes :=
  match p with xH => [] | xO p => x00 :: pos_bytes p | xI p => x01 :: pos_bytes p end.
Fixpoint bytes_pos (b : bytes) : positive :=
  match b with [] => xH | x00 :: b => xO (bytes_pos b) | _ :: b => xI (bytes_pos b) end.
Lemma bytes_pos_bytes p : bytes_pos (pos_bytes p) = p.
Proof. induction p as [p IH|p IH|]; cbn; by rewrite ?IH. Qed.
Definition bits_enc {A} `{Countable A} (a : A) : bytes := pos_bytes (countable.encode a).
Definition bits_dec {A} `{Countable A} (b : bytes) : result string A := ok_or (countable.decode (bytes_pos b)) "bad code".
Lemma bits_dec_enc {A} `{Countable A} (a : A) : bits_dec (bits_enc a) = Ok a.
Proof. unfold bits_dec, bits_enc. by rewrite bytes_pos_bytes, decode_encode. Qed.

#[export] Instance SlabMeta_eq_dec : EqDecision SlabMeta. Proof. solve_decision. Defined.
#[export] Instance LocalRdmaEndpoint_eq_dec : EqDecision LocalRdmaEndpoint. Proof. solve_decision. Defined.
#[export] Instance RdmaEndpointsReply_eq_dec : EqDecision RdmaEndpointsReply. Proof. solve_decision. Defined.
#[export] Instance FormatJson_eq_dec' : EqDecision FormatJson. Proof. solve_decision. Defined.
#[export] Instance VolInfo_eq_dec : EqDecision VolInfo. Proof. solve_decision. Defined.
#[export] Instance DiskInfo_eq_dec : EqDecision DiskInfo. Proof. solve_decision. Defined.
#[export] Instance RenameDataResp_eq_dec : EqDecision RenameDataResp. Proof. solve_decision. Defined.
#[export] Instance WireError_eq_dec : EqDecision WireError. Proof. solve_decision. Defined.
#[export] Instance Request_eq_dec : EqDecision Request. Proof. solve_decision. Defined.
#[export] Instance Response_eq_dec : EqDecision Response. Proof. solve_decision. Defined.

#[export] Instance VolInfo_countable : Countable VolInfo.
Proof. by refine (inj_countable' vol_name Build_VolInfo _); intros []. Defined.
#[export] Instance RenameDataResp_countable : Countable RenameDataResp.
Proof. by refine (inj_countable' (λ r, (sign r, old_data_dir r)) (λ '(a, b), Build_RenameDataResp a b) _); intros []. Defined.
#[export] Instance FormatJson_countable : Countable FormatJson.
Proof.
  by refine (inj_countable' (λ r, (fj_version r, fj_format r, fj_id r, fj_set_drive_count r, fj_this_disk r))
    (λ '(a, b, c, d, e), Build_FormatJson a b c d e) _); intros [].
Defined.
#[export] Instance DiskInfo_countable : Countable DiskInfo.
Proof.
  by refine (inj_countable' (λ r, (di_total r, di_used r, di_free r, di_used_inodes r, di_free_inodes r, fs_type r, root_disk r, healing r,
      endpoint r, mount_path r, di_id r)) (λ '(a, b, c, d, e, f, g, h, i, j, k), Build_DiskInfo a b c d e f g h i j k) _); intros [].
Defined.
#[export] Instance SlabMeta_countable : Countable SlabMeta.
Proof. by refine (inj_countable' (λ r, (slab_base r, rkey r, sm_slot_bytes r)) (λ '(a, b, c), Build_SlabMeta a b c) _); intros []. Defined.
#[export] Instance LocalRdmaEndpoint_countable : Countable LocalRdmaEndpoint.
Proof.
  by refine (inj_countable' (λ r, (runtime_id r, dct_num r, gid r, dc_key r, lid r, kv_slab r))
    (λ '(a, b, c, d, e, f), Build_LocalRdmaEndpoint a b c d e f) _); intros [].
Defined.
#[export] Instance RdmaEndpointsReply_countable : Countable RdmaEndpointsReply.
Proof. by refine (inj_countable' (λ r, (complete r, endpoints r)) (λ '(a, b), Build_RdmaEndpointsReply a b) _); intros []. Defined.
#[export] Instance ChecksumInfo_countable : Countable ChecksumInfo.
Proof. by refine (inj_countable' (λ r, (ci_part_number r, ci_algorithm r, ci_hash r)) (λ '(a, b, c), Build_ChecksumInfo a b c) _); intros []. Defined.
#[export] Instance ErasureInfo_countable : Countable ErasureInfo.
Proof.
  by refine (inj_countable' (λ r, (algorithm r, data_blocks r, parity_blocks r, block_size r, index r, distribution r, checksums r))
    (λ '(a, b, c, d, e, f, g), Build_ErasureInfo a b c d e f g) _); intros [].
Defined.
#[export] Instance ObjectPartInfo_countable : Countable ObjectPartInfo.
Proof.
  by refine (inj_countable' (λ r, (p_etag r, p_number r, p_size r, p_actual_size r, p_mod_time_ms r, p_index r, p_checksums r))
    (λ '(a, b, c, d, e, f, g), Build_ObjectPartInfo a b c d e f g) _); intros [].
Defined.
#[export] Instance FileInfo_countable : Countable FileInfo.
Proof.
  by refine (inj_countable' (λ r, ((volume r, name r, version_id r, is_latest r, deleted r, data_dir r, xl_v1 r),
      (mod_time_ms r, size r, mode r, written_by_version r, metadata r, meta_sys r, parts r),
      (erasure r, data r, num_versions r, fresh r, idx r, checksum r, versioned r)))
    (λ '((a, b, c, d, e, f, g), (h, i, j, k, l, m, n), (o, p, q, r, s, t, u)), Build_FileInfo a b c d e f g h i j k l m n o p q r s t u) _);
    intros [].
Defined.
#[export] Instance WireError_countable : Countable WireError.
Proof.
  by refine (inj_countable' (λ e, match e with
      | WVolumeNotFound v => (0, v, "") | WVolumeExists v => (1, v, "") | WVolumeNotEmpty v => (2, v, "")
      | WFileNotFound v p => (3, v, p) | WFileAlreadyExists v p => (4, v, p) | WOther s => (5, s, "") end)
    (λ '(t, v, p), match t with 0 => WVolumeNotFound v | 1 => WVolumeExists v | 2 => WVolumeNotEmpty v
      | 3 => WFileNotFound v p | 4 => WFileAlreadyExists v p | _ => WOther v end) _); intros [].
Defined.

(** The tag and the payload of a response. *)
Definition response_code (r : Response) : nat * positive :=
  match r with
  | POk => (0, 1%positive) | PVol v => (1, countable.encode v) | PVols v => (2, countable.encode v) | PStrings v => (3, countable.encode v) | PFile v => (4, countable.encode v)
  | PWalked v => (5, countable.encode v) | PDisk v => (6, countable.encode v) | PDeleteBatchResult v => (7, countable.encode v) | PRenamed v => (8, countable.encode v)
  | PFormatOpt v => (9, countable.encode v) | PFileBytes v => (10, countable.encode v) | PLockGranted => (11, 1%positive) | PLockDenied => (12, 1%positive)
  | PLockRefreshed => (13, 1%positive) | PLockNotFound => (14, 1%positive) | PRdmaEndpoints v => (15, countable.encode v)
  | PRdmaAttached v => (16, countable.encode v) | PRdmaAttachDenied v => (17, countable.encode v) | PErr v => (18, countable.encode v)
  end.
Definition code_response (c : nat * positive) : option Response :=
  match c.1 with
  | 0 => Some POk | 1 => PVol <$> countable.decode c.2 | 2 => PVols <$> countable.decode c.2 | 3 => PStrings <$> countable.decode c.2 | 4 => PFile <$> countable.decode c.2
  | 5 => PWalked <$> countable.decode c.2 | 6 => PDisk <$> countable.decode c.2 | 7 => PDeleteBatchResult <$> countable.decode c.2 | 8 => PRenamed <$> countable.decode c.2
  | 9 => PFormatOpt <$> countable.decode c.2 | 10 => PFileBytes <$> countable.decode c.2 | 11 => Some PLockGranted | 12 => Some PLockDenied
  | 13 => Some PLockRefreshed | 14 => Some PLockNotFound | 15 => PRdmaEndpoints <$> countable.decode c.2
  | 16 => PRdmaAttached <$> countable.decode c.2 | 17 => PRdmaAttachDenied <$> countable.decode c.2 | _ => PErr <$> countable.decode c.2
  end.
#[export] Instance Response_countable : Countable Response.
Proof. by refine (inj_countable response_code code_response _); intros []; cbn; rewrite ?decode_encode. Defined.

(** A codec for the requests of a table and for all responses. *)
Definition table_codec (table : list Request) : Bincode := {|
  enc_req r := match list_find (λ x, x = r) table with Some (i, _) => Ok (bits_enc i) | None => Err "not in the table" end;
  dec_req b := i ← bits_dec b; ok_or (table !! (i : nat)) "not in the table";
  enc_resp r := Ok (bits_enc r);
  dec_resp := bits_dec
|}.
#[export] Instance table_codec_laws table : BincodeLaws (table_codec table).
Proof.
  split; cbn.
  - intros r b. destruct (list_find _ table) as [[i x]|] eqn:E; [|done]. intros [= <-]. rewrite bits_dec_enc. cbn.
    apply list_find_Some in E as (-> & -> & _). done.
  - by eexists.
  - intros r b [= <-]. apply bits_dec_enc.
Qed.

Definition json_enc (f : FormatJson) : result string bytes := Ok (bits_enc f).
Lemma json_codec f b : json_enc f = Ok b → bits_dec b = Ok f.
Proof. intros [= <-]. apply bits_dec_enc. Qed.
#[export] Instance wire_local : StorageBackend LocalDrive := LocalDrive_backend put_to_vec put_from_slice sum_hash.
#[export] Instance wire_format : FormatBackend LocalDrive := LocalDrive_format json_enc bits_dec json_codec.

(** A node with two drives. *)
Definition two_disk_node : Node LocalDrive :=
  {| n_disks := [drive_of empty_drive; drive_of empty_drive]; n_locks := LockServer_new;
     n_endpoints := {| complete := true; endpoints := [] |} |}.
Definition debug_none (r : Response) : string := "".
Definition sent_ok : call_env := {| at_time := 0; fate := Delivered |}.
Definition one_call : Bincode := table_codec [RDeleteVol 1 "b" true].

Lemma remote_call_equiv_witness : ∃ d,
  remote_call (C := one_call) debug_none sent_ok 1 (CDeleteVol "b" true) two_disk_node = Some (Ok (), set_disk 1 d two_disk_node)
  ∧ tree (ld_disk d) !! ["b"] = None.
Proof.
  eexists. split.
  - rewrite (remote_call_equiv (C := one_call) debug_none (CDeleteVol "b" true) sent_ok 1 two_disk_node (bits_enc 0)).
    + cbn -[delete_vol]. vm_compute. reflexivity.
    + reflexivity.
    + vm_compute. discriminate.
  - vm_compute. reflexivity.
Defined.

Lemma remote_read_exact_witness : ∃ fs, body_of 2 2 0 {| bb_buf := [x01; x02; x03] |} = Some fs
  ∧ yields {| rr_inner := fs; rr_remaining := 2 |} [x01; x02].
Proof.
  destruct (remote_read_exact {| bb_buf := [x01; x02; x03] |} [x01; x02; x03] 2) as (fs & Hfs & Hy & _); [reflexivity|].
  exists fs. split; [exact Hfs|]. apply Hy. simpl. lia.
Defined.

(** Base64 stood for by the identity on bytes. *)
Definition b64_id (b : bytes) : string := of_bytes b.
Definition b64_un (s : string) : result string bytes := Ok (str_bytes s).

Definition one_write : Bincode := table_codec [RCreateFileStream 1 "b" "d/part" 3].
Definition write_sink : ByteSink RemoteWriteSink :=
  RemoteWriteSink_sink (C := one_write) debug_none b64_un create_file_writer sk_drive.

Definition write_k0 : RemoteWriteSink :=
  {| rw_tx := Some []; rw_expected := 3; rw_written := 0; rw_finished := false; rw_hdr := b64_id (bits_enc 0);
     rw_peer := two_disk_node; rw_env := sent_ok; rw_accepts := 5 |}.
Definition write_k1 : RemoteWriteSink := snd (push_all (H := write_sink) [[x01]; [x02; x03]] write_k0).
Definition write_k2 : RemoteWriteSink := snd (finish (ByteSink := write_sink) write_k1).

Lemma split_pair {A D : Type} (p : A * D) a : p.1 = a → p = (a, p.2).
Proof. by destruct p; intros <-. Qed.
Lemma remote_write_delivers_witness : ∃ sink sink' sink'' : LocalFileSink,
  written sink' = written sink ++ [x01; x02; x03] ∧ finish sink' = (Ok (), sink'')
  ∧ rw_peer write_k2 = set_disk 1 (sk_drive sink'') two_disk_node.
Proof.
  destruct (remote_write_delivers (C := one_write) debug_none b64_id b64_un create_file_writer sk_drive
    (λ b, f_equal Ok (str_bytes_of_bytes b)) sent_ok 5 1 "b" "d/part" 3 two_disk_node write_k0 write_k1 write_k2 [[x01]; [x02; x03]])
    as (_ & b & b' & sink & sink' & sink'' & _ & _ & Hw & Hf & Hp).
  - reflexivity.
  - apply (split_pair (push_all (H := write_sink) [[x01]; [x02; x03]] write_k0)). vm_compute. reflexivity.
  - apply (split_pair (finish (ByteSink := write_sink) write_k1)). vm_compute. reflexivity.
  - exists sink, sink', sink''. split; [exact Hw|]. split; [exact Hf|exact Hp].
Defined.
