(* ===== verification/RdmaKv.v ===== *)
(** * The KV plane over RDMA

    The server half: [kv_backend.rs] (the clients admitted) and the RDMA calls of
    [kv_engine.rs]; the routing table of [rdma/bootstrap.rs]; the client half,
    [openlake_kv_client/src/protocol.rs], with the window loop [rdma_chain] of
    [rdma/socket.rs].

    The network card is a parameter: a window of work requests copies the bytes
    they name, or fails after some of them; a request sent to a peer is
    answered, dropped or times out.  Taking a staging buffer, sending (which
    needs a credit and a send buffer) and waiting for a completion have no time
    limit: each may last for good, and then so does the operation.  Local and
    remote memory are one address space, as in [KvClient]. *)

From stdpp Require Import base numbers gmap strings list pretty.
From Stdlib Require Import ZArith.
From S2P Require Import Prelude Text Types Rpc Kv KvClient Rdma RdmaPool.
#[local] Open Scope Z_scope.

(** ** Endpoints *)

Record PeerEndpoint := {
  pe_node_id : Z; pe_gid : bytes; pe_dct_num : Z; pe_dc_key : Z; pe_lid : Z; pe_kv_slab : option SlabMeta
}.
Definition to_peer (node_id : Z) (ep : LocalRdmaEndpoint) : PeerEndpoint :=
  {| pe_node_id := node_id; pe_gid := gid ep; pe_dct_num := dct_num ep; pe_dc_key := dc_key ep; pe_lid := lid ep;
     pe_kv_slab := kv_slab ep |}.

Abbreviation RoutingTable := (gmap (Z * Z) PeerEndpoint).
Definition routing_insert (peer_node : Z) (ep : LocalRdmaEndpoint) (t : RoutingTable) : RoutingTable :=
  <[(peer_node, runtime_id ep) := to_peer peer_node ep]> t.

(** ** The clients of a server *)

Record KvBackend := { kb_peers : gmap (Z * Z) (PeerEndpoint * Z); kb_cap : nat }.
Definition KvBackend_new (cap : nat) : KvBackend := {| kb_peers := ∅; kb_cap := cap |}.
Definition backend_attach (id : Z) (ep : LocalRdmaEndpoint) (epoch : Z) (b : KvBackend) : result string KvBackend :=
  let k := (id, runtime_id ep) in
  let admit_peer := Ok {| kb_peers := <[k := (to_peer id ep, epoch)]> (kb_peers b); kb_cap := kb_cap b |} in
  match kb_peers b !! k with
  | Some (held, e) =>
      if bool_decide (pe_gid held ≠ gid ep) && (epoch <=? e)
      then Err ("client id " +:+ pretty id +:+ " held by another endpoint") else admit_peer
  | None => if (kb_cap b <=? base.size (kb_peers b))%nat then Err ("at capacity (" +:+ pretty (kb_cap b) +:+ " clients)") else admit_peer
  end.
Definition backend_peer_at (node_id runtime_id : Z) (b : KvBackend) : option PeerEndpoint := fst <$> kb_peers b !! (node_id, runtime_id).

(** ** The engine *)

(** Memory of the sender of a request. *)
Record RdmaRemoteBuf := { rr_addr : Z; rr_len : Z; rr_rkey : Z }.

Inductive RdmaRequest :=
  | ReadFileChunk (disk_idx : nat) (volume path : string) (offset length : Z) (target : RdmaRemoteBuf)
  | WriteFileChunk (disk_idx : nat) (volume path : string) (offset length : Z) (source : RdmaRemoteBuf)
  | BatchReserve (count : N)
  | BatchCommit (entries : list (N * bytes))
  | BatchLookup (key_hashes : list bytes)
  | BatchRelease (slot_idxs : list N)
  | GenericRequest (req : Request)
  | RdmaReset.
Inductive RdmaResponse :=
  | ChunkReady (bytes_written : Z)
  | ChunkWritten (bytes_written : Z)
  | BatchReserved (slots : list N)
  | BatchCommitted
  | BatchLookedUp (slots : list (option N))
  | BatchReleased
  | GenericResponse (resp : Response)
  | ResetDone.

Record RdmaEngine := {
  re_kv : KvEngine;
  re_backend : KvBackend;
  re_registry : list LocalRdmaEndpoint;
  (** The peers [on_attach] has reset, oldest first. *)
  re_reset : list (Z * Z)
}.

Section engine.
Context {HI : HashIter N}.
(** [Buffers::new]: the address and the remote key of the memory, or its error. *)
Context (alloc : Z → Z → result string (Z * Z)).

Fixpoint attach_endpoints (client : Z) (eps : list LocalRdmaEndpoint) (epoch : Z) (e : RdmaEngine) : result string unit * RdmaEngine :=
  match eps with
  | [] => (Ok (), e)
  | ep :: eps =>
      match backend_attach client ep epoch (re_backend e) with
      | Err why => (Err why, e)
      | Ok b =>
          attach_endpoints client eps epoch
            {| re_kv := re_kv e; re_backend := b; re_registry := re_registry e; re_reset := re_reset e ++ [(client, runtime_id ep)] |}
      end
  end.

Definition rdma_attach (client : Z) (eps : list LocalRdmaEndpoint) (epoch : Z) (slot_bytes : N) (e : RdmaEngine) :
    option (result string unit * RdmaEngine) :=
  match attach_endpoints client eps epoch e with
  | (Err why, e) => Some (Err why, e)
  | (Ok _, e) =>
      if (0 <? slot_bytes)%N && bool_decide (slab (re_kv e) = None) then
        if has_dev (re_kv e) then
          let slot_count := N.max (capacity_bytes (re_kv e) `div` slot_bytes) 1 in
          match alloc (Z.of_N slot_count) (Z.of_N slot_bytes) with
          | Err m => Some (Err ("rdma slab create: " +:+ m), e)
          | Ok (base, rkey) =>
              let s := {| rs_slots := SlotPool_new (slot_count `mod` 2 ^ 32) (ke_reserve_ttl (re_kv e));
                          rs_buf_size := slot_bytes; rs_buf_cnt := slot_count |} in
              let meta := {| slab_base := base; rkey := rkey; sm_slot_bytes := Z.of_N (slab_slot_bytes s) |} in
              Some (Ok (),
                {| re_kv := set_slab (RdmaBacked s) (re_kv e); re_backend := re_backend e;
                   re_registry := (λ ep, {| runtime_id := runtime_id ep; dct_num := dct_num ep; gid := gid ep;
                                            dc_key := dc_key ep; lid := lid ep; kv_slab := Some meta |})
                                    <$> re_registry e;
                   re_reset := re_reset e |})
          end
        else None
      else Some (Ok (), e)
  end.

(** A call on the slab, whatever its kind. *)
Definition on_slab {A} (f : ∀ S, KvSlab S → S → option (A * S)) (s : dyn_slab) : option (A * dyn_slab) :=
  match s with
  | HostBacked h => '(a, h) ← f HostSlab _ h; Some (a, HostBacked h)
  | RdmaBacked r => '(a, r) ← f RdmaSlab _ r; Some (a, RdmaBacked r)
  end.

Definition handle_slab (ck : clocks) (req : RdmaRequest) (s : dyn_slab) : option (RdmaResponse * dyn_slab) :=
  match req with
  | BatchReserve count => on_slab (λ S _ s, '(slots, s) ← slab_reserve ck count s; Some (BatchReserved slots, s)) s
  | BatchCommit entries => on_slab (λ S _ s, s ← slab_commit entries s; Some (BatchCommitted, s)) s
  | BatchLookup key_hashes => on_slab (λ S _ s, '(slots, s) ← slab_lookup key_hashes s; Some (BatchLookedUp slots, s)) s
  | BatchRelease slot_idxs => on_slab (λ S _ s, s ← slab_release slot_idxs s; Some (BatchReleased, s)) s
  | RdmaReset => on_slab (λ S _ s, Some (ResetDone, slab_reset s)) s
  | _ => None
  end.
Definition rdma_handle (ck : clocks) (req : RdmaRequest) (e : RdmaEngine) : option (RdmaResponse * RdmaEngine) :=
  match slab (re_kv e) with
  | None => Some (GenericResponse (PErr (WOther "no kv slab yet: call attach first for client discovery/exchange")), e)
  | Some s =>
      '(resp, s) ← handle_slab ck req s;
      Some (resp, {| re_kv := set_slab s (re_kv e); re_backend := re_backend e; re_registry := re_registry e; re_reset := re_reset e |})
  end.
End engine.

(** The arm of [dispatch] for an attach, in a build with RDMA. *)
Definition attach_request {HI : HashIter N} (alloc : Z → Z → result string (Z * Z)) (client_node_id epoch : Z) (eps : list LocalRdmaEndpoint) (slot_bytes : N)
    (kv : option RdmaEngine) (complete : bool) : option (Response * option RdmaEngine) :=
  match kv with
  | None => Some (PRdmaAttachDenied "not a kv node", None)
  | Some e =>
      if decide (CLIENT_NODE_ID_BASE ≤ client_node_id ≤ CLIENT_NODE_ID_MAX) then
        '(r, e) ← rdma_attach alloc client_node_id eps epoch slot_bytes e;
        Some (match r with
              | Ok _ => PRdmaAttached {| complete := complete; endpoints := re_registry e |}
              | Err why => PRdmaAttachDenied why
              end, Some e)
      else Some (PRdmaAttachDenied ("client id " +:+ pretty client_node_id +:+ " outside [2048, 4095]"), kv)
  end.

(** ** The client's transport *)

(** Registered memory, with its local key. *)
Record ExternalMr := { mr_addr : Z; mr_len : Z; mr_lkey : Z }.
(** [saturating_add] on the address, and the sum of two u64. *)
Definition mr_contains (addr len : Z) (m : ExternalMr) : bool :=
  (mr_addr m <=? addr) && (Z.min (addr + len) (u64_mod - 1) <=? (mr_addr m + mr_len m) `mod` u64_mod).

Inductive Phase := Attaching (routing : RoutingTable) | Ready (routing : RoutingTable) | Sealed.
Record Shared := {
  sh_self : Z; sh_endpoint : LocalRdmaEndpoint; sh_phase : Phase; sh_epoch : Z; sh_mrs : list ExternalMr;
  (** Of the node: the next request id and the requests that wait. *)
  sh_next_request_id : Z; sh_pending : gset Z
}.
Definition set_phase (p : Phase) (s : Shared) : Shared :=
  {| sh_self := sh_self s; sh_endpoint := sh_endpoint s; sh_phase := p; sh_epoch := sh_epoch s; sh_mrs := sh_mrs s;
     sh_next_request_id := sh_next_request_id s; sh_pending := sh_pending s |}.
Definition set_mrs (l : list ExternalMr) (s : Shared) : Shared :=
  {| sh_self := sh_self s; sh_endpoint := sh_endpoint s; sh_phase := sh_phase s; sh_epoch := sh_epoch s; sh_mrs := l;
     sh_next_request_id := sh_next_request_id s; sh_pending := sh_pending s |}.
Definition set_epoch (e : Z) (s : Shared) : Shared :=
  {| sh_self := sh_self s; sh_endpoint := sh_endpoint s; sh_phase := sh_phase s; sh_epoch := e; sh_mrs := sh_mrs s;
     sh_next_request_id := sh_next_request_id s; sh_pending := sh_pending s |}.
Definition set_requests (next : Z) (p : gset Z) (s : Shared) : Shared :=
  {| sh_self := sh_self s; sh_endpoint := sh_endpoint s; sh_phase := sh_phase s; sh_epoch := sh_epoch s; sh_mrs := sh_mrs s;
     sh_next_request_id := next; sh_pending := p |}.

Record RdmaClient (W : Type) := { rc_shared : Shared; rc_mem : Mem; rc_net : W }.
Arguments rc_shared {W} _.
Arguments rc_mem {W} _.
Arguments rc_net {W} _.
Definition set_client {W} (s : Shared) (m : Mem) (w : W) : RdmaClient W := {| rc_shared := s; rc_mem := m; rc_net := w |}.

(** [(local address, length, local key, remote address)]. *)
Record Op := { op_local : Z; op_len : Z; op_lkey : Z; op_remote : Z }.
Definition exec_op (write : bool) (m : Mem) (o : Op) : Mem :=
  if write then copy (op_remote o) (op_local o) (op_len o) m else copy (op_local o) (op_remote o) (op_len o) m.

(** The fate of a request: not sent, answered, its waiter dropped, no answer in
    time, or never sent because no credit or no send buffer comes free. *)
Inductive Fate := NotSent (why : string) | Answered (resp : RdmaResponse) | Dropped | TimedOut | Unsent.
(** The fate of a window: done, failed after [k] operations, or never completed,
    with [k] operations done. *)
Inductive Posted := PostDone | PostFailed (why : string) (k : nat) | PostWaits (k : nat).

(** *** Plans *)

(** [{:#x}]: the lowercase hexadecimal digits of a u64, which has at most 16. *)
Fixpoint hex_digits (fuel : nat) (z : Z) (acc : string) : string :=
  let acc := String (default Ascii.zero (String.get (Z.to_nat (z `mod` 16)) "0123456789abcdef")) acc in
  match fuel with
  | S fuel => if z <? 16 then acc else hex_digits fuel (z `div` 16) acc
  | O => acc
  end.
Definition lower_hex (z : Z) : string := "0x" +:+ hex_digits 15 z "".

(** [try_from] for every key. *)
Fixpoint key_hashes_from (i : nat) (keys : list bytes) : result string (list KeyHash) :=
  match keys with
  | [] => Ok []
  | k :: keys =>
      kh ← ok_or (key_hash_try_from k) ("key " +:+ pretty i +:+ ": " +:+ pretty (length k) +:+ " bytes, want 54");
      rest ← key_hashes_from (S i) keys;
      Ok (kh :: rest)
  end.
Definition to_key_hashes (keys : list bytes) : result string (list KeyHash) := key_hashes_from 0 keys.

(** The strips of one key, with the region that holds each; the search starts
    at the region of the strip before. *)
Fixpoint plan_strips (mrs : list ExternalMr) (i cur : nat) (scatter : Scatter) : result string (list (Z * Z * Z)) :=
  match scatter with
  | [] => Ok []
  | (addr, len) :: scatter =>
      if (len =? 0) || (u32_mod - 1 <? len) then Err ("key " +:+ pretty i +:+ ": invalid strip length " +:+ pretty len)
      else
        let holds_at k := match mrs !! k with Some m => mr_contains addr len m | None => false end in
        cur ← if holds_at cur then Ok cur
              else if holds_at (S cur) then Ok (S cur)
              else match list_find (λ m, mr_contains addr len m = true) mrs with
                   | Some (k, _) => Ok k
                   | None => Err ("key " +:+ pretty i +:+ ": address " +:+ lower_hex addr +:+ " not registered")
                   end;
        m ← ok_or (mrs !! cur) "unreachable";
        plan ← plan_strips mrs i cur scatter;
        Ok ((addr, len, mr_lkey m) :: plan)
  end.
Fixpoint resolve_loop (mrs : list ExternalMr) (payload_cap : Z) (i : nat) (scatters : list Scatter) : result string (list (list (Z * Z * Z))) :=
  match scatters with
  | [] => Ok []
  | scatter :: scatters =>
      let total := foldl (λ s l, (s + l) `mod` u64_mod) 0 scatter.*2 in
      if (total =? 0) || (payload_cap <? total)
      then Err ("key " +:+ pretty i +:+ ": payload " +:+ pretty total +:+ " not in (0, " +:+ pretty payload_cap +:+ "]")
      else plan ← plan_strips mrs i 0 scatter;
           rest ← resolve_loop mrs payload_cap (S i) scatters;
           Ok (plan :: rest)
  end.
Definition resolve_plans (s : Shared) (scatters : list Scatter) (payload_cap : Z) : result string (list (list (Z * Z * Z))) :=
  resolve_loop (sh_mrs s) payload_cap 0 scatters.

(** *** Work requests *)

Definition slot_start (meta : SlabMeta) (slot : N) : Z := slab_base meta + Z.of_N slot * sm_slot_bytes meta.
Fixpoint payload_ops (dst off : Z) (plan : list (Z * Z * Z)) : list Op :=
  match plan with
  | [] => []
  | (addr, len, lkey) :: plan =>
      {| op_local := addr; op_len := len; op_lkey := lkey; op_remote := dst + off |} :: payload_ops dst (off + len) plan
  end.
Definition header_op (staging : RdmaBufInner) (j : nat) (dst : Z) : Op :=
  {| op_local := rb_addr staging + Z.of_nat (j * KEY_BYTES); op_len := Z.of_nat KEY_BYTES; op_lkey := rb_lkey staging; op_remote := dst |}.
(** The writes of a put: the header from the staging buffer, then the strips.
    [None] is [plans[j]] out of range. *)
Fixpoint put_ops (meta : SlabMeta) (staging : RdmaBufInner) (j : nat) (slots : list N) (plans : list (list (Z * Z * Z))) : option (list Op) :=
  match slots, plans with
  | slot :: slots, plan :: plans =>
      let dst := slot_start meta slot in
      rest ← put_ops meta staging (S j) slots plans;
      Some (header_op staging j dst :: payload_ops dst (Z.of_nat KEY_BYTES) plan ++ rest)
  | [], _ => Some []
  | _ :: _, [] => None
  end.
(** The reads of a get: the strips of every hit, then its header. *)
Fixpoint get_ops (meta : SlabMeta) (staging : RdmaBufInner) (j : nat) (slots : list (option N)) (plans : list (list (Z * Z * Z))) : option (list Op) :=
  match slots, plans with
  | Some slot :: slots, plan :: plans =>
      let dst := slot_start meta slot in
      rest ← get_ops meta staging (S j) slots plans;
      Some (payload_ops dst (Z.of_nat KEY_BYTES) plan ++ header_op staging j dst :: rest)
  | Some _ :: _, [] => None
  | None :: slots, plans => get_ops meta staging (S j) slots (tail plans)
  | [], _ => Some []
  end.
(** The headers, written to the staging buffer. *)
Fixpoint stage_keys (staging : RdmaBufInner) (j : nat) (keys : list KeyHash) (m : Mem) : Mem :=
  match keys with
  | [] => m
  | k :: keys => stage_keys staging (S j) keys (poke (rb_addr staging + Z.of_nat (j * KEY_BYTES)) k m)
  end.

(** *** The operations *)

Section client.
Context {W : Type}.
(** The address handle of a peer; a request to a peer; posting a window; a
    buffer of the bulk pool; the attach call of a server; registering memory. *)
Context (ah : PeerEndpoint → result string unit).
Context (encode : RdmaRequest → result string unit).
Context (exchange : PeerEndpoint → RdmaRequest → W → Fate * W).
Context (post : bool → list Op → W → Posted * W).
(** [None]: no buffer ever comes free. *)
Context (acquire : W → option (result string RdmaBufInner) * W).
Context (attach_call : string → Z → Z → LocalRdmaEndpoint → Z → W → result string (list LocalRdmaEndpoint) * W).
Context (register : Z → Z → result string Z) (show : RdmaResponse → string).
(** The free entries [sq_acquire] finds at each window. *)
Context (grant : nat → nat).

Abbreviation client := (RdmaClient W).

(** An operation that may wait for good: [None] is the result of one that does. *)
Definition awaiting {A R} (x : option A * client) (k : A → client → option (option R * client)) : option (option R * client) :=
  match x with (Some a, c) => k a c | (None, c) => Some (None, c) end.

(** The windows of a chain.  A window has at least one entry, so the length of
    the chain bounds their number. *)
Fixpoint rdma_chain_loop (fuel : nat) (write : bool) (ops : list Op) (k : nat) (m : Mem) (w : W) : option (option (result string unit) * Mem * W) :=
  match ops with
  | [] => Some (Some (Ok ()), m, w)
  | _ =>
      match fuel with
      | O => None
      | S fuel =>
          let n := Nat.min (Nat.min CHAIN_WINDOW (length ops)) (Nat.max 1 (grant k)) in
          let '(r, w) := post write (take n ops) w in
          match r with
          | PostFailed e done => Some (Some (Err e), foldl (exec_op write) m (take done (take n ops)), w)
          | PostWaits done => Some (None, foldl (exec_op write) m (take done (take n ops)), w)
          | PostDone => rdma_chain_loop fuel write (drop n ops) (S k) (foldl (exec_op write) m (take n ops)) w
          end
      end
  end.
Definition rdma_chain (write : bool) (ops : list Op) (m : Mem) (w : W) : option (option (result string unit) * Mem * W) :=
  rdma_chain_loop (length ops) write ops 0 m w.

Definition do_attach (addr : string) (node_id slot_bytes : Z) (c : client) : result string Z * client :=
  match sh_phase (rc_shared c) with
  | Attaching routing =>
      let s := set_epoch (sh_epoch (rc_shared c) + 1) (rc_shared c) in
      let '(r, w) := attach_call addr (sh_self s) (sh_epoch s) (sh_endpoint s) slot_bytes (rc_net c) in
      match r with
      | Err e => (Err e, set_client s (rc_mem c) w)
      | Ok endpoints =>
          let routing := foldl (λ t ep, routing_insert node_id ep t) routing endpoints in
          (Ok (Z.of_nat (base.size routing)), set_client (set_phase (Attaching routing) s) (rc_mem c) w)
      end
  | _ => (Err "attach after first operation", c)
  end.

(** [None] is the [unreachable!] of the sealed phase. *)
Definition ensure_ready (s : Shared) : option (result string RoutingTable * Shared) :=
  match sh_phase s with
  | Ready routing => Some (Ok routing, s)
  | Attaching routing =>
      if decide (routing = ∅) then Some (Err "no nodes attached", s)
      else Some (Ok routing, set_requests 1 ∅ (set_phase (Ready routing) s))
  | Sealed => None
  end.

Definition do_register (addr len : Z) (c : client) : result string unit * client :=
  let s := rc_shared c in
  if existsb (λ m, (mr_addr m =? addr) && (mr_len m =? len)) (sh_mrs s) then (Ok (), c)
  else if (addr =? 0) || (len =? 0) then (Err ("register " +:+ lower_hex addr +:+ "+" +:+ pretty len +:+ ": register: zero addr or len"), c)
  else match register addr len with
       | Err e => (Err ("register " +:+ lower_hex addr +:+ "+" +:+ pretty len +:+ ": " +:+ e), c)
       | Ok lkey => (Ok (), set_client (set_mrs (sh_mrs s ++ [{| mr_addr := addr; mr_len := len; mr_lkey := lkey |}]) s) (rc_mem c) (rc_net c))
       end.

(** A request and its answer.  A request that cannot be encoded stays among the
    pending ones, as does one that is never sent. *)
Definition unary (routing : RoutingTable) (peer_node : Z) (payload : RdmaRequest) (c : client) : option (result string RdmaResponse) * client :=
  match routing !! (peer_node, 0) with
  | None => (Some (Err ("node " +:+ pretty peer_node +:+ " not attached")), c)
  | Some peer =>
      match ah peer with
      | Err e => (Some (Err ("ah for node " +:+ pretty peer_node +:+ ": " +:+ e)), c)
      | Ok _ =>
          let s := rc_shared c in
          let id := sh_next_request_id s in
          let waiting := set_requests (id + 1) ({[id]} ∪ sh_pending s) s in
          let settled := set_requests (id + 1) (sh_pending s ∖ {[id]}) s in
          match encode payload with
          | Err e => (Some (Err ("encode: " +:+ e)), set_client waiting (rc_mem c) (rc_net c))
          | Ok _ =>
              let '(fate, w) := exchange peer payload (rc_net c) in
              match fate with
              | NotSent e => (Some (Err ("send to node " +:+ pretty peer_node +:+ ": " +:+ e)), set_client settled (rc_mem c) w)
              | Answered resp => (Some (Ok resp), set_client settled (rc_mem c) w)
              | Dropped => (Some (Err "dispatcher dropped waiter"), set_client settled (rc_mem c) w)
              | TimedOut => (Some (Err ("node " +:+ pretty peer_node +:+ ": response timeout (10s)")), set_client settled (rc_mem c) w)
              | Unsent => (None, set_client waiting (rc_mem c) w)
              end
          end
      end
  end.

(** What put and get check before anything is sent. *)
Definition prepare (c : client) (node_id : Z) (keys : list bytes) (scatters : list Scatter) :
    option (result string (RoutingTable * list KeyHash * SlabMeta * list (list (Z * Z * Z))) * client) :=
  '(r, s) ← ensure_ready (rc_shared c);
  let c := set_client s (rc_mem c) (rc_net c) in
  Some (routing ← r;
        key_hashes ← to_key_hashes keys;
        peer ← ok_or (routing !! (node_id, 0)) ("node " +:+ pretty node_id +:+ " not attached");
        meta ← ok_or (pe_kv_slab peer) ("node " +:+ pretty node_id +:+ " has no kv slab");
        _ ← map_err (λ e, "ah for node " +:+ pretty node_id +:+ ": " +:+ e) (ah peer);
        plans ← resolve_plans s scatters ((sm_slot_bytes meta - Z.of_nat KEY_BYTES) `mod` u64_mod);
        Ok (routing, key_hashes, meta, plans), c).

(** Reserve, write and commit, with a release when the reservation falls short
    or the write fails. *)
Definition put_slots (routing : RoutingTable) (node_id : Z) (key_hashes : list KeyHash) (meta : SlabMeta)
    (plans : list (list (Z * Z * Z))) (staging : RdmaBufInner) (slots : list N) (c : client) : option (option (result string (list Z)) * client) :=
  ops ← put_ops meta staging 0 (take (length key_hashes) slots) plans;
  let m := stage_keys staging 0 key_hashes (rc_mem c) in
  '(r, m, w) ← rdma_chain true ops m (rc_net c);
  awaiting (r, set_client (rc_shared c) m w) (λ r c,
    match r with
    | Err e =>
        awaiting (unary routing node_id (BatchRelease slots) c) (λ _ c, Some (Some (Err ("write failed; batch aborted: " +:+ e)), c))
    | Ok _ =>
        awaiting (unary routing node_id (BatchCommit (zip slots key_hashes)) c) (λ r c,
          Some (Some (match r with
                      | Err e => Err e
                      | Ok BatchCommitted => Ok (replicate (length key_hashes) 0)
                      | Ok other => Err ("unexpected commit reply: " +:+ show other)
                      end), c))
    end).

(** A staging buffer with room for the keys of a batch. *)
Definition with_staging {R} (keys : list bytes) (c : client) (k : RdmaBufInner → client → option (option (result string R) * client)) :
    option (option (result string R) * client) :=
  let '(r, w) := acquire (rc_net c) in
  awaiting (r, set_client (rc_shared c) (rc_mem c) w) (λ r c,
    match r with
    | Err e => Some (Some (Err ("staging: " +:+ e)), c)
    | Ok staging =>
        if rb_capacity staging <? Z.of_nat (length keys * KEY_BYTES)
        then Some (Some (Err ("batch too large: " +:+ pretty (length keys) +:+ " keys")), c)
        else k staging c
    end).

Definition do_put (node_id : Z) (keys : list bytes) (scatters : list Scatter) (c : client) : option (option (result string (list Z)) * client) :=
  '(r, c) ← prepare c node_id keys scatters;
  match r with
  | Err e => Some (Some (Err e), c)
  | Ok (routing, key_hashes, meta, plans) =>
      if decide (keys = []) then Some (Some (Ok []), c)
      else with_staging keys c (λ staging c,
        awaiting (unary routing node_id (BatchReserve (N.of_nat (length keys) `mod` 2 ^ 32)) c) (λ r c,
          match r with
          | Err e => Some (Some (Err e), c)
          | Ok (BatchReserved slots) =>
              if (length slots <? length keys)%nat then
                awaiting (unary routing node_id (BatchRelease slots) c) (λ _ c,
                  Some (Some (Err ("store full: reserved " +:+ pretty (length slots) +:+ " of " +:+ pretty (length keys) +:+ " slots")), c))
              else put_slots routing node_id key_hashes meta plans staging slots c
          | Ok other => Some (Some (Err ("unexpected reserve reply: " +:+ show other)), c)
          end))
  end.

(** Which keys were found and carry their own header. *)
Fixpoint check_headers (staging : RdmaBufInner) (m : Mem) (j : nat) (slots : list (option N)) (key_hashes : list KeyHash) : list Z :=
  match slots, key_hashes with
  | slot :: slots, k :: key_hashes =>
      (match slot with
       | None => -1
       | Some _ => if decide (peek (rb_addr staging + Z.of_nat (j * KEY_BYTES)) KEY_BYTES m = k) then 0 else -1
       end) :: check_headers staging m (S j) slots key_hashes
  | _, _ => []
  end.

Definition do_get (node_id : Z) (keys : list bytes) (scatters : list Scatter) (c : client) : option (option (result string (list Z)) * client) :=
  '(r, c) ← prepare c node_id keys scatters;
  match r with
  | Err e => Some (Some (Err e), c)
  | Ok (routing, key_hashes, meta, plans) =>
      if decide (keys = []) then Some (Some (Ok []), c)
      else with_staging keys c (λ staging c,
        awaiting (unary routing node_id (BatchLookup key_hashes) c) (λ r c,
          match r with
          | Err e => Some (Some (Err e), c)
          | Ok (BatchLookedUp slots) =>
              if negb (length slots =? length keys)%nat
              then Some (Some (Err (pretty (length slots) +:+ " slots for " +:+ pretty (length keys) +:+ " keys")), c)
              else
                ops ← get_ops meta staging 0 slots plans;
                '(r, m, w) ← rdma_chain false ops (rc_mem c) (rc_net c);
                awaiting (r, set_client (rc_shared c) m w) (λ r c,
                  Some (Some (match r with
                              | Err e => Err ("read failed: " +:+ e)
                              | Ok _ => Ok (check_headers staging (rc_mem c) 0 slots key_hashes)
                              end), c))
          | Ok other => Some (Some (Err ("unexpected lookup reply: " +:+ show other)), c)
          end))
  end.

Definition do_exists (node_id : Z) (keys : list bytes) (c : client) : option (option (result string (list Z)) * client) :=
  '(r, s) ← ensure_ready (rc_shared c);
  let c := set_client s (rc_mem c) (rc_net c) in
  match r with
  | Err e => Some (Some (Err e), c)
  | Ok routing =>
      match to_key_hashes keys with
      | Err e => Some (Some (Err e), c)
      | Ok key_hashes =>
          awaiting (unary routing node_id (BatchLookup key_hashes) c) (λ r c,
            Some (Some (match r with
                        | Err e => Err e
                        | Ok (BatchLookedUp slots) =>
                            if (length slots =? length keys)%nat then Ok ((λ o, if o is Some _ then 1 else 0) <$> slots)
                            else Err (pretty (length slots) +:+ " slots for " +:+ pretty (length keys) +:+ " keys")
                        | Ok other => Err ("unexpected lookup reply: " +:+ show other)
                        end), c))
      end
  end.

Definition do_reset (node_id : Z) (c : client) : option (option (result string unit) * client) :=
  '(r, s) ← ensure_ready (rc_shared c);
  let c := set_client s (rc_mem c) (rc_net c) in
  match r with
  | Err e => Some (Some (Err e), c)
  | Ok routing =>
      awaiting (unary routing node_id RdmaReset c) (λ r c,
        Some (Some (match r with Err e => Err e | Ok ResetDone => Ok () | Ok other => Err ("unexpected reset reply: " +:+ show other) end), c))
  end.
End client.

(** ** Lemmas: plans and work requests *)

Lemma sum_wraps (lens : list Z) (acc : Z) : 0 ≤ acc → Forall (λ l, 0 ≤ l < u32_mod) lens →
  acc + foldr Z.add 0 lens < u64_mod → foldl (λ s l, (s + l) `mod` u64_mod) acc lens = acc + foldr Z.add 0 lens.
Proof.
  intros Ha Hl. revert acc Ha. induction Hl as [|l lens Hlen Hl IH]; intros acc Ha Hs; cbn in *; [lia|].
  assert (0 ≤ foldr Z.add 0 lens) by (clear -Hl; induction Hl; cbn; lia).
  rewrite Z.mod_small by lia. rewrite IH by lia. lia.
Qed.
Lemma sum_bound (lens : list Z) : Forall (λ l, 0 ≤ l < u32_mod) lens → foldr Z.add 0 lens ≤ Z.of_nat (length lens) * u32_mod.
Proof. induction 1 as [|l lens Hl _ IH]; cbn; lia. Qed.

Lemma plan_strips_spec mrs i sc : ∀ cur plan, Forall (λ al : Z * Z, 0 ≤ al.2) sc → plan_strips mrs i cur sc = Ok plan →
  plan.*1 = sc ∧ Forall (λ l, 0 ≤ l < u32_mod) sc.*2.
Proof.
  induction sc as [|[addr len] sc IH]; intros cur plan Hnn Hp; cbn in Hp; [by injection Hp as <-|].
  apply Forall_cons in Hnn as [Hn Hnn]. destruct ((len =? 0) || (u32_mod - 1 <? len)) eqn:Hlen; [done|].
  apply bind_ok in Hp as (cur' & _ & Hp). apply bind_ok in Hp as (m & _ & Hp).
  apply bind_ok in Hp as (plan' & Hp & [= <-]). destruct (IH cur' plan' Hnn Hp) as [Heq Hall]. cbn. split; [by rewrite Heq|].
  constructor; [|done]. cbn in Hn. apply orb_false_iff in Hlen as [_ Hlt]. apply Z.ltb_ge in Hlt. lia.
Qed.

(** A plan's strips stay below the cap. *)
Definition plan_fits (cap : Z) (plan : list (Z * Z * Z)) : Prop :=
  Forall (λ l, 0 ≤ l) plan.*1.*2 ∧ foldr Z.add 0 plan.*1.*2 ≤ cap.

Lemma resolve_loop_fits mrs cap scatters : ∀ i plans,
  Forall (λ sc : Scatter, Forall (λ al, 0 ≤ al.2) sc ∧ Z.of_nat (length sc) < u32_mod) scatters →
  resolve_loop mrs cap i scatters = Ok plans → length plans = length scatters ∧ Forall (plan_fits cap) plans.
Proof.
  induction scatters as [|sc scatters IH]; intros i plans Hsc Hp; cbn in Hp; [by injection Hp as <-|].
  apply Forall_cons in Hsc as [[Hnn Hcount] Hsc]. destruct ((_ =? 0) || (cap <? _)) eqn:Htot in Hp; [done|].
  apply bind_ok in Hp as (plan & Hplan & Hp). apply bind_ok in Hp as (rest & Hrest & [= <-]).
  destruct (IH _ _ Hsc Hrest) as [Hlen Hall]. split; [cbn; by rewrite Hlen|]. constructor; [|done].
  destruct (plan_strips_spec _ _ _ _ _ Hnn Hplan) as [Heq Hl]. unfold plan_fits. rewrite Heq. split.
  - eapply Forall_impl; [exact Hl|]. cbn. lia.
  - apply orb_false_iff in Htot as [_ Hle]. apply Z.ltb_ge in Hle. rewrite sum_wraps in Hle; [lia|done|done|].
    pose proof (sum_bound _ Hl) as Hs. rewrite length_fmap in Hs. unfold u32_mod, u64_mod in *. nia.
Qed.

(** The bytes an operation may write. *)
Definition op_in (lo hi : Z) (o : Op) : Prop := lo ≤ op_remote o ∧ op_remote o + op_len o ≤ hi.
Lemma payload_ops_in dst off plan : Forall (λ l, 0 ≤ l) plan.*1.*2 →
  Forall (op_in (dst + off) (dst + off + foldr Z.add 0 plan.*1.*2)) (payload_ops dst off plan).
Proof.
  revert off. induction plan as [|[[a l] k] plan IH]; intros off Hl; cbn in *; [constructor|].
  apply Forall_cons in Hl as [Hl0 Hl]. assert (0 ≤ foldr Z.add 0 plan.*1.*2) by (clear -Hl; induction Hl; cbn; lia).
  constructor; [unfold op_in; cbn; lia|]. eapply Forall_impl; [apply (IH (off + l) Hl)|]. unfold op_in. intros o Ho. cbn in *. lia.
Qed.

(** Every write of a put lies in a slot. *)
Lemma put_ops_in meta staging slots plans : ∀ j ops, Z.of_nat KEY_BYTES ≤ sm_slot_bytes meta →
  Forall (plan_fits (sm_slot_bytes meta - Z.of_nat KEY_BYTES)) plans → put_ops meta staging j slots plans = Some ops →
  Forall (λ o, ∃ slot, slot ∈ slots ∧ op_in (slot_start meta slot) (slot_start meta slot + sm_slot_bytes meta) o) ops.
Proof.
  revert plans. induction slots as [|slot slots IH]; intros plans j ops Hsb Hfit Hops; cbn in Hops; [injection Hops as <-; constructor|].
  destruct plans as [|plan plans]; [done|]. apply bind_Some in Hops as (rest & Hrest & [= <-]).
  apply Forall_cons in Hfit as [[Hnn Hle] Hfit]. specialize (IH plans (S j) rest Hsb Hfit Hrest).
  constructor; [|apply Forall_app; split].
  - exists slot. split; [left|]. unfold op_in. cbn in *. lia.
  - eapply Forall_impl; [apply (payload_ops_in (slot_start meta slot) (Z.of_nat KEY_BYTES) plan Hnn)|].
    intros o [H1 H2]. exists slot. split; [left|]. unfold op_in. lia.
  - eapply Forall_impl; [exact IH|]. intros o (s & Hs & Ho). exists s. split; [by right|done].
Qed.
Lemma put_ops_total meta staging slots plans : ∀ j, (length slots ≤ length plans)%nat → ∃ ops, put_ops meta staging j slots plans = Some ops.
Proof.
  revert plans. induction slots as [|slot slots IH]; intros plans j Hl; [by eexists|]. destruct plans as [|plan plans]; [cbn in Hl; lia|].
  cbn in *. destruct (IH plans (S j) ltac:(lia)) as [rest ->]. by eexists.
Qed.

Lemma exec_outside (P : Z → Prop) ops m : (∀ o a, o ∈ ops → P a → ¬ (op_remote o ≤ a < op_remote o + op_len o)) →
  ∀ a, P a → foldl (exec_op true) m ops a = m a.
Proof.
  revert m. induction ops as [|o ops IH]; intros m Ho a Ha; [done|]. cbn. rewrite IH; [|intros o' x Ho'; apply Ho; by right|done].
  unfold exec_op, copy. rewrite decide_False; [done|]. apply Ho; [left|done].
Qed.

Lemma stage_keys_outside staging (keys : list KeyHash) : ∀ j m a, Forall (λ k : KeyHash, length k = KEY_BYTES) keys →
  ¬ (rb_addr staging + Z.of_nat (j * KEY_BYTES) ≤ a < rb_addr staging + Z.of_nat ((j + length keys) * KEY_BYTES)) →
  stage_keys staging j keys m a = m a.
Proof.
  induction keys as [|k keys IH]; intros j m a Hk Ha; [done|]. apply Forall_cons in Hk as [Hl Hk]. cbn [stage_keys length] in *.
  rewrite IH; [|done|unfold KEY_BYTES in *; lia]. unfold poke. rewrite Hl, decide_False; [done|]. unfold KEY_BYTES in *. lia.
Qed.

Lemma to_key_hashes_spec keys : ∀ i khs, key_hashes_from i keys = Ok khs → khs = keys ∧ Forall (λ k, length k = KEY_BYTES) khs.
Proof.
  induction keys as [|k keys IH]; intros i khs H; cbn in H; [injection H as <-; split; [done|constructor]|].
  apply bind_ok in H as (kh & Hk & H). apply bind_ok in H as (rest & Hr & [= <-]).
  apply ok_or_ok in Hk. unfold key_hash_try_from in Hk. case_decide; [|done]. injection Hk as <-.
  destruct (IH _ _ Hr) as [-> Hall]. split; [done|]. by constructor.
Qed.

(** ** Lemmas: what the writes leave behind *)

(** The slab of a server as the shared-memory client would see it. *)
Definition meta_node (meta : SlabMeta) : ShmNode :=
  {| sn_base := slab_base meta; sn_slot_bytes := sm_slot_bytes meta; sn_span := 0; sn_addr := "" |}.

Lemma lens_of (sc : Scatter) : Forall (λ l, 0 ≤ l) sc.*2 → lens_ok sc.
Proof. unfold lens_ok. by rewrite (Forall_fmap snd (λ l, 0 ≤ l)). Qed.

Lemma payload_gather dst plan : ∀ off m, foldl (exec_op true) m (payload_ops dst off plan) = gather (dst + off) plan.*1 m.
Proof.
  induction plan as [|[[a l] k] plan IH]; intros off m; [done|]. cbn. rewrite IH. by replace (dst + (off + l)) with (dst + off + l) by lia.
Qed.

(** One key, its header copied from the staging buffer. *)
Lemma write_one n m slot key src sc : length key = HDR → fits n sc → away (slot_addr n slot) (slot_addr n slot + sn_slot_bytes n) sc →
  (src + Z.of_nat HDR ≤ slot_addr n slot ∨ slot_addr n slot + sn_slot_bytes n ≤ src) → peek src HDR m = key →
  let m' := gather (slot_addr n slot + Z.of_nat HDR) sc (copy (slot_addr n slot) src (Z.of_nat HDR) m) in
  holds n m' slot key (value sc m)
  ∧ ∀ a, ¬ (slot_addr n slot ≤ a < slot_addr n slot + sn_slot_bytes n) → m' a = m a.
Proof.
  intros Hk Hf Ha Hsrc Hpeek.
  assert (∀ x, copy (slot_addr n slot) src (Z.of_nat HDR) m x = poke (slot_addr n slot) (take HDR key) m x) as Hsame.
  { intros x. unfold copy, poke. rewrite length_take, Hk, Nat.min_id. case_decide as Hx; [|done].
    rewrite <-Hpeek, take_ge by (rewrite peek_length; lia). unfold peek. rewrite list_lookup_fmap, lookup_seq_lt by lia. cbn. f_equal. lia. }
  assert (∀ sc d m1 m2, (∀ x, m1 x = m2 x) → ∀ x, gather d sc m1 x = gather d sc m2 x) as Hg.
  { clear. induction sc as [|[a l] sc IH]; intros d m1 m2 H x; cbn; [done|]. apply IH. intros y. unfold copy. by rewrite !H. }
  destruct (put_one n m slot key sc Hk Hf Ha) as [[H1 H2] H3]. split; [split|].
  - rewrite <-H1. apply peek_ext. intros x _. by apply Hg.
  - etrans; [|exact H2]. apply peek_ext. intros x _. by apply Hg.
  - intros a Hn. rewrite <-(H3 a Hn). by apply Hg.
Qed.

Section writes.
Context (meta : SlabMeta) (staging : RdmaBufInner) (lo hi : Z).
Abbreviation n := (meta_node meta).
Abbreviation sb := (sm_slot_bytes meta).
(** Everything that is read lies outside the slab. *)
Context (Hsb : Z.of_nat KEY_BYTES ≤ sb) (Hlo : lo = slab_base meta).

Definition inside_slab (slot : N) : Prop := lo ≤ slot_addr n slot ∧ slot_addr n slot + sb ≤ hi.

Lemma put_ops_hold slots : ∀ plans j (keys : list KeyHash) ops m,
  NoDup slots → Forall inside_slab slots → length keys = length slots →
  Forall (λ k : KeyHash, length k = KEY_BYTES) keys → Forall (plan_fits (sb - Z.of_nat KEY_BYTES)) plans →
  Forall (λ plan : list (Z * Z * Z), away lo hi plan.*1) plans →
  (rb_addr staging + Z.of_nat ((j + length slots) * KEY_BYTES) ≤ lo ∨ hi ≤ rb_addr staging) →
  (∀ i key, keys !! i = Some key → peek (rb_addr staging + Z.of_nat ((j + i) * KEY_BYTES)) KEY_BYTES m = key) →
  put_ops meta staging j slots plans = Some ops →
  let m' := foldl (exec_op true) m ops in
  (∀ i key slot plan, keys !! i = Some key → slots !! i = Some slot → plans !! i = Some plan → holds n m' slot key (value plan.*1 m))
  ∧ ∀ a, (∀ slot, slot ∈ slots → ¬ (slot_addr n slot ≤ a < slot_addr n slot + sb)) → m' a = m a.
Proof.
  induction slots as [|slot slots IH]; intros plans j keys ops m Hnd Hin Hlen Hk Hfit Haway Hst Hpeek Hops; cbn in Hops.
  { injection Hops as <-. split; [by intros i ? ? ? _ ?|done]. }
  destruct plans as [|plan plans]; [done|]. destruct keys as [|key keys]; [done|]. apply bind_Some in Hops as (rest & Hrest & [= <-]).
  apply NoDup_cons in Hnd as [Hns Hnd]. apply Forall_cons in Hin as [[Hi1 Hi2] Hin]. apply Forall_cons in Hk as [Hkl Hk].
  apply Forall_cons in Hfit as [[Hnn Hle] Hfit]. apply Forall_cons in Haway as [Hap Haway]. cbn [length] in *.
  assert (fits n plan.*1) as Hf by (split; [by apply lens_of|cbn; unfold total, KEY_BYTES, HDR in *; lia]).
  destruct (write_one n m slot key (rb_addr staging + Z.of_nat (j * KEY_BYTES)) plan.*1) as [Hone Hframe]; [done|done| | | |].
  { eapply away_sub; [exact Hi1|exact Hi2|done]. }
  { unfold KEY_BYTES, HDR in *. cbn [sn_slot_bytes meta_node] in *. lia. }
  { rewrite <-(Nat.add_0_r j). by apply (Hpeek 0%nat). }
  cbn [foldl]. rewrite foldl_app. rewrite payload_gather. change (exec_op true m (header_op staging j (slot_start meta slot)))
    with (copy (slot_addr n slot) (rb_addr staging + Z.of_nat (j * KEY_BYTES)) (Z.of_nat HDR) m).
  change (slot_start meta slot + Z.of_nat KEY_BYTES) with (slot_addr n slot + Z.of_nat HDR). set (m1 := gather _ _ _) in *.
  assert (∀ a, ¬ (lo ≤ a < hi) → m1 a = m a) as Hout by (intros a Ha; apply Hframe; cbn [sn_slot_bytes meta_node] in *; lia).
  destruct (IH plans (S j) keys rest m1) as [Hall Hf']; [done|done|lia|done|done|done| | |done|].
  { replace (S j + length slots)%nat with (j + S (length slots))%nat by lia. done. }
  { intros i k Hi. replace (S j + i)%nat with (j + S i)%nat by lia. rewrite <-(Hpeek (S i) k Hi).
    assert (i < length keys)%nat by (by eapply lookup_lt_Some).
    apply (peek_away lo hi); [done|]. unfold KEY_BYTES in *. lia. }
  split.
  - intros [|i] k s p Hki Hsi Hpi; cbn in Hki, Hsi, Hpi.
    + injection Hki as <-. injection Hsi as <-. injection Hpi as <-.
      assert (∀ a, slot_addr n slot ≤ a < slot_addr n slot + sb → foldl (exec_op true) m1 rest a = m1 a) as Hkeep.
      { intros a Ha. apply Hf'. intros s' Hs' Hin'. refine (slot_apart n slot s' a _ _ Ha Hin'); [cbn; unfold KEY_BYTES in *; lia|].
        by intros <-. }
      destruct Hone as [H1 H2]. destruct Hf as [Hl Hle']. pose proof (total_nonneg _ Hl). cbn [sn_slot_bytes meta_node] in Hle'.
      split; (etrans; [|first [exact H1|exact H2]]); apply peek_ext; intros x Hx; apply Hkeep;
        rewrite ?value_length in Hx by done; unfold HDR in *; lia.
    + assert (value p.*1 m1 = value p.*1 m) as <-.
      { apply (value_away lo hi); [done| |by eapply Forall_lookup_1 in Haway].
        destruct (Forall_lookup_1 _ _ _ _ Hfit Hpi) as [Hl _]. by apply lens_of. }
      by apply (Hall i).
  - intros a Ha. rewrite Hf' by (intros s Hs; apply Ha; by right). apply Hframe. apply Ha. left.
Qed.
End writes.

Lemma resolve_loop_strips mrs cap scatters : ∀ i plans,
  Forall (λ sc : Scatter, Forall (λ al, 0 ≤ al.2) sc ∧ Z.of_nat (length sc) < u32_mod) scatters →
  resolve_loop mrs cap i scatters = Ok plans → (λ plan : list (Z * Z * Z), plan.*1) <$> plans = scatters.
Proof.
  induction scatters as [|sc scatters IH]; intros i plans Hsc Hp; cbn in Hp; [by injection Hp as <-|].
  apply Forall_cons in Hsc as [[Hnn _] Hsc]. destruct ((_ =? 0) || (cap <? _)) in Hp; [done|].
  apply bind_ok in Hp as (plan & Hplan & Hp). apply bind_ok in Hp as (rest & Hrest & [= <-]).
  destruct (plan_strips_spec _ _ _ _ _ Hnn Hplan) as [Heq _]. rewrite fmap_cons, Heq. by rewrite (IH _ _ Hsc Hrest).
Qed.

Lemma stage_keys_peek staging (keys : list KeyHash) : ∀ j m i key, Forall (λ k : KeyHash, length k = KEY_BYTES) keys → keys !! i = Some key →
  peek (rb_addr staging + Z.of_nat ((j + i) * KEY_BYTES)) KEY_BYTES (stage_keys staging j keys m) = key.
Proof.
  induction keys as [|k keys IH]; intros j m i key Hk Hi; [done|]. apply Forall_cons in Hk as [Hl Hk]. cbn [stage_keys].
  destruct i as [|i].
  - injection Hi as <-. rewrite Nat.add_0_r. rewrite (peek_ext _ _ _ (poke (rb_addr staging + Z.of_nat (j * KEY_BYTES)) k m)).
    + rewrite <-Hl at 2. apply peek_poke.
    + intros x Hx. apply stage_keys_outside; [done|]. unfold KEY_BYTES in *. lia.
  - replace (j + S i)%nat with (S j + i)%nat by lia. by apply IH.
Qed.

Section runs.
Context {W : Type} (ah : PeerEndpoint → result string unit) (encode : RdmaRequest → result string unit).
Context (exchange : PeerEndpoint → RdmaRequest → W → Fate * W) (post : bool → list Op → W → Posted * W).
Context (acquire : W → option (result string RdmaBufInner) * W) (show : RdmaResponse → string) (grant : nat → nat).

(** A window, or a request to a peer, that never ends. *)
Definition post_waits (write : bool) : Prop := ∃ ops w k, (post write ops w).1 = PostWaits k.
Definition send_waits (peer : PeerEndpoint) : Prop := ∃ req w, (exchange peer req w).1 = Unsent.

(** A chain has done a prefix of its operations, and all of them when it reports
    success; it ends unless one of its windows does not. *)
Lemma rdma_chain_spec write ops m w : ∃ r m' w' k, rdma_chain post grant write ops m w = Some (r, m', w')
  ∧ m' = foldl (exec_op write) m (take k ops) ∧ (r = Some (Ok ()) → m' = foldl (exec_op write) m ops) ∧ (r = None → post_waits write).
Proof.
  unfold rdma_chain. enough (∀ fuel ops win m w, (length ops ≤ fuel)%nat → ∃ r m' w' k,
    rdma_chain_loop post grant fuel write ops win m w = Some (r, m', w')
    ∧ m' = foldl (exec_op write) m (take k ops) ∧ (r = Some (Ok ()) → m' = foldl (exec_op write) m ops) ∧ (r = None → post_waits write)) as H by (by apply H).
  clear. induction fuel as [|fuel IH]; intros ops win m w Hl; (destruct ops as [|o ops]; [by exists (Some (Ok ())), m, w, 0%nat|cbn in Hl; try lia]).
  cbn [rdma_chain_loop]. set (nn := Nat.min _ _). destruct (post write (take nn (o :: ops)) w) as [[|e j|j] w1] eqn:Ep.
  2: { eexists (Some (Err e)), _, w1, (Nat.min j nn). split_and!; [done|by rewrite take_take|discriminate..]. }
  2: { eexists None, _, w1, (Nat.min j nn). split_and!; [done|by rewrite take_take|discriminate|]. intros _. exists (take nn (o :: ops)), w, j. by rewrite Ep. }
  assert (1 ≤ nn)%nat as Hn by (unfold nn, CHAIN_WINDOW; cbn [length]; lia).
  destruct (IH (drop nn (o :: ops)) (S win) (foldl (exec_op write) m (take nn (o :: ops))) w1) as (r & m' & w' & k & Hrun & Hpre & Hall & Hwait).
  { rewrite length_drop. cbn [length]. lia. }
  exists r, m', w', (nn + k)%nat. split_and!; [exact Hrun| | |done].
  - rewrite Hpre, <-foldl_app. f_equal. by rewrite take_take_drop.
  - intros Hr. rewrite (Hall Hr), <-foldl_app. by rewrite take_drop.
Qed.

Lemma unary_mem routing node req (c : RdmaClient W) : rc_mem (unary ah encode exchange routing node req c).2 = rc_mem c.
Proof. unfold unary. repeat case_match; done. Qed.
Lemma unary_waits routing node peer req (c : RdmaClient W) : routing !! (node, 0) = Some peer →
  (unary ah encode exchange routing node req c).1 = None → send_waits peer.
Proof.
  intros Hp. unfold unary. rewrite Hp. destruct (ah peer); [|done]. destruct (encode req); [|done].
  destruct (exchange peer req (rc_net c)) as [[]] eqn:E; try done. intros _. exists req, (rc_net c). by rewrite E.
Qed.

Context (c : RdmaClient W) (routing : RoutingTable) (node : Z) (peer : PeerEndpoint) (meta : SlabMeta) (cnt : nat) (slo shi : Z).
Context (Hphase : sh_phase (rc_shared c) = Ready routing) (Hpeer : routing !! (node, 0) = Some peer) (Hmeta : pe_kv_slab peer = Some meta).
Context (Hsb : Z.of_nat KEY_BYTES ≤ sm_slot_bytes meta < u32_mod).
(** The server hands out different slots of its slab. *)
Context (Hserver : ∀ count w slots w', exchange peer (BatchReserve count) w = (Answered (BatchReserved slots), w') →
           NoDup slots ∧ Forall (λ s, (N.to_nat s < cnt)%nat) slots).
(** The staging buffers lie in a region of their own. *)
Context (Hstaging : ∀ w st w', acquire w = (Some (Ok st), w') → slo ≤ rb_addr st ∧ rb_addr st + rb_capacity st ≤ shi).
Abbreviation lo := (slab_base meta).
Abbreviation hi := (slab_base meta + Z.of_nat cnt * sm_slot_bytes meta).
Context (Hapart : shi ≤ lo ∨ hi ≤ slo).

Lemma prepare_spec (keys : list bytes) scatters : ∃ r, prepare ah c node keys scatters = Some (r, c)
  ∧ ∀ rt khs mt plans, r = Ok (rt, khs, mt, plans) → rt = routing ∧ khs = keys ∧ mt = meta
      ∧ Forall (λ k : KeyHash, length k = KEY_BYTES) keys
      ∧ resolve_loop (sh_mrs (rc_shared c)) (sm_slot_bytes meta - Z.of_nat KEY_BYTES) 0 scatters = Ok plans.
Proof.
  unfold prepare, ensure_ready. rewrite Hphase. cbn [mbind option_bind]. destruct c as [sh m w]. cbn [rc_shared rc_mem rc_net set_client].
  eexists. split; [reflexivity|]. intros rt khs mt plans H. cbn [mbind result_bind] in H.
  apply bind_ok in H as (khs' & Hk & H). rewrite Hpeer in H. cbn [ok_or] in H. cbn [mbind result_bind] in H. rewrite Hmeta in H. cbn [ok_or] in H.
  cbn [mbind result_bind] in H. apply bind_ok in H as (u & _ & H). apply bind_ok in H as (plans' & Hplans & [= <- <- <- <-]).
  destruct (to_key_hashes_spec _ _ _ Hk) as [-> Hall]. split_and!; [done|done|done|done|].
  unfold resolve_plans in Hplans. rewrite Z.mod_small in Hplans; [done|]. unfold u32_mod, u64_mod, KEY_BYTES in *. lia.
Qed.

(** A reservation that came back was answered by the peer. *)
Lemma unary_reserved count c0 c1 slots : routing !! (node, 0) = Some peer →
  unary ah encode exchange routing node (BatchReserve count) c0 = (Some (Ok (BatchReserved slots)), c1) →
  ∃ w w', exchange peer (BatchReserve count) w = (Answered (BatchReserved slots), w').
Proof.
  intros Hp. unfold unary. rewrite Hp. destruct (ah peer); [|done]. destruct (encode _); [|done].
  destruct (exchange peer (BatchReserve count) (rc_net c0)) as [[]] eqn:E; intros [=]; subst. by eexists _, _.
Qed.

Definition outside (a : Z) : Prop := ¬ (lo ≤ a < hi) ∧ ¬ (slo ≤ a < shi).
(** A wait of a put that never ends: for a staging buffer, to send a request, or for a window. *)
Definition put_waits : Prop := (∃ w, (acquire w).1 = None) ∨ send_waits peer ∨ post_waits true.

(** A request changes no memory and ends unless sending does not end. *)
Lemma awaiting_unary {R} req (c0 : RdmaClient W) (k : result string RdmaResponse → RdmaClient W → option (option R * RdmaClient W))
    (P : option R → RdmaClient W → Prop) :
  (∀ c1, rc_mem c1 = rc_mem c0 → send_waits peer → P None c1) →
  (∀ r c1, rc_mem c1 = rc_mem c0 → unary ah encode exchange routing node req c0 = (Some r, c1) → ∃ o c', k r c1 = Some (o, c') ∧ P o c') →
  ∃ o c', awaiting (unary ah encode exchange routing node req c0) k = Some (o, c') ∧ P o c'.
Proof.
  intros Hn Hk. pose proof (unary_mem routing node req c0) as Hm. pose proof (unary_waits routing node peer req c0 Hpeer) as Hw.
  destruct (unary ah encode exchange routing node req c0) as [[r|] c1]; cbn [awaiting]; [by apply Hk|].
  exists None, c1. split; [done|]. apply Hn; [done|by apply Hw].
Qed.

Lemma put_slots_spec (c0 : RdmaClient W) (keys : list KeyHash) plans staging slots :
  NoDup slots → Forall (λ s, (N.to_nat s < cnt)%nat) slots → (length keys ≤ length slots)%nat → length plans = length keys →
  Forall (λ k : KeyHash, length k = KEY_BYTES) keys → Forall (plan_fits (sm_slot_bytes meta - Z.of_nat KEY_BYTES)) plans →
  Forall (λ plan : list (Z * Z * Z), away lo hi plan.*1 ∧ away slo shi plan.*1) plans →
  slo ≤ rb_addr staging ∧ rb_addr staging + rb_capacity staging ≤ shi → Z.of_nat (length keys * KEY_BYTES) ≤ rb_capacity staging →
  ∃ r c', put_slots ah encode exchange post show grant routing node keys meta plans staging slots c0 = Some (r, c')
    ∧ (∀ a, outside a → rc_mem c' a = rc_mem c0 a) ∧ (r = None → put_waits)
    ∧ ∀ out, r = Some (Ok out) → out = replicate (length keys) 0
        ∧ ∀ i key slot plan, keys !! i = Some key → slots !! i = Some slot → plans !! i = Some plan →
            holds (meta_node meta) (rc_mem c') slot key (value plan.*1 (rc_mem c0)).
Proof.
  intros Hnd Hin Hlen Hlp Hk Hfit Haway [Hst1 Hst2] Hcap. set (slots' := take (length keys) slots).
  assert (length slots' = length keys) as Hls by (unfold slots'; rewrite length_take; lia).
  unfold put_slots. fold slots'. destruct (put_ops_total meta staging slots' plans 0 ltac:(lia)) as [ops Hops]. rewrite Hops. cbn [mbind option_bind].
  set (m1 := stage_keys staging 0 keys (rc_mem c0)).
  assert (∀ a, ¬ (slo ≤ a < shi) → m1 a = rc_mem c0 a) as Hm1 by (intros a Ha; apply stage_keys_outside; [done|rewrite Nat.add_0_l, Nat.mul_0_l; lia]).
  assert (∀ s, s ∈ slots' → inside_slab meta lo hi s) as Hins.
  { intros s Hs%elem_of_take_part. rewrite Forall_forall in Hin. specialize (Hin s Hs). unfold inside_slab, slot_addr. cbn. nia. }
  pose proof (put_ops_in meta staging slots' plans 0 ops ltac:(lia) Hfit Hops) as Hopsin.
  destruct (rdma_chain_spec true ops m1 (rc_net c0)) as (r & m2 & w2 & k & -> & Hpre & Hall & Hwait). cbn [mbind option_bind].
  assert (∀ a, outside a → m2 a = rc_mem c0 a) as Hout.
  { intros a [Ha1 Ha2]. rewrite Hpre, <-(Hm1 a Ha2). apply (exec_outside (λ x, ¬ (lo ≤ x < hi))); [|done].
    intros o x Ho%elem_of_take_part Hx Hin'. rewrite Forall_forall in Hopsin. destruct (Hopsin o Ho) as (s & Hs & Hop).
    specialize (Hins s Hs). unfold inside_slab, op_in in *. change (slot_start meta s) with (slot_addr (meta_node meta) s) in Hop. lia. }
  destruct r as [[[]|e]|]; cbn [awaiting].
  - apply awaiting_unary; cbn [rc_mem set_client].
    { intros c1 Hm Hs. rewrite Hm. split; [done|]. split; [by right; left|discriminate]. }
    intros r c1 Hm _. eexists _, c1. split; [reflexivity|]. rewrite Hm. split; [done|]. split; [discriminate|]. intros out Ho. split.
    { by destruct r as [[]|]; cbn in Ho; try discriminate; injection Ho as <-. }
    intros i key slot plan Hki Hsi Hpi. rewrite (Hall eq_refl).
    assert (value plan.*1 m1 = value plan.*1 (rc_mem c0)) as <-.
    { destruct (Forall_lookup_1 _ _ _ _ Hfit Hpi) as [Hl _]. destruct (Forall_lookup_1 _ _ _ _ Haway Hpi) as [_ Ha].
      apply (value_away slo shi); [done|by apply lens_of|done]. }
    refine (proj1 (put_ops_hold meta staging lo hi ltac:(lia) slots' plans 0 keys ops m1 _ _ _ Hk Hfit _ _ _ Hops) i key slot plan Hki _ Hpi).
    + by apply NoDup_take_part.
    + apply Forall_forall. exact Hins.
    + by rewrite Hls.
    + eapply Forall_impl; [exact Haway|]. by intros p [? _].
    + rewrite Hls, Nat.add_0_l. lia.
    + intros j kk Hj. by apply (stage_keys_peek staging keys 0).
    + unfold slots'. rewrite lookup_take. apply lookup_lt_Some in Hki. by rewrite decide_True.
  - apply awaiting_unary; cbn [rc_mem set_client].
    { intros c1 Hm Hs. rewrite Hm. split; [done|]. split; [by right; left|discriminate]. }
    intros r c1 Hm _. eexists _, c1. split; [reflexivity|]. rewrite Hm. split; [done|]. split; discriminate.
  - eexists None, _. split; [reflexivity|]. split; [done|]. split; [|discriminate]. intros _. right. right. by apply Hwait.
Qed.

(** C14.  A put over RDMA, on a node whose slots have room for a key, whose server
    hands out different slots of its slab, with staging buffers apart from the
    slab and the values outside both.  Whatever the network does, and whether or
    not the put ends or succeeds, no byte changes outside the server's slab and
    the staging buffers of the client.  The put returns when its waits without a
    limit end: those for a staging buffer, for the credit to send a request, and
    for the completion of a window.  When it reports success, every
    key got a slot that holds the key and exactly the bytes its strips held: a
    value that does not fit its slot is refused. *)
Theorem rdma_put_spec (keys : list bytes) (scatters : list Scatter) :
  length scatters = length keys →
  Forall (λ sc : Scatter, Forall (λ al, 0 ≤ al.2) sc ∧ Z.of_nat (length sc) < u32_mod) scatters →
  Forall (λ sc, away lo hi sc ∧ away slo shi sc) scatters →
  ∃ r c', do_put ah encode exchange post acquire show grant node keys scatters c = Some (r, c')
    ∧ (∀ a, outside a → rc_mem c' a = rc_mem c a)
    ∧ (r = None → (∃ w, (acquire w).1 = None) ∨ (∃ req w, (exchange peer req w).1 = Unsent) ∨ ∃ ops w k, (post true ops w).1 = PostWaits k)
    ∧ ∀ out, r = Some (Ok out) → out = replicate (length keys) 0
        ∧ ∃ slots : list N, ∀ i key sc, keys !! i = Some key → scatters !! i = Some sc →
            ∃ slot, slots !! i = Some slot ∧ holds (meta_node meta) (rc_mem c') slot key (value sc (rc_mem c)).
Proof.
  intros Hlen Hsc Haway. unfold do_put. destruct (prepare_spec keys scatters) as (r & Hp & Hr). rewrite Hp. cbn [mbind option_bind].
  destruct r as [[[[rt khs] mt] plans]|e]; [|by eexists _, _].
  destruct (Hr _ _ _ _ eq_refl) as (-> & -> & -> & Hk & Hplans). clear Hr Hp.
  destruct (resolve_loop_fits _ _ _ _ _ Hsc Hplans) as [Hlp Hfit]. pose proof (resolve_loop_strips _ _ _ _ _ Hsc Hplans) as Hstrips.
  destruct (decide (keys = [])) as [->|Hne].
  { eexists _, _. split; [reflexivity|]. split; [done|]. split; [done|]. intros out [= <-]. split; [done|]. exists []. by intros i key sc. }
  unfold with_staging. destruct (acquire (rc_net c)) as [[[st|e]|] w1] eqn:Hacq; cbn [awaiting]; [|by eexists _, _|].
  2: { eexists None, _. split; [reflexivity|]. split; [done|]. split; [|discriminate]. intros _. left. exists (rc_net c). by rewrite Hacq. }
  destruct (rb_capacity st <? _) eqn:Hcap; to_prop; [by eexists _, _|].
  apply awaiting_unary; cbn [rc_mem set_client].
  { intros c1 Hm Hs. rewrite Hm. split; [done|]. split; [by right; left|discriminate]. }
  intros r1 c1 Hmem Hu.
  destruct r1 as [[| |slots| | | | |]|e]; try (eexists _, _; split; [reflexivity|]; split; [by rewrite Hmem|split; discriminate]).
  destruct (length slots <? length keys)%nat eqn:Hfull; to_prop.
  { apply awaiting_unary.
    - intros c2 Hm Hs. rewrite Hm, Hmem. split; [done|]. split; [by right; left|discriminate].
    - intros r2 c2 Hm _. eexists _, _. split; [reflexivity|]. rewrite Hm, Hmem. split; [done|split; discriminate]. }
  destruct (unary_reserved _ _ _ _ Hpeer Hu) as (w0 & w0' & Hex). destruct (Hserver _ _ _ _ Hex) as [Hnd Hin].
  assert (@length KeyHash keys = @length bytes keys) as Hty by done.
  destruct (put_slots_spec c1 keys plans st slots Hnd Hin) as (r & c' & -> & Hout & Hwait & Hok); [lia|lia|done|done| |by eapply Hstaging|done|].
  { apply Forall_lookup. intros i p Hpi. rewrite <-Hstrips in Haway. rewrite Forall_fmap in Haway. by apply (Forall_lookup_1 _ _ _ _ Haway Hpi). }
  exists r, c'. split; [done|]. rewrite Hmem in *. split; [done|]. split; [done|]. intros out Ho. destruct (Hok out Ho) as [Hz Hh]. split; [done|].
  exists slots. intros i key sc Hki Hsi. destruct (lookup_lt_is_Some_2 slots i) as [slot Hslot].
  { assert (i < length keys)%nat by (by eapply lookup_lt_Some). lia. }
  rewrite <-Hstrips in Hsi. apply list_lookup_fmap_Some in Hsi as (plan & -> & Hpi). exists slot. split; [done|]. by eapply Hh.
Qed.
End runs.

(** ** The server's side of the contract *)

(** Admission: the clients stay below the cap, an identity changes hands only to
    a newer epoch, and no other client is touched. *)
Lemma backend_attach_ok id ep epoch b b' : backend_attach id ep epoch b = Ok b' → (base.size (kb_peers b) ≤ kb_cap b)%nat →
  (base.size (kb_peers b') ≤ kb_cap b')%nat
  ∧ backend_peer_at id (runtime_id ep) b' = Some (to_peer id ep)
  ∧ (∀ held e, kb_peers b !! (id, runtime_id ep) = Some (held, e) → pe_gid held = gid ep ∨ e < epoch)
  ∧ ∀ k, k ≠ (id, runtime_id ep) → kb_peers b' !! k = kb_peers b !! k.
Proof.
  unfold backend_attach, backend_peer_at. intros H Hcap. destruct (kb_peers b !! (id, runtime_id ep)) as [[held e]|] eqn:Hk.
  - destruct (bool_decide (pe_gid held ≠ gid ep) && (epoch <=? e)) eqn:Hb; [done|]. injection H as <-. cbn. split_and!.
    + rewrite map_size_insert_Some; [done|by exists (held, e)].
    + by rewrite lookup_insert_eq.
    + intros held' e' [= <- <-]. destruct (decide (pe_gid held = gid ep)) as [|Hne]; [by left|]. right.
      rewrite bool_decide_true in Hb by done. cbn in Hb. apply Z.leb_gt in Hb. lia.
    + intros k Hne. by rewrite lookup_insert_ne.
  - destruct (_ <=? _)%nat eqn:Hle in H; [done|]. to_prop. injection H as <-. cbn. split_and!.
    + rewrite map_size_insert_None by done. lia.
    + by rewrite lookup_insert_eq.
    + done.
    + intros k Hne. by rewrite lookup_insert_ne.
Qed.

Lemma reserve_distinct {HI : HashIter N} now clock count p out p' : pool_ok p → reserve now clock count p = Some (out, p') →
  NoDup out ∧ Forall (λ s, (N.to_nat s < length (lru_prev p))%nat) out.
Proof.
  intros [c HR] Hrun. destruct (reserve_start now clock count p c HR) as (c0 & HR0 & Hlru & Hres & _).
  destruct (reserve_simulates now clock count p c HR) as (p1 & Hrun' & _). rewrite Hrun' in Hrun. injection Hrun as <- _.
  rewrite Hres, c_reserve_loop_out. split; [apply NoDup_take_part, NoDup_free_lru, HR0|]. apply Forall_forall. intros s Hs%elem_of_take_part.
  assert (length (lru_prev p) = c_slots c0) as ->.
  { rewrite <-(repr_len_prev _ _ _ (R_lru _ _ (proj1 HR0))). by case_decide. }
  pose proof (proj2 HR0) as HP. unfold Kv.partition in HP. apply slots_upto_spec. rewrite <-HP. apply elem_of_app in Hs as [Hs|Hs]; rewrite !elem_of_app; [by left|by right; right].
Qed.

(** An engine keeps the client's side of the bargain: what it reserves are
    different slots of its slab. *)
Lemma handle_reserves {HI : HashIter N} ck count (r : RdmaSlab) slots s' : pool_ok (rs_slots r) →
  handle_slab ck (BatchReserve count) (RdmaBacked r) = Some (BatchReserved slots, s') →
  NoDup slots ∧ Forall (λ s, (N.to_nat s < length (lru_prev (rs_slots r)))%nat) slots.
Proof.
  intros Hp H. cbn in H. destruct (reserve _ _ _ _) as [[out p']|] eqn:Hr in H; [|done]. cbn in H. injection H as <- _.
  by eapply reserve_distinct.
Qed.

(** ** Evaluation *)

Definition demo_meta : SlabMeta := {| slab_base := 1000; rkey := 7; sm_slot_bytes := 64 |}.
Definition demo_peer : PeerEndpoint :=
  {| pe_node_id := 2; pe_gid := []; pe_dct_num := 1; pe_dc_key := 1; pe_lid := 0; pe_kv_slab := Some demo_meta |}.
Definition demo_client : RdmaClient unit :=
  {| rc_shared := {| sh_self := 2048;
                     sh_endpoint := {| runtime_id := 0; dct_num := 1; gid := []; dc_key := 1; lid := 0; kv_slab := None |};
                     sh_phase := Ready {[(2, 0) := demo_peer]}; sh_epoch := 1;
                     sh_mrs := [{| mr_addr := 16; mr_len := 256; mr_lkey := 3 |}]; sh_next_request_id := 1; sh_pending := ∅ |};
     rc_mem := λ a, default x00 (Byte.of_N (Z.to_N a `mod` 256)); rc_net := () |}.
Definition demo_exchange (peer : PeerEndpoint) (req : RdmaRequest) (w : unit) : Fate * unit :=
  (match req with
   | BatchReserve _ => Answered (BatchReserved [1%N])
   | BatchCommit _ => Answered BatchCommitted
   | _ => TimedOut
   end, ()).
Definition demo_staging (w : unit) : option (result string RdmaBufInner) * unit :=
  (Some (Ok {| rb_addr := 5000; rb_lkey := 9; rb_rkey := 0; rb_capacity := 1000 |}), w).
Definition demo_post (write : bool) (ops : list Op) (w : unit) : Posted * unit := (PostDone, w).
Definition demo_rdma_put := do_put (λ _, Ok ()) (λ _, Ok ()) demo_exchange demo_post demo_staging (λ _, "?") (λ _, 1%nat).

Example demo_put_runs :
  match demo_rdma_put 2 [key x05] [[(16, 4); (32, 2)]] demo_client with
  | Some (Some (Ok [0]), c) => peek 1064 60 (rc_mem c) = key x05 ++ [x10; x11; x12; x13; x20; x21]
  | _ => False
  end.
Proof. vm_compute. reflexivity. Qed.
(** A value that does not fit is refused, as is memory that is not registered. *)
Example demo_put_refuses :
  option_map fst (demo_rdma_put 2 [key x05] [[(16, 11)]] demo_client) = Some (Some (Err "key 0: payload 11 not in (0, 10]"))
  ∧ option_map fst (demo_rdma_put 2 [key x05] [[(300, 4)]] demo_client) = Some (Some (Err "key 0: address 0x12c not registered")).
Proof. vm_compute. split; reflexivity. Qed.
(** Without a free staging buffer, or without a credit for the commit, a put never
    returns; the second one has written the slot. *)
Example demo_put_waits :
  option_map fst (do_put (λ _, Ok ()) (λ _, Ok ()) demo_exchange demo_post (λ w, (None, w)) (λ _, "?") (λ _, 1%nat)
    2 [key x05] [[(16, 4)]] demo_client) = Some None
  ∧ match do_put (λ _, Ok ()) (λ _, Ok ()) (λ peer req w, match req with BatchCommit _ => (Unsent, w) | _ => demo_exchange peer req w end)
            demo_post demo_staging (λ _, "?") (λ _, 1%nat) 2 [key x05] [[(16, 4)]] demo_client with
    | Some (None, c) => peek 1064 58 (rc_mem c) = key x05 ++ [x10; x11; x12; x13] ∧ sh_pending (rc_shared c) = {[2]}
    | _ => False
    end.
Proof. vm_compute. done. Qed.

Lemma rdma_put_spec_witness : ∃ c', demo_rdma_put 2 [key x05] [[(16, 4); (32, 2)]] demo_client = Some (Some (Ok [0]), c')
  ∧ (∀ a, outside demo_meta 2 5000 6000 a → rc_mem c' a = rc_mem demo_client a)
  ∧ ∃ slot, holds (meta_node demo_meta) (rc_mem c') slot (key x05) [x10; x11; x12; x13; x20; x21].
Proof.
  destruct (rdma_put_spec (λ _, Ok ()) (λ _, Ok ()) demo_exchange demo_post demo_staging (λ _, "?") (λ _, 1%nat)
    demo_client {[(2, 0) := demo_peer]} 2 demo_peer demo_meta 2 5000 6000) with (keys := [key x05]) (scatters := [[(16, 4); (32, 2)]])
    as (r & c' & H1 & H2 & _ & H3).
  - reflexivity.
  - reflexivity.
  - reflexivity.
  - vm_compute. split; [discriminate|reflexivity].
  - intros count w slots w' [= <-]. split; [apply NoDup_singleton|]. constructor; [vm_compute; lia|constructor].
  - intros w st w' [= <-]. cbn. lia.
  - cbn. lia.
  - reflexivity.
  - rewrite Forall_singleton, !Forall_cons, Forall_nil. vm_compute. repeat split; discriminate.
  - rewrite Forall_singleton. unfold away. rewrite !Forall_cons, !Forall_nil. cbn. lia.
  - assert (r = Some (Ok [0])) as ->.
    { assert (option_map fst (demo_rdma_put 2 [key x05] [[(16, 4); (32, 2)]] demo_client) = Some (Some (Ok [0]))) as Hr by (vm_compute; reflexivity).
      unfold demo_rdma_put in Hr. rewrite H1 in Hr. by injection Hr. }
    destruct (H3 [0] eq_refl) as (_ & slots & Hs). destruct (Hs 0%nat (key x05) [(16, 4); (32, 2)] eq_refl eq_refl) as (slot & _ & Hh).
    exists c'. split; [exact H1|]. split; [exact H2|]. exists slot. exact Hh.
Defined.
