(* ===== verification/Drives.v ===== *)
(** * The drives a node works with

    [Rc<dyn StorageBackend>]: a drive of this node or a drive of another one.
    [RemoteDrive] is the [RemoteBackend] of [openlake_io/src/remote_fs.rs] with
    the peer it talks to and the fates of its calls; a drive is one or the other.
    What a local drive promises to the engine and to the boot of the cluster, a
    remote drive promises too, whatever the network does to its calls: the laws
    of [PromotionLaws] and [FormatBackend] are lifted through the wire, and the
    write path of the engine is correct on any mixture of drives.

    Several remote backends share one peer; each is seen here with its own copy
    of it, which the frame of [remote_call_equiv] allows: a call changes the disk
    of its index and nothing else. *)

From stdpp Require Import base gmap strings sorting pretty list.
From S2P Require Import Prelude Text Types Cluster LockServer Streams Auth Body Dsync Consensus XlMeta Fs LocalFs Backend Put Format Rpc.

(** ** Remote drives *)

Record RemoteDrive (B : Type) := { rd_peer : Node B; rd_idx : nat; rd_net : nat → call_env; rd_sent : nat }.
Arguments rd_peer {B} _.
Arguments rd_idx {B} _.
Arguments rd_net {B} _.
Arguments rd_sent {B} _.

Section remote.
Context {C : Bincode} {B : Type} `{SB : StorageBackend B, FB : FormatBackend B} (debug : Response → string).

Definition over_wire {A} (m : call_env → Node B → option (IoResult A * Node B)) : call (RemoteDrive B) A := λ r,
  '(a, n) ← m (rd_net r (rd_sent r)) (rd_peer r);
  Some (a, {| rd_peer := n; rd_idx := rd_idx r; rd_net := rd_net r; rd_sent := S (rd_sent r) |}).
Definition remote_do {A} (c : Call A) : call (RemoteDrive B) A := λ r,
  over_wire (λ env, remote_call debug env (rd_idx r) c) r.

Definition RemoteDrive_backend : StorageBackend (RemoteDrive B) := {|
  sb_disk_info := remote_do CDiskInfo;
  sb_make_vol := λ v, remote_do (CMakeVol v);
  sb_list_vols := remote_do CListVols;
  sb_stat_vol := λ v, remote_do (CStatVol v);
  sb_delete_vol := λ v force, remote_do (CDeleteVol v force);
  sb_list_dir := λ v dir count, remote_do (CListDir v dir count);
  sb_rename_file := λ sv sp dv dp, remote_do (CRenameFile sv sp dv dp);
  sb_check_file := λ v p, remote_do (CCheckFile v p);
  sb_delete := λ v p rec, remote_do (CDelete v p rec);
  sb_delete_batch := λ v ps rec, remote_do (CDeleteBatch v ps rec);
  sb_write_metadata := λ ov v p fi, remote_do (CWriteMetadata ov v p fi);
  sb_read_version := λ ov v p vid rd, remote_do (CReadVersion ov v p vid rd);
  sb_walk_dir := λ v base rec prefix after max, remote_do (CWalkDir v base rec prefix after max);
  sb_update_metadata := λ v p fi opts, remote_do (CUpdateMetadata v p fi opts);
  sb_delete_version := λ v p fi force opts, remote_do (CDeleteVersion v p fi force opts);
  sb_rename_data := λ sv sp fi dv dp, remote_do (CRenameData sv sp fi dv dp);
  sb_verify_file := λ v p fi, remote_do (CVerifyFile v p fi);
  sb_write_file := λ v p c, remote_do (CWriteFile v p c);
  sb_read_file := λ v p, remote_do (CReadFile v p);
  sb_make_dir_all := λ v p, remote_do (CMakeDirAll v p)
|}.

(** The disk behind a remote drive, when its peer has it. *)
Definition rd_disk (r : RemoteDrive B) : option B := n_disks (rd_peer r) !! rd_idx r.

Context {CL : BincodeLaws C}.

Lemma set_disk_lookup i (b b' : B) n : n_disks n !! i = Some b → n_disks (set_disk i b' n) !! i = Some b'.
Proof. intros H. cbn. apply list_lookup_insert_eq. by eapply lookup_lt_Some. Qed.

(** One request over the wire: refused or lost without an effect, or dispatched
    with its answer or an error instead of it. *)
Lemma unary_cases env req (n : Node B) : is_streaming req = false →
  (∃ e, unary env req n = Some (Err e, n))
  ∨ unary env req n = '(resp, n) ← dispatch (at_time env) req n;
      Some (if fate env is Delivered then Ok resp else Err network_error, n).
Proof.
  intros Hs. destruct (enc_req req) as [body|e] eqn:He; [|left; unfold unary; rewrite He; eauto].
  destruct (decide (Z.of_nat (length body) ≤ UNARY_BODY_LIMIT)%Z) as [Hl|Hl].
  - rewrite (unary_spec env req n body He Hl Hs). destruct (fate env); [by right|by right|left; eauto].
  - left. rewrite (unary_too_long env req n body He) by lia. eauto.
Qed.

(** A call of a remote drive: an error, or the result of the call on the disk
    behind it; the disk has stayed as it was or made the call. *)
Lemma remote_do_spec {A} (c : Call A) r : (∀ b, rd_disk r = Some b → is_Some (run_call (narrowed c) b)) →
  ∃ res r', remote_do c r = Some (res, r')
    ∧ ((is_ok res = false ∧ rd_disk r' = rd_disk r)
       ∨ ∃ b rb b', rd_disk r = Some b ∧ run_call (narrowed c) b = Some (rb, b') ∧ rd_disk r' = Some b'
           ∧ ∀ a, res = Ok a → seen debug c rb = Ok a).
Proof.
  intros Htot. unfold remote_do, over_wire. rewrite remote_call_unary.
  destruct (unary_cases (rd_net r (rd_sent r)) (request_of (rd_idx r) c) (rd_peer r) (dispatched_total c (rd_idx r))) as [[e ->]| ->].
  { eexists _, _. split; [done|]. by left. }
  rewrite dispatch_request. unfold call_disk. destruct (disk_at (n_disks (rd_peer r)) (rd_idx r)) as [b|e] eqn:Ed.
  - apply disk_at_lookup in Ed. destruct (Htot b Ed) as [[rb b'] Eb]. rewrite Eb. cbn [mbind option_bind].
    eexists _, _. split; [done|]. right. exists b, rb, b'. split_and!; [done..|by eapply set_disk_lookup|].
    intros a. destruct (fate _); [by rewrite understood_reply|done|done].
  - cbn [mbind option_bind]. eexists _, _. split; [done|]. left. split; [|done].
    destruct (fate _); [|done|done]. rewrite understood_reply. by destruct c.
Qed.

(** The engine's promotion laws hold of a remote drive when they hold of the
    disk behind it. *)
Definition RemoteDrive_laws sv sp bucket key {HL : PromotionLaws B sv sp bucket key} :
  PromotionLaws (RemoteDrive B) (HB := RemoteDrive_backend) sv sp bucket key.
Proof.
  refine (Build_PromotionLaws (RemoteDrive B) RemoteDrive_backend sv sp bucket key
    (λ fi r, ∃ b, rd_disk r = Some b ∧ ready fi b) (λ fi r, ∃ b, rd_disk r = Some b ∧ published fi b) _ _ _ _ _ _);
    cbn [sb_rename_data sb_delete_version sb_delete sb_read_version RemoteDrive_backend].
  - intros fi r (b & Hb & Hready). destruct (rename_publishes fi b Hready) as (rb & b' & E & Hp).
    destruct (remote_do_spec (CRenameData sv sp fi bucket key) r) as (res & r' & -> & Hr).
    { intros b0. rewrite Hb. intros [= <-]. by eexists. }
    exists res, r'. split; [done|]. intros resp ->. destruct Hr as [[? _]|(b0 & rb0 & b1 & H1 & H2 & H3 & H4)]; [done|].
    rewrite Hb in H1. injection H1 as <-. cbn in H2. rewrite E in H2. injection H2 as <- <-.
    destruct (Hp resp) as [? ?]; [by eapply (proj1 (map_err_ok _ _ _)), H4|]. split; [by exists b'|done].
  - intros fi r. destruct (remote_do_spec (CDeleteVersion bucket key fi false undo) r) as (res & r' & -> & _); [|by eexists].
    intros b _. apply undo_total.
  - intros v p r. destruct (remote_do_spec (CDelete v p true) r) as (res & r' & -> & _); [|by eexists].
    intros b _. apply delete_total.
  - intros fi r res r' (b & Hb & Hp) E. destruct (remote_do_spec (CDelete sv sp true) r) as (res' & r2 & E2 & Hr).
    { intros b0 _. apply delete_total. }
    rewrite E in E2. injection E2 as <- <-. destruct Hr as [[_ ->]|(b0 & rb0 & b1 & H1 & H2 & H3 & _)]; [by exists b|].
    rewrite Hb in H1. injection H1 as <-. exists b1. split; [done|]. by eapply sweep_keeps.
  - intros fi r res r' dd (b & Hb & Hp) Hc Hd Hd' E.
    destruct (remote_do_spec (CDelete bucket (key +:+ "/" +:+ dd) true) r) as (res' & r2 & E2 & Hr).
    { intros b0 _. apply delete_total. }
    rewrite E in E2. injection E2 as <- <-. destruct Hr as [[_ ->]|(b0 & rb0 & b1 & H1 & H2 & H3 & _)]; [by exists b|].
    rewrite Hb in H1. injection H1 as <-. exists b1. split; [done|]. by eapply stale_keeps.
  - intros fi r (b & Hb & Hp). destruct (read_published fi b Hp) as (rb & b' & E & Hr).
    destruct (remote_do_spec (CReadVersion "" bucket key None true) r) as (res & r' & -> & Hres).
    { intros b0. rewrite Hb. intros [= <-]. by eexists. }
    exists res, r'. split; [done|]. intros fi' ->. destruct Hres as [[? _]|(b0 & rb0 & b1 & H1 & H2 & H3 & H4)]; [done|].
    rewrite Hb in H1. injection H1 as <-. cbn in H2. rewrite E in H2. injection H2 as <- <-.
    apply Hr. by eapply (proj1 (map_err_ok _ _ _)), H4.
Defined.

(** A remote drive is a disk with a format file, whatever the network does. *)
Lemma remote_format_spec {A} env i (n : Node B) req (pick : Response → option A) (m : call B A) ok :
  is_streaming req = false → (∀ now, dispatch now req n = on_disk_idx i m (λ r, fold r ok) n) →
  (∀ a a', pick (ok a) = Some a' → a' = a) → (∀ e, pick (PErr e) = None) →
  (∀ b, n_disks n !! i = Some b → is_Some (m b)) →
  ∃ res n', call_typed debug env req pick n = Some (res, n')
    ∧ ((is_ok res = false ∧ n_disks n' = n_disks n)
       ∨ ∃ b rb b', n_disks n !! i = Some b ∧ m b = Some (rb, b') ∧ n_disks n' !! i = Some b'
           ∧ match res with Ok a => rb = Ok a | Err _ => True end).
Proof.
  intros Hs Hd Hpick Herr Htot. unfold call_typed.
  destruct (unary_cases env req n Hs) as [[e ->]| ->]; [eexists _, _; split; [done|]; by left|].
  rewrite Hd. unfold on_disk_idx. destruct (disk_at (n_disks n) i) as [b|e] eqn:Ed.
  - apply disk_at_lookup in Ed. destruct (Htot b Ed) as [[rb b'] Eb]. rewrite Eb. cbn [mbind option_bind].
    eexists _, _. split; [done|]. right. exists b, rb, b'. split_and!; [done..|by eapply set_disk_lookup|].
    destruct (fate env); cbn; [|done|done]. destruct rb as [a|e]; cbn; [|by rewrite Herr].
    destruct (pick (ok a)) as [a'|] eqn:Ep; [by rewrite (Hpick _ _ Ep)|by destruct (ok a)].
  - cbn [mbind option_bind]. eexists _, _. split; [done|]. left. split; [|done].
    destruct (fate env); cbn; [|done|done]. by rewrite Herr.
Qed.

Program Definition RemoteDrive_format : FormatBackend (RemoteDrive B) := {|
  fb_read_format := λ r, over_wire (λ env, remote_read_format debug env (rd_idx r)) r;
  fb_write_format := λ f r, over_wire (λ env, remote_write_format debug env (rd_idx r) f) r;
  fb_holds := λ r o, ∃ b, rd_disk r = Some b ∧ fb_holds b o
|}.
Next Obligation.
  intros r o (b & Hb & Hh). destruct (fb_read_spec b o Hh) as (rb & b' & E & Hh' & Hr). unfold over_wire, remote_read_format.
  destruct (remote_format_spec (rd_net r (rd_sent r)) (rd_idx r) (rd_peer r) (RReadFormat (rd_idx r))
    (λ r, match r with PFormatOpt o => Some o | _ => None end) fb_read_format PFormatOpt) as (res & n' & -> & Hres);
    [done|done|by intros a a' [= ->]|done| |].
  { intros b0 Hb0. unfold rd_disk in Hb. rewrite Hb in Hb0. injection Hb0 as <-. by eexists. }
  eexists _, _. split; [done|]. unfold rd_disk in *. cbn. destruct Hres as [[Hok ->]|(b0 & rb0 & b1 & H1 & H2 & H3 & H4)].
  - split; [by exists b|]. by intros o' ->.
  - rewrite Hb in H1. injection H1 as <-. rewrite E in H2. injection H2 as <- <-. split; [by exists b'|]. intros o' ->. by apply Hr.
Qed.
Next Obligation.
  intros r o f (b & Hb & Hh). destruct (fb_write_spec b o f Hh) as (rb & b' & E & Hr). unfold over_wire, remote_write_format, call_unit.
  destruct (remote_format_spec (rd_net r (rd_sent r)) (rd_idx r) (rd_peer r) (RWriteFormat (rd_idx r) f)
    (λ r, match r with POk => Some () | _ => None end) (fb_write_format f) (λ _, POk)) as (res & n' & -> & Hres);
    [done|done|by intros [] []|done| |].
  { intros b0 Hb0. unfold rd_disk in Hb. rewrite Hb in Hb0. injection Hb0 as <-. by eexists. }
  eexists _, _. split; [done|]. unfold rd_disk in *. cbn. destruct Hres as [[Hok ->]|(b0 & rb0 & b1 & H1 & H2 & H3 & H4)].
  - destruct res; [done|]. left. by exists b.
  - rewrite Hb in H1. injection H1 as <-. rewrite E in H2. injection H2 as <- <-. destruct res as [u|e].
    + subst rb. by exists b'.
    + destruct rb; [right; by exists b'|]. destruct Hr; [left|right]; by exists b'.
Qed.
End remote.

(** ** Drives of either kind *)

Section either.
Context {B1 B2 : Type}.

Definition either_call {A} (m1 : call B1 A) (m2 : call B2 A) : call (B1 + B2) A := λ b,
  match b with
  | inl b => '(r, b) ← m1 b; Some (r, inl b)
  | inr b => '(r, b) ← m2 b; Some (r, inr b)
  end.

Definition either_backend (S1 : StorageBackend B1) (S2 : StorageBackend B2) : StorageBackend (B1 + B2) := {|
  sb_disk_info := either_call sb_disk_info sb_disk_info;
  sb_make_vol := λ v, either_call (sb_make_vol v) (sb_make_vol v);
  sb_list_vols := either_call sb_list_vols sb_list_vols;
  sb_stat_vol := λ v, either_call (sb_stat_vol v) (sb_stat_vol v);
  sb_delete_vol := λ v f, either_call (sb_delete_vol v f) (sb_delete_vol v f);
  sb_list_dir := λ v d n, either_call (sb_list_dir v d n) (sb_list_dir v d n);
  sb_rename_file := λ sv sp dv dp, either_call (sb_rename_file sv sp dv dp) (sb_rename_file sv sp dv dp);
  sb_check_file := λ v p, either_call (sb_check_file v p) (sb_check_file v p);
  sb_delete := λ v p r, either_call (sb_delete v p r) (sb_delete v p r);
  sb_delete_batch := λ v ps r, either_call (sb_delete_batch v ps r) (sb_delete_batch v ps r);
  sb_write_metadata := λ ov v p fi, either_call (sb_write_metadata ov v p fi) (sb_write_metadata ov v p fi);
  sb_read_version := λ ov v p vid rd, either_call (sb_read_version ov v p vid rd) (sb_read_version ov v p vid rd);
  sb_walk_dir := λ v b r p a m, either_call (sb_walk_dir v b r p a m) (sb_walk_dir v b r p a m);
  sb_update_metadata := λ v p fi o, either_call (sb_update_metadata v p fi o) (sb_update_metadata v p fi o);
  sb_delete_version := λ v p fi f o, either_call (sb_delete_version v p fi f o) (sb_delete_version v p fi f o);
  sb_rename_data := λ sv sp fi dv dp, either_call (sb_rename_data sv sp fi dv dp) (sb_rename_data sv sp fi dv dp);
  sb_verify_file := λ v p fi, either_call (sb_verify_file v p fi) (sb_verify_file v p fi);
  sb_write_file := λ v p c, either_call (sb_write_file v p c) (sb_write_file v p c);
  sb_read_file := λ v p, either_call (sb_read_file v p) (sb_read_file v p);
  sb_make_dir_all := λ v p, either_call (sb_make_dir_all v p) (sb_make_dir_all v p)
|}.

Definition either (P1 : B1 → Prop) (P2 : B2 → Prop) (b : B1 + B2) : Prop := match b with inl b => P1 b | inr b => P2 b end.

Lemma either_total {A} (m1 : call B1 A) (m2 : call B2 A) b :
  (∀ b, is_Some (m1 b)) → (∀ b, is_Some (m2 b)) → is_Some (either_call m1 m2 b).
Proof. intros H1 H2. destruct b as [b|b]; [destruct (H1 b) as [[r b'] E]|destruct (H2 b) as [[r b'] E]]; cbn; rewrite E; by eexists. Qed.

Lemma either_some {A} (m1 : call B1 A) (m2 : call B2 A) (P1 Q1 : B1 → Prop) (P2 Q2 : B2 → Prop) (R : A → Prop) b :
  (∀ b, P1 b → ∃ r b', m1 b = Some (r, b') ∧ ∀ a, r = Ok a → R a ∧ Q1 b') →
  (∀ b, P2 b → ∃ r b', m2 b = Some (r, b') ∧ ∀ a, r = Ok a → R a ∧ Q2 b') →
  either P1 P2 b → ∃ r b', either_call m1 m2 b = Some (r, b') ∧ ∀ a, r = Ok a → R a ∧ either Q1 Q2 b'.
Proof.
  intros H1 H2. destruct b as [b|b]; intros Hb; [destruct (H1 b Hb) as (r & b' & E & H)|destruct (H2 b Hb) as (r & b' & E & H)];
    cbn; rewrite E; by eexists _, _.
Qed.

Lemma either_keeps {A} (m1 : call B1 A) (m2 : call B2 A) (P1 : B1 → Prop) (P2 : B2 → Prop) b r b' :
  (∀ b r b', P1 b → m1 b = Some (r, b') → P1 b') → (∀ b r b', P2 b → m2 b = Some (r, b') → P2 b') →
  either P1 P2 b → either_call m1 m2 b = Some (r, b') → either P1 P2 b'.
Proof.
  intros H1 H2 Hb. destruct b as [b|b]; cbn.
  - destruct (m1 b) as [[]|] eqn:E; [|done]. intros [= <- <-]. by eapply H1.
  - destruct (m2 b) as [[]|] eqn:E; [|done]. intros [= <- <-]. by eapply H2.
Qed.

Definition either_laws {S1 : StorageBackend B1} {S2 : StorageBackend B2} sv sp bucket key
    (L1 : PromotionLaws B1 sv sp bucket key) (L2 : PromotionLaws B2 sv sp bucket key) :
  PromotionLaws (B1 + B2) (HB := either_backend S1 S2) sv sp bucket key.
Proof.
  refine (Build_PromotionLaws (B1 + B2) (either_backend S1 S2) sv sp bucket key
    (λ fi, either (ready fi) (ready fi)) (λ fi, either (published fi) (published fi)) _ _ _ _ _ _);
    cbn [sb_rename_data sb_delete_version sb_delete sb_read_version either_backend].
  - intros fi b Hb. edestruct (either_some (sb_rename_data sv sp fi bucket key) (sb_rename_data sv sp fi bucket key)
      (ready fi) (published fi) (ready fi) (published fi) (λ resp, canonical_id "" (old_data_dir resp)) b) as (r & b' & E & H); [| |done|].
    1,2: intros b0 H0; destruct (rename_publishes fi b0 H0) as (r & b' & E & H); exists r, b'; split; [done|]; intros a Ha; by destruct (H a Ha).
    exists r, b'. split; [done|]. intros resp Hr. by destruct (H resp Hr).
  - intros fi b. apply either_total; intros; apply undo_total.
  - intros v p b. apply either_total; intros; apply delete_total.
  - intros fi b r b'. apply either_keeps; intros; by eapply sweep_keeps.
  - intros fi b r b' dd Hp Hc Hd Hd'. revert Hp. apply either_keeps; intros; by eapply stale_keeps.
  - intros fi b Hb. edestruct (either_some (sb_read_version "" bucket key None true) (sb_read_version "" bucket key None true)
      (published fi) (λ _, True) (published fi) (λ _, True)
      (λ fi', ∃ n, fi' = file_info_from_record (record_of n fi) bucket key) b) as (r & b' & E & H); [| |done|].
    1,2: intros b0 H0; destruct (read_published fi b0 H0) as (r & b' & E & H); exists r, b'; split; [done|]; intros a Ha; split; [by apply H|done].
    exists r, b'. split; [done|]. intros fi' Hr. by destruct (H fi' Hr).
Defined.

Program Definition either_format (F1 : FormatBackend B1) (F2 : FormatBackend B2) : FormatBackend (B1 + B2) := {|
  fb_read_format := either_call fb_read_format fb_read_format;
  fb_write_format := λ f, either_call (fb_write_format f) (fb_write_format f);
  fb_holds := λ b o, either (λ b, fb_holds b o) (λ b, fb_holds b o) b
|}.
Next Obligation.
  intros F1 F2 [b|b] o Hb; destruct (fb_read_spec b o Hb) as (r & b' & E & H); cbn; rewrite E; by eexists _, _.
Qed.
Next Obligation.
  intros F1 F2 [b|b] o f Hb; destruct (fb_write_spec b o f Hb) as (r & b' & E & H); cbn; rewrite E; by eexists _, _.
Qed.
End either.

(** ** The drives of a cluster, as one node sees them *)

Section cluster.
Context {C : Bincode} {CL : BincodeLaws C} (debug : Response → string).
Context (rmp_to_vec : OnDiskMeta → result string bytes) (rmp_from_slice : bytes → result string OnDiskMeta).
Context (xxh64 : bytes → Z).
Context (json_to_vec : FormatJson → result string bytes) (json_from_slice : bytes → result string FormatJson).
Context (Hjson : ∀ f b, json_to_vec f = Ok b → json_from_slice b = Ok f).

Definition Drive : Type := (LocalDrive + RemoteDrive LocalDrive)%type.
Definition local_backend : StorageBackend LocalDrive := LocalDrive_backend rmp_to_vec rmp_from_slice xxh64.
Definition local_format : FormatBackend LocalDrive := LocalDrive_format json_to_vec json_from_slice Hjson.
Definition Drive_backend : StorageBackend Drive :=
  either_backend local_backend (RemoteDrive_backend (SB := local_backend) (FB := local_format) debug).
Definition Drive_format : FormatBackend Drive :=
  either_format local_format (RemoteDrive_format (SB := local_backend) (FB := local_format) debug).

(** The disk a drive stands for can take a record. *)
Definition drive_ready (bucket key : string) (fi : FileInfo) (b : Drive) : Prop :=
  match b with
  | inl b => local_ready rmp_to_vec rmp_from_slice xxh64 bucket key fi b
  | inr r => ∃ b, rd_disk r = Some b ∧ local_ready rmp_to_vec rmp_from_slice xxh64 bucket key fi b
  end.

(** ** Properties *)

(** C3.  Writing and reading an inline object on a cluster: some drives are
    local, the others are reached over the network, calls of any disk may fail
    and any message may be lost.  [put_inline] does not panic.  When it reports
    success (the quorum being the whole set, and the object's earlier versions
    older), the lock was held, and every later read of the latest version in
    which at most [parity] drives fail, and fewer than half of the set, returns
    a record with exactly the bytes written, their size, etag and version. *)
Theorem cluster_put_read_back (md5 : bytes → string) (blake3 : bytes → bytes)
    {HS : HashIter string} {HN : HashIter nat} {HH : HashIter (list byte)} {St} `{ByteStream St}
    (lock : LockGuard) (parity : nat) (bucket key : string) (sz : nat) (src : St) (body : bytes)
    (content_type : option string) (mod_time : Z) (vid staging_id : string) (drives : list Drive)
    (Hroundtrip : ∀ m b, rmp_to_vec m = Ok b → rmp_from_slice b = Ok m)
    (Htyped : ∀ b m, rmp_from_slice b = Ok m → Forall typed_version m)
    (Hmd5 : ∀ b, md5 b ≠ "")
    (Hbucket : is_system_vol bucket = false) (Htrash : bucket ≠ TRASH_DIRNAME)
    (Hn : 0 < length drives < 256) (Hparity : 2 * parity ≤ length drives)
    (Hsrc : yields src body)
    (Hready : ∀ frames etag, drain_inline_payload md5 src sz = Some (Ok (frames, etag)) →
       Forall2 (drive_ready bucket key)
         (inline_records parity (length drives) bucket key sz frames etag mod_time content_type vid) drives) :
  let backend := Drive_backend in
  let n := length drives in
  ∃ r drives', put_inline md5 lock parity bucket key sz src content_type mod_time vid staging_id drives n = Some (r, drives')
    ∧ (length body < sz → is_ok r = false ∧ drives' = drives)
    ∧ ∀ info, r = Ok info →
        check lock = Ok () ∧ oi_etag info = md5 (take sz body)
        ∧ ∃ answers drives'', Put.read_all bucket key drives' = Some (answers, drives'') ∧ length answers = n
            ∧ let failed := n - length (omap res_ok answers) in
              (failed ≤ parity → failed < Nat.max (n / 2) 1 →
               ∃ i fi, read_with_consensus blake3 bucket key answers = Some (Ok (i, fi))
                 ∧ answers !! i = Some (Ok fi)
                 ∧ payload fi = take sz body ∧ size fi = Z.of_nat sz ∧ version_id fi = vid
                 ∧ metadata fi !! ETAG_META_KEY = Some (oi_etag info)).
Proof.
  intros backend n.
  pose (disk := LocalDrive_laws rmp_to_vec rmp_from_slice xxh64 Hroundtrip Htyped STAGING_VOL staging_id bucket key
    eq_refl (staging_ne bucket Hbucket) Htrash).
  pose (laws := either_laws STAGING_VOL staging_id bucket key disk
    (RemoteDrive_laws (SB := local_backend) (FB := local_format) debug STAGING_VOL staging_id bucket key (HL := disk))).
  destruct (put_inline_spec (HL := laws) md5 lock parity bucket key sz src body content_type mod_time vid staging_id drives)
    as (r & drives' & Hrun & Hshort & Hok); [change (parity ≤ length (drives : list Drive)); lia|done|exact Hready|].
  exists r, drives'. split; [exact Hrun|]. split; [intros Hl; by destruct (Hshort Hl) as [-> ->]|].
  intros info Hr. destruct (Hok info Hr) as (Hlen & Hlock & Hetag & Hsize & Hvid & frames & Hfr & Hpub).
  split; [done|]. split; [done|].
  rewrite Hetag. exact (consensus_on_published (HL := laws) blake3 parity bucket key sz body content_type mod_time vid STAGING_VOL
    staging_id n drives' frames _ Hn Hparity (Hmd5 _) Hfr Hpub).
Qed.
End cluster.

(** ** Evaluation *)

#[local] Instance drives_string_order : HashIter string := listed_order string.
#[local] Instance drives_nat_order : HashIter nat := listed_order nat.
#[local] Instance drives_bytes_order : HashIter (list byte) := listed_order (list byte).

(** The requests of the remote drive of a set of two. *)
Definition set_codec : Bincode := table_codec
  (((λ fi, RRenameData 0 STAGING_VOL "s" fi "b" "k") <$> put_fis)
   ++ [RDelete 0 STAGING_VOL "s" true; RReadVersion 0 "" "b" "k" None true]).
Definition mixed_backend : StorageBackend Drive :=
  Drive_backend (C := set_codec) debug_none two_to_vec two_from_slice sum_hash json_enc bits_dec json_codec.
Definition mixed_drives : list Drive :=
  [inl (drive_of empty_drive); inr {| rd_peer := two_disk_node; rd_idx := 0; rd_net := λ _, sent_ok; rd_sent := 0 |}].
Definition mixed_run : option (StorageResult ObjectInfo * list Drive) :=
  put_inline (H := mixed_backend) put_etag put_lock 1 "b" "k" 3 rope3 None 9 (sample_uuid xcc) "s" mixed_drives 2.
Definition mixed_after : list Drive := match mixed_run with Some (_, ds) => ds | None => [] end.
Definition mixed_answers : list (IoResult FileInfo) :=
  match Put.read_all (HB := mixed_backend) "b" "k" mixed_after with Some (rs, _) => rs | None => [] end.

Example mixed_runs :
  ((λ r : StorageResult ObjectInfo * list Drive, is_ok r.1) <$> mixed_run, is_ok <$> mixed_answers) = (Some true, [true; true]).
Proof. vm_compute. reflexivity. Qed.

Lemma mixed_ready frames etag :
  drain_inline_payload put_etag rope3 3 = Some (Ok (frames, etag)) →
  Forall2 (drive_ready two_to_vec two_from_slice sum_hash "b" "k")
    (inline_records 1 2 "b" "k" 3 frames etag 9 None (sample_uuid xcc)) mixed_drives.
Proof.
  intros Hd. pose proof (two_drives_ready frames etag Hd) as Hr.
  inversion Hr as [|fi1 b1 fis1 bs1 H1 Hr1 E1 E2]. inversion Hr1 as [|fi2 b2 fis2 bs2 H2 Hr2 E3 E4]. inversion Hr2.
  unfold inline_records, with_per_disk_index in E1 |- *. constructor; [exact H1|]. constructor; [|constructor].
  exists (drive_of empty_drive). split; [reflexivity|exact H2].
Qed.

Lemma cluster_put_read_back_witness :
  ∃ i fi, read_with_consensus (λ b, b) "b" "k" mixed_answers = Some (Ok (i, fi)) ∧ payload fi = [x01; x02; x03].
Proof.
  destruct (cluster_put_read_back (C := set_codec) debug_none two_to_vec two_from_slice sum_hash json_enc bits_dec json_codec
    put_etag (λ b, b) put_lock 1 "b" "k" 3 rope3
    [x01; x02; x03; x04; x05; x06] None 9 (sample_uuid xcc) "s" mixed_drives) as (r & drives' & Hrun & _ & Hok).
  - exact (table_codec_roundtrip _).
  - exact (table_codec_typed _).
  - discriminate.
  - reflexivity.
  - discriminate.
  - simpl. lia.
  - simpl. lia.
  - split; [|reflexivity]. repeat constructor; discriminate.
  - exact mixed_ready.
  - change (mixed_run = Some (r, drives')) in Hrun.
    assert (drives' = mixed_after) as -> by (unfold mixed_after; by rewrite Hrun).
    pose proof (f_equal fst mixed_runs) as Hp. cbn [fst] in Hp. rewrite Hrun in Hp.
    destruct r as [info|e]; [|discriminate Hp].
    destruct (Hok info eq_refl) as (_ & _ & answers & ds & Hread & _ & Hc).
    change (Put.read_all (HB := mixed_backend) "b" "k" mixed_after = Some (answers, ds)) in Hread.
    assert (answers = mixed_answers) as -> by (unfold mixed_answers; by rewrite Hread).
    destruct Hc as (i & fi & H1 & _ & H2 & _); [vm_compute; lia|vm_compute; lia|].
    exists i, fi. split; [exact H1|exact H2].
Defined.
