(* ===== verification/RdmaDrive.v ===== *)
(** * Drives of another node over RDMA

    [openlake_io/src/rdma_backend.rs] (the client), [openlake_server/src/rdma_server.rs]
    (the server) and the chunk calls of [local_fs.rs] with their cache of open
    files.  Two calls travel as messages, file contents as one-sided copies
    between registered buffers, everything else over HTTP as in [Drives].

    What the card and the network do is an input, call by call: the buffers the
    two pools hand out, the outcome of a one-sided copy (a failed one may have
    copied a part), and whether a request is sent, handled and answered.  The
    memory of both nodes is one address space, as in [KvClient].  An open file is
    addressed by its path: no other call moves it while its handle is cached.
    [None] is a panic, or a wait that never ends. *)

From stdpp Require Import base numbers gmap strings sorting pretty list.
From Stdlib Require Import ZArith.
From S2P Require Import Prelude Text Types LockServer Streams XlMeta Fs LocalFs Backend Put Format Rpc Drives Kv KvClient Rdma RdmaPool RdmaKv.

(** ** Chunks of a local file *)

Definition O_DIRECT_ALIGN : Z := 512.
Definition HANDLE_CACHE_CAPACITY : nat := 4096.

(** The paths with an open pair of handles, the latest used first. *)
Abbreviation FileHandleCache := (list path).
Definition cache_use (p : path) (c : FileHandleCache) : FileHandleCache := p :: filter (λ q, q ≠ p) c.
(** [LruCache::put] drops the entry used longest ago when it is full. *)
Definition cache_add (p : path) (c : FileHandleCache) : FileHandleCache := take HANDLE_CACHE_CAPACITY (cache_use p c).

(** [open] for reading and writing; with [create], an existing file is kept. *)
Definition t_open (create : bool) (p : path) (t : fstree) : result StdIoError fstree :=
  match t !! p with
  | Some (NFile _) => Ok t
  | Some NDir => Err eisdir
  | None => if create then t_write p [] t else Err (missing t p)
  end.
(** [get_or_open]: one handle with [O_DIRECT] and one without. *)
Definition get_or_open (fault : nat → option string) (c : FileHandleCache) (p : path) (create : bool) : Fs StdIoError FileHandleCache :=
  if bool_decide (p ∈ c) then fs_ret (cache_use p c)
  else (change fault (t_open create p) ;; change fault (t_open create p) ;; fs_ret (cache_add p c))%fs.

(** A drive with the handles it has open. *)
Record HandleDrive := { hd_drive : LocalDrive; hd_cache : FileHandleCache }.
Definition opened (h : HandleDrive) (r : option (IoResult FileHandleCache * LocalDrive)) : option (IoResult unit * HandleDrive) :=
  '(r, b) ← r;
  Some (match r with
        | Ok c => (Ok (), {| hd_drive := b; hd_cache := c |})
        | Err e => (Err e, {| hd_drive := b; hd_cache := hd_cache h |})
        end).
Definition on_handle {A} (m : Fs IoError A) (h : HandleDrive) : option (IoResult A * HandleDrive) :=
  '(r, b) ← on_disk m (hd_drive h); Some (r, {| hd_drive := b; hd_cache := hd_cache h |}).

Definition write_chunk_at (v p : string) (offset : nat) (data : bytes) (h : HandleDrive) : option (IoResult unit * HandleDrive) :=
  let fault := ld_fault (hd_drive h) in
  let q := file_path v p in
  '(r, h) ← opened h (on_disk (require_vol fault v ;;
                               fs_map_err Io (os_create_dir_all fault (parent q)) ;;
                               fs_map_err (λ e, map_open_err e v p) (get_or_open fault (hd_cache h) q true))%fs (hd_drive h));
  match r with
  | Err e => Some (Err e, h)
  | Ok _ => on_handle (fs_map_err Io (change fault (t_write_at q offset data))) h
  end.

(** [strict]: the file system refuses a direct read that is not aligned. *)
Definition aligned (z : Z) : bool := (z `mod` O_DIRECT_ALIGN =? 0)%Z.
Definition read_chunk_at (strict : bool) (v p : string) (offset len : nat) (dst : Z) (h : HandleDrive) : option (IoResult bytes * HandleDrive) :=
  let fault := ld_fault (hd_drive h) in
  let q := file_path v p in
  '(r, h) ← opened h (on_disk (require_vol fault v ;;
                               fs_map_err (λ e, map_open_err e v p) (get_or_open fault (hd_cache h) q false))%fs (hd_drive h));
  match r with
  | Err e => Some (Err e, h)
  | Ok _ =>
      on_handle (fs_map_err Io (query fault (λ t,
        if strict && negb (aligned dst && aligned (Z.of_nat len) && aligned (Z.of_nat offset)) then Err einval
        else t_read_at q offset len t))) h
  end.

(** ** The server *)

(** What happens to one request at the server: the time, the buffer its pool
    hands out, and the outcome of its one-sided copy. *)
Record served_env := {
  se_now : Z; se_clocks : clocks; se_buf : result StdIoError RdmaBufInner; se_copy : result (StdIoError * nat) unit
}.
(** [rdma_write] and [rdma_read]: copy [len] bytes, or the first of them. *)
Definition one_sided (outcome : result (StdIoError * nat) unit) (dst src len : Z) (m : Mem) : result StdIoError unit * Mem :=
  match outcome with
  | Ok _ => (Ok (), copy dst src len m)
  | Err (e, n) => (Err e, copy dst src (Z.min (Z.of_nat n) len) m)
  end.

Record RdmaServer := {
  sv_node : Node LocalDrive; sv_caches : list FileHandleCache; sv_kv : option RdmaEngine;
  sv_routing : RoutingTable; sv_buf_size : Z
}.
Definition sv_disk (i : nat) (s : RdmaServer) : option HandleDrive :=
  b ← n_disks (sv_node s) !! i; Some {| hd_drive := b; hd_cache := default [] (sv_caches s !! i) |}.
Definition set_handle (i : nat) (h : HandleDrive) (s : RdmaServer) : RdmaServer :=
  {| sv_node := set_disk i (hd_drive h) (sv_node s); sv_caches := <[i := hd_cache h]> (sv_caches s);
     sv_kv := sv_kv s; sv_routing := sv_routing s; sv_buf_size := sv_buf_size s |}.
Definition set_sv_node (n : Node LocalDrive) (s : RdmaServer) : RdmaServer :=
  {| sv_node := n; sv_caches := sv_caches s; sv_kv := sv_kv s; sv_routing := sv_routing s; sv_buf_size := sv_buf_size s |}.
Definition set_sv_kv (e : RdmaEngine) (s : RdmaServer) : RdmaServer :=
  {| sv_node := sv_node s; sv_caches := sv_caches s; sv_kv := Some e; sv_routing := sv_routing s; sv_buf_size := sv_buf_size s |}.

Definition chunk_err (e : WireError) : RdmaResponse := GenericResponse (PErr e).
Definition no_disk (i : nat) : IoError := Io (io_error_other ("disk_idx " +:+ pretty i +:+ " out of range")).

Section server.
Context `{SB : StorageBackend LocalDrive, FB : FormatBackend LocalDrive} {HI : HashIter N}.
Context (strict : bool) (sender_ah : PeerEndpoint → result string unit).

Definition handle_read_file_chunk (env : served_env) (i : nat) (v p : string) (offset len : Z) (target : RdmaRemoteBuf)
    (s : RdmaServer) (m : Mem) : option (RdmaResponse * RdmaServer * Mem) :=
  if (sv_buf_size s <? len)%Z then
    Some (chunk_err (WOther ("read_file_chunk length " +:+ pretty len +:+ " exceeds server bulk_buf_size " +:+ pretty (sv_buf_size s))), s, m)
  else if (rr_len target <? len)%Z then
    Some (chunk_err (WOther ("read_file_chunk length " +:+ pretty len +:+ " exceeds client target.len " +:+ pretty (rr_len target))), s, m)
  else
    match sv_disk i s with
    | None => Some (chunk_err (wire_of_io (no_disk i)), s, m)
    | Some h =>
        match se_buf env with
        | Err e => Some (chunk_err (wire_of_io (Io e)), s, m)
        | Ok buf =>
            if (rb_capacity buf <? len)%Z then None
            else
              '(r, h) ← read_chunk_at strict v p (Z.to_nat offset) (Z.to_nat len) (rb_addr buf) h;
              let s := set_handle i h s in
              match r with
              | Err e => Some (chunk_err (wire_of_io e), s, m)
              | Ok bs =>
                  let m := poke (rb_addr buf) bs m in
                  let filled := Z.of_nat (length bs) in
                  if (filled =? 0)%Z then Some (ChunkReady 0, s, m)
                  else
                    let '(r, m) := one_sided (se_copy env) (rr_addr target) (rb_addr buf) filled m in
                    match r with
                    | Err e => Some (chunk_err (wire_of_io (Io e)), s, m)
                    | Ok _ => Some (ChunkReady filled, s, m)
                    end
              end
        end
    end.

Definition handle_write_file_chunk (env : served_env) (i : nat) (v p : string) (offset len : Z) (source : RdmaRemoteBuf)
    (s : RdmaServer) (m : Mem) : option (RdmaResponse * RdmaServer * Mem) :=
  if (sv_buf_size s <? len)%Z then
    Some (chunk_err (WOther ("write_file_chunk length " +:+ pretty len +:+ " exceeds server bulk_buf_size " +:+ pretty (sv_buf_size s))), s, m)
  else if (rr_len source <? len)%Z then
    Some (chunk_err (WOther ("write_file_chunk length " +:+ pretty len +:+ " exceeds client source.len " +:+ pretty (rr_len source))), s, m)
  else
    match sv_disk i s with
    | None => Some (chunk_err (wire_of_io (no_disk i)), s, m)
    | Some h =>
        match se_buf env with
        | Err e => Some (chunk_err (wire_of_io (Io e)), s, m)
        | Ok buf =>
            let '(r, m) := one_sided (se_copy env) (rb_addr buf) (rr_addr source) len m in
            match r with
            | Err e => Some (chunk_err (wire_of_io (Io e)), s, m)
            | Ok _ =>
                let payload := peek (rb_addr buf) (Z.to_nat (Z.min len (rb_capacity buf))) m in
                '(r, h) ← write_chunk_at v p (Z.to_nat offset) payload h;
                let s := set_handle i h s in
                match r with
                | Err e => Some (chunk_err (wire_of_io e), s, m)
                | Ok _ => Some (ChunkWritten len, s, m)
                end
            end
        end
    end.

(** [handle] on a request: who sent it, the answer, [None] for a request that is
    dropped.  The acknowledgement it sends first ([note_drain]) changes only the
    credits of the sender, which [Rdma] models; an answer that cannot be encoded
    or sent is one that the client does not get ([WLost] below). *)
Definition serve_request (env : served_env) (from : Z * Z) (payload : RdmaRequest) (s : RdmaServer) (m : Mem) :
    option (option RdmaResponse * RdmaServer * Mem) :=
  let sender := match sv_routing s !! from with
                | Some peer => Some peer
                | None => e ← sv_kv s; backend_peer_at from.1 from.2 (re_backend e)
                end in
  match sender with
  | None => Some (None, s, m)
  | Some peer =>
      match sender_ah peer with
      | Err _ => Some (None, s, m)
      | Ok _ =>
          '(resp, s, m) ←
            match payload with
            | ReadFileChunk i v p offset len target => handle_read_file_chunk env i v p offset len target s m
            | WriteFileChunk i v p offset len source => handle_write_file_chunk env i v p offset len source s m
            | GenericRequest req => '(resp, n) ← dispatch (se_now env) req (sv_node s); Some (GenericResponse resp, set_sv_node n s, m)
            | req =>
                match sv_kv s with
                | Some e => '(resp, e) ← rdma_handle (se_clocks env) req e; Some (resp, set_sv_kv e s, m)
                | None => Some (chunk_err (WOther "not a kv node"), s, m)
                end
            end;
          Some (Some resp, s, m)
      end
  end.
End server.

(** ** The client *)

(** The fate of a request: not sent; sent, and handled or not, with its waiter
    dropped or no answer ever; or handled and its answer received. *)
Inductive Wire := WNotSent (e : StdIoError) | WLost (handled : bool) | WAbandoned (handled : bool) | WAnswered.
(** What happens to one call of the client: the address handle, the buffer its
    pool hands out, the request and the server. *)
Record wire_env := {
  we_ah : result StdIoError unit; we_buf : result StdIoError RdmaBufInner; we_wire : Wire; we_served : served_env
}.

(** [RdmaBackend] with its node, the server it talks to and the memory of both. *)
Record RdmaDrive := {
  rx_server : RdmaServer; rx_mem : Mem;
  rx_self : Z; rx_runtime : Z; rx_routing : RoutingTable; rx_next_request_id : Z; rx_pending : gset Z; rx_buf_size : Z;
  rx_peer_id : Z; rx_disk_idx : nat;
  rx_net : nat → wire_env; rx_sent : nat;
  (** Of the HTTP client for the other calls. *)
  rx_rpc_net : nat → call_env; rx_rpc_sent : nat
}.
Definition set_world (s : RdmaServer) (m : Mem) (x : RdmaDrive) : RdmaDrive :=
  {| rx_server := s; rx_mem := m; rx_self := rx_self x; rx_runtime := rx_runtime x; rx_routing := rx_routing x;
     rx_next_request_id := rx_next_request_id x; rx_pending := rx_pending x; rx_buf_size := rx_buf_size x; rx_peer_id := rx_peer_id x;
     rx_disk_idx := rx_disk_idx x; rx_net := rx_net x; rx_sent := rx_sent x; rx_rpc_net := rx_rpc_net x; rx_rpc_sent := rx_rpc_sent x |}.
Definition set_waiting (next : Z) (pending : gset Z) (x : RdmaDrive) : RdmaDrive :=
  {| rx_server := rx_server x; rx_mem := rx_mem x; rx_self := rx_self x; rx_runtime := rx_runtime x; rx_routing := rx_routing x;
     rx_next_request_id := next; rx_pending := pending; rx_buf_size := rx_buf_size x; rx_peer_id := rx_peer_id x;
     rx_disk_idx := rx_disk_idx x; rx_net := rx_net x; rx_sent := rx_sent x; rx_rpc_net := rx_rpc_net x; rx_rpc_sent := rx_rpc_sent x |}.
Definition count_call (x : RdmaDrive) : RdmaDrive :=
  {| rx_server := rx_server x; rx_mem := rx_mem x; rx_self := rx_self x; rx_runtime := rx_runtime x; rx_routing := rx_routing x;
     rx_next_request_id := rx_next_request_id x; rx_pending := rx_pending x; rx_buf_size := rx_buf_size x; rx_peer_id := rx_peer_id x;
     rx_disk_idx := rx_disk_idx x; rx_net := rx_net x; rx_sent := S (rx_sent x); rx_rpc_net := rx_rpc_net x; rx_rpc_sent := rx_rpc_sent x |}.
Definition set_rpc (n : Node LocalDrive) (sent : nat) (x : RdmaDrive) : RdmaDrive :=
  {| rx_server := set_sv_node n (rx_server x); rx_mem := rx_mem x; rx_self := rx_self x; rx_runtime := rx_runtime x; rx_routing := rx_routing x;
     rx_next_request_id := rx_next_request_id x; rx_pending := rx_pending x; rx_buf_size := rx_buf_size x; rx_peer_id := rx_peer_id x;
     rx_disk_idx := rx_disk_idx x; rx_net := rx_net x; rx_sent := rx_sent x; rx_rpc_net := rx_rpc_net x; rx_rpc_sent := sent |}.

(** What the client sees of a request. *)
Inductive Reply := RNotSent (e : StdIoError) | RGot (resp : RdmaResponse) | RDropped | RSilent.

Section client.
Context {C : Bincode} `{SB : StorageBackend LocalDrive, FB : FormatBackend LocalDrive} {HI : HashIter N}.
Context (strict : bool) (sender_ah : PeerEndpoint → result string unit).
(** Encoding an envelope; [{:?}] of the answers; the time limit in a message. *)
Context (encode : RdmaRequest → result string unit) (debug : Response → string) (debug_rdma : RdmaResponse → string) (limit : string).

(** The peer and its address handle. *)
Definition reach (env : wire_env) (x : RdmaDrive) : IoResult unit :=
  match rx_routing x !! (rx_peer_id x, rx_runtime x) with
  | None => Err (Io (io_error_other ("rdma peer " +:+ pretty (rx_peer_id x) +:+ " not in registry")))
  | Some _ => map_err Io (we_ah env)
  end.

(** Number the request, send it and wait.  A request that cannot be encoded
    stays among the pending ones. *)
Definition exchange (env : wire_env) (payload : RdmaRequest) (x : RdmaDrive) : option (IoResult Reply * RdmaDrive) :=
  let id := rx_next_request_id x in
  match encode payload with
  | Err e => Some (Err (Encode e), set_waiting (id + 1) ({[id]} ∪ rx_pending x) x)
  | Ok _ =>
      let x := set_waiting (id + 1) (rx_pending x ∖ {[id]}) x in
      let served :=
        '(resp, s, m) ← serve_request strict sender_ah (we_served env) (rx_self x, rx_runtime x) payload (rx_server x) (rx_mem x);
        Some (resp, set_world s m x) in
      let after (handled : bool) := if handled then '(_, x) ← served; Some x else Some x in
      match we_wire env with
      | WNotSent e => Some (Ok (RNotSent e), x)
      | WLost handled => x ← after handled; Some (Ok RSilent, x)
      | WAbandoned handled => x ← after handled; Some (Ok RDropped, x)
      | WAnswered => '(resp, x) ← served; Some (Ok (match resp with Some r => RGot r | None => RSilent end), x)
      end
  end.

Definition unary_inner (payload : Request) (x : RdmaDrive) : option (IoResult Response * RdmaDrive) :=
  let env := rx_net x (rx_sent x) in
  let x := count_call x in
  match reach env x with
  | Err e => Some (Err e, x)
  | Ok _ =>
      '(r, x) ← exchange env (GenericRequest payload) x;
      Some (reply ← r;
            match reply with
            | RNotSent e => Err (Io e)
            | RGot (GenericResponse resp) => Ok resp
            | RGot other => Err (Decode ("unary expected Generic, got " +:+ debug_rdma other))
            | RDropped => Err (Io (io_error_other "dispatcher dropped waiter"))
            | RSilent => Err (Io (io_error_other ("unary rdma response timeout (" +:+ limit +:+ ")")))
            end, x)
  end.

(** A read has no time limit. *)
Definition read_single_chunk (v p : string) (offset len : Z) (x : RdmaDrive) : option (IoResult bytes * RdmaDrive) :=
  let env := rx_net x (rx_sent x) in
  let x := count_call x in
  match reach env x with
  | Err e => Some (Err e, x)
  | Ok _ =>
      match we_buf env with
      | Err e => Some (Err (Io e), x)
      | Ok buf =>
          let target := {| rr_addr := rb_addr buf; rr_len := len; rr_rkey := rb_rkey buf |} in
          '(r, x) ← exchange env (ReadFileChunk (rx_disk_idx x) v p offset len target) x;
          match r with
          | Err e => Some (Err e, x)
          | Ok (RNotSent e) => Some (Err (Io e), x)
          | Ok (RGot (ChunkReady n)) => Some (Ok (peek (rb_addr buf) (Z.to_nat (Z.min n (rb_capacity buf))) (rx_mem x)), x)
          | Ok (RGot (GenericResponse (PErr e))) => Some (Err (io_of_wire e), x)
          | Ok (RGot other) => Some (Err (Decode ("expected ChunkReady, got " +:+ debug_rdma other)), x)
          | Ok RDropped => Some (Err (Io (io_error_other "dispatcher dropped chunk waiter")), x)
          | Ok RSilent => None
          end
      end
  end.

Definition write_single_chunk (v p : string) (offset : Z) (data : bytes) (x : RdmaDrive) : option (IoResult unit * RdmaDrive) :=
  let env := rx_net x (rx_sent x) in
  let x := count_call x in
  let len := Z.of_nat (length data) in
  match reach env x with
  | Err e => Some (Err e, x)
  | Ok _ =>
      if (u32_mod - 1 <? len)%Z then Some (Err (InvalidArgument ("write chunk too large: " +:+ pretty len)), x)
      else
        match we_buf env with
        | Err e => Some (Err (Io e), x)
        | Ok buf =>
            if (rb_capacity buf <? len)%Z then None
            else
              let x := set_world (rx_server x) (poke (rb_addr buf) data (rx_mem x)) x in
              let source := {| rr_addr := rb_addr buf; rr_len := len; rr_rkey := rb_rkey buf |} in
              '(r, x) ← exchange env (WriteFileChunk (rx_disk_idx x) v p offset len source) x;
              Some (match r with
                    | Err e => Err e
                    | Ok (RNotSent e) => Err (Io e)
                    | Ok (RGot (ChunkWritten n)) =>
                        if (n =? len)%Z then Ok ()
                        else Err (Io (io_error_other ("short write: server wrote " +:+ pretty n +:+ "/" +:+ pretty len)))
                    | Ok (RGot (GenericResponse (PErr e))) => Err (io_of_wire e)
                    | Ok (RGot other) => Err (Decode ("expected ChunkWritten, got " +:+ debug_rdma other))
                    | Ok RDropped => Err (Io (io_error_other "dispatcher dropped chunk waiter"))
                    | Ok RSilent => Err (Io (io_error_other ("chunk_write rdma response timeout (" +:+ limit +:+ ")")))
                    end, x)
        end
  end.

(** *** The calls of the backend *)

Definition rdma_stat_vol (v : string) (x : RdmaDrive) : option (IoResult VolInfo * RdmaDrive) :=
  '(r, x) ← unary_inner (RStatVol (rx_disk_idx x) v) x;
  Some (resp ← r;
        match resp with
        | PVol v => Ok v
        | PErr e => Err (io_of_wire e)
        | other => Err (Decode ("expected Vol, got " +:+ debug other))
        end, x).
Definition rdma_read_version (ov v p : string) (vid : option string) (read_data : bool) (x : RdmaDrive) : option (IoResult FileInfo * RdmaDrive) :=
  '(r, x) ← unary_inner (RReadVersion (rx_disk_idx x) ov v p vid read_data) x;
  Some (resp ← r;
        match resp with
        | PFile fi => Ok fi
        | PErr e => Err (io_of_wire e)
        | other => Err (Decode ("expected File, got " +:+ debug other))
        end, x).

(** [self.rpc_backend]. *)
Definition via_rpc {A} (c : Call A) (x : RdmaDrive) : option (IoResult A * RdmaDrive) :=
  '(r, d) ← remote_do debug c {| rd_peer := sv_node (rx_server x); rd_idx := rx_disk_idx x; rd_net := rx_rpc_net x; rd_sent := rx_rpc_sent x |};
  Some (r, set_rpc (rd_peer d) (rd_sent d) x).

Definition RdmaDrive_backend : StorageBackend RdmaDrive := {|
  sb_disk_info := via_rpc CDiskInfo;
  sb_make_vol := λ v, via_rpc (CMakeVol v);
  sb_list_vols := via_rpc CListVols;
  sb_stat_vol := rdma_stat_vol;
  sb_delete_vol := λ v force, via_rpc (CDeleteVol v force);
  sb_list_dir := λ v dir count, via_rpc (CListDir v dir count);
  sb_rename_file := λ sv sp dv dp, via_rpc (CRenameFile sv sp dv dp);
  sb_check_file := λ v p, via_rpc (CCheckFile v p);
  sb_delete := λ v p rec, via_rpc (CDelete v p rec);
  sb_delete_batch := λ v ps rec, via_rpc (CDeleteBatch v ps rec);
  sb_write_metadata := λ ov v p fi, via_rpc (CWriteMetadata ov v p fi);
  sb_read_version := rdma_read_version;
  sb_walk_dir := λ v base rec prefix after max, via_rpc (CWalkDir v base rec prefix after max);
  sb_update_metadata := λ v p fi opts, via_rpc (CUpdateMetadata v p fi opts);
  sb_delete_version := λ v p fi force opts, via_rpc (CDeleteVersion v p fi force opts);
  sb_rename_data := λ sv sp fi dv dp, via_rpc (CRenameData sv sp fi dv dp);
  sb_verify_file := λ v p fi, via_rpc (CVerifyFile v p fi);
  sb_write_file := λ v p c, via_rpc (CWriteFile v p c);
  sb_read_file := λ v p, via_rpc (CReadFile v p);
  sb_make_dir_all := λ v p, via_rpc (CMakeDirAll v p)
|}.

(** *** Streams and sinks *)

Record RdmaReadStream := { xs_drive : RdmaDrive; xs_volume : string; xs_path : string; xs_offset : nat; xs_remaining : nat; xs_chunk_size : nat }.
(** [buf_size() as u32]. *)
Definition chunk_size_of (x : RdmaDrive) : nat := Z.to_nat (rx_buf_size x `mod` u32_mod).
Definition rdma_read_file_stream (v p : string) (offset len : nat) (x : RdmaDrive) : RdmaReadStream :=
  {| xs_drive := x; xs_volume := v; xs_path := p; xs_offset := offset; xs_remaining := len; xs_chunk_size := chunk_size_of x |}.
Definition rdma_read (s : RdmaReadStream) : option (IoResult bytes * RdmaReadStream) :=
  if xs_remaining s =? 0 then Some (Ok [], s)
  else
    let request_len := Nat.min (xs_remaining s) (xs_chunk_size s) in
    '(r, x) ← read_single_chunk (xs_volume s) (xs_path s) (Z.of_nat (xs_offset s)) (Z.of_nat request_len) (xs_drive s);
    let moved offset remaining :=
      {| xs_drive := x; xs_volume := xs_volume s; xs_path := xs_path s; xs_offset := offset; xs_remaining := remaining; xs_chunk_size := xs_chunk_size s |} in
    match r with
    | Err e => Some (Err e, moved (xs_offset s) (xs_remaining s))
    | Ok chunk =>
        let got := length chunk in
        Some (Ok chunk, moved (xs_offset s + got) (if got <? request_len then 0 else xs_remaining s - got))
    end.

Record RdmaWriteSink := {
  xk_drive : RdmaDrive; xk_volume : string; xk_path : string; xk_cursor : nat; xk_expected : nat; xk_chunk_size : nat; xk_finished : bool
}.
Definition rdma_create_file_writer (v p : string) (sz : nat) (x : RdmaDrive) : RdmaWriteSink :=
  {| xk_drive := x; xk_volume := v; xk_path := p; xk_cursor := 0; xk_expected := sz; xk_chunk_size := chunk_size_of x; xk_finished := false |}.
Definition set_sink (x : RdmaDrive) (cursor : nat) (finished : bool) (k : RdmaWriteSink) : RdmaWriteSink :=
  {| xk_drive := x; xk_volume := xk_volume k; xk_path := xk_path k; xk_cursor := cursor; xk_expected := xk_expected k;
     xk_chunk_size := xk_chunk_size k; xk_finished := finished |}.
(** The pieces of a buffer; the cursor moves before the write.  Every piece has
    at least one byte, so the length of the buffer bounds their number. *)
Fixpoint rdma_write_loop (fuel : nat) (remaining : bytes) (k : RdmaWriteSink) : option (IoResult unit * RdmaWriteSink) :=
  match remaining with
  | [] => Some (Ok (), k)
  | _ =>
      match fuel with
      | 0 => None
      | S fuel =>
          let n := Nat.min (length remaining) (xk_chunk_size k) in
          '(r, x) ← write_single_chunk (xk_volume k) (xk_path k) (Z.of_nat (xk_cursor k)) (take n remaining) (xk_drive k);
          let k := set_sink x (xk_cursor k + n) (xk_finished k) k in
          match r with
          | Err e => Some (Err e, k)
          | Ok _ => rdma_write_loop fuel (drop n remaining) k
          end
      end
  end.
Definition rdma_write_all (buf : bytes) (k : RdmaWriteSink) : option (IoResult unit * RdmaWriteSink) :=
  if xk_finished k then Some (Err (Io (io_error_other "write after finish")), k) else rdma_write_loop (length buf) buf k.
Definition rdma_finish (k : RdmaWriteSink) : IoResult unit * RdmaWriteSink :=
  if xk_finished k then (Ok (), k)
  else if negb (xk_cursor k =? xk_expected k) then (Err (eof_error "rdma create_file_writer: wrote " (xk_cursor k) (xk_expected k)), k)
  else (Ok (), set_sink (xk_drive k) (xk_cursor k) true k).
End client.

(** ** Lemmas: chunks of a file *)

(** What a file holds after [data] is written at [pos]. *)
Definition overlay (pos : nat) (data c : bytes) : bytes := padded pos c ++ data ++ drop (pos + length data) c.
Lemma overlay_app pos a b c : overlay (pos + length a) b (overlay pos a c) = overlay pos (a ++ b) c.
Proof.
  unfold overlay at 1 3. rewrite length_app, <-!app_assoc. assert (length (padded pos c) = pos) as Hp by apply length_padded.
  assert (padded (pos + length a) (overlay pos a c) = padded pos c ++ a) as ->.
  { unfold padded at 1, overlay. rewrite !length_app, Hp. replace (pos + length a - _) with 0 by lia. rewrite app_nil_r, app_assoc.
    apply take_app_length'. rewrite length_app. lia. }
  rewrite <-app_assoc. do 3 f_equal. unfold overlay. rewrite app_assoc, drop_app_ge by (rewrite length_app; lia).
  rewrite length_app, Hp, drop_drop. f_equal. lia.
Qed.
Lemma overlay_start data c : overlay 0 data c = data ++ drop (length data) c.
Proof. unfold overlay, padded. cbn. by destruct c. Qed.

Definition content (q : path) (t : fstree) : bytes := match t !! q with Some (NFile c) => c | _ => [] end.
Lemma content_file_at b q : content q (tree (ld_disk b)) = default [] (file_at b q).
Proof. unfold content, file_at. by destruct (_ !! q) as [[]|]. Qed.

Lemma file_path_long v p q : segments p ≠ [] → q = file_path v p → ¬ q `prefix_of` [v].
Proof. intros Hp -> H%prefix_length. unfold file_path in H. destruct (segments p); [done|]. cbn in H. lia. Qed.
Lemma file_path_parent v p q : segments p ≠ [] → q = file_path v p → ¬ q `prefix_of` parent (file_path v p).
Proof.
  intros Hp -> H%prefix_length. unfold parent in H. rewrite length_take in H. unfold file_path in H. cbn in H. destruct (segments p); [done|]. cbn in H. lia.
Qed.

Lemma keeps_content {E A} q (m : Fs E A) c : framed (λ q', q' = q) m →
  fs_spec (λ t, content q t = c) m (λ _ t, content q t = c) (λ _ t, content q t = c).
Proof.
  intros Hf d Hd. destruct (framed_at q m (tree d !! q) Hf d eq_refl) as (r & d' & E1 & Hr). exists r, d'. split; [done|].
  destruct r; unfold content in *; by rewrite Hr.
Qed.
Lemma open_content fault q create c : fs_spec (λ t, content q t = c) (change fault (t_open create q)) (λ _ t, content q t = c) (λ _ t, content q t = c).
Proof.
  apply fs_spec_change; [done|]. intros t Ht. unfold t_open. destruct (t !! q) as [[|c']|] eqn:Hq; [done|done|].
  destruct create; [|done]. destruct (t_write q [] t) as [t'|] eqn:Hw; [|done]. apply write_ok in Hw as ->.
  unfold content in *. by rewrite Hq, lookup_insert_eq in *.
Qed.
Lemma get_or_open_content fault h q create c :
  fs_spec (λ t, content q t = c) (get_or_open fault h q create) (λ _ t, content q t = c) (λ _ t, content q t = c).
Proof.
  unfold get_or_open. destruct (bool_decide (q ∈ h)); [by apply fs_spec_ret|].
  eapply fs_spec_bind; [apply open_content|intros u1]. eapply fs_spec_bind; [apply open_content|intros u2]. by apply fs_spec_ret.
Qed.

Lemma write_chunk_at_ok v p offset data h h' : segments p ≠ [] → write_chunk_at v p offset data h = Some (Ok (), h') →
  file_at (hd_drive h') (file_path v p) = Some (overlay offset data (default [] (file_at (hd_drive h) (file_path v p)))).
Proof.
  intros Hp. unfold write_chunk_at. set (q := file_path v p). set (fault := ld_fault (hd_drive h)). set (m := fs_bind _ _).
  rewrite <-content_file_at. set (c := content q (tree (ld_disk (hd_drive h)))).
  assert (fs_spec (λ t, content q t = c) m (λ _ t, content q t = c) (λ _ t, content q t = c)) as Hm.
  { eapply fs_spec_bind; [apply keeps_content, require_vol_framed; by intros q'; apply file_path_long|intros u1].
    eapply fs_spec_bind; [apply keeps_content, framed_map_err, framed_create_dir_all; by intros q'; apply file_path_parent|intros u2].
    apply fs_spec_map_err, get_or_open_content. }
  destruct (Hm (ld_disk (hd_drive h)) eq_refl) as (r & d & E & Hr). unfold opened, on_disk at 1. rewrite E. cbn [mbind option_bind].
  destruct r as [cache|e]; [|done]. unfold on_handle.
  destruct (on_disk_change (t_write_at q offset data) (set_tree d (hd_drive h))) as (r & b & E2 & Hw).
  cbn [hd_drive] in *. change (ld_fault (set_tree d (hd_drive h))) with fault in E2. rewrite E2. cbn [mbind option_bind].
  intros [= -> <-]. cbn [hd_drive]. unfold t_write_at in Hw. cbn [set_tree ld_disk] in Hw.
  destruct (t_read q (tree d)) as [c'|] eqn:Hrd; [|done]. cbn in Hw. injection Hw as Hw. unfold file_at. rewrite <-Hw, lookup_insert_eq.
  assert (c' = c) as ->; [|done]. rewrite <-Hr. unfold content, t_read in *. by destruct (tree d !! q) as [[]|]; try done; injection Hrd as <-.
Qed.

(** Reading: the file stays, and what is read is its window. *)
Lemma read_chunk_at_spec strict v p offset len dst h c : segments p ≠ [] → file_at (hd_drive h) (file_path v p) = Some c →
  ∃ r h', read_chunk_at strict v p offset len dst h = Some (r, h') ∧ file_at (hd_drive h') (file_path v p) = Some c
    ∧ ∀ bs, r = Ok bs → bs = take len (drop offset c).
Proof.
  intros Hp Hc. unfold read_chunk_at. set (q := file_path v p). set (fault := ld_fault (hd_drive h)). set (m := fs_bind _ _).
  assert (framed (λ q', q' = q) m) as Hm.
  { apply framed_bind; [apply require_vol_framed; by intros q'; apply file_path_long|intros u1]. apply framed_map_err. unfold get_or_open.
    destruct (bool_decide _); [apply framed_ret|].
    assert (framed (λ q', q' = q) (change fault (t_open false q))) as Ho.
    { apply framed_change. intros t t' Ht. unfold t_open in Ht. destruct (t !! q) as [[]|]; [done|by injection Ht as <-|done]. }
    apply framed_bind; [exact Ho|intros u2]. apply framed_bind; [exact Ho|intros u3]. apply framed_ret. }
  destruct (framed_at q m (tree (ld_disk (hd_drive h)) !! q) Hm (ld_disk (hd_drive h)) eq_refl) as (r & d & E & Hr).
  unfold opened, on_disk at 1. rewrite E. cbn [mbind option_bind].
  assert (file_at (set_tree d (hd_drive h)) q = Some c) as Hc'.
  { unfold file_at in *. cbn [set_tree ld_disk]. destruct r; by rewrite Hr. }
  destruct r as [cache|e]; [|by eexists _, _]. unfold on_handle. cbn [hd_drive].
  match goal with |- context [query fault ?g] => set (f := g) end. destruct (on_disk_query f (set_tree d (hd_drive h))) as (r & b & E2 & Ht & _ & Hok).
  change (ld_fault (set_tree d (hd_drive h))) with fault in E2. rewrite E2. cbn [mbind option_bind]. eexists _, _. split; [done|]. cbn [hd_drive].
  split; [unfold file_at in *; by rewrite Ht|]. intros bs ->. specialize (Hok bs eq_refl). subst f. cbn in Hok.
  apply file_at_read in Hc'. cbn in Hc'. destruct (strict && _); [done|]. unfold t_read_at in Hok. rewrite Hc' in Hok. cbn in Hok. by injection Hok as <-.
Qed.

(** *** Without errors of the operating system

    [fs_runs fault P m]: when no call fails any more, [m] succeeds on a tree
    that satisfies [P] and leaves one that does. *)
Definition fs_runs {E A} (fault : nat → option string) (P : fstree → Prop) (m : Fs E A) : Prop :=
  ∀ d, (∀ k, ticks d ≤ k → fault k = None) → P (tree d) → ∃ a d', m d = Some (Ok a, d') ∧ ticks d ≤ ticks d' ∧ P (tree d').
Lemma runs_bind {E A B} fault P (m : Fs E A) (k : A → Fs E B) : fs_runs fault P m → (∀ a, fs_runs fault P (k a)) → fs_runs fault P (fs_bind m k).
Proof.
  intros Hm Hk d Hf Hd. destruct (Hm d Hf Hd) as (a & d1 & E1 & Ht & H1). destruct (Hk a d1) as (b & d2 & E2 & Ht2 & H2); [intros n Hn; apply Hf; lia|done|].
  exists b, d2. unfold fs_bind, fs_match. rewrite E1, E2. split_and!; [done|lia|done].
Qed.
Lemma runs_map_err {E F A} fault P (f : E → F) (m : Fs E A) : fs_runs fault P m → fs_runs fault P (fs_map_err f m).
Proof.
  intros Hm d Hf Hd. destruct (Hm d Hf Hd) as (a & d1 & E1 & H1). exists a, d1. unfold fs_map_err, fs_match. by rewrite E1.
Qed.
Lemma runs_ret {E A} fault P (a : A) : fs_runs fault P (fs_ret (E := E) a).
Proof. intros d _ Hd. by exists a, d. Qed.
Lemma runs_change fault (P : fstree → Prop) f : (∀ t, P t → ∃ t', f t = Ok t' ∧ P t') → fs_runs fault P (change fault f).
Proof.
  intros H d Hf Hd. destruct (H _ Hd) as (t' & E & Ht). unfold change, os_call. rewrite Hf, E by done. cbn.
  eexists _, _. split; [done|]. cbn. split; [lia|done].
Qed.
Lemma runs_require_vol fault v P : (∀ t, P t → t !! [v] = Some NDir) → fs_runs fault P (require_vol fault v).
Proof.
  intros Hv. unfold require_vol. destruct (is_system_vol v).
  - apply runs_map_err, runs_change. intros t Ht. exists t. split; [|done]. cbn. rewrite (Hv t Ht). cbn. by rewrite insert_id by by apply Hv.
  - intros d Hf Hd. unfold fs_match, os_is_dir, query, os_call. rewrite Hf by done. unfold t_is_dir, vol_path. rewrite (Hv _ Hd). cbn.
    eexists _, _. split; [done|]. cbn. split; [lia|done].
Qed.

(** A file of a volume, on a drive without errors. *)
Definition in_order (v p : string) (c : bytes) (b : LocalDrive) : Prop :=
  healthy b ∧ tree (ld_disk b) !! [v] = Some NDir ∧ file_at b (file_path v p) = Some c.

Lemma read_chunk_at_runs strict v p offset len dst h c : in_order v p c (hd_drive h) →
  (strict = true → aligned dst = true ∧ aligned (Z.of_nat len) = true ∧ aligned (Z.of_nat offset) = true) →
  ∃ h', read_chunk_at strict v p offset len dst h = Some (Ok (take len (drop offset c)), h') ∧ in_order v p c (hd_drive h').
Proof.
  intros (Hh & Hv & Hc) Hal. unfold read_chunk_at. set (q := file_path v p) in *. set (fault := ld_fault (hd_drive h)) in *.
  set (P := λ t : fstree, t !! [v] = Some NDir ∧ t !! q = Some (NFile c)). set (m := fs_bind _ _).
  assert (fs_runs fault P m) as Hm.
  { apply runs_bind; [apply runs_require_vol; by intros t []|intros u1]. apply runs_map_err. unfold get_or_open.
    destruct (bool_decide _); [apply runs_ret|].
    assert (fs_runs fault P (change fault (t_open false q))) as Ho.
    { apply runs_change. intros t [H1 H2]. exists t. unfold t_open. by rewrite H2. }
    apply runs_bind; [exact Ho|intros u2]. apply runs_bind; [exact Ho|intros u3]. apply runs_ret. }
  assert (P (tree (ld_disk (hd_drive h)))) as HP.
  { split; [done|]. unfold file_at in Hc. by destruct (_ !! q) as [[]|]; [..|]; simplify_eq. }
  destruct (Hm _ Hh HP) as (cache & d & E & Ht & H1 & H2). unfold opened, on_disk at 1. rewrite E. cbn [mbind option_bind].
  unfold on_handle. cbn [hd_drive]. match goal with |- context [query fault ?g] => set (f := g) end.
  destruct (on_disk_query f (set_tree d (hd_drive h))) as (r & b & E2 & Htree & Hq & _).
  change (ld_fault (set_tree d (hd_drive h))) with fault in E2. rewrite E2. cbn [mbind option_bind].
  destruct Hq as [Hhb ->]; [intros k Hk; apply Hh; cbn in Hk; lia|].
  assert (f (tree (ld_disk (set_tree d (hd_drive h)))) = Ok (take len (drop offset c))) as ->.
  { subst f. cbn [set_tree ld_disk]. destruct strict; [destruct (Hal eq_refl) as (-> & -> & ->)|]; cbn [andb negb];
      unfold t_read_at, t_read; by rewrite H2. }
  eexists. split; [done|]. cbn [hd_drive]. split_and!; [done|by rewrite Htree|]. fold q. unfold file_at. rewrite Htree. cbn [set_tree ld_disk]. by rewrite H2.
Qed.

(** ** Lemmas: requests *)

Section requests.
Context {C : Bincode} `{SB : StorageBackend LocalDrive, FB : FormatBackend LocalDrive} {HI : HashIter N}.
Context (strict : bool) (sender_ah : PeerEndpoint → result string unit).
Context (encode : RdmaRequest → result string unit) (debug : Response → string) (debug_rdma : RdmaResponse → string) (limit : string).

(** The disk behind a drive, and a file of it. *)
Definition rx_disk (x : RdmaDrive) : option HandleDrive := sv_disk (rx_disk_idx x) (rx_server x).
Definition rx_file (v p : string) (x : RdmaDrive) : option bytes := h ← rx_disk x; file_at (hd_drive h) (file_path v p).

Lemma sv_disk_set i h s : is_Some (sv_disk i s) → hd_drive <$> sv_disk i (set_handle i h s) = Some (hd_drive h).
Proof.
  intros [h0 H0]. unfold sv_disk, set_handle in *. cbn. apply bind_Some in H0 as (b & Hb & _).
  by rewrite (list_lookup_insert_eq (n_disks (sv_node s)) i) by exact (lookup_lt_Some _ _ _ Hb).
Qed.

(** The server's buffers hold what it allows a request to ask for. *)
Definition roomy (x : RdmaDrive) : Prop :=
  ∀ k buf, se_buf (we_served (rx_net x k)) = Ok buf → (sv_buf_size (rx_server x) ≤ rb_capacity buf)%Z.
(** The parts of a drive no chunk call changes. *)
Definition same_link (x x' : RdmaDrive) : Prop :=
  rx_net x' = rx_net x ∧ rx_sent x' = S (rx_sent x) ∧ rx_disk_idx x' = rx_disk_idx x ∧ rx_buf_size x' = rx_buf_size x
  ∧ sv_buf_size (rx_server x') = sv_buf_size (rx_server x) ∧ rx_routing x' = rx_routing x ∧ rx_peer_id x' = rx_peer_id x
  ∧ rx_self x' = rx_self x ∧ rx_runtime x' = rx_runtime x ∧ sv_routing (rx_server x') = sv_routing (rx_server x).

Lemma write_handled env i v p offset len source s m resp s' m' :
  handle_write_file_chunk env i v p offset len source s m = Some (ChunkWritten resp, s', m') →
  ∃ h h' buf, sv_disk i s = Some h ∧ se_buf env = Ok buf ∧ s' = set_handle i h' s
    ∧ (len ≤ sv_buf_size s)%Z
    ∧ write_chunk_at v p (Z.to_nat offset) (peek (rb_addr buf) (Z.to_nat (Z.min len (rb_capacity buf)))
        (copy (rb_addr buf) (rr_addr source) len m)) h = Some (Ok (), h').
Proof.
  unfold handle_write_file_chunk, chunk_err. destruct (sv_buf_size s <? len)%Z eqn:Hl; [done|]. destruct (rr_len source <? len)%Z; [done|].
  destruct (sv_disk i s) as [h|]; [|done]. destruct (se_buf env) as [buf|]; [|done]. unfold one_sided.
  destruct (se_copy env) as [u|[e n]]; [|done]. destruct (write_chunk_at _ _ _ _ h) as [[[[]|e] h']|] eqn:Hw; cbn; [|done|done].
  intros [= _ <- _]. to_prop. exists h, h', buf. split_and!; done.
Qed.

Lemma write_single_chunk_ok v p offset data x x' : segments p ≠ [] → (0 ≤ offset)%Z → roomy x →
  write_single_chunk strict sender_ah encode debug_rdma limit v p offset data x = Some (Ok (), x') →
  rx_file v p x' = Some (overlay (Z.to_nat offset) data (default [] (rx_file v p x))) ∧ same_link x x'.
Proof.
  intros Hp Ho Hroom. unfold write_single_chunk. set (env := rx_net x (rx_sent x)).
  destruct (reach env _) as [u|]; [|done]. destruct (_ <? _)%Z; [done|]. destruct (we_buf env) as [cb|]; [|done]. destruct (_ <? _)%Z; [done|].
  set (x1 := set_world _ _ _). set (source := Build_RdmaRemoteBuf _ _ _). unfold exchange. destruct (encode _) as [u'|]; [|done].
  destruct (we_wire env) as [e|[]|[]|]; cbn [mbind option_bind]; try done.
  1,2: destruct (serve_request _ _ _ _ _ _ _) as [[[? ?] ?]|]; done.
  unfold serve_request. match goal with |- context [match ?s with Some _ => match sender_ah _ with _ => _ end | None => _ end] => destruct s as [peer|]; [|done] end.
  destruct (sender_ah peer) as [u2|]; [|done].
  match goal with |- context [handle_write_file_chunk ?a ?b ?c ?d ?e ?f ?g ?s ?m] => set (hw := handle_write_file_chunk a b c d e f g s m) end.
  destruct hw as [[[resp s'] m']|] eqn:Hhw; cbn [mbind option_bind]; [|done]. destruct resp as [| |n| | | |[]|]; try done.
  destruct (_ =? _)%Z eqn:Hn; [|done]. intros [= <-]. unfold hw in Hhw.
  apply write_handled in Hhw as (h & h' & sb & Hh & Hsb & -> & Hle & Hw). cbn in Hh, Hsb, Hle, Hw.
  assert (Z.of_nat (length data) ≤ rb_capacity sb)%Z as Hcap by (specialize (Hroom _ _ Hsb); lia). rewrite Z.min_l in Hw by done.
  rewrite peek_copy, Nat2Z.id, peek_poke in Hw. apply write_chunk_at_ok in Hw; [|done]. split; [|done].
  unfold rx_file, rx_disk. cbn.
  pose proof (sv_disk_set (rx_disk_idx x) h' (rx_server x) (mk_is_Some _ _ Hh)) as Hd. apply fmap_Some in Hd as (h2 & Hh2 & Hd).
  rewrite Hh2. cbn. rewrite <-Hd, Hw. unfold rx_disk. by rewrite Hh.
Qed.

Abbreviation write_loop := (rdma_write_loop strict sender_ah encode debug_rdma limit).

Lemma roomy_link x x' : same_link x x' → roomy x → roomy x'.
Proof. intros (Hn & _ & _ & _ & Hs & _) Hr k buf. rewrite Hn, Hs. apply Hr. Qed.

(** A buffer pushed without an error: the cursor has moved past it and the file
    holds it. *)
Lemma write_loop_ok fuel : ∀ data k k', segments (xk_path k) ≠ [] → roomy (xk_drive k) → write_loop fuel data k = Some (Ok (), k') →
  roomy (xk_drive k') ∧ k' = set_sink (xk_drive k') (xk_cursor k + length data) (xk_finished k) k
  ∧ rx_file (xk_volume k) (xk_path k) (xk_drive k')
    = if decide (data = []) then rx_file (xk_volume k) (xk_path k) (xk_drive k)
      else Some (overlay (xk_cursor k) data (default [] (rx_file (xk_volume k) (xk_path k) (xk_drive k)))).
Proof.
  induction fuel as [|fuel IH]; intros data k k' Hp Hr; (destruct data as [|d data];
    [cbn [rdma_write_loop]; intros [= <-]; cbn [length]; rewrite Nat.add_0_r; by destruct k|]); [done|].
  cbn [rdma_write_loop]. set (n := Nat.min _ _). set (a := take n (d :: data)). set (b := drop n (d :: data)).
  destruct (write_single_chunk _ _ _ _ _ _ _ _ a _) as [[[[]|] x]|] eqn:Hw; cbn [mbind option_bind]; [|done|done].
  apply write_single_chunk_ok in Hw as [Hf Hl]; [|done|lia|done]. rewrite Nat2Z.id in Hf. intros Hloop.
  apply IH in Hloop as (Hr' & Hk & Hfile); [|done|by eapply roomy_link]. cbn [set_sink xk_cursor xk_volume xk_path xk_drive xk_finished] in *.
  assert (length a = n) as Hla by (unfold a; rewrite length_take; unfold n; lia).
  assert (n + length b = length (d :: data)) as Hlb by (unfold b; rewrite length_drop; unfold n; lia).
  split_and!; [done|rewrite Hk; unfold set_sink; cbn; f_equal; cbn in Hlb; lia|]. rewrite Hfile, Hf. cbn [default id].
  rewrite <-Hla, overlay_app. change (a ++ b) with (take n (d :: data) ++ drop n (d :: data)). rewrite take_drop.
  destruct (decide (b = [])) as [Hb|Hb]; [|done]. do 2 f_equal. rewrite <-(take_drop n (d :: data)). fold a b. by rewrite Hb, app_nil_r.
Qed.

(** Buffers pushed one after the other; the first error ends it. *)
Fixpoint rdma_push (chunks : list bytes) (k : RdmaWriteSink) : option (IoResult unit * RdmaWriteSink) :=
  match chunks with
  | [] => Some (Ok (), k)
  | c :: chunks =>
      '(r, k) ← rdma_write_all strict sender_ah encode debug_rdma limit c k;
      match r with Ok _ => rdma_push chunks k | Err e => Some (Err e, k) end
  end.
Lemma rdma_push_ok chunks : ∀ k k', segments (xk_path k) ≠ [] → roomy (xk_drive k) → rdma_push chunks k = Some (Ok (), k') →
  k' = set_sink (xk_drive k') (xk_cursor k + length (concat chunks)) (xk_finished k) k
  ∧ rx_file (xk_volume k) (xk_path k) (xk_drive k')
    = if decide (concat chunks = []) then rx_file (xk_volume k) (xk_path k) (xk_drive k)
      else Some (overlay (xk_cursor k) (concat chunks) (default [] (rx_file (xk_volume k) (xk_path k) (xk_drive k)))).
Proof.
  induction chunks as [|c chunks IH]; intros k k' Hp Hr; cbn [rdma_push concat].
  { intros [= <-]. cbn. rewrite Nat.add_0_r. by destruct k. }
  unfold rdma_write_all. destruct (xk_finished k) eqn:Hfin; [done|].
  destruct (write_loop (length c) c k) as [[[[]|] k1]|] eqn:Hw; cbn [mbind option_bind]; [|done|done]. intros Hpush.
  apply write_loop_ok in Hw as (Hr1 & Hk1 & Hf1); [|done|done]. rewrite Hfin in *.
  assert (xk_path k1 = xk_path k ∧ xk_volume k1 = xk_volume k ∧ xk_cursor k1 = xk_cursor k + length c) as (E1 & E2 & E3) by (by rewrite Hk1).
  apply IH in Hpush as [Hk Hf]; [|by rewrite E1|done]. rewrite E1, E2, E3, ?Hf1 in Hf. split.
  - rewrite Hk, Hk1. unfold set_sink. cbn. rewrite length_app. f_equal. lia.
  - rewrite Hf. destruct (decide (c = [])) as [->|Hc]; [cbn; by rewrite Nat.add_0_r|].
    rewrite (decide_False (P := c ++ concat chunks = [])) by (by intros [? _]%app_eq_nil).
    destruct (decide (concat chunks = [])) as [->|]; [by rewrite app_nil_r|]. cbn [default id]. by rewrite overlay_app.
Qed.
End requests.

(** ** Lemmas: reads *)

Lemma peek_take a k n m : k ≤ n → peek a k m = take k (peek a n m).
Proof. intros H. replace n with (k + (n - k)) by lia. rewrite peek_app. by rewrite take_app_length' by by rewrite peek_length. Qed.

Section reads.
Context {C : Bincode} `{SB : StorageBackend LocalDrive, FB : FormatBackend LocalDrive} {HI : HashIter N}.
Context (strict : bool) (sender_ah : PeerEndpoint → result string unit).
Context (encode : RdmaRequest → result string unit) (debug_rdma : RdmaResponse → string).
Context (v p : string) (Hp : segments p ≠ []).

(** A read handled by the server: an error, or the window of the file in the
    target; the file stays. *)
Lemma read_handled env i (offset len : nat) target s m h c : sv_disk i s = Some h → file_at (hd_drive h) (file_path v p) = Some c →
  (∀ buf, se_buf env = Ok buf → sv_buf_size s ≤ rb_capacity buf)%Z →
  ∃ resp s' m' h', handle_read_file_chunk strict env i v p (Z.of_nat offset) (Z.of_nat len) target s m = Some (resp, s', m')
    ∧ sv_disk i s' = Some h' ∧ file_at (hd_drive h') (file_path v p) = Some c
    ∧ sv_buf_size s' = sv_buf_size s ∧ sv_routing s' = sv_routing s
    ∧ (∀ n, resp = ChunkReady n → let bs := take len (drop offset c) in n = Z.of_nat (length bs) ∧ peek (rr_addr target) (length bs) m' = bs)
    ∧ (∀ buf, in_order v p c (hd_drive h) → se_buf env = Ok buf → se_copy env = Ok () → (Z.of_nat len ≤ sv_buf_size s)%Z → rr_len target = Z.of_nat len →
        (strict = true → aligned (rb_addr buf) = true ∧ aligned (Z.of_nat len) = true ∧ aligned (Z.of_nat offset) = true) →
        (∃ n, resp = ChunkReady n) ∧ in_order v p c (hd_drive h')).
Proof.
  intros Hh Hc Hroom. unfold handle_read_file_chunk, chunk_err. destruct (sv_buf_size s <? Z.of_nat len)%Z eqn:Hl; to_prop.
  { eexists _, s, m, h. split_and!; [done..|]. intros. lia. }
  destruct (rr_len target <? Z.of_nat len)%Z eqn:Ht; to_prop; [eexists _, s, m, h; split_and!; [done..|]; intros; lia|].
  rewrite Hh. destruct (se_buf env) as [buf|e] eqn:Hbuf; [|by eexists _, s, m, h].
  rewrite (proj2 (Z.ltb_ge _ _)) by (specialize (Hroom buf eq_refl); lia). rewrite !Nat2Z.id.
  destruct (read_chunk_at_spec strict v p offset len (rb_addr buf) h c Hp Hc) as (r & h' & Hrd & Hc' & Hok). rewrite Hrd. cbn [mbind option_bind].
  assert (∃ h2, sv_disk i (set_handle i h' s) = Some h2 ∧ hd_drive h2 = hd_drive h') as (h2 & Hh2 & Hd2).
  { pose proof (sv_disk_set i h' s (mk_is_Some _ _ Hh)) as H. apply fmap_Some in H as (h2 & ? & ?). by exists h2. }
  rewrite <-Hd2 in Hc'.
  assert (∀ buf0, in_order v p c (hd_drive h) → Ok (E := StdIoError) buf = Ok buf0 → (strict = true → aligned (rb_addr buf0) = true ∧ aligned (Z.of_nat len) = true ∧ aligned (Z.of_nat offset) = true) →
    is_ok r = true ∧ in_order v p c (hd_drive h2)) as Hrun.
  { intros b0 Hord [= <-] Hal. destruct (read_chunk_at_runs strict v p offset len (rb_addr buf) h c Hord Hal) as (h3 & E & Ho).
    rewrite Hrd in E. injection E as -> ->. by rewrite Hd2. }
  destruct r as [bs|e]; [rewrite (Hok bs eq_refl) in *|].
  2: { eexists _, _, m, h2. split_and!; [done..|]. intros b0 Hord Hb Hcp _ _ Hal. by destruct (Hrun b0 Hord Hb Hal). }
  set (w := take len (drop offset c)) in *. destruct (Z.of_nat (length w) =? 0)%Z eqn:Hz; to_prop.
  { eexists _, _, _, h2. split_and!; [done|done|done|done|done| |].
    - intros n [= <-]. cbn. split; [lia|]. assert (w = []) as -> by (apply nil_length_inv; lia). done.
    - intros b0 Hord Hb _ _ _ Hal. destruct (Hrun b0 Hord Hb Hal) as [_ Ho]. split; [by eexists|done]. }
  unfold one_sided. destruct (se_copy env) as [u|[e n]].
  - eexists _, _, _, h2. split_and!; [done|done|done|done|done| |].
    + intros n [= <-]. cbn. split; [done|]. rewrite <-(Nat2Z.id (length w)) at 1. rewrite peek_copy, Nat2Z.id. apply peek_poke.
    + intros b0 Hord Hb _ _ _ Hal. destruct (Hrun b0 Hord Hb Hal) as [_ Ho]. split; [by eexists|done].
  - eexists _, _, _, h2. split_and!; [done..|]. intros b0 _ _ [=].
Qed.

(** What a read relies on: requests are not lost, the server knows the sender
    and its buffers are large enough. *)
Record served (x : RdmaDrive) : Prop := {
  sd_room : roomy x;
  sd_sender : ∃ peer, sv_routing (rx_server x) !! (rx_self x, rx_runtime x) = Some peer ∧ sender_ah peer = Ok ();
  sd_wire : ∀ k, rx_sent x ≤ k → match we_wire (rx_net x k) with WLost _ => False | _ => True end
}.
(** And without any failure from now on. *)
Record answering (x : RdmaDrive) : Prop := {
  aw_served : served x;
  aw_peer : is_Some (rx_routing x !! (rx_peer_id x, rx_runtime x));
  aw_encode : ∀ req, is_ok (encode req) = true;
  aw_size : (0 < rx_buf_size x < u32_mod)%Z ∧ (rx_buf_size x ≤ sv_buf_size (rx_server x))%Z;
  aw_calls : ∀ k, rx_sent x ≤ k → let env := rx_net x k in
    we_ah env = Ok () ∧ we_wire env = WAnswered ∧ se_copy (we_served env) = Ok ()
    ∧ (∃ cb, we_buf env = Ok cb ∧ (rx_buf_size x ≤ rb_capacity cb)%Z)
    ∧ ∃ sb, se_buf (we_served env) = Ok sb ∧ (strict = true → aligned (rb_addr sb) = true)
}.
Lemma served_link x x' : same_link x x' → served x → served x'.
Proof.
  intros (Hn & Hs & _ & _ & Hb & _ & _ & Hself & Hrt & Hrout) [H1 H2 H3]. split.
  - intros k buf. rewrite Hn, Hb. apply H1.
  - by rewrite Hself, Hrt, Hrout.
  - intros k Hk. rewrite Hn. apply H3. lia.
Qed.
Lemma answering_link x x' : same_link x x' → answering x → answering x'.
Proof.
  intros Hlink [H1 H2 H3 H4 H5]. pose proof Hlink as (Hn & Hs & _ & Hcb & Hb & Hr & Hpi & Hself & Hrt & Hrout). split.
  - by eapply served_link.
  - by rewrite Hr, Hpi, Hrt.
  - done.
  - by rewrite Hcb, Hb.
  - intros k Hk. rewrite Hn, Hcb. apply H5. lia.
Qed.

Lemma read_single_chunk_spec x h c (offset len : nat) : served x → rx_disk x = Some h → file_at (hd_drive h) (file_path v p) = Some c →
  ∃ r x' h', read_single_chunk strict sender_ah encode debug_rdma v p (Z.of_nat offset) (Z.of_nat len) x = Some (r, x')
    ∧ same_link x x' ∧ rx_disk x' = Some h' ∧ file_at (hd_drive h') (file_path v p) = Some c
    ∧ (∀ bs, r = Ok bs → bs `prefix_of` take len (drop offset c))
    ∧ (answering x → in_order v p c (hd_drive h) → (Z.of_nat len ≤ rx_buf_size x)%Z →
       (strict = true → aligned (Z.of_nat len) = true ∧ aligned (Z.of_nat offset) = true) →
       r = Ok (take len (drop offset c)) ∧ in_order v p c (hd_drive h')).
Proof.
  intros Hserved Hh Hc. pose proof Hserved as [Hroom (peer & Hpeer & Hah) Hwire].
  specialize (Hwire (rx_sent x) (Nat.le_refl _)). unfold read_single_chunk. set (env := rx_net x (rx_sent x)) in *.
  assert (answering x → ∃ cb sb, we_ah env = Ok () ∧ we_wire env = WAnswered ∧ se_copy (we_served env) = Ok () ∧ we_buf env = Ok cb
    ∧ (rx_buf_size x ≤ rb_capacity cb)%Z ∧ se_buf (we_served env) = Ok sb ∧ (strict = true → aligned (rb_addr sb) = true)) as Haw.
  { intros [_ _ _ _ H]. destruct (H (rx_sent x) (Nat.le_refl _)) as (? & ? & ? & (cb & ? & ?) & sb & ? & ?). by exists cb, sb. }
  destruct (reach env (count_call x)) as [u|e] eqn:Hreach.
  2: { eexists _, _, h. split_and!; [done|done|done|done|done|]. intros Ha. destruct (Haw Ha) as (cb & sb & E & _). destruct (aw_peer _ Ha) as [pe Hpe].
       unfold reach in Hreach. cbn in Hreach. rewrite Hpe, E in Hreach. done. }
  destruct (we_buf env) as [cb|e] eqn:Hbuf.
  2: { eexists _, _, h. split_and!; [done|done|done|done|done|]. intros Ha. destruct (Haw Ha) as (? & ? & ? & ? & ? & [=] & _). }
  set (target := Build_RdmaRemoteBuf _ _ _). unfold exchange. destruct (encode _) as [u'|e] eqn:Henc.
  2: { eexists _, _, h. split_and!; [done|done|done|done|done|]. intros Ha. pose proof (aw_encode _ Ha) as E. specialize (E (ReadFileChunk (rx_disk_idx (count_call x)) v p (Z.of_nat offset) (Z.of_nat len) target)).
       by rewrite Henc in E. }
  unfold serve_request. cbn [set_waiting count_call rx_server rx_self rx_runtime rx_mem rx_disk_idx]. rewrite Hpeer, Hah.
  destruct (read_handled (we_served env) (rx_disk_idx x) offset len target (rx_server x) (rx_mem x) h c Hh Hc) as
    (resp & s' & m' & h' & Hrun & Hh' & Hc' & Hb' & Hrt' & Hready & Hgood); [intros buf Hb; by apply (Hroom (rx_sent x))|].
  destruct (we_wire env) as [e|handled|handled|] eqn:Hw; [| |destruct handled|]; cbn [mbind option_bind].
  - eexists _, _, h. split_and!; [done|done|done|done|done|]. intros Ha. destruct (Haw Ha) as (? & ? & ? & [=] & _).
  - done.
  - rewrite Hrun. cbn [mbind option_bind]. eexists _, _, h'. split_and!; [done|done|done|done|done|]. intros Ha. destruct (Haw Ha) as (? & ? & ? & [=] & _).
  - eexists _, _, h. split_and!; [done|done|done|done|done|]. intros Ha. destruct (Haw Ha) as (? & ? & ? & [=] & _).
  - rewrite Hrun. cbn [mbind option_bind]. set (x1 := set_world s' m' _).
    assert (same_link x x1) as Hsl by done. assert (rx_disk x1 = Some h') as Hd1 by done.
    assert (answering x → in_order v p c (hd_drive h) → (Z.of_nat len ≤ rx_buf_size x)%Z →
      (strict = true → aligned (Z.of_nat len) = true ∧ aligned (Z.of_nat offset) = true) →
      (∃ n, resp = ChunkReady n) ∧ in_order v p c (hd_drive h') ∧ (rx_buf_size x ≤ rb_capacity cb)%Z) as Hall.
    { intros Ha Ho Hlen Hal. destruct (Haw Ha) as (cb' & sb & _ & _ & Hcp & [= <-] & Hcap & Hsb & Hsal). destruct (aw_size _ Ha).
      destruct (Hgood sb Ho Hsb Hcp) as [? ?]; [lia|done|intros Hs; split; [by apply Hsal|by apply Hal]|done]. }
    destruct resp as [n| | | | | |[]|]; try (eexists _, x1, h'; split_and!; [done|done|done|done|done|]; intros Ha Ho Hlen Hal;
      destruct (Hall Ha Ho Hlen Hal) as [[? [=]] _]).
    destruct (Hready n eq_refl) as [-> Hpk]. set (w := take len (drop offset c)) in *. cbn in Hpk.
    assert (length w ≤ len) as Hwl by (unfold w; rewrite length_take; lia).
    eexists _, x1, h'. split_and!; [done|done|done|done| |].
    + intros bs [= <-]. cbn [x1 set_world rx_mem]. rewrite (peek_take _ _ (length w)) by lia. rewrite Hpk. apply prefix_take.
    + intros Ha Ho Hlen Hal. destruct (Hall Ha Ho Hlen Hal) as (_ & Ho' & Hcap). split; [|done]. cbn [x1 set_world rx_mem].
      rewrite Z.min_l by lia. by rewrite Nat2Z.id, Hpk.
Qed.
End reads.

(** ** The stream *)

Section stream.
Context {C : Bincode} `{SB : StorageBackend LocalDrive, FB : FormatBackend LocalDrive} {HI : HashIter N}.
Context (strict : bool) (sender_ah : PeerEndpoint → result string unit).
Context (encode : RdmaRequest → result string unit) (debug_rdma : RdmaResponse → string) (limit : string).

Abbreviation stream_read := (rdma_read strict sender_ah encode debug_rdma).
Definition window (s : RdmaReadStream) (c : bytes) : bytes := take (xs_remaining s) (drop (xs_offset s) c).
(** What a file system that insists on alignment needs of a window. *)
Definition window_aligned (s : RdmaReadStream) : Prop :=
  strict = true → aligned (Z.of_nat (xs_chunk_size s)) = true
    ∧ (xs_remaining s = 0 ∨ aligned (Z.of_nat (xs_remaining s)) = true ∧ aligned (Z.of_nat (xs_offset s)) = true).

Lemma aligned_min a b : aligned (Z.of_nat a) = true → aligned (Z.of_nat b) = true → aligned (Z.of_nat (Nat.min a b)) = true.
Proof. intros Ha Hb. by destruct (Nat.min_spec a b) as [[_ ->]|[_ ->]]. Qed.
Lemma aligned_add a b : aligned (Z.of_nat a) = true → aligned (Z.of_nat b) = true → aligned (Z.of_nat (a + b)) = true.
Proof. unfold aligned, O_DIRECT_ALIGN. rewrite !Z.eqb_eq, Nat2Z.inj_add. intros Ha Hb. by rewrite Z.add_mod, Ha, Hb by done. Qed.
Lemma aligned_sub a b : b ≤ a → aligned (Z.of_nat a) = true → aligned (Z.of_nat b) = true → aligned (Z.of_nat (a - b)) = true.
Proof. unfold aligned, O_DIRECT_ALIGN. intros Hle. rewrite !Z.eqb_eq, Nat2Z.inj_sub by done. intros Ha Hb. by rewrite Zminus_mod, Ha, Hb. Qed.

Lemma rdma_read_spec s h c : segments (xs_path s) ≠ [] → served sender_ah (xs_drive s) → rx_disk (xs_drive s) = Some h →
  file_at (hd_drive h) (file_path (xs_volume s) (xs_path s)) = Some c →
  ∃ r s' h', stream_read s = Some (r, s') ∧ served sender_ah (xs_drive s') ∧ rx_disk (xs_drive s') = Some h'
    ∧ xs_volume s' = xs_volume s ∧ xs_path s' = xs_path s
    ∧ file_at (hd_drive h') (file_path (xs_volume s) (xs_path s)) = Some c
    ∧ (∀ chunk, r = Ok chunk → ∃ rest, window s c = chunk ++ rest ∧ window s' c `prefix_of` rest)
    ∧ (answering strict sender_ah encode (xs_drive s) → in_order (xs_volume s) (xs_path s) c (hd_drive h) →
       xs_chunk_size s = chunk_size_of (xs_drive s) → window_aligned s →
       ∃ chunk, r = Ok chunk ∧ window s c = chunk ++ window s' c ∧ (chunk = [] → window s' c = [])
         ∧ answering strict sender_ah encode (xs_drive s') ∧ in_order (xs_volume s) (xs_path s) c (hd_drive h')
         ∧ xs_chunk_size s' = chunk_size_of (xs_drive s') ∧ window_aligned s').
Proof.
  intros Hp Hs Hh Hc. unfold rdma_read. destruct (Nat.eqb_spec (xs_remaining s) 0) as [Hz|Hnz].
  { eexists _, s, h. split_and!; [done..| |].
    - intros chunk [= <-]. exists (window s c). done.
    - intros. exists []. assert (window s c = []) as Hw by (unfold window; by rewrite Hz). done. }
  set (want := Nat.min _ _).
  destruct (read_single_chunk_spec strict sender_ah encode debug_rdma (xs_volume s) (xs_path s) Hp (xs_drive s) h c (xs_offset s) want Hs Hh Hc)
    as (r & x' & h' & -> & Hlink & Hh' & Hc' & Hpre & Hrun). cbn [mbind option_bind].
  pose proof (served_link _ _ _ Hlink Hs) as Hs'. set (moved := λ offset remaining, Build_RdmaReadStream x' (xs_volume s) (xs_path s) offset remaining (xs_chunk_size s)).
  assert (want ≤ xs_remaining s) as Hwr by (unfold want; lia).
  assert (take want (window s c) = take want (drop (xs_offset s) c)) as Htw by (unfold window; by rewrite take_take, Nat.min_l).
  (** What is left after a chunk. *)
  assert (∀ bs, bs `prefix_of` take want (drop (xs_offset s) c) →
    ∃ rest, window s c = bs ++ rest ∧ window (moved (xs_offset s + length bs) (if length bs <? want then 0 else xs_remaining s - length bs)) c `prefix_of` rest
      ∧ (bs = take want (drop (xs_offset s) c) →
         rest = window (moved (xs_offset s + length bs) (if length bs <? want then 0 else xs_remaining s - length bs)) c)) as Hstep.
  { intros bs [tl Htl]. exists (tl ++ drop want (window s c)).
    split; [by rewrite app_assoc, <-Htl, <-Htw, take_drop|]. destruct (Nat.ltb_spec (length bs) want) as [Hlt|Hge].
    - split; [apply prefix_nil|]. intros Hb. unfold window at 2. cbn [moved xs_remaining]. cbn. rewrite Hb in Htl.
      assert (tl = []) as ->. { apply (f_equal length) in Htl. rewrite length_app in Htl. apply nil_length_inv. lia. }
      cbn. apply drop_ge. rewrite Hb, length_take in Hlt. unfold window. rewrite length_take. lia.
    - assert (tl = [] ∧ length bs = want) as [-> Hlen].
      { apply (f_equal length) in Htl. rewrite length_take, length_app in Htl. split; [apply nil_length_inv|]; lia. }
      assert (window (moved (xs_offset s + length bs) (xs_remaining s - length bs)) c = drop want (window s c)) as ->; [|done].
      unfold window. cbn [moved xs_remaining xs_offset]. rewrite Hlen. rewrite skipn_firstn_comm, drop_drop. done. }
  destruct r as [bs|e].
  - eexists _, _, h'. split_and!; [done|done|done|done|done|done| |].
    + intros chunk [= <-]. destruct (Hstep bs (Hpre bs eq_refl)) as (rest & H1 & H2 & _). by exists rest.
    + intros Ha Ho Hcs Hal. destruct (aw_size _ _ _ _ Ha) as [Hsz Hsv]. unfold chunk_size_of in Hcs. rewrite Z.mod_small in Hcs by lia.
      destruct (Hrun Ha Ho) as [Hb Ho']; [unfold want; lia| |].
      { intros Hst. destruct (Hal Hst) as [H1 [?|[H2 H3]]]; [lia|]. split; [|done]. by apply aligned_min. }
      injection Hb as ->. destruct (Hstep _ (reflexivity _)) as (rest & H1 & _ & H3). specialize (H3 eq_refl). subst rest.
      eexists. split; [done|]. split; [exact H1|]. split_and!; [|by eapply answering_link|done| |].
      * intros Hnil. unfold window. cbn [moved xs_remaining]. rewrite Hnil. cbn [length].
        rewrite (proj2 (Nat.ltb_lt _ _)) by (unfold want; lia). by rewrite take_0.
      * destruct Hlink as (_ & _ & _ & Hcb & _). cbn. unfold chunk_size_of. rewrite Hcb, Z.mod_small by lia. done.
      * intros Hst. destruct (Hal Hst) as [Hac [?|[Hr Hof]]]; [lia|]. cbn [moved xs_chunk_size xs_remaining xs_offset]. split; [done|].
        destruct (Nat.ltb_spec (length (take want (drop (xs_offset s) c))) want) as [|Hge]; [by left|]. right.
        rewrite length_take in Hge |- *. rewrite Nat.min_l by lia.
        assert (aligned (Z.of_nat want) = true) by (by apply aligned_min). split; [by apply aligned_sub|by apply aligned_add].
  - eexists _, _, h'. split_and!; [done|done|done|done|done|done|done|]. intros Ha Ho Hcs Hal.
    destruct (aw_size _ _ _ _ Ha) as [Hsz Hsv]. unfold chunk_size_of in Hcs. rewrite Z.mod_small in Hcs by lia.
    destruct (Hrun Ha Ho) as [[=] _]; [unfold want; lia|].
    intros Hst. destruct (Hal Hst) as [H1 [?|[H2 H3]]]; [lia|]. split; [|done]. by apply aligned_min.
Qed.

#[program] Definition RdmaReadStream_stream : ByteStream RdmaReadStream := {|
  read := stream_read;
  yields s bs := segments (xs_path s) ≠ [] ∧ answering strict sender_ah encode (xs_drive s) ∧ xs_chunk_size s = chunk_size_of (xs_drive s)
    ∧ window_aligned s ∧ ∃ h c, rx_disk (xs_drive s) = Some h ∧ in_order (xs_volume s) (xs_path s) c (hd_drive h) ∧ bs = window s c;
  serves s bs := segments (xs_path s) ≠ [] ∧ served sender_ah (xs_drive s)
    ∧ ∃ h c, rx_disk (xs_drive s) = Some h ∧ file_at (hd_drive h) (file_path (xs_volume s) (xs_path s)) = Some c ∧ window s c `prefix_of` bs
|}.
Next Obligation.
  intros s bs (Hp & Ha & Hcs & Hal & h & c & Hh & Ho & ->).
  destruct (rdma_read_spec s h c Hp (aw_served _ _ _ _ Ha) Hh (proj2 (proj2 Ho))) as (r & s' & h' & Hr & _ & Hh' & Hv & Hpa & _ & _ & Hrun).
  destruct (Hrun Ha Ho Hcs Hal) as (chunk & -> & Hw & Hnil & Ha' & Ho' & Hcs' & Hal').
  exists chunk, (window s' c), s'. split; [done|]. split; [done|]. split; [|done]. rewrite Hpa, Hv. split_and!; [done..|]. by exists h', c.
Qed.
Next Obligation.
  intros s bs (Hp & Hs & h & c & Hh & Hc & [tl ->]).
  destruct (rdma_read_spec s h c Hp Hs Hh Hc) as (r & s' & h' & Hr & Hs' & Hh' & Hv & Hpa & Hc' & Hpre & _).
  exists r, s'. split; [done|]. intros chunk -> _. destruct (Hpre chunk eq_refl) as (rest & -> & [tl' ->]).
  exists (window s' c ++ tl' ++ tl). rewrite <-!app_assoc. split; [done|]. rewrite Hpa, Hv. split_and!; [done..|]. exists h', c. split_and!; [done..|].
  by exists (tl' ++ tl).
Qed.
End stream.

Lemma drain_serves {St} `{ByteStream St} fuel : ∀ (s s' : St) bs data, serves s bs → drain fuel s = Some (Ok data, s') → data `prefix_of` bs.
Proof.
  induction fuel as [|fuel IH]; intros s s' bs data Hs; [done|]. cbn [drain]. destruct (read_serves s bs Hs) as (r & s1 & -> & Hr).
  cbn [mbind option_bind]. destruct r as [[|b chunk]|e]; [intros [= <- _]; apply prefix_nil| |done].
  destruct (Hr _ eq_refl ltac:(done)) as (rest & -> & Hs1). destruct (drain fuel s1) as [[[d|] s2]|] eqn:Hd; cbn; [|done|done].
  intros [= <- _]. destruct (IH _ _ _ _ Hs1 Hd) as [tl ->]. exists tl. by rewrite !app_comm_cons, !app_assoc.
Qed.

(** ** Properties *)

(** C15.  A file of another node, written and read over RDMA.  When every push and
    [finish] report success, whatever failed on the way, the bytes pushed are as
    many as announced, and they are the front of the file; the end of a longer
    file that was there stays behind them.  A later read of any window of it
    delivers only bytes of that window, in order, whatever fails as long as no
    answer is lost; and without failures (and, where the file system insists on
    it, with aligned buffers and window) it delivers exactly the window. *)
Theorem rdma_file_roundtrip `{SB : StorageBackend LocalDrive, FB : FormatBackend LocalDrive} {HI : HashIter N}
    (strict : bool) (sender_ah : PeerEndpoint → result string unit) (encode : RdmaRequest → result string unit)
    (debug_rdma : RdmaResponse → string) (limit v p : string) (sz : nat) (x : RdmaDrive) (chunks : list bytes) (k1 k2 : RdmaWriteSink)
    (Hp : segments p ≠ []) (Hroom : roomy x)
    (Hpush : rdma_push strict sender_ah encode debug_rdma limit chunks (rdma_create_file_writer v p sz x) = Some (Ok (), k1))
    (Hfin : rdma_finish k1 = (Ok (), k2)) :
  let c := concat chunks ++ drop sz (default [] (rx_file v p x)) in
  length (concat chunks) = sz
  ∧ (0 < sz → rx_file v p (xk_drive k2) = Some c)
  ∧ (sz = 0 → rx_file v p (xk_drive k2) = rx_file v p x)
  ∧ ∀ x2 h2 offset len, rx_disk x2 = Some h2 → file_at (hd_drive h2) (file_path v p) = Some c →
      let s := rdma_read_file_stream v p offset len x2 in
      let stream := RdmaReadStream_stream strict sender_ah encode debug_rdma in
      (served sender_ah x2 → ∀ fuel data s', drain (H := stream) fuel s = Some (Ok data, s') → data `prefix_of` take len (drop offset c))
      ∧ (answering strict sender_ah encode x2 → in_order v p c (hd_drive h2) →
         (strict = true → aligned (rx_buf_size x2) = true ∧ aligned (Z.of_nat len) = true ∧ aligned (Z.of_nat offset) = true) →
         ∃ s', drain (H := stream) (S len) s = Some (Ok (take len (drop offset c)), s')).
Proof.
  intros c. apply rdma_push_ok in Hpush as [Hk1 Hf1]; [|done|done]. cbn [rdma_create_file_writer xk_cursor xk_volume xk_path xk_drive xk_finished] in *.
  assert (xk_finished k1 = false ∧ xk_cursor k1 = length (concat chunks) ∧ xk_expected k1 = sz) as (E1 & E2 & E3) by (by rewrite Hk1).
  unfold rdma_finish in Hfin. rewrite E1, E2, E3 in Hfin. destruct (Nat.eqb_spec (length (concat chunks)) sz) as [Hlen|]; [|done].
  injection Hfin as <-. cbn [set_sink xk_drive]. split; [done|]. split; [|split].
  - intros Hpos. rewrite Hf1, decide_False by (intros Hn; rewrite Hn in Hlen; cbn in Hlen; lia). by rewrite overlay_start, Hlen.
  - intros ->. rewrite Hf1, decide_True; [done|by apply nil_length_inv].
  - intros x2 h2 offset len Hh2 Hc2. set (stream := RdmaReadStream_stream _ _ _ _). split.
    + intros Hs fuel data s' Hd. eapply (drain_serves (H := stream)); [|exact Hd]. cbn. split_and!; [done|done|]. by exists h2, c.
    + intros Ha Ho Hal. apply (drain_yields (H := stream)); [|rewrite length_take; lia]. cbn. split_and!; [done|done|done| |by exists h2, c].
      intros Hst. destruct (Hal Hst) as (H1 & H2 & H3). cbn. split; [|by right]. destruct (aw_size _ _ _ _ Ha) as [Hsz _].
      unfold chunk_size_of. rewrite Z.mod_small, Z2Nat.id by lia. done.
Qed.

(** ** Evaluation *)

#[local] Instance bulk_hash_order : HashIter N := listed_order N.

(** A node with one drive, and a client with buffers of four bytes. *)
Definition bulk_peer : PeerEndpoint :=
  {| pe_node_id := 1; pe_gid := []; pe_dct_num := 7; pe_dc_key := 9; pe_lid := 0; pe_kv_slab := None |}.
Definition bulk_buf (addr capacity : Z) : RdmaBufInner := {| rb_addr := addr; rb_lkey := 1; rb_rkey := 2; rb_capacity := capacity |}.
Definition bulk_env : wire_env :=
  {| we_ah := Ok (); we_buf := Ok (bulk_buf 100352 1024); we_wire := WAnswered;
     we_served := {| se_now := 0; se_clocks := {| clk_now := 0; clk_loop := λ _, 0%Z |}; se_buf := Ok (bulk_buf 200192 1024); se_copy := Ok () |} |}.
Definition bulk_drive (old : option bytes) (buf_size : Z) : RdmaDrive :=
  {| rx_server :=
       {| sv_node := {| n_disks := [drive_of {| tree := match old with
                                                         | Some c => {[ ["b"] := NDir; ["b"; "f"] := NFile c ]}
                                                         | None => {[ ["b"] := NDir ]}
                                                         end; ticks := 0 |}];
                        n_locks := LockServer_new; n_endpoints := {| complete := true; endpoints := [] |} |};
          sv_caches := [[]]; sv_kv := None; sv_routing := {[ (0%Z, 0%Z) := bulk_peer ]}; sv_buf_size := 1024 |};
     rx_mem := λ _, x00; rx_self := 0; rx_runtime := 0; rx_routing := {[ (1%Z, 0%Z) := bulk_peer ]};
     rx_next_request_id := 0; rx_pending := ∅; rx_buf_size := buf_size; rx_peer_id := 1; rx_disk_idx := 0;
     rx_net := λ _, bulk_env; rx_sent := 0; rx_rpc_net := λ _, sent_ok; rx_rpc_sent := 0 |}.
Definition bulk_ah (_ : PeerEndpoint) : result string unit := Ok ().
Definition bulk_encode (_ : RdmaRequest) : result string unit := Ok ().
Definition bulk_debug (_ : RdmaResponse) : string := "".

(** Write a file; what the calls answer and what the file holds then. *)
Definition bulk_write (old : option bytes) (sz : nat) (chunks : list bytes) : option (bool * bool * option bytes * RdmaWriteSink) :=
  '(r, k) ← rdma_push false bulk_ah bulk_encode bulk_debug "36000s" chunks (rdma_create_file_writer "b" "f" sz (bulk_drive old 4));
  let '(r2, k) := rdma_finish k in Some (is_ok r, is_ok r2, rx_file "b" "f" (xk_drive k), k).
Definition bulk_chunks : list bytes := [[x01; x02; x03]; []; [x04; x05; x06; x07; x08]].
Definition bulk_old : bytes := replicate 10 x09.
Definition bulk_seen (r : option (bool * bool * option bytes * RdmaWriteSink)) : option (bool * bool * option bytes) := (λ r, r.1) <$> r.

(** A new file; a shorter file over a longer one keeps its end; a file of no
    bytes is not created; fewer bytes than announced are noticed at the end. *)
Example bulk_writes :
  bulk_seen (bulk_write None 8 bulk_chunks) = Some (true, true, Some [x01; x02; x03; x04; x05; x06; x07; x08])
  ∧ bulk_seen (bulk_write (Some bulk_old) 8 bulk_chunks) = Some (true, true, Some [x01; x02; x03; x04; x05; x06; x07; x08; x09; x09])
  ∧ bulk_seen (bulk_write None 0 []) = Some (true, true, None)
  ∧ bulk_seen (bulk_write None 9 bulk_chunks) = Some (true, false, Some [x01; x02; x03; x04; x05; x06; x07; x08]).
Proof. vm_compute. done. Qed.

(** A direct read of a window that is not aligned fails. *)
Definition bulk_read (strict : bool) (offset len : nat) : option (bool * bytes) :=
  '(r, _) ← drain (H := RdmaReadStream_stream strict bulk_ah bulk_encode bulk_debug) (S len)
    (rdma_read_file_stream "b" "f" offset len (bulk_drive (Some (replicate 600 x09)) 512));
  Some (match r with Ok bs => (true, bs) | Err _ => (false, []) end).
Example bulk_reads :
  bulk_read false 100 20 = Some (true, replicate 20 x09) ∧ bulk_read true 100 20 = Some (false, [])
  ∧ bulk_read true 512 512 = Some (true, replicate 88 x09).
Proof. vm_compute. done. Qed.

Definition bulk_after : RdmaDrive :=
  match bulk_write (Some bulk_old) 8 bulk_chunks with Some (_, k) => xk_drive k | None => bulk_drive None 4 end.

(** What the later read relies on, of the world the write leaves behind. *)
Definition bulk_run : option (IoResult unit * RdmaWriteSink) :=
  rdma_push false bulk_ah bulk_encode bulk_debug "36000s" bulk_chunks (rdma_create_file_writer "b" "f" 8 (bulk_drive (Some bulk_old) 4)).
Definition bulk_disk : LocalDrive := match rx_disk bulk_after with Some h => hd_drive h | None => drive_of empty_drive end.
Lemma bulk_state :
  (λ r, (is_ok r.1, is_ok (rdma_finish r.2).1)) <$> bulk_run = Some (true, true)
  ∧ is_Some (rx_disk bulk_after) ∧ ld_fault bulk_disk = no_fault ∧ tree (ld_disk bulk_disk) !! ["b"] = Some NDir
  ∧ file_at bulk_disk ["b"; "f"] = Some [x01; x02; x03; x04; x05; x06; x07; x08; x09; x09].
Proof.
  split; [vm_compute; reflexivity|]. split; [|vm_compute; done].
  assert (bool_decide (is_Some (rx_disk bulk_after)) = true) as H by (vm_compute; reflexivity). by apply bool_decide_eq_true in H.
Qed.
Lemma bulk_answering : answering false bulk_ah bulk_encode bulk_after.
Proof.
  assert (rx_net bulk_after = λ _, bulk_env) as Hn by (vm_compute; reflexivity).
  assert (sv_buf_size (rx_server bulk_after) = 1024%Z) as Hb by (vm_compute; reflexivity).
  assert (rx_buf_size bulk_after = 4%Z) as Hc by (vm_compute; reflexivity).
  split; [split| | | |].
  - intros k buf. rewrite Hn, Hb. cbn. intros [= <-]. cbn. lia.
  - exists bulk_peer. split; vm_compute; reflexivity.
  - intros k _. by rewrite Hn.
  - exists bulk_peer. vm_compute. reflexivity.
  - done.
  - rewrite Hb, Hc. unfold u32_mod. lia.
  - intros k _. rewrite Hn, Hc. cbn. split_and!; [done..| |]; (eexists; split; [done|]; [cbn; lia|..]; done).
Qed.

Lemma rdma_file_roundtrip_witness :
  rx_file "b" "f" bulk_after = Some [x01; x02; x03; x04; x05; x06; x07; x08; x09; x09]
  ∧ ∃ s', drain (H := RdmaReadStream_stream false bulk_ah bulk_encode bulk_debug) 10
            (rdma_read_file_stream "b" "f" 1 9 bulk_after) = Some (Ok [x02; x03; x04; x05; x06; x07; x08; x09; x09], s').
Proof.
  destruct bulk_state as (Hrun & [h2 Eh] & Hfault & Hv & Hc). destruct bulk_run as [[r k1]|] eqn:E1; [|discriminate Hrun].
  destruct r as [[]|]; [|discriminate Hrun]. cbn in Hrun. destruct (rdma_finish k1) as [r2 k2] eqn:E2. destruct r2 as [[]|]; [|discriminate Hrun].
  assert (bulk_after = xk_drive k2) as Ea
    by (unfold bulk_after, bulk_write; fold bulk_run; rewrite E1; cbn [mbind option_bind]; by rewrite E2).
  assert (roomy (bulk_drive (Some bulk_old) 4)) as Hroom by (intros k buf; cbn; intros [= <-]; cbn; lia).
  destruct (rdma_file_roundtrip false bulk_ah bulk_encode bulk_debug "36000s" "b" "f" 8 (bulk_drive (Some bulk_old) 4) bulk_chunks k1 k2
              ltac:(done) Hroom E1 E2) as (_ & Hf & _ & Hread).
  split; [rewrite Ea; apply Hf; lia|]. unfold bulk_disk in *. rewrite Eh in *.
  apply (Hread bulk_after h2 1 9 Eh Hc); [apply bulk_answering| |discriminate].
  split; [intros k _; rewrite Hfault; reflexivity|]. split; [exact Hv|exact Hc].
Defined.
