(* ===== verification/Engine.v ===== *)
(** * The engine over the drives of a cluster

    [Engine] of [openlake_storage/src/engine.rs]: its state (the topology and the
    drive behind each address), the routing of a request to the drives of its
    erasure set, and the operations that read, describe and delete objects.
    [acquired] is the outcome of taking the lock of the operation (what [Dsync]
    decides); the drives answer through [StorageBackend], and [open_stream] is
    [read_file_stream] of a drive. *)

From stdpp Require Import base gmap strings sorting pretty list.
From S2P Require Import Prelude Text Types Cluster Ec Streams EcStream Get Dsync Consensus XlMeta Fs LocalFs Backend Put.

(** [Display for DiskAddr]. *)
Definition addr_to_string (a : DiskAddr) : string := "n" +:+ pretty (node_id a) +:+ "d" +:+ pretty (disk_idx a).

Definition obj_lock_key (bucket key : string) : string := "obj:" +:+ bucket +:+ "/" +:+ key.
Definition bkt_lock_key (bucket : string) : string := "bkt:" +:+ bucket.
Definition part_lock_key (bucket key upload_id : string) (part_number : Z) : string :=
  "part:" +:+ bucket +:+ "/" +:+ key +:+ "/" +:+ upload_id +:+ "/" +:+ pretty part_number.
Definition bkt_meta_key (bucket : string) : string := "buckets/" +:+ bucket +:+ "/.metadata.bin".

Record Engine (B : Type) := { e_cluster : ClusterConfig; e_backends : gmap DiskAddr B; inline_threshold : nat }.
Arguments e_cluster {B} _.
Arguments e_backends {B} _.
Arguments inline_threshold {B} _.

Section engine.
Context {B : Type} `{SB : StorageBackend B}.
Context (siphash : list string → N).

(** ** Routing *)

Definition backend (e : Engine B) (addr : DiskAddr) : StorageResult B :=
  ok_or (e_backends e !! addr) (SIo (InvalidArgument ("unknown disk " +:+ addr_to_string addr))).
Definition backends_at (e : Engine B) (addrs : list DiskAddr) : StorageResult (list B) := collect (backend e <$> addrs).
(** The drives after a fan-out are the drives of the engine. *)
Definition put_back (addrs : list DiskAddr) (bs : list B) (e : Engine B) : Engine B :=
  {| e_cluster := e_cluster e; e_backends := list_to_map (zip addrs bs) ∪ e_backends e; inline_threshold := inline_threshold e |}.

(** An operation on the drives at some addresses, or the error that one of them is unknown. *)
Definition on_drives {A} (addrs : list DiskAddr) (f : list B → option (StorageResult A * list B)) (e : Engine B) :
    option (StorageResult A * Engine B) :=
  match backends_at e addrs with
  | Err er => Some (Err er, e)
  | Ok bs => '(r, bs) ← f bs; Some (r, put_back addrs bs e)
  end.
Definition on_all {A} (f : list B → option (StorageResult A * list B)) (e : Engine B) :=
  on_drives (all_disks (e_cluster e)) f e.
Definition on_set {A} (bucket key : string) (f : list B → option (StorageResult A * list B)) (e : Engine B) :=
  addrs ← disks_for siphash (e_cluster e) bucket key; on_drives addrs f e.

(** One call to each drive. *)
Definition each {A} (m : call B A) (bs : list B) : option (list (IoResult A) * list B) :=
  fan (λ (_ : unit) b, m b) (replicate (length bs) ()) bs.

(** ** Reading *)

Section reading.
Context (blake3 : bytes → bytes) {HS : HashIter string} {HN : HashIter nat} {HH : HashIter (list byte)}.
Context {St : Type} `{ByteStream St} (open_stream : B → Get.backend St).

(** The probe of every drive of the set, and the vote. *)
Definition read_consensus (bucket key : string) (vid : option string) (read_data : bool) (bs : list B) :
    option (StorageResult FileInfo * list B) :=
  '(answers, bs) ← each (sb_read_version "" bucket key vid read_data) bs;
  r ← read_with_consensus blake3 bucket key answers;
  Some ((match r with Ok (_, fi) => Ok fi | Err er => Err er end), bs).

Definition get_versioned (bucket key : string) (vid : option string) (range : option ByteRange) :
    Engine B → option (StorageResult (ObjectInfo * option (Z * Z) * body_stream St) * Engine B) :=
  on_set bucket key (λ bs,
    '(r, bs) ← read_consensus bucket key vid true bs;
    match r with
    | Err er => Some (Err er, bs)
    | Ok fi => r ← get_body (open_stream <$> bs) bucket key fi range; Some (r, bs)
    end).
Definition get (bucket key : string) (e : Engine B) : option (StorageResult (ObjectInfo * body_stream St) * Engine B) :=
  '(r, e) ← get_versioned bucket key None None e;
  Some (match r with Ok (info, _, s) => Ok (info, s) | Err er => Err er end, e).
Definition get_version (bucket key vid : string) (e : Engine B) : option (StorageResult (ObjectInfo * body_stream St) * Engine B) :=
  '(r, e) ← get_versioned bucket key (Some vid) None e;
  Some (match r with Ok (info, _, s) => Ok (info, s) | Err er => Err er end, e).
Definition get_opts := get_versioned.

Definition described (bucket : string) (r : StorageResult FileInfo) : StorageResult ObjectInfo := to_object_info bucket <$> r.
Definition stat (bucket key : string) : Engine B → option (StorageResult ObjectInfo * Engine B) :=
  on_set bucket key (λ bs, '(r, bs) ← read_consensus bucket key None false bs; Some (described bucket r, bs)).
Definition stat_version (bucket key vid : string) : Engine B → option (StorageResult ObjectInfo * Engine B) :=
  on_set bucket key (λ bs, '(r, bs) ← read_consensus bucket key (Some vid) false bs; Some (described bucket r, bs)).
End reading.

(** ** Deleting *)

Definition is_file_not_found (e : IoError) : bool := match e with FileNotFound _ _ => true | _ => false end.

(** The verdict on the answers of a delete: any success, else the first error
    that is not an absent file. *)
Definition delete_verdict (bucket key : string) (rs : list (IoResult unit)) : StorageResult unit :=
  if existsb is_ok rs then Ok ()
  else match head (omap (λ r : IoResult unit, match r with Err e => if is_file_not_found e then None else Some e | Ok _ => None end) rs) with
       | Some e => Err (map_object_missing bucket key e)
       | None => Err (ObjectNotFound bucket key)
       end.
Definition delete (acquired : StorageResult LockGuard) (bucket key : string) (e : Engine B) :
    option (StorageResult unit * Engine B) :=
  match acquired with
  | Err er => Some (Err er, e)
  | Ok _ =>
      on_set bucket key (λ bs,
        '(rs, bs) ← each (sb_delete_version bucket key FileInfo_default false DeleteOptions_default) bs;
        Some (delete_verdict bucket key rs, bs)) e
  end.

(** *** Batches *)

Section batch.
Context {HN : HashIter nat}.

(** The keys of each set, with their positions in the request. *)
Definition group_keys (c : ClusterConfig) (bucket : string) (keys : list string) : option (gmap nat (list (nat * string))) :=
  idxs ← mapM (λ k, set_index_for siphash c bucket k) keys;
  Some (entry_fold (λ _, []) (λ l x, l ++ [x]) (zip idxs (enumerate keys))).

(** The drives of a set that the engine knows. *)
Definition known (e : Engine B) (addrs : list DiskAddr) : list DiskAddr :=
  filter (λ a, is_Some (e_backends e !! a)) addrs.

(** What one answer of a drive adds to the tally of a key. *)
Record KeyTally := { kt_ok : nat; kt_missing : nat; kt_err : option IoError }.
Definition count_answer (t : KeyTally) (r : IoResult unit) : KeyTally :=
  match r with
  | Ok _ => {| kt_ok := S (kt_ok t); kt_missing := kt_missing t; kt_err := kt_err t |}
  | Err (FileNotFound _ _) => {| kt_ok := kt_ok t; kt_missing := S (kt_missing t); kt_err := kt_err t |}
  | Err e =>
      {| kt_ok := kt_ok t; kt_missing := kt_missing t;
         kt_err := match kt_err t with None => Some (Io (io_error_other (io_to_string e))) | some => some end |}
  end.
Fixpoint count_drive (ts : list KeyTally) (rs : list (IoResult unit)) : list KeyTally :=
  match ts, rs with
  | t :: ts, r :: rs => count_answer t r :: count_drive ts rs
  | ts, _ => ts
  end.
Definition count_drives (n_keys : nat) (per_drive : list (IoResult (list (IoResult unit)))) : list KeyTally :=
  foldl (λ ts d, match d with Ok rs => count_drive ts rs | Err _ => ts end)
    (replicate n_keys {| kt_ok := 0; kt_missing := 0; kt_err := None |}) per_drive.
Definition key_verdict (quorum : nat) (bucket key : string) (t : KeyTally) : StorageResult unit :=
  if quorum <=? kt_ok t + kt_missing t then Ok ()
  else match kt_err t with
       | Some e => Err (map_object_missing bucket key e)
       | None => Err (ObjectNotFound bucket key)
       end.

(** One set after the other: their drives are different. *)
Fixpoint delete_sets (quorum : nat) (bucket : string) (groups : list (nat * list (nat * string))) (out : list (StorageResult unit))
    (e : Engine B) : option (list (StorageResult unit) * Engine B) :=
  match groups with
  | [] => Some (out, e)
  | (set_idx, idx_keys) :: groups =>
      addrs ← set_disks (e_cluster e) set_idx;
      let addrs := known e addrs in
      let bs := omap (λ a, e_backends e !! a) addrs in
      '(per_drive, bs) ← each (sb_delete_batch bucket (idx_keys.*2) true) bs;
      let verdicts := zip_with (λ (ik : nat * string) t, (ik.1, key_verdict quorum bucket ik.2 t)) idx_keys (count_drives (length idx_keys) per_drive) in
      delete_sets quorum bucket groups (foldl (λ o iv, <[iv.1 := iv.2]> o) out verdicts) (put_back addrs bs e)
  end.

Definition delete_objects (bucket : string) (keys : list string) (e : Engine B) :
    option (StorageResult (list (StorageResult unit)) * Engine B) :=
  match keys with
  | [] => Some (Ok [], e)
  | _ =>
      by_set ← group_keys (e_cluster e) bucket keys;
      '(out, e) ← delete_sets (write_quorum (e_cluster e)) bucket (hash_iter by_set) (replicate (length keys) (Ok ())) e;
      Some (Ok out, e)
  end.
End batch.
End engine.

(** ** Lemmas *)

Section lemmas.
Context {B : Type} `{SB : StorageBackend B} (siphash : list string → N).

Lemma backend_ok (e : Engine B) a b : backend e a = Ok b ↔ e_backends e !! a = Some b.
Proof. unfold backend. destruct (e_backends e !! a); cbn; naive_solver. Qed.

Lemma backends_at_Forall2 (e : Engine B) addrs bs :
  backends_at e addrs = Ok bs ↔ Forall2 (λ a b, e_backends e !! a = Some b) addrs bs.
Proof.
  unfold backends_at. revert bs. induction addrs as [|a addrs IH]; intros bs.
  - split; [intros [= <-]; constructor|by inversion 1].
  - rewrite fmap_cons. cbn [collect]. split.
    + intros H. destruct (backend e a) as [b|] eqn:Ea; [|done]. cbn in H. destruct (collect _) as [l|] eqn:El; [|done].
      injection H as <-. constructor; [by apply backend_ok|by apply IH].
    + inversion 1 as [|? b ? bs' Hb Hbs]; subst. apply backend_ok in Hb as ->. apply IH in Hbs as ->. done.
Qed.

Lemma lookup_put_back addrs bs (e : Engine B) a : length bs = length addrs →
  e_backends (put_back addrs bs e) !! a = match (list_to_map (zip addrs bs) : gmap DiskAddr B) !! a with Some b => Some b | None => e_backends e !! a end.
Proof. intros _. cbn. rewrite lookup_union. by destruct (_ !! a), (e_backends e !! a). Qed.

(** The drives that were put back are the drives found there. *)
Lemma backends_put_back addrs bs (e : Engine B) : NoDup addrs → length bs = length addrs →
  backends_at (put_back addrs bs e) addrs = Ok bs.
Proof.
  intros Hn Hl. apply backends_at_Forall2, Forall2_same_length_lookup. split; [done|].
  intros i a b Ha Hb. rewrite lookup_put_back by done.
  rewrite (elem_of_list_to_map_1 (zip addrs bs) a b); [done| |].
  - by rewrite fst_zip by lia.
  - apply list_elem_of_lookup. exists i. apply lookup_zip_Some. done.
Qed.

Lemma put_back_elsewhere addrs bs (e : Engine B) a : length bs = length addrs → a ∉ addrs →
  e_backends (put_back addrs bs e) !! a = e_backends e !! a.
Proof.
  intros Hl Ha. rewrite lookup_put_back by done. rewrite not_elem_of_list_to_map_1; [done|]. by rewrite fst_zip by lia.
Qed.

Lemma each_length {A} (m : call B A) bs rs bs' : each m bs = Some (rs, bs') → length rs = length bs ∧ length bs' = length bs.
Proof.
  unfold each. revert rs bs'. induction bs as [|b bs IH]; intros rs bs'; cbn; [by intros [= <- <-]|].
  destruct (m b) as [[r b']|]; [|done]. cbn. destruct (fan _ _ bs) as [[rs0 bs0]|] eqn:E; [|done]. cbn. intros [= <- <-].
  destruct (IH _ _ eq_refl) as [H1 H2]. cbn. by rewrite H1, H2.
Qed.

(** A call that every drive answers. *)
Lemma each_spec {A} (m : call B A) (P : B → Prop) (Q : IoResult A → B → B → Prop) bs :
  (∀ b, P b → ∃ r b', m b = Some (r, b') ∧ Q r b b') → Forall P bs →
  ∃ rs bs', each m bs = Some (rs, bs') ∧ Forall3 Q rs bs bs'.
Proof.
  intros Hm. unfold each. induction 1 as [|b bs Hb _ IH]; cbn; [exists [], []; split; [done|constructor]|].
  destruct (Hm b Hb) as (r & b' & -> & Hq). destruct IH as (rs & bs' & -> & Hrs). cbn. eexists _, _. split; [done|]. by constructor.
Qed.
End lemmas.
