(* ===== verification/Bucket.v ===== *)
(** * Buckets

    The bucket operations of [openlake_storage/src/engine.rs]
    ([validate_bucket_name], [save_config], [put_bucket_meta], [get_bucket_meta],
    [list_buckets], [create_bucket], [stat_bucket], [delete_bucket], the
    versioning calls) over the engine's drives, and the framed codec of a
    bucket's metadata ([BucketMeta::encode] and [decode] of
    [openlake_io/src/types.rs]).  Msgpack and CRC32C are parameters. *)

From stdpp Require Import base gmap strings sorting pretty list.
From Stdlib Require Import Strings.Ascii.
From S2P Require Import Prelude Text Types Cluster Ec Streams EcStream Get Dsync Consensus XlMeta Fs LocalFs Backend Put Engine.

(** ** Bucket names *)

Definition lower_or_digit (c : ascii) : bool :=
  let n := nat_of_ascii c in ((97 <=? n) && (n <=? 122)) || ((48 <=? n) && (n <=? 57)).
Definition is_digit (c : ascii) : bool := let n := nat_of_ascii c in (48 <=? n) && (n <=? 57).

(** [^[a-z0-9][a-z0-9\.\-]{1,61}[a-z0-9]$]. *)
Definition name_char (c : ascii) : bool := lower_or_digit c || bool_decide (c = "."%char) || bool_decide (c = "-"%char).
Definition valid_strict (s : string) : bool :=
  match String.list_ascii_of_string s with
  | c :: rest =>
      match last rest with
      | Some z =>
          let mid := take (length rest - 1) rest in
          lower_or_digit c && (1 <=? length mid) && (length mid <=? 61) && forallb name_char mid && lower_or_digit z
      | None => false
      end
  | [] => false
  end.
(** [^(\d+\.){3}\d+$]. *)
Definition is_ip_address (s : string) : bool :=
  match split_char "." s with
  | [a; b; c; d] => forallb (λ p, negb (bool_decide (p = "")) && all_chars is_digit p) [a; b; c; d]
  | _ => false
  end.

Definition validate_bucket_name (name : string) : StorageResult unit :=
  let bad := Err (InvalidBucketName name) in
  let trimmed := trim name in
  if bool_decide (trimmed = "") then bad
  else if String.length trimmed <? 3 then bad
  else if 63 <? String.length trimmed then bad
  else if bool_decide (trimmed = "openlake") then bad
  else if is_ip_address trimmed then bad
  else if contains ".." trimmed || contains ".-" trimmed || contains "-." trimmed then bad
  else if negb (valid_strict trimmed) then bad
  else Ok ().

Example names_tried :
  is_ok ∘ validate_bucket_name <$> ["abc"; "ab"; "a..b"; "1.2.3.4"; "my-bucket.x"; "Abc"; ".openlake.sys"; "openlake"; " abc "]
  = [true; false; false; false; true; false; false; false; true].
Proof. vm_compute. reflexivity. Qed.

(** ** The metadata of a bucket *)

Definition BUCKET_META_MAGIC : bytes := [x50; x42; x4b; x4d].
Definition BUCKET_META_FORMAT_V1 : Z := 1.
Definition BUCKET_META_SCHEMA_V1 : Z := 1.
Definition BUCKET_META_HEADER_BYTES : nat := 12.
Definition BUCKET_META_TRAILER_BYTES : nat := 4.

Section bucket.
Context (rmp_meta_to_vec : BucketMeta → result string bytes) (rmp_meta_from_slice : bytes → result string BucketMeta).
Context (crc32c : bytes → Z).
(** [{:#010x}]. *)
Context (hex_u32 : Z → string).

Definition meta_encode (m : BucketMeta) : IoResult bytes :=
  match rmp_meta_to_vec m with
  | Err e => Err (Encode e)
  | Ok body =>
      let out := BUCKET_META_MAGIC ++ le_bytes 2 BUCKET_META_FORMAT_V1 ++ le_bytes 2 BUCKET_META_SCHEMA_V1
                 ++ le_bytes 4 (Z.of_nat (length body) `mod` u32_mod)%Z ++ body in
      Ok (out ++ le_bytes 4 (crc32c out))
  end.

Definition meta_decode (bs : bytes) : IoResult BucketMeta :=
  if length bs <? BUCKET_META_HEADER_BYTES + BUCKET_META_TRAILER_BYTES then
    Err (Decode ("bucket meta too short (" +:+ pretty (length bs) +:+ " bytes)"))
  else if negb (bool_decide (sub_bytes 0 4 bs = BUCKET_META_MAGIC)) then Err (Decode "bucket meta bad magic")
  else
    let format_v := from_le_bytes (sub_bytes 4 6 bs) in
    if negb (format_v =? BUCKET_META_FORMAT_V1)%Z then
      Err (Decode ("bucket meta unknown format_version " +:+ pretty format_v))
    else
      let schema_v := from_le_bytes (sub_bytes 6 8 bs) in
      if negb (schema_v =? BUCKET_META_SCHEMA_V1)%Z then
        Err (Decode ("bucket meta unknown schema_version " +:+ pretty schema_v))
      else
        let body_len := from_le_bytes (sub_bytes 8 12 bs) in
        let expected := (Z.of_nat BUCKET_META_HEADER_BYTES + body_len + Z.of_nat BUCKET_META_TRAILER_BYTES)%Z in
        if negb (Z.of_nat (length bs) =? expected)%Z then
          Err (Decode ("bucket meta size mismatch (got " +:+ pretty (length bs) +:+ ", expected " +:+ pretty expected +:+ ")"))
        else
          let stop := BUCKET_META_HEADER_BYTES + Z.to_nat body_len in
          let crc_recorded := from_le_bytes (sub_bytes stop (stop + 4) bs) in
          let crc_computed := crc32c (take stop bs) in
          if negb (crc_recorded =? crc_computed)%Z then
            Err (Decode ("bucket meta crc mismatch (recorded " +:+ hex_u32 crc_recorded +:+ ", computed "
                         +:+ hex_u32 crc_computed +:+ ")"))
          else map_err Decode (rmp_meta_from_slice (sub_bytes BUCKET_META_HEADER_BYTES stop bs)).

(** ** Operations *)

Context {B : Type} `{SB : StorageBackend B} (siphash : list string → N).
Context (blake3 : bytes → bytes) (blake3_hex : bytes → string).
Context {HS : HashIter string} {HN : HashIter nat} {HH : HashIter (list byte)}.
Context {St : Type} `{ByteStream St} (open_stream : B → Get.backend St) (rs : RsCodec).

(** What the clock and the generator of names give to one call. *)
Record BucketEnv := { be_now : Z; be_staging : string }.

(** [save_config]: an inline write with no lock and no version of its own. *)
Definition save_config (env : BucketEnv) (vol key : string) (body : bytes) (e : Engine B) :
    option (StorageResult unit * Engine B) :=
  on_set siphash vol key (λ bs,
    let n := length bs in
    let parity := default_parity_count (e_cluster e) in
    if n <? parity then None
    else
      let fis := inline_records parity n vol key (length body) [body] (blake3_hex body) (be_now env) None NULL_VERSION_ID in
      promote_versions bs STAGING_VOL (be_staging env) fis vol key (write_quorum (e_cluster e))) e.

Definition put_bucket_meta (env : BucketEnv) (bucket : string) (m : BucketMeta) (e : Engine B) :
    option (StorageResult unit * Engine B) :=
  match meta_encode m with
  | Err er => Some (Err (SIo er), e)
  | Ok body => save_config env SYSTEM_BUCKET (bkt_meta_key bucket) body e
  end.

(** Reading the whole body of an object, chunk by chunk; a body has no more
    chunks than bytes, and one end. *)
Definition read_to_end (s : body_stream St) (sz : Z) : option (IoResult bytes) :=
  fst <$> drain (H := body_stream_stream rs) (S (Z.to_nat sz)) s.

Definition get_bucket_meta (bucket : string) (e : Engine B) : option (StorageResult BucketMeta * Engine B) :=
  '(r, e) ← get siphash blake3 open_stream SYSTEM_BUCKET (bkt_meta_key bucket) e;
  match r with
  | Err er => Some (Err er, e)
  | Ok (info, s) =>
      body ← read_to_end s (oi_size info);
      Some (match body with
            | Err er => Err (SIo er)
            | Ok buf => map_err SIo (meta_decode buf)
            end, e)
  end.

(** Names in the order of a [BTreeMap], with how many drives have them. *)
Definition count_vols (answers : list (IoResult (list VolInfo))) : gmap string nat :=
  tally (vol_name <$> concat (omap res_ok answers)).
Definition name_before (a b : string) : bool := bool_decide (String.compare a b ≠ Gt).

Fixpoint bucket_times (names : list string) (e : Engine B) : option (list (string * Z) * Engine B) :=
  match names with
  | [] => Some ([], e)
  | n :: names =>
      '(m, e) ← get_bucket_meta n e;
      '(l, e) ← bucket_times names e;
      Some ((n, match m with Ok m => created_ms m | Err _ => 0%Z end) :: l, e)
  end.

Definition list_buckets (e : Engine B) : option (StorageResult (list (string * Z)) * Engine B) :=
  let quorum := read_quorum (e_cluster e) in
  '(r, e) ← on_all (λ bs, '(answers, bs) ← each sb_list_vols bs; Some (Ok answers, bs)) e;
  match r with
  | Err er => Some (Err er, e)
  | Ok answers =>
      if length (omap res_ok answers) <? quorum then
        let last_err := last (omap (λ r : IoResult (list VolInfo), match r with Err er => Some er | Ok _ => None end) answers) in
        Some (Err (SIo (default (InvalidArgument "no disks responded to list_vols") last_err)), e)
      else
        let names := sort_by name_before (fst <$> filter (λ kv, quorum ≤ kv.2) (map_to_list (count_vols answers))) in
        '(l, e) ← bucket_times names e;
        Some (Ok l, e)
  end.

Definition is_volume_exists (e : IoError) : bool := match e with VolumeExists _ => true | _ => false end.
Definition is_volume_not_found (e : IoError) : bool := match e with VolumeNotFound _ => true | _ => false end.
Definition errors_of {A} (rs : list (IoResult A)) : list IoError :=
  omap (λ r : IoResult A, match r with Err e => Some e | Ok _ => None end) rs.

(** The volume is removed from every drive, with everything in it. *)
Definition drop_vols (bucket : string) (bs : list B) : option (list B) := snd <$> each (sb_delete_vol bucket true) bs.

Definition create_bucket (env : BucketEnv) (acquired : StorageResult LockGuard) (bucket : string) (m : BucketMeta) (e : Engine B) :
    option (StorageResult unit * Engine B) :=
  match validate_bucket_name bucket with
  | Err er => Some (Err er, e)
  | Ok _ =>
      match acquired with
      | Err er => Some (Err er, e)
      | Ok _ =>
          '(r, e) ← on_all (λ bs,
            let n := length bs in
            '(rs, bs) ← each (sb_make_vol bucket) bs;
            let ok := length (omap res_ok rs) in
            let exist := length (filter (λ x, is_volume_exists x = true) (errors_of rs)) in
            let others := filter (λ x, is_volume_exists x = false) (errors_of rs) in
            if n / 2 + 1 <=? exist then Some (Err (BucketAlreadyExists bucket), bs)
            else if negb (ok =? n) then
              bs ← drop_vols bucket bs;
              let modal := match last others with
                           | Some er => er
                           | None => if 0 <? exist then VolumeExists bucket else InvalidArgument "no results"
                           end in
              Some (Err (SIo modal), bs)
            else Some (Ok (), bs)) e;
          match r with
          | Err er => Some (Err er, e)
          | Ok _ =>
              '(r, e) ← put_bucket_meta env bucket m e;
              match r with
              | Ok _ => Some (Ok (), e)
              | Err er =>
                  '(_, e) ← on_all (λ bs, bs ← drop_vols bucket bs; Some (Ok (), bs)) e;
                  Some (Err er, e)
              end
          end
      end
  end.

Definition stat_verdict (quorum n : nat) (bucket : string) (rs : list (IoResult VolInfo)) : StorageResult unit :=
  let found := length (omap res_ok rs) in
  let missing := length (filter (λ x, is_volume_not_found x = true) (errors_of rs)) in
  let other_err := head (filter (λ x, is_volume_not_found x = false) (errors_of rs)) in
  if quorum <=? found then Ok ()
  else if (n - found <=? missing) && negb (bool_decide (is_Some other_err)) then Err (BucketNotFound bucket)
  else match other_err with
       | Some er => Err (SIo er)
       | None => Err (BucketNotFound bucket)
       end.
Definition stat_bucket (bucket : string) (e : Engine B) : option (StorageResult unit * Engine B) :=
  match validate_bucket_name bucket with
  | Err er => Some (Err er, e)
  | Ok _ =>
      on_all (λ bs,
        '(rs, bs) ← each (sb_stat_vol bucket) bs;
        Some (stat_verdict (read_quorum (e_cluster e)) (length bs) bucket rs, bs)) e
  end.

Definition get_bucket_versioning (bucket : string) (e : Engine B) : option (StorageResult VersioningStatus * Engine B) :=
  match validate_bucket_name bucket with
  | Err er => Some (Err er, e)
  | Ok _ =>
      '(r, e) ← stat_bucket bucket e;
      match r with
      | Err er => Some (Err er, e)
      | Ok _ => '(r, e) ← get_bucket_meta bucket e; Some (match r with Ok m => Ok (versioning_status m) | Err er => Err er end, e)
      end
  end.

Definition put_bucket_versioning (env : BucketEnv) (acquired : StorageResult LockGuard) (bucket : string)
    (new_status : VersioningStatus) (e : Engine B) : option (StorageResult unit * Engine B) :=
  match validate_bucket_name bucket with
  | Err er => Some (Err er, e)
  | Ok _ =>
      match acquired with
      | Err er => Some (Err er, e)
      | Ok _ =>
          '(r, e) ← stat_bucket bucket e;
          match r with
          | Err er => Some (Err er, e)
          | Ok _ =>
              '(r, e) ← get_bucket_meta bucket e;
              match r with
              | Err er => Some (Err er, e)
              | Ok m =>
                  put_bucket_meta env bucket
                    {| created_ms := created_ms m; versioning_status := new_status;
                       versioning_updated_ms := be_now env; object_lock_enabled := object_lock_enabled m |} e
              end
          end
      end
  end.

(** The first answer that settles an emptiness check. *)
Fixpoint empty_verdict (bucket : string) (rs : list (IoResult (list string))) : StorageResult unit :=
  match rs with
  | [] => Ok ()
  | Ok (_ :: _) :: _ => Err (BucketNotEmpty bucket)
  | Ok [] :: rs | Err (VolumeNotFound _) :: rs => empty_verdict bucket rs
  | Err er :: _ => Err (SIo er)
  end.

(** [meta_lock] is the outcome of the lock that the delete of the metadata takes. *)
Definition delete_bucket (acquired meta_lock : StorageResult LockGuard) (bucket : string) (force : bool) (e : Engine B) :
    option (StorageResult unit * Engine B) :=
  match validate_bucket_name bucket with
  | Err er => Some (Err er, e)
  | Ok _ =>
      match acquired with
      | Err er => Some (Err er, e)
      | Ok _ =>
          '(r, e) ← on_all (λ bs,
            if force then Some (Ok (), bs)
            else '(rs, bs) ← each (sb_list_dir bucket "" 1) bs; Some (empty_verdict bucket rs, bs)) e;
          match r with
          | Err er => Some (Err er, e)
          | Ok _ =>
              '(_, e) ← delete siphash meta_lock SYSTEM_BUCKET (bkt_meta_key bucket) e;
              on_all (λ bs,
                '(rs, bs) ← each (sb_delete_vol bucket true) bs;
                Some (map_err SIo (require_quorum rs (length bs) is_volume_not_found), bs)) e
          end
      end
  end.
End bucket.

(** ** Lemmas: the codec *)

Section codec.
Context (rmp_meta_to_vec : BucketMeta → result string bytes) (rmp_meta_from_slice : bytes → result string BucketMeta).
Context (crc32c : bytes → Z) (hex_u32 : Z → string).
Context (Hrmp : ∀ m b, rmp_meta_to_vec m = Ok b → rmp_meta_from_slice b = Ok m ∧ (Z.of_nat (length b) < u32_mod)%Z).
Context (Hcrc : ∀ b, is_u32 (crc32c b)).

Lemma le_bytes_u32 z : is_u32 z → from_le_bytes (le_bytes 4 z) = z.
Proof. intros H. apply from_le_le_bytes. exact H. Qed.

Lemma meta_decode_encode m bs : meta_encode rmp_meta_to_vec crc32c m = Ok bs →
  meta_decode rmp_meta_from_slice crc32c hex_u32 bs = Ok m ∧ bs ≠ [].
Proof.
  unfold meta_encode. destruct (rmp_meta_to_vec m) as [body|] eqn:Em; [|done]. destruct (Hrmp _ _ Em) as [Hdec Hlen].
  intros Hbs. assert (bs ≠ []) as Hne by (intros ->; discriminate Hbs). split; [|done]. clear Hne. revert Hbs.
  set (len4 := le_bytes 4 (Z.of_nat (length body) `mod` u32_mod)%Z).
  set (head := BUCKET_META_MAGIC ++ le_bytes 2 BUCKET_META_FORMAT_V1 ++ le_bytes 2 BUCKET_META_SCHEMA_V1 ++ len4).
  assert (BUCKET_META_MAGIC ++ le_bytes 2 BUCKET_META_FORMAT_V1 ++ le_bytes 2 BUCKET_META_SCHEMA_V1 ++ len4 ++ body = head ++ body) as ->.
  { unfold head. by rewrite <-!app_assoc. }
  set (crc := le_bytes 4 (crc32c (head ++ body))). intros Hbs.
  assert (bs = (head ++ body) ++ crc) as -> by (by injection Hbs as <-). clear Hbs.
  assert (length len4 = 4) as Hl4 by apply length_le_bytes. assert (length crc = 4) as Hlc by apply length_le_bytes.
  assert (length head = 12) as Hlh by (unfold head; rewrite !length_app, !length_le_bytes, Hl4; done).
  assert (from_le_bytes len4 = Z.of_nat (length body)) as Hfrom.
  { unfold len4. rewrite Z.mod_small by lia. apply le_bytes_u32. unfold is_u32. lia. }
  unfold meta_decode. rewrite (proj2 (Nat.ltb_ge _ _)).
  2: { rewrite !length_app, Hlh, Hlc. unfold BUCKET_META_HEADER_BYTES, BUCKET_META_TRAILER_BYTES. lia. }
  assert (sub_bytes 8 12 ((head ++ body) ++ crc) = len4) as Hs8.
  { unfold sub_bytes, head, BUCKET_META_MAGIC.
    change (le_bytes 2 BUCKET_META_FORMAT_V1) with [x01; x00]. change (le_bytes 2 BUCKET_META_SCHEMA_V1) with [x01; x00].
    rewrite <-!app_assoc. cbn [app drop]. rewrite drop_0. rewrite take_app_length'; [done|]. by rewrite Hl4. }
  rewrite Hs8. change (sub_bytes 0 4 ((head ++ body) ++ crc)) with BUCKET_META_MAGIC.
  change (from_le_bytes (sub_bytes 4 6 ((head ++ body) ++ crc))) with 1%Z.
  change (from_le_bytes (sub_bytes 6 8 ((head ++ body) ++ crc))) with 1%Z.
  rewrite bool_decide_true by done. cbn [negb]. rewrite Hfrom.
  rewrite (proj2 (Z.eqb_eq (Z.of_nat (length ((head ++ body) ++ crc))) _)).
  2: { rewrite !length_app, Hlh, Hlc. unfold BUCKET_META_HEADER_BYTES, BUCKET_META_TRAILER_BYTES. lia. }
  cbn [negb]. rewrite Nat2Z.id. unfold BUCKET_META_HEADER_BYTES.
  assert (take (12 + length body) ((head ++ body) ++ crc) = head ++ body) as ->.
  { apply take_app_length'. by rewrite length_app, Hlh. }
  assert (sub_bytes (12 + length body) (12 + length body + 4) ((head ++ body) ++ crc) = crc) as ->.
  { unfold sub_bytes. rewrite drop_app_length' by by rewrite length_app, Hlh. apply take_ge. lia. }
  unfold crc. rewrite le_bytes_u32 by apply Hcrc. rewrite Z.eqb_refl. cbn [negb].
  assert (sub_bytes 12 (12 + length body) ((head ++ body) ++ le_bytes 4 (crc32c (head ++ body))) = body) as ->.
  { unfold sub_bytes. rewrite <-app_assoc, drop_app_length' by done. apply take_app_length'. lia. }
  change (1 =? BUCKET_META_SCHEMA_V1)%Z with true. by rewrite Hdec, Z.eqb_refl.
Qed.
End codec.

(** ** Properties *)

Section meta.
Context (rmp_meta_to_vec : BucketMeta → result string bytes) (rmp_meta_from_slice : bytes → result string BucketMeta).
Context (crc32c : bytes → Z) (hex_u32 : Z → string).
Context {B : Type} `{SB : StorageBackend B} (siphash : list string → N).
Context (blake3 : bytes → bytes) (blake3_hex : bytes → string).
Context {HS : HashIter string} {HN : HashIter nat} {HH : HashIter (list byte)}.
Context {St : Type} `{ByteStream St} (open_stream : B → Get.backend St) (rs : RsCodec).

(** C27.  The configuration of a bucket, written and read back on the drives of
    its set, whatever drives answer: storing it does not panic; when it is
    reported stored, every later read in which at most [parity] drives fail, and
    fewer than half of the set, returns exactly the configuration written. *)
Theorem bucket_meta_roundtrip (env : BucketEnv) (bucket : string) (m : BucketMeta) (body : bytes)
    {HL : PromotionLaws B STAGING_VOL (be_staging env) SYSTEM_BUCKET (bkt_meta_key bucket)}
    (e : Engine B) (addrs : list DiskAddr) (bs : list B)
    (Hrmp : ∀ m b, rmp_meta_to_vec m = Ok b → rmp_meta_from_slice b = Ok m ∧ (Z.of_nat (length b) < u32_mod)%Z)
    (Hcrc : ∀ b, is_u32 (crc32c b)) (Hhex : ∀ b, blake3_hex b ≠ "")
    (Hwf : wf_cluster (e_cluster e)) (Hsmall : set_drive_count (e_cluster e) < 256)
    (Haddrs : disks_for siphash (e_cluster e) SYSTEM_BUCKET (bkt_meta_key bucket) = Some addrs)
    (Hbs : backends_at e addrs = Ok bs)
    (Hbody : meta_encode rmp_meta_to_vec crc32c m = Ok body) (Hwidth : (Z.of_nat (length body) < u64_mod)%Z)
    (Hready : Forall2 ready (inline_records (default_parity_count (e_cluster e)) (length bs) SYSTEM_BUCKET (bkt_meta_key bucket)
       (length body) [body] (blake3_hex body) (be_now env) None NULL_VERSION_ID) bs) :
  ∃ r e', put_bucket_meta rmp_meta_to_vec crc32c siphash blake3_hex env bucket m e = Some (r, e')
    ∧ (r = Ok () → ∃ bs' answers bs'', backends_at e' addrs = Ok bs'
        ∧ each (sb_read_version "" SYSTEM_BUCKET (bkt_meta_key bucket) None true) bs' = Some (answers, bs'')
        ∧ let failed := length bs - length (omap res_ok answers) in
          (failed ≤ default_parity_count (e_cluster e) → failed < Nat.max (length bs / 2) 1 →
           get_bucket_meta rmp_meta_from_slice crc32c hex_u32 siphash blake3 open_stream rs bucket e'
           = Some (Ok m, put_back addrs bs'' e'))).
Proof.
  destruct (meta_decode_encode _ _ crc32c hex_u32 Hrmp Hcrc m body Hbody) as [Hdec Hne].
  destruct (disks_for_wf siphash (e_cluster e) SYSTEM_BUCKET (bkt_meta_key bucket) Hwf)
    as (s & ns & ds & _ & _ & _ & Hds & Hlen & Hnd & _).
  rewrite Haddrs in Hds. injection Hds as <-.
  pose proof Hbs as HF. apply backends_at_Forall2 in HF. pose proof (Forall2_length _ _ _ HF) as Hl.
  destruct Hwf as [_ Hset _ Hpar _].
  assert (0 < length bs < 256 ∧ 2 * default_parity_count (e_cluster e) ≤ length bs) as [Hn Hp].
  { unfold write_quorum in Hlen. rewrite <-Hl, Hlen. split; [lia|]. destruct Hpar as [_ Hpar].
    etrans; [apply Nat.mul_le_mono_l, Hpar|]. apply Nat.Div0.mul_div_le. }
  unfold put_bucket_meta. rewrite Hbody. unfold save_config, on_set. rewrite Haddrs. cbn [mbind option_bind].
  unfold on_drives. rewrite Hbs. rewrite (proj2 (Nat.ltb_ge _ _)) by lia. replace (write_quorum (e_cluster e)) with (length bs) by lia.
  destruct (promote_versions_spec STAGING_VOL (be_staging env) SYSTEM_BUCKET (bkt_meta_key bucket) _ bs Hready) as (r & bs' & -> & Hr).
  cbn [mbind option_bind]. eexists _, _. split; [done|]. intros ->. specialize (Hr eq_refl).
  pose proof (Forall2_length _ _ _ Hr) as Hl'. rewrite (Forall2_length _ _ _ Hready) in Hl'.
  assert (backends_at (put_back addrs bs' e) addrs = Ok bs') as Hback by (apply backends_put_back; [done|lia]).
  destruct (consensus_on_records blake3 (default_parity_count (e_cluster e)) SYSTEM_BUCKET (bkt_meta_key bucket) (length body) body None
    (be_now env) NULL_VERSION_ID STAGING_VOL (be_staging env) (length bs) bs' [body] (blake3_hex body) Hn Hp (Hhex _))
    as (answers & bs'' & Hread & _ & Hcons); [by rewrite firstn_all; cbn; rewrite app_nil_r|exact Hr|].
  exists bs', answers, bs''. split; [done|]. split; [exact Hread|]. intros Hf1 Hf2.
  destruct (Hcons Hf1 Hf2) as (i & fi & Hvote & _ & _ & Hsize & _ & _ & Hdata).
  rewrite firstn_all in Hdata. rewrite decide_False in Hdata by done.
  unfold get_bucket_meta, get, get_versioned, on_set. cbn [put_back e_cluster]. rewrite Haddrs. cbn [mbind option_bind].
  unfold on_drives. change (backends_at _ addrs) with (backends_at (put_back addrs bs' e) addrs). rewrite Hback.
  unfold read_consensus. unfold each. fold (Put.read_all SYSTEM_BUCKET (bkt_meta_key bucket) bs'). rewrite Hread.
  cbn [mbind option_bind]. rewrite Hvote. cbn [mbind option_bind].
  destruct (get_body_inline rs (open_stream <$> bs'') SYSTEM_BUCKET (bkt_meta_key bucket) fi [body] None Hdata) as (st & -> & Hy);
    [done|by constructor|cbn; rewrite app_nil_r; lia|lia|].
  cbn [mbind option_bind]. unfold read_to_end.
  destruct (drain_yields (H := body_stream_stream rs) (S (Z.to_nat (oi_size (to_object_info SYSTEM_BUCKET fi)))) st body) as (st' & Hdr).
  { cbn in Hy. rewrite app_nil_r in Hy. exact Hy. }
  { cbn. lia. }
  rewrite Hdr. cbn [fmap option_fmap option_map fst mbind option_bind]. by rewrite Hdec.
Qed.
End meta.

(** ** Lemmas: names *)

Lemma drop_spaces_split fuel ws b : ∃ pre, b = pre ++ drop_spaces fuel ws b ∧ ∀ x, x ∈ pre → x ∈ concat ws.
Proof.
  revert b. induction fuel as [|fuel IH]; intros b; cbn; [exists []; split; [done|]; by intros x ?%elem_of_nil|].
  destruct (drop_space ws b) as [b'|] eqn:E; [|exists []; split; [done|]; by intros x ?%elem_of_nil].
  unfold drop_space in E. apply head_Some_elem_of in E. apply list_elem_of_omap in E as (w & Hw & Hd).
  case_decide as Hp; [|done]. injection Hd as <-. destruct Hp as [b' ->]. rewrite drop_app_length.
  destruct (IH b') as (pre & Hb & Hpre). exists (w ++ pre). rewrite <-app_assoc, <-Hb. split; [done|].
  intros x [Hx|Hx]%elem_of_app; [|by apply Hpre]. apply list_elem_of_In, in_concat. exists w. split; by apply list_elem_of_In.
Qed.

(** A string is its trimmed form between white space. *)
Lemma trim_split s : ∃ pre post, str_bytes s = pre ++ str_bytes (trim s) ++ post
  ∧ ∀ x, x ∈ pre ++ post → x ∈ concat white_space.
Proof.
  unfold trim. rewrite str_bytes_of_bytes. unfold trim_end_bytes, trim_start_bytes.
  destruct (drop_spaces_split (length (str_bytes s)) white_space (str_bytes s)) as (pre & Hb & Hpre).
  set (t := drop_spaces _ white_space _) in *.
  destruct (drop_spaces_split (length t) (reverse <$> white_space) (reverse t)) as (post & Ht & Hpost).
  set (u := drop_spaces _ (reverse <$> white_space) _) in *.
  exists pre, (reverse post). split.
  - rewrite Hb at 1. f_equal. rewrite <-reverse_app, <-Ht. by rewrite reverse_involutive.
  - intros x [Hx|Hx]%elem_of_app; [by apply Hpre|]. rewrite elem_of_reverse in Hx. specialize (Hpost x Hx).
    apply list_elem_of_In, in_concat in Hpost as (w & Hw & Hx'). apply list_elem_of_In, list_elem_of_fmap in Hw as (w' & -> & Hw').
    apply list_elem_of_In, in_concat. exists w'. split; [by apply list_elem_of_In|]. apply list_elem_of_In. apply list_elem_of_In in Hx'.
    by rewrite elem_of_reverse in Hx'.
Qed.

Lemma valid_strict_chars s : valid_strict s = true →
  ∃ c rest, String.list_ascii_of_string s = c :: rest ∧ lower_or_digit c = true ∧ forallb name_char (c :: rest) = true.
Proof.
  unfold valid_strict. destruct (String.list_ascii_of_string s) as [|c rest]; [done|]. destruct (last rest) as [z|] eqn:El; [|done].
  rewrite !andb_true_iff. intros [[[[Hc _] _] Hm] Hz]. exists c, rest. split; [done|]. split; [done|].
  assert (∀ x, lower_or_digit x = true → name_char x = true) as Hn by (intros x Hx; unfold name_char; by rewrite Hx).
  cbn. rewrite Hn by done. cbn. apply last_Some in El as [l ->]. rewrite forallb_app. cbn. rewrite Hn by done.
  rewrite length_app in Hm. cbn in Hm. replace (length l + 1 - 1) with (length l) in Hm by lia. rewrite take_app_length in Hm.
  by rewrite Hm.
Qed.

Lemma str_bytes_ascii s : str_bytes s = byte_of_ascii <$> String.list_ascii_of_string s.
Proof. induction s as [|c s IH]; [done|]. cbn. by rewrite <-IH. Qed.

Lemma not_elem_of_vm {A} `{EqDecision A} (x : A) (l : list A) : bool_decide (x ∈ l) = false → x ∉ l.
Proof. apply bool_decide_eq_false. Qed.

(** A character that is neither white space nor a name character does not occur
    in an accepted name, which does not start with a dot. *)
Lemma valid_name_bytes name : validate_bucket_name name = Ok () →
  (∀ x, name_char (ascii_of_byte x) = false → x ∉ concat white_space → x ∉ str_bytes name)
  ∧ head (str_bytes name) ≠ Some x2e ∧ str_bytes name ≠ [].
Proof.
  unfold validate_bucket_name. repeat (case_bool; [done|]). destruct (valid_strict (trim name)) eqn:Hv; [|done]. intros _.
  apply valid_strict_chars in Hv as (c & rest & Hl & Hc & Hall).
  destruct (trim_split name) as (pre & post & Hb & Hws). rewrite (str_bytes_ascii (trim name)), Hl in Hb.
  assert (∀ x, x ∈ byte_of_ascii <$> c :: rest → name_char (ascii_of_byte x) = true) as Hin.
  { intros x (y & -> & Hy)%list_elem_of_fmap. rewrite ascii_of_byte_of_ascii. rewrite forallb_forall in Hall. apply Hall.
    by apply list_elem_of_In. }
  split_and!.
  - intros x Hx Hxs. rewrite Hb. intros [Hp|[Hp|Hp]%elem_of_app]%elem_of_app.
    + apply Hxs, Hws. apply elem_of_app. by left.
    + apply Hin in Hp. congruence.
    + apply Hxs, Hws. apply elem_of_app. by right.
  - rewrite Hb. destruct pre as [|y pre]; cbn; intros [= H].
    + apply (f_equal ascii_of_byte) in H. rewrite ascii_of_byte_of_ascii in H. subst c. vm_compute in Hc. done.
    + subst y. assert (x2e ∈ concat white_space) as Hin'; [apply Hws; left|]. revert Hin'. by apply not_elem_of_vm.
  - rewrite Hb. by destruct pre.
Qed.

Lemma valid_name_volume name : validate_bucket_name name = Ok () →
  name ≠ "" ∧ has_char "/" name = false ∧ has_char "000" name = false
  ∧ is_system_vol name = false ∧ name ≠ TRASH_DIRNAME ∧ String.prefix "." name = false.
Proof.
  intros (Hno & Hhead & Hne)%valid_name_bytes.
  assert (∀ b, bool_decide (b ∈ concat white_space) = false → name_char (ascii_of_byte b) = false →
    has_char (ascii_of_byte b) name = false) as Hc.
  { intros b Hb Hn. rewrite <-(of_bytes_str name), has_char_of_bytes. apply bool_decide_eq_false.
    apply Hno; [done|]. by apply not_elem_of_vm. }
  assert (∀ s, head (str_bytes s) = Some x2e → name ≠ s) as Hd by (intros s Hs ->; done).
  split_and!; [by intros ->|by apply (Hc x2f)|by apply (Hc x00)| |by apply Hd|].
  - unfold is_system_vol. rewrite !bool_decide_false; [done|..]; by apply Hd.
  - destruct name as [|a name]; [done|]. unfold String.prefix. destruct (ascii_dec "." a) as [<-|]; [|done].
    exfalso. by apply Hhead.
Qed.

(** C30.  A bucket name that is accepted is usable as the name of a volume: it
    is not empty, contains neither a slash nor a zero byte, is not one of the
    engine's own volumes or the trash, and is not hidden from listings by a
    leading dot. *)
Theorem valid_name_safe (name : string) (Hvalid : validate_bucket_name name = Ok ()) :
  name ≠ "" ∧ has_char "/" name = false ∧ has_char "000" name = false
  ∧ is_system_vol name = false ∧ name ≠ TRASH_DIRNAME ∧ String.prefix "." name = false.
Proof. by apply valid_name_volume. Qed.

Lemma valid_name_safe_witness : is_system_vol "my-bucket.x" = false ∧ "my-bucket.x" ≠ TRASH_DIRNAME.
Proof. destruct (valid_name_safe "my-bucket.x") as (_ & _ & _ & H1 & H2 & _); [reflexivity|]. split; [exact H1|exact H2]. Defined.

(** ** Creating a bucket that exists *)

Section recreate.
Context (rmp_to_vec : OnDiskMeta → result string bytes) (rmp_from_slice : bytes → result string OnDiskMeta) (xxh64 : bytes → Z).
Context (bucket : string) (Hvalid : validate_bucket_name bucket = Ok ()).
#[local] Instance recreate_backend : StorageBackend LocalDrive := LocalDrive_backend rmp_to_vec rmp_from_slice xxh64.

(** A drive that answers and holds the bucket, and one that does not answer. *)
Definition holds_bucket (b : LocalDrive) : Prop :=
  healthy b ∧ tree (ld_disk b) !! [bucket] = Some NDir ∧ tree (ld_disk b) !! [TRASH_DIRNAME] = Some NDir
  ∧ ∀ k, tree (ld_disk b) !! [TRASH_DIRNAME; ld_name b k] = None.
Definition unreachable (b : LocalDrive) : Prop := ∀ k, is_Some (ld_fault b k).
Definition held (u : bool) (b : LocalDrive) : Prop := if u then holds_bucket b else unreachable b.
(** Nothing of the bucket is left. *)
Definition vanished (b : LocalDrive) : Prop := ∀ p, tree (ld_disk b) !! (bucket :: p) = None.

Lemma make_vol_held u b : held u b → ∃ r b', sb_make_vol bucket b = Some (r, b')
  ∧ r = Err (if u then VolumeExists bucket else Io (io_error_other (default "" (ld_fault b (ticks (ld_disk b))))))
  ∧ tree (ld_disk b') = tree (ld_disk b) ∧ held u b'.
Proof.
  destruct (valid_name_volume bucket Hvalid) as (Hne & Hs & Hz & _ & _ & _).
  intros Hb. cbn. unfold make_vol. rewrite bool_decide_false, Hs, Hz by done. cbn [orb].
  unfold on_disk, fs_map_err, fs_match, os_create_dir, change, os_call. destruct u; cbn in Hb.
  - destruct Hb as (Hh & Hd & Ht & Hn). rewrite Hh by done. unfold t_create_dir, vol_path. rewrite Hd. cbn.
    eexists _, _. split; [done|]. split; [done|]. split; [done|]. split_and!; [|done..]. intros k Hk. apply Hh. cbn in Hk. lia.
  - destruct (Hb (ticks (ld_disk b))) as [msg Hm]. rewrite Hm. cbn. eexists _, _. split; [done|]. split; [done|]. done.
Qed.

Lemma delete_vol_held u b : held u b → ∃ r b', sb_delete_vol bucket true b = Some (r, b')
  ∧ if u then vanished b' else tree (ld_disk b') = tree (ld_disk b).
Proof.
  destruct (valid_name_volume bucket Hvalid) as (_ & _ & _ & _ & Htr & _).
  intros Hb. cbn. unfold delete_vol. unfold on_disk, fs_map_err, fs_match, move_to_trash, os_rename, change, os_call. destruct u; cbn in Hb.
  - destruct Hb as (Hh & Hd & Ht & Hn). rewrite Hh by done. unfold t_rename, vol_path. rewrite Hd.
    assert (dir_at (tree (ld_disk b)) (parent [TRASH_DIRNAME; ld_name b (ticks (ld_disk b))]) = true) as ->.
    { unfold parent, dir_at. cbn [length take]. by apply bool_decide_eq_true. }
    cbn [negb]. rewrite decide_False by (intros H%prefix_cons_inv_1; done). rewrite Hn. cbn.
    eexists _, _. split; [done|]. intros p. cbn [ld_disk set_tree tree]. rewrite lookup_move.
    + rewrite decide_False by (intros H%prefix_cons_inv_1; congruence). by rewrite decide_True by (by exists p).
    + intros H%prefix_cons_inv_1. done.
  - destruct (Hb (ticks (ld_disk b))) as [msg Hm]. rewrite Hm. cbn. by eexists _, _.
Qed.

(** A fan-out over drives that hold the bucket or do not answer. *)
Lemma each_held {A} (m : call LocalDrive A) (Q : bool → IoResult A → LocalDrive → LocalDrive → Prop) ups bs :
  (∀ u b, held u b → ∃ r b', m b = Some (r, b') ∧ Q u r b b') → Forall2 held ups bs →
  ∃ rs bs', each m bs = Some (rs, bs') ∧ Forall3 (λ u b rb, Q u rb.1 b rb.2) ups bs (zip rs bs') ∧ length rs = length bs.
Proof.
  intros Hm. unfold each. induction 1 as [|u b ups bs Hb _ IH]; cbn; [exists [], []; split; [done|]; split; [constructor|done]|].
  destruct (Hm u b Hb) as (r & b' & -> & Hq). destruct IH as (rs & bs' & -> & Hrs & Hl). cbn.
  eexists _, _. split; [done|]. split; [by constructor|]. cbn. by rewrite Hl.
Qed.

Lemma held_answers ups bs rs bs1 : length rs = length bs →
  Forall3 (λ u b rb, rb.1 = Err (E:=IoError) (A:=unit) (if u : bool then VolumeExists bucket
             else Io (io_error_other (default "" (ld_fault b (ticks (ld_disk b)))))) ∧ held u rb.2) ups bs (zip rs bs1) →
  length (omap res_ok rs) = 0
  ∧ length (filter (λ x, is_volume_exists x = true) (errors_of rs)) = length (filter (λ u, u = true) ups)
  ∧ Forall2 held ups (zip rs bs1).*2.
Proof.
  revert bs rs bs1. induction ups as [|u ups IH]; intros [|b bs] [|r rs] [|b1 bs1] Hl HF; cbn in HF; inversion HF; subst; try (split_and!; [done..|constructor]).
  - match goal with H : _ ∧ _ |- _ => destruct H as [Hr Hh] end. cbn in Hr, Hh. subst r.
    destruct (IH bs rs bs1) as (H1 & H2 & H3); [cbn in Hl; lia|done|].
    split_and!; [done| |by constructor]. destruct u.
    + rewrite (filter_cons_True (λ u, u = true)) by done. cbn [length]. rewrite <-H2. reflexivity.
    + rewrite (filter_cons_False (λ u, u = true)) by done. rewrite <-H2. reflexivity.
Qed.

Context (rmp_meta_to_vec : BucketMeta → result string bytes) (crc32c : bytes → Z) (siphash : list string → N) (blake3_hex : bytes → string).

(** C28.  Creating a bucket that already exists while so many drives do not
    answer that fewer than a majority report it: the call fails, and it removes
    the bucket with everything in it from every drive that answered.  The drives
    that did not answer are left as they were. *)
Theorem create_bucket_destroys (env : BucketEnv) (g : LockGuard) (m : BucketMeta) (e : Engine LocalDrive) (ups : list bool) (bs : list LocalDrive)
    (Hids : NoDup (Cluster.id <$> nodes (e_cluster e)))
    (Hbs : backends_at e (all_disks (e_cluster e)) = Ok bs) (Hnonempty : bs ≠ [])
    (Hheld : Forall2 held ups bs)
    (Hfew : length (filter (λ u, u = true) ups) < length bs / 2 + 1) :
  ∃ er e' bs', create_bucket rmp_meta_to_vec crc32c siphash blake3_hex env (Ok g) bucket m e = Some (Err er, e')
    ∧ backends_at e' (all_disks (e_cluster e)) = Ok bs'
    ∧ Forall3 (λ u b b', if u : bool then vanished b' else tree (ld_disk b') = tree (ld_disk b)) ups bs bs'.
Proof.
  unfold create_bucket. rewrite Hvalid. unfold on_all, on_drives. rewrite Hbs.
  destruct (each_held (sb_make_vol bucket) (λ u r b b', (r = Err (if u then VolumeExists bucket
             else Io (io_error_other (default "" (ld_fault b (ticks (ld_disk b)))))) ∧ held u b') ∧ tree (ld_disk b') = tree (ld_disk b)) ups bs)
    as (rs & bs1 & E1 & H1 & Hl1); [|done|].
  { intros u b Hb. destruct (make_vol_held u b Hb) as (r & b' & ? & ? & ? & ?). exists r, b'. done. }
  destruct (each_length _ _ _ _ E1) as [_ Hl2]. rewrite E1. cbn [mbind option_bind].
  destruct (held_answers ups bs rs bs1 Hl1) as (Hok & Hex & Hheld1).
  { eapply Forall3_impl; [exact H1|]. by intros u b rb [? _]. }
  rewrite snd_zip in Hheld1 by lia. rewrite Hok, Hex. rewrite (proj2 (Nat.leb_gt _ _)) by lia.
  assert (length bs ≠ 0) as Hn0 by (by destruct bs). destruct (Nat.eqb_spec 0 (length bs)); [done|]. cbn [negb].
  destruct (each_held (sb_delete_vol bucket true) (λ u r b b', if u : bool then vanished b' else tree (ld_disk b') = tree (ld_disk b)) ups bs1)
    as (rs2 & bs2 & E2 & H2 & Hl3); [|done|].
  { intros u b Hb. destruct (delete_vol_held u b Hb) as (r & b' & ? & ?). by exists r, b'. }
  destruct (each_length _ _ _ _ E2) as [_ Hl4].
  unfold drop_vols. rewrite E2. cbn [fmap option_fmap option_map snd mbind option_bind].
  eexists _, _, bs2. split; [done|]. pose proof (Forall2_length _ _ _ (proj1 (backends_at_Forall2 e _ _) Hbs)) as Hla.
  split; [apply backends_put_back; [by apply NoDup_all_disks|lia]|].
  clear -H1 H2 Hl1 Hl2 Hl3 Hl4. revert bs rs bs1 rs2 bs2 Hl1 Hl2 Hl3 Hl4 H1 H2.
  induction ups as [|u ups IH]; intros [|b bs] [|r rs] [|b1 bs1] [|r2 rs2] [|b2 bs2]; cbn; intros ? ? ? ? H1 H2; try done;
    inversion H1; inversion H2; subst; [constructor|]. constructor; [|eapply IH; [..|done|done]; lia].
  destruct u; [done|]. cbn in *. match goal with H : _ ∧ _ |- _ => destruct H as [_ <-] end. done.
Qed.
End recreate.

(** ** Evaluation *)

Definition pair_cluster : ClusterConfig :=
  {| nodes := [{| Cluster.id := 0; rpc_addr := "a:1"; disk_count := 2 |}]; set_drive_count := 2; default_parity_count := 1; deployment_id := "d" |}.
Definition pair_engine {B} (b0 b1 : B) : Engine B :=
  {| e_cluster := pair_cluster;
     e_backends := <[{| node_id := 0; disk_idx := 0 |} := b0]> {[{| node_id := 0; disk_idx := 1 |} := b1]}; inline_threshold := 16 |}.

Definition kept_drive : LocalDrive :=
  drive_of {| tree := <[["photos"; "k"] := NFile [x01]]> (<[["photos"] := NDir]> {[[TRASH_DIRNAME] := NDir]}); ticks := 0 |}.
Definition dead_drive : LocalDrive :=
  {| ld_fault := λ _, Some "timed out"; ld_name := ld_name kept_drive; ld_root := "/d1"; ld_statvfs := ld_statvfs kept_drive;
     ld_disk := ld_disk kept_drive |}.
Definition new_meta : BucketMeta :=
  {| created_ms := 7; versioning_status := Unversioned; versioning_updated_ms := 0; object_lock_enabled := false |}.
Definition bucket_env : BucketEnv := {| be_now := 9; be_staging := "s" |}.

(** Two drives, one of them down; the object of the bucket is gone from the other. *)
Lemma create_bucket_destroys_witness : ∃ er e' b0 b1,
  create_bucket (SB := LocalDrive_backend two_to_vec two_from_slice sum_hash) (λ _, Ok []) (λ _, 0%Z) (λ _, 0%N) (λ _, "h")
    bucket_env (Ok put_lock) "photos" new_meta (pair_engine kept_drive dead_drive) = Some (Err er, e')
  ∧ backends_at e' (all_disks pair_cluster) = Ok [b0; b1]
  ∧ tree (ld_disk kept_drive) !! ["photos"; "k"] = Some (NFile [x01])
  ∧ tree (ld_disk b0) !! ["photos"; "k"] = None.
Proof.
  destruct (create_bucket_destroys two_to_vec two_from_slice sum_hash "photos" eq_refl (λ _, Ok []) (λ _, 0%Z) (λ _, 0%N) (λ _, "h")
    bucket_env put_lock new_meta (pair_engine kept_drive dead_drive) [true; false] [kept_drive; dead_drive])
    as (er & e' & bs' & Hrun & Hb & HF).
  - apply NoDup_singleton.
  - reflexivity.
  - discriminate.
  - constructor; [|constructor; [|constructor]].
    + split; [by intros k _|]. split; [reflexivity|]. split; [reflexivity|]. intros k.
      cbn [kept_drive ld_disk drive_of tree]. rewrite !lookup_insert_ne, lookup_singleton_ne by done. done.
    + intros k. by eexists.
  - vm_compute. lia.
  - inversion HF as [|? ? b0 ? ? bs1 H0 HF1]; subst. inversion HF1 as [|? ? b1 ? ? bs2 H1 HF2]; subst. inversion HF2; subst.
    exists er, e', b0, b1. split; [exact Hrun|]. split; [exact Hb|]. split; [reflexivity|]. exact (H0 ["k"]).
Defined.

#[local] Instance bucket_string_order : HashIter string := listed_order string.
#[local] Instance bucket_nat_order : HashIter nat := listed_order nat.
#[local] Instance bucket_bytes_order : HashIter (list byte) := listed_order (list byte).

#[local] Instance VersioningStatus_eq_dec : EqDecision VersioningStatus.
Proof. solve_decision. Defined.
#[local] Instance BucketMeta_eq_dec : EqDecision BucketMeta.
Proof. solve_decision. Defined.
Definition meta_vec (m : BucketMeta) : result string bytes := if decide (m = new_meta) then Ok [x07] else Err "another".
Definition meta_slice (b : bytes) : result string BucketMeta := if decide (b = [x07]) then Ok new_meta else Err "malformed".
Definition new_body : bytes := match meta_encode meta_vec (λ _, 5%Z) new_meta with Ok b => b | Err _ => [] end.
Definition meta_fis : list FileInfo :=
  inline_records 1 2 SYSTEM_BUCKET (bkt_meta_key "photos") (length new_body) [new_body] "h" 9 None NULL_VERSION_ID.
Definition meta_backend : StorageBackend LocalDrive :=
  LocalDrive_backend (table_to_vec ((λ fi, records_for [fi]) <$> meta_fis)) (table_from_slice ((λ fi, records_for [fi]) <$> meta_fis)) sum_hash.
Definition system_drive : LocalDrive :=
  drive_of {| tree := <[[SYSTEM_BUCKET] := NDir]> (<[[STAGING_VOL] := NDir]> {[[TRASH_DIRNAME] := NDir]}); ticks := 0 |}.

Definition meta_engine : Engine LocalDrive := pair_engine system_drive system_drive.

Lemma system_ready : Forall2 (local_ready (table_to_vec ((λ fi, records_for [fi]) <$> meta_fis))
  (table_from_slice ((λ fi, records_for [fi]) <$> meta_fis)) sum_hash SYSTEM_BUCKET (bkt_meta_key "photos"))
  meta_fis [system_drive; system_drive].
Proof.
  constructor; [|constructor; [|constructor]].
  all: split; [split; [by left|by left]|].
  all: exists None, []; split_and!; [split; reflexivity|intros r H; by apply elem_of_nil in H|].
  all: intros e He; vm_compute in He; injection He as <-; split; vm_compute; reflexivity.
Qed.

Definition stored_meta : option (StorageResult unit * Engine LocalDrive) :=
  put_bucket_meta (SB := meta_backend) meta_vec (λ _, 5%Z) (λ _, 0%N) (λ _, "h") bucket_env "photos" new_meta meta_engine.
Definition meta_drives : list DiskAddr := all_disks pair_cluster.
Definition meta_answers : list (IoResult FileInfo) :=
  match stored_meta with
  | Some (_, e) =>
      match backends_at e meta_drives with
      | Ok bs => match each (sb_read_version (StorageBackend := meta_backend) "" SYSTEM_BUCKET (bkt_meta_key "photos") None true) bs with Some (a, _) => a | None => [] end
      | Err _ => []
      end
  | None => []
  end.
Example meta_stored : ((λ r : StorageResult unit * Engine LocalDrive, r.1) <$> stored_meta, is_ok <$> meta_answers)
  = (Some (Ok ()), [true; true]).
Proof. vm_compute. reflexivity. Qed.

Definition no_files (_ : LocalDrive) : Get.backend RopeByteStream := λ vol path _ _, Err (FileNotFound vol path).

Lemma bucket_meta_roundtrip_witness : ∃ e' e'',
  stored_meta = Some (Ok (), e')
  ∧ get_bucket_meta (SB := meta_backend) meta_slice (λ _, 5%Z) (λ _, "") (λ _, 0%N) (λ b, b) no_files
      xor_codec "photos" e' = Some (Ok new_meta, e'').
Proof.
  pose (laws := LocalDrive_laws _ _ sum_hash (table_codec_roundtrip ((λ fi, records_for [fi]) <$> meta_fis))
    (table_codec_typed ((λ fi, records_for [fi]) <$> meta_fis)) STAGING_VOL "s" SYSTEM_BUCKET (bkt_meta_key "photos")
    eq_refl ltac:(discriminate) ltac:(discriminate)).
  destruct (bucket_meta_roundtrip (SB := meta_backend) (HL := laws) meta_vec meta_slice (λ _, 5%Z) (λ _, "") (λ _, 0%N) (λ b, b) (λ _, "h")
    no_files xor_codec bucket_env "photos" new_meta new_body meta_engine meta_drives
    [system_drive; system_drive]) as (r & e' & Hrun & Hok).
  - intros m b. unfold meta_vec, meta_slice. case_decide as Hm; [|discriminate]. intros [= <-]. rewrite Hm. by split.
  - intros _. split; [discriminate|reflexivity].
  - discriminate.
  - split; [vm_compute; lia..|]. apply NoDup_singleton.
  - vm_compute. lia.
  - vm_compute. reflexivity.
  - reflexivity.
  - reflexivity.
  - reflexivity.
  - exact system_ready.
  - change (stored_meta = Some (r, e')) in Hrun. pose proof (f_equal fst meta_stored) as Hp. cbn [fst] in Hp. rewrite Hrun in Hp.
    destruct r as [[]|er]; [|discriminate Hp]. destruct (Hok eq_refl) as (bs' & answers & bs'' & Hbs & Hread & Hget).
    assert (answers = meta_answers) as -> by (unfold meta_answers; rewrite Hrun, Hbs, Hread; reflexivity).
    exists e'. eexists. split; [exact Hrun|]. apply Hget; vm_compute; lia.
Defined.
