(* ===== verification/PutEc.v ===== *)
(** * Erasure-coded writes

    [Engine::put_ec] of [openlake_storage/src/engine.rs] with
    [open_staging_sinks] and [open_part_staging_sinks]: the stripes of the body
    go to a staged file on every drive of the set, and the staged directory is
    promoted with the metadata.  The class [ShardFiles] states what a kind of
    drive offers for that; local drives are an instance.  The codec, MD5, UUIDs
    and the clock are parameters. *)

From stdpp Require Import base gmap strings sorting pretty list.
From Stdlib Require Import Strings.Ascii.
From S2P Require Import Prelude Text Types Cluster Ec Streams EcStream Get Dsync Consensus XlMeta Fs LocalFs Backend Put Engine.

(** [create_file_writer], and the drive behind an open sink: the sink holds the
    drive from when it was opened until it is dropped. *)
Class ShardFiles (B K : Type) := {
  sf_create : string → string → nat → call B K;
  sf_drive : K → B
}.

Definition part1 : string := "part.1".
Definition ec_stripe_unit : nat := Z.to_nat DEFAULT_EC_PER_SHARD_BYTES.

Section put_ec.
Context {B : Type} `{SB : StorageBackend B} {K : Type} `{HK : ByteSink K} `{SF : ShardFiles B K}.
Context {St : Type} `{ByteStream St}.
Context (c : RsCodec) (md5 : bytes → string).

Definition open_part_staging_sinks (tmp_part_path : string) (per_shard_size : nat) (bs : list B) :
    option (IoResult (list K) * list B) :=
  '(rs, bs) ← each (sf_create STAGING_VOL tmp_part_path per_shard_size) bs;
  Some (collect rs, bs).
Definition open_staging_sinks (staging_id data_dir : string) (per_shard_size : nat) (bs : list B) :
    option (IoResult (list K) * list B) :=
  open_part_staging_sinks (staging_id +:+ "/" +:+ data_dir +:+ "/" +:+ part1) per_shard_size bs.

(** What follows the opening of the sinks in [put_ec] and [upload_part]: the
    stripes are written and the sinks finished. *)
Definition write_stripes (ec : Erasure) (src : St) (sz stripe_data stripes quorum : nat)
    (opened : IoResult (list K)) (bs : list B) : option (IoResult string * list B) :=
  match opened with
  | Err e => Some (Err e, bs)
  | Ok sinks =>
      '(r, sinks, _) ← encode_and_write_stripes c md5 ec src sz stripe_data stripes sinks;
      match r with
      | Err e => Some (Err e, sf_drive <$> sinks)
      | Ok etag =>
          let '(r, sinks) := finalize_sinks_quorum sinks quorum in
          Some (match r with Ok _ => Ok etag | Err e => Err e end, sf_drive <$> sinks)
      end
  end.

(** The record of an erasure-coded object. *)
Definition ec_base (bucket key : string) (sz d : nat) (etag : string) (mod_time : Z) (content_type : option string)
    (vid dd : string) : FileInfo :=
  set_ids vid dd (build_file_info bucket key (Z.of_nat sz) etag mod_time content_type None
    (single_part_info etag (Z.of_nat (shard_size sz d)) (Z.of_nat sz) mod_time)).

(** The body that a failure leaves early; the caller sweeps the staging area. *)
Definition put_ec_body (lock : LockGuard) (ec : Erasure) (parity : nat) (bucket key : string) (sz : nat) (src : St)
    (content_type : option string) (mod_time : Z) (vid dd staging_id : string) (bs : list B) (quorum : nat) :
    option (StorageResult ObjectInfo * list B) :=
  let n := length bs in
  let d := n - parity in
  let stripe_data := d * ec_stripe_unit in
  let stripes := Nat.max (div_ceil sz stripe_data) 1 in
  '(opened, bs) ← open_staging_sinks staging_id dd (stripes * ec_stripe_unit) bs;
  '(r, bs) ← write_stripes ec src sz stripe_data stripes quorum opened bs;
  match r with
  | Err e => Some (Err (map_bucket_or_io bucket e), bs)
  | Ok etag =>
      let base := ec_base bucket key sz d etag mod_time content_type vid dd in
      let fis := with_per_disk_index base (default_erasure_info (d mod 256) (parity mod 256) (n mod 256)) n in
      match check lock with
      | Err e => Some (Err e, bs)
      | Ok _ =>
          '(r, bs) ← promote_versions bs STAGING_VOL staging_id fis bucket key quorum;
          match r with
          | Err e => Some (Err e, bs)
          | Ok _ =>
              Some (Ok {| oi_bucket := bucket; oi_key := key; oi_size := Z.of_nat sz; oi_etag := etag;
                          oi_storage_class := Single; oi_modified_ms := mod_time; oi_content_type := content_type;
                          oi_version_id := vid; oi_is_delete_marker := false |}, bs)
          end
      end
  end.

Definition put_ec (lock : LockGuard) (parity : nat) (bucket key : string) (sz : nat) (src : St)
    (content_type : option string) (mod_time : Z) (vid dd staging_id : string) (bs : list B) (quorum : nat) :
    option (StorageResult ObjectInfo * list B) :=
  let n := length bs in
  if n <? parity then None
  else
    let d := n - parity in
    match Erasure_new d parity with
    | Err e => Some (Err (SIo (InvalidArgument ("EC init (" +:+ pretty d +:+ "+" +:+ pretty parity +:+ "): " +:+ io_msg e))), bs)
    | Ok ec =>
        '(r, bs) ← put_ec_body lock ec parity bucket key sz src content_type mod_time vid dd staging_id bs quorum;
        match r with
        | Ok info => Some (Ok info, bs)
        | Err e => bs ← cleanup_src STAGING_VOL staging_id bs; Some (Err e, bs)
        end
    end.
End put_ec.

#[global] Instance LocalDrive_shards : ShardFiles LocalDrive LocalFileSink := {|
  sf_create := create_file_writer;
  sf_drive := sk_drive
|}.

(** ** Lemmas: successful calls

    [fs_when P m Q]: when [m] succeeds from a tree that satisfies [P], the tree
    it leaves satisfies [Q] of its result. *)

Definition fs_when {E A : Type} (P : fstree → Prop) (m : Fs E A) (Q : A → fstree → Prop) : Prop :=
  ∀ d a d', P (tree d) → m d = Some (Ok a, d') → Q a (tree d').

Lemma when_bind {E A C : Type} P (m : Fs E A) Q (k : A → Fs E C) Q' :
  fs_when P m Q → (∀ a, fs_when (Q a) (k a) Q') → fs_when P (fs_bind m k) Q'.
Proof.
  intros Hm Hk d a d' Hd. unfold fs_bind, fs_match. destruct (m d) as [[[x|e] d1]|] eqn:E1; [|done..].
  apply Hk. by eapply Hm.
Qed.
(** A first step that keeps a property. *)
Lemma when_then {E A C : Type} X (P : fstree → Prop) (m : Fs E A) (k : A → Fs E C) Q' :
  framed X m → (∀ t t', same X t t' → P t → P t') → (∀ a, fs_when P (k a) Q') → fs_when P (fs_bind m k) Q'.
Proof.
  intros Hm HP Hk. eapply when_bind; [|exact Hk]. intros d a d' Hd E1. eapply HP; [|exact Hd].
  exact (fs_spec_elim _ _ _ _ _ _ _ (Hm (tree d)) (λ q _, eq_refl) E1).
Qed.
Lemma when_pre {E A : Type} (P P' : fstree → Prop) (m : Fs E A) Q : (∀ t, P' t → P t) → fs_when P m Q → fs_when P' m Q.
Proof. intros HP Hm d a d' Hd. apply Hm, HP, Hd. Qed.
Lemma when_spec {E A : Type} P (m : Fs E A) Q R : fs_spec P m Q R → fs_when P m Q.
Proof. intros Hm d a d' Hd E1. exact (fs_spec_elim _ _ _ _ _ _ _ Hm Hd E1). Qed.
(** The result of a call that no fault hits. *)
Lemma query_calm {A : Type} fault (f : fstree → result StdIoError A) d : (∀ k, fault k = None) →
  query fault f d = Some (f (tree d), {| tree := tree d; ticks := S (ticks d) |}).
Proof. intros Hf. unfold query, os_call. rewrite Hf. by destruct (f (tree d)). Qed.

(** ** Lemmas: the staged data moves with the metadata *)

Section graft.
Context (fault : nat → option string) (Hcalm : ∀ k, fault k = None).
Context (rmp_to_vec : OnDiskMeta → result string bytes) (rmp_from_slice : bytes → result string OnDiskMeta) (xxh64 : bytes → Z).
Context (sv sp : string) (fi : FileInfo) (dv dp : string) (file : string) (content : bytes).
Context (Hvol : sv ≠ dv) (Hdir : data_dir fi ≠ "") (Hmeta : data_dir fi ≠ META_FILENAME).

Let staged := file_path sv sp.
Let dst := file_path dv dp.

Definition data_staged (t : fstree) : Prop :=
  t !! (staged ++ [data_dir fi]) = Some NDir ∧ t !! (staged ++ [data_dir fi; file]) = Some (NFile content).
Definition data_live (t : fstree) : Prop := t !! (dst ++ [data_dir fi; file]) = Some (NFile content).

Let below (q : path) : Prop := q = staged ++ [data_dir fi] ∨ q = staged ++ [data_dir fi; file].
Let there (q : path) : Prop := q = dst ++ [data_dir fi; file].

Lemma staged_kept t t' : same below t t' → data_staged t → data_staged t'.
Proof. intros Hs [H1 H2]. split; (rewrite Hs; [done|]); [by left|by right]. Qed.
Lemma live_kept t t' : same there t t' → data_live t → data_live t'.
Proof. intros Hs H1. unfold data_live. by rewrite Hs. Qed.

Lemma below_shape q : below q → ∃ r, q = sv :: r ∧ ¬ q `prefix_of` staged ∧ ¬ q `prefix_of` [dv].
Proof.
  intros Hq. assert (∃ x r, q = staged ++ x :: r) as (x & r & ->) by (destruct Hq as [-> | ->]; eauto).
  eexists. split; [done|]. split; [|apply other_root; done].
  intros H%prefix_length. rewrite length_app in H. cbn in H. lia.
Qed.
Lemma there_shape q : there q → (∃ r, q = dv :: r) ∧ ¬ q `prefix_of` dst.
Proof. intros ->. split; [by eexists|]. intros H%prefix_length. rewrite length_app in H. cbn in H. lia. Qed.

Lemma write_synced_framed p c X : (∀ q, X q → q ≠ p) → framed X (write_synced fault p c).
Proof. intros HX. unfold write_synced. repeat (apply framed_bind; [auto with openlake|intros ?]). auto with openlake. Qed.

Lemma read_live_framed X : framed X (read_live fault rmp_from_slice xxh64 dv dp).
Proof.
  unfold read_live. apply framed_match; [apply framed_query|auto with openlake|]. intros e. destruct (io_kind e); auto with openlake.
Qed.

Lemma graft_rename : fs_when data_staged
  (fs_map_err Io (os_rename fault (file_path sv sp ++ [data_dir fi]) (file_path dv dp ++ [data_dir fi]))) (λ _, data_live).
Proof.
  apply (when_spec _ _ _ (λ _ _, True)), fs_spec_map_err, fs_spec_change; [done|]. fold staged dst.
  intros t [Hd Hf]. destruct (t_rename _ _ t) as [t'|] eqn:Er; [|done]. apply rename_ok in Er as [[Heq _]|[Hp ->]].
  { apply (f_equal head) in Heq. unfold staged, dst, file_path in Heq. cbn in Heq. congruence. }
  unfold data_live. rewrite lookup_move by done.
  rewrite decide_True by (exists [file]; by rewrite <-app_assoc). rewrite length_app, <-drop_drop, drop_app_length. cbn [length drop].
  by rewrite <-app_assoc.
Qed.

Lemma graft_moves : fs_when data_staged
  (rename_data fault rmp_to_vec rmp_from_slice xxh64 sv sp fi dv dp) (λ _, data_live).
Proof.
  unfold rename_data. destruct (negb _); [by intros d a d' _|].
  eapply when_then; [apply require_vol_framed; intros q Hq; by destruct (below_shape q Hq) as (? & _ & _ & ?)|exact staged_kept|].
  intros _. eapply when_then; [apply (read_live_framed below)|exact staged_kept|].
  intros [raw existing]. cbn [fst snd].
  eapply (when_bind _ _ (λ _, data_staged)).
  { intros d a d' Hd. unfold fs_encode. destruct (encode_versions _ _ _); [intros [= _ <-]; exact Hd|done]. }
  intros encoded. eapply when_then; [apply framed_map_err, framed_create_dir_all; intros q Hq;
    by destruct (below_shape q Hq) as (? & _ & ? & _)|exact staged_kept|].
  intros _. eapply when_then; [apply (write_synced_framed _ _ below)|exact staged_kept|].
  { intros q [-> | ->] H; apply app_inv_head in H; congruence. }
  intros _. eapply (when_bind _ _ (λ b t, b = true ∧ data_staged t)).
  { rewrite decide_False by done. intros d a d' [Hd Hf]. unfold fs_match, os_is_dir. rewrite (query_calm _ _ _ Hcalm).
    unfold t_is_dir. fold staged. rewrite Hd. by intros [= <- <-]. }
  intros [|]; [|by intros d a d' [[=] _]]. eapply (when_bind _ _ (λ _, data_live)).
  { apply (when_pre data_staged); [by intros t [_ H]|]. eapply when_then; [|exact staged_kept|intros _; exact graft_rename].
    apply framed_map_err, framed_create_dir_all. intros q Hq. destruct (below_shape q Hq) as (r & -> & _ & _). by apply other_root. }
  intros _. assert (framed there (fs_map_err Io (os_create_dir_all fault dst))) as Hmk.
  { apply framed_map_err, framed_create_dir_all. intros q Hq. by destruct (there_shape q Hq). }
  eapply when_then; [|exact live_kept|intros _].
  { destruct (prior_of existing fi), raw; try apply framed_ret. apply framed_bind; [exact Hmk|intros _].
    apply write_synced_framed. intros q -> H. apply app_inv_head in H. congruence. }
  eapply when_then; [exact Hmk|exact live_kept|intros _].
  eapply when_then; [apply framed_map_err, (framed_rename _ there)|exact live_kept|intros _].
  { intros q ->. split; [by apply other_root|]. fold dst. intros H%snoc_prefix_inv. congruence. }
  eapply when_then; [auto with openlake|exact live_kept|intros _].
  eapply when_then; [apply framed_ignore, (framed_remove_dir _ there)|exact live_kept|intros _].
  { intros q -> H. apply (f_equal head) in H. unfold dst, file_path in H. cbn in H. congruence. }
  by intros d a d' Hd [= _ <-].
Qed.

(** A promotion leaves the directory of the volume. *)
Lemma graft_volume : fs_when (λ _, True) (rename_data fault rmp_to_vec rmp_from_slice xxh64 sv sp fi dv dp) (λ _ t, t !! [dv] = Some NDir).
Proof.
  unfold rename_data. destruct (negb _); [by intros d a d' _|].
  do 8 (eapply (when_bind _ _ (λ _ _, True)); [done|intros ?]).
  eapply (when_bind _ _ (λ _ t, t !! [dv] = Some NDir)); [|intros _].
  { apply (when_spec _ _ _ (λ _ _, True)), fs_spec_map_err, fs_spec_change; [done|]. intros t _.
    destruct (t_create_dir_all _ _ t) as [t'|] eqn:Et; [|done]. rewrite (t_create_dir_all_lookup _ _ _ _ _ Et).
    rewrite bool_decide_true; [done|]. split_and!; [apply prefix_nil|done|]. by exists (segments dp). }
  assert (∀ t t', same (λ q, q = [dv]) t t' → t !! [dv] = Some NDir → t' !! [dv] = Some NDir) as Hk by (intros t t' Hs; by rewrite Hs).
  eapply when_then; [apply framed_map_err, framed_rename|exact Hk|intros _].
  { intros q ->. split; [by apply other_root|]. intros H%prefix_length. unfold file_path in H. cbn in H. rewrite length_app in H. cbn in H. lia. }
  eapply when_then; [auto with openlake|exact Hk|intros _].
  eapply when_then; [apply framed_ignore, framed_remove_dir|exact Hk|intros _].
  { intros q -> H. apply (f_equal head) in H. unfold file_path in H. cbn in H. congruence. }
  by intros d r d' Hd [= _ <-].
Qed.
End graft.

(** ** Local drives promote the shard files *)

Lemma segments_cons a b : segments (a +:+ "/" +:+ b) = segments a ++ segments b.
Proof. unfold segments. change (a +:+ "/" +:+ b) with (a +:+ String "/" b). by rewrite split_char_app, list.filter_app. Qed.

Section ec_laws.
Context (rmp_to_vec : OnDiskMeta → result string bytes) (rmp_from_slice : bytes → result string OnDiskMeta) (xxh64 : bytes → Z).
Context (rmp_roundtrip : ∀ m b, rmp_to_vec m = Ok b → rmp_from_slice b = Ok m).
Context (rmp_typed : ∀ b m, rmp_from_slice b = Ok m → Forall typed_version m).
Context (sv sp bucket key : string).
Context (Hsv : is_system_vol sv = true) (Hbucket : is_system_vol bucket = false) (Htrash : bucket ≠ TRASH_DIRNAME).
(** The shard file of each slot. *)
Context (shard : nat → bytes).

(** No call of the drive fails. *)
Definition calm (b : LocalDrive) : Prop := ∀ k, ld_fault b k = None.

Definition shard_of (fi : FileInfo) : bytes := shard (index (erasure fi)).
Definition ec_ready (fi : FileInfo) (b : LocalDrive) : Prop :=
  local_ready rmp_to_vec rmp_from_slice xxh64 bucket key fi b ∧ calm b ∧ data_dir fi ≠ ""
  ∧ data_staged sv sp fi part1 (shard_of fi) (tree (ld_disk b)).
Definition ec_published (fi : FileInfo) (b : LocalDrive) : Prop :=
  local_published rmp_from_slice xxh64 bucket key fi b ∧ canonical_id "" (data_dir fi) ∧ data_dir fi ≠ ""
  ∧ data_live fi bucket key part1 (shard_of fi) (tree (ld_disk b)) ∧ tree (ld_disk b) !! [bucket] = Some NDir.

Lemma sv_ne_bucket : sv ≠ bucket.
Proof. intros ->. congruence. Qed.

(** What a drive has published depends on its tree only. *)
Lemma ec_published_tree fi b b' : tree (ld_disk b') = tree (ld_disk b) → ec_published fi b → ec_published fi b'.
Proof. intros Ht (P1 & P2 & P3 & P4 & P5). split_and!; [|done|done|by rewrite Ht..]. unfold local_published in *. by rewrite Ht. Qed.

#[local] Instance ec_laws_meta :
  PromotionLaws LocalDrive (HB := LocalDrive_backend rmp_to_vec rmp_from_slice xxh64) sv sp bucket key :=
  LocalDrive_laws rmp_to_vec rmp_from_slice xxh64 rmp_roundtrip rmp_typed sv sp bucket key Hsv sv_ne_bucket Htrash.

(** A recursive delete of something else keeps what is known of a path. *)
Lemma delete_keeps_node q v p b r b' n :
  v = bucket ∨ ¬ q `prefix_of` [v] → ¬ file_path v p `prefix_of` q → ¬ [TRASH_DIRNAME] `prefix_of` q →
  tree (ld_disk b) !! q = n → on_disk (LocalFs.delete (ld_fault b) (ld_name b) v p true) b = Some (r, b') →
  tree (ld_disk b') !! q = n.
Proof.
  intros Hv Hp Ht Hd E.
  assert (framed (λ q', q' = q) (LocalFs.delete (ld_fault b) (ld_name b) v p true)) as Hf.
  { unfold LocalFs.delete. apply framed_bind; [|intros _].
    { destruct Hv as [->|Hv]; [|apply require_vol_framed; by intros q' ->]. unfold require_vol. rewrite Hbucket.
      apply framed_match; [apply framed_query|intros []; auto with openlake|auto with openlake]. }
    apply framed_bind; [apply framed_map_err, framed_query|]. intros [].
    - apply framed_map_err. intros t0 d Hd'. unfold move_to_trash. apply framed_rename; [|done].
      intros q' ->. split; [done|]. intros [l ->]. apply Ht. by eexists (_ :: l).
    - apply framed_map_err, framed_remove_file. intros q' -> ->. by apply Hp. }
  destruct (on_disk_spec _ _ _ _ b (framed_at _ _ _ Hf) Hd) as (r2 & b2 & E2 & Hr). rewrite E in E2. injection E2 as <- <-. by destruct r.
Qed.

Lemma stale_data_outside fi dd : canonical_id "" dd → dd ≠ "" → dd ≠ data_dir fi →
  ¬ file_path bucket (key +:+ "/" +:+ dd) `prefix_of` (file_path bucket key ++ [data_dir fi; part1]).
Proof.
  intros Hc Hne Hd. destruct (canonical_segments dd Hc Hne) as (Hs & _ & _).
  unfold file_path, segments in *. change (key +:+ "/" +:+ dd) with (key +:+ String "/" dd). rewrite split_char_app, list.filter_app, Hs.
  intros H%prefix_cons_inv_2. by apply snoc_prefix_inv in H.
Qed.

Definition LocalDrive_ec_laws :
  PromotionLaws LocalDrive (HB := LocalDrive_backend rmp_to_vec rmp_from_slice xxh64) sv sp bucket key.
Proof.
  refine (Build_PromotionLaws LocalDrive (LocalDrive_backend rmp_to_vec rmp_from_slice xxh64) sv sp bucket key
    ec_ready ec_published _ (undo_total (PromotionLaws := ec_laws_meta)) (delete_total (PromotionLaws := ec_laws_meta)) _ _ _).
  - intros fi b (Hr & Hcalm & Hne & Hst). destruct (rename_publishes (PromotionLaws := ec_laws_meta) fi b Hr) as (r & b' & E & Hok). exists r, b'. split; [done|].
    intros resp ->. destruct (Hok resp eq_refl) as [Hp Hcan]. split; [|done]. destruct Hr as [[_ Hdd] _].
    destruct (canonical_segments _ Hdd Hne) as (_ & Hm & _).
    cbn in E. unfold on_disk in E. destruct (rename_data _ _ _ _ _ _ _ _ _ _) as [[r0 d0]|] eqn:Er; [|done].
    cbn in E. injection E as -> <-.
    split_and!; [exact Hp|done|done| |].
    + exact (graft_moves (ld_fault b) Hcalm rmp_to_vec rmp_from_slice xxh64 sv sp fi bucket key part1 (shard_of fi)
        sv_ne_bucket Hne Hm _ _ _ Hst Er).
    + exact (graft_volume (ld_fault b) rmp_to_vec rmp_from_slice xxh64 sv sp fi bucket key sv_ne_bucket _ _ _ I Er).
  - intros fi b r b' (Hp & Hc & Hne & Hd & Hv) E. split_and!; [by eapply (sweep_keeps (PromotionLaws := ec_laws_meta))|done|done|..].
    all: eapply delete_keeps_node; [right; apply other_root; intros Heq; by apply sv_ne_bucket|by apply other_root, sv_ne_bucket
      |apply other_root; congruence|done|exact E].
  - intros fi b r b' dd (Hp & Hc & Hne & Hd & Hv) Hdd Hne' Hdiff E.
    split_and!; [by eapply (stale_keeps (PromotionLaws := ec_laws_meta))|done|done|..].
    all: eapply delete_keeps_node; [by left| |apply other_root; congruence|done|exact E].
    { by apply stale_data_outside. }
    intros H%prefix_length. unfold file_path in H. rewrite segments_cons, length_cons, length_app in H.
    destruct (canonical_segments dd Hdd Hne') as (Hs & _ & _). rewrite Hs in H. cbn in H. lia.
  - intros fi b (Hp & _). exact (read_published (PromotionLaws := ec_laws_meta) fi b Hp).
Defined.
End ec_laws.

(** ** Lemmas: staging on local drives *)

(** What happens to the drive of a sink between two of its calls: only the file
    of the sink changes. *)
Record later (k k' : LocalFileSink) : Prop := {
  later_path : sk_path k' = sk_path k;
  later_expected : sk_expected k' = sk_expected k;
  later_fault : ld_fault (sk_drive k') = ld_fault (sk_drive k);
  later_ok : sink_ok k → sink_ok k';
  later_tree : ∀ q, q ≠ sk_path k → tree (ld_disk (sk_drive k')) !! q = tree (ld_disk (sk_drive k)) !! q
}.
#[export] Instance later_preorder : PreOrder later.
Proof.
  split; [by constructor|]. intros k1 k2 k3 [P1 E1 F1 O1 T1] [P2 E2 F2 O2 T2]. split; try congruence; [auto|].
  intros q Hq. rewrite T2 by congruence. by apply T1.
Qed.

Lemma on_disk_drive {A} (m : Fs IoError A) b r b' : on_disk m b = Some (r, b') → ld_fault b' = ld_fault b ∧ ld_name b' = ld_name b.
Proof. unfold on_disk. destruct (m _) as [[r0 d]|]; [|done]. by intros [= _ <-]. Qed.

Lemma sink_call_drive f k : ld_fault (sink_call f k).2 = ld_fault (sk_drive k).
Proof.
  unfold sink_call. destruct (on_disk _ _) as [[r b]|] eqn:E; [|done]. by destruct (on_disk_drive _ _ _ _ E).
Qed.

Lemma write_later s k : later k (write_all s k).2.
Proof.
  cbn. destruct (sink_write_all s k) as [r k'] eqn:E. cbn [snd].
  assert (sk_path k' = sk_path k ∧ sk_expected k' = sk_expected k ∧ ld_fault (sk_drive k') = ld_fault (sk_drive k)
    ∧ ∀ q, q ≠ sk_path k → tree (ld_disk (sk_drive k')) !! q = tree (ld_disk (sk_drive k)) !! q) as (H1 & H2 & H3 & H4).
  { revert E. unfold sink_write_all. destruct (length s =? 0); [by intros [= _ <-]|]. destruct (sk_open k); [|by intros [= _ <-]].
    pose proof (sink_call_spec (t_write_at (sk_path k) (sk_pos k) s) k) as Hs.
    pose proof (sink_call_drive (t_write_at (sk_path k) (sk_pos k) s) k) as Hf.
    destruct (sink_call _ k) as [r1 b1]. intros [= _ <-]. cbn in *. split_and!; [done..|]. intros q Hq. destruct r1 as [u|e].
    - unfold t_write_at in Hs. destruct (t_read _ _); [|done]. cbn in Hs. injection Hs as <-. by rewrite lookup_insert_ne.
    - by rewrite Hs. }
  split; [done..| |done]. intros Hk. by destruct (sink_write_keeps _ _ _ _ Hk E).
Qed.

Lemma finish_later k : later k (finish k).2.
Proof.
  cbn. unfold sink_finish. case_bool; [by constructor|]. destruct (sk_open k); [|by constructor].
  pose proof (sink_call_spec Ok k) as H1. pose proof (sink_call_drive Ok k) as F1. destruct (sink_call Ok k) as [r1 b1]. cbn in F1.
  set (k1 := {| sk_drive := b1; sk_path := sk_path k; sk_open := false; sk_pos := sk_pos k; sk_expected := sk_expected k;
                sk_written := sk_written k |}).
  assert (tree (ld_disk b1) = tree (ld_disk (sk_drive k))) as T1 by (destruct r1; [by injection H1|done]).
  assert (later k k1) as L1.
  { split; [done..| |by intros; cbn; rewrite T1]. intros (Hw & c & Hc & Hl). split; [done|]. exists c. split; [|done].
    unfold file_at in *. cbn. by rewrite T1. }
  destruct r1 as [u|e]; [|exact L1].
  pose proof (sink_call_spec Ok k1) as H2. pose proof (sink_call_drive Ok k1) as F2. destruct (sink_call Ok k1) as [r2 b2]. cbn in F2.
  assert (tree (ld_disk b2) = tree (ld_disk b1)) as T2 by (destruct r2; [by injection H2|done]).
  etrans; [exact L1|]. cbn [snd]. split; [done..| |by intros; cbn; rewrite T2]. intros (Hw & c & Hc & Hl). split; [done|]. exists c. split; [|done].
  unfold file_at in *. cbn. by rewrite T2.
Qed.

(** A file that was just created: nothing outside of the volume has changed, and
    its directory is there. *)
Lemma create_file_writer_frame v p sz b k b' bucket : create_file_writer v p sz b = Some (Ok k, b') →
  v ≠ bucket → segments p ≠ [] →
  sk_drive k = b' ∧ ld_fault b' = ld_fault b ∧ dir_at (tree (ld_disk b')) (parent (file_path v p)) = true
  ∧ ∀ q, tree (ld_disk b') !! (bucket :: q) = tree (ld_disk b) !! (bucket :: q).
Proof.
  intros E Hne Hp. unfold create_file_writer in E. set (m := fs_bind _ _) in E.
  destruct (on_disk m b) as [[[u|e] b1]|] eqn:Em; [|done..]. injection E as <- <-. split; [done|].
  destruct (on_disk_drive _ _ _ _ Em) as [Hf _]. split; [done|].
  unfold on_disk in Em. destruct (m (ld_disk b)) as [[r d]|] eqn:Ed; [|done]. cbn in Em. injection Em as -> <-.
  set (X := λ q : path, ∃ r, q = bucket :: r).
  assert (framed X m) as HF.
  { assert (∀ q r, X q → ¬ q `prefix_of` v :: r) as HX by (intros q r [q' ->]; apply other_root; congruence).
    apply framed_bind; [apply require_vol_framed; intros q Hq; by apply HX|intros _].
    apply framed_bind; [apply framed_map_err, framed_create_dir_all|intros _].
    { intros q Hq. unfold parent, file_path. destruct (segments p) as [|s l]; [done|]. cbn [length].
      replace (S (S (length l)) - 1) with (S (length l)) by lia. by apply HX. }
    apply framed_map_err, framed_create. intros q [q' ->] H. unfold file_path in H. congruence. }
  split.
  - assert (fs_when (λ _, True) m (λ _ t, dir_at t (parent (file_path v p)) = true)) as Hw; [|by eapply Hw].
    eapply (when_bind _ _ (λ _ _, True)); [done|intros _].
    eapply (when_bind _ _ (λ _ t, dir_at t (parent (file_path v p)) = true)).
    { apply (when_spec _ _ _ (λ _ _, True)), fs_spec_map_err, fs_spec_change; [done|]. intros t _.
      destruct (t_create_dir_all _ _ t) as [t'|] eqn:Et; [|done]. by eapply create_dir_all_dir. }
    intros _. apply (when_spec _ _ _ (λ _ _, True)), fs_spec_map_err, fs_spec_change; [done|]. intros t Ht.
    destruct (t_write _ _ t) as [t'|] eqn:Et; [|done]. apply write_ok in Et as ->. revert Ht. unfold dir_at.
    destruct (parent (file_path v p)) eqn:Epar; [done|]. rewrite lookup_insert_ne; [done|]. rewrite <-Epar. intros Heq.
    apply (f_equal length) in Heq. unfold parent in Heq. rewrite length_take in Heq. unfold file_path in Heq. cbn in Heq. lia.
  - intros q. apply (fs_spec_elim _ _ _ _ _ _ _ (HF (tree (ld_disk b))) (λ q _, eq_refl) Ed). by exists q.
Qed.

Lemma create_total v p sz b : is_Some (create_file_writer v p sz b).
Proof.
  unfold create_file_writer. set (m := fs_bind _ _).
  assert (framed (λ _, False) m) as Hf.
  { apply framed_bind; [by apply require_vol_framed|intros _]. apply framed_bind; [by apply framed_map_err, framed_create_dir_all|intros _].
    by apply framed_map_err, framed_create. }
  destruct (Hf ∅ (ld_disk b)) as (r & d & E & _); [by intros q []|]. unfold on_disk. rewrite E. by destruct r.
Qed.

Lemma require_quorum_all {A} (rs : list (IoResult A)) : require_quorum rs (length rs) (λ _, false) = Ok () →
  Forall (λ r, is_ok r = true) rs.
Proof.
  unfold require_quorum. rewrite quorum_scan_spec. cbn [plus]. case_bool; [|done]. to_prop. intros _.
  assert (∀ l : list (IoResult A), length l ≤ accepts (λ _, false) l → Forall (λ r, is_ok r = true) l) as Hall; [|by apply Hall].
  unfold accepts. induction l as [|r l IH]; [constructor|]. rewrite filter_cons.
  pose proof (length_filter (λ r : IoResult A, accepted (λ _, false) r = true) l) as Hl.
  destruct r as [a|e]; [rewrite decide_True by done|rewrite decide_False by done]; cbn [length]; intros Hle; [|lia].
  constructor; [done|]. apply IH. lia.
Qed.

Section stage.
Context (c : RsCodec) (md5 : bytes → string) (ec : Erasure) (bucket staging_id dd : string).
Context (Hlay : layout_ok c ec ec_stripe_unit) (Hne : STAGING_VOL ≠ bucket).
Context (Hdd : segments dd = [dd]).
Context {St : Type} `{ByteStream St}.

Let sd := data_shards ec * ec_stripe_unit.
Let where_ := file_path STAGING_VOL staging_id ++ [dd; part1].

Lemma staged_path : file_path STAGING_VOL (staging_id +:+ "/" +:+ dd +:+ "/" +:+ part1) = where_.
Proof. unfold where_, file_path. by rewrite !segments_cons, Hdd. Qed.

(** The drive of slot [i] after the stripes were written: the bucket is as it
    was, and the file holds the slot's shards. *)
Record staged_shard (file : bytes) (b b' : LocalDrive) : Prop := {
  ss_fault : ld_fault b' = ld_fault b;
  ss_bucket : ∀ q, tree (ld_disk b') !! (bucket :: q) = tree (ld_disk b) !! (bucket :: q);
  ss_dir : tree (ld_disk b') !! (file_path STAGING_VOL staging_id ++ [dd]) = Some NDir;
  ss_file : tree (ld_disk b') !! where_ = Some (NFile file)
}.

Lemma opened_sink sz b k b' : create_file_writer STAGING_VOL (staging_id +:+ "/" +:+ dd +:+ "/" +:+ part1) sz b = Some (Ok k, b') →
  sink_ok k ∧ sink_content k = [] ∧ sk_path k = where_ ∧ ld_fault (sk_drive k) = ld_fault b
  ∧ (∀ q, tree (ld_disk (sk_drive k)) !! (bucket :: q) = tree (ld_disk b) !! (bucket :: q))
  ∧ tree (ld_disk (sk_drive k)) !! (file_path STAGING_VOL staging_id ++ [dd]) = Some NDir.
Proof.
  intros E. destruct (create_file_writer_spec _ _ _ _ _ _ E) as (H1 & H2 & H3 & _). rewrite staged_path in H3.
  destruct (create_file_writer_frame _ _ _ _ _ _ bucket E Hne) as (-> & F1 & F2 & F3).
  { rewrite !segments_cons, Hdd. by destruct (segments staging_id). }
  split_and!; [done..|]. rewrite staged_path in F2. unfold where_ in F2.
  change [dd; part1] with ([dd] ++ [part1]) in F2. rewrite app_assoc, parent_snoc in F2. unfold dir_at in F2.
  destruct (file_path STAGING_VOL staging_id ++ [dd]) eqn:Ep; [by destruct (file_path STAGING_VOL staging_id)|].
  by apply bool_decide_eq_true in F2.
Qed.

Lemma finished_shard file b k k' k'' : later k k' → finish k' = (Ok (), k'') → sink_ok k → sk_path k = where_ →
  sink_content k' = file → ld_fault (sk_drive k) = ld_fault b →
  (∀ q, tree (ld_disk (sk_drive k)) !! (bucket :: q) = tree (ld_disk b) !! (bucket :: q)) →
  tree (ld_disk (sk_drive k)) !! (file_path STAGING_VOL staging_id ++ [dd]) = Some NDir →
  staged_shard file b (sk_drive k'').
Proof.
  intros L Hfin Hk Hp Hc Hf Hb Hd. pose proof (finish_later k') as L'. rewrite Hfin in L'. cbn [snd] in L'.
  assert (later k k'') as L2 by (by etrans). pose proof (later_ok _ _ L Hk) as Hk'.
  destruct (Hk') as (_ & f & Hff & _). assert (f = file) as -> by (by rewrite <-Hc, (sink_ok_content k' f Hk' Hff)).
  destruct (sink_finish_spec k' k'' file Hk' Hff Hfin) as [_ Hfile].
  assert (∀ q, q ≠ where_ → tree (ld_disk (sk_drive k'')) !! q = tree (ld_disk (sk_drive k)) !! q) as Ht.
  { intros q Hq. apply (later_tree _ _ L2). by rewrite Hp. }
  split.
  - by rewrite (later_fault _ _ L2).
  - intros q. rewrite Ht; [apply Hb|]. unfold where_, file_path. cbn. congruence.
  - rewrite Ht; [done|]. unfold where_. intros Heq. apply app_inv_head in Heq. done.
  - rewrite (later_path _ _ L), Hp in Hfile. unfold file_at in Hfile. by destruct (_ !! where_) as [[]|]; simplify_eq.
Qed.

Lemma open_sinks_spec sz (bs : list LocalDrive) : ∃ opened bs1, open_staging_sinks staging_id dd sz bs = Some (opened, bs1)
  ∧ length bs1 = length bs
  ∧ ∀ sinks, opened = Ok sinks → Forall2 (λ b k, ∃ b', create_file_writer STAGING_VOL (staging_id +:+ "/" +:+ dd +:+ "/" +:+ part1) sz b
                                                = Some (Ok k, b')) bs sinks.
Proof.
  unfold open_staging_sinks, open_part_staging_sinks. cbn [sf_create LocalDrive_shards].
  destruct (each_spec (create_file_writer STAGING_VOL (staging_id +:+ "/" +:+ dd +:+ "/" +:+ part1) sz) (λ _, True)
    (λ r b b', create_file_writer STAGING_VOL (staging_id +:+ "/" +:+ dd +:+ "/" +:+ part1) sz b = Some (r, b')) bs)
    as (rs & bs1 & E & HF); [|by apply Forall_true|].
  { intros b _. destruct (create_total STAGING_VOL (staging_id +:+ "/" +:+ dd +:+ "/" +:+ part1) sz b) as [[r b'] E]. by exists r, b'. }
  rewrite E. cbn [mbind option_bind]. eexists _, _. split; [done|]. split; [by rewrite <-(Forall3_length_lr _ _ _ _ HF), (Forall3_length_lm _ _ _ _ HF)|].
  intros sinks ->%collect_ok_inv. clear E. revert bs bs1 HF. induction sinks as [|k sinks IH]; intros bs bs1 HF; inversion HF; subst;
    [constructor|]. constructor; [by eexists|by eapply IH].
Qed.

(** The shard file of slot [i]. *)
Definition shard_bytes (sz : nat) (body : bytes) (i : nat) : bytes :=
  shard_file c ec i (stripes_of sd (Nat.max (div_ceil sz sd) 1) (take sz body)).

Lemma stage_spec sz (src : St) body (bs : list LocalDrive) : let stripes := Nat.max (div_ceil sz sd) 1 in
  yields src body → sz ≤ length body → length bs = data_shards ec + parity_shards ec →
  ∃ opened bs1 r bs2, open_staging_sinks staging_id dd (stripes * ec_stripe_unit) bs = Some (opened, bs1)
    ∧ write_stripes c md5 ec src sz sd stripes (length bs) opened bs1 = Some (r, bs2)
    ∧ length bs2 = length bs
    ∧ ∀ etag, r = Ok etag → etag = md5 (take sz body)
        ∧ ∀ i b b', bs !! i = Some b → bs2 !! i = Some b' → staged_shard (shard_bytes sz body i) b b'.
Proof.
  intros stripes Hy Hsz Hl. destruct (open_sinks_spec (stripes * ec_stripe_unit) bs) as (opened & bs1 & Ho & Hl1 & Hop).
  exists opened, bs1. destruct opened as [sinks|e]; [|by exists (Err e), bs1].
  specialize (Hop sinks eq_refl). pose proof (Forall2_length _ _ _ Hop) as Hls.
  pose proof Hlay as (Hm & Hn & Hu & He).
  destruct (stripe_loop_spec c ec ec_stripe_unit Hm Hn Hu He sz stripes 0 [] [] src body sinks) as (r & sinks' & src' & Hrun & Hr);
    [done|lia|cbn; lia|rewrite Nat.sub_0_r; by apply (stripes_cover c)|lia|].
  rewrite Nat.sub_0_r in Hr. cbn [app] in Hr. fold sd in Hrun, Hr.
  assert (Forall2 later sinks sinks') as Hlater.
  { eapply (stripe_loop_history c ec later); [apply write_later|exact Hrun]. }
  pose proof (Forall2_length _ _ _ Hlater) as Hls'.
  unfold write_stripes, encode_and_write_stripes. rewrite Hrun. cbn [mbind option_bind].
  destruct r as [hashed|e]; [|eexists _, _; split; [done|]; split; [done|]; split; [by rewrite length_fmap; lia|done]].
  destruct Hr as (-> & _ & Hw). destruct (finalize_sinks_quorum sinks' (length bs)) as [rq sinks''] eqn:Hfin.
  unfold finalize_sinks_quorum in Hfin. injection Hfin as Hrq Hs''.
  eexists _, _. split; [done|]. split; [done|]. split; [by rewrite length_fmap, <-Hs'', !length_fmap; lia|].
  intros etag. destruct rq as [[]|e]; [|done]. intros [= <-]. split; [done|]. intros i b b' Hb Hb'.
  destruct (Forall2_lookup_l _ _ _ _ _ Hop Hb) as (k & Hk & b0 & Hcreate). destruct (Hw i k Hk) as (k' & Hk' & Hcont).
  pose proof (Forall2_lookup_lr _ _ _ _ _ _ Hlater Hk Hk') as L.
  destruct (opened_sink _ _ _ _ Hcreate) as (H1 & H2 & H3 & H4 & H5 & H6).
  rewrite <-Hs'', !list_lookup_fmap, Hk' in Hb'. cbn [fmap option_fmap option_map] in Hb'. injection Hb' as <-.
  destruct (finish k') as [rf k''] eqn:Ek. cbn [snd].
  assert (rf = Ok ()) as ->.
  { assert (length ((finish <$> sinks').*1) = length bs) as Hq by (rewrite !length_fmap; lia).
    rewrite <-Hq in Hrq. apply require_quorum_all in Hrq. rewrite Forall_lookup in Hrq.
    specialize (Hrq i rf). rewrite !list_lookup_fmap, Hk' in Hrq. cbn [fmap option_fmap option_map] in Hrq. rewrite Ek in Hrq.
    specialize (Hrq eq_refl). by destruct rf as [[]|]. }
  change (sink_finish k') with (finish k'). rewrite Ek. cbn [snd]. refine (finished_shard _ b k k' k'' L Ek H1 H3 _ H4 H5 H6).
  change (sink_content k') with (written k'). rewrite Hcont. change (written k) with (sink_content k). by rewrite H2.
Qed.
End stage.

(** ** Lemmas: the whole write *)

Lemma stripe_unit_512 : ec_stripe_unit = 2048 * 512.
Proof. unfold ec_stripe_unit, DEFAULT_EC_PER_SHARD_BYTES. lia. Qed.

Section write.
Context (rmp_to_vec : OnDiskMeta → result string bytes) (rmp_from_slice : bytes → result string OnDiskMeta) (xxh64 : bytes → Z).
Context (rmp_roundtrip : ∀ m b, rmp_to_vec m = Ok b → rmp_from_slice b = Ok m).
Context (rmp_typed : ∀ b m, rmp_from_slice b = Ok m → Forall typed_version m).
Context (c : RsCodec) (md5 : bytes → string) (bucket key : string).
Context (Hbucket : is_system_vol bucket = false) (Htrash : bucket ≠ TRASH_DIRNAME).
Context (parity n sz : nat) (body : bytes) (content_type : option string) (mod_time : Z) (vid dd staging_id : string).
Context (Hn : 0 < n < 256) (Hpar : 0 < parity) (Hpar2 : 2 * parity ≤ n).
Context (Hdd : canonical_id "" dd) (Hdd_ne : dd ≠ "").

Let ec : Erasure := {| data_shards := n - parity; parity_shards := parity |}.
Context (Hmds : rs_mds c (n - parity) parity ec_stripe_unit).

#[local] Instance write_backend : StorageBackend LocalDrive := LocalDrive_backend rmp_to_vec rmp_from_slice xxh64.
Definition ec_record : FileInfo := ec_base bucket key sz (n - parity) (md5 (take sz body)) mod_time content_type vid dd.
(** The shard file by the slot that the record names. *)
Definition slot_shard (index : nat) : bytes := shard_bytes c ec sz body (index - 1).
#[local] Instance write_laws : PromotionLaws LocalDrive STAGING_VOL staging_id bucket key :=
  LocalDrive_ec_laws rmp_to_vec rmp_from_slice xxh64 rmp_roundtrip rmp_typed STAGING_VOL staging_id bucket key
    eq_refl Hbucket Htrash slot_shard.

Lemma write_layout : layout_ok c ec ec_stripe_unit.
Proof.
  split_and!; [exact Hmds|cbn; lia|rewrite stripe_unit_512; lia|]. rewrite stripe_unit_512.
  replace (2048 * 512) with (2048 * 256 * 2) by lia. apply Nat.Div0.mod_mul.
Qed.

Lemma ready_elsewhere fi b b' :
  (∀ q, tree (ld_disk b') !! (bucket :: q) = tree (ld_disk b) !! (bucket :: q)) →
  local_ready rmp_to_vec rmp_from_slice xxh64 bucket key fi b → local_ready rmp_to_vec rmp_from_slice xxh64 bucket key fi b'.
Proof.
  intros Hq (Hc & raw & ex & Hl & Hrest). split; [done|]. exists raw, ex. split; [|done]. unfold live_at in *.
  unfold file_path in *. cbn in *. by rewrite Hq.
Qed.

Lemma staged_ready (bs bs2 : list LocalDrive) : length bs = n → length bs2 = n →
  Forall calm bs →
  Forall2 (local_ready rmp_to_vec rmp_from_slice xxh64 bucket key) (set_records parity n ec_record) bs →
  (∀ i b b', bs !! i = Some b → bs2 !! i = Some b' → staged_shard bucket staging_id dd (shard_bytes c ec sz body i) b b') →
  Forall2 ready (set_records parity n ec_record) bs2.
Proof.
  intros Hl Hl2 Hcalm Hr Hst. apply Forall2_same_length_lookup_2; [by rewrite length_set_records|].
  intros i fi b' Hfi Hb'. destruct (lookup_lt_is_Some_2 bs i) as [b Hb]; [apply lookup_lt_Some in Hb'; lia|].
  destruct (Hst i b b' Hb Hb') as [F1 F2 F3 F4]. pose proof (Forall2_lookup_lr _ _ _ _ _ _ Hr Hfi Hb) as Hrdy.
  unfold set_records, with_per_disk_index in Hfi. rewrite list_lookup_fmap in Hfi.
  destruct (seq 0 n !! i) as [j|] eqn:Ej; [|done]. apply lookup_seq in Ej as [-> Hi]. injection Hfi as <-.
  split; [by eapply ready_elsewhere|]. split; [intros k; rewrite F1; rewrite Forall_lookup in Hcalm; by apply (Hcalm i b Hb)|].
  split; [exact Hdd_ne|]. split; [exact F3|].
  assert (slot_shard ((i + 1) mod 256) = shard_bytes c ec sz body i) as Hs.
  { rewrite Nat.mod_small by lia. unfold slot_shard. f_equal. lia. }
  rewrite <-Hs in F4. exact F4.
Qed.

Lemma put_ec_spec {St} `{ByteStream St} (lock : LockGuard) (src : St) (bs : list LocalDrive) :
  length bs = n → yields src body → sz ≤ length body → Forall calm bs →
  Forall2 (local_ready rmp_to_vec rmp_from_slice xxh64 bucket key) (set_records parity n ec_record) bs →
  ∃ r bs', put_ec c md5 lock parity bucket key sz src content_type mod_time vid dd staging_id bs n = Some (r, bs')
    ∧ ∀ info, r = Ok info → check lock = Ok () ∧ oi_etag info = md5 (take sz body) ∧ oi_size info = Z.of_nat sz
        ∧ Forall2 published (set_records parity n ec_record) bs'.
Proof.
  intros Hl Hy Hsz Hcalm Hr. unfold put_ec. rewrite Hl, (proj2 (Nat.ltb_ge _ _)) by lia.
  unfold Erasure_new. destruct (Nat.eqb_spec (n - parity) 0); [lia|]. destruct (Nat.eqb_spec parity 0); [lia|]. cbn [orb].
  destruct (canonical_segments dd Hdd Hdd_ne) as (Hseg & _ & _).
  destruct (stage_spec c md5 ec bucket staging_id dd write_layout (staging_ne bucket Hbucket) Hseg sz src body bs Hy Hsz)
    as (opened & bs1 & r & bs2 & E1 & E2 & Hl2 & Hst); [cbn; lia|].
  cbn [data_shards ec] in E1, E2. unfold put_ec_body. rewrite Hl in *. rewrite E1. cbn [mbind option_bind]. fold ec. rewrite E2.
  cbn [mbind option_bind].
  assert (∀ e (l : list LocalDrive), ∃ r bs', (bs' ← cleanup_src STAGING_VOL staging_id l; Some (Err (E := StorageError) (A := ObjectInfo) e, bs')) = Some (r, bs')
    ∧ ∀ info, r = Ok info → check lock = Ok () ∧ oi_etag info = md5 (take sz body) ∧ oi_size info = Z.of_nat sz
        ∧ Forall2 published (set_records parity n ec_record) bs') as Hclean.
  { intros e l. destruct (cleanup_total STAGING_VOL staging_id bucket key l) as (l' & ->). eexists _, _. by split; [done|]. }
  destruct r as [etag|e]; [|apply Hclean]. destruct (Hst etag eq_refl) as [-> Hshard].
  destruct (check lock) as [[]|e] eqn:Ec; [|apply Hclean].
  destruct (promote_versions_spec STAGING_VOL staging_id bucket key (set_records parity n ec_record) bs2) as (rp & bs3 & Ep & Hp).
  { by apply (staged_ready bs). }
  rewrite Hl2 in Ep. unfold set_records, ec_record in Ep. rewrite Ep. cbn [mbind option_bind].
  destruct rp as [[]|e]; [|apply Hclean]. eexists _, _. split; [done|]. intros info [= <-]. cbn. split_and!; try done. by apply Hp.
Qed.
End write.

(** ** Lemmas: reading local drives *)

(** A computation that leaves the tree as it is. *)
Definition looks {E A : Type} (m : Fs E A) : Prop := ∀ d r d', m d = Some (r, d') → tree d' = tree d ∧ ticks d ≤ ticks d'.

Lemma looks_query {A : Type} fault (f : fstree → result StdIoError A) : looks (query fault f).
Proof.
  intros d r d'. unfold query, os_call. destruct (fault _); [intros [= _ <-]; split; cbn; [done|lia]|].
  destruct (f (tree d)); intros [= _ <-]; (split; cbn; [done|lia]).
Qed.
Lemma looks_ret {E A : Type} (r : result E A) : looks (λ d, Some (r, d)).
Proof. by intros d r' d' [= _ <-]. Qed.
Lemma looks_match {E F A C : Type} (m : Fs E A) (ok : A → Fs F C) (err : E → Fs F C) :
  looks m → (∀ a, looks (ok a)) → (∀ e, looks (err e)) → looks (fs_match m ok err).
Proof.
  intros Hm Hok Herr d r d'. unfold fs_match. destruct (m d) as [[[a|e] d1]|] eqn:E1; [| |done]; intros H;
    destruct (Hm _ _ _ E1) as [<- ?]; [destruct (Hok _ _ _ _ H)|destruct (Herr _ _ _ _ H)]; split; try done; lia.
Qed.

(** A call that no fault hits from now on. *)
Lemma query_now {A : Type} fault (f : fstree → result StdIoError A) d : fault (ticks d) = None →
  query fault f d = Some (f (tree d), {| tree := tree d; ticks := S (ticks d) |}).
Proof. intros Hf. unfold query, os_call. rewrite Hf. by destruct (f (tree d)). Qed.

Section reading.
Context (rmp_to_vec : OnDiskMeta → result string bytes) (rmp_from_slice : bytes → result string OnDiskMeta) (xxh64 : bytes → Z).
Context (bucket key : string) (Hbucket : is_system_vol bucket = false) (shard : nat → bytes).

Lemma require_vol_looks fault : looks (require_vol fault bucket).
Proof.
  unfold require_vol. rewrite Hbucket. apply looks_match; [apply looks_query|intros []; apply looks_ret|intros; apply looks_ret].
Qed.
Lemma require_vol_now fault d : fault (ticks d) = None → tree d !! [bucket] = Some NDir →
  require_vol fault bucket d = Some (Ok (), {| tree := tree d; ticks := S (ticks d) |}).
Proof.
  intros Hf Hd. unfold require_vol. rewrite Hbucket. unfold fs_match, os_is_dir. rewrite query_now by done.
  unfold t_is_dir, vol_path. by rewrite Hd.
Qed.

Lemma looks_on_disk {A} (m : Fs IoError A) b r b' : looks m → on_disk m b = Some (r, b') →
  tree (ld_disk b') = tree (ld_disk b) ∧ (healthy b → healthy b').
Proof.
  intros Hm. unfold on_disk. destruct (m (ld_disk b)) as [[r0 d]|] eqn:E; [|done]. intros [= _ <-].
  destruct (Hm _ _ _ E) as [Ht Hk]. split; [done|]. intros H k. cbn. intros Hk'. apply H. lia.
Qed.

(** The answer of a drive that has published a record. *)
Lemma read_version_local fi b r b' : ec_published rmp_from_slice xxh64 bucket key shard fi b →
  on_disk (read_version (ld_fault b) rmp_from_slice xxh64 bucket key None true) b = Some (r, b') →
  tree (ld_disk b') = tree (ld_disk b) ∧ (healthy b → healthy b' ∧ is_ok r = true).
Proof.
  intros ((raw & n & Hraw & Hdec) & _ & _ & _ & Hdir) E.
  assert (looks (read_version (ld_fault b) rmp_from_slice xxh64 bucket key None true)) as Hl.
  { unfold read_version. apply looks_match; [apply require_vol_looks| |intros; apply looks_ret]. intros u.
    apply looks_match; [|intros x|intros; apply looks_ret].
    { apply looks_match; [apply looks_query|intros; apply looks_ret..]. }
    apply looks_match; intros; apply looks_ret. }
  destruct (looks_on_disk _ _ _ _ Hl E) as [Ht Hh]. split; [done|]. intros H. split; [by apply Hh|].
  unfold on_disk, read_version, fs_bind in E. unfold fs_match at 1 in E. rewrite require_vol_now in E by (done || by apply H).
  unfold fs_match at 1 in E. unfold fs_map_err, fs_match at 1, os_read in E. rewrite query_now in E by (apply H; cbn; lia).
  cbn [tree] in E. unfold t_read in E. rewrite Hraw in E. cbn in E. rewrite Hdec in E. cbn in E. by injection E as <- _.
Qed.

(** [read_file_stream] as a source of shards; it does not panic. *)
Definition open_local (b : LocalDrive) : Get.backend LocalFileStream := λ v p off len,
  match read_file_stream v p off len b with
  | Some (r, _) => r
  | None => Err (FileNotFound v p)
  end.

Lemma open_local_serves fi b g path off len : ec_published rmp_from_slice xxh64 bucket key shard fi b →
  file_path bucket path = file_path bucket key ++ [data_dir fi; part1] → (g = true → healthy b) →
  serves_file g (open_local b bucket path off len) (shard_of shard fi) off len.
Proof.
  intros (_ & _ & _ & Hdata & Hdir) Hpath Hg. unfold open_local.
  assert (segments path ≠ []) as Hseg.
  { unfold file_path in Hpath. cbn in Hpath. injection Hpath as Hp. rewrite Hp. by destruct (segments key). }
  destruct (read_file_stream bucket path off len b) as [[r b']|] eqn:E.
  2: { exfalso. unfold read_file_stream in E. destruct (on_disk _ b) as [[[]]|] eqn:Em; [done..|].
       unfold on_disk in Em. destruct (fs_bind _ _ (ld_disk b)) as [[]|] eqn:Eb; [done|].
       assert (framed (λ _, False) (fs_bind (require_vol (ld_fault b) bucket) (λ _,
         fs_map_err (λ e, map_open_err e bucket path) (query (ld_fault b) (t_read (file_path bucket path)))))) as Hf.
       { apply framed_bind; [by apply require_vol_framed|intros; apply framed_map_err, framed_query]. }
       destruct (Hf ∅ (ld_disk b)) as (? & ? & E' & _); [by intros q []|]. by rewrite Eb in E'. }
  assert (file_at b (file_path bucket path) = Some (shard_of shard fi)) as Hfile.
  { unfold file_at. rewrite Hpath. unfold data_live in Hdata. by rewrite Hdata. }
  destruct r as [s|e]; cbn [serves_file].
  - destruct (read_file_stream_spec _ _ _ _ _ _ _ Hseg E) as (<- & Hp & Hpos & Hend & Hsame & Hh).
    assert (file_at (lf_drive s) (lf_path s) = Some (shard_of shard fi)) as Hc by (by rewrite Hp, Hsame).
    assert (left_of s (shard_of shard fi) = take len (drop off (shard_of shard fi))) as Hleft.
    { unfold left_of. rewrite Hpos, Hend. f_equal. lia. }
    destruct g; cbn; [split; [apply Hh, Hg; done|]|]; exists (shard_of shard fi); (split; [done|]); by rewrite Hleft.
  - destruct g; [|done]. exfalso. specialize (Hg eq_refl). unfold read_file_stream, on_disk, fs_bind in E. unfold fs_match at 1 in E.
    rewrite require_vol_now in E by (done || by apply Hg). unfold fs_map_err, fs_match at 1 in E.
    rewrite query_now in E by (apply Hg; cbn; lia). cbn [tree] in E. apply file_at_read in Hfile. rewrite Hfile in E. done.
Qed.
End reading.

(** ** Lemmas: the whole read *)

Lemma each_lookup {B A} (m : call B A) (bs : list B) rs bs' : each m bs = Some (rs, bs') →
  ∀ i b, bs !! i = Some b → ∃ r b', m b = Some (r, b') ∧ rs !! i = Some r ∧ bs' !! i = Some b'.
Proof.
  unfold each. revert rs bs'. induction bs as [|b0 bs IH]; intros rs bs'; [done|]. cbn [length replicate fan].
  destruct (m b0) as [[r b1]|] eqn:Em; [|done]. cbn [mbind option_bind].
  destruct (fan _ _ bs) as [[cs bs1]|] eqn:Ef; [|done]. intros [= <- <-]. intros [|i] b Hb.
  - injection Hb as ->. by exists r, b1.
  - exact (IH _ _ eq_refl i b Hb).
Qed.

Lemma count_up {A} (up : list bool) (rs : list (IoResult A)) : Forall2 (λ u r, u = true → is_ok r = true) up rs →
  length up - length (filter (λ u, u = false) up) ≤ length (omap res_ok rs).
Proof.
  induction 1 as [|u r up rs Hu _ IH]; [done|]. rewrite filter_cons, omap_cons.
  pose proof (length_filter (λ u, u = false) up). destruct u.
  - rewrite decide_False by done. destruct r; [|by specialize (Hu eq_refl)]. cbn. lia.
  - rewrite decide_True by done. cbn [length]. destruct (res_ok r); cbn [length]; lia.
Qed.
Lemma count_down (up : list bool) : length (filter (λ u, u = true) up) + length (filter (λ u, u = false) up) = length up.
Proof.
  induction up as [|u up IH]; [done|]. rewrite !filter_cons.
  destruct u; [rewrite decide_True, decide_False by done|rewrite decide_False, decide_True by done]; cbn [length]; lia.
Qed.

Section read_back.
Context (rmp_to_vec : OnDiskMeta → result string bytes) (rmp_from_slice : bytes → result string OnDiskMeta) (xxh64 : bytes → Z).
Context (c : RsCodec) (md5 : bytes → string) (bucket key : string) (Hbucket : is_system_vol bucket = false).
Context (parity n sz : nat) (body : bytes) (content_type : option string) (mod_time : Z) (vid dd : string).
Context (Hn : 0 < n < 256) (Hpar : 0 < parity) (Hpar2 : 2 * parity ≤ n) (Hdd : canonical_id "" dd) (Hdd_ne : dd ≠ "").
Context (Hmds : rs_mds c (n - parity) parity ec_stripe_unit).
Context (Hsz : 0 < sz ≤ length body) (Hwidth : (Z.of_nat sz < u64_mod)%Z).

Abbreviation rec := (ec_record md5 bucket key parity n sz body content_type mod_time vid dd).
Abbreviation shards := (slot_shard c parity n sz body).

(** The shard files of drives that have published the object serve its bytes. *)
Lemma published_object (drives : list LocalDrive) (up : list bool) m j :
  Forall2 (ec_published rmp_from_slice xxh64 bucket key shards) (set_records parity n rec) drives →
  Forall2 (λ u b, u = true → healthy b) up drives → length (filter (λ u, u = false) up) ≤ parity →
  ec_object c (open_local <$> drives) bucket key (Put.read_back parity n bucket key rec m j) ec_stripe_unit [take sz body].
Proof.
  intros Hpub Hup Hdown. set (fi := Put.read_back _ _ _ _ _ _ _).
  assert (data_blocks (erasure fi) = n - parity) as Hd by (cbn -[Nat.modulo]; apply Nat.mod_small; lia).
  assert (parity_blocks (erasure fi) = parity) as Hp by (cbn -[Nat.modulo]; apply Nat.mod_small; lia).
  assert (length (take sz body) = sz) as Hlt by (rewrite length_take; lia).
  pose proof (Forall2_length _ _ _ Hpub) as Hl. rewrite length_set_records in Hl.
  pose proof (Forall2_length _ _ _ Hup) as Hlu.
  assert (layout_ok c {| data_shards := n - parity; parity_shards := parity |} ec_stripe_unit) as Hlay by (by apply write_layout).
  assert (0 < (n - parity) * ec_stripe_unit) by (destruct Hlay as (_ & ? & ? & _); cbn in *; nia).
  split; rewrite ?Hd, ?Hp; [done|done| | | | |exact Hdd_ne| | |].
  - change (block_size (erasure fi)) with ((DEFAULT_EC_PER_SHARD_BYTES * Z.of_nat ((n - parity) mod 256)) `mod` u32_mod)%Z.
    rewrite Nat.mod_small by lia. rewrite stripe_unit_512. unfold DEFAULT_EC_PER_SHARD_BYTES, u32_mod. rewrite Z.mod_small; lia.
  - rewrite stripe_unit_512. apply Nat.Div0.mod_mul.
  - rewrite length_fmap. lia.
  - reflexivity.
  - cbn. rewrite app_nil_r, Hlt. done.
  - change (size fi) with (Z.of_nat sz). lia.
  - change (parts fi) with (single_part_info (md5 (take sz body)) (Z.of_nat (shard_size sz (n - parity))) (Z.of_nat sz) mod_time).
    constructor; [|constructor]. cbn [p_actual_size].
    assert (u64_len (Z.of_nat sz) = length (take sz body)) as Hu64.
    { unfold u64_len, as_u64. rewrite Z.mod_small by lia. lia. }
    split; [exact Hu64|]. intros start Hs1 Hs2. split; [exact Hu64|]. split; [exact Hs2|]. split; [exact Hs1|].
    exists up. cbn [data_shards parity_shards]. split; [lia|]. pose proof (count_down up). split; [lia|].
    intros i g b Hg Hb. rewrite list_lookup_fmap in Hb. destruct (drives !! i) as [b0|] eqn:Eb; [|done]. injection Hb as <-.
    pose proof (Forall2_lookup_lr _ _ _ _ _ _ Hup Hg Eb) as Hh.
    destruct (lookup_lt_is_Some_2 (set_records parity n rec) i) as [fi' Hfi'].
    { rewrite length_set_records. apply lookup_lt_Some in Eb. lia. }
    pose proof (Forall2_lookup_lr _ _ _ _ _ _ Hpub Hfi' Eb) as Hp'.
    unfold set_records, with_per_disk_index in Hfi'. rewrite list_lookup_fmap in Hfi'.
    destruct (seq 0 n !! i) as [i'|] eqn:Ei; [|done]. apply lookup_seq in Ei as [-> Hi].
    assert (data_dir fi' = dd ∧ index (erasure fi') = (i + 1) mod 256) as [Hdir Hidx] by (by simplify_option_eq).
    replace (shard_file c {| data_shards := n - parity; parity_shards := parity |} i _) with (shard_of shards fi').
    + apply (open_local_serves rmp_from_slice xxh64 bucket key Hbucket shards fi'); [exact Hp'| |exact Hh].
      rewrite Hdir. change (data_dir fi) with dd. change (p_number _) with 1%Z.
      change ("/part." +:+ pretty 1%Z) with ("/" +:+ part1). unfold file_path.
      destruct (canonical_segments dd Hdd Hdd_ne) as (Hs & _ & _). by rewrite !segments_cons, Hs.
    + unfold shard_of, slot_shard, shard_bytes. rewrite Hidx, Nat.mod_small by lia. cbn [data_shards]. rewrite Hlt. f_equal. lia.
Qed.
(** The record that the answers of the drives agree on, and what a read delivers. *)
Lemma published_readable {HS : HashIter string} {HN : HashIter nat} {HH : HashIter (list byte)} (blake3 : bytes → bytes)
    (sv sp : string) {HL : PromotionLaws LocalDrive (HB := LocalDrive_backend rmp_to_vec rmp_from_slice xxh64) sv sp bucket key}
    (now : list LocalDrive) (up : list bool) (range : option ByteRange) (off len : Z) :
  (∀ fi b, ec_published rmp_from_slice xxh64 bucket key shards fi b → published (PromotionLaws := HL) fi b) → (∀ b, md5 b ≠ "") →
  Forall2 (ec_published rmp_from_slice xxh64 bucket key shards) (set_records parity n rec) now →
  Forall2 (λ u b, u = true → healthy b) up now →
  length (filter (λ u, u = false) up) ≤ parity → length (filter (λ u, u = false) up) < Nat.max (n / 2) 1 →
  match range with
  | None => off = 0%Z ∧ len = Z.of_nat sz
  | Some rg => resolve rg (Z.of_nat sz) = Some (off, len) ∧ (0 ≤ off < Z.of_nat sz)%Z
  end →
  ∃ answers now' i fi s,
    Put.read_all (HB := LocalDrive_backend rmp_to_vec rmp_from_slice xxh64) bucket key now = Some (answers, now')
    ∧ read_with_consensus blake3 bucket key answers = Some (Ok (i, fi)) ∧ version_id fi = vid
    ∧ get_body (open_local <$> now') bucket key fi range
      = Some (Ok (to_object_info bucket fi, range ≫= λ rg, resolve rg (Z.of_nat sz), s))
    ∧ body_yields c s (take (Z.to_nat len) (drop (Z.to_nat off) (take sz body))).
Proof.
  intros Hweak Hmd5 Hnow Hup Hd1 Hd2 Hrange.
  destruct (consensus_on_set (HL := HL) blake3 parity bucket key rec sv sp n now (md5 (take sz body)))
    as (answers & now' & Hread & Hla & Hcons); [done|lia|done|apply build_etag|done|by eapply Forall2_impl|].
  pose proof (Forall2_length _ _ _ Hnow) as Hln. rewrite length_set_records in Hln.
  pose proof (Forall2_length _ _ _ Hup) as Hlu. destruct (each_length _ _ _ _ Hread) as [_ Hln'].
  assert (∀ i u b, up !! i = Some u → now !! i = Some b → ∃ a b', answers !! i = Some a ∧ now' !! i = Some b'
    ∧ tree (ld_disk b') = tree (ld_disk b) ∧ (u = true → healthy b' ∧ is_ok a = true)) as Hstep.
  { intros i u b Hu Hb. destruct (each_lookup _ _ _ _ Hread i b Hb) as (a & b' & Ea & Ha & Hb').
    exists a, b'. split; [done|]. split; [done|]. destruct (Forall2_lookup_r _ _ _ _ _ Hnow Hb) as (fi & _ & Hfi).
    destruct (read_version_local rmp_from_slice xxh64 bucket key Hbucket _ fi b a b' Hfi Ea) as [? Hh].
    split; [done|]. intros Htrue. apply Hh, (Forall2_lookup_lr _ _ _ _ _ _ Hup Hu Hb Htrue). }
  assert (∀ i, i < n → ∃ u b, up !! i = Some u ∧ now !! i = Some b) as Hex.
  { intros i Hi. destruct (lookup_lt_is_Some_2 up i) as [u ?]; [lia|]. destruct (lookup_lt_is_Some_2 now i) as [b ?]; [lia|]. eauto. }
  assert (length up - length (filter (λ u, u = false) up) ≤ length (omap res_ok answers)) as Hfail.
  { apply count_up, Forall2_same_length_lookup_2; [lia|]. intros i u a Hu Ha Htrue.
    destruct (Hex i) as (u' & b & Hu' & Hb); [apply lookup_lt_Some in Hu; lia|].
    destruct (Hstep i u' b Hu' Hb) as (a' & b' & Ha' & _ & _ & Hh). simplify_eq. by apply Hh. }
  destruct Hcons as (i & m & j & Hvote & _); [lia|lia|].
  assert (ec_object c (open_local <$> now') bucket key (Put.read_back parity n bucket key rec m j) ec_stripe_unit [take sz body]) as Hobj.
  { apply (published_object now' up); [| |done]; apply Forall2_same_length_lookup_2; rewrite ?length_set_records; try lia;
      intros k x b' Hx Hb'; destruct (Hex k) as (u & b & Hu & Hb); try (apply lookup_lt_Some in Hb'; lia);
      destruct (Hstep k u b Hu Hb) as (a & b1 & _ & Hb1 & Ht & Hh); simplify_eq; [|intros ->; by apply Hh].
    eapply ec_published_tree; [exact Ht|]. exact (Forall2_lookup_lr _ _ _ _ _ _ Hnow Hx Hb). }
  destruct (get_body_ec c (open_local <$> now') bucket key _ ec_stripe_unit [take sz body] range off len Hobj) as (s & Hget & Hy).
  { destruct range; exact Hrange. }
  cbn [concat] in Hy. rewrite app_nil_r in Hy. eexists answers, now', i, _, s. done.
Qed.
End read_back.

(** ** Properties *)

(** C2.  Writing and reading an erasure-coded object over local drives.  On
    drives without errors [put_ec] does not panic.  When it reports success (the
    quorum being the whole set, and the object's earlier versions older), the
    lock was held and the etag is the digest of the body.  Later, whatever calls
    of the drives fail, as long as at most [parity] drives and fewer than half of
    the set are down and the others hold what they held: the drives agree on the
    record of the version, and a read of any range, or of the whole object,
    delivers exactly those bytes of the body. *)
Theorem put_ec_read_back
    (rmp_to_vec : OnDiskMeta → result string bytes) (rmp_from_slice : bytes → result string OnDiskMeta)
    (xxh64 : bytes → Z) (c : RsCodec) (md5 : bytes → string) (blake3 : bytes → bytes)
    {HS : HashIter string} {HN : HashIter nat} {HH : HashIter (list byte)} {St} `{ByteStream St}
    (lock : LockGuard) (parity : nat) (bucket key : string) (sz : nat) (src : St) (body : bytes)
    (content_type : option string) (mod_time : Z) (vid dd staging_id : string) (drives : list LocalDrive)
    (Hroundtrip : ∀ m b, rmp_to_vec m = Ok b → rmp_from_slice b = Ok m)
    (Htyped : ∀ b m, rmp_from_slice b = Ok m → Forall typed_version m)
    (Hmd5 : ∀ b, md5 b ≠ "") (Hmds : rs_mds c (length drives - parity) parity ec_stripe_unit)
    (Hbucket : is_system_vol bucket = false) (Htrash : bucket ≠ TRASH_DIRNAME)
    (Hdd : canonical_id "" dd) (Hdd_ne : dd ≠ "")
    (Hn : 0 < length drives < 256) (Hpar : 0 < parity) (Hpar2 : 2 * parity ≤ length drives)
    (Hsrc : yields src body) (Hsz : 0 < sz ≤ length body) (Hwidth : (Z.of_nat sz < u64_mod)%Z)
    (Hcalm : Forall calm drives)
    (Hready : Forall2 (local_ready rmp_to_vec rmp_from_slice xxh64 bucket key)
       (set_records parity (length drives)
          (ec_base bucket key sz (length drives - parity) (md5 (take sz body)) mod_time content_type vid dd)) drives) :
  let backend := LocalDrive_backend rmp_to_vec rmp_from_slice xxh64 in
  let n := length drives in
  ∃ r drives', put_ec c md5 lock parity bucket key sz src content_type mod_time vid dd staging_id drives n = Some (r, drives')
    ∧ ∀ info, r = Ok info → check lock = Ok () ∧ oi_etag info = md5 (take sz body)
      ∧ ∀ (now : list LocalDrive) (up : list bool) (range : option ByteRange) (off len : Z),
          Forall2 (λ b b', tree (ld_disk b') = tree (ld_disk b)) drives' now →
          Forall2 (λ u b, u = true → healthy b) up now →
          length (filter (λ u, u = false) up) ≤ parity → length (filter (λ u, u = false) up) < Nat.max (n / 2) 1 →
          match range with
          | None => off = 0%Z ∧ len = Z.of_nat sz
          | Some rg => resolve rg (Z.of_nat sz) = Some (off, len) ∧ (0 ≤ off < Z.of_nat sz)%Z
          end →
          ∃ answers now' i fi s, Put.read_all bucket key now = Some (answers, now')
            ∧ read_with_consensus blake3 bucket key answers = Some (Ok (i, fi)) ∧ version_id fi = vid
            ∧ get_body (open_local <$> now') bucket key fi range
              = Some (Ok (to_object_info bucket fi, range ≫= λ rg, resolve rg (Z.of_nat sz), s))
            ∧ ∀ fuel, sz < fuel → ∃ s', drain (H := body_stream_stream c) fuel s
                = Some (Ok (take (Z.to_nat len) (drop (Z.to_nat off) (take sz body))), s').
Proof.
  intros backend n.
  destruct (put_ec_spec rmp_to_vec rmp_from_slice xxh64 Hroundtrip Htyped c md5 bucket key Hbucket Htrash parity n sz body content_type
    mod_time vid dd staging_id Hn Hpar Hpar2 Hdd Hdd_ne Hmds lock src drives) as (r & drives' & Hrun & Hok); [done|done|lia|done|exact Hready|].
  exists r, drives'. split; [exact Hrun|]. intros info Hr. destruct (Hok info Hr) as (Hlock & Hetag & _ & Hpub).
  split; [done|]. split; [done|]. intros now up range off len Htrees Hup Hd1 Hd2 Hrange.
  set (laws := write_laws rmp_to_vec rmp_from_slice xxh64 Hroundtrip Htyped c bucket key Hbucket Htrash parity n sz body staging_id) in *.
  destruct (published_readable rmp_to_vec rmp_from_slice xxh64 c md5 bucket key Hbucket parity n sz body content_type mod_time vid dd
    Hn Hpar Hpar2 Hdd Hdd_ne Hmds Hsz Hwidth blake3 STAGING_VOL staging_id (HL := laws) now up range off len)
    as (answers & now' & i & fi & s & H1 & H2 & H3 & H4 & Hy); [done|done| |done..|].
  { clear -Hpub Htrees. revert now Htrees. induction Hpub as [|fi b fis bs Hb _ IH]; intros now Ht;
      inversion Ht as [|? b' ? now' Hb' Ht']; subst; constructor; [by eapply ec_published_tree|by apply IH]. }
  exists answers, now', i, fi, s. do 4 (split; [done|]). intros fuel Hf.
  apply (drain_yields (H := body_stream_stream c)); [exact Hy|]. rewrite length_take, length_drop, length_take. lia.
Qed.

(** ** Evaluation *)

#[local] Instance putec_string_order : HashIter string := listed_order string.
#[local] Instance putec_nat_order : HashIter nat := listed_order nat.
#[local] Instance putec_bytes_order : HashIter (list byte) := listed_order (list byte).

(** A set of three drives with one parity shard; a body of six bytes, of which five are announced. *)
Definition ec_fis : list FileInfo :=
  set_records 1 3 (ec_base "b" "k" 5 2 (put_etag (take 5 (concat (frames rope3)))) 9 None (sample_uuid xcc) (sample_uuid xdd)).
Definition ec_to_vec := table_to_vec ((λ fi, records_for [fi]) <$> ec_fis).
Definition ec_from_slice := table_from_slice ((λ fi, records_for [fi]) <$> ec_fis).
Definition three_drives : list LocalDrive := replicate 3 (drive_of empty_drive).

Lemma three_ready : Forall2 (local_ready ec_to_vec ec_from_slice sum_hash "b" "k") ec_fis three_drives.
Proof.
  constructor; [|constructor; [|constructor; [|constructor]]].
  all: split; [split; [right; exists (replicate 16 xcc); split_and!; [done|discriminate|done]
                      |right; exists (replicate 16 xdd); split_and!; [done|discriminate|done]]|].
  all: exists None, []; split_and!; [split; reflexivity|intros r H; by apply elem_of_nil in H|].
  all: intros e He; vm_compute in He; injection He as <-; split; vm_compute; reflexivity.
Qed.

Lemma put_ec_read_back_witness : ∃ r drives',
  put_ec (SB := LocalDrive_backend ec_to_vec ec_from_slice sum_hash) xor_codec put_etag put_lock 1 "b" "k" 5 rope3 None 9
    (sample_uuid xcc) (sample_uuid xdd) "s" three_drives 3 = Some (r, drives')
  ∧ ∀ info, r = Ok info → oi_etag info = put_etag [x01; x02; x03; x04; x05].
Proof.
  destruct (put_ec_read_back ec_to_vec ec_from_slice sum_hash xor_codec put_etag (λ b, b) put_lock 1 "b" "k" 5 rope3
    [x01; x02; x03; x04; x05; x06] None 9 (sample_uuid xcc) (sample_uuid xdd) "s" three_drives) as (r & drives' & Hrun & Hok).
  - exact (table_codec_roundtrip _).
  - exact (table_codec_typed _).
  - discriminate.
  - apply xor_codec_mds.
  - reflexivity.
  - discriminate.
  - right. exists (replicate 16 xdd). split_and!; [done|discriminate|done].
  - discriminate.
  - simpl. lia.
  - lia.
  - simpl. lia.
  - split; [|reflexivity]. repeat constructor; discriminate.
  - simpl. lia.
  - reflexivity.
  - repeat constructor.
  - exact three_ready.
  - exists r, drives'. split; [exact Hrun|]. intros info Hr. by destruct (Hok info Hr) as (_ & ? & _).
Defined.
