(* ===== verification/Multipart.v ===== *)
(** * Object writes of the engine

    [Engine::put] and the multipart uploads of [openlake_storage/src/engine.rs]:
    [create_multipart_upload], [upload_part], [complete_multipart_upload] with
    [read_session_fi], [majority_key] and [read_part_sidecars].  Msgpack, hex
    and base64, MD5, UUIDs and the clock are parameters; the outcome of a lock
    request is an argument, its guard as it is at the fence. *)

From stdpp Require Import base gmap strings sorting pretty list.
From Stdlib Require Import Strings.Ascii.
From S2P Require Import Prelude Text Types Cluster Ec Streams EcStream Get Dsync Consensus XlMeta Fs LocalFs Backend Put Engine Bucket PutEc.

Record MultipartInit := { upload_id : string }.

Definition format_upload_id (base64 : bytes → string) (deployment uuid : string) (nanos : Z) : string :=
  base64 (str_bytes (deployment +:+ "." +:+ uuid +:+ "x" +:+ pretty nanos)).

(** The first item that is seen for the [threshold]th time. *)
Fixpoint majority_key {A} `{Countable A} (items : list A) (threshold : nat) (counts : gmap A nat) : option A :=
  match items with
  | [] => None
  | k :: items =>
      let entry := S (default 0 (counts !! k)) in
      if threshold <=? entry then Some k else majority_key items threshold (<[k := entry]> counts)
  end.

Definition session_key (fi : FileInfo) : string * nat * nat :=
  (data_dir fi, data_blocks (erasure fi), parity_blocks (erasure fi)).
(** What the answers of the drives say of an upload; the record is there because
    its key was counted. *)
Definition session_of (session_path : string) (metas : list (IoResult FileInfo)) : option (StorageResult FileInfo) :=
  let valid := omap res_ok metas in
  let last_err := last (errors_of metas) in
  match majority_key (session_key <$> valid) (length metas / 2 + 1) ∅ with
  | None => Some (Err (SIo (default (InvalidArgument ("session " +:+ session_path +:+ ": no quorum on data_dir/erasure")) last_err)))
  | Some winner => '(_, fi) ← list_find (λ fi, session_key fi = winner) valid; Some (Ok fi)
  end.

(** The answers for one sidecar: how many are there, and the first of them. *)
Fixpoint sidecar_scan (from_slice : bytes → result string ObjectPartInfo) (number : Z) (answers : list (IoResult (option bytes)))
    (present : nat) (found : option ObjectPartInfo) : StorageResult (nat * option ObjectPartInfo) :=
  match answers with
  | [] => Ok (present, found)
  | Ok (Some b) :: answers =>
      match found with
      | Some _ => sidecar_scan from_slice number answers (S present) found
      | None =>
          match from_slice b with
          | Err e => Err (SIo (Decode ("part." +:+ pretty number +:+ ".meta: " +:+ e)))
          | Ok p => sidecar_scan from_slice number answers (S present) (Some p)
          end
      end
  | _ :: answers => sidecar_scan from_slice number answers present found
  end.
Definition sidecar_verdict (from_slice : bytes → result string ObjectPartInfo) (number : Z) (min_present : nat)
    (answers : list (IoResult (option bytes))) : StorageResult ObjectPartInfo :=
  '(present, found) ← sidecar_scan from_slice number answers 0 None;
  match found with
  | Some p => if present <? min_present then
                Err (SIo (InvalidArgument ("part." +:+ pretty number +:+ " sidecar missing or below read quorum ("
                                           +:+ pretty present +:+ "/" +:+ pretty min_present +:+ ")")))
              else Ok p
  | None => Err (SIo (InvalidArgument ("part." +:+ pretty number +:+ " sidecar missing or below read quorum ("
                                       +:+ pretty present +:+ "/" +:+ pretty min_present +:+ ")")))
  end.

(** [trim_matches] of a quote. *)
Fixpoint drop_quotes (s : string) : string :=
  match s with String "034" s => drop_quotes s | _ => s end.
Definition trim_quotes (s : string) : string := String.rev (drop_quotes (String.rev (drop_quotes s))).

Definition as_i64 (z : Z) : Z := ((z + 2 ^ 63) `mod` u64_mod - 2 ^ 63)%Z.
Definition MIN_PART_SIZE : Z := 5 * 1024 * 1024.

(** The first pair of part numbers that do not ascend. *)
Fixpoint misordered (ps : list CompletePart) : option (Z * Z) :=
  match ps with
  | a :: (b :: _) as rest => if (part_number b <=? part_number a)%Z then Some (part_number a, part_number b) else misordered rest
  | _ => None
  end.

(** The checks of the parts a client names against their sidecars: the size of
    the object and the digests, joined.  [left] parts come after the current one. *)
Fixpoint check_parts (hex_decode : string → result string bytes) (ps : list (CompletePart * ObjectPartInfo))
    (total : Z) (digests : bytes) : StorageResult (Z * bytes) :=
  match ps with
  | [] => Ok (total, digests)
  | (claimed, actual) :: ps =>
      let claimed_etag := to_ascii_lowercase (trim_quotes (cp_etag claimed)) in
      if negb (bool_decide (claimed_etag = to_ascii_lowercase (p_etag actual))) then
        Err (SIo (InvalidArgument ("part " +:+ pretty (part_number claimed) +:+ " etag mismatch: client "
               +:+ debug_str claimed_etag +:+ ", server " +:+ debug_str (p_etag actual))))
      else if (0 <? length ps) && (p_actual_size actual <? MIN_PART_SIZE)%Z then
        Err (SIo (InvalidArgument ("part " +:+ pretty (part_number claimed) +:+ " below 5 MiB minimum (got "
               +:+ pretty (p_actual_size actual) +:+ " bytes)")))
      else
        match hex_decode (p_etag actual) with
        | Err e => Err (SIo (InvalidArgument ("part " +:+ pretty (part_number claimed) +:+ " etag not hex: " +:+ e)))
        | Ok raw => check_parts hex_decode ps (as_i64 (total + p_actual_size actual)) (digests ++ raw)
        end
  end.

Section multipart.
Context (rmp_meta_to_vec : BucketMeta → result string bytes) (rmp_meta_from_slice : bytes → result string BucketMeta).
Context (crc32c : bytes → Z) (hex_u32 : Z → string).
Context (part_to_vec : ObjectPartInfo → result string bytes) (part_from_slice : bytes → result string ObjectPartInfo).
Context (hex_decode : string → result string bytes) (base64 : bytes → string).
Context {B : Type} `{SB : StorageBackend B} {K : Type} `{HK : ByteSink K} `{SF : ShardFiles B K} (siphash : list string → N).
Context (blake3 : bytes → bytes) (md5 : bytes → string).
Context {HS : HashIter string} {HN : HashIter nat} {HH : HashIter (list byte)}.
Context {St : Type} `{ByteStream St} (open_stream : B → Get.backend St) (rs : RsCodec).
Context {Src : Type} `{ByteStream Src}.

Abbreviation on_set := (Engine.on_set siphash).
Abbreviation get_bucket_meta := (Bucket.get_bucket_meta rmp_meta_from_slice crc32c hex_u32 siphash blake3 open_stream rs).

(** What the clock and the generators of names give to one call: the time, two
    UUIDs with dashes, a UUID without them, and the nanoseconds. *)
Record WriteEnv := { we_now : Z; we_version : string; we_data_dir : string; we_simple : string; we_nanos : Z }.

(** ** Sessions *)

Definition read_session_fi (session_path : string) (bs : list B) : option (StorageResult FileInfo * list B) :=
  '(metas, bs) ← each (sb_read_version "" MULTIPART_VOL session_path None false) bs;
  r ← session_of session_path metas;
  Some (r, bs).

Fixpoint read_part_sidecars (session_path dd : string) (parts : list CompletePart) (min_present : nat) (bs : list B) :
    option (StorageResult (list ObjectPartInfo) * list B) :=
  match parts with
  | [] => Some (Ok [], bs)
  | p :: parts =>
      let path := session_path +:+ "/" +:+ dd +:+ "/part." +:+ pretty (part_number p) +:+ ".meta" in
      '(answers, bs) ← each (sb_read_file MULTIPART_VOL path) bs;
      match sidecar_verdict part_from_slice (part_number p) min_present answers with
      | Err e => Some (Err e, bs)
      | Ok info =>
          '(r, bs) ← read_part_sidecars session_path dd parts min_present bs;
          Some (match r with Ok infos => Ok (info :: infos) | Err e => Err e end, bs)
      end
  end.

Definition session_fi (session_path vid dd : string) (mod_time : Z) (content_type : option string) : FileInfo :=
  {| volume := MULTIPART_VOL; name := session_path; version_id := vid; is_latest := true; deleted := false; data_dir := dd;
     xl_v1 := false; mod_time_ms := mod_time; size := 0; mode := 0; written_by_version := 0;
     metadata := match content_type with Some ct => {[CONTENT_TYPE_META_KEY := ct]} | None => ∅ end;
     meta_sys := ∅; parts := []; erasure := ErasureInfo_default; data := None; num_versions := 0; fresh := true; idx := 0;
     checksum := []; versioned := false |}.

Definition create_session (quorum parity : nat) (session_path : string) (fi : FileInfo) (bs : list B) :
    option (StorageResult unit * list B) :=
  let n := length bs in
  if n <? parity then None
  else
    let fis := with_per_disk_index fi (default_erasure_info ((n - parity) mod 256) (parity mod 256) (n mod 256)) n in
    '(results, bs) ← fan (λ fi b, sb_update_metadata MULTIPART_VOL session_path fi {| no_persistence := false |} b) fis bs;
    if length (omap res_ok results) <? quorum then
      bs ← cleanup_src MULTIPART_VOL session_path bs;
      Some (Err (SIo (default (InvalidArgument "no quorum") (first_error results))), bs)
    else Some (Ok (), bs).

Definition create_multipart_upload (env : WriteEnv) (bucket key : string) (content_type : option string) (e : Engine B) :
    option (StorageResult MultipartInit * Engine B) :=
  match validate_bucket_name bucket with
  | Err er => Some (Err er, e)
  | Ok _ =>
      '(r, e) ← get_bucket_meta bucket e;
      match r with
      | Err er => Some (Err er, e)
      | Ok m =>
          let vid := next_version_id (we_version env) m in
          let uid := format_upload_id base64 (deployment_id (e_cluster e)) (we_simple env) (we_nanos env) in
          let session_path := bucket +:+ "/" +:+ key +:+ "/" +:+ uid in
          let fi := session_fi session_path vid (we_data_dir env) (we_now env) content_type in
          '(r, e) ← on_set bucket key
            (create_session (write_quorum (e_cluster e)) (default_parity_count (e_cluster e)) session_path fi) e;
          Some (match r with Ok _ => Ok {| upload_id := uid |} | Err er => Err er end, e)
      end
  end.

(** ** Parts *)

(** The commit of a staged part: the earlier upload of the part is removed, then
    the staged file is moved into place and its sidecar written. *)
Definition drop_part (final_part final_meta : string) (b : B) : option (unit * B) :=
  '(_, b) ← sb_delete MULTIPART_VOL final_part false b;
  '(_, b) ← sb_delete MULTIPART_VOL final_meta false b;
  Some ((), b).
Definition place_part (tmp final_part final_meta : string) (sidecar : bytes) (b : B) : option (IoResult unit * B) :=
  '(r, b) ← sb_rename_file STAGING_VOL tmp MULTIPART_VOL final_part b;
  match r with
  | Err e => Some (Err e, b)
  | Ok _ => sb_write_file MULTIPART_VOL final_meta sidecar b
  end.
Definition commit_part (bucket tmp final_dir number : string) (sidecar : bytes) (bs : list B) :
    option (StorageResult unit * list B) :=
  let final_part := final_dir +:+ "/part." +:+ number in
  let final_meta := final_part +:+ ".meta" in
  let n := length bs in
  '(_, bs) ← fan (λ (_ : unit) b, drop_part final_part final_meta b) (replicate n ()) bs;
  '(made, bs) ← each (sb_make_dir_all MULTIPART_VOL final_dir) bs;
  match require_quorum made n (λ _, false) with
  | Err e => Some (Err (map_bucket_or_io bucket e), bs)
  | Ok _ =>
      '(placed, bs) ← each (place_part tmp final_part final_meta sidecar) bs;
      Some (map_err (map_bucket_or_io bucket) (require_quorum placed n (λ _, false)), bs)
  end.

Definition upload_part_body (env : WriteEnv) (acquired : StorageResult LockGuard) (ec : Erasure) (bucket session_path dd : string)
    (number : Z) (sz : nat) (src : Src) (quorum : nat) (staging_id : string) (bs : list B) :
    option (StorageResult ObjectPartInfo * list B) :=
  let stripe_data := data_shards ec * ec_stripe_unit in
  let stripes := Nat.max (div_ceil sz stripe_data) 1 in
  let tmp := staging_id +:+ "/part." +:+ pretty number in
  '(opened, bs) ← open_part_staging_sinks tmp (stripes * ec_stripe_unit) bs;
  '(r, bs) ← write_stripes rs md5 ec src sz stripe_data stripes quorum opened bs;
  match r with
  | Err er => Some (Err (map_bucket_or_io bucket er), bs)
  | Ok etag =>
      let info := {| p_etag := etag; p_number := number; p_size := Z.of_nat (shard_size sz (data_shards ec));
                     p_actual_size := Z.of_nat sz; p_mod_time_ms := we_now env; p_index := []; p_checksums := ∅ |} in
      match part_to_vec info with
      | Err er => Some (Err (SIo (Encode ("part sidecar: " +:+ er))), bs)
      | Ok sidecar =>
          match acquired with
          | Err er => Some (Err er, bs)
          | Ok _ =>
              '(r, bs) ← commit_part bucket tmp (session_path +:+ "/" +:+ dd) (pretty number) sidecar bs;
              Some (match r with Ok _ => Ok info | Err er => Err er end, bs)
          end
      end
  end.

Definition upload_part (env : WriteEnv) (acquired : StorageResult LockGuard) (bucket key uid : string) (number : Z) (sz : nat)
    (src : Src) (e : Engine B) : option (StorageResult ObjectPartInfo * Engine B) :=
  if (number =? 0)%Z || (10000 <? number)%Z then
    Some (Err (SIo (InvalidArgument ("partNumber must be in 1..=10000, got " +:+ pretty number))), e)
  else
    match validate_bucket_name bucket with
    | Err er => Some (Err er, e)
    | Ok _ =>
        let session_path := bucket +:+ "/" +:+ key +:+ "/" +:+ uid in
        on_set bucket key (λ bs,
          '(r, bs) ← read_session_fi session_path bs;
          match r with
          | Err er => Some (Err er, bs)
          | Ok fi =>
              if bool_decide (data_dir fi = "") then Some (Err (SIo (InvalidArgument "session xl.meta missing data_dir")), bs)
              else
                let d := data_blocks (erasure fi) in
                let p := parity_blocks (erasure fi) in
                match Erasure_new d p with
                | Err er => Some (Err (SIo (InvalidArgument ("EC init (" +:+ pretty d +:+ "+" +:+ pretty p +:+ "): " +:+ io_msg er))), bs)
                | Ok ec =>
                    let staging_id := we_simple env +:+ "x" +:+ pretty (we_nanos env) in
                    '(r, bs) ← upload_part_body env acquired ec bucket session_path (data_dir fi) number sz src
                                 (write_quorum (e_cluster e)) staging_id bs;
                    match r with
                    | Ok info => Some (Ok info, bs)
                    | Err er => bs ← cleanup_src STAGING_VOL staging_id bs; Some (Err er, bs)
                    end
                end
          end) e
    end.

(** ** Completion *)

Definition assembled_fi (bucket key : string) (session : FileInfo) (total : Z) (mod_time : Z) (etag : string)
    (infos : list ObjectPartInfo) : FileInfo :=
  {| volume := bucket; name := key; version_id := version_id session; is_latest := true; deleted := false;
     data_dir := data_dir session; xl_v1 := false; mod_time_ms := mod_time; size := total; mode := 0; written_by_version := 0;
     metadata := <[ETAG_META_KEY := etag]> (metadata session); meta_sys := ∅; parts := infos; erasure := ErasureInfo_default;
     data := None; num_versions := 1; fresh := true; idx := 0; checksum := []; versioned := false |}.

(** The sidecars of the parts are removed from every drive. *)
Fixpoint drop_files (paths : list string) (b : B) : option (unit * B) :=
  match paths with
  | [] => Some ((), b)
  | p :: paths => '(_, b) ← sb_delete MULTIPART_VOL p false b; drop_files paths b
  end.

Definition complete_on_set (now : Z) (lock : LockGuard) (wq rq : nat) (bucket key uid : string)
    (named : list CompletePart) (bs : list B) : option (StorageResult ObjectInfo * list B) :=
  let n := length bs in
  let session_path := bucket +:+ "/" +:+ key +:+ "/" +:+ uid in
  '(r, bs) ← read_session_fi session_path bs;
  match r with
  | Err er => Some (Err er, bs)
  | Ok session =>
      let dd := data_dir session in
      if bool_decide (dd = "") then Some (Err (SIo (InvalidArgument "session xl.meta missing data_dir")), bs)
      else
        '(r, bs) ← read_part_sidecars session_path dd named rq bs;
        match r with
        | Err er => Some (Err er, bs)
        | Ok infos =>
            match check_parts hex_decode (zip named infos) 0 [] with
            | Err er => Some (Err er, bs)
            | Ok (total, digests) =>
                let etag := md5 digests +:+ "-" +:+ pretty (length named) in
                let fi := assembled_fi bucket key session total now etag infos in
                let fis := with_per_disk_index fi
                  (default_erasure_info (data_blocks (erasure session)) (parity_blocks (erasure session)) (n mod 256)) n in
                let metas := (λ p, session_path +:+ "/" +:+ dd +:+ "/part." +:+ pretty (part_number p) +:+ ".meta") <$> named in
                '(_, bs) ← fan (λ (_ : unit) b, drop_files metas b) (replicate n ()) bs;
                match check lock with
                | Err er => Some (Err er, bs)
                | Ok _ =>
                    '(r, bs) ← promote_versions bs MULTIPART_VOL session_path fis bucket key wq;
                    Some (match r with
                          | Err er => Err er
                          | Ok _ => Ok {| oi_bucket := bucket; oi_key := key; oi_size := as_u64 total; oi_etag := etag;
                                          oi_storage_class := Single; oi_modified_ms := now;
                                          oi_content_type := metadata fi !! CONTENT_TYPE_META_KEY;
                                          oi_version_id := version_id fi; oi_is_delete_marker := false |}
                          end, bs)
                end
            end
        end
  end.

Definition complete_multipart_upload (now : Z) (acquired : StorageResult LockGuard) (bucket key uid : string)
    (named : list CompletePart) (e : Engine B) : option (StorageResult ObjectInfo * Engine B) :=
  match validate_bucket_name bucket with
  | Err er => Some (Err er, e)
  | Ok _ =>
      match named, misordered named with
      | [], _ => Some (Err (SIo (InvalidArgument "CompleteMultipartUpload requires at least one part")), e)
      | _, Some (a, b) =>
          Some (Err (SIo (InvalidArgument ("parts must be ascending by part_number (got " +:+ pretty b +:+ " after "
                                           +:+ pretty a +:+ ")"))), e)
      | _, None =>
          match acquired with
          | Err er => Some (Err er, e)
          | Ok lock =>
              on_set bucket key (complete_on_set now lock (write_quorum (e_cluster e))
                (Nat.max (read_quorum (e_cluster e)) 1) bucket key uid named) e
          end
      end
  end.

(** ** Single writes *)

Definition resolve_put_version_id (fresh_uuid bucket : string) (e : Engine B) : option (StorageResult string * Engine B) :=
  '(r, e) ← get_bucket_meta bucket e;
  Some (match r with Ok m => Ok (next_version_id fresh_uuid m) | Err er => Err er end, e).

(** The drives of the object are looked up before the version is resolved; they
    are the same drives when the write reaches them. *)
Definition put (env : WriteEnv) (acquired : StorageResult LockGuard) (bucket key : string) (sz : nat) (src : Src)
    (content_type : option string) (e : Engine B) : option (StorageResult ObjectInfo * Engine B) :=
  match acquired with
  | Err er => Some (Err er, e)
  | Ok lock =>
      addrs ← disks_for siphash (e_cluster e) bucket key;
      match backends_at e addrs with
      | Err er => Some (Err er, e)
      | Ok _ =>
          '(r, e) ← resolve_put_version_id (we_version env) bucket e;
          match r with
          | Err er => Some (Err er, e)
          | Ok vid =>
              let parity := default_parity_count (e_cluster e) in
              let quorum := write_quorum (e_cluster e) in
              on_drives addrs (λ bs,
                if sz <=? inline_threshold e then
                  put_inline md5 lock parity bucket key sz src content_type (we_now env) vid (we_simple env) bs quorum
                else
                  put_ec rs md5 lock parity bucket key sz src content_type (we_now env) vid (we_data_dir env) (we_simple env)
                    bs quorum) e
          end
      end
  end.
End multipart.

(** ** Lemmas: votes *)

Lemma majority_key_spec {A} `{Countable A} (items : list A) threshold counts :
  (∀ k, default 0 (counts !! k) < threshold) →
  match majority_key items threshold counts with
  | Some k => k ∈ items ∧ threshold ≤ default 0 (counts !! k) + count k items
  | None => ∀ k, default 0 (counts !! k) + count k items < threshold
  end.
Proof.
  revert counts. induction items as [|x items IH]; intros counts Hc; cbn [majority_key].
  { intros k. specialize (Hc k). change (count k []) with 0. lia. }
  case_bool; to_prop.
  { split; [left|]. rewrite count_cons, decide_True by done. lia. }
  assert (∀ k, default 0 (<[x := S (default 0 (counts !! x))]> counts !! k) = default 0 (counts !! k) + if decide (x = k) then 1 else 0) as Hins.
  { intros k. destruct (decide (x = k)) as [->|]; [rewrite lookup_insert_eq; cbn; lia|rewrite lookup_insert_ne by done; lia]. }
  specialize (IH (<[x := S (default 0 (counts !! x))]> counts)).
  destruct (majority_key items threshold _) as [k|].
  - destruct IH as [Hin Hk].
    { intros k'. rewrite Hins. specialize (Hc k'). case_decide as Hx; [subst; lia|lia]. }
    split; [by right|]. rewrite count_cons. rewrite Hins in Hk. destruct (decide (x = k)), (decide (k = x)); try congruence; lia.
  - intros k. rewrite count_cons. specialize (IH ltac:(intros k'; rewrite Hins; specialize (Hc k'); case_decide as Hx; [subst; lia|lia]) k).
    rewrite Hins in IH. destruct (decide (x = k)), (decide (k = x)); try congruence; lia.
Qed.

(** ** Properties *)

(** Which upload the drives agree on: reading a session does not panic; it
    returns a record that a drive answered and whose data directory and erasure
    layout more than half of all drives answered, and it fails exactly when no
    such majority exists.  At most one data directory can win. *)
Theorem session_majority (session_path : string) (metas : list (IoResult FileInfo)) :
  let votes := session_key <$> omap res_ok metas in
  match session_of session_path metas with
  | Some (Ok fi) => Ok fi ∈ metas ∧ length metas < 2 * count (session_key fi) votes
      ∧ ∀ k, length metas < 2 * count k votes → k = session_key fi
  | Some (Err _) => ∀ k, 2 * count k votes ≤ length metas
  | None => False
  end.
Proof.
  intros votes. unfold session_of. fold votes.
  pose proof (majority_key_spec votes (length metas / 2 + 1) ∅ ltac:(intros k; rewrite lookup_empty; cbn; lia)) as Hm.
  assert (length votes ≤ length metas) as Hl by (unfold votes; rewrite length_fmap; apply length_omap).
  pose proof (Nat.div_mod (length metas) 2 ltac:(lia)). pose proof (Nat.mod_upper_bound (length metas) 2 ltac:(lia)).
  destruct (majority_key votes _ ∅) as [w|]; cbn [default].
  - destruct Hm as [Hin Hw]. rewrite lookup_empty in Hw. change (default 0 None) with 0 in Hw.
    unfold votes in Hin. apply list_elem_of_fmap in Hin as (fi & -> & Hfi).
    destruct (list_find (λ x, session_key x = session_key fi) (omap res_ok metas)) as [[i x]|] eqn:Ef.
    + cbn [mbind option_bind]. apply list_find_Some in Ef as (Hi & Hx & _). split.
      { apply list_elem_of_lookup_2 in Hi. apply list_elem_of_omap in Hi as ([y|] & Hy & [= ->]). done. }
      rewrite Hx. split; [lia|]. intros k Hk. destruct (decide (k = session_key fi)) as [|Hne]; [done|].
      pose proof (count_two k (session_key fi) votes Hne). lia.
    + apply list_find_None in Ef. rewrite Forall_forall in Ef. by destruct (Ef fi Hfi).
  - intros k. specialize (Hm k). rewrite lookup_empty in Hm. change (default 0 None) with 0 in Hm. lia.
Qed.

(** ** Lemmas: the checks of a completion *)

Definition total_size (infos : list ObjectPartInfo) : Z := foldr (λ i s, (p_actual_size i + s)%Z) 0%Z infos.

Lemma as_u64_i64 z : as_u64 (as_i64 z) = as_u64 z.
Proof.
  unfold as_u64, as_i64. rewrite Zminus_mod_idemp_l. f_equal. lia.
Qed.
Lemma as_i64_step a b : as_i64 (as_i64 a + b) = as_i64 (a + b).
Proof.
  unfold as_i64. replace ((a + 2 ^ 63) `mod` u64_mod - 2 ^ 63 + b + 2 ^ 63)%Z with ((a + 2 ^ 63) `mod` u64_mod + b)%Z by lia.
  rewrite Zplus_mod_idemp_l. do 2 f_equal. lia.
Qed.

Lemma check_parts_ok hex_decode named infos total0 digests0 total digests : length infos = length named →
  check_parts hex_decode (zip named infos) (as_i64 total0) digests0 = Ok (total, digests) →
  Forall2 (λ p i, to_ascii_lowercase (trim_quotes (cp_etag p)) = to_ascii_lowercase (p_etag i)) named infos
  ∧ (∀ k i, infos !! k = Some i → S k < length infos → (MIN_PART_SIZE ≤ p_actual_size i)%Z)
  ∧ total = as_i64 (total0 + total_size infos)
  ∧ ∃ raws, Forall2 (λ i raw, hex_decode (p_etag i) = Ok raw) infos raws ∧ digests = digests0 ++ concat raws.
Proof.
  revert infos total0 digests0. induction named as [|p named IH]; intros [|i infos] total0 digests0 Hl; try done; cbn [zip zip_with check_parts].
  { intros [= <- <-]. split_and!; [constructor|by intros|unfold total_size; cbn; f_equal; lia|]. exists []. split; [constructor|by rewrite app_nil_r]. }
  case_bool_decide as He; [|done]. cbn [negb].
  destruct ((0 <? length (zip named infos)) && (p_actual_size i <? MIN_PART_SIZE)%Z) eqn:Es; [done|].
  destruct (hex_decode (p_etag i)) as [raw|] eqn:Eh; [|done]. rewrite as_i64_step. intros Hc.
  destruct (IH infos (total0 + p_actual_size i)%Z (digests0 ++ raw)) as (H1 & H2 & H3 & raws & H4 & H5); [by injection Hl|exact Hc|].
  split_and!; [by constructor| |unfold total_size in *; cbn; rewrite H3; f_equal; lia|].
  - intros [|k] i' Hi Hk; cbn in Hi, Hk; [|eapply H2; [exact Hi|lia]]. injection Hi as <-.
    apply andb_false_iff in Es as [Es|Es]; to_prop; [|lia]. rewrite length_zip in Es. injection Hl as Hl. lia.
  - exists (raw :: raws). split; [by constructor|]. cbn. by rewrite H5, <-app_assoc.
Qed.

Section complete.
Context (part_from_slice : bytes → result string ObjectPartInfo) (hex_decode : string → result string bytes) (md5 : bytes → string).
Context {B : Type} `{SB : StorageBackend B}.

(** How many drives hold something for a file, and the first of them. *)
Definition holders (answers : list (IoResult (option bytes))) : list bytes :=
  omap (λ r : IoResult (option bytes), match r with Ok o => o | Err _ => None end) answers.
Lemma holders_some b answers : holders (Ok (Some b) :: answers) = b :: holders answers.
Proof. reflexivity. Qed.

Lemma sidecar_scan_spec number answers present found k p :
  sidecar_scan part_from_slice number answers present found = Ok (k, Some p) →
  k = present + length (holders answers)
  ∧ (found = Some p ∨ found = None ∧ ∃ b, head (holders answers) = Some b ∧ part_from_slice b = Ok p).
Proof.
  revert present found. induction answers as [|[[b|]|e] answers IH]; intros present found; cbn [sidecar_scan].
  - intros [= <- ->]. cbn. split; [lia|by left].
  - destruct found as [q|].
    + intros [-> [[= ->]|[[=] _]]]%IH. rewrite holders_some. cbn [length]. split; [lia|by left].
    + destruct (part_from_slice b) as [q|] eqn:Eb; [|done]. intros [-> [[= ->]|[[=] _]]]%IH. rewrite holders_some.
      cbn [length]. split; [lia|]. right. split; [done|]. by exists b.
  - intros H%IH. exact H.
  - intros H%IH. exact H.
Qed.

(** The sidecars of the parts, read one after the other from the drives [bs]:
    each is on [min_present] of them or more, and is what the first of them says. *)
Fixpoint held_parts (session_path dd : string) (min_present : nat) (named : list CompletePart) (infos : list ObjectPartInfo)
    (bs : list B) : Prop :=
  match named, infos with
  | [], [] => True
  | p :: named, i :: infos =>
      ∃ answers b bs', each (sb_read_file MULTIPART_VOL (session_path +:+ "/" +:+ dd +:+ "/part." +:+ pretty (part_number p) +:+ ".meta")) bs
                       = Some (answers, bs')
        ∧ length answers = length bs ∧ min_present ≤ length (holders answers)
        ∧ head (holders answers) = Some b ∧ part_from_slice b = Ok i
        ∧ held_parts session_path dd min_present named infos bs'
  | _, _ => False
  end.
Lemma held_parts_length session_path dd min_present named : ∀ infos bs,
  held_parts session_path dd min_present named infos bs → length infos = length named.
Proof.
  induction named as [|p named IH]; intros [|i infos] bs; [done..|]. cbn. intros (? & ? & bs' & _ & _ & _ & _ & _ & H). f_equal. by eapply IH.
Qed.

Lemma read_part_sidecars_ok session_path dd named min_present : ∀ (bs : list B) infos bs',
  read_part_sidecars part_from_slice session_path dd named min_present bs = Some (Ok infos, bs') →
  held_parts session_path dd min_present named infos bs.
Proof.
  induction named as [|p named IH]; intros bs infos bs'; cbn [read_part_sidecars]; [by intros [= <- _]|].
  destruct (each _ bs) as [[answers bs1]|] eqn:Ee; [|done]. cbn [mbind option_bind].
  destruct (sidecar_verdict _ _ _ _) as [i|e] eqn:Ev; [|done].
  destruct (read_part_sidecars _ _ _ named _ bs1) as [[r bs2]|] eqn:Er; [|done]. cbn [mbind option_bind].
  destruct r as [rest|e]; [|done]. intros [= <- <-].
  unfold sidecar_verdict in Ev. destruct (sidecar_scan _ _ _ _ _) as [[k found]|] eqn:Es; [|done].
  cbn [mbind result_bind] in Ev. destruct found as [q|]; [|done]. destruct (k <? min_present) eqn:El; [done|]. apply Nat.ltb_ge in El.
  injection Ev as ->. destruct (sidecar_scan_spec _ _ _ _ _ _ Es) as [-> [[=]|(_ & b & Hb & Hd)]].
  exists answers, b, bs1. pose proof (proj1 (each_length _ _ _ _ Ee)). split_and!; [done|done|lia|done|done|by eapply IH].
Qed.

(** C13.  What a successful completion of an upload means, over any drives: the
    lock was held at the fence; the session read back has a data directory; every
    part the client names has its sidecar on at least the read quorum of the
    drives of the set, read one after the other from the drives the session was
    read from, and is what the first of them says; the client's etag is the one
    recorded, up to case and quotes; every part
    but the last has at least 5 MiB; and the object reported has the total size
    of the parts, the version chosen when the upload began, and the digest of
    the part digests with the number of parts as its etag. *)
Theorem complete_sound (now : Z) (lock : LockGuard) (wq rq : nat) (bucket key uid : string) (named : list CompletePart)
    (bs bs' : list B) (info : ObjectInfo)
    (Hrun : complete_on_set part_from_slice hex_decode md5 now lock wq rq bucket key uid named bs = Some (Ok info, bs')) :
  let session_path := bucket +:+ "/" +:+ key +:+ "/" +:+ uid in
  check lock = Ok ()
  ∧ ∃ session bs1 infos raws, read_session_fi session_path bs = Some (Ok session, bs1) ∧ data_dir session ≠ ""
    ∧ held_parts session_path (data_dir session) rq named infos bs1
    ∧ Forall2 (λ p i, to_ascii_lowercase (trim_quotes (cp_etag p)) = to_ascii_lowercase (p_etag i)) named infos
    ∧ (∀ k i, infos !! k = Some i → S k < length infos → (MIN_PART_SIZE ≤ p_actual_size i)%Z)
    ∧ Forall2 (λ i raw, hex_decode (p_etag i) = Ok raw) infos raws
    ∧ oi_size info = as_u64 (total_size infos) ∧ oi_version_id info = version_id session
    ∧ oi_etag info = md5 (concat raws) +:+ "-" +:+ pretty (length named).
Proof.
  intros session_path. unfold complete_on_set in Hrun. fold session_path in Hrun.
  destruct (read_session_fi session_path bs) as [[r bs1]|] eqn:Es; [|done]. cbn [mbind option_bind] in Hrun.
  destruct r as [session|e]; [|done]. case_bool_decide as Hdd; [done|].
  destruct (read_part_sidecars _ _ _ _ _ _) as [[r bs2]|] eqn:Ep; [|done]. cbn [mbind option_bind] in Hrun.
  destruct r as [infos|e]; [|done]. pose proof (read_part_sidecars_ok _ _ _ _ _ _ _ Ep) as Hside.
  destruct (check_parts _ _ _ _) as [[total digests]|e] eqn:Ec; [|done].
  destruct (fan _ _ bs2) as [[us bs3]|]; [|done]. cbn [mbind option_bind] in Hrun.
  destruct (check lock) as [[]|e]; [|done]. split; [done|].
  destruct (promote_versions _ _ _ _ _ _ _) as [[r bs4]|]; [|done]. cbn [mbind option_bind] in Hrun.
  destruct r as [[]|e]; [|done]. injection Hrun as <- _. cbn [oi_size oi_version_id oi_etag].
  destruct (check_parts_ok hex_decode named infos 0 [] total digests) as (H1 & H2 & -> & raws & H4 & ->);
    [by eapply held_parts_length|exact Ec|].
  exists session, bs1, infos, raws. split_and!; try done. by rewrite as_u64_i64.
Qed.
End complete.

(** ** Evaluation *)

Definition part_one : ObjectPartInfo :=
  {| p_etag := "0a"; p_number := 1; p_size := 2; p_actual_size := 2; p_mod_time_ms := 5; p_index := []; p_checksums := ∅ |}.
Definition one_slice (b : bytes) : result string ObjectPartInfo := if decide (b = [x07]) then Ok part_one else Err "malformed".
Definition one_hex (s : string) : result string bytes := if decide (s = "0a") then Ok [x0a] else Err "not hex".
Definition upload_dir : string := sample_uuid xdd.
Definition session_fis : list FileInfo := set_records 1 2 (session_fi "b/k/u" NULL_VERSION_ID upload_dir 3 None).
Definition upload_fis : list FileInfo :=
  set_records 1 2 (assembled_fi "b" "k" (session_fi "b/k/u" NULL_VERSION_ID upload_dir 3 None) 2 9 (put_etag [x0a] +:+ "-1") [part_one]).
Definition upload_backend : StorageBackend LocalDrive :=
  LocalDrive_backend (table_to_vec ((λ fi, records_for [fi]) <$> session_fis ++ upload_fis))
    (table_from_slice ((λ fi, records_for [fi]) <$> session_fis ++ upload_fis)) sum_hash.

(** The session, created as the code does, and one uploaded part. *)
Definition with_part (b : LocalDrive) : LocalDrive :=
  let dir := [MULTIPART_VOL; "b"; "k"; "u"; upload_dir] in
  set_tree {| tree := <[dir ++ ["part.1.meta"] := NFile [x07]]> (<[dir ++ ["part.1"] := NFile [x01; x02]]>
                        (<[dir := NDir]> (tree (ld_disk b)))); ticks := ticks (ld_disk b) |} b.
Definition upload_drives : list LocalDrive :=
  match create_session (SB := upload_backend) 2 1 "b/k/u" (session_fi "b/k/u" NULL_VERSION_ID upload_dir 3 None)
          (replicate 2 (drive_of empty_drive)) with
  | Some (Ok _, bs) => with_part <$> bs
  | _ => []
  end.
Definition named_one : list CompletePart := [{| part_number := 1; cp_etag := String "034" ("0A" +:+ String "034" EmptyString) |}].
Definition completed : option (StorageResult ObjectInfo * list LocalDrive) :=
  complete_on_set (SB := upload_backend) one_slice one_hex put_etag 9 put_lock 2 1 "b" "k" "u" named_one upload_drives.

Example upload_completes : (λ r : StorageResult ObjectInfo * list LocalDrive, is_ok r.1) <$> completed = Some true.
Proof. vm_compute. reflexivity. Qed.

(** The sidecars are removed before the fence: a completion that finds its lock
    lost cannot be repeated. *)
Definition lost_lock : LockGuard := {| g_resource := Some "obj:b/k"; g_uid := Some "u1"; g_state := {| stop := false; lost := true |} |}.
Definition retried : option (bool * bool) :=
  '(r1, bs) ← complete_on_set (SB := upload_backend) one_slice one_hex put_etag 9 lost_lock 2 1 "b" "k" "u" named_one upload_drives;
  '(r2, _) ← complete_on_set (SB := upload_backend) one_slice one_hex put_etag 9 put_lock 2 1 "b" "k" "u" named_one bs;
  Some (is_ok r1, is_ok r2).
Example upload_stranded : retried = Some (false, false).
Proof. vm_compute. reflexivity. Qed.

Lemma complete_sound_witness : ∃ info bs', completed = Some (Ok info, bs') ∧ oi_size info = 2%Z
  ∧ oi_etag info = put_etag [x0a] +:+ "-1".
Proof.
  pose proof upload_completes as Hc. destruct completed as [[[info|e] bs']|] eqn:E; [|discriminate Hc|discriminate Hc].
  exists info, bs'. split; [reflexivity|].
  destruct (complete_sound (SB := upload_backend) one_slice one_hex put_etag 9 put_lock 2 1 "b" "k" "u" named_one upload_drives bs' info E)
    as (_ & session & bs1 & infos & raws & _ & _ & HF & _ & _ & Hraws & Hsize & _ & Hetag).
  destruct infos as [|i [|i' infos]]; [destruct HF| |cbn in HF; destruct HF as (? & ? & ? & _ & _ & _ & _ & _ & [])].
  destruct HF as (answers & b & bs2 & _ & _ & _ & _ & Hb & _).
  unfold one_slice in Hb. destruct (decide (b = [x07])); [|discriminate Hb]. injection Hb as <-.
  inversion Hraws as [|i' raw l2 raws' Hraw Hr1]; subst. inversion Hr1; subst. unfold one_hex in Hraw. injection Hraw as <-.
  split; [rewrite Hsize; reflexivity|exact Hetag].
Defined.
