(* ===== verification/S3.v ===== *)
(** * The S3 front end

    [openlake_server/src/s3/error.rs] and the object handlers of
    [openlake_server/src/s3/handlers/objects.rs]: how a request is taken apart
    (version id, [Range], [x-amz-copy-source], the mode of its body), which
    engine call it becomes, and the response, with its status, its headers and
    the frames of its body.  The engine is a parameter of each handler; the HTTP
    types, the date formats and the XML writer are not part of the repository. *)

From stdpp Require Import base gmap strings pretty list.
From Stdlib Require Import Strings.Ascii.
From S2P Require Import Prelude Text Types Ec Streams EcStream Get Auth Body.

(** ** Errors *)

Inductive AppError :=
  | AppAuth (e : AuthError)
  | AppStorage (e : StorageError)
  | BadRequest (msg : string)
  | Malformed (msg : string)
  | NotImplemented (msg : string).

(** A status, an S3 code and a message. *)
Definition map_storage (e : StorageError) : Z * string * string :=
  let '(status, code) := match e with
    | ObjectNotFound _ _ => (404%Z, "NoSuchKey")
    | VersionNotFound _ _ _ => (404%Z, "NoSuchVersion")
    | BucketNotFound _ => (404%Z, "NoSuchBucket")
    | BucketAlreadyExists _ => (409%Z, "BucketAlreadyExists")
    | BucketNotEmpty _ => (409%Z, "BucketNotEmpty")
    | InvalidBucketName _ => (400%Z, "InvalidBucketName")
    | InvalidObjectKey _ => (400%Z, "InvalidObjectName")
    | LockTimeout _ => (503%Z, "SlowDown")
    | LockLost _ => (503%Z, "SlowDown")
    | InsufficientOnlineDrives _ _ _ => (503%Z, "ServiceUnavailable")
    | InconsistentMeta _ _ _ => (503%Z, "ServiceUnavailable")
    | SIo _ => (500%Z, "InternalError")
    end in
  (status, code, storage_to_string e).

(** The same for an entry of a [DeleteObjects] answer. *)
Definition storage_error_to_s3_code (e : StorageError) : string * string :=
  match e with
  | ObjectNotFound _ _ => ("NoSuchKey", storage_to_string e)
  | VersionNotFound _ _ _ => ("NoSuchVersion", storage_to_string e)
  | BucketNotFound _ => ("NoSuchBucket", storage_to_string e)
  | InvalidObjectKey _ => ("InvalidArgument", storage_to_string e)
  | LockTimeout _ => ("SlowDown", storage_to_string e)
  | InsufficientOnlineDrives _ _ _ => ("ServiceUnavailable", storage_to_string e)
  | _ => ("InternalError", storage_to_string e)
  end.

Definition error_parts (e : AppError) : Z * string * string :=
  match e with
  | AppAuth e => let '(status, code) := status_and_code e in (status, code, auth_to_string e)
  | AppStorage e => map_storage e
  | BadRequest msg => (400%Z, "BadRequest", msg)
  | Malformed msg => (400%Z, "MalformedRequest", msg)
  | NotImplemented msg => (501%Z, "NotImplemented", msg)
  end.

(** ** Requests *)

(** [str::trim_start_matches]. *)
Fixpoint trim_start_matches (c : ascii) (s : string) : string :=
  match s with
  | EmptyString => EmptyString
  | String x r => if decide (x = c) then trim_start_matches c r else s
  end.

(** A byte of a multi-byte character is no hexadecimal digit, so that counting
    bytes accepts what counting characters accepts. *)
Definition parse_version_id (raw : option string) : result AppError (option string) :=
  match raw with
  | None => Ok None
  | Some s =>
      let s := trim s in
      if decide (s = "") then Ok None
      else if decide (s = NULL_VERSION_ID) then Ok (Some s)
      else
        let hex_chars := length (filter (λ c, c ≠ "-"%char) (String.list_ascii_of_string s)) in
        let all_hex := all_chars (λ c, bool_decide (c = "-"%char) || is_ascii_hexdigit c) s in
        if (hex_chars =? 32) && all_hex then Ok (Some s)
        else Err (BadRequest ("invalid versionId: must be empty, the literal " +:+ quoted "null" +:+ ", or a canonical UUID"))
  end.

Section requests.
(** [HeaderValue::to_str]; [percent_encoding::percent_decode_str]; the date parser. *)
Context (to_str : bytes → option string) (percent_decode_str : string → bytes) (parse_datetime : string → result string Z).

(** [headers.get(name).and_then(|v| v.to_str().ok())]. *)
Definition header_text (headers : string → option bytes) (name : string) : option string :=
  v ← headers name; to_str v.
(** [.and_then(|s| s.parse().ok())] after it. *)
Definition header_u64 (headers : string → option bytes) (name : string) : option Z :=
  s ← header_text headers name; parse_u64 s.

Definition range_u64 (s : string) : result AppError Z := ok_or (parse_u64 s) (Malformed "invalid integer in Range").
Definition parse_range_header (headers : string → option bytes) : result AppError (option ByteRange) :=
  match headers "range" with
  | None => Ok None
  | Some v =>
      raw ← ok_or (to_str v) (Malformed "invalid Range header");
      spec ← ok_or (strip_prefix "bytes=" raw) (Malformed "Range must start with 'bytes='");
      if has_char "," spec then Err (Malformed "multi-range requests are not supported")
      else
        '(start_str, end_str) ← ok_or (split_once "-" spec) (Malformed "Range missing '-' separator");
        match bool_decide (start_str = ""), bool_decide (end_str = "") with
        | true, true => Err (Malformed "Range 'bytes=-' has neither start nor suffix")
        | true, false => last_n ← range_u64 end_str; Ok (Some (Suffix last_n))
        | false, true => start ← range_u64 start_str; Ok (Some (OpenEnded start))
        | false, false =>
            start ← range_u64 start_str;
            end_ ← range_u64 end_str;
            if (end_ <? start)%Z then Err (Malformed "Range end is before start") else Ok (Some (Bounded start end_))
        end
  end.

Definition parse_copy_source (value : bytes) : result AppError (string * string) :=
  raw ← ok_or (to_str value) (Malformed "x-amz-copy-source must be ASCII");
  decoded ← ok_or (from_utf8 (percent_decode_str (trim_start_matches "/" raw)))
              (Malformed "x-amz-copy-source must be valid UTF-8");
  if contains "?versionId=" decoded then Err (NotImplemented "CopyObject with versionId is not supported")
  else
    '(bucket, key) ← ok_or (split_once "/" decoded) (Malformed "x-amz-copy-source must be /bucket/key");
    if decide (bucket = "" ∨ key = "") then Err (Malformed "x-amz-copy-source must be /bucket/key")
    else Ok (bucket, key).

(** The size the engine is told, and the stream it reads. *)
Definition build_body_source (auth : AuthState) (headers : string → option bytes) (body : list Frame) (content_length : Z) :
    result AppError (Z * BodySource) :=
  content_sha ← ok_or (header_text headers "x-amz-content-sha256") (AppAuth MissingContentSha);
  let decoded_len := header_u64 headers "x-amz-decoded-content-length" in
  if decide (content_sha = SHA_UNSIGNED) then Ok (content_length, plain body)
  else if decide (content_sha = SHA_STREAMING) then
    hv ← ok_or (headers "authorization") (AppAuth MissingAuth);
    auth_hdr ← ok_or (to_str hv) (AppAuth (MalformedAuth "Authorization not ASCII"));
    parsed ← map_err AppAuth (parse_authorization auth_hdr);
    dv ← ok_or (headers "x-amz-date") (AppAuth MissingDate);
    amz_date ← ok_or (to_str dv) (AppAuth (BadDate "non-ASCII"));
    request_time ← map_err AppAuth (parse_amz_date parse_datetime amz_date);
    secret ← ok_or (secret_for auth (pa_access_key parsed)) (AppAuth (InvalidAccessKeyId (pa_access_key parsed)));
    decoded ← ok_or decoded_len (AppAuth MissingDecodedContentLength);
    Ok (decoded, chunked body (pa_signature parsed) (pa_access_key parsed) secret (as_region auth) request_time)
  else if decide (content_sha = SHA_STREAMING_TRAILER) then
    Err (NotImplemented ("STREAMING-AWS4-HMAC-SHA256-PAYLOAD-TRAILER: chunked + trailer-header checksum mode pending implementation"))
  else if decide (content_sha = SHA_STREAMING_UNSIGNED_TRAILER) then
    Err (NotImplemented ("STREAMING-UNSIGNED-PAYLOAD-TRAILER: chunked unsigned + trailer-header checksum mode pending implementation"))
  else if is_hex_sha256 content_sha then
    match hex_sha body content_sha with
    | Ok src => Ok (content_length, src)
    | Err _ => Err (BadRequest "PUT body initialization failed")
    end
  else Err (AppAuth (UnsupportedContentSha content_sha)).
End requests.

(** ** Responses *)

Record DeletedEntry := { de_key : string; de_version_id : option string }.
Record ErrorEntry := { ee_key : string; ee_version_id : option string; ee_code : string; ee_message : string }.

(** The documents of [s3/xml.rs] and [s3/error.rs], before they are written out;
    each carries the S3 name space. *)
Inductive XmlDoc :=
  | ErrorDoc (code message resource : string)
  | DeleteResult (deleted : list DeletedEntry) (errors : list ErrorEntry)
  | InitiateMultipartUploadResult (bucket key upload_id : string)
  | CompleteMultipartUploadResult (location bucket key etag : string)
  | CopyObjectResult (last_modified etag : string).
Definition CompleteMultipartUploadResult_new (bucket key etag : string) : XmlDoc :=
  CompleteMultipartUploadResult ("/" +:+ bucket +:+ "/" +:+ key) bucket key etag.

Section responses.
(** [HeaderValue::from_str], and the dates of the [time] crate. *)
Context (header_value : string → option bytes).
Context {DateTime : Type} (from_unix_timestamp : Z → option DateTime) (UNIX_EPOCH : DateTime).
Context (format_http : DateTime → option string) (rfc3339 : Z → option string).
Context {Str : Type} `{ByteStream Str}.

(** A streamed body: the source, the bytes to serve and those already sent. *)
Inductive RespBody := NoBody | XmlBody (doc : XmlDoc) | StreamBody (s : Str) (cap sent : Z).
Record Response := { rs_status : Z; rs_headers : gmap string bytes; rs_body : RespBody }.

Definition into_response (e : AppError) : Response :=
  let '(status, code, message) := error_parts e in
  {| rs_status := status; rs_headers := {["content-type" := str_bytes "application/xml"]};
     rs_body := XmlBody (ErrorDoc code message "") |}.
Definition Xml (doc : XmlDoc) : Response :=
  {| rs_status := 200; rs_headers := {["content-type" := str_bytes "application/xml"]}; rs_body := XmlBody doc |}.
Definition not_found : Response := into_response (Malformed "no route matches method+path").

(** [if let Ok(v) = HeaderValue::from_str(s) { headers.insert(name, v) }]. *)
Definition insert_text (name s : string) (headers : gmap string bytes) : gmap string bytes :=
  match header_value s with Some v => <[name := v]> headers | None => headers end.
Definition insert_u64 (name : string) (n : Z) (headers : gmap string bytes) : gmap string bytes :=
  <[name := str_bytes (pretty n)]> headers.
Definition insert_version (info : ObjectInfo) (headers : gmap string bytes) : gmap string bytes :=
  if decide (oi_version_id info = "") then headers else insert_text "x-amz-version-id" (oi_version_id info) headers.

Definition http_date_rfc1123 (ms : Z) : string :=
  default "Thu, 01 Jan 1970 00:00:00 GMT" (format_http (default UNIX_EPOCH (from_unix_timestamp (ms / 1000)%Z))).
Definition rfc3339_from_ms (ms : Z) : string := default "1970-01-01T00:00:00Z" (rfc3339 (ms * 1000000)%Z).

Definition populate_object_headers (info : ObjectInfo) (headers : gmap string bytes) : gmap string bytes :=
  let headers := insert_text "etag" (quoted (oi_etag info)) headers in
  let headers := insert_text "last-modified" (http_date_rfc1123 (oi_modified_ms info)) headers in
  let headers := match oi_content_type info with Some ct => insert_text "content-type" ct headers | None => headers end in
  insert_version info headers.

(** [None]: the [expect] of a header value fails. *)
Definition stream_object_response (info : ObjectInfo) (s : Str) (range : option (Z * Z)) : option Response :=
  let total := oi_size info in
  let '(status, served_len) := match range with None => (200%Z, total) | Some (_, len) => (206%Z, len) end in
  let headers := insert_u64 "content-length" served_len (populate_object_headers info ∅) in
  headers ← match range with
            | Some (offset, len) =>
                let end_ := ((offset + len - 1) `mod` u64_mod)%Z in
                v ← header_value ("bytes " +:+ pretty offset +:+ "-" +:+ pretty end_ +:+ "/" +:+ pretty total);
                Some (<["content-range" := v]> headers)
            | None => Some headers
            end;
  Some {| rs_status := status; rs_headers := <["accept-ranges" := str_bytes "bytes"]> headers;
          rs_body := StreamBody s served_len 0 |}.

Definition range_not_satisfiable (info : ObjectInfo) : option Response :=
  v ← header_value ("bytes */" +:+ pretty (oi_size info));
  let headers := <["content-range" := v]> (populate_object_headers info ∅) in
  Some {| rs_status := 416; rs_headers := <["accept-ranges" := str_bytes "bytes"]> (insert_u64 "content-length" 0 headers);
          rs_body := NoBody |}.

(** One step of the frame loop: the next frame, an error with its text, or the end. *)
Definition next_frame (s : Str) (cap sent : Z) : option (option (result string bytes * (Str * Z))) :=
  if (cap <=? sent)%Z then Some None
  else
    '(r, s) ← read s;
    Some match r with
         | Ok [] => None
         | Ok chunk =>
             let n := Z.to_nat (Z.min (cap - sent) (Z.of_nat (length chunk))) in
             let frame := if n <? length chunk then take n chunk else chunk in
             Some (Ok frame, (s, (sent + Z.of_nat (length frame))%Z))
         | Err e => Some (Err (io_to_string e), (s, sent))
         end.
(** The body as it is sent: an error ends it. *)
Fixpoint body_frames (fuel : nat) (s : Str) (cap sent : Z) : option (list (result string bytes)) :=
  match fuel with
  | 0 => None
  | S fuel =>
      step ← next_frame s cap sent;
      match step with
      | None => Some []
      | Some (Err e, _) => Some [Err e]
      | Some (Ok frame, (s, sent)) => frames ← body_frames fuel s cap sent; Some (Ok frame :: frames)
      end
  end.
End responses.
Arguments RespBody : clear implicits.
Arguments Response : clear implicits.

(** ** Handlers *)

Record ObjectQuery := {
  q_version_id : option string; q_part_number : option Z; q_upload_id : option string; q_uploads : option string
}.
Record DeleteRequestObject := { do_key : string; do_version_id : option string }.
Record DeleteRequest := { dr_quiet : option bool; dr_objects : list DeleteRequestObject }.

Definition DELETE_OBJECTS_MAX_KEYS : nat := 1000.

(** What the engine reads when it stores an object. *)
Inductive PutSource (Str : Type) := FromRequest (b : BodySource) | FromObject (s : Str).
Arguments FromRequest {Str} _.
Arguments FromObject {Str} _.

(** The engine's calls, over its state; [None] is a call that does not return. *)
Record Engine (E Str : Type) := {
  en_get_opts : string → string → option string → option ByteRange → E →
    option (StorageResult (ObjectInfo * option (Z * Z) * Str));
  en_get : string → string → E → option (StorageResult (ObjectInfo * Str));
  en_stat : string → string → E → option (StorageResult ObjectInfo);
  en_stat_version : string → string → string → E → option (StorageResult ObjectInfo);
  en_put : string → string → Z → PutSource Str → option string → E → option (StorageResult ObjectInfo * E);
  en_delete : string → string → E → option (StorageResult unit * E);
  en_delete_objects : string → list string → E → option (StorageResult (list (StorageResult unit)) * E);
  en_create_multipart_upload : string → string → option string → E → option (StorageResult string * E);
  en_upload_part : string → string → string → Z → Z → BodySource → E → option (StorageResult string * E);
  en_complete_multipart_upload : string → string → string → list CompletePart → E → option (StorageResult ObjectInfo * E)
}.
Arguments en_get_opts {E Str} _.
Arguments en_get {E Str} _.
Arguments en_stat {E Str} _.
Arguments en_stat_version {E Str} _.
Arguments en_put {E Str} _.
Arguments en_delete {E Str} _.
Arguments en_delete_objects {E Str} _.
Arguments en_create_multipart_upload {E Str} _.
Arguments en_upload_part {E Str} _.
Arguments en_complete_multipart_upload {E Str} _.

Section handlers.
Context (to_str : bytes → option string) (percent_decode_str : string → bytes) (parse_datetime : string → result string Z).
Context (header_value : string → option bytes).
Context {DateTime : Type} (from_unix_timestamp : Z → option DateTime) (UNIX_EPOCH : DateTime).
Context (format_http : DateTime → option string) (rfc3339 : Z → option string).
(** [axum::body::to_bytes] with a limit; the XML reader; the encoded MD5 digest. *)
Context (to_bytes : list Frame → Z → option bytes).
Context (read_delete : bytes → option DeleteRequest) (read_complete : bytes → option (list CompletePart)).
Context (base64_md5 : bytes → string).
Context {E Str : Type} (engine : Engine E Str) (auth : AuthState).

Abbreviation populate := (populate_object_headers header_value from_unix_timestamp UNIX_EPOCH format_http).
Abbreviation stream_response := (stream_object_response header_value from_unix_timestamp UNIX_EPOCH format_http (Str := Str)).
Abbreviation unsatisfiable := (range_not_satisfiable header_value from_unix_timestamp UNIX_EPOCH format_http (Str := Str)).
Abbreviation reply := (result AppError (Response Str)).

Definition get_object (bucket key : string) (query : ObjectQuery) (headers : string → option bytes) (st : E) : option reply :=
  match (version_id ← parse_version_id (q_version_id query);
         range_spec ← parse_range_header to_str headers; Ok (version_id, range_spec)) with
  | Err e => Some (Err e)
  | Ok (version_id, range_spec) =>
      r ← en_get_opts engine bucket key version_id range_spec st;
      match r with
      | Err e => Some (Err (AppStorage e))
      | Ok (info, range, s) =>
          if bool_decide (is_Some range_spec ∧ range = None) then Ok <$> unsatisfiable info
          else Ok <$> stream_response info s range
      end
  end.

Definition head_object (bucket key : string) (query : ObjectQuery) (st : E) : option reply :=
  match parse_version_id (q_version_id query) with
  | Err e => Some (Err e)
  | Ok version_id =>
      r ← match version_id with
          | None => en_stat engine bucket key st
          | Some vid => en_stat_version engine bucket key vid st
          end;
      Some match r with
           | Err e => Err (AppStorage e)
           | Ok info =>
               if oi_is_delete_marker info then
                 let hs := insert_version header_value info {["x-amz-delete-marker" := str_bytes "true"]} in
                 Ok {| rs_status := if version_id is Some _ then 405 else 404; rs_headers := hs; rs_body := NoBody |}
               else Ok {| rs_status := 200; rs_headers := insert_u64 "content-length" (oi_size info) (populate info ∅);
                          rs_body := NoBody |}
           end
  end.

(** The answer to a call of the engine that changes its state. *)
Definition finish {A} (ok : A → Response Str) (o : option (StorageResult A * E)) : option (reply * E) :=
  '(r, st) ← o; Some (match r with Ok a => Ok (ok a) | Err e => Err (AppStorage e) end, st).

Definition delete_object (bucket key : string) (st : E) : option (reply * E) :=
  finish (λ _, {| rs_status := 204; rs_headers := ∅; rs_body := NoBody |}) (en_delete engine bucket key st).

(** What a [DeleteObjects] request asks for, once it has been checked. *)
Definition delete_request (headers : string → option bytes) (body : list Frame) : result AppError DeleteRequest :=
  content_length ← ok_or (header_u64 to_str headers "content-length") (Malformed "DeleteObjects requires Content-Length");
  let supplied_md5 := header_text to_str headers "content-md5" in
  let supplied_sha256 := header_text to_str headers "x-amz-checksum-sha256" in
  if bool_decide (supplied_md5 = None ∧ supplied_sha256 = None) then
    Err (Malformed "DeleteObjects requires Content-MD5 or x-amz-checksum-sha256")
  else
    b ← ok_or (to_bytes body content_length) (Malformed "DeleteObjects body unreadable");
    if (match supplied_md5 with Some expected => negb (bool_decide (base64_md5 b = expected)) | None => false end) then
      Err (Malformed "Content-MD5 does not match request body")
    else
      request ← ok_or (read_delete b) (Malformed "invalid <Delete> XML");
      if decide (dr_objects request = []) then Err (Malformed "<Delete> must contain at least one <Object>")
      else if DELETE_OBJECTS_MAX_KEYS <? length (dr_objects request) then
        Err (Malformed "<Delete> exceeds the 1000-key limit")
      else if existsb (λ o, match do_version_id o with
                            | Some v => bool_decide (v ≠ "" ∧ v ≠ "null")
                            | None => false
                            end) (dr_objects request) then
        Err (NotImplemented "DeleteObjects with non-null <VersionId> entries is not yet implemented")
      else Ok request.

(** The entries of the answer, in the order of the request. *)
Definition delete_entries (quiet : bool) (outcomes : list (DeleteRequestObject * StorageResult unit)) : XmlDoc :=
  DeleteResult
    (if quiet then [] else
     omap (λ or, match or.2 with
                 | Ok _ => Some {| de_key := do_key or.1; de_version_id := do_version_id or.1 |}
                 | Err _ => None
                 end) outcomes)
    (omap (λ or, match or.2 with
                 | Ok _ => None
                 | Err e => let '(code, message) := storage_error_to_s3_code e in
                     Some {| ee_key := do_key or.1; ee_version_id := do_version_id or.1; ee_code := code; ee_message := message |}
                 end) outcomes).
Definition delete_objects (bucket : string) (headers : string → option bytes) (body : list Frame) (st : E) :
    option (reply * E) :=
  match delete_request headers body with
  | Err e => Some (Err e, st)
  | Ok request =>
      finish (λ outcomes, Xml (delete_entries (default false (dr_quiet request)) (zip (dr_objects request) outcomes)))
        (en_delete_objects engine bucket (do_key <$> dr_objects request) st)
  end.

Definition create_multipart_handler (bucket key : string) (headers : string → option bytes) (st : E) : option (reply * E) :=
  finish (λ upload_id, Xml (InitiateMultipartUploadResult bucket key upload_id))
    (en_create_multipart_upload engine bucket key (header_text to_str headers "content-type") st).

Definition complete_request (body : list Frame) : result AppError (list CompletePart) :=
  b ← ok_or (to_bytes body (2 ^ 20)) (Malformed "CompleteMultipartUpload body unreadable or too large");
  parts ← ok_or (read_complete b) (Malformed "invalid <CompleteMultipartUpload> XML");
  if decide (parts = []) then Err (Malformed "CompleteMultipartUpload requires at least one <Part>") else Ok parts.
Definition complete_multipart_handler (bucket key upload_id : string) (body : list Frame) (st : E) : option (reply * E) :=
  match complete_request body with
  | Err e => Some (Err e, st)
  | Ok parts =>
      finish (λ info, Xml (CompleteMultipartUploadResult_new bucket key (quoted (oi_etag info))))
        (en_complete_multipart_upload engine bucket key upload_id parts st)
  end.

Definition post_object (bucket key : string) (query : ObjectQuery) (headers : string → option bytes) (body : list Frame)
    (st : E) : option (reply * E) :=
  match q_uploads query, q_upload_id query with
  | Some _, None => create_multipart_handler bucket key headers st
  | None, Some uid => complete_multipart_handler bucket key uid body st
  | Some _, Some _ => Some (Err (Malformed "?uploads and ?uploadId are mutually exclusive"), st)
  | None, None => Some (Err (Malformed "object POST requires ?uploads or ?uploadId"), st)
  end.

Definition copy_object (dst_bucket dst_key : string) (copy_source : bytes) (headers : string → option bytes) (st : E) :
    option (reply * E) :=
  match parse_copy_source to_str percent_decode_str copy_source with
  | Err e => Some (Err e, st)
  | Ok (src_bucket, src_key) =>
      let replace_metadata := match header_text to_str headers "x-amz-metadata-directive" with
                              | Some v => eq_ignore_ascii_case v "REPLACE"
                              | None => false
                              end in
      if match header_text to_str headers "x-amz-tagging-directive" with
         | Some v => negb (eq_ignore_ascii_case v "COPY")
         | None => false
         end
      then Some (Err (NotImplemented "CopyObject tagging replacement is not supported"), st)
      else
        r ← en_get engine src_bucket src_key st;
        match r with
        | Err e => Some (Err (AppStorage e), st)
        | Ok (src_info, src_stream) =>
            let content_type := if replace_metadata then header_text to_str headers "content-type"
                                else oi_content_type src_info in
            finish (λ info, Xml (CopyObjectResult (rfc3339_from_ms rfc3339 (oi_modified_ms info)) (quoted (oi_etag info))))
              (en_put engine dst_bucket dst_key (oi_size src_info) (FromObject src_stream) content_type st)
        end
  end.

Definition upload_part_handler (bucket key upload_id : string) (part_number : Z) (headers : string → option bytes)
    (body : list Frame) (st : E) : option (reply * E) :=
  match (content_length ← ok_or (header_u64 to_str headers "content-length") (Malformed "UploadPart requires Content-Length");
         build_body_source to_str parse_datetime auth headers body content_length) with
  | Err e => Some (Err e, st)
  | Ok (engine_size, src) =>
      finish (λ etag, {| rs_status := 200; rs_headers := insert_text header_value "etag" (quoted etag) ∅; rs_body := NoBody |})
        (en_upload_part engine bucket key upload_id part_number engine_size src st)
  end.

Definition put_object (bucket key : string) (query : ObjectQuery) (headers : string → option bytes) (body : list Frame)
    (st : E) : option (reply * E) :=
  match headers "x-amz-copy-source" with
  | Some copy_source => copy_object bucket key copy_source headers st
  | None =>
      match q_part_number query, q_upload_id query with
      | Some n, Some uid => upload_part_handler bucket key uid n headers body st
      | None, None =>
          match (content_length ← ok_or (header_u64 to_str headers "content-length") (Malformed "missing or invalid Content-Length");
                 build_body_source to_str parse_datetime auth headers body content_length) with
          | Err e => Some (Err e, st)
          | Ok (engine_size, src) =>
              finish (λ info, {| rs_status := 200; rs_body := NoBody;
                                 rs_headers := insert_version header_value info
                                                 (insert_text header_value "etag" (quoted (oi_etag info)) ∅) |})
                (en_put engine bucket key engine_size (FromRequest src) (header_text to_str headers "content-type") st)
          end
      | _, _ => Some (Err (Malformed "partNumber and uploadId must both be present or both absent"), st)
      end
  end.
End handlers.

(** ** Lemmas *)

Definition visible (c : ascii) : bool := (32 <=? nat_of_ascii c) && (nat_of_ascii c <=? 126).

Lemma digit_visible c : is_ascii_digit c = true → visible c = true.
Proof. destruct c as [[] [] [] [] [] [] [] []]; vm_compute; done. Qed.

Lemma all_chars_app f a b : all_chars f (a +:+ b) = all_chars f a && all_chars f b.
Proof. induction a as [|c a IH]; [done|]. simpl. by rewrite IH, andb_assoc. Qed.

Lemma pretty_visible z : (0 ≤ z)%Z → all_chars visible (pretty z) = true.
Proof.
  intros Hz. destruct (pretty_digits z Hz) as [Hd _]. revert Hd. generalize (pretty z). intros s.
  induction s as [|c s IH]; [done|]. simpl. intros [Hc Hs]%andb_prop. by rewrite digit_visible, IH.
Qed.

(** A range as a client writes it. *)
Definition range_text (r : ByteRange) : string :=
  "bytes=" +:+ match r with
               | Bounded s e => pretty s +:+ "-" +:+ pretty e
               | OpenEnded s => pretty s +:+ "-"
               | Suffix n => "-" +:+ pretty n
               end.

Lemma has_char_app c a b : has_char c (a +:+ b) = has_char c a || has_char c b.
Proof. induction a as [|d a IH]; [done|]. simpl. by rewrite IH, orb_assoc. Qed.

Lemma pretty_free c z : is_ascii_digit c = false → (0 ≤ z)%Z → has_char c (pretty z) = false.
Proof. intros Hc Hz. apply digits_free; [done|]. by apply pretty_digits. Qed.

Lemma range_u64_pretty z : (0 ≤ z < u64_mod)%Z → range_u64 (pretty z) = Ok z.
Proof. intros Hz. unfold range_u64. by rewrite parse_u64_pretty. Qed.

Lemma split_range a b : has_char "-" a = false → split_once "-" (a +:+ "-" +:+ b) = Some (a, b).
Proof. intros Ha. by apply split_once_spec. Qed.

Lemma parse_range_text to_str (headers : string → option bytes) v r : headers "range" = Some v →
  to_str v = Some (range_text r) → range_ok r → parse_range_header to_str headers = Ok (Some r).
Proof.
  intros Hh Hv Hr. unfold parse_range_header. rewrite Hh, Hv. cbn [ok_or mbind result_bind]. unfold range_text.
  rewrite (proj2 (strip_prefix_spec _ _ _) eq_refl). cbn [ok_or mbind result_bind].
  destruct r as [s e|s|n]; simpl in Hr; rewrite ?has_char_app, ?pretty_free by (done || lia); cbn [has_char orb].
  - rewrite bool_decide_false by done. cbn [orb]. rewrite split_range by (apply pretty_free; [done|lia]).
    cbn [ok_or mbind result_bind]. rewrite !bool_decide_false by (apply pretty_digits; lia).
    rewrite !range_u64_pretty by lia. cbn [mbind result_bind]. by rewrite (proj2 (Z.ltb_ge _ _)) by lia.
  - rewrite bool_decide_false by done. cbn [orb]. change "-" with ("-" +:+ ""). rewrite split_range by (apply pretty_free; [done|lia]).
    cbn [ok_or mbind result_bind]. rewrite bool_decide_false, bool_decide_true by (done || apply pretty_digits; lia).
    by rewrite range_u64_pretty.
  - rewrite bool_decide_false by done. cbn [orb].
    change ("-" +:+ pretty n) with ("" +:+ "-" +:+ pretty n). rewrite (split_range "") by done. cbn [ok_or mbind result_bind].
    rewrite bool_decide_true, bool_decide_false by (done || apply pretty_digits; lia). by rewrite range_u64_pretty.
Qed.

(** The header a response sets last under a name. *)
Ltac header_lookup :=
  cbn [rs_headers]; unfold insert_u64; repeat (rewrite lookup_insert_ne by discriminate); apply lookup_insert_eq.

(** The frames of a body with the announced length are its bytes. *)
Lemma body_frames_yields {Str} `{ByteStream Str} fuel (s : Str) cap sent bs :
  yields s bs → cap = (sent + Z.of_nat (length bs))%Z → length bs < fuel →
  ∃ frames, body_frames fuel s cap sent = Some (Ok <$> frames) ∧ concat frames = bs.
Proof.
  revert s sent bs. induction fuel as [|fuel IH]; intros s sent bs Hy Hcap Hf; [lia|]. cbn [body_frames]. unfold next_frame.
  destruct (Z.leb_spec cap sent) as [Hle|Hgt].
  { exists []. split; [done|]. destruct bs; [done|]. simpl in Hcap. lia. }
  destruct (read_yields _ _ Hy) as (chunk & rest & s' & -> & -> & Hy' & Hend). cbn [mbind option_bind].
  destruct chunk as [|b0 chunk]; [rewrite (Hend eq_refl) in Hcap; simpl in Hcap; lia|].
  rewrite length_app in Hcap, Hf. set (ch := b0 :: chunk) in *. assert (0 < length ch) by (simpl; lia). clearbody ch.
  rewrite Z.min_r, Nat2Z.id, Nat.ltb_irrefl by lia. cbn [mbind option_bind].
  destruct (IH s' (sent + Z.of_nat (length ch))%Z rest Hy') as (frames & -> & Hc); [lia|lia|].
  exists (ch :: frames). split; [done|]. simpl. by rewrite Hc.
Qed.

(** ** Properties *)

(** C19.  A GET answers as RFC 7233 asks, from the text of the request to the
    frames of the response: without a [Range] header the whole object with
    status 200; with one (written with any numbers of 64 bits) status 206, the
    window in [Content-Range], its length in [Content-Length] and exactly its
    bytes in the body; and when no byte of the object is in the range, status
    416 with the size of the object and no body.  The object is whatever the
    engine serves as an [ObjectReader]. *)
Theorem get_object_serves to_str header_value {DateTime} (from_unix_timestamp : Z → option DateTime) UNIX_EPOCH format_http
    {E Str} `{ByteStream Str} (engine : Engine E Str) (bucket key : string) (query : ObjectQuery)
    (headers : string → option bytes) (st : E) (vid : option string) (info : ObjectInfo) (content : bytes) (range : option ByteRange)
    (Hreader : ObjectReader (λ range, en_get_opts engine bucket key vid range st) info content)
    (Hvid : parse_version_id (q_version_id query) = Ok vid)
    (Hrange : match range with
              | None => headers "range" = None
              | Some r => range_ok r ∧ ∃ v, headers "range" = Some v ∧ to_str v = Some (range_text r)
              end)
    (Hvisible : ∀ s, all_chars visible s = true → header_value s = Some (str_bytes s)) :
  let size := Z.of_nat (length content) in
  ∃ resp, get_object to_str header_value from_unix_timestamp UNIX_EPOCH format_http engine bucket key query headers st = Some (Ok resp)
    ∧ match range, range ≫= λ r, resolve r size with
      | Some _, None =>
          rs_status resp = 416%Z ∧ rs_body resp = NoBody
          ∧ rs_headers resp !! "content-range" = Some (str_bytes ("bytes */" +:+ pretty size))
          ∧ rs_headers resp !! "content-length" = Some (str_bytes "0")
      | _, window =>
          rs_status resp = (if window is Some _ then 206 else 200)%Z
          ∧ rs_headers resp !! "content-length" = Some (str_bytes (pretty (Z.of_nat (length (asked range content)))))
          ∧ (∀ off len, window = Some (off, len) → rs_headers resp !! "content-range"
               = Some (str_bytes ("bytes " +:+ pretty off +:+ "-" +:+ pretty (off + len - 1)%Z +:+ "/" +:+ pretty size)))
          ∧ ∃ s cap, rs_body resp = StreamBody s cap 0
              ∧ ∀ fuel, length content < fuel →
                  ∃ frames, body_frames fuel s cap 0 = Some (Ok <$> frames) ∧ concat frames = asked range content
      end.
Proof.
  cbn zeta. destruct Hreader as [Hsize Hwidth Hget]. unfold get_object. rewrite Hvid. cbn [mbind result_bind].
  assert (parse_range_header to_str headers = Ok range) as ->.
  { destruct range as [r|]; [|unfold parse_range_header; by rewrite Hrange].
    destruct Hrange as (Hr & v & Hv & Ht). by eapply parse_range_text. }
  cbn [mbind result_bind]. destruct (Hget range) as (s & -> & Hy).
  { intros r ->. by destruct Hrange. }
  cbn [mbind option_bind]. rewrite Hsize. pose proof (length_asked range content) as Hle.
  destruct range as [r|]; cbn [mbind option_bind]; [destruct (resolve r _) as [[off len]|] eqn:Er|].
  - destruct (resolve_inside r (Z.of_nat (length content)) off len) as (H1 & H2 & H3); [lia|by destruct Hrange|done|].
    rewrite bool_decide_false by (intros [_ ?]; done). unfold stream_object_response.
    rewrite Hsize, Z.mod_small, Hvisible by (lia || by rewrite !all_chars_app, !pretty_visible by lia).
    cbn [mbind option_bind fmap option_fmap option_map]. eexists. split; [done|]. split; [done|].
    assert (len = Z.of_nat (length (asked (Some r) content))) as ->.
    { unfold asked. rewrite Er, length_take, length_drop. lia. }
    split; [header_lookup|]. split; [intros off' len' [= <- <-]; header_lookup|].
    eexists _, _. split; [done|]. intros fuel Hf. apply body_frames_yields; [done|lia|lia].
  - rewrite bool_decide_true by (split; [by eexists|done]). unfold range_not_satisfiable.
    rewrite Hsize, Hvisible by (by rewrite all_chars_app, pretty_visible by lia).
    eexists. split; [done|]. split; [done|]. split; [done|]. split; header_lookup.
  - rewrite bool_decide_false by (intros [[? ?] _]; done). eexists. split; [done|]. split; [done|].
    split; [rewrite Hsize; header_lookup|]. split; [done|]. eexists _, _. split; [done|].
    intros fuel Hf. rewrite Hsize. apply body_frames_yields; [done|simpl; lia|simpl; lia].
Qed.

(** An engine that serves one object and does nothing else. *)
Definition one_object {Str} (get : option ByteRange → option (StorageResult (ObjectInfo * option (Z * Z) * Str))) : Engine unit Str := {|
  en_get_opts _ _ _ range _ := get range;
  en_get _ _ _ := None; en_stat _ _ _ := None; en_stat_version _ _ _ _ := None; en_put _ _ _ _ _ _ := None;
  en_delete _ _ _ := None; en_delete_objects _ _ _ := None; en_create_multipart_upload _ _ _ _ := None;
  en_upload_part _ _ _ _ _ _ _ := None; en_complete_multipart_upload _ _ _ _ _ := None
|}.
Definition no_query : ObjectQuery :=
  {| q_version_id := None; q_part_number := None; q_upload_id := None; q_uploads := None |}.
Definition range_headers (n : string) : option bytes :=
  if decide (n = "range") then Some (str_bytes "bytes=2-3") else None.
Definition get_sample : option (result AppError (Response (body_stream BytesByteStream))) :=
  get_object (λ b, Some (of_bytes b)) (λ s, Some (str_bytes s)) (λ t, Some t) 0%Z (λ t, Some (pretty t))
    (one_object (get_body [disk 0; disk 1; disk 2] "b" "k" sample_fi)) "b" "k" no_query range_headers ().

Lemma get_object_serves_witness : ∃ resp s cap frames,
  get_sample = Some (Ok resp) ∧ rs_status resp = 206%Z
  ∧ rs_headers resp !! "content-range" = Some (str_bytes "bytes 2-3/5")
  ∧ rs_body resp = StreamBody s cap 0
  ∧ body_frames (H := body_stream_stream xor_codec) 6 s cap 0 = Some (Ok <$> frames) ∧ concat frames = [x03; x0a].
Proof.
  destruct (get_object_serves (H := body_stream_stream xor_codec) (λ b, Some (of_bytes b)) (λ s, Some (str_bytes s))
    (λ t, Some t) 0%Z (λ t, Some (pretty t)) (one_object (get_body [disk 0; disk 1; disk 2] "b" "k" sample_fi)) "b" "k" no_query
    range_headers () None (to_object_info "b" sample_fi) (concat [pd1; pd2]) (Some (Bounded 2 3))) as (resp & Hget & Hresp).
  - exact (ec_reader xor_codec [disk 0; disk 1; disk 2] "b" "k" sample_fi 512 [pd1; pd2] sample_object).
  - reflexivity.
  - split; [simpl; unfold u64_mod; lia|]. exists (str_bytes "bytes=2-3"). split; reflexivity.
  - reflexivity.
  - destruct Hresp as (Hs & _ & Hr & s & cap & Hb & Hf). destruct (Hf 6) as (frames & Hfr & Hc); [simpl; lia|].
    exists resp, s, cap, frames. split; [exact Hget|]. split; [exact Hs|]. split; [exact (Hr 2%Z 2%Z eq_refl)|].
    split; [exact Hb|]. split; [exact Hfr|exact Hc].
Defined.
