(* ===== verification/Buckets.v ===== *)
(** * Bucket handlers of the S3 front end

    [openlake_server/src/s3/handlers/buckets.rs], the documents of [s3/xml.rs]
    they answer with, the administrative answers of [s3/app.rs] and the in-memory
    store.  The engine is a record of its calls; HTTP, XML and dates are
    parameters, as in [S3]. *)

From stdpp Require Import base gmap strings sorting pretty list.
From Stdlib Require Import Strings.Ascii.
From S2P Require Import Prelude Text Types Streams Auth Body Listing Format Config S3.

(** ** Requests and documents *)

Record BucketQuery := {
  bq_location : option string; bq_versioning : option string; bq_list_type : option string; bq_force : option string;
  bq_prefix : option string; bq_max_keys : option Z; bq_continuation_token : option string; bq_start_after : option string;
  bq_delimiter : option string; bq_marker : option string
}.
Definition flag_present (v : option string) : bool := match v with Some _ => true | None => false end.

Definition LIST_DEFAULT_MAX_KEYS : Z := 1000.
Definition LIST_HARD_CAP_MAX_KEYS : Z := 1000.

Definition UNIMPLEMENTED_BUCKET_SUBRESOURCES : list string :=
  ["acl"; "policy"; "policyStatus"; "lifecycle"; "cors"; "encryption"; "tagging"; "logging"; "notification"; "replication";
   "website"; "object-lock"; "accelerate"; "analytics"; "inventory"; "metrics"; "ownershipControls"; "publicAccessBlock";
   "intelligent-tiering"; "requestPayment"; "versions"; "uploads"].
Definition unimplemented_subresource (query : string) : option string :=
  head (omap (λ kv, let key := match split_once "=" kv with Some (k, _) => k | None => kv end in
                    List.find (String.eqb key) UNIMPLEMENTED_BUCKET_SUBRESOURCES) (split_char "&" query)).
Definition unimplemented_text (name : string) : string :=
  default "bucket sub-resource is not implemented"
    ((list_to_map
        [("acl", "GetBucketAcl is not implemented"); ("policy", "GetBucketPolicy is not implemented");
         ("policyStatus", "GetBucketPolicyStatus is not implemented");
         ("lifecycle", "GetBucketLifecycleConfiguration is not implemented"); ("cors", "GetBucketCors is not implemented");
         ("encryption", "GetBucketEncryption is not implemented"); ("tagging", "GetBucketTagging is not implemented");
         ("logging", "GetBucketLogging is not implemented");
         ("notification", "GetBucketNotificationConfiguration is not implemented");
         ("replication", "GetBucketReplication is not implemented"); ("website", "GetBucketWebsite is not implemented");
         ("object-lock", "GetObjectLockConfiguration is not implemented");
         ("accelerate", "GetBucketAccelerateConfiguration is not implemented");
         ("analytics", "ListBucketAnalyticsConfigurations is not implemented");
         ("inventory", "ListBucketInventoryConfigurations is not implemented");
         ("metrics", "ListBucketMetricsConfigurations is not implemented");
         ("ownershipControls", "GetBucketOwnershipControls is not implemented");
         ("publicAccessBlock", "GetPublicAccessBlock is not implemented");
         ("intelligent-tiering", "ListBucketIntelligentTieringConfigurations is not implemented");
         ("requestPayment", "GetBucketRequestPayment is not implemented");
         ("versions", "ListObjectVersions is not implemented"); ("uploads", "ListMultipartUploads is not implemented")]
      : gmap string string) !! name).

Record Owner := { ow_id : string; ow_display_name : string }.
Definition v1_owner : Owner := {| ow_id := "openlake"; ow_display_name := "openlake" |}.
Record ListBucketObject := {
  lo_key : string; lo_last_modified : string; lo_etag : string; lo_size : Z; lo_storage_class : string; lo_owner : option Owner
}.
Record ListBucketResult := {
  lr_name : string; lr_prefix : string; lr_key_count : Z; lr_max_keys : Z; lr_is_truncated : bool; lr_delimiter : option string;
  lr_continuation_token : option string; lr_next_continuation_token : option string; lr_contents : list ListBucketObject;
  lr_common_prefixes : list string
}.
Record ListBucketResultV1 := {
  l1_name : string; l1_prefix : string; l1_marker : string; l1_next_marker : option string; l1_max_keys : Z;
  l1_delimiter : option string; l1_is_truncated : bool; l1_contents : list ListBucketObject; l1_common_prefixes : list string
}.
Record BucketEntry := { be_name : string; be_creation_date : string }.

Inductive BucketReply :=
  | StatusReply (status : Z)
  | LocationReply (region : string)
  | VersioningReply (status : option string)
  | ListReply (doc : ListBucketResult)
  | ListReplyV1 (doc : ListBucketResultV1)
  | BucketsReply (buckets : list BucketEntry).
Definition for_status (s : VersioningStatus) : option string :=
  match s with Enabled => Some "Enabled" | Suspended => Some "Suspended" | Unversioned => None end.

(** ** The entries of a listing *)

Inductive ListEntry := EObject (info : ObjectInfo) | EPrefix (prefix : string).
Definition entry_name (e : ListEntry) : string := match e with EObject info => oi_key info | EPrefix p => p end.

Definition str_take (n : nat) (s : string) : string := String.substring 0 n s.
(** The entry of one key. *)
Definition entry_of (prefix delim : string) (info : ObjectInfo) : ListEntry :=
  match strip_prefix prefix (oi_key info) with
  | None => EObject info
  | Some rest =>
      match find_str delim rest with
      | Some idx => EPrefix (prefix +:+ str_take (idx + String.length delim) rest)
      | None => EObject info
      end
  end.
Fixpoint rollup_loop (prefix delim : string) (infos : list ObjectInfo) (prev : option string) : list ListEntry :=
  match infos with
  | [] => []
  | info :: infos =>
      match entry_of prefix delim info with
      | EObject info => EObject info :: rollup_loop prefix delim infos prev
      | EPrefix common =>
          if decide (prev = Some common) then rollup_loop prefix delim infos prev
          else EPrefix common :: rollup_loop prefix delim infos (Some common)
      end
  end.
Definition rollup_entries (infos : list ObjectInfo) (prefix delim : string) : list ListEntry := rollup_loop prefix delim infos None.

(** ** The engine's calls *)

Record BucketEngine (E : Type) := {
  be_list : string → string → option string → nat → E → option (StorageResult (list ObjectInfo));
  be_create_bucket : string → BucketMeta → E → option (StorageResult unit * E);
  be_delete_bucket : string → bool → E → option (StorageResult unit * E);
  be_stat_bucket : string → E → option (StorageResult unit);
  be_get_bucket_versioning : string → E → option (StorageResult VersioningStatus);
  be_put_bucket_versioning : string → VersioningStatus → E → option (StorageResult unit * E);
  be_list_buckets : E → option (StorageResult (list (string * Z)))
}.
Arguments be_list {E} _.
Arguments be_create_bucket {E} _.
Arguments be_delete_bucket {E} _.
Arguments be_stat_bucket {E} _.
Arguments be_get_bucket_versioning {E} _.
Arguments be_put_bucket_versioning {E} _.
Arguments be_list_buckets {E} _.

Section handlers.
Context (to_str : bytes → option string) (rfc3339 : Z → option string).
Context (to_bytes : list Frame → Z → option bytes) (read_versioning : bytes → option (option string)).
Context {E : Type} (engine : BucketEngine E) (auth : AuthState).

Abbreviation app := (result AppError).

Definition by_key (a b : ObjectInfo) : bool := bool_decide (String.compare (oi_key a) (oi_key b) ≠ Gt).

(** [entries[end - 1]] panics when the page is empty. *)
Definition list_page (bucket prefix : string) (delimiter cursor : option string) (max_keys : nat) (st : E) :
    option (app (list ListEntry * bool * option string)) :=
  match delimiter with
  | Some delim =>
      r ← be_list engine bucket prefix None 0 st;
      match r with
      | Err e => Some (Err (AppStorage e))
      | Ok infos =>
          let entries := rollup_entries (sort_by by_key infos) prefix delim in
          let start := match cursor with
                       | Some c => match list_find (λ e, str_ltb c (entry_name e) = true) entries with
                                   | Some (i, _) => i
                                   | None => length entries
                                   end
                       | None => 0
                       end in
          let stop := Nat.min (start + max_keys) (length entries) in
          let truncated := stop <? length entries in
          next ← if truncated then last ← entries !! (stop - 1); Some (Some (entry_name last)) else Some None;
          Some (Ok (take (stop - start) (drop start entries), truncated, next))
      end
  | None =>
      r ← be_list engine bucket prefix cursor max_keys st;
      match r with
      | Err e => Some (Err (AppStorage e))
      | Ok infos =>
          let infos := sort_by by_key infos in
          let truncated := max_keys <? length infos in
          let returned := take (Nat.min max_keys (length infos)) infos in
          let next := if truncated then oi_key <$> last returned else None in
          Some (Ok (EObject <$> returned, truncated, next))
      end
  end.

Definition storage_class_label (sc : StorageClass) : string := match sc with Inline | Single => "STANDARD" end.
Definition object_to_xml (owner : option Owner) (info : ObjectInfo) : ListBucketObject :=
  {| lo_key := oi_key info; lo_last_modified := rfc3339_from_ms rfc3339 (oi_modified_ms info); lo_etag := quoted (oi_etag info);
     lo_size := oi_size info; lo_storage_class := storage_class_label (oi_storage_class info); lo_owner := owner |}.
Definition split_page (page : list ListEntry) (owner : option Owner) : list ListBucketObject * list string :=
  (omap (λ e, match e with EObject info => Some (object_to_xml owner info) | EPrefix _ => None end) page,
   omap (λ e, match e with EObject _ => None | EPrefix p => Some p end) page).

Definition clamp (z lo hi : Z) : Z := Z.max lo (Z.min z hi).
Definition max_keys_of (query : BucketQuery) : Z :=
  clamp (default LIST_DEFAULT_MAX_KEYS (bq_max_keys query)) 1 LIST_HARD_CAP_MAX_KEYS.
Definition delimiter_of (query : BucketQuery) : option string :=
  match bq_delimiter query with Some d => if decide (d = "") then None else Some d | None => None end.

Definition list_objects_v2 (bucket : string) (query : BucketQuery) (st : E) : option (app BucketReply) :=
  let prefix := default "" (bq_prefix query) in
  let max_keys := max_keys_of query in
  let delimiter := delimiter_of query in
  let cursor := match bq_continuation_token query with Some t => Some t | None => bq_start_after query end in
  r ← list_page bucket prefix delimiter cursor (Z.to_nat max_keys) st;
  match r with
  | Err e => Some (Err e)
  | Ok (page, truncated, next_token) =>
      let '(contents, common_prefixes) := split_page page None in
      Some (Ok (ListReply
        {| lr_name := bucket; lr_prefix := prefix;
           lr_key_count := (Z.of_nat (length contents + length common_prefixes) `mod` u32_mod)%Z; lr_max_keys := max_keys;
           lr_is_truncated := truncated; lr_delimiter := delimiter; lr_continuation_token := bq_continuation_token query;
           lr_next_continuation_token := next_token; lr_contents := contents; lr_common_prefixes := common_prefixes |}))
  end.

Definition list_objects_v1 (bucket : string) (query : BucketQuery) (st : E) : option (app BucketReply) :=
  let prefix := default "" (bq_prefix query) in
  let max_keys := max_keys_of query in
  let delimiter := delimiter_of query in
  let marker := bq_marker query in
  r ← list_page bucket prefix delimiter marker (Z.to_nat max_keys) st;
  match r with
  | Err e => Some (Err e)
  | Ok (page, truncated, next_marker) =>
      let '(contents, common_prefixes) := split_page page (Some v1_owner) in
      Some (Ok (ListReplyV1
        {| l1_name := bucket; l1_prefix := prefix; l1_marker := default "" marker; l1_next_marker := next_marker;
           l1_max_keys := max_keys; l1_delimiter := delimiter; l1_is_truncated := truncated; l1_contents := contents;
           l1_common_prefixes := common_prefixes |}))
  end.

Definition get_bucket_query (bucket : string) (query : BucketQuery) (uri_query : option string) (st : E) : option (app BucketReply) :=
  if flag_present (bq_location query) then Some (Ok (LocationReply (as_region auth)))
  else if flag_present (bq_versioning query) then
    r ← be_get_bucket_versioning engine bucket st;
    Some (match r with Err e => Err (AppStorage e) | Ok status => Ok (VersioningReply (for_status status)) end)
  else match unimplemented_subresource (default "" uri_query) with
       | Some name => Some (Err (NotImplemented (unimplemented_text name)))
       | None => if flag_present (bq_list_type query) then list_objects_v2 bucket query st else list_objects_v1 bucket query st
       end.

(** What an engine call means for the answer. *)
Definition replied (status : Z) (r : option (StorageResult unit * E)) : option (app BucketReply * E) :=
  '(r, st) ← r;
  Some (match r with Err e => Err (AppStorage e) | Ok _ => Ok (StatusReply status) end, st).

Definition versioning_body (headers : string → option bytes) (body : list Frame) : app VersioningStatus :=
  content_length ← ok_or (header_u64 to_str headers "content-length") (Malformed "PutBucketVersioning requires Content-Length");
  b ← ok_or (to_bytes body content_length) (Malformed "versioning body unreadable");
  status ← ok_or (read_versioning b) (Malformed "invalid VersioningConfiguration XML");
  if decide (status = Some "Enabled") then Ok Enabled
  else if decide (status = Some "Suspended") then Ok Suspended
  else Err (Malformed "versioning Status must be Enabled or Suspended").

Definition put_bucket (now_ms : Z) (bucket : string) (query : BucketQuery) (headers : string → option bytes) (body : list Frame) (st : E) :
    option (app BucketReply * E) :=
  if flag_present (bq_versioning query) then
    match versioning_body headers body with
    | Err e => Some (Err e, st)
    | Ok new_status => replied 200 (be_put_bucket_versioning engine bucket new_status st)
    end
  else if match header_text to_str headers "x-amz-bucket-object-lock-enabled" with
          | Some v => bool_decide (to_ascii_lowercase v = "true")
          | None => false
          end
  then Some (Err (NotImplemented "Object Lock is not supported"), st)
  else replied 200 (be_create_bucket engine bucket (BucketMeta_new now_ms false) st).

Definition delete_bucket (bucket : string) (query : BucketQuery) (st : E) : option (app BucketReply * E) :=
  replied 204 (be_delete_bucket engine bucket (flag_present (bq_force query)) st).
Definition head_bucket (bucket : string) (st : E) : option (app BucketReply) :=
  r ← be_stat_bucket engine bucket st;
  Some (match r with Err e => Err (AppStorage e) | Ok _ => Ok (StatusReply 200) end).
Definition list_buckets (st : E) : option (app BucketReply) :=
  r ← be_list_buckets engine st;
  Some match r with
       | Err e => Err (AppStorage e)
       | Ok listed => Ok (BucketsReply ((λ nc, {| be_name := nc.1; be_creation_date := rfc3339_from_ms rfc3339 nc.2 |}) <$> listed))
       end.
End handlers.

(** ** Administration and the in-memory store *)

Definition mask_secret (c : Credential) : Credential := {| access_key := access_key c; secret_key := "***" |}.
Definition serve_admin_config (c : Config) : Config :=
  {| self_id := 0; data_dirs := data_dirs c; s3_addr := s3_addr c; s3_port := s3_port c; cfg_rpc_addr := cfg_rpc_addr c;
     cfg_set_drive_count := cfg_set_drive_count c; cfg_default_parity_count := cfg_default_parity_count c; region := region c;
     credentials := mask_secret <$> credentials c; cfg_nodes := cfg_nodes c; s3_tls := s3_tls c; rpc_tls := rpc_tls c;
     memory_pool := memory_pool c; mode := mode c; transport := transport c;
     rdma := (λ r, {| self_node_id := 0; dev_name := dev_name r; dc_key := dc_key r; qos := qos r; bulk_pool_cap := bulk_pool_cap r;
                      network_timeout_secs := network_timeout_secs r; srq_depth := srq_depth r; max_send_wr := max_send_wr r;
                      peer_credit := peer_credit r; max_clients := max_clients r |}) <$> rdma c;
     kv_slab := kv_slab c |}.
Definition serve_admin_ping (c : Config) : string * nat := ("ok", self_id c).

Definition InMemoryStore : Type := gmap string bytes.
Definition store_get (key : string) (s : InMemoryStore) : option bytes := s !! key.
Definition store_put (key : string) (value : bytes) (s : InMemoryStore) : InMemoryStore := <[key := value]> s.
Definition cache_get (key : string) (s : InMemoryStore) : Z * option bytes :=
  match store_get key s with Some b => (200%Z, Some b) | None => (404%Z, None) end.
Definition cache_put (key : string) (body : bytes) (s : InMemoryStore) : Z * InMemoryStore := (200%Z, store_put key body s).

(** ** Lemmas: strings *)

Lemma prefix_spec p s : String.prefix p s = true ↔ ∃ r, s = p +:+ r.
Proof.
  revert s. induction p as [|a p IH]; intros s; [split; [by exists s|by destruct s]|].
  destruct s as [|b s]; [split; [done|by intros [r ?]]|]. cbn. destruct (ascii_dec a b) as [->|Hne].
  - rewrite IH. split; intros [r Hr]; exists r; [by rewrite Hr|by injection Hr].
  - split; [done|]. intros [r [= -> _]]. done.
Qed.

Lemma prefix_app d u b b' : String.length d ≤ String.length u → String.prefix d (u +:+ b) = String.prefix d (u +:+ b').
Proof.
  revert u. induction d as [|a d IH]; intros u Hl; [by destruct (u +:+ b), (u +:+ b')|].
  destruct u as [|c u]; cbn in Hl; [lia|].
  change (String c u +:+ b) with (String c (u +:+ b)). change (String c u +:+ b') with (String c (u +:+ b')). cbn [String.prefix].
  destruct (ascii_dec a c); [|done]. apply IH. lia.
Qed.

Lemma find_str_split d s i : find_str d s = Some i →
  ∃ a b, s = a +:+ d +:+ b ∧ String.length a = i ∧ ∀ b', find_str d (a +:+ d +:+ b') = Some i.
Proof.
  revert i. induction s as [|x s IH]; intros i; cbn [find_str].
  - destruct (String.prefix d "") eqn:Hp; [|done]. intros [= <-]. apply prefix_spec in Hp as [b Hb]. exists "", b.
    split_and!; [exact Hb|done|]. intros b'. change ("" +:+ d +:+ b') with (d +:+ b').
    assert (String.prefix d (d +:+ b') = true) as Hd by (apply prefix_spec; by exists b').
    by destruct (d +:+ b'); cbn [find_str]; rewrite Hd.
  - destruct (String.prefix d (String x s)) eqn:Hp.
    + intros [= <-]. apply prefix_spec in Hp as [b Hb]. exists "", b. split_and!; [exact Hb|done|]. intros b'.
      change ("" +:+ d +:+ b') with (d +:+ b').
      assert (String.prefix d (d +:+ b') = true) as Hd by (apply prefix_spec; by exists b').
      by destruct (d +:+ b'); cbn [find_str]; rewrite Hd.
    + destruct (find_str d s) as [j|] eqn:Hf; [|done]. cbn. intros [= <-]. destruct (IH j eq_refl) as (a & b & -> & Hl & Hb).
      exists (String x a), b. split_and!; [done|cbn; by rewrite Hl|]. intros b'.
      change (String x a +:+ d +:+ b') with (String x (a +:+ d +:+ b')). cbn [find_str].
      replace (String.prefix d (String x (a +:+ d +:+ b'))) with false; [by rewrite Hb|]. rewrite <-Hp.
      change (String x (a +:+ d +:+ ?z)) with (String x a +:+ d +:+ z). rewrite <-!append_assoc. apply prefix_app.
      rewrite string_length_app. lia.
Qed.

Lemma str_take_app u v n : String.length u = n → str_take n (u +:+ v) = u.
Proof.
  intros <-. unfold str_take. induction u as [|a u IH]; [by destruct v|].
  change (String a u +:+ v) with (String a (u +:+ v)). cbn [String.length String.substring]. by rewrite IH.
Qed.

(** A string below an extension of [p], and not itself one, is below [p]. *)
Lemma str_lt_prefix k p r : str_lt k (p +:+ r) → (∀ r', k ≠ p +:+ r') → str_lt k p.
Proof.
  revert k. induction p as [|a p IH]; intros k Hlt Hno; [by destruct (Hno k)|].
  destruct k as [|b k]; [done|]. revert Hlt. change (String a p +:+ r) with (String a (p +:+ r)).
  unfold str_lt, str_ltb, String.ltb. cbn [String.compare].
  destruct (Ascii.compare b a) eqn:E; [|done|done]. apply Ascii.compare_eq_iff in E as ->. intros Hlt. apply IH; [done|].
  intros r' ->. by apply (Hno r').
Qed.
Lemma str_le_prefix p r : p = p +:+ r ∨ str_lt p (p +:+ r).
Proof.
  induction p as [|a p IH].
  - destruct r; [by left|by right].
  - destruct IH as [IH|IH]; [left|right]; change (String a p +:+ r) with (String a (p +:+ r)); [by rewrite <-IH|].
    revert IH. unfold str_lt, str_ltb, String.ltb. cbn [String.compare].
    assert (Ascii.compare a a = Eq) as -> by apply N.compare_refl. done.
Qed.

(** ** Lemmas: entries *)

Section entries.
Context (prefix delim : string).
Abbreviation entry := (entry_of prefix delim).

Lemma entry_prefix o p : entry o = EPrefix p →
  (∃ r, oi_key o = p +:+ r) ∧ ∀ o' r, oi_key o' = p +:+ r → entry o' = EPrefix p.
Proof.
  unfold entry_of. destruct (strip_prefix prefix (oi_key o)) as [rest|] eqn:Hs; [|done].
  destruct (find_str delim rest) as [i|] eqn:Hf; [|done]. intros [= <-]. apply strip_prefix_spec in Hs.
  destruct (find_str_split delim rest i Hf) as (a & b & -> & Hl & Hb).
  assert (∀ z, str_take (i + String.length delim) (a +:+ delim +:+ z) = a +:+ delim) as Ht.
  { intros z. rewrite <-append_assoc. apply str_take_app. rewrite string_length_app. lia. }
  rewrite Ht. split.
  - exists b. by rewrite Hs, !append_assoc.
  - intros o' r Hk. assert (strip_prefix prefix (oi_key o') = Some (a +:+ delim +:+ r)) as ->.
    { apply strip_prefix_spec. by rewrite Hk, !append_assoc. }
    by rewrite Hb, Ht.
Qed.

Lemma entry_object o o' : entry o = EObject o' → o' = o.
Proof. unfold entry_of. repeat case_match; naive_solver. Qed.

Lemma entry_order o1 o2 : str_lt (oi_key o1) (oi_key o2) →
  entry o1 = entry o2 ∧ (∃ p, entry o2 = EPrefix p) ∨ str_lt (entry_name (entry o1)) (entry_name (entry o2)).
Proof.
  intros Hlt.
  assert (entry_name (entry o1) = oi_key o1 ∨ str_lt (entry_name (entry o1)) (oi_key o1)) as Hle.
  { destruct (entry o1) as [o|p] eqn:E; [apply entry_object in E as ->; by left|]. cbn.
    apply entry_prefix in E as [[r Hr] _]. rewrite Hr. apply str_le_prefix. }
  destruct (entry o2) as [o|p] eqn:E2.
  - apply entry_object in E2 as ->. right. cbn. destruct Hle as [->|Hle]; [done|]. by etrans.
  - apply entry_prefix in E2 as [[r Hr] Hall]. rewrite Hr in Hlt.
    destruct (String.prefix p (oi_key o1)) eqn:Hp.
    + apply prefix_spec in Hp as [r' Hr']. left. split; [by apply (Hall o1 r')|by exists p].
    + right. cbn. assert (str_lt (oi_key o1) p) as Hlt'.
      { eapply str_lt_prefix; [done|]. intros r' E. assert (String.prefix p (oi_key o1) = true) by (apply prefix_spec; by exists r'). congruence. }
      destruct Hle as [->|Hle]; [done|]. by etrans.
Qed.

(** What is left of a listing after [prev] has been emitted. *)
Definition after_prev (prev : option string) (o : ObjectInfo) : Prop :=
  ∀ p, prev = Some p → entry o = EPrefix p ∨ str_lt p (entry_name (entry o)).

Lemma rollup_loop_spec infos prev : sorted_stream oi_key infos → (∀ o, o ∈ infos → after_prev prev o) →
  StronglySorted str_lt (entry_name <$> rollup_loop prefix delim infos prev)
  ∧ ∀ e, e ∈ rollup_loop prefix delim infos prev ↔ (∃ o, o ∈ infos ∧ e = entry o) ∧ ∀ p, prev = Some p → e ≠ EPrefix p.
Proof.
  revert prev. induction infos as [|o infos IH]; intros prev Hs Hp.
  { split; [constructor|]. intros e. cbn. rewrite elem_of_nil. split; [done|]. intros [(o & Ho & _) _]. by apply elem_of_nil in Ho. }
  assert (sorted_stream oi_key infos) as Hs'.
  { unfold sorted_stream in *. rewrite fmap_cons in Hs. by apply StronglySorted_inv in Hs as [? _]. }
  assert (∀ o', o' ∈ infos → str_lt (oi_key o) (oi_key o')) as Hlt by (intros o' Ho'; by apply (sorted_stream_head oi_key o infos o')).
  assert (∀ o', o' ∈ infos → after_prev prev o') as Hp' by (intros o' Ho'; apply Hp; by right).
  cbn [rollup_loop]. destruct (entry o) as [o1|p1] eqn:Eo.
  - destruct (IH prev Hs' Hp') as [Hsorted Hel]. pose proof (entry_object o o1 Eo) as ->. split.
    + rewrite fmap_cons. constructor; [done|]. apply Forall_forall. intros n Hn. apply list_elem_of_fmap in Hn as (e & -> & He).
      apply Hel in He as [(o' & Ho' & ->) _]. destruct (entry_order o o' (Hlt o' Ho')) as [[E [p Ep]]|H]; [congruence|by rewrite Eo in H].
    + intros e. rewrite elem_of_cons, Hel. split.
      * intros [->|[(o' & Ho' & ->) Hne]].
        -- split; [exists o; split; [left|done]|]. intros p Hpp. done.
        -- split; [|done]. exists o'. split; [by right|done].
      * intros [(o' & [->|Ho']%elem_of_cons & ->) Hne]; [by left; rewrite Eo|]. right. split; [by exists o'|done].
  - assert (∀ o', o' ∈ infos → after_prev (Some p1) o') as Hp1.
    { intros o' Ho' p [= <-]. destruct (entry_order o o' (Hlt o' Ho')) as [[E _]|H]; [left; congruence|right; by rewrite Eo in H]. }
    destruct (decide (prev = Some p1)) as [->|Hne].
    + destruct (IH (Some p1) Hs' Hp1) as [Hsorted Hel]. split; [done|]. intros e. rewrite Hel. split.
      * intros [(o' & Ho' & ->) Hn]. split; [|done]. exists o'. split; [by right|done].
      * intros [(o' & [->|Ho']%elem_of_cons & ->) Hn]; [by destruct (Hn p1 eq_refl)|]. split; [by exists o'|done].
    + destruct (IH (Some p1) Hs' Hp1) as [Hsorted Hel]. split.
      * rewrite fmap_cons. constructor; [done|]. apply Forall_forall. intros n Hn. apply list_elem_of_fmap in Hn as (e & -> & He).
        apply Hel in He as [(o' & Ho' & ->) Hn]. cbn. destruct (Hp1 o' Ho' p1 eq_refl) as [E|]; [|done]. by destruct (Hn p1 eq_refl).
      * intros e. rewrite elem_of_cons, Hel. split.
        -- intros [->|[(o' & Ho' & ->) Hn]].
           ++ split; [exists o; split; [left|done]|]. intros p Hpp [= <-]. done.
           ++ split; [exists o'; split; [by right|done]|]. intros p Hpp E. subst prev.
              destruct (Hp o ltac:(left) p eq_refl) as [E'|H1]; [congruence|]. rewrite Eo in H1. cbn in H1.
              destruct (Hp1 o' Ho' p1 eq_refl) as [E'|H2]; [congruence|]. rewrite E in H2. cbn in H2.
              apply (irreflexivity str_lt p1). by etrans.
        -- intros [(o' & [->|Ho']%elem_of_cons & ->) Hn]; [by left|]. destruct (Hp1 o' Ho' p1 eq_refl) as [E|E]; [by left|].
           right. split; [by exists o'|]. intros p [= <-] E'. rewrite E' in E. cbn in E. by apply (irreflexivity str_lt p1).
Qed.
End entries.

(** ** Lemmas: sorted lists *)

Section sorted.
Context {A : Type} (key : A → string).

Lemma sorted_lookup_lt l i j x y : sorted_stream key l → l !! i = Some x → l !! j = Some y → i < j → str_lt (key x) (key y).
Proof.
  unfold sorted_stream. revert i j. induction l as [|z l IH]; intros i j Hs Hi Hj Hij; [done|].
  rewrite fmap_cons in Hs. apply StronglySorted_inv in Hs as [Hs Hz]. destruct j as [|j]; [lia|]. destruct i as [|i].
  - injection Hi as ->. rewrite Forall_forall in Hz. apply Hz. apply list_elem_of_fmap. exists y. split; [done|].
    by eapply list_elem_of_lookup_2.
  - by apply (IH i j Hs Hi Hj ltac:(lia)).
Qed.

Lemma after_lookup l i j x y : sorted_stream key l → l !! i = Some x → l !! j = Some y →
  str_ltb (key x) (key y) = true ↔ i < j.
Proof.
  intros Hs Hi Hj. split; [|by apply (sorted_lookup_lt l)].
  intros Hlt. destruct (decide (i < j)) as [|Hge]; [done|]. exfalso. apply (irreflexivity str_lt (key y)).
  destruct (decide (i = j)) as [->|Hne]; [by simplify_eq|].
  etrans; [eapply (sorted_lookup_lt l j i); [done..|lia]|done].
Qed.

Lemma find_after l i x : sorted_stream key l → l !! i = Some x →
  list_find (λ y, str_ltb (key x) (key y) = true) l = (λ y, (S i, y)) <$> l !! S i.
Proof.
  intros Hs Hi. destruct (l !! S i) as [y|] eqn:Hy; cbn.
  - apply list_find_Some. split_and!; [done|apply (after_lookup l i (S i)); [done..|lia]|].
    intros j z Hz Hj Hlt. apply (after_lookup l i j x z Hs Hi Hz) in Hlt. lia.
  - apply list_find_None. apply Forall_forall. intros z [j Hz]%list_elem_of_lookup_1 Hlt. apply (after_lookup l i j x z Hs Hi Hz) in Hlt.
    apply lookup_ge_None_1 in Hy. apply lookup_lt_Some in Hz. lia.
Qed.

Lemma filter_after l i x : sorted_stream key l → l !! i = Some x →
  filter (λ y, str_ltb (key x) (key y) = true) l = drop (S i) l.
Proof.
  intros Hs Hi. rewrite <-(take_drop (S i) l) at 1. rewrite filter_app.
  rewrite (filter_all _ (drop (S i) l)).
  2: { intros y [j Hy]%list_elem_of_lookup_1. rewrite lookup_drop in Hy. apply (after_lookup l i (S i + j)); [done..|lia]. }
  rewrite filter_none; [done|]. intros y [j Hy]%list_elem_of_lookup_1. apply lookup_take_Some in Hy as [Hy Hj].
  intros Hlt. apply (after_lookup l i j x y Hs Hi Hy) in Hlt. lia.
Qed.

Lemma sorted_omap {B} (g : A → option B) (h : B → string) l : (∀ x y, g x = Some y → h y = key x) →
  sorted_stream key l → sorted_stream h (omap g l).
Proof.
  intros Hg. unfold sorted_stream. induction l as [|x l IH]; [constructor|]. rewrite fmap_cons. intros [Hs Hx]%StronglySorted_inv.
  cbn. destruct (g x) as [y|] eqn:Hy; [|by apply IH]. rewrite fmap_cons. constructor; [by apply IH|].
  rewrite Forall_forall in *. intros n (z & -> & (w & Hw & Hz)%list_elem_of_omap)%list_elem_of_fmap.
  rewrite (Hg _ _ Hy), (Hg _ _ Hz). apply Hx. apply list_elem_of_fmap. by exists w.
Qed.
End sorted.

Lemma drop_sorted n (l : list ObjectInfo) : sorted_stream oi_key l → sorted_stream oi_key (drop n l).
Proof.
  unfold sorted_stream. revert l. induction n as [|n IH]; intros [|o l] Hs; [done..|]. apply IH.
  rewrite fmap_cons in Hs. by apply StronglySorted_inv in Hs as [? _].
Qed.

Lemma sort_by_key_id infos : sorted_stream oi_key infos → sort_by by_key infos = infos.
Proof.
  unfold sorted_stream. induction infos as [|o infos IH]; [done|]. rewrite fmap_cons. intros [Hs Ho]%StronglySorted_inv.
  unfold sort_by in *. cbn [foldr]. rewrite IH by done. destruct infos as [|o' infos]; [done|]. cbn.
  rewrite fmap_cons in Ho. apply Forall_cons in Ho as [Ho _]. revert Ho. unfold str_lt, str_ltb, String.ltb, by_key.
  destruct (String.compare (oi_key o) (oi_key o')) eqn:E; [done| |done]. done.
Qed.

(** ** Paging *)

(** What a listing of [all] promises to its callers. *)
Definition after (cursor : option string) (o : ObjectInfo) : Prop :=
  match cursor with Some c => str_ltb c (oi_key o) = true | None => True end.
#[global] Instance after_dec cursor o : Decision (after cursor o).
Proof. unfold after. case_match; apply _. Defined.
Definition page_of (all : list ObjectInfo) (cursor : option string) (max : nat) : list ObjectInfo :=
  let l := filter (after cursor) all in if max =? 0 then l else take (S max) l.

Class ObjectLister {E} (engine : BucketEngine E) (bucket prefix : string) (st : E) (all : list ObjectInfo) := {
  ol_sorted : sorted_stream oi_key all;
  ol_list cursor max : be_list engine bucket prefix cursor max st = Some (Ok (page_of all cursor max))
}.

Definition entry_for (prefix : string) (delimiter : option string) (o : ObjectInfo) : ListEntry :=
  match delimiter with Some d => entry_of prefix d o | None => EObject o end.
Definition entries_for (prefix : string) (delimiter : option string) (all : list ObjectInfo) : list ListEntry :=
  match delimiter with Some d => rollup_entries all prefix d | None => EObject <$> all end.

Lemma entries_for_spec prefix delimiter all : sorted_stream oi_key all →
  sorted_stream entry_name (entries_for prefix delimiter all)
  ∧ ∀ e, e ∈ entries_for prefix delimiter all ↔ ∃ o, o ∈ all ∧ e = entry_for prefix delimiter o.
Proof.
  intros Hs. destruct delimiter as [d|]; cbn.
  - destruct (rollup_loop_spec prefix d all None Hs) as [H1 H2]; [by intros o _ p|]. split; [done|]. intros e.
    unfold rollup_entries. rewrite H2. split; [by intros [? _]|]. intros He. split; [done|]. by intros p.
  - split; [unfold sorted_stream; by rewrite <-list_fmap_compose|]. intros e. rewrite list_elem_of_fmap.
    split; intros (o & ? & ?); by exists o.
Qed.

(** The token a page that ends before position [j] returns. *)
Definition cursor_at (entries : list ListEntry) (j : nat) : option string :=
  match j with 0 => None | S i => entry_name <$> entries !! i end.

Section paging.
Context {E : Type} (engine : BucketEngine E) (bucket prefix : string) (st : E) (all : list ObjectInfo).
Context `{!ObjectLister engine bucket prefix st all}.
Context (delimiter : option string).
Abbreviation entries := (entries_for prefix delimiter all).

Lemma list_page_at j max : 0 < max → j ≤ length entries →
  list_page engine bucket prefix delimiter (cursor_at entries j) max st
  = Some (Ok (take max (drop j entries), j + max <? length entries,
              if j + max <? length entries then cursor_at entries (j + max) else None)).
Proof.
  intros Hmax Hj. unfold list_page. pose proof (entries_for_spec prefix delimiter all ol_sorted) as [Hs _].
  destruct delimiter as [d|].
  - rewrite ol_list. cbn [mbind option_bind page_of Nat.eqb]. rewrite filter_all by done. rewrite sort_by_key_id by apply ol_sorted.
    change (rollup_entries all prefix d) with (entries_for prefix (Some d) all) in *.
    set (es := entries_for prefix (Some d) all) in *.
    assert (match cursor_at es j with
            | Some c => match list_find (λ e, str_ltb c (entry_name e) = true) es with Some (i, _) => i | None => length es end
            | None => 0 end = j) as ->.
    { destruct j as [|i]; [done|]. destruct (lookup_lt_is_Some_2 es i) as [e He]; [lia|]. cbn [cursor_at]. rewrite He. cbn [fmap option_fmap option_map].
      rewrite (find_after entry_name es i e Hs He). destruct (es !! S i) eqn:Hi; [done|]. apply lookup_ge_None_1 in Hi. fold es. cbn [fmap option_fmap option_map]. lia. }
    destruct (j + max <? length es) eqn:Hlt; to_prop.
    + rewrite Nat.min_l by lia. assert ((j + max <? length es) = true) as -> by (apply Nat.ltb_lt; lia).
      destruct (lookup_lt_is_Some_2 es (j + max - 1)) as [e He]; [lia|].
      assert (cursor_at es (j + max) = Some (entry_name e)) as ->.
      { replace (j + max) with (S (j + max - 1)) by lia. cbn [cursor_at]. by rewrite He. }
      rewrite He. cbn [mbind option_bind]. by replace (j + max - j) with max by lia.
    + rewrite Nat.min_r by lia. rewrite Nat.ltb_irrefl. cbn [mbind option_bind]. by rewrite !take_ge by (rewrite length_drop; lia).
  - rewrite ol_list. cbn [mbind option_bind].
    assert (page_of all (cursor_at (entries_for prefix None all) j) max = take (S max) (drop j all)) as ->.
    { unfold page_of. rewrite (proj2 (Nat.eqb_neq max 0)) by lia. f_equal. destruct j as [|i]; cbn [cursor_at].
      - by rewrite filter_all.
      - cbn [entries_for] in *. rewrite length_fmap in Hj. destruct (lookup_lt_is_Some_2 all i) as [o Ho]; [lia|].
        rewrite list_lookup_fmap, Ho. apply (filter_after oi_key); [apply ol_sorted|done]. }
    cbn [entries_for] in *. rewrite length_fmap in *.
    rewrite sort_by_key_id by apply take_sorted, drop_sorted, ol_sorted.
    rewrite length_take, length_drop, take_take. rewrite <-fmap_drop, <-fmap_take.
    destruct (j + max <? length all) eqn:Hlt; to_prop.
    + rewrite (proj2 (Nat.ltb_lt _ _)) by lia. replace (Nat.min _ _) with max by lia. do 3 f_equal.
      replace (j + max) with (S (j + max - 1)) by lia. cbn [cursor_at]. rewrite list_lookup_fmap.
      rewrite last_lookup, length_take, length_drop, lookup_take by lia. rewrite lookup_drop.
      replace (j + Nat.pred _) with (j + max - 1) by lia. rewrite decide_True by lia. by destruct (all !! (j + max - 1)).
    + rewrite (proj2 (Nat.ltb_ge _ _)) by lia. by rewrite !take_ge by (rewrite length_drop; lia).
Qed.

(** A client that follows the tokens. *)
Fixpoint follow {A} (fetch : option string → option A) (next : A → option (option string)) (fuel : nat) (cursor : option string) :
    option (list A) :=
  match fuel with
  | 0 => None
  | S fuel =>
      doc ← fetch cursor;
      match next doc with
      | Some token => docs ← follow fetch next fuel token; Some (doc :: docs)
      | None => Some [doc]
      end
  end.

Lemma follow_pages {A} (fetch : option string → option A) (next : A → option (option string)) (doc_of : list ListEntry → A → Prop) max :
  0 < max →
  (∀ j, j ≤ length entries → ∃ doc, fetch (cursor_at entries j) = Some doc ∧ doc_of (take max (drop j entries)) doc
     ∧ next doc = if j + max <? length entries then Some (cursor_at entries (j + max)) else None) →
  ∀ fuel j, j ≤ length entries → length entries - j < fuel →
  ∃ docs pages, follow fetch next fuel (cursor_at entries j) = Some docs ∧ Forall2 doc_of pages docs
    ∧ concat pages = drop j entries ∧ Forall (λ p, length p ≤ max) pages.
Proof.
  intros Hmax Hf. induction fuel as [|fuel IH]; intros j Hj Hfuel; [lia|].
  destruct (Hf j Hj) as (doc & Hd & Hp & Hn). cbn [follow]. rewrite Hd. cbn [mbind option_bind]. rewrite Hn.
  assert (length (take max (drop j entries)) ≤ max) as Hlen by (rewrite length_take; lia).
  destruct (j + max <? length entries) eqn:Hlt; to_prop.
  - destruct (IH (j + max)) as (docs & pages & -> & H2 & Hc & Hl); [lia..|].
    exists (doc :: docs), (take max (drop j entries) :: pages). split_and!; [done|by constructor| |by constructor].
    cbn. rewrite Hc, <-drop_drop. apply take_drop.
  - exists [doc], [take max (drop j entries)]. split_and!; [done|by repeat constructor| |by repeat constructor].
    cbn. rewrite app_nil_r. apply take_ge. rewrite length_drop. lia.
Qed.
End paging.

Definition with_token (query : BucketQuery) (token : option string) : BucketQuery :=
  {| bq_location := bq_location query; bq_versioning := bq_versioning query; bq_list_type := bq_list_type query;
     bq_force := bq_force query; bq_prefix := bq_prefix query; bq_max_keys := bq_max_keys query;
     bq_continuation_token := token; bq_start_after := bq_start_after query; bq_delimiter := bq_delimiter query;
     bq_marker := bq_marker query |}.

Section walk.
Context (rfc3339 : Z → option string) {E : Type} (engine : BucketEngine E).

(** The documents of [GET ?list-type=2] up to the one that is not truncated. *)
Definition list_walk (fuel : nat) (bucket : string) (query : BucketQuery) (st : E) : option (list ListBucketResult) :=
  follow (λ token, r ← list_objects_v2 rfc3339 engine bucket (with_token query token) st;
                   match r with Ok (ListReply doc) => Some doc | _ => None end)
         (λ doc, if lr_is_truncated doc then Some (lr_next_continuation_token doc) else None) fuel None.
End walk.

Lemma max_keys_range query : (1 ≤ max_keys_of query ≤ 1000)%Z.
Proof. unfold max_keys_of, clamp, LIST_HARD_CAP_MAX_KEYS. lia. Qed.

Lemma entries_for_length prefix delimiter all : length (entries_for prefix delimiter all) ≤ length all.
Proof.
  destruct delimiter as [d|]; cbn; [|by rewrite length_fmap]. unfold rollup_entries. generalize (@None string).
  induction all as [|o all IH]; intros prev; [done|]. cbn [rollup_loop length].
  destruct (entry_of prefix d o); [cbn; specialize (IH prev); lia|].
  case_decide; [specialize (IH prev)|cbn; specialize (IH (Some prefix0))]; lia.
Qed.

Section complete.
Context (rfc3339 : Z → option string) {E : Type} (engine : BucketEngine E) (bucket : string) (query : BucketQuery).
Context (st : E) (all : list ObjectInfo).

Definition as_object (e : ListEntry) : option ListBucketObject :=
  match e with EObject info => Some (object_to_xml rfc3339 None info) | EPrefix _ => None end.
Definition as_prefix (e : ListEntry) : option string := match e with EObject _ => None | EPrefix p => Some p end.
Definition doc_of (page : list ListEntry) (doc : ListBucketResult) : Prop :=
  lr_contents doc = omap as_object page ∧ lr_common_prefixes doc = omap as_prefix page.

Lemma walk_pages `{!ObjectLister engine bucket (default "" (bq_prefix query)) st all} : bq_start_after query = None →
  let entries := entries_for (default "" (bq_prefix query)) (delimiter_of query) all in
  ∃ docs pages, list_walk rfc3339 engine (S (length all)) bucket query st = Some docs ∧ Forall2 doc_of pages docs
    ∧ concat pages = entries ∧ Forall (λ p, length p ≤ Z.to_nat (max_keys_of query)) pages.
Proof.
  intros Hsa entries. pose proof (max_keys_range query) as Hr.
  apply (follow_pages (default "" (bq_prefix query)) all (delimiter_of query) _ _ doc_of (Z.to_nat (max_keys_of query)))
    with (j := 0); [lia| |lia|].
  2: { pose proof (entries_for_length (default "" (bq_prefix query)) (delimiter_of query) all). lia. }
  intros j Hj. unfold list_objects_v2. cbn [with_token bq_prefix bq_continuation_token bq_start_after].
  assert (match cursor_at entries j with Some t => Some t | None => bq_start_after query end = cursor_at entries j) as Hc
    by (destruct (cursor_at entries j); by rewrite ?Hsa).
  change (max_keys_of (with_token query ?t)) with (max_keys_of query). change (delimiter_of (with_token query ?t)) with (delimiter_of query).
  fold entries in Hj |- *. rewrite Hc.
  pose proof (list_page_at engine bucket _ st all (delimiter_of query) j (Z.to_nat (max_keys_of query)) ltac:(lia) Hj) as Hp.
  fold entries in Hp. rewrite Hp.
  cbn [mbind option_bind split_page]. eexists. split; [reflexivity|]. split; [by split|].
  cbn [lr_is_truncated lr_next_continuation_token]. by destruct (_ <? _).
Qed.
End complete.

Lemma concat_omap {A B C} (f : A → option B) (g : C → list B) (R : list A → C → Prop) pages docs :
  Forall2 R pages docs → (∀ p d, R p d → g d = omap f p) → concat (g <$> docs) = omap f (concat pages).
Proof.
  intros Hf Hg. induction Hf as [|p d pages docs HR _ IH]; [done|]. rewrite fmap_cons. cbn [concat].
  by rewrite IH, (Hg p d HR), omap_app.
Qed.
Lemma omap_lengths {A B C} (f : A → option B) (g : A → option C) l : (∀ x, f x = None ∨ g x = None) →
  length (omap f l) + length (omap g l) ≤ length l.
Proof.
  intros H. induction l as [|x l IH]; [done|]. cbn. destruct (H x) as [-> | ->]; [destruct (g x)|destruct (f x)]; cbn; lia.
Qed.

(** C11.  Listing a bucket page by page.  Over any engine that answers a listing
    with the objects after the cursor in key order, a client that repeats
    [GET ?list-type=2] with the returned continuation token until a page is not
    truncated terminates, and the pages together are the bucket: every object
    with the prefix that is not rolled up appears exactly once, in key order,
    every common prefix exactly once and in order, nothing else, and no page holds
    more than [max-keys] entries. *)
Theorem list_pages_complete (rfc3339 : Z → option string) {E} (engine : BucketEngine E) bucket query st all :
  ObjectLister engine bucket (default "" (bq_prefix query)) st all → bq_start_after query = None →
  let entry := entry_for (default "" (bq_prefix query)) (delimiter_of query) in
  ∃ docs, list_walk rfc3339 engine (S (length all)) bucket query st = Some docs
    ∧ let contents := concat (lr_contents <$> docs) in
      let prefixes := concat (lr_common_prefixes <$> docs) in
      StronglySorted str_lt (lo_key <$> contents) ∧ StronglySorted str_lt prefixes
      ∧ (∀ x, x ∈ contents ↔ ∃ o, o ∈ all ∧ entry o = EObject o ∧ x = object_to_xml rfc3339 None o)
      ∧ (∀ p, p ∈ prefixes ↔ ∃ o, o ∈ all ∧ entry o = EPrefix p)
      ∧ Forall (λ doc, (Z.of_nat (length (lr_contents doc) + length (lr_common_prefixes doc)) ≤ max_keys_of query)%Z) docs.
Proof.
  intros HL Hsa entry. destruct (entries_for_spec (default "" (bq_prefix query)) (delimiter_of query) all ol_sorted) as [Hs Hel].
  destruct (walk_pages rfc3339 engine bucket query st all Hsa) as (docs & pages & Hw & H2 & Hc & Hl).
  exists docs. split; [exact Hw|]. cbn zeta.
  rewrite (concat_omap (as_object rfc3339) _ _ _ _ H2), (concat_omap as_prefix _ _ _ _ H2), Hc by (by intros p d [? ?]).
  split_and!.
  - refine (sorted_omap entry_name _ lo_key _ _ Hs). by intros [o|p] y [= <-].
  - pose proof (sorted_omap entry_name as_prefix id _ ltac:(by intros [o|p] y [= <-]) Hs) as Hp. unfold sorted_stream in Hp.
    by rewrite list_fmap_id in Hp.
  - intros x. rewrite list_elem_of_omap. split.
    + intros (e & (o & Ho & ->)%Hel & Hx). exists o. fold entry in Hx. destruct (entry o) as [o'|p] eqn:Eo; [|done].
      injection Hx as <-. assert (o' = o) as ->; [|done]. revert Eo. unfold entry, entry_for. case_match; [apply entry_object|by intros [= ->]].
    + intros (o & Ho & Eo & ->). exists (EObject o). split; [|done]. apply Hel. exists o. by rewrite <-Eo.
  - intros p. rewrite list_elem_of_omap. split.
    + intros (e & (o & Ho & ->)%Hel & Hx). exists o. fold entry in Hx. destruct (entry o) as [o'|p'] eqn:Eo; [done|].
      by injection Hx as <-.
    + intros (o & Ho & Eo). exists (EPrefix p). split; [|done]. apply Hel. exists o. by rewrite <-Eo.
  - pose proof (max_keys_range query). apply Forall_forall. intros doc Hd. apply list_elem_of_lookup_1 in Hd as [i Hi].
    destruct (Forall2_lookup_r _ _ _ _ _ H2 Hi) as (p & Hp & -> & ->).
    assert (length p ≤ Z.to_nat (max_keys_of query)) by (by eapply Forall_lookup_1 in Hl; [|exact Hp]).
    pose proof (omap_lengths (as_object rfc3339) as_prefix p ltac:(intros [?|?]; auto)). lia.
Qed.


(** ** Evaluation *)

Definition sample_object (k : string) : ObjectInfo := to_object_info "b" (sample_record k "e" 1).2.
Definition sample_bucket : list ObjectInfo := sample_object <$> ["a"; "d/1"; "d/2"; "e"].
Definition sample_engine : BucketEngine unit :=
  {| be_list _ _ cursor max _ := Some (Ok (page_of sample_bucket cursor max)); be_create_bucket _ _ _ := Some (Ok (), ());
     be_delete_bucket _ _ _ := Some (Ok (), ()); be_stat_bucket _ _ := Some (Ok ()); be_get_bucket_versioning _ _ := Some (Ok Unversioned);
     be_put_bucket_versioning _ _ _ := Some (Ok (), ()); be_list_buckets _ := Some (Ok []) |}.
Definition sample_query (delimiter : option string) : BucketQuery :=
  {| bq_location := None; bq_versioning := None; bq_list_type := Some "2"; bq_force := None; bq_prefix := None; bq_max_keys := Some 1%Z;
     bq_continuation_token := None; bq_start_after := None; bq_delimiter := delimiter; bq_marker := None |}.

Example sample_pages :
  option_map (map (λ d, (map lo_key (lr_contents d), lr_common_prefixes d, lr_next_continuation_token d)))
    (list_walk (λ _, None) sample_engine 5 "b" (sample_query (Some "/")) ())
  = Some [(["a"], [], Some "a"); ([], ["d/"], Some "d/"); (["e"], [], None)].
Proof. vm_compute. reflexivity. Qed.

Lemma list_pages_complete_witness :
  ∃ docs, list_walk (λ _, None) sample_engine 5 "b" (sample_query (Some "/")) () = Some docs
    ∧ StronglySorted str_lt (concat (lr_common_prefixes <$> docs)).
Proof.
  destruct (list_pages_complete (λ _, None) sample_engine "b" (sample_query (Some "/")) () sample_bucket) as (docs & Hw & _ & Hp & _).
  - constructor; [repeat constructor|done].
  - reflexivity.
  - exists docs. split; [exact Hw|exact Hp].
Defined.
